(* ===== verification/_CoqProject ===== *)
-Q . S2P
Prelude.v
Gob.v
Labgob.v
RaftLog.v
GoSlice.v
Raft.v
Logging.v
Matching.v
Labrpc.v
Harness.v
ServiceHarness.v
RaftHarness.v
Voting.v
Ballot.v
RaftFacts.v
RaftSpec.v
RaftNet.v
RaftElection.v
Completeness.v
RaftMatching.v
RaftSafety.v
RaftDelivery.v
RaftTraces.v
RaftHarnessFacts.v
Bitset.v
Porcupine.v
PorcupineList.v
PorcupineSearch.v
PorcupineFacts.v
PorcupineCheck.v
PorcupineVisual.v
PorcupineLayout.v
PorcupineView.v
Storage.v
Transport.v
GrpcLifecycle.v
Node.v
NodeFacts.v
NodeSteps.v
NodeNet.v
NodeElection.v
NodeMatching.v
NodeTraces.v
NodeApply.v
ExampleProgram.v
Service.v
KVRaft.v
KVReplicas.v
ShardCtrler.v
ShardCtrlerFacts.v
ShardKV.v
ShardKVFacts.v
ServiceHarnessFacts.v
ShardHarness.v
