(* ===== verification/Prelude.v ===== *)
(** A verification of Multi-Raft: the Raft library, the replicated services built
    on it, the simulated network they are tested on and the linearizability
    checker that judges them.  This file holds the vocabulary the others share.

    * The program

    [src/src/raft] contains two implementations of Raft.  [raft.go] and the files
    [raft_*.go] are a peer that talks over [labrpc] and saves its state in a
    [Persister]; the key/value services are built on it.  [node.go] is a library
    node on exchangeable storage ([storage*.go]) and transport ([transport*.go]).
    Both use the log of [raft_log.go].  Three services replicate a state machine
    through [raft.go]: [kvraft], the shard controller [shardctrler], and the sharded
    store [shardkv], whose groups follow the configurations of the controller and
    hand shards to each other.  [labrpc] is the network of the tests, [labgob] the
    encoding, and [porcupine] with [models/kv.go] decides whether the history of a
    test is linearizable, and draws what it found.  The [config.go] of each package
    is the harness its tests run clusters in.

    * How the code is modelled

    Code that runs under a lock is one definition, a function from the state of its
    component to a new state and a reply.  Where the code releases the lock (around
    an RPC, a channel, a [Wait]), the definition ends and the next one begins, and
    the network models ([RaftNet], [NodeNet], [Labrpc]) interleave them with one
    another, with message loss and reordering and with crashes.  A Go panic is
    [None] (or [Panic], in the services, whose handlers can also block for ever with
    the lock held: type [res] of [Service]).  Clocks, random numbers, the order in
    which Go ranges over a map and the choice of [sort.Sort] among equal elements
    are arguments: theorems hold for all of them.  Calls of the logger are left out,
    except where evaluating their arguments can panic.

    Integers of type [int] are unbounded; their width is kept where the program
    narrows or packs them: the words of [Bitset], the [int32] fields of the gRPC
    messages and the counters of [Labrpc].  Third-party code is a class with its
    documented behaviour as laws: gob ([GobType], [GobBytes]), Badger ([Badger],
    [BadgerLaws]); each class has an instance, so the laws can hold.

    * The files

    - [Prelude] (this file): slices, sorting, options, majorities.
    - [Gob]: [labgob.go]; streams of values.  [Labgob]: the checks of field names and
      default values it runs before gob.
    - [RaftLog], [GoSlice]: [raft_log.go], once with the log as a value and once with
      [tailLog] as a view of a shared array.
    - [Raft]: the peer of [raft.go], [raft_election.go], [raft_replication.go],
      [raft_compaction.go], [raft_application.go], [raft_persistence.go] and
      [persister.go].  [RaftFacts]: its invariant [peer_inv]; [RaftSpec]: what each
      handler promises.  [Logging]: [util.go] and the descriptions of the log and of the
      messages that it prints.
    - [Labrpc]: [labrpc.go], with every goroutine of a call.
    - [Harness], [ServiceHarness], [RaftHarness], [ShardHarness]: the test harnesses
      ([config.go] of the packages): the objects of the network they share, the
      harness of [kvraft] and [shardctrler], that of [raft] and that of [shardkv];
      [ServiceHarnessFacts], [RaftHarnessFacts]: what they guarantee a test.
    - [Voting]: the contract of an election.  [Ballot]: the same with messages.
    - [RaftNet], [RaftElection], [RaftTraces]: clusters of [raft.go] peers, that they
      implement [Ballot], and runs of them.  [Matching]: logs that agree up to an
      index, and the bookkeeping of who created an entry; [RaftMatching],
      [NodeMatching]: Log Matching for both clusters.  [Completeness]: histories of
      leaders, votes and acknowledgements, and why a committed log is in every later
      leader's; [RaftSafety]: the history of a cluster of [raft.go] peers, step by step;
      [RaftDelivery]: what its peers deliver.
    - [Storage], [Transport], [Node]: [storage*.go], [transport*.go], [node.go].
      [GrpcLifecycle]: starting, dialling, serving and stopping of the gRPC transport,
      interleaved.
      [NodeFacts], [NodeSteps]: one node; [NodeNet], [NodeElection], [NodeTraces]:
      clusters of them; [NodeApply]: the application ticker.
      [ExampleProgram]: [example/main.go], a node as a program.
    - [Service]: what the services share, with the interface [RaftPeer] between a
      service and its peer.  [KVRaft], [ShardCtrler] with [ShardCtrlerFacts],
      [ShardKV] with [ShardKVFacts]: the services, their clerks and background tasks.
      [KVReplicas]: the kvraft servers on the peers of one cluster.
    - [Bitset], [Porcupine]: the checker of [src/src/porcupine].  [PorcupineList]: its
      linked list; [PorcupineSearch]: its search; [PorcupineFacts], [PorcupineCheck]:
      what it decides; [PorcupineVisual]: the data of the page that shows a check;
      [PorcupineLayout], [PorcupineView]: the script of that page, its layout, drawing
      and reaction to the mouse.

    * What is proved

    _Elections._  Both clusters implement [Voting], by way of [Ballot], so a term has
    at most one leader ([election_safety], [node_election_safety],
    [raft_net_refines_voting]), with crashes at any point between critical
    sections: what a peer promised is always in its persister ([crash_loses_nothing]).

    _Replication._  What the handlers do on every branch ([AppendEntries_spec],
    [RequestVote_granted_iff], [votes_are_final], [leader_append_only]), when an index
    is committed ([commit_rule]) and what the application tickers deliver
    ([apply_round_spec], [node_round_spec], [applier_never_sleeps_on_work]).  No
    critical section of a node panics in a reachable state, its application ticker
    excepted ([node_never_panics]).  Log Matching holds in runs in which no installed
    snapshot keeps entries of another term behind it ([log_matching],
    [node_log_matching]), and [install_breaks_log_matching] is a run that shows why that
    is assumed.  For [raft.go] they also assume that requests are encoded with the entries
    they were built with: the slice in a request shares the array of its sender's log, and
    the network has a step, [EOverwrite], that changes it ([request_entries_change] is how,
    [requests_kept] says when not); for [node.go], that the transport delivers entries as
    they were sent, which gRPC does not always ([EConvert], [grpc_append_faithful]).
    Leader Completeness and State Machine Safety hold of the cluster of
    [raft.go] peers in runs in which moreover no [AppendEntries] cuts off entries that it
    does not contradict ([leader_completeness], [state_machine_safety]).  Without that
    condition they do not hold of either implementation, and
    [state_machine_safety_violated] and [restarts_break_state_machine_safety] are runs
    that violate them.

    _Log, storage, transport._  The log on shared arrays implements the log as a value
    ([slice_log_refines]); requests built from it do not ([request_entries_change]).
    The two storages cannot be told apart by keys and batches Badger accepts, except by
    [Sync] after [Close] ([stores_agree]).  A message crosses gRPC
    unchanged exactly when it fits ([grpc_append_faithful]).  [labrpc] executes and
    answers a request at most once ([at_most_once]), confirms for a deleted server only
    what was already held back in a timer ([deleted_server_confirms_iff]) and lets every
    call return ([call_returns]).  The gRPC transport leaks no connection ([connections_tracked]);
    its [Stop] can wait for ever, and [stop_returns_iff] says when.  [labgob] checks
    every type it can reach and reports each bad field once
    ([checkType_complains_once]).

    _Test harnesses._  The judge of the Raft tests accepts exactly the deliveries that
    agree ([applier_accepts_iff]), and never raises a false alarm about the commands or
    the leaders of the verified cluster ([judge_accepts_cluster],
    [checkOneLeader_round]); the network of a test is what its
    bookkeeping says ([links_follow_connected], [partition_isolates_leader]), and a
    restarted server gets what was persisted ([restart_from_persisted]).

    _Services._  Retransmitted requests are executed once ([kv_exactly_once]); servers
    that read from the peers of one cluster agree ([kv_replicas_agree]); snapshots
    restore ([kv_snapshot_catch_up], [shardkv_snapshot_roundtrip]); [Join]
    balances without moving shards in and out of one group, [Leave] moves only the shards
    of the groups that leave, and replicas agree
    ([Join_balances], [Leave_moves_only_orphans], [ctrler_history],
    [ctrler_deterministic]); a group stays well formed and hands shards over without
    losing or repeating a write ([group_safe], [shard_handover],
    [migration_deterministic]).  [lost_write_acknowledged] is a run in which a handler
    answers with the result of another request.  The example program forgets its vote when it
    is started again ([example_votes_twice]).

    _Checker._  [checkSingle] terminates and decides whether its entries have a
    linearization ([checkSingle_decides]); [CheckOperations] decides linearizability in
    real time of every partition ([CheckOperations_spec]), unless there is no partition
    ([CheckOperations_empty_blocks]).  What it records on the way can always be drawn
    ([visualization_total]), and the page that shows it places everything as its comment
    promises ([layout_readable]), as far to the left as possible ([layout_least]), draws
    it inside the boxes ([drawing_inside]) and stays consistent under any sequence of
    mouse events ([page_consistent]).

    * Fuel

    [checkSingle] is iterated with fuel; [checkSingle_decides] gives, for every input,
    an amount from which on it returns.  [rebalance] in [Join] has the fuel
    [join_fuel], which [Join_balances] shows to be enough: every round moves a shard
    from a fullest to an emptiest group.  The loop over the committed entries in
    [Node] has one unit per index, the loop over the linked list in [Porcupine] one
    per node.  The retry loops of the clerks run over the answers they are given, a
    list, because with no live leader they do not end.

    * Not modelled

    The generated protocol buffers, which have no logic of their own; the HTML, the style sheet and the writing of the page of the
    visualization, whose script computes here with exact numbers where JavaScript has
    doubles; what [reflect] reports in [labrpc] and [labgob] (the methods and the shapes
    of types are arguments); sleeping and the real-time limits of the tests; listening
    and dialling of the gRPC transport and opening a Badger directory, whose outcomes
    are arguments.  The application ticker of [raft.go] reads the three fields of a
    snapshot message without the lock; here they are read together.  Leader Completeness and State Machine Safety are stated for [raft.go]
    only: a restarted [node.go] node can lose its log, as
    [restarts_break_state_machine_safety] shows. *)

From Stdlib Require Import ZArith Lia.
From stdpp Require Export base list gmap sorting option numbers.

#[local] Open Scope Z_scope.

(** ** Go slices indexed by [int]

    An index expression [l[i]] panics outside [0 <= i < len(l)]; a panic is
    [None] in the option monad used throughout the development. *)

Definition len {A} (l : list A) : Z := Z.of_nat (length l).

Definition slice_get {A} (l : list A) (i : Z) : option A :=
  if decide (0 ≤ i) then l !! Z.to_nat i else None.

Definition slice_set {A} (l : list A) (i : Z) (v : A) : option (list A) :=
  if decide (0 ≤ i < len l) then Some (<[Z.to_nat i := v]> l) else None.

(** [dst := make([]int, n); copy(dst, src)] *)
Definition make_copy (n : nat) (src : list Z) : list Z :=
  take n src ++ replicate (n - length src) 0.

(** [sort.Ints]: the ascending sort of a slice of integers. *)
Definition sort_Ints (l : list Z) : list Z := merge_sort Z.le l.

(** Number of elements of [l] that satisfy [P]. *)
Definition count (P : Z → Prop) `{∀ x, Decision (P x)} (l : list Z) : nat :=
  length (filter P l).

(** [for i := 0; i < n; i++ { body }], where [body] may panic. *)
Definition for_range {S : Type} (n : Z) (body : Z → S → option S) (s : S) : option S :=
  foldl (λ o i, o ≫= body i) (Some s) (seqZ 0 n).

Create HintDb goslice.

Section slices.
Context {A : Type}.
Implicit Types (l : list A) (i : Z) (v : A).

Lemma len_nonneg l : 0 ≤ len l.
Proof. unfold len; lia. Qed.

Lemma len_app l1 l2 : len (l1 ++ l2) = len l1 + len l2.
Proof. unfold len. rewrite length_app. lia. Qed.

Lemma slice_get_Some l i v :
  slice_get l i = Some v ↔ 0 ≤ i ∧ l !! Z.to_nat i = Some v.
Proof. unfold slice_get. case_decide; naive_solver. Qed.

Lemma slice_get_is_Some l i : is_Some (slice_get l i) ↔ 0 ≤ i < len l.
Proof.
  unfold slice_get, len. case_decide.
  - rewrite lookup_lt_is_Some. lia.
  - rewrite is_Some_alt. split; [done|lia].
Qed.

Lemma slice_get_None l i : slice_get l i = None ↔ ¬ (0 ≤ i < len l).
Proof. rewrite eq_None_not_Some, slice_get_is_Some. done. Qed.

Lemma slice_set_Some l i v l' :
  slice_set l i v = Some l' ↔ 0 ≤ i < len l ∧ l' = <[Z.to_nat i := v]> l.
Proof. unfold slice_set. case_decide; naive_solver. Qed.

Lemma slice_set_is_Some l i v : is_Some (slice_set l i v) ↔ 0 ≤ i < len l.
Proof. unfold slice_set. case_decide; rewrite is_Some_alt; naive_solver. Qed.

Lemma slice_set_len l i v l' : slice_set l i v = Some l' → len l' = len l.
Proof.
  rewrite slice_set_Some. intros [_ ->]. unfold len. by rewrite length_insert.
Qed.

Lemma slice_get_set l i j v l' :
  slice_set l i v = Some l' →
  slice_get l' j = if decide (i = j) then Some v else slice_get l j.
Proof.
  rewrite slice_set_Some. intros [Hi ->]. unfold slice_get, len in *.
  repeat case_decide; subst; try done; try lia.
  - rewrite list_lookup_insert_eq; [done|lia].
  - rewrite list_lookup_insert_ne; [done|lia].
Qed.
End slices.

#[export] Hint Resolve len_nonneg : goslice.

Section loops.
Context {S : Type}.
Implicit Types (body : Z → S → option S) (P : Z → S → Prop) (s : S).

Lemma foldl_bind_None body (l : list Z) :
  foldl (λ o i, o ≫= body i) None l = None.
Proof. induction l; simpl; done. Qed.

Lemma for_range_step n body s :
  0 ≤ n → for_range (n + 1) body s = for_range n body s ≫= body n.
Proof.
  intros Hn. unfold for_range. rewrite seqZ_app, foldl_app by lia.
  rewrite (seqZ_cons (0 + n) 1) by lia. rewrite (seqZ_nil (Z.succ _)) by lia.
  simpl. by rewrite Z.add_0_l.
Qed.

(** The invariant rule: [P i] before the iteration [i]; the loop does not panic
    and ends in [P n]. *)
Lemma for_range_inv n body P s :
  0 ≤ n → P 0 s →
  (∀ i s, 0 ≤ i < n → P i s → ∃ s', body i s = Some s' ∧ P (i + 1) s') →
  ∃ s', for_range n body s = Some s' ∧ P n s'.
Proof.
  intros Hn H0 Hstep.
  cut (∀ k, (k ≤ Z.to_nat n)%nat →
        ∃ s', for_range (Z.of_nat k) body s = Some s' ∧ P (Z.of_nat k) s').
  { intros H. destruct (H (Z.to_nat n)) as (s' & ? & ?); [lia|].
    rewrite Z2Nat.id in * by lia. eauto. }
  intros k. induction k as [|k IH]; intros Hk; [by exists s|].
  destruct IH as (s' & E & HP); [lia|]. rewrite Nat2Z.inj_succ, <-Z.add_1_r.
  rewrite for_range_step, E by lia. simpl. apply Hstep; [lia|done].
Qed.

(** The partial-correctness rule: whatever the loop returns satisfies [P]. *)
Lemma for_range_post n body P s s' :
  for_range n body s = Some s' → P 0 s →
  (∀ i s s', 0 ≤ i < n → P i s → body i s = Some s' → P (i + 1) s') →
  P (Z.max 0 n) s'.
Proof.
  intros E H0 Hstep.
  destruct (decide (n ≤ 0)).
  { rewrite Z.max_l by done. unfold for_range in E.
    rewrite seqZ_nil in E by done. by simplify_eq/=. }
  rewrite Z.max_r by lia.
  cut (∀ k, (k ≤ Z.to_nat n)%nat →
        ∀ s', for_range (Z.of_nat k) body s = Some s' → P (Z.of_nat k) s').
  { intros H. specialize (H (Z.to_nat n)). rewrite Z2Nat.id in * by lia. eauto. }
  clear E s'. intros k. induction k as [|k IH]; intros Hk s' E.
  { unfold for_range in E. simpl in E. by simplify_eq. }
  rewrite Nat2Z.inj_succ, <-Z.add_1_r in *. rewrite for_range_step in E by lia.
  apply bind_Some in E as (s1 & E1 & E2). apply (Hstep _ s1); [lia|apply IH; [lia|done]|done].
Qed.
End loops.

Section sort.
Implicit Types l : list Z.

Lemma StronglySorted_lookup_iff {A} (R : relation A) (l : list A) :
  StronglySorted R l ↔
  ∀ i j x y, (i < j)%nat → l !! i = Some x → l !! j = Some y → R x y.
Proof.
  split.
  - induction 1 as [|z l _ IH Hz]; [done|].
    intros [|i] [|j] x y Hij Hx Hy; simpl in *; try lia; simplify_eq.
    + rewrite Forall_lookup in Hz. eauto.
    + eapply (IH i j); eauto. lia.
  - induction l as [|z l IH]; intros H; constructor.
    + apply IH. intros i j x y Hij Hx Hy. apply (H (S i) (S j)); [lia|done|done].
    + apply Forall_lookup. intros i x Hx. apply (H 0%nat (S i)); [lia|done|done].
Qed.

Lemma sort_Ints_perm l : sort_Ints l ≡ₚ l.
Proof. apply merge_sort_Permutation. Qed.

Lemma sort_Ints_sorted l : StronglySorted Z.le (sort_Ints l).
Proof.
  apply Sorted_StronglySorted; [apply _|]. apply Sorted_merge_sort.
  intros x y. lia.
Qed.
End sort.

(** ** Counting, and the largest value a majority reaches *)

(** [m] is replicated on more than half of the peers, and nothing larger is. *)
Definition majority_index (n : Z) (matched : list Z) (m : Z) : Prop :=
  Z.quot n 2 < Z.of_nat (count (λ x, m ≤ x) matched) ∧
  ∀ m', m < m' → Z.of_nat (count (λ x, m' ≤ x) matched) ≤ Z.quot n 2.

Section majority.
Implicit Types (l : list Z) (m : Z).

Lemma count_app P `{∀ x : Z, Decision (P x)} l1 l2 :
  count P (l1 ++ l2) = (count P l1 + count P l2)%nat.
Proof. unfold count. by rewrite list.filter_app, length_app. Qed.

Lemma count_le P `{∀ x : Z, Decision (P x)} l : (count P l ≤ length l)%nat.
Proof. apply length_filter. Qed.

Lemma count_all P `{∀ x : Z, Decision (P x)} l :
  (∀ i x, l !! i = Some x → P x) → count P l = length l.
Proof.
  unfold count. induction l as [|y l IH]; intros HP; [done|].
  rewrite filter_cons_True by exact (HP 0%nat y eq_refl). simpl. f_equal.
  apply IH. intros i. exact (HP (S i)).
Qed.

Lemma count_none P `{∀ x : Z, Decision (P x)} l :
  (∀ i x, l !! i = Some x → ¬ P x) → count P l = 0%nat.
Proof.
  unfold count. induction l as [|y l IH]; intros HP; [done|].
  rewrite filter_cons_False by exact (HP 0%nat y eq_refl).
  apply IH. intros i. exact (HP (S i)).
Qed.

Lemma count_perm P `{∀ x : Z, Decision (P x)} l1 l2 :
  l1 ≡ₚ l2 → count P l1 = count P l2.
Proof. intros HP. unfold count. by rewrite HP. Qed.

(** In an ascending list the element at [k] has [length l - k] elements at or
    above it, and every larger bound is reached by fewer. *)
Lemma sorted_at_count l (k : nat) m :
  StronglySorted Z.le l → l !! k = Some m →
  (length l - k ≤ count (λ x, (m ≤ x)%Z) l)%nat ∧
  ∀ m', (m < m')%Z → (count (λ x, (m' ≤ x)%Z) l ≤ length l - k - 1)%nat.
Proof.
  intros Hs Hk. rewrite StronglySorted_lookup_iff in Hs.
  assert (k < length l)%nat by (by eapply lookup_lt_Some). split.
  - rewrite <-(take_drop k l) at 2. rewrite count_app.
    rewrite (count_all _ (drop k l)), length_drop; [lia|].
    intros i x Hx. rewrite lookup_drop in Hx. destruct i as [|i].
    + rewrite Nat.add_0_r in Hx. naive_solver lia.
    + apply (Hs k (k + S i)%nat); [lia|done|done].
  - intros m' Hm. rewrite <-(take_drop (S k) l) at 1. rewrite count_app.
    rewrite (count_none _ (take (S k) l)).
    + etrans; [apply count_le|]. rewrite length_drop. lia.
    + intros i x Hx. apply lookup_take_Some in Hx as [Hx Hi].
      destruct (decide (i = k)) as [->|]; [naive_solver lia|].
      pose proof (Hs i k x m ltac:(lia) Hx Hk). lia.
Qed.

Lemma make_copy_full (n : nat) l : length l = n → make_copy n l = l.
Proof.
  intros <-. unfold make_copy. rewrite Nat.sub_diag, take_ge by lia. apply app_nil_r.
Qed.

(** The element at position [(n-1)/2] of the sorted list. *)
Lemma median_majority n l :
  1 ≤ n → len l = n →
  ∃ m, slice_get (sort_Ints l) (Z.quot (n - 1) 2) = Some m ∧ majority_index n l m.
Proof.
  intros Hn Hl. unfold len in Hl. rewrite Z.quot_div_nonneg by lia.
  pose proof (sort_Ints_perm l) as Hp. pose proof (Permutation_length Hp) as Hlen.
  assert (0 ≤ (n - 1) `div` 2 < n) by (split; [apply Z.div_pos; lia|apply Z.div_lt_upper_bound; lia]).
  destruct (proj2 (slice_get_is_Some (sort_Ints l) ((n - 1) `div` 2))) as [m Hm].
  { unfold len. lia. }
  exists m. split; [done|]. apply slice_get_Some in Hm as [_ Hm].
  destruct (sorted_at_count _ _ _ (sort_Ints_sorted _) Hm) as [H1 H2].
  unfold majority_index. rewrite Z.quot_div_nonneg by lia.
  setoid_rewrite (count_perm _ _ _ Hp) in H1.
  pose proof (Z.div_mod (n - 1) 2 ltac:(lia)). pose proof (Z.mod_pos_bound (n - 1) 2 ltac:(lia)).
  pose proof (Z.div_mod n 2 ltac:(lia)). pose proof (Z.mod_pos_bound n 2 ltac:(lia)).
  split; [lia|]. intros m' Hm'. specialize (H2 m' Hm'). rewrite (count_perm _ _ _ Hp) in H2. lia.
Qed.
End majority.

(** ** [range] over a map

    Go iterates over a map in an unspecified order: code that does is a function
    of the order, and what it computes must not depend on it. *)

Class RangeOrder := {
  map_range : ∀ {A : Type}, gmap Z A → list (Z * A);
  map_range_perm : ∀ {A : Type} (m : gmap Z A), map_range m ≡ₚ map_to_list m
}.

(** One possible order. *)
Definition some_order : RangeOrder :=
  {| map_range A m := map_to_list m; map_range_perm A m := Permutation_refl _ |}.

(** Another one. *)
Definition reverse_order : RangeOrder :=
  {| map_range A m := reverse (map_to_list m); map_range_perm A m := reverse_Permutation _ |}.

Section range.
Context {ro : RangeOrder} {A : Type}.
Implicit Types (m : gmap Z A).

Lemma map_range_elem m i x : (i, x) ∈ map_range m ↔ m !! i = Some x.
Proof. rewrite (map_range_perm m). apply elem_of_map_to_list. Qed.

Lemma map_range_keys m i : i ∈ (map_range m).*1 ↔ i ∈ dom m.
Proof.
  rewrite list_elem_of_fmap, elem_of_dom. split.
  - intros ([j x] & -> & Hx%map_range_elem). eauto.
  - intros [x Hx]. exists (i, x). split; [done|]. by apply map_range_elem.
Qed.

Lemma map_range_NoDup m : NoDup (map_range m).*1.
Proof. rewrite (map_range_perm m). apply NoDup_fst_map_to_list. Qed.
End range.

(** Sorting forgets the order. *)
Lemma sort_Ints_unique (l1 l2 : list Z) : l1 ≡ₚ l2 → sort_Ints l1 = sort_Ints l2.
Proof.
  intros H. apply (StronglySorted_unique Z.le); [apply sort_Ints_sorted..|].
  by rewrite !sort_Ints_perm.
Qed.

Lemma sorted_keys_order (r1 r2 : RangeOrder) {A} (m : gmap Z A) :
  sort_Ints (@map_range r1 A m).*1 = sort_Ints (@map_range r2 A m).*1.
Proof. apply sort_Ints_unique. by rewrite !map_range_perm. Qed.

(** Filters that agree on the elements of the list. *)
Lemma filter_ext_elem {A} (P Q : A → Prop) `{∀ x, Decision (P x), ∀ x, Decision (Q x)} (l : list A) :
  (∀ x, x ∈ l → P x ↔ Q x) → filter P l = filter Q l.
Proof.
  induction l as [|x l IH]; intros HPQ; [done|].
  rewrite !filter_cons, IH by (intros; apply HPQ; by apply list_elem_of_further).
  pose proof (HPQ x (list_elem_of_here _ _)). repeat case_decide; naive_solver.
Qed.

Lemma StronglySorted_filter {A} (R : relation A) (P : A → Prop) `{∀ x, Decision (P x)} (l : list A) :
  StronglySorted R l → StronglySorted R (filter P l).
Proof.
  induction 1 as [|x l _ IH Hx]; [constructor|]. rewrite filter_cons. case_decide; [|done].
  constructor; [done|]. rewrite Forall_lookup in *. intros i y Hy%list_elem_of_lookup_2.
  apply list_elem_of_filter in Hy as [_ [j Hj]%list_elem_of_lookup_1]. eauto.
Qed.

Lemma filter_all {A} (P : A → Prop) `{∀ x, Decision (P x)} (l : list A) :
  (∀ x, x ∈ l → P x) → filter P l = l.
Proof.
  induction l as [|x l IH]; intros HP; [done|].
  rewrite filter_cons_True by (apply HP; apply list_elem_of_here).
  f_equal. apply IH. intros y Hy. apply HP. by apply list_elem_of_further.
Qed.

Lemma fmap_id_elem {A} (f : A → A) (l : list A) : (∀ x, x ∈ l → f x = x) → f <$> l = l.
Proof.
  induction l as [|x l IH]; intros Hf; [done|]. rewrite fmap_cons, IH, Hf; [done| |].
  - apply list_elem_of_here.
  - intros y Hy. apply Hf. by apply list_elem_of_further.
Qed.

(** One bound for finitely many facts that hold from some bound on. *)
Lemma bound_all {A} (P : A → nat → Prop) (l : list A) :
  (∀ x, x ∈ l → ∃ k : nat, ∀ fuel, (k ≤ fuel)%nat → P x fuel) →
  ∃ k : nat, ∀ x fuel, x ∈ l → (k ≤ fuel)%nat → P x fuel.
Proof.
  induction l as [|x l IH]; intros H; [exists O; intros x ? []%not_elem_of_nil|].
  destruct (H x (list_elem_of_here _ _)) as [k1 H1].
  destruct IH as [k2 H2]; [intros y Hy; apply H; by apply list_elem_of_further|].
  exists (k1 `max` k2)%nat. intros y fuel [->|Hy]%elem_of_cons Hf; [apply H1|apply H2]; done || lia.
Qed.

Lemma swap_Permutation {A} (l : list A) (i j : nat) a b :
  l !! i = Some a → l !! j = Some b → <[j := a]> (<[i := b]> l) ≡ₚ l.
Proof.
  intros Hi Hj. destruct (decide (i = j)) as [->|Hne].
  { simplify_eq. by rewrite list_insert_insert_eq, list_insert_id. }
  apply Permutation_inj. split; [by rewrite !length_insert|].
  exists (λ k, if decide (k = i) then j else if decide (k = j) then i else k). split.
  - intros x y. repeat case_decide; naive_solver.
  - intros k. repeat case_decide; subst.
    + rewrite list_lookup_insert_ne, list_lookup_insert_eq by (eauto using lookup_lt_Some). done.
    + rewrite list_lookup_insert_eq; [done|]. rewrite length_insert. by eapply lookup_lt_Some.
    + by rewrite !list_lookup_insert_ne by done.
Qed.

Lemma filter_seqZ_snoc m i :
  0 ≤ i → filter (λ q, q ≠ m) (seqZ 0 (i + 1)) =
    filter (λ q, q ≠ m) (seqZ 0 i) ++ (if decide (i = m) then [] else [i]).
Proof.
  intros Hi. rewrite seqZ_app, list.filter_app by lia. f_equal. rewrite Z.add_0_l.
  rewrite seqZ_cons by lia. rewrite seqZ_nil by lia.
  case_decide; [by rewrite filter_cons_False by naive_solver|by rewrite filter_cons_True].
Qed.
