(* ===== verification/Gob.v ===== *)
(** [src/src/labgob/labgob.go] and the part of [encoding/gob] the program uses.

    A gob stream is the sequence of the values written to it: [Encode] writes
    one value at the end of the buffer, [Decode] takes the next value and fails
    when the buffer is exhausted or when the value has another type.  A
    component that serialises values fixes a universe [V] of the values it
    writes, and each Go type that travels through the stream is an instance of
    [GobType]; the law of the class is gob's promise that a value decodes to
    itself.  The field-name and default-value checks that [labgob] runs first are
    in [Labgob]. *)

From S2P Require Import Prelude.

Class GobType (V A : Type) := {
  to_gob : A → V;
  of_gob : V → option A;
  of_to_gob : ∀ a, of_gob (to_gob a) = Some a
}.

Section codec.
Context {V A : Type} `{!GobType V A}.

(** [LabEncoder.Encode]: append the value to the buffer. *)
Definition Encode (buf : list V) (e : A) : list V := buf ++ [to_gob e].

(** [LabDecoder.Decode]: [None] is a non-nil error. *)
Definition Decode (buf : list V) : option (A * list V) :=
  match buf with
  | [] => None
  | v :: rest => a ← of_gob v; Some (a, rest)
  end.

Lemma Decode_cons a rest : Decode (to_gob a :: rest) = Some (a, rest).
Proof. simpl. by rewrite of_to_gob. Qed.

Lemma Decode_nil : Decode [] = None.
Proof. done. Qed.
End codec.

#[global] Hint Mode GobType ! - : typeclass_instances.

(** Reduce a chain of [Encode]s to an explicit buffer, then decode it. *)
Ltac gob_step :=
  unfold Encode; simpl app;
  repeat first [rewrite Decode_cons; simpl | rewrite Decode_nil; simpl].
