(* ===== verification/Labgob.v ===== *)
(** The checks of [src/src/labgob/labgob.go]: warnings about field names and about
    decoding into variables that already hold something.

    A [reflect.Type] is a number and [types] says what it describes, so types may
    refer to each other in cycles; a value is a tree whose pointers are addresses of
    [mem], so values may be cyclic too.  Field names are ASCII.  [None] is a panic or
    lack of fuel; the three package variables and the output are the [state].  The
    encoding itself is [Gob]. *)

From stdpp Require Import strings.
From S2P Require Import Prelude Gob.

#[local] Open Scope Z_scope.

Module LG.

(** ** The state of the package *)

Inductive message :=
  | LowerCase (field type : string)   (* labgob error: lower-case field ... of ... *)
  | NonDefault (what : string).       (* labgob warning: Decoding into a non-default ... *)

Record state := mkState {
  errorCount : Z;
  checked : gset Z;
  printed : list message
}.
Implicit Types st : state.

Definition set_checked (c : gset Z) st : state := mkState (errorCount st) c (printed st).
Definition complain (field type : string) st : state :=
  mkState (errorCount st + 1) (checked st) (printed st ++ [LowerCase field type]).

(** [unicode.IsUpper] of the first rune of the name; an empty name has none. *)
Definition upper_name (name : string) : bool :=
  match name with
  | String c _ => (65 <=? Z.of_nat (Ascii.nat_of_ascii c)) && (Z.of_nat (Ascii.nat_of_ascii c) <=? 90)
  | EmptyString => false
  end.

(** ** Types *)

Inductive shape :=
  | Struct (fields : list (string * Z))
  | Slice (elem : Z)
  | Array (elem : Z)
  | Ptr (elem : Z)
  | Map (key elem : Z)
  | Other.

Record type := mkType { t_name : string; t_shape : shape }.

Section types.
Context (types : Z → type).
Implicit Types (t u : Z).

(** The loop of [checkType] over the fields of a struct. *)
Fixpoint check_fields (check : Z → state → option state) (tname : string)
    (fields : list (string * Z)) st : option state :=
  match fields with
  | [] => Some st
  | (name, ft) :: fields =>
      let st := if upper_name name then st else complain name tname st in
      st ← check ft st;
      check_fields check tname fields st
  end.

Fixpoint checkType (fuel : nat) t st : option state :=
  match fuel with
  | O => None
  | S fuel =>
      if decide (t ∈ checked st) then Some st
      else
        let st := set_checked ({[t]} ∪ checked st) st in
        match t_shape (types t) with
        | Struct fields => check_fields (checkType fuel) (t_name (types t)) fields st
        | Slice elem | Array elem | Ptr elem => checkType fuel elem st
        | Map key elem => st ← checkType fuel elem st; checkType fuel key st
        | Other => Some st
        end
  end.

(** The type of nil is nil, and [Kind] panics. *)
Definition checkValue (fuel : nat) (t : option Z) st : option state :=
  t ← t; checkType fuel t st.

(** ** What the check visits *)

Definition fields_of t : list (string * Z) :=
  match t_shape (types t) with Struct fields => fields | _ => [] end.

Definition children t : list Z :=
  match t_shape (types t) with
  | Struct fields => fields.*2
  | Slice elem | Array elem | Ptr elem => [elem]
  | Map key elem => [elem; key]
  | Other => []
  end.

Definition child t u : Prop := u ∈ children t.

(** Field [i] of [t] has a lower-case name. *)
Definition lower t (i : nat) : Prop :=
  ∃ name ft, fields_of t !! i = Some (name, ft) ∧ upper_name name = false.

Definition complaint (x : Z * nat) : message :=
  LowerCase (default EmptyString (fst <$> fields_of x.1 !! x.2)) (t_name (types x.1)).

(** The messages printed from [st] to [st'] are those of [C], each once. *)
Definition says (C : Z * nat → Prop) st st' : Prop :=
  ∃ new, NoDup new ∧ (∀ x, x ∈ new ↔ C x) ∧
    printed st' = printed st ++ (complaint <$> new) ∧
    errorCount st' = errorCount st + len new.

(** The types visited from [st] to [st']: they satisfy [P] and whatever they refer
    to has been visited. *)
Definition visits (P : Z → Prop) st st' : Prop :=
  checked st ⊆ checked st' ∧
  ∀ u, u ∈ checked st' → u ∉ checked st → P u ∧ ∀ c, child u c → c ∈ checked st'.

Definition fresh st st' (x : Z * nat) : Prop :=
  x.1 ∈ checked st' ∧ (x.1 ∉ checked st) ∧ lower x.1 x.2.

Lemma says_ext C C' st st' : (∀ x, C x ↔ C' x) → says C st st' → says C' st st'.
Proof. intros HC (new & Hn & Hin & ? & ?). exists new. split_and!; [done| |done..]. intros x. by rewrite Hin. Qed.

Lemma says_none C st c : (∀ x, ¬ C x) → says C st (set_checked c st).
Proof.
  intros HC. exists []. split_and!; [constructor| | |unfold len; simpl; lia].
  - intros x. split; [set_solver|]. by intros ?%HC.
  - by rewrite app_nil_r.
Qed.

Lemma says_app C1 C2 st1 st2 st3 :
  says C1 st1 st2 → says C2 st2 st3 → (∀ x, C1 x → C2 x → False) → says (λ x : Z * nat, C1 x ∨ C2 x) st1 st3.
Proof.
  intros (n1 & N1 & I1 & P1 & E1) (n2 & N2 & I2 & P2 & E2) Hd. exists (n1 ++ n2). split_and!.
  - apply list.NoDup_app. split_and!; [done| |done]. intros x ?%I1 ?%I2. by eapply Hd.
  - intros x. by rewrite elem_of_app, I1, I2.
  - by rewrite P2, P1, fmap_app, (assoc_L (++)).
  - rewrite E2, E1. unfold len. rewrite length_app. lia.
Qed.

Lemma visits_refl P st : visits P st st.
Proof. split; [done|]. by intros u ? []. Qed.

Lemma visits_impl (P Q : Z → Prop) st st' : (∀ u, P u → Q u) → visits P st st' → visits Q st st'.
Proof. intros HPQ [HS HV]. split; [done|]. intros u Hu Hn. destruct (HV u Hu Hn). auto. Qed.

Lemma visits_trans P st1 st2 st3 : visits P st1 st2 → visits P st2 st3 → visits P st1 st3.
Proof.
  intros [S1 V1] [S2 V2]. split; [set_solver|]. intros u Hu Hn.
  destruct (decide (u ∈ checked st2)) as [H2|H2]; [|by apply V2].
  destruct (V1 u H2 Hn) as [HP Hc]. split; [done|]. intros c ?%Hc. set_solver.
Qed.

(** [checkType c] from [st], wherever it is called. *)
Definition checks c st st' : Prop :=
  c ∈ checked st' ∧ visits (rtc child c) st st' ∧ says (fresh st st') st st'.

Lemma says_complain t i name ft st :
  fields_of t !! i = Some (name, ft) → upper_name name = false →
  says (λ x, x = (t, i)) st (complain name (t_name (types t)) st).
Proof.
  intros Hf Hu. exists [(t, i)]. split_and!; [apply NoDup_singleton|set_solver| |unfold len; simpl; lia].
  simpl. unfold complaint. simpl. by rewrite Hf.
Qed.

Lemma fields_run (F : Z → state → option state) t k fields s1 st :
  (∀ c st, child t c → checked s1 ⊆ checked st → ∃ st', F c st = Some st' ∧ checks c st st') →
  fields_of t = k ++ fields → t ∈ checked s1 → checked s1 ⊆ checked st →
  ∃ st', check_fields F (t_name (types t)) fields st = Some st' ∧
    (∀ c, c ∈ fields.*2 → c ∈ checked st') ∧
    visits (λ u, ∃ c, child t c ∧ rtc child c u) st st' ∧
    says (λ x, fresh st st' x ∨ x.1 = t ∧ (length k ≤ x.2)%nat ∧ lower t x.2) st st'.
Proof.
  intros HF. revert k st. induction fields as [|[name ft] fields IH]; intros k st Hk Ht Hs; simpl.
  { exists st. split_and!; [done|set_solver|apply visits_refl|]. destruct st as [ec cs ms].
    apply (says_none _ (mkState ec cs ms) cs). intros [u i] [(? & [] & _)|(_ & Hi & n & f & Hl & _)]; [done|].
    rewrite Hk, app_nil_r in Hl. apply lookup_lt_Some in Hl. simpl in *. lia. }
  assert (Hf : fields_of t !! length k = Some (name, ft)) by by rewrite Hk, list_lookup_middle.
  assert (Hc : child t ft).
  { unfold fields_of, child, children in *. destruct (t_shape (types t)); simplify_eq; try by destruct k.
    rewrite fmap_app. set_solver. }
  set (st1 := if upper_name name then st else _).
  assert (Hst1 : checked st1 = checked st) by (unfold st1; by destruct (upper_name name)).
  assert (S1 : says (λ x, x = (t, length k) ∧ upper_name name = false) st st1).
  { unfold st1. destruct (upper_name name) eqn:Hu.
    - destruct st as [ec cs ms]. apply (says_none _ (mkState ec cs ms) cs). naive_solver.
    - eapply says_ext; [|by eapply says_complain]. naive_solver. }
  destruct (HF ft st1 Hc) as (st2 & -> & Hft & [V2 V2'] & S2); [by rewrite Hst1|]. simpl.
  destruct (IH (k ++ [(name, ft)]) st2) as (st3 & -> & H3 & [V3 V3'] & S3);
    [by rewrite <-app_assoc|done|set_solver|]. exists st3. split; [done|]. split_and!.
  - intros c [->|?]%elem_of_cons; [set_solver|auto].
  - apply visits_trans with st2; [|done]. rewrite Hst1 in V2, V2'. split; [done|].
    intros u Hu Hn. destruct (V2' u Hu Hn). eauto.
  - eapply says_ext; [|eapply says_app; [exact S1|eapply says_app; [exact S2|exact S3|]|]].
    + intros [u i]. unfold fresh. simpl. rewrite length_app, Hst1. simpl. split.
      * intros [[[= -> ->] Hu]|[(? & ? & ?)|[(? & ? & ?)|(? & ? & ?)]]].
        -- right. split_and!; [done|lia|]. by exists name, ft.
        -- left. set_solver.
        -- left. set_solver.
        -- right. split_and!; [done|lia|done].
      * intros [(? & ? & ?)|(-> & Hi & Hl)]; [right; destruct (decide (u ∈ checked st2)); auto|].
        destruct (decide (i = length k)) as [->|]; [left|right; right; right; split_and!; [done|lia|done]].
        destruct Hl as (n & f & Hl & Hu). split; [done|]. by simplify_eq.
    + intros [u i] (? & ? & _) [(_ & [] & _)|(Eu & _)]; [done|]. simpl in *. rewrite Hst1 in *. set_solver.
    + intros [u i] [[= -> ->] _] [(_ & [] & _)|[(_ & [] & _)|(_ & Hi & _)]]; simpl in *.
      * rewrite Hst1. set_solver.
      * set_solver.
      * rewrite length_app in Hi. simpl in Hi. lia.
Qed.

Lemma visit_root t st st' :
  t ∉ checked st → let st1 := set_checked ({[t]} ∪ checked st) st in
  (∀ c, child t c → c ∈ checked st') →
  visits (λ u, ∃ c, child t c ∧ rtc child c u) st1 st' →
  says (λ x, fresh st1 st' x ∨ x.1 = t ∧ lower t x.2) st1 st' → checks t st st'.
Proof.
  intros Ht st1 Hc [HS HV] Hsay. assert (t ∈ checked st') as Ht' by set_solver. split; [done|]. split.
  - split; [set_solver|]. intros u Hu Hn. destruct (decide (u = t)) as [->|Hne]; [by split; [constructor|]|].
    destruct (HV u Hu) as [(c & Hch & Hr) Hcs]; [set_solver|]. split; [by eapply rtc_l|done].
  - assert (says (λ x, fresh st1 st' x ∨ x.1 = t ∧ lower t x.2) st st') as Hsay'.
    { destruct Hsay as (new & ? & ? & ? & ?). by exists new. }
    eapply says_ext; [|exact Hsay']. intros [u i]. unfold fresh. simpl. rewrite not_elem_of_union, not_elem_of_singleton.
    destruct (decide (u = t)) as [->|]; naive_solver.
Qed.

(** The types reachable from [t] are finitely many. *)
Definition closed (D : gset Z) : Prop := ∀ u c, u ∈ D → child u c → c ∈ D.

Lemma leaf_says t st st' :
  fields_of t = [] → says (fresh st st') st st' → says (λ x, fresh st st' x ∨ x.1 = t ∧ lower t x.2) st st'.
Proof.
  intros Hf. apply says_ext. intros x. split; [by left|]. intros [?|[_ (n & f & Hl & _)]]; [done|].
  by rewrite Hf in Hl.
Qed.

(** What the body of [checkType] leaves behind after it has marked [t]. *)
Definition below t st st' : Prop :=
  (∀ c, child t c → c ∈ checked st') ∧ visits (λ u, ∃ c, child t c ∧ rtc child c u) st st' ∧
  says (λ x, fresh st st' x ∨ x.1 = t ∧ lower t x.2) st st'.

Section body.
Context (rec : Z → state → option state) t st1.
Context (HF : ∀ c s, child t c → checked st1 ⊆ checked s → ∃ s', rec c s = Some s' ∧ checks c s s').

Lemma one_below c : fields_of t = [] → children t = [c] → ∃ st', rec c st1 = Some st' ∧ below t st1 st'.
Proof.
  intros Hf Hch. destruct (HF c st1) as (st' & E & ? & HV & HS); [unfold child; rewrite Hch; set_solver|done|].
  exists st'. split; [done|]. split_and!; [| |by apply leaf_says].
  - unfold child. rewrite Hch. by intros ? ->%list_elem_of_singleton.
  - eapply visits_impl; [|exact HV]. intros u ?. exists c. split; [|done]. unfold child. rewrite Hch. set_solver.
Qed.

Lemma two_below elem key :
  fields_of t = [] → children t = [elem; key] → ∃ st', (st ← rec elem st1; rec key st) = Some st' ∧ below t st1 st'.
Proof.
  intros Hf Hch. destruct (HF elem st1) as (s2 & -> & H2 & [V2 V2'] & S2); [unfold child; rewrite Hch; set_solver|done|].
  destruct (HF key s2) as (s3 & E3 & H3 & [V3 V3'] & S3); [unfold child; rewrite Hch; set_solver|done|].
  exists s3. split; [exact E3|]. split_and!.
  - unfold child. rewrite Hch. set_solver.
  - apply visits_trans with s2; (split; [done|]).
    + intros u Hu Hn. destruct (V2' u Hu Hn). split; [|done]. exists elem. unfold child at 1. rewrite Hch. set_solver.
    + intros u Hu Hn. destruct (V3' u Hu Hn). split; [|done]. exists key. unfold child at 1. rewrite Hch. set_solver.
  - apply leaf_says; [done|]. eapply says_ext; [|eapply says_app; [exact S2|exact S3|]].
    + intros [u i]. unfold fresh. simpl. destruct (decide (u ∈ checked s2)); set_solver.
    + intros [u i] (? & _) (_ & [] & _). done.
Qed.
End body.

Lemma checkType_run D fuel t st :
  closed D → t ∈ D → (size (D ∖ checked st) < fuel)%nat →
  ∃ st', checkType fuel t st = Some st' ∧ checks t st st'.
Proof.
  intros HD. revert t st. induction fuel as [|fuel IH]; intros t st Ht Hfuel; [lia|]. cbn [checkType].
  case_decide as Hin.
  { exists st. split; [done|]. split; [done|]. split; [apply visits_refl|]. destruct st as [ec cs ms].
    apply (says_none _ (mkState ec cs ms) cs). intros x (? & [] & _). done. }
  set (st1 := set_checked _ st).
  assert (HF : ∀ c s, child t c → checked st1 ⊆ checked s → ∃ s', checkType fuel c s = Some s' ∧ checks c s s').
  { intros c s Hc Hs. apply IH; [by eapply HD|].
    assert (size (D ∖ checked s) < size (D ∖ checked st))%nat; [|lia].
    apply subset_size. split; [set_solver|]. intros Hsub. assert (t ∈ D ∖ checked s) as H' by set_solver.
    apply elem_of_difference in H' as [_ []]. apply Hs. set_solver. }
  cut (∃ st', match t_shape (types t) with
        | Struct fields => check_fields (checkType fuel) (t_name (types t)) fields st1
        | Slice elem | Array elem | Ptr elem => checkType fuel elem st1
        | Map key elem => st ← checkType fuel elem st1; checkType fuel key st
        | Other => Some st1
        end = Some st' ∧ below t st1 st').
  { intros (st' & E & ? & ? & ?). exists st'. split; [exact E|]. by apply visit_root. }
  destruct (t_shape (types t)) as [fields|c|c|c|key elem|] eqn:Es.
  2-5: (apply one_below || apply two_below); [exact HF|unfold fields_of|unfold children]; by rewrite Es.
  - destruct (fields_run (checkType fuel) t [] fields st1 st1 HF) as (st' & E & Hc & HV & HS);
      [unfold fields_of; by rewrite Es|set_solver|done|].
    exists st'. split; [done|]. split_and!; [|done|].
    + intros c Hch. apply Hc. unfold child, children in Hch. by rewrite Es in Hch.
    + eapply says_ext; [|exact HS]. intros x. simpl. intuition lia.
  - exists st1. split; [done|]. split_and!; [|apply visits_refl|].
    + unfold child, children. rewrite Es. set_solver.
    + apply leaf_says; [unfold fields_of; by rewrite Es|]. destruct st as [ec cs ms].
      eapply (says_none _ (mkState ec ({[t]} ∪ cs) ms)). intros x (? & [] & _). done.
Qed.

(** Whatever a visited type refers to has been visited: so it is between two calls
    of [checkValue]. *)
Definition settled st : Prop := ∀ u c, u ∈ checked st → child u c → c ∈ checked st.

Lemma settled_reach st t u : settled st → t ∈ checked st → rtc child t u → u ∈ checked st.
Proof. intros Hs Ht. induction 1; eauto. Qed.

(** C29: [checkType] terminates on types that refer to each other in cycles, visits
    exactly the types reachable from the one it is given, and complains exactly once
    about every field with a lower-case name in a type that was not visited before:
    over any number of calls nothing is reported twice. *)
Theorem checkType_complains_once D fuel t st :
  closed D → t ∈ D → settled st → (size D < fuel)%nat →
  ∃ st' new, checkValue fuel (Some t) st = Some st' ∧ settled st' ∧
    (∀ u, u ∈ checked st' ↔ u ∈ checked st ∨ rtc child t u) ∧
    NoDup new ∧ (∀ u i, (u, i) ∈ new ↔ rtc child t u ∧ (u ∉ checked st) ∧ lower u i) ∧
    printed st' = printed st ++ (complaint <$> new) ∧ errorCount st' = errorCount st + len new.
Proof.
  intros HD Ht Hset Hfuel. destruct (checkType_run D fuel t st HD Ht) as (st' & E & Hin & [HS HV] & new & Hn & Hc & Hp & He).
  { eapply Nat.le_lt_trans; [|exact Hfuel]. apply subseteq_size. set_solver. }
  assert (Hset' : settled st').
  { intros u c Hu Hch. destruct (decide (u ∈ checked st)) as [Hu'|Hu']; [apply HS; eauto|].
    destruct (HV u Hu Hu') as [_ Hcs]. eauto. }
  assert (Hiff : ∀ u, u ∈ checked st' ↔ u ∈ checked st ∨ rtc child t u).
  { intros u. split.
    - intros Hu. destruct (decide (u ∈ checked st)); [by left|right]. by apply HV.
    - intros [?|?]; [by apply HS|]. by eapply settled_reach. }
  exists st', new. split_and!; try done. intros u i. rewrite Hc. unfold fresh. simpl. rewrite Hiff. naive_solver.
Qed.
End types.

(** ** Values *)

(** Of a float only whether it equals 0 matters. *)
Inductive scalar :=
  | SBool (b : bool)
  | SInt (z : Z)                (* the signed and unsigned integers and uintptr *)
  | SFloat (zero : bool)
  | SString (s : string).

(** [reflect.DeepEqual] with the zero value of the type. *)
Definition is_default (s : scalar) : bool :=
  match s with
  | SBool b => negb b
  | SInt z => z =? 0
  | SFloat zero => zero
  | SString s => bool_decide (s = EmptyString)
  end.

(** A field has a name and may be embedded. *)
Inductive value :=
  | VStruct (fields : list (string * bool * value))
  | VPtr (to : option nat)
  | VScalar (tname : string) (s : scalar)
  | VOther.                     (* slices, maps, interfaces, ... *)

(** [flagStickyRO] and [flagEmbedRO] of a [reflect.Value]: it was obtained through an
    unexported field. *)
Record flags := mkFlags { stickyRO : bool; embedRO : bool }.
Definition no_flags : flags := mkFlags false false.

(** [Value.Field] keeps only the sticky flag. *)
Definition field_flags (name : string) (embedded : bool) (fl : flags) : flags :=
  if upper_name name then mkFlags (stickyRO fl) false
  else if embedded then mkFlags (stickyRO fl) true else mkFlags true false.

Definition field_name (name field : string) : string :=
  if bool_decide (name = EmptyString) then field else (name +:+ "." +:+ field)%string.

(** Under [mu]: count it, and print it when it is the first. *)
Definition warn (name tname : string) st : state :=
  mkState (errorCount st + 1) (checked st)
    (if errorCount st <? 1
     then printed st ++ [NonDefault (if bool_decide (name = EmptyString) then tname else name)]
     else printed st).

Section values.
Context (mem : nat → value).
Implicit Types (v : value) (fl : flags) (name : string) (d : nat).

(** The loop of [checkDefault1] over the fields of a struct. *)
Fixpoint default_fields (check : value → flags → string → state → option state)
    (fields : list (string * bool * value)) fl name st : option state :=
  match fields with
  | [] => Some st
  | (field, embedded, v) :: fields =>
      st ← check v (field_flags field embedded fl) (field_name name field) st;
      default_fields check fields fl name st
  end.

(** [d] is [4 - depth]: nothing is looked at when [depth > 3].  [Interface] panics on
    a value that was obtained through an unexported field. *)
Fixpoint checkDefault1 d v fl name st : option state :=
  match d with
  | O => Some st
  | S d =>
      match v with
      | VStruct fields => default_fields (checkDefault1 d) fields fl name st
      | VPtr None => Some st
      | VPtr (Some p) => checkDefault1 d (mem p) fl name st
      | VScalar tname s =>
          if stickyRO fl || embedRO fl then None
          else if is_default s then Some st else Some (warn name tname st)
      | VOther => Some st
      end
  end.

Definition checkDefault (v : option value) st : option state :=
  match v with
  | None => Some st
  | Some v => checkDefault1 3 v no_flags EmptyString st
  end.

(** ** What the check looks at *)

(** [leaf d v fl name tn s fl' name']: within [d] levels of [v] there is the scalar
    [s] of type [tn], called [name'] and obtained with [fl']. *)
Inductive leaf : nat → value → flags → string → string → scalar → flags → string → Prop :=
  | leaf_scalar d tn s fl name : leaf (S d) (VScalar tn s) fl name tn s fl name
  | leaf_ptr d p fl name tn s fl' name' :
      leaf d (mem p) fl name tn s fl' name' → leaf (S d) (VPtr (Some p)) fl name tn s fl' name'
  | leaf_field d fields field embedded v fl name tn s fl' name' :
      (field, embedded, v) ∈ fields →
      leaf d v (field_flags field embedded fl) (field_name name field) tn s fl' name' →
      leaf (S d) (VStruct fields) fl name tn s fl' name'.

Definition hidden d v fl name : Prop :=
  ∃ tn s fl' name', leaf d v fl name tn s fl' name' ∧ (stickyRO fl' || embedRO fl') = true.

Definition dirty d v fl name (what : string) : Prop :=
  ∃ tn s fl' name', leaf d v fl name tn s fl' name' ∧ is_default s = false ∧
    what = if bool_decide (name' = EmptyString) then tn else name'.

(** After warnings about [W]: all are counted, and the first one is printed unless
    something was counted before. *)
Definition warned (W : list string) st : state :=
  mkState (errorCount st + len W) (checked st)
    (printed st ++ if errorCount st <? 1 then take 1 (NonDefault <$> W) else []).

Lemma warned_nil st : warned [] st = st.
Proof.
  destruct st as [ec cs ms]. unfold warned, len. simpl. f_equal; [lia|]. destruct (_ <? _); by rewrite app_nil_r.
Qed.

Lemma warned_app W1 W2 st : 0 ≤ errorCount st → warned W2 (warned W1 st) = warned (W1 ++ W2) st.
Proof.
  intros H0. unfold warned, len. simpl. rewrite length_app. f_equal; [lia|]. rewrite <-(assoc_L (++)). f_equal.
  destruct W1 as [|w W1]; simpl.
  - rewrite Z.add_0_r. by destruct (_ <? _).
  - destruct (Z.ltb_spec (errorCount st + Z.of_nat (S (length W1))) 1); [lia|]. by destruct (_ <? _).
Qed.

Lemma warned_one name tn st : warn name tn st = warned [if bool_decide (name = EmptyString) then tn else name] st.
Proof. unfold warn, warned. f_equal. destruct (_ <? _); [done|by rewrite app_nil_r]. Qed.

(** What a check of something does that contains hidden scalars when [H] holds, and
    the others called [P]. *)
Definition outcome (H : Prop) (P : string → Prop) st (o : option state) : Prop :=
  match o with
  | None => H
  | Some st' => ¬ H ∧ ∃ W, st' = warned W st ∧ ∀ w, w ∈ W ↔ P w
  end.

Lemma outcome_iff (H H' : Prop) (P P' : string → Prop) st o :
  (H ↔ H') → (∀ w, P w ↔ P' w) → outcome H P st o → outcome H' P' st o.
Proof.
  intros EH EP. destruct o; simpl; [|tauto]. intros (? & W & -> & HW). split; [tauto|]. exists W.
  split; [done|]. intros w. by rewrite HW.
Qed.

Lemma outcome_bind (H1 H2 : Prop) (P1 P2 : string → Prop) st o (f : state → option state) :
  0 ≤ errorCount st → outcome H1 P1 st o → (∀ st', 0 ≤ errorCount st' → outcome H2 P2 st' (f st')) →
  outcome (H1 ∨ H2) (λ w, P1 w ∨ P2 w) st (o ≫= f).
Proof.
  intros H0 HO Hf. destruct o as [st1|]; simpl in *; [|by left]. destruct HO as (Hn & W1 & -> & HW1).
  assert (0 ≤ errorCount (warned W1 st)) as H1' by (simpl; unfold len; lia). specialize (Hf _ H1').
  destruct (f (warned W1 st)) as [st2|]; simpl in *; [|by right]. destruct Hf as (Hn2 & W2 & -> & HW2).
  split; [tauto|]. exists (W1 ++ W2). split; [by apply warned_app|]. intros w. by rewrite elem_of_app, HW1, HW2.
Qed.

Lemma leaf_nil d fl name tn s fl' name' : ¬ leaf (S d) (VStruct []) fl name tn s fl' name'.
Proof. intros Hl. inversion Hl. set_solver. Qed.

Lemma leaf_cons d field emb v fields fl name tn s fl' name' :
  leaf (S d) (VStruct ((field, emb, v) :: fields)) fl name tn s fl' name' ↔
  leaf d v (field_flags field emb fl) (field_name name field) tn s fl' name' ∨
  leaf (S d) (VStruct fields) fl name tn s fl' name'.
Proof.
  split.
  - intros Hl. inversion Hl as [| |? ? ? ? ? ? ? ? ? ? ? Hin Hl']; subst.
    apply elem_of_cons in Hin as [[= -> -> ->]|Hin]; [by left|right]. by econstructor.
  - intros [Hl|Hl]; [econstructor; [by left|done]|]. inversion Hl; subst. econstructor; [by right|done].
Qed.

Lemma fields_outcome d fields fl name st :
  (∀ v fl name st, 0 ≤ errorCount st → outcome (hidden d v fl name) (dirty d v fl name) st (checkDefault1 d v fl name st)) →
  0 ≤ errorCount st →
  outcome (hidden (S d) (VStruct fields) fl name) (dirty (S d) (VStruct fields) fl name) st
    (default_fields (checkDefault1 d) fields fl name st).
Proof.
  intros HF. revert st. induction fields as [|[[field emb] v] fields IH]; intros st H0; simpl.
  { split; [|exists []; split; [by rewrite warned_nil|]].
    - intros (tn & s & fl' & n' & []%leaf_nil & _).
    - intros w. split; [set_solver|]. intros (tn & s & fl' & n' & []%leaf_nil & _). }
  eapply outcome_iff; [| |eapply outcome_bind; [done|by apply HF|exact IH]].
  - unfold hidden. setoid_rewrite leaf_cons. naive_solver.
  - intros w. unfold dirty. setoid_rewrite leaf_cons. naive_solver.
Qed.

Lemma checkDefault1_outcome d v fl name st :
  0 ≤ errorCount st → outcome (hidden d v fl name) (dirty d v fl name) st (checkDefault1 d v fl name st).
Proof.
  revert v fl name st. induction d as [|d IH]; intros v fl name st H0.
  { split; [by intros (tn & s & fl' & n' & Hl & _); inversion Hl|]. exists []. split; [by rewrite warned_nil|].
    intros w. split; [set_solver|]. intros (tn & s & fl' & n' & Hl & _). inversion Hl. }
  assert (N : ∀ v, (∀ tn s fl' n', ¬ leaf (S d) v fl name tn s fl' n') →
    outcome (hidden (S d) v fl name) (dirty (S d) v fl name) st (Some st)).
  { intros v' Hv. split; [by intros (tn & s & fl' & n' & []%Hv & _)|]. exists []. split; [by rewrite warned_nil|].
    intros w. split; [set_solver|]. by intros (tn & s & fl' & n' & []%Hv & _). }
  destruct v as [fields|[p|]|tn s|]; simpl.
  - by apply fields_outcome.
  - eapply outcome_iff; [| |by apply IH].
    + split; intros (tn & s & fl' & n' & Hl & ?); exists tn, s, fl', n'; (split; [|done]); [by constructor|by inversion Hl].
    + intros w. split; intros (tn & s & fl' & n' & Hl & ?); exists tn, s, fl', n'; (split; [|done]); [by constructor|by inversion Hl].
  - apply N. intros tn s fl' n' Hl. inversion Hl.
  - destruct (stickyRO fl || embedRO fl) eqn:Efl; [by exists tn, s, fl, name; split; [constructor|]|].
    assert (¬ hidden (S d) (VScalar tn s) fl name) as Hh.
    { intros (tn' & s' & fl' & n' & Hl & Ht). inversion Hl; subst. congruence. }
    destruct (is_default s) eqn:Es; (split; [done|]).
    + exists []. split; [by rewrite warned_nil|]. intros w. split; [set_solver|].
      intros (tn' & s' & fl' & n' & Hl & Ht & _). inversion Hl; subst. congruence.
    + rewrite warned_one. eexists [_]. split; [done|]. intros w. rewrite list_elem_of_singleton. split.
      * intros ->. exists tn, s, fl, name. split; [constructor|done].
      * intros (tn' & s' & fl' & n' & Hl & _ & ->). by inversion Hl; subst.
  - apply N. intros tn s fl' n' Hl. inversion Hl.
Qed.

(** what [checkDefault] reports. It panics exactly when a scalar within three
    levels is reached through an unexported field, default or not; otherwise it
    counts the scalars within three levels that do not have their default value, and
    prints a warning about one of them exactly when there is one and nothing has been
    counted since the program started. *)
Theorem checkDefault_spec v st :
  0 ≤ errorCount st →
  match checkDefault (Some v) st with
  | None => hidden 3 v no_flags EmptyString
  | Some st' =>
      ¬ hidden 3 v no_flags EmptyString ∧ checked st' = checked st ∧
      (errorCount st' = errorCount st ∧ printed st' = printed st ∧ (∀ w, ¬ dirty 3 v no_flags EmptyString w) ∨
       errorCount st < errorCount st' ∧ ∃ w, dirty 3 v no_flags EmptyString w ∧
         printed st' = if errorCount st =? 0 then printed st ++ [NonDefault w] else printed st)
  end.
Proof.
  intros H0. pose proof (checkDefault1_outcome 3 v no_flags EmptyString st H0) as HO. unfold outcome in HO.
  change (checkDefault (Some v) st) with (checkDefault1 3 v no_flags EmptyString st).
  destruct (checkDefault1 3 v no_flags EmptyString st) as [st'|]; [|done].
  destruct HO as (Hh & W & -> & HW). split; [done|]. split; [done|]. destruct W as [|w W].
  - left. rewrite warned_nil. split_and!; [done..|]. intros w Hw%HW. set_solver.
  - right. split; [simpl; unfold len; simpl; lia|]. exists w. split; [apply HW; set_solver|]. simpl.
    destruct (Z.eqb_spec (errorCount st) 0), (Z.ltb_spec (errorCount st) 1); try lia; [done|by rewrite app_nil_r].
Qed.
End values.

(** ** Encoders and decoders *)

(** The stream and what [Gob] says of it, behind the checks.  [t] is the type of the
    argument, nil for a nil interface. *)
Section codec.
Context {V A : Type} `{!GobType V A} (types : Z → type) (mem : nat → value).

Definition LabEncode (fuel : nat) (t : option Z) (buf : list V) (e : A) st : option (list V * state) :=
  st ← checkValue types fuel t st;
  Some (Encode buf e, st).

(** [target] is what the pointer handed to [Decode] refers to. *)
Definition LabDecode (fuel : nat) (t : option Z) (target : option value) (buf : list V) st
    : option (option (A * list V) * state) :=
  st ← checkValue types fuel t st;
  st ← checkDefault mem target st;
  Some (Decode buf, st).

(** [Register] and [RegisterName] before they reach [gob]. *)
Definition Register (fuel : nat) (t : option Z) st : option state := checkValue types fuel t st.
End codec.
End LG.

(** ** Examples *)

Module LGExample.
Import LG.

(** type Node struct { Next *Node; val int; Tags map[string]int } *)
Definition types (t : Z) : type :=
  if t =? 1 then mkType "Node" (Struct [("Next", 2); ("val", 3); ("Tags", 4)])
  else if t =? 2 then mkType "" (Ptr 1)
  else if t =? 3 then mkType "int" Other
  else if t =? 4 then mkType "" (Map 5 3)
  else mkType "string" Other.

Definition universe : gset Z := {[1; 2; 3; 4; 5]}.
Definition start : state := mkState 0 ∅ [].

Lemma universe_closed : closed types universe.
Proof.
  intros u c Hu Hc. unfold universe in *.
  assert (u = 1 ∨ u = 2 ∨ u = 3 ∨ u = 4 ∨ u = 5) as Hcases by set_solver.
  destruct Hcases as [->|[->|[->|[->| ->]]]]; unfold child, children in Hc; simpl in Hc; set_solver.
Qed.

(** The cyclic type is visited once and its one lower-case field reported once. *)
Lemma complains_once_witness :
  ∃ st' new, checkValue types 6 (Some 2) start = Some st' ∧ settled types st' ∧
    (∀ u, u ∈ checked st' ↔ u ∈ checked start ∨ rtc (child types) 2 u) ∧
    NoDup new ∧ (∀ u i, (u, i) ∈ new ↔ rtc (child types) 2 u ∧ (u ∉ checked start) ∧ lower types u i) ∧
    printed st' = printed start ++ (complaint types <$> new) ∧ errorCount st' = errorCount start + len new.
Proof.
  apply (checkType_complains_once types universe).
  - exact universe_closed.
  - set_solver.
  - intros u c Hu. set_solver.
  - vm_compute. lia.
Defined.

Example complains_twice :
  (st ← checkValue types 6 (Some 2) start; checkValue types 6 (Some 1) st) =
  Some (mkState 1 {[1; 2; 3; 4; 5]} [LowerCase "val" "Node"]).
Proof. vm_compute. reflexivity. Qed.

(** Decoding into &Node{val: 0}: the pointer, the struct, the fields. *)
Definition memory (_ : nat) : value :=
  VStruct [("Next", false, VPtr None); ("val", false, VScalar "int" (SInt 0)); ("Tags", false, VOther)].
Definition reply (_ : nat) : value :=
  VStruct [("Err", false, VScalar "string" (SString "OK")); ("Num", false, VScalar "int" (SInt 7))].

Lemma checkDefault_witness :
  ∃ st', checkDefault reply (Some (VPtr (Some 0%nat))) start = Some st' ∧
    errorCount start < errorCount st' ∧
    ∃ w, dirty reply 3 (VPtr (Some 0%nat)) no_flags EmptyString w ∧ printed st' = [NonDefault w].
Proof.
  pose proof (checkDefault_spec reply (VPtr (Some 0%nat)) start ltac:(simpl; lia)) as H.
  destruct (checkDefault reply (Some (VPtr (Some 0%nat))) start) as [st'|] eqn:E; [|discriminate].
  exists st'. split; [reflexivity|]. destruct H as (_ & _ & [(He & _)|(He & w & Hw & Hp)]).
  - vm_compute in E. injection E as <-. discriminate.
  - split; [done|]. by exists w.
Defined.

(** Decoding into a struct with a lower-case field does not warn, it panics, even
    when every field has its default value. *)
Example Decode_lower_case_panics :
  checkValue types 6 (Some 2) start ≠ None ∧
  checkDefault memory (Some (VPtr (Some 0%nat))) start = None.
Proof. by vm_compute. Qed.
End LGExample.
