(* ===== verification/RaftLog.v ===== *)
(** [src/src/raft/raft_log.go]: the log of a Raft peer with its compacted
    prefix.

    Module [RL] holds the data and one definition per method; a Go panic (an
    index out of range, or the explicit [panic] of [idx]) is [None].  The
    second half relates the representation to the logical log it stands for:
    [at_] seen as a partial function from log indices to entries. *)

From S2P Require Import Prelude Gob.

#[local] Open Scope Z_scope.

Definition InvalidTerm : Z := 0.
Definition InvalidIndex : Z := 0.

Record LogEntry {Cmd : Type} := mkEntry {
  le_Term : Z;
  le_CommandValid : bool;
  le_Command : option Cmd
}.
Arguments LogEntry : clear implicits.
Arguments mkEntry {Cmd} _ _ _.

(** Values a Raft peer writes to its persistent state. *)
Inductive rgob {Cmd : Type} : Type :=
  | GInt (z : Z)
  | GEntries (l : list (LogEntry Cmd)).
Arguments rgob : clear implicits.

#[export] Instance gob_int Cmd : GobType (rgob Cmd) Z.
Proof.
  refine {| to_gob := GInt;
            of_gob v := match v with GInt z => Some z | _ => None end |}.
  done.
Defined.

#[export] Instance gob_entries Cmd : GobType (rgob Cmd) (list (LogEntry Cmd)).
Proof.
  refine {| to_gob := GEntries;
            of_gob v := match v with GEntries l => Some l | _ => None end |}.
  done.
Defined.

Module RL.
Section log.
Context {Cmd SB : Type}.
Abbreviation LogEntry := (LogEntry Cmd).

(** [snapshot] is a slice of the snapshot's bytes, of type [SB]. *)
Record RaftLog := mkLog {
  snapLastIdx : Z;
  snapLastTerm : Z;
  snapshot : list SB;
  tailLog : list LogEntry
}.

(** [LogEntry{Term: t}]: the mock entry at index [snapLastIdx]. *)
Definition dummy (t : Z) : LogEntry := mkEntry t false None.

Definition NewLog (idx term : Z) (snap : list SB) (entries : list LogEntry) : RaftLog :=
  mkLog idx term snap (([] ++ [dummy term]) ++ entries).

(** [readPersist]: the fields decoded before an error are kept, as in the
    source; the boolean is [err == nil]. *)
Definition readPersist (rl : RaftLog) (d : list (rgob Cmd)) : RaftLog * bool :=
  match Decode (A:=Z) d with
  | None => (rl, false)
  | Some (lastIdx, d) =>
    let rl := mkLog lastIdx (snapLastTerm rl) (snapshot rl) (tailLog rl) in
    match Decode (A:=Z) d with
    | None => (rl, false)
    | Some (lastTerm, d) =>
      let rl := mkLog (snapLastIdx rl) lastTerm (snapshot rl) (tailLog rl) in
      match Decode (A:=list LogEntry) d with
      | None => (rl, false)
      | Some (log, d) =>
        (mkLog (snapLastIdx rl) (snapLastTerm rl) (snapshot rl) log, true)
      end
    end
  end.

Definition persist (rl : RaftLog) (e : list (rgob Cmd)) : list (rgob Cmd) :=
  let e := Encode e (snapLastIdx rl) in
  let e := Encode e (snapLastTerm rl) in
  Encode e (tailLog rl).

Definition size (rl : RaftLog) : Z := snapLastIdx rl + len (tailLog rl).

Definition idx (rl : RaftLog) (logicIdx : Z) : option Z :=
  if (logicIdx <? snapLastIdx rl) || (size rl <=? logicIdx)
  then None
  else Some (logicIdx - snapLastIdx rl).

Definition at_ (rl : RaftLog) (logicIdx : Z) : option LogEntry :=
  i ← idx rl logicIdx; slice_get (tailLog rl) i.

Definition last (rl : RaftLog) : Z * Z :=
  if len (tailLog rl) =? 0 then (snapLastIdx rl, snapLastTerm rl)
  else
    let i := len (tailLog rl) - 1 in
    (snapLastIdx rl + i,
     match slice_get (tailLog rl) i with
     | Some e => le_Term e
     | None => 0 (* not reached: [i] is the last index *)
     end).

(** The [range] loop of [firstFor]: [None] when it falls through or breaks. *)
Fixpoint firstFor_loop (term : Z) (l : list LogEntry) (i : Z) : option Z :=
  match l with
  | [] => None
  | entry :: l =>
    if le_Term entry =? term then Some i
    else if term <? le_Term entry then None
    else firstFor_loop term l (i + 1)
  end.

Definition firstFor (rl : RaftLog) (term : Z) : Z :=
  match firstFor_loop term (tailLog rl) 0 with
  | Some i => i + snapLastIdx rl
  | None => InvalidIndex
  end.

Definition tail (rl : RaftLog) (startIdx : Z) : option (list LogEntry) :=
  if size rl <=? startIdx then Some []
  else
    let startIdx := if startIdx <? snapLastIdx rl then snapLastIdx rl else startIdx in
    i ← idx rl startIdx;
    Some (drop (Z.to_nat i) (tailLog rl)).

Definition append (rl : RaftLog) (e : LogEntry) : RaftLog :=
  mkLog (snapLastIdx rl) (snapLastTerm rl) (snapshot rl) (tailLog rl ++ [e]).

Definition appendFrom (rl : RaftLog) (logicPrevIndex : Z) (entries : list LogEntry)
    : option RaftLog :=
  i ← idx rl logicPrevIndex;
  Some (mkLog (snapLastIdx rl) (snapLastTerm rl) (snapshot rl)
          (take (Z.to_nat (i + 1)) (tailLog rl) ++ entries)).

Definition doSnapshot (rl : RaftLog) (index : Z) (snap : list SB) : option RaftLog :=
  if (index <=? snapLastIdx rl) || (size rl <=? index) then Some rl
  else
    i ← idx rl index;
    e ← slice_get (tailLog rl) i;
    let newLog := ([] ++ [dummy (le_Term e)]) ++ drop (Z.to_nat (i + 1)) (tailLog rl) in
    Some (mkLog index (le_Term e) snap newLog).

Definition installSnapshot (rl : RaftLog) (index term : Z) (snap : list SB)
    : option RaftLog :=
  if index <=? snapLastIdx rl then Some rl
  else
    newTailLog ←
      (if index + 1 <? size rl then
         i ← idx rl index;
         Some (([] ++ [dummy term]) ++ drop (Z.to_nat (i + 1)) (tailLog rl))
       else Some [dummy term]);
    Some (mkLog index term snap newTailLog).

(** ** The logical log *)

Definition termAt (rl : RaftLog) (i : Z) : option Z := le_Term <$> at_ rl i.

(** The representation invariant: there is a mock entry for the snapshot's last
    index and it carries the snapshot's last term. *)
Record wf (rl : RaftLog) : Prop := {
  wf_idx : 0 ≤ snapLastIdx rl;
  wf_head : le_Term <$> head (tailLog rl) = Some (snapLastTerm rl)
}.

(** Terms never decrease along the log. *)
Definition terms_sorted (rl : RaftLog) : Prop :=
  StronglySorted Z.le (le_Term <$> tailLog rl).
End log.
Arguments RaftLog : clear implicits.

Section facts.
Context {Cmd SB : Type}.
Implicit Types (rl : RaftLog Cmd SB) (es : list (LogEntry Cmd)) (i j t : Z).

(** ** Access *)

Lemma at_slice rl i : at_ rl i = slice_get (tailLog rl) (i - snapLastIdx rl).
Proof.
  unfold at_, idx, size. destruct (_ || _) eqn:E; simpl; [|done].
  symmetry. apply slice_get_None. lia.
Qed.

Lemma idx_Some rl i :
  snapLastIdx rl ≤ i < size rl → idx rl i = Some (i - snapLastIdx rl).
Proof. intros. unfold idx. destruct (_ || _) eqn:E; [lia|done]. Qed.

Lemma at_is_Some rl i : is_Some (at_ rl i) ↔ snapLastIdx rl ≤ i < size rl.
Proof. rewrite at_slice, slice_get_is_Some. unfold size. lia. Qed.

Lemma at_None rl i : at_ rl i = None ↔ ¬ (snapLastIdx rl ≤ i < size rl).
Proof. rewrite eq_None_not_Some, at_is_Some. done. Qed.

Lemma termAt_is_Some rl i : is_Some (termAt rl i) ↔ snapLastIdx rl ≤ i < size rl.
Proof. unfold termAt. rewrite fmap_is_Some. apply at_is_Some. Qed.

Lemma wf_nonempty rl : wf rl → tailLog rl ≠ [].
Proof. intros [_ H] E. by rewrite E in H. Qed.

Lemma wf_size rl : wf rl → snapLastIdx rl < size rl.
Proof.
  intros H%wf_nonempty. unfold size, len. destruct (tailLog rl); [done|simpl; lia].
Qed.

Lemma wf_termAt rl : wf rl → termAt rl (snapLastIdx rl) = Some (snapLastTerm rl).
Proof.
  intros H. unfold termAt. rewrite at_slice, Z.sub_diag. destruct H as [_ H].
  destruct (tailLog rl); [done|]. exact H.
Qed.

Lemma last_spec rl :
  wf rl → last rl = (size rl - 1, default 0 (termAt rl (size rl - 1))).
Proof.
  intros H. pose proof (wf_size _ H) as Hs. unfold size in Hs.
  unfold last, termAt. rewrite at_slice. case_match eqn:E; [lia|].
  unfold size. f_equal; [lia|].
  replace (snapLastIdx rl + len (tailLog rl) - 1 - snapLastIdx rl)
    with (len (tailLog rl) - 1) by lia.
  by destruct (slice_get _ _).
Qed.

Lemma size_NewLog i t snap es : size (NewLog i t snap es : RaftLog Cmd SB) = i + 1 + len es.
Proof. unfold size, len. simpl. lia. Qed.

Lemma wf_NewLog i t snap es : 0 ≤ i → wf (NewLog i t snap es : RaftLog Cmd SB).
Proof. by split. Qed.

(** ** Mutation *)

Lemma size_append rl e : size (append rl e) = size rl + 1.
Proof. unfold size. simpl. rewrite len_app. unfold len at 2. simpl. lia. Qed.

Lemma at_append rl e i :
  at_ (append rl e) i = if decide (i = size rl) then Some e else at_ rl i.
Proof.
  rewrite !at_slice. simpl. unfold size, slice_get, len.
  case_decide; case_decide; subst; try done; try lia.
  - rewrite lookup_app_r by lia.
    by replace (Z.to_nat _ - length _)%nat with 0%nat by lia.
  - destruct (decide (Z.to_nat (i - snapLastIdx rl) < length (tailLog rl))%nat).
    + by rewrite lookup_app_l.
    + rewrite lookup_app_r by lia. rewrite (lookup_ge_None_2 (tailLog rl)) by lia.
      apply lookup_ge_None_2. simpl. lia.
Qed.

Lemma wf_append rl e : wf rl → wf (append rl e).
Proof. intros [H1 H2]. split; [done|]. simpl. by destruct (tailLog rl). Qed.

Lemma appendFrom_Some rl prev es :
  snapLastIdx rl ≤ prev < size rl →
  appendFrom rl prev es =
    Some (mkLog (snapLastIdx rl) (snapLastTerm rl) (snapshot rl)
            (take (Z.to_nat (prev - snapLastIdx rl + 1)) (tailLog rl) ++ es)).
Proof. intros H. unfold appendFrom. by rewrite idx_Some. Qed.

Lemma appendFrom_inv rl prev es rl' :
  appendFrom rl prev es = Some rl' →
  snapLastIdx rl ≤ prev < size rl ∧
  rl' = mkLog (snapLastIdx rl) (snapLastTerm rl) (snapshot rl)
          (take (Z.to_nat (prev - snapLastIdx rl + 1)) (tailLog rl) ++ es).
Proof.
  unfold appendFrom, idx. destruct (_ || _) eqn:E; simpl; [done|].
  intros [= <-]. split; [lia|done].
Qed.

Lemma size_appendFrom rl prev es rl' :
  appendFrom rl prev es = Some rl' → size rl' = prev + 1 + len es.
Proof.
  intros [H ->]%appendFrom_inv. unfold size, len in *. simpl.
  rewrite length_app, length_take. lia.
Qed.

Lemma at_appendFrom rl prev es rl' i :
  appendFrom rl prev es = Some rl' →
  at_ rl' i = if decide (i ≤ prev) then at_ rl i else slice_get es (i - prev - 1).
Proof.
  intros [H ->]%appendFrom_inv. rewrite !at_slice. simpl.
  unfold size, slice_get, len in *.
  repeat case_decide; try done; try lia.
  - rewrite lookup_app_l by (rewrite length_take; lia).
    by rewrite lookup_take_lt by lia.
  - rewrite lookup_app_r by (rewrite length_take; lia).
    rewrite length_take. f_equal. lia.
Qed.

Lemma wf_appendFrom rl prev es rl' :
  wf rl → appendFrom rl prev es = Some rl' → wf rl'.
Proof.
  intros Hwf [H ->]%appendFrom_inv. pose proof (wf_nonempty _ Hwf).
  destruct Hwf as [H1 H2]. split; simpl; [done|].
  destruct (tailLog rl); [done|].
  by replace (Z.to_nat _) with (S (Z.to_nat (prev - snapLastIdx rl))) by lia.
Qed.

(** ** Compaction *)

Lemma doSnapshot_Some rl index snap :
  snapLastIdx rl < index < size rl →
  ∃ e, at_ rl index = Some e ∧
    doSnapshot rl index snap =
      Some (mkLog index (le_Term e) snap
              (dummy (le_Term e) :: drop (Z.to_nat (index - snapLastIdx rl + 1)) (tailLog rl))).
Proof.
  intros H. destruct (proj2 (at_is_Some rl index)) as [e He]; [lia|].
  exists e. split; [done|]. unfold doSnapshot.
  destruct (_ || _) eqn:E; [lia|]. rewrite idx_Some by lia. simpl.
  rewrite at_slice in He. by rewrite He.
Qed.

Lemma doSnapshot_id rl index snap :
  index ≤ snapLastIdx rl ∨ size rl ≤ index → doSnapshot rl index snap = Some rl.
Proof. intros H. unfold doSnapshot. destruct (_ || _) eqn:E; [done|lia]. Qed.

Lemma installSnapshot_Some rl index term snap :
  snapLastIdx rl < index →
  installSnapshot rl index term snap =
    Some (mkLog index term snap
            (dummy term :: drop (Z.to_nat (index - snapLastIdx rl + 1)) (tailLog rl))).
Proof.
  intros H. unfold installSnapshot. destruct (_ <=? _) eqn:E; [lia|].
  destruct (index + 1 <? size rl) eqn:E2.
  - rewrite idx_Some by lia. done.
  - simpl. rewrite drop_ge; [done|]. unfold size, len in *. lia.
Qed.

Lemma installSnapshot_id rl index term snap :
  index ≤ snapLastIdx rl → installSnapshot rl index term snap = Some rl.
Proof. intros H. unfold installSnapshot. destruct (_ <=? _) eqn:E; [done|lia]. Qed.

Lemma at_compacted (rl : RaftLog Cmd SB) (index t : Z) (snap : list SB) (i : Z) :
  snapLastIdx rl < index →
  at_ (mkLog index t snap
         (dummy t :: drop (Z.to_nat (index - snapLastIdx rl + 1)) (tailLog rl))) i =
  if decide (i < index) then None
  else if decide (i = index) then Some (dummy t) else at_ rl i.
Proof.
  intros H. rewrite !at_slice. simpl. unfold slice_get.
  repeat case_decide; try done; try lia.
  - subst. by rewrite Z.sub_diag.
  - destruct (Z.to_nat (i - index)) as [|k] eqn:E; [lia|]. simpl.
    rewrite lookup_drop. f_equal. lia.
Qed.

Lemma wf_doSnapshot rl index snap rl' :
  wf rl → doSnapshot rl index snap = Some rl' → wf rl'.
Proof.
  intros Hwf E. destruct (decide (snapLastIdx rl < index < size rl)) as [H|H].
  - destruct (doSnapshot_Some rl index snap H) as (e & _ & E'). simplify_eq.
    split; simpl; [destruct Hwf; lia|done].
  - rewrite doSnapshot_id in E by lia. by simplify_eq.
Qed.

Lemma wf_installSnapshot rl index term snap rl' :
  wf rl → installSnapshot rl index term snap = Some rl' → wf rl'.
Proof.
  intros Hwf E. destruct (decide (snapLastIdx rl < index)) as [H|H].
  - rewrite installSnapshot_Some in E by done. simplify_eq.
    split; simpl; [destruct Hwf; lia|done].
  - rewrite installSnapshot_id in E by lia. by simplify_eq.
Qed.

(** ** Terms along the log *)

Lemma terms_sorted_spec rl :
  terms_sorted rl ↔
  ∀ i j a b, termAt rl i = Some a → termAt rl j = Some b → i ≤ j → a ≤ b.
Proof.
  unfold terms_sorted. rewrite StronglySorted_lookup_iff. split.
  - intros H i j a b. unfold termAt. rewrite !at_slice, !fmap_Some.
    intros (x & Hx & ->) (y & Hy & ->) Hij.
    apply slice_get_Some in Hx as [? Hx]. apply slice_get_Some in Hy as [? Hy].
    destruct (decide (i = j)) as [->|]; [by simplify_eq|].
    apply (H (Z.to_nat (i - snapLastIdx rl)) (Z.to_nat (j - snapLastIdx rl))); [lia|..].
    + by rewrite list_lookup_fmap, Hx.
    + by rewrite list_lookup_fmap, Hy.
  - intros H i j x y Hij. rewrite !list_lookup_fmap. intros Hx Hy.
    apply (H (snapLastIdx rl + Z.of_nat i) (snapLastIdx rl + Z.of_nat j)); [..|lia];
      unfold termAt; rewrite at_slice; unfold slice_get;
      rewrite decide_True by lia; rewrite Z.add_simpl_l, Nat2Z.id; done.
Qed.

Lemma firstFor_loop_Some t es i k :
  firstFor_loop t es i = Some k →
  i ≤ k ∧ le_Term <$> es !! Z.to_nat (k - i) = Some t ∧
  ∀ j : nat, (j < Z.to_nat (k - i))%nat → le_Term <$> es !! j ≠ Some t.
Proof.
  revert i. induction es as [|e es IH]; intros i; simpl; [done|].
  destruct (Z.eqb_spec (le_Term e) t) as [<-|Hne].
  - intros [= ->]. rewrite Z.sub_diag. split_and!; [lia|done|lia].
  - destruct (t <? le_Term e) eqn:E; [done|].
    intros (Hk & Ht & Hall)%IH.
    replace (Z.to_nat (k - i)) with (S (Z.to_nat (k - (i + 1)))) by lia.
    split_and!; [lia|done|]. intros [|j] Hj; simpl; [naive_solver|].
    apply Hall. lia.
Qed.

Lemma firstFor_loop_None t es i :
  StronglySorted Z.le (le_Term <$> es) → firstFor_loop t es i = None →
  ∀ j : nat, le_Term <$> es !! j ≠ Some t.
Proof.
  revert i. induction es as [|e es IH]; intros i Hs; simpl; [done|].
  inversion Hs as [|? ? Hs' Hall]; subst.
  destruct (Z.eqb_spec (le_Term e) t) as [|Hne]; [done|].
  destruct (t <? le_Term e) eqn:E.
  - intros _ [|j]; simpl; [naive_solver|]. intros Hj.
    rewrite <-list_lookup_fmap in Hj. rewrite Forall_lookup in Hall.
    apply Hall in Hj. lia.
  - intros Hn [|j]; simpl; [naive_solver|]. by eapply IH.
Qed.

Lemma termAt_slice rl i :
  termAt rl i = if decide (snapLastIdx rl ≤ i)
                then le_Term <$> tailLog rl !! Z.to_nat (i - snapLastIdx rl) else None.
Proof.
  unfold termAt. rewrite at_slice. unfold slice_get.
  repeat case_decide; try done; lia.
Qed.
End facts.

(** ** The properties of the log *)

Section theorems.
Context {Cmd SB : Type}.
Implicit Types (rl : RaftLog Cmd SB) (es : list (LogEntry Cmd)) (i j t : Z).

(** [firstFor term] is the smallest logical index whose entry has that
    term, and [InvalidIndex] exactly when no entry has it; the early [break] on
    a larger term loses nothing because terms never decrease along the log. *)
Theorem firstFor_spec rl t :
  terms_sorted rl →
  (termAt rl (firstFor rl t) = Some t ∧
     snapLastIdx rl ≤ firstFor rl t ∧
     ∀ j, j < firstFor rl t → termAt rl j ≠ Some t) ∨
  (firstFor rl t = InvalidIndex ∧ ∀ j, termAt rl j ≠ Some t).
Proof.
  intros Hs. unfold firstFor. destruct (firstFor_loop t (tailLog rl) 0) as [k|] eqn:E.
  - left. apply firstFor_loop_Some in E as (Hk & Ht & Hall).
    rewrite Z.sub_0_r in *. split_and!; [|lia|].
    + rewrite termAt_slice, decide_True by lia.
      by replace (k + snapLastIdx rl - snapLastIdx rl) with k by lia.
    + intros j Hj. rewrite termAt_slice. case_decide; [|done]. apply Hall. lia.
  - right. split; [done|]. intros j. rewrite termAt_slice. case_decide; [|done].
    by eapply firstFor_loop_None.
Qed.

(** Replacing the entries after [prev] by the entries the log already has
    there ([appendFrom prev (tail (prev+1))]) gives the same log: [tail] and
    [appendFrom] cut at the same place. *)
Theorem tail_appendFrom_roundtrip rl prev :
  snapLastIdx rl ≤ prev < size rl →
  ∃ es, tail rl (prev + 1) = Some es ∧ appendFrom rl prev es = Some rl.
Proof.
  intros H. unfold tail.
  exists (drop (Z.to_nat (prev - snapLastIdx rl + 1)) (tailLog rl)). split.
  - case_match eqn:E.
    + rewrite drop_ge; [done|]. unfold size, len in *. lia.
    + case_match eqn:E2; [lia|]. rewrite idx_Some by lia. simpl. do 2 f_equal. lia.
  - rewrite appendFrom_Some by done. rewrite take_drop. by destruct rl.
Qed.

(** After [appendFrom prev entries] (which does not panic when [prev] is in
    the log) the log is exactly: the old log up to [prev], then [entries], and
    nothing after them; the representation invariant is kept. *)
Theorem appendFrom_spec rl prev es :
  wf rl → snapLastIdx rl ≤ prev < size rl →
  ∃ rl', appendFrom rl prev es = Some rl' ∧ wf rl' ∧
    size rl' = prev + 1 + len es ∧
    (∀ i, i ≤ prev → at_ rl' i = at_ rl i) ∧
    (∀ i, prev < i → at_ rl' i = slice_get es (i - prev - 1)).
Proof.
  intros Hwf H. eexists. pose proof (appendFrom_Some rl prev es H) as E.
  split; [exact E|]. split_and!.
  - by eapply wf_appendFrom.
  - by eapply size_appendFrom.
  - intros i Hi. by rewrite (at_appendFrom _ _ _ _ _ E), decide_True.
  - intros i Hi. rewrite (at_appendFrom _ _ _ _ _ E), decide_False by lia. done.
Qed.

(** [doSnapshot index] drops exactly the entries below [index]: the size,
    the term at [index] and every entry above [index] are unchanged, nothing
    below [index] remains readable, and the representation invariant holds. *)
Theorem doSnapshot_spec rl index snap :
  wf rl → snapLastIdx rl < index < size rl →
  ∃ rl', doSnapshot rl index snap = Some rl' ∧ wf rl' ∧
    snapLastIdx rl' = index ∧ snapshot rl' = snap ∧ size rl' = size rl ∧
    termAt rl' index = termAt rl index ∧
    (∀ i, index < i → at_ rl' i = at_ rl i) ∧
    (∀ i, i < index → at_ rl' i = None).
Proof.
  intros Hwf H. destruct (doSnapshot_Some rl index snap H) as (e & He & E).
  eexists. split; [exact E|]. split_and!; try done.
  - by eapply wf_doSnapshot.
  - unfold size, len in *. simpl. rewrite length_drop. lia.
  - unfold termAt. rewrite He, at_compacted by lia.
    rewrite decide_False, decide_True by lia. done.
  - intros i Hi. rewrite at_compacted by lia.
    by rewrite decide_False, decide_False by lia.
  - intros i Hi. rewrite at_compacted by lia. by rewrite decide_True.
Qed.

(** [installSnapshot index term] never panics; for a newer snapshot the log
    then starts at [(index, term)] and keeps the entries above [index]. *)
Theorem installSnapshot_spec rl index term snap :
  wf rl → snapLastIdx rl < index →
  ∃ rl', installSnapshot rl index term snap = Some rl' ∧ wf rl' ∧
    snapLastIdx rl' = index ∧ snapLastTerm rl' = term ∧ snapshot rl' = snap ∧
    size rl' = Z.max (index + 1) (size rl) ∧
    termAt rl' index = Some term ∧
    (∀ i, index < i → at_ rl' i = at_ rl i).
Proof.
  intros Hwf H. pose proof (installSnapshot_Some rl index term snap H) as E.
  eexists. split; [exact E|]. split_and!; try done.
  - by eapply wf_installSnapshot.
  - unfold size, len in *. simpl. rewrite length_drop. lia.
  - unfold termAt. rewrite at_compacted by lia.
    by rewrite decide_False, decide_True by lia.
  - intros i Hi. rewrite at_compacted by lia.
    by rewrite decide_False, decide_False by lia.
Qed.

(** Reading back what [persist] wrote restores the snapshot position and
    the entries, whatever the receiving log held before. *)
Theorem persist_readPersist rl rl0 :
  readPersist rl0 (persist rl []) =
    (mkLog (snapLastIdx rl) (snapLastTerm rl) (snapshot rl0) (tailLog rl), true).
Proof. done. Qed.
End theorems.
End RL.

(** ** A concrete log *)

Module LogExample.
Import RL.

(** Snapshot up to index 2 of term 1, then entries 3 (term 1), 4 and 5 (term 3). *)
Definition ex : RaftLog Z unit :=
  mkLog 2 1 [tt] [dummy 1; mkEntry 1 true (Some 10); mkEntry 3 true (Some 11);
                  mkEntry 3 true (Some 12)].

Lemma ex_wf : wf ex.
Proof. split; simpl; [lia|reflexivity]. Qed.

Lemma firstFor_witness :
  (termAt ex (firstFor ex 3) = Some 3 ∧ snapLastIdx ex ≤ firstFor ex 3 ∧
     ∀ j, j < firstFor ex 3 → termAt ex j ≠ Some 3) ∨
  (firstFor ex 3 = InvalidIndex ∧ ∀ j, termAt ex j ≠ Some 3).
Proof.
  apply (firstFor_spec ex 3). unfold terms_sorted. simpl.
  repeat constructor; lia.
Defined.

Lemma roundtrip_witness :
  ∃ es, tail ex (3 + 1) = Some es ∧ appendFrom ex 3 es = Some ex.
Proof. apply (tail_appendFrom_roundtrip ex 3). unfold size, len. simpl. lia. Defined.

Lemma appendFrom_witness :
  ∃ rl', appendFrom ex 3 [mkEntry 4 true (Some 20)] = Some rl' ∧ wf rl' ∧
    size rl' = 3 + 1 + len [mkEntry 4 true (Some 20)] ∧
    (∀ i, i ≤ 3 → at_ rl' i = at_ ex i) ∧
    (∀ i, 3 < i → at_ rl' i = slice_get [mkEntry 4 true (Some 20)] (i - 3 - 1)).
Proof.
  apply (appendFrom_spec ex 3 [mkEntry 4 true (Some 20)]).
  - apply ex_wf.
  - unfold size, len. simpl. lia.
Defined.

Lemma doSnapshot_witness :
  ∃ rl', doSnapshot ex 4 [] = Some rl' ∧ wf rl' ∧
    snapLastIdx rl' = 4 ∧ snapshot rl' = [] ∧ size rl' = size ex ∧
    termAt rl' 4 = termAt ex 4 ∧
    (∀ i, 4 < i → at_ rl' i = at_ ex i) ∧ (∀ i, i < 4 → at_ rl' i = None).
Proof.
  apply (doSnapshot_spec ex 4 []).
  - apply ex_wf.
  - unfold size, len. simpl. lia.
Defined.

Lemma installSnapshot_witness :
  ∃ rl', installSnapshot ex 4 3 [] = Some rl' ∧ wf rl' ∧
    snapLastIdx rl' = 4 ∧ snapLastTerm rl' = 3 ∧ snapshot rl' = [] ∧
    size rl' = Z.max (4 + 1) (size ex) ∧ termAt rl' 4 = Some 3 ∧
    (∀ i, 4 < i → at_ rl' i = at_ ex i).
Proof.
  apply (installSnapshot_spec ex 4 3 []).
  - apply ex_wf.
  - simpl. lia.
Defined.
End LogExample.
