(* ===== verification/GoSlice.v ===== *)
(** Go slices as they are: views of shared arrays.

    [RaftLog] treats [tailLog] as a value.  Here it is a slice header over a heap
    of arrays, as in [src/src/raft/raft_log.go]: [tail] returns a view of the
    log's own array, and [appendFrom] overwrites that array when it has room.
    [slice_log_refines] shows that for the log itself this makes no difference, so
    [RaftLog] is right about it; [request_entries_change] shows that it does make
    one for the requests [startReplication] builds from [tail], which is why the network
    of [RaftNet] has the step [EOverwrite]; [requests_kept] shows that it does not as
    long as the peer accepts no entries from another leader. *)

From S2P Require Import Prelude Gob RaftLog.

#[local] Open Scope Z_scope.

Module GS.

(** ** Slices *)

Record slice := mkSlice {
  s_arr : nat;
  s_off : nat;
  s_len : nat;
  s_cap : nat
}.

Section slices.
Context {A : Type} (zero : A).

(** The capacity of a new array: at least what is needed. *)
Context (grow : nat → nat → nat).
Implicit Types (h : list (list A)) (s : slice) (es : list A).

Definition valid h s : Prop :=
  ∃ a, h !! s_arr s = Some a ∧ (s_off s + s_cap s ≤ length a)%nat ∧ (s_len s ≤ s_cap s)%nat.

Definition read h s : list A :=
  match h !! s_arr s with Some a => take (s_len s) (drop (s_off s) a) | None => [] end.

(** [s[lo:hi]] and [s[lo:]] *)
Definition sub s (lo hi : nat) : slice :=
  mkSlice (s_arr s) (s_off s + lo) (hi - lo) (s_cap s - lo).

Definition overwrite (a : list A) (i : nat) es : list A :=
  take i a ++ es ++ drop (i + length es) a.

(** [make([]T, k)] filled with [es]. *)
Definition new_array h es (k : nat) : list (list A) * slice :=
  (h ++ [es ++ replicate (k - length es) zero],
   mkSlice (length h) 0 (length es) (length es + (k - length es))).

(** The built-in [append]. *)
Definition append_slice h s es : list (list A) * slice :=
  let k := (s_len s + length es)%nat in
  if decide (k ≤ s_cap s)%nat
  then (alter (λ a, overwrite a (s_off s + s_len s) es) (s_arr s) h,
        mkSlice (s_arr s) (s_off s) k (s_cap s))
  else new_array h (read h s ++ es) (grow (s_cap s) k).

Lemma read_length h s : valid h s → length (read h s) = s_len s.
Proof.
  intros (a & E & Hc & Hl). unfold read. rewrite E, length_take, length_drop. lia.
Qed.

Lemma new_array_spec h es k :
  valid (new_array h es k).1 (new_array h es k).2 ∧ read (new_array h es k).1 (new_array h es k).2 = es.
Proof.
  unfold new_array, valid, read. simpl. rewrite list_lookup_middle by done. split.
  - eexists. split; [done|]. rewrite length_app, length_replicate. lia.
  - by rewrite drop_0, take_app_length.
Qed.

Lemma append_slice_spec h s es :
  valid h s →
  valid (append_slice h s es).1 (append_slice h s es).2 ∧
  read (append_slice h s es).1 (append_slice h s es).2 = read h s ++ es.
Proof.
  intros Hv. pose proof Hv as (a & E & Hc & Hl). unfold append_slice. case_decide as Hk; [|apply new_array_spec].
  unfold valid, read. simpl. rewrite list_lookup_alter_eq, E. simpl. unfold overwrite. split.
  - eexists. split; [done|]. rewrite !length_app, length_take, length_drop. lia.
  - rewrite drop_app_le by (rewrite length_take; lia). rewrite (app_assoc (drop _ _)).
    rewrite skipn_firstn_comm. replace (s_off s + s_len s - s_off s)%nat with (s_len s) by lia.
    rewrite take_app_le by (rewrite length_app, length_take, length_drop; lia).
    rewrite take_ge; [done|]. rewrite length_app, length_take, length_drop. lia.
Qed.

Lemma sub_spec h s (lo hi : nat) :
  valid h s → (lo ≤ hi ≤ s_len s)%nat →
  valid h (sub s lo hi) ∧ read h (sub s lo hi) = take (hi - lo) (drop lo (read h s)).
Proof.
  intros (a & E & Hc & Hl) Hr. unfold valid, read. simpl. rewrite E. split.
  - exists a. split; [done|]. lia.
  - rewrite skipn_firstn_comm, drop_drop, take_take. f_equal. lia.
Qed.

(** Reading below the place an append writes to. *)
Lemma append_frame h s es v :
  valid h s → valid h v →
  s_arr v ≠ s_arr s ∨ (s_off v + s_len v ≤ s_off s + s_len s)%nat →
  read (append_slice h s es).1 v = read h v.
Proof.
  intros (a & E & Hc & Hl) (b & Eb & Hcb & Hlb) Hd. unfold append_slice. case_decide as Hk.
  - unfold read. simpl. destruct (decide (s_arr v = s_arr s)) as [Ea|Hne].
    + rewrite Ea, list_lookup_alter_eq, E in *. simplify_eq/=. destruct Hd as [?|Hd]; [done|].
      unfold overwrite. rewrite drop_app_le by (rewrite length_take; lia).
      rewrite take_app_le by (rewrite length_drop, length_take; lia).
      rewrite skipn_firstn_comm, take_take. f_equal. lia.
    + by rewrite list_lookup_alter_ne.
  - unfold read, new_array. simpl. rewrite lookup_app_l; [done|]. by eapply lookup_lt_Some.
Qed.
End slices.

(** ** The log over a heap *)

Section heap_log.
Context {Cmd SB : Type} (grow : nat → nat → nat).
Abbreviation LogEntry := (LogEntry Cmd).
Abbreviation heap := (list (list LogEntry)).
Abbreviation RaftLog := (RL.RaftLog Cmd SB).

Record slog := mkSlog {
  l_idx : Z;
  l_term : Z;
  l_snapshot : list SB;
  l_tail : slice
}.
Implicit Types (h : heap) (sl : slog) (es : list LogEntry).

Definition zero_entry : LogEntry := mkEntry 0 false None.

(** The log as a value. *)
Definition value h sl : RaftLog := RL.mkLog (l_idx sl) (l_term sl) (l_snapshot sl) (read h (l_tail sl)).

Definition slog_size sl : Z := l_idx sl + Z.of_nat (s_len (l_tail sl)).

Definition slog_idx sl (logicIdx : Z) : option Z :=
  if (logicIdx <? l_idx sl) || (slog_size sl <=? logicIdx) then None else Some (logicIdx - l_idx sl).

(** [nil] is the slice of length zero. *)
Definition slog_tail sl (startIdx : Z) : option slice :=
  if slog_size sl <=? startIdx then Some (mkSlice 0 0 0 0)
  else
    let startIdx := if startIdx <? l_idx sl then l_idx sl else startIdx in
    i ← slog_idx sl startIdx;
    Some (sub (l_tail sl) (Z.to_nat i) (s_len (l_tail sl))).

Definition slog_append h sl (e : LogEntry) : heap * slog :=
  let '(h, s) := append_slice zero_entry grow h (l_tail sl) [e] in
  (h, mkSlog (l_idx sl) (l_term sl) (l_snapshot sl) s).

Definition slog_appendFrom h sl (logicPrevIndex : Z) es : option (heap * slog) :=
  i ← slog_idx sl logicPrevIndex;
  let '(h, s) := append_slice zero_entry grow h (sub (l_tail sl) 0 (Z.to_nat (i + 1))) es in
  Some (h, mkSlog (l_idx sl) (l_term sl) (l_snapshot sl) s).

(** The two appends of [doSnapshot] and [installSnapshot] to a new slice of
    sufficient capacity. *)
Definition rebuild h (t : Z) (rest : list LogEntry) : heap * slice :=
  new_array zero_entry h (RL.dummy t :: rest) 0.

Definition slog_doSnapshot h sl (index : Z) (snap : list SB) : option (heap * slog) :=
  if (index <=? l_idx sl) || (slog_size sl <=? index) then Some (h, sl)
  else
    i ← slog_idx sl index;
    e ← slice_get (read h (l_tail sl)) i;
    let rest := read h (sub (l_tail sl) (Z.to_nat (i + 1)) (s_len (l_tail sl))) in
    let '(h, s) := rebuild h (le_Term e) rest in
    Some (h, mkSlog index (le_Term e) snap s).

Definition slog_installSnapshot h sl (index term : Z) (snap : list SB) : option (heap * slog) :=
  if index <=? l_idx sl then Some (h, sl)
  else
    rest ← (if index + 1 <? slog_size sl then
              i ← slog_idx sl index;
              Some (read h (sub (l_tail sl) (Z.to_nat (i + 1)) (s_len (l_tail sl))))
            else Some []);
    let '(h, s) := rebuild h term rest in
    Some (h, mkSlog index term snap s).

(** One mutation of the log. *)
Inductive log_op :=
  | OpAppend (e : LogEntry)
  | OpAppendFrom (prev : Z) (es : list LogEntry)
  | OpSnapshot (index : Z) (snap : list SB)
  | OpInstall (index term : Z) (snap : list SB).

Definition slog_op (o : log_op) (hs : heap * slog) : option (heap * slog) :=
  match o with
  | OpAppend e => Some (slog_append hs.1 hs.2 e)
  | OpAppendFrom prev es => slog_appendFrom hs.1 hs.2 prev es
  | OpSnapshot i snap => slog_doSnapshot hs.1 hs.2 i snap
  | OpInstall i t snap => slog_installSnapshot hs.1 hs.2 i t snap
  end.

Definition log_value_op (o : log_op) (rl : RaftLog) : option RaftLog :=
  match o with
  | OpAppend e => Some (RL.append rl e)
  | OpAppendFrom prev es => RL.appendFrom rl prev es
  | OpSnapshot i snap => RL.doSnapshot rl i snap
  | OpInstall i t snap => RL.installSnapshot rl i t snap
  end.

Lemma size_value h sl : valid h (l_tail sl) → RL.size (value h sl) = slog_size sl.
Proof. intros Hv. unfold RL.size, slog_size, len. simpl. by rewrite (read_length _ _ Hv). Qed.

Lemma idx_value h sl i : valid h (l_tail sl) → RL.idx (value h sl) i = slog_idx sl i.
Proof. intros Hv. unfold RL.idx, slog_idx. by rewrite (size_value _ _ Hv). Qed.

Lemma rest_value h sl (i : nat) :
  valid h (l_tail sl) → (i ≤ s_len (l_tail sl))%nat →
  read h (sub (l_tail sl) i (s_len (l_tail sl))) = drop i (read h (l_tail sl)).
Proof.
  intros Hv Hi. destruct (sub_spec h (l_tail sl) i (s_len (l_tail sl)) Hv) as [_ ->]; [lia|].
  rewrite take_ge; [done|]. rewrite length_drop, (read_length _ _ Hv). lia.
Qed.

Lemma slog_idx_Some sl i j : slog_idx sl i = Some j → 0 ≤ j < Z.of_nat (s_len (l_tail sl)).
Proof. unfold slog_idx, slog_size. destruct (_ || _) eqn:E; [done|]. intros [= <-]. lia. Qed.

Lemma op_value o h sl :
  valid h (l_tail sl) →
  log_value_op o (value h sl) = (λ hs, value hs.1 hs.2) <$> slog_op o (h, sl) ∧
  ∀ h' sl', slog_op o (h, sl) = Some (h', sl') → valid h' (l_tail sl').
Proof.
  intros Hv. assert (∀ t rest, valid (rebuild h t rest).1 (rebuild h t rest).2 ∧
    read (rebuild h t rest).1 (rebuild h t rest).2 = RL.dummy t :: rest) as Hr
    by (intros; apply new_array_spec).
  destruct o as [e|prev es|index snap|index t snap]; simpl.
  - destruct (append_slice_spec zero_entry grow h (l_tail sl) [e] Hv) as [H1 H2].
    unfold slog_append. destruct (append_slice _ _ h (l_tail sl) [e]) as [h1 s1]. simpl in *.
    unfold RL.append, value. simpl. rewrite H2. split; [done|]. by intros h' sl' [= <- <-].
  - unfold RL.appendFrom, slog_appendFrom. rewrite (idx_value _ _ _ Hv).
    destruct (slog_idx sl prev) as [i|] eqn:Ei; [|done]. cbn [mbind option_bind].
    apply slog_idx_Some in Ei.
    destruct (sub_spec h (l_tail sl) 0 (Z.to_nat (i + 1)) Hv) as [Hs1 Hs2]; [lia|].
    destruct (append_slice_spec zero_entry grow h _ es Hs1) as [H1 H2].
    destruct (append_slice _ _ h (sub _ _ _) es) as [h1 s1]. simpl in *.
    unfold value. simpl. rewrite H2, Hs2, drop_0, Nat.sub_0_r. split; [done|]. by intros h' sl' [= <- <-].
  - unfold RL.doSnapshot, slog_doSnapshot. rewrite (size_value _ _ Hv), (idx_value _ _ _ Hv).
    cbn [RL.snapLastIdx RL.tailLog value]. destruct (_ || _); [split; [done|by intros h' sl' [= <- <-]]|].
    destruct (slog_idx sl index) as [i|] eqn:Ei; [|done]. cbn [mbind option_bind].
    apply slog_idx_Some in Ei. destruct (slice_get (read h (l_tail sl)) i) as [e|]; [|done].
    cbn [mbind option_bind]. rewrite rest_value by (done || lia).
    destruct (Hr (le_Term e) (drop (Z.to_nat (i + 1)) (read h (l_tail sl)))) as [H1 H2].
    destruct (rebuild _ _ _) as [h1 s1]. simpl in *. unfold value. simpl. rewrite H2.
    split; [done|]. by intros h' sl' [= <- <-].
  - unfold RL.installSnapshot, slog_installSnapshot.
    rewrite (size_value _ _ Hv), (idx_value _ _ _ Hv). cbn [RL.snapLastIdx RL.tailLog value].
    destruct (_ <=? _); [split; [done|by intros h' sl' [= <- <-]]|].
    set (r := if index + 1 <? slog_size sl then _ else Some []).
    set (v := if index + 1 <? slog_size sl then _ else _).
    assert (v = (λ rest, RL.dummy t :: rest) <$> r) as ->.
    { unfold v, r. destruct (_ <? _); [|done]. destruct (slog_idx sl index) as [i|] eqn:Ei; [|done].
      apply slog_idx_Some in Ei. cbn [mbind option_bind fmap option_fmap option_map].
      by rewrite rest_value by (done || lia). }
    destruct r as [rest|]; [|done]. cbn [mbind option_bind fmap option_fmap option_map].
    destruct (Hr t rest) as [H1 H2]. destruct (rebuild _ _ _) as [h1 s1]. simpl in *.
    unfold value. simpl. rewrite H2. split; [done|]. by intros h' sl' [= <- <-].
Qed.

Definition run_log (os : list log_op) (hs : heap * slog) : option (heap * slog) :=
  foldl (λ r o, r ≫= slog_op o) (Some hs) os.

Definition run_value (os : list log_op) (rl : RaftLog) : option RaftLog :=
  foldl (λ r o, r ≫= log_value_op o) (Some rl) os.

(** C32: for the log itself, value semantics is right. Any sequence of appends,
    truncating appends, snapshots and installed snapshots on the slice over its
    shared array panics exactly when it does on the list of [RaftLog], and
    otherwise leaves the same log. *)
Theorem slice_log_refines os h sl :
  valid h (l_tail sl) →
  run_value os (value h sl) = (λ hs, value hs.1 hs.2) <$> run_log os (h, sl).
Proof.
  assert (∀ B (f : log_op → B → option B) l, foldl (λ r o, r ≫= f o) None l = None) as Hn.
  { intros B f l. by induction l. }
  unfold run_value, run_log. revert h sl. induction os as [|o os IH]; intros h sl Hv; [done|]. simpl.
  destruct (op_value o h sl Hv) as [E Hv']. rewrite E.
  destruct (slog_op o (h, sl)) as [[h' sl']|]; simpl; [|by rewrite !Hn].
  apply IH. by apply Hv'.
Qed.

(** A view that lies in another array than the log, or does not reach past its end. *)
Definition behind h (sl : slog) (v : slice) : Prop :=
  valid h v ∧ (s_arr v ≠ s_arr (l_tail sl) ∨ (s_off v + s_len v ≤ s_off (l_tail sl) + s_len (l_tail sl))%nat).

Lemma new_array_keeps h es k v :
  valid h v →
  valid (new_array zero_entry h es k).1 v ∧ s_arr v ≠ s_arr (new_array zero_entry h es k).2 ∧
  read (new_array zero_entry h es k).1 v = read h v.
Proof.
  intros (a & E & Hc & Hl). pose proof (lookup_lt_Some _ _ _ E) as Hlt. unfold valid, read, new_array. simpl.
  rewrite lookup_app_l by done. split_and!; [by exists a|lia|done].
Qed.

Lemma append_keeps h sl (e : LogEntry) v :
  valid h (l_tail sl) → behind h sl v →
  behind (slog_append h sl e).1 (slog_append h sl e).2 v ∧ read (slog_append h sl e).1 v = read h v.
Proof.
  intros Hv [Hb Hd]. pose proof (append_frame zero_entry grow h (l_tail sl) [e] v Hv Hb Hd) as Hr. unfold behind, slog_append.
  destruct (append_slice _ _ _ _ _) as [h' s'] eqn:E. simpl in *. split; [|done]. unfold append_slice in E. case_decide.
  - simplify_eq/=. split; [|destruct Hd; [by left|right; simpl; lia]].
    destruct Hb as (a & Ea & Hc & Hl). unfold valid. destruct (decide (s_arr v = s_arr (l_tail sl))) as [Eq|Hne].
    + rewrite Eq in *. rewrite list_lookup_alter_eq, Ea. simpl. eexists. split; [done|]. unfold overwrite.
      destruct Hv as (a' & Ea' & Hc' & Hl'). simplify_eq. rewrite !length_app, length_take, length_drop. simpl in *. lia.
    + rewrite list_lookup_alter_ne by done. by exists a.
  - pose proof (new_array_keeps h (read h (l_tail sl) ++ [e]) (grow (s_cap (l_tail sl)) (s_len (l_tail sl) + length [e])) v Hb)
      as (? & ? & _). rewrite E in *. simpl in *. eauto.
Qed.

Lemma op_keeps o h sl h' sl' v :
  (∀ prev es, o ≠ OpAppendFrom prev es) → valid h (l_tail sl) → behind h sl v → slog_op o (h, sl) = Some (h', sl') →
  behind h' sl' v ∧ read h' v = read h v.
Proof.
  intros Ho Hv Hb E. assert (∀ t rest, let '(h1, s1) := rebuild h t rest in
    valid h1 v ∧ s_arr v ≠ s_arr s1 ∧ read h1 v = read h v) as Hr by (intros t rest; apply new_array_keeps, Hb).
  destruct o as [e|prev es|index snap|index t snap]; [|by destruct (Ho prev es)|..]; simpl in E.
  - injection E as E. pose proof (append_keeps h sl e v Hv Hb). by rewrite E in *.
  - unfold slog_doSnapshot in E. destruct (_ || _); [by simplify_eq|].
    apply bind_Some in E as (i & _ & E). apply bind_Some in E as (en & _ & E).
    specialize (Hr (le_Term en) (read h (sub (l_tail sl) (Z.to_nat (i + 1)) (s_len (l_tail sl))))).
    destruct (rebuild _ _ _). simplify_eq/=. destruct Hr as (? & ? & ?). split; [split; eauto|done].
  - unfold slog_installSnapshot in E. destruct (_ <=? _); [by simplify_eq|]. apply bind_Some in E as (rest & _ & E).
    specialize (Hr t rest). destruct (rebuild _ _ _). simplify_eq/=. destruct Hr as (? & ? & ?). split; [split; eauto|done].
Qed.

Lemma slog_tail_behind h sl start v :
  valid h (l_tail sl) → slog_tail sl start = Some v → s_len v ≠ 0%nat → behind h sl v.
Proof.
  intros Hv Ht Hl. unfold slog_tail in Ht. destruct (_ <=? _); [by simplify_eq|].
  apply bind_Some in Ht as (i & Ei & [= <-]). apply slog_idx_Some in Ei. split; [by apply sub_spec; [|lia]|].
  right. simpl. lia.
Qed.

(** A request keeps the entries it was built with as long as its sender accepts no
    entries from another leader: a view that [tail] returned reads the same after any
    sequence of appends, snapshots and installed snapshots. *)
Theorem requests_kept os h sl start v h' sl' :
  valid h (l_tail sl) → slog_tail sl start = Some v →
  Forall (λ o, ∀ prev es, o ≠ OpAppendFrom prev es) os →
  run_log os (h, sl) = Some (h', sl') → read h' v = read h v.
Proof.
  intros Hv Ht Ho E. destruct (decide (s_len v = 0%nat)) as [Hz|Hz].
  { unfold read. rewrite Hz. by repeat case_match. }
  pose proof (slog_tail_behind h sl start v Hv Ht Hz) as Hb. clear Ht Hz start.
  assert (∀ l, foldl (λ r o, r ≫= slog_op o) None l = None) as Hn by (intros l; by induction l).
  unfold run_log in E. revert h sl Hv Hb E. induction Ho as [|o os H1 _ IH]; intros h sl Hv Hb E; [by simplify_eq/=|].
  simpl in E. destruct (slog_op o (h, sl)) as [[h1 sl1]|] eqn:E1; [|by rewrite Hn in E].
  destruct (op_keeps o h sl h1 sl1 v H1 Hv Hb E1) as [Hb1 <-].
  apply (IH h1 sl1); [by apply (op_value o h sl Hv)|done|done].
Qed.
End heap_log.

(** ** A request that changes after it was built *)

Module Alias.

Definition double (c k : nat) : nat := Nat.max k (2 * c).

Definition ent (t c : Z) : LogEntry Z := mkEntry t true (Some c).

(** A leader of term 2 with two entries in an array of four places. *)
Definition h0 : list (list (LogEntry Z)) :=
  [[RL.dummy 0; ent 2 10; ent 2 20; mkEntry 0 false None]].
Definition l0 : slog (SB:=unit) := mkSlog 0 0 [] (mkSlice 0 0 3 4).

(** The entries of the request [startReplication] builds for a peer whose next
    index is 1. *)
Definition request : slice := default (mkSlice 0 0 0 0) (slog_tail l0 1).

(** a pending request can change its entries. The leader builds a request
    with the commands 10 and 20, steps down before the request is encoded, and
    accepts an entry of term 3 from the next leader: [appendFrom] overwrites the
    shared array, and the request of term 2 now carries an entry of term 3
    followed by one of term 2, a sequence no leader ever had. *)
Theorem request_entries_change :
  ∃ h1 l1, slog_appendFrom double h0 l0 0 [ent 3 99] = Some (h1, l1) ∧
    read h0 request = [ent 2 10; ent 2 20] ∧
    read h1 request = [ent 3 99; ent 2 20].
Proof. eexists _, _. split; [reflexivity|]. split; reflexivity. Qed.

Lemma slice_log_witness :
  run_value [OpAppend (ent 2 30); OpAppendFrom 1 [ent 3 40]; OpSnapshot 1 []] (value h0 l0) =
  (λ hs, value hs.1 hs.2) <$>
    run_log double [OpAppend (ent 2 30); OpAppendFrom 1 [ent 3 40]; OpSnapshot 1 []] (h0, l0).
Proof.
  apply (slice_log_refines double). eexists. split; [reflexivity|]. simpl. lia.
Defined.

Lemma requests_kept_witness :
  ∃ h1 l1, run_log double [OpAppend (ent 2 30); OpSnapshot 1 []] (h0, l0) = Some (h1, l1) ∧ read h1 request = read h0 request.
Proof.
  eexists _, _. split; [vm_compute; reflexivity|].
  eapply (requests_kept double [OpAppend (ent 2 30); OpSnapshot 1 []] h0 l0 1 request).
  - eexists. split; [reflexivity|]. simpl. lia.
  - reflexivity.
  - by repeat constructor.
  - vm_compute. reflexivity.
Defined.

End Alias.
End GS.
