(* ===== verification/Raft.v ===== *)
(** The Raft peer behind the key/value services: [src/src/raft/raft.go],
    [raft_election.go], [raft_replication.go], [raft_compaction.go],
    [raft_application.go], [raft_persistence.go] and [persister.go].

    Module [RF] holds the peer's state and one definition per critical section
    under [rf.mu]: RPC handlers, the two halves of a call (what is sent, and
    what is done with the reply), the bodies of the tickers.  [None] is a Go
    panic.  The clock and the random source are arguments ([Env]); the [LOG]
    calls are left out except where evaluating their arguments can panic. *)

From S2P Require Import Prelude Gob RaftLog.

#[local] Open Scope Z_scope.

(** ** Shared with [node.go] *)

Inductive Role := Follower | Candidate | Leader.

#[export] Instance Role_eq_dec : EqDecision Role.
Proof. solve_decision. Defined.

(** A [sync.Cond] with one possible waiter: [Signal] wakes it if it waits and
    is lost otherwise. *)
Inductive Cond := CIdle | CWaiting | CWoken.

#[export] Instance Cond_eq_dec : EqDecision Cond.
Proof. solve_decision. Defined.

Definition Signal (c : Cond) : Cond :=
  match c with CWaiting => CWoken | c => c end.

(** What an operation reads from the outside world: [time.Now()] and one
    [rand.Int63()]. *)
Record Env := mkEnv { now : Z; rnd : Z }.

Record ApplyMsg {Cmd SB : Type} := mkApplyMsg {
  am_CommandValid : bool;
  am_Command : option Cmd;
  am_CommandIndex : Z;
  am_SnapshotValid : bool;
  am_Snapshot : list SB;
  am_SnapshotTerm : Z;
  am_SnapshotIndex : Z
}.
Arguments ApplyMsg : clear implicits.
Arguments mkApplyMsg {Cmd SB} _ _ _ _ _ _ _.

Definition millisecond : Z := 1000000.

(** ** [persister.go] *)

Module PS.
Section persister.
Context {Cmd SB : Type}.

Record Persister := mkPersister {
  raftstate : list (rgob Cmd);
  snapshot : list SB
}.

Definition MakePersister : Persister := mkPersister [] [].
Definition Copy (ps : Persister) : Persister :=
  mkPersister (raftstate ps) (snapshot ps).
Definition ReadRaftState (ps : Persister) : list (rgob Cmd) := raftstate ps.
Definition ReadSnapshot (ps : Persister) : list SB := snapshot ps.
Definition Save (ps : Persister) (rs : list (rgob Cmd)) (snap : list SB) : Persister :=
  mkPersister rs snap.

(** [len(ps.raftstate)] counts bytes: [sz] is the encoded length of a value. *)
Definition RaftStateSize (sz : rgob Cmd → Z) (ps : Persister) : Z :=
  foldr (λ v n, sz v + n) 0 (raftstate ps).
End persister.
Arguments Persister : clear implicits.
End PS.

Module RF.

Definition electionTimeoutMin : Z := 250 * millisecond.
Definition electionTimeoutMax : Z := 400 * millisecond.

Section raft.
Context {Cmd SB : Type}.
Abbreviation LogEntry := (LogEntry Cmd).
Abbreviation RaftLog := (RL.RaftLog Cmd SB).

(** [npeers] is [len(rf.peers)]; [applyCond] is the state of the application
    ticker with respect to [rf.applyCond]. *)
Record Raft := mkRaft {
  npeers : Z;
  persister : PS.Persister Cmd SB;
  me : Z;
  dead : Z;
  role : Role;
  currentTerm : Z;
  votedFor : Z;
  log : RaftLog;
  nextIndex : list Z;
  matchIndex : list Z;
  commitIndex : Z;
  lastApplied : Z;
  snapPending : bool;
  applyCond : Cond;
  electionStart : Z;
  electionTimeout : Z
}.

Implicit Types rf : Raft.

Definition set_persister v rf := mkRaft (npeers rf) v (me rf) (dead rf) (role rf) (currentTerm rf) (votedFor rf) (log rf) (nextIndex rf) (matchIndex rf) (commitIndex rf) (lastApplied rf) (snapPending rf) (applyCond rf) (electionStart rf) (electionTimeout rf).
Definition set_dead v rf := mkRaft (npeers rf) (persister rf) (me rf) v (role rf) (currentTerm rf) (votedFor rf) (log rf) (nextIndex rf) (matchIndex rf) (commitIndex rf) (lastApplied rf) (snapPending rf) (applyCond rf) (electionStart rf) (electionTimeout rf).
Definition set_role v rf := mkRaft (npeers rf) (persister rf) (me rf) (dead rf) v (currentTerm rf) (votedFor rf) (log rf) (nextIndex rf) (matchIndex rf) (commitIndex rf) (lastApplied rf) (snapPending rf) (applyCond rf) (electionStart rf) (electionTimeout rf).
Definition set_currentTerm v rf := mkRaft (npeers rf) (persister rf) (me rf) (dead rf) (role rf) v (votedFor rf) (log rf) (nextIndex rf) (matchIndex rf) (commitIndex rf) (lastApplied rf) (snapPending rf) (applyCond rf) (electionStart rf) (electionTimeout rf).
Definition set_votedFor v rf := mkRaft (npeers rf) (persister rf) (me rf) (dead rf) (role rf) (currentTerm rf) v (log rf) (nextIndex rf) (matchIndex rf) (commitIndex rf) (lastApplied rf) (snapPending rf) (applyCond rf) (electionStart rf) (electionTimeout rf).
Definition set_log v rf := mkRaft (npeers rf) (persister rf) (me rf) (dead rf) (role rf) (currentTerm rf) (votedFor rf) v (nextIndex rf) (matchIndex rf) (commitIndex rf) (lastApplied rf) (snapPending rf) (applyCond rf) (electionStart rf) (electionTimeout rf).
Definition set_nextIndex v rf := mkRaft (npeers rf) (persister rf) (me rf) (dead rf) (role rf) (currentTerm rf) (votedFor rf) (log rf) v (matchIndex rf) (commitIndex rf) (lastApplied rf) (snapPending rf) (applyCond rf) (electionStart rf) (electionTimeout rf).
Definition set_matchIndex v rf := mkRaft (npeers rf) (persister rf) (me rf) (dead rf) (role rf) (currentTerm rf) (votedFor rf) (log rf) (nextIndex rf) v (commitIndex rf) (lastApplied rf) (snapPending rf) (applyCond rf) (electionStart rf) (electionTimeout rf).
Definition set_commitIndex v rf := mkRaft (npeers rf) (persister rf) (me rf) (dead rf) (role rf) (currentTerm rf) (votedFor rf) (log rf) (nextIndex rf) (matchIndex rf) v (lastApplied rf) (snapPending rf) (applyCond rf) (electionStart rf) (electionTimeout rf).
Definition set_lastApplied v rf := mkRaft (npeers rf) (persister rf) (me rf) (dead rf) (role rf) (currentTerm rf) (votedFor rf) (log rf) (nextIndex rf) (matchIndex rf) (commitIndex rf) v (snapPending rf) (applyCond rf) (electionStart rf) (electionTimeout rf).
Definition set_snapPending v rf := mkRaft (npeers rf) (persister rf) (me rf) (dead rf) (role rf) (currentTerm rf) (votedFor rf) (log rf) (nextIndex rf) (matchIndex rf) (commitIndex rf) (lastApplied rf) v (applyCond rf) (electionStart rf) (electionTimeout rf).
Definition set_applyCond v rf := mkRaft (npeers rf) (persister rf) (me rf) (dead rf) (role rf) (currentTerm rf) (votedFor rf) (log rf) (nextIndex rf) (matchIndex rf) (commitIndex rf) (lastApplied rf) (snapPending rf) v (electionStart rf) (electionTimeout rf).
Definition set_electionTimer s t rf := mkRaft (npeers rf) (persister rf) (me rf) (dead rf) (role rf) (currentTerm rf) (votedFor rf) (log rf) (nextIndex rf) (matchIndex rf) (commitIndex rf) (lastApplied rf) (snapPending rf) (applyCond rf) s t.

(** [rf.applyCond.Signal()] *)
Definition signalApply rf : Raft := set_applyCond (Signal (applyCond rf)) rf.

(** ** [raft_persistence.go] *)

Definition persistLocked rf : Raft :=
  let e := Encode (A:=Z) [] (currentTerm rf) in
  let e := Encode (A:=Z) e (votedFor rf) in
  let raftstate := RL.persist (log rf) e in
  set_persister (PS.Save (persister rf) raftstate (RL.snapshot (log rf))) rf.

Definition readPersist rf (data : list (rgob Cmd)) : Raft :=
  match data with
  | [] => rf
  | _ =>
    match Decode (A:=Z) data with
    | None => rf
    | Some (ct, d) =>
      let rf := set_currentTerm ct rf in
      match Decode (A:=Z) d with
      | None => rf
      | Some (vf, d) =>
        let rf := set_votedFor vf rf in
        let '(l, ok) := RL.readPersist (log rf) d in
        let rf := set_log l rf in
        if negb ok then rf
        else
          let l := log rf in
          let rf := set_log (RL.mkLog (RL.snapLastIdx l) (RL.snapLastTerm l)
                               (PS.ReadSnapshot (persister rf)) (RL.tailLog l)) rf in
          if commitIndex rf <? RL.snapLastIdx (log rf)
          then set_lastApplied (RL.snapLastIdx (log rf))
                 (set_commitIndex (RL.snapLastIdx (log rf)) rf)
          else rf
      end
    end
  end.

(** ** [raft.go] *)

Definition becomeFollowerLocked (term : Z) rf : Raft :=
  if term <? currentTerm rf then rf
  else
    let shouldPersit := negb (currentTerm rf =? term) in
    let rf := set_role Follower rf in
    let rf := if currentTerm rf <? term then set_votedFor (-1) rf else rf in
    let rf := set_currentTerm term rf in
    if shouldPersit then persistLocked rf else rf.

Definition becomeCandidateLocked rf : Raft :=
  if decide (role rf = Leader) then rf
  else
    let rf := set_currentTerm (currentTerm rf + 1) rf in
    let rf := set_role Candidate rf in
    let rf := set_votedFor (me rf) rf in
    persistLocked rf.

Definition becomeLeaderLocked rf : option Raft :=
  if decide (role rf ≠ Candidate) then Some rf
  else
    for_range (npeers rf) (λ peer rf,
      ni ← slice_set (nextIndex rf) peer (RL.size (log rf));
      mi ← slice_set (matchIndex rf) peer 0;
      Some (set_matchIndex mi (set_nextIndex ni rf))) (set_role Leader rf).

Definition GetState rf : Z * bool :=
  (currentTerm rf, bool_decide (role rf = Leader)).

Definition GetRaftStateSize (sz : rgob Cmd → Z) rf : Z :=
  PS.RaftStateSize sz (persister rf).

Definition Start (command : option Cmd) rf : Raft * (Z * Z * bool) :=
  if decide (role rf ≠ Leader) then (rf, (0, 0, false))
  else
    let rf := set_log (RL.append (log rf) (mkEntry (currentTerm rf) true command)) rf in
    let rf := persistLocked rf in
    (rf, (RL.size (log rf) - 1, currentTerm rf, true)).

Definition Kill rf : Raft := set_dead 1 rf.
Definition killed rf : bool := dead rf =? 1.

Definition contextLostLocked (r : Role) (term : Z) rf : bool :=
  negb ((currentTerm rf =? term) && bool_decide (role rf = r)).

(** [Make]; the two tickers it starts are separate steps. *)
Definition Make (npeers me : Z) (ps : PS.Persister Cmd SB) : Raft :=
  let rf := mkRaft npeers ps me 0 Follower 1 (-1)
              (RL.NewLog InvalidIndex InvalidTerm [] [])
              (replicate (Z.to_nat npeers) 0) (replicate (Z.to_nat npeers) 0)
              0 0 false CIdle 0 0 in
  readPersist rf (PS.ReadRaftState ps).

(** ** [raft_election.go] *)

Definition resetElectionTimerLocked (e : Env) rf : Raft :=
  let randRange := electionTimeoutMax - electionTimeoutMin in
  set_electionTimer (now e) (electionTimeoutMin + Z.rem (rnd e) randRange) rf.

Definition isElectionTimeoutLocked (e : Env) rf : bool :=
  electionTimeout rf <? now e - electionStart rf.

Definition isMoreUpToDateLocked (candidateIndex candidateTerm : Z) rf : bool :=
  let '(lastIndex, lastTerm) := RL.last (log rf) in
  if negb (lastTerm =? candidateTerm) then candidateTerm <? lastTerm
  else candidateIndex <? lastIndex.

Record RequestVoteArgs := mkRVArgs {
  rv_Term : Z;
  rv_CandidateId : Z;
  rv_LastLogIndex : Z;
  rv_LastLogTerm : Z
}.

Record RequestVoteReply := mkRVReply {
  rr_Term : Z;
  rr_VoteGranted : bool
}.

Definition RequestVote (e : Env) (args : RequestVoteArgs) rf : Raft * RequestVoteReply :=
  let reply := mkRVReply (currentTerm rf) false in
  if rv_Term args <? currentTerm rf then (rf, reply)
  else
    let rf := if currentTerm rf <? rv_Term args
              then becomeFollowerLocked (rv_Term args) rf else rf in
    if negb (votedFor rf =? -1) then (rf, reply)
    else if isMoreUpToDateLocked (rv_LastLogIndex args) (rv_LastLogTerm args) rf
    then (rf, reply)
    else
      let rf := set_votedFor (rv_CandidateId args) rf in
      let rf := persistLocked rf in
      let rf := resetElectionTimerLocked e rf in
      (rf, mkRVReply (rr_Term reply) true).

(** [startElection] up to the [go askVoteFromPeer(peer, args)]: the initial
    value of [votes] and the calls it starts; [None] when the context is lost
    and the election is abandoned. *)
Definition startElection (term : Z) rf : option (Z * list (Z * RequestVoteArgs)) :=
  if contextLostLocked Candidate term rf then None
  else
    let '(lastIdx, lastTerm) := RL.last (log rf) in
    Some (foldl (λ '(votes, calls) peer,
            if peer =? me rf then (votes + 1, calls)
            else (votes, calls ++ [(peer, mkRVArgs (currentTerm rf) (me rf) lastIdx lastTerm)]))
            (0, []) (seqZ 0 (npeers rf))).

(** The part of [askVoteFromPeer] after the call returned with [ok]; the state
    is the peer and the captured [votes], the boolean is "a replication ticker
    was started". *)
Definition askVoteFromPeer (term : Z) (ok : bool) (reply : RequestVoteReply)
    (votes : Z) rf : option (Raft * Z * bool) :=
  if negb ok then Some (rf, votes, false)
  else if currentTerm rf <? rr_Term reply
  then Some (becomeFollowerLocked (rr_Term reply) rf, votes, false)
  else if contextLostLocked Candidate term rf then Some (rf, votes, false)
  else if rr_VoteGranted reply then
    let votes := votes + 1 in
    if Z.quot (npeers rf) 2 <? votes then
      rf ← becomeLeaderLocked rf;
      Some (rf, votes, true)
    else Some (rf, votes, false)
  else Some (rf, votes, false).

(** One iteration of [electionTicker]: the term of the election it starts. *)
Definition electionTicker (e : Env) rf : Raft * option Z :=
  if bool_decide (role rf ≠ Leader) && isElectionTimeoutLocked e rf then
    let rf := becomeCandidateLocked rf in
    (rf, Some (currentTerm rf))
  else (rf, None).

(** ** [raft_replication.go] *)

Record AppendEntriesArgs := mkAEArgs {
  ae_Term : Z;
  ae_LeaderId : Z;
  ae_PrevLogIndex : Z;
  ae_PrevLogTerm : Z;
  ae_Entries : list LogEntry;
  ae_LeaderCommit : Z
}.

Record AppendEntriesReply := mkAEReply {
  ar_Term : Z;
  ar_Success : bool;
  ar_ConfilictIndex : Z;
  ar_ConfilictTerm : Z
}.

(** [AppendEntries]; the deferred [resetElectionTimerLocked] runs on every
    return after the term was aligned. *)
Definition AppendEntries (e : Env) (args : AppendEntriesArgs) rf
    : option (Raft * AppendEntriesReply) :=
  let rterm := currentTerm rf in
  if ae_Term args <? currentTerm rf then Some (rf, mkAEReply rterm false 0 0)
  else
    let rf := if currentTerm rf <=? ae_Term args
              then becomeFollowerLocked (ae_Term args) rf else rf in
    if RL.size (log rf) <=? ae_PrevLogIndex args then
      Some (resetElectionTimerLocked e rf,
            mkAEReply rterm false (RL.size (log rf)) InvalidTerm)
    else if ae_PrevLogIndex args <? RL.snapLastIdx (log rf) then
      Some (resetElectionTimerLocked e rf,
            mkAEReply rterm false (RL.snapLastIdx (log rf)) (RL.snapLastTerm (log rf)))
    else
      prev ← RL.at_ (log rf) (ae_PrevLogIndex args);
      if negb (le_Term prev =? ae_PrevLogTerm args) then
        Some (resetElectionTimerLocked e rf,
              mkAEReply rterm false (RL.firstFor (log rf) (le_Term prev)) (le_Term prev))
      else
        l ← RL.appendFrom (log rf) (ae_PrevLogIndex args) (ae_Entries args);
        let rf := set_log l rf in
        let rf := persistLocked rf in
        let rf := if commitIndex rf <? ae_LeaderCommit args
                  then signalApply (set_commitIndex (ae_LeaderCommit args) rf)
                  else rf in
        Some (resetElectionTimerLocked e rf, mkAEReply rterm true 0 0).

Definition getMajorityIndexLocked rf : option Z :=
  let tmpIndexes := make_copy (Z.to_nat (npeers rf)) (matchIndex rf) in
  let tmpIndexes := sort_Ints tmpIndexes in
  let majorityIdx := Z.quot (npeers rf - 1) 2 in
  slice_get tmpIndexes majorityIdx.

(** The part of [replicateToPeer] after the call returned with [ok]. *)
Definition replicateToPeer (term peer : Z) (args : AppendEntriesArgs) (ok : bool)
    (reply : AppendEntriesReply) rf : option Raft :=
  if negb ok then Some rf
  else if currentTerm rf <? ar_Term reply
  then Some (becomeFollowerLocked (ar_Term reply) rf)
  else if contextLostLocked Leader term rf then Some rf
  else if negb (ar_Success reply) then
    prevIndex ← slice_get (nextIndex rf) peer;
    let next :=
      if ar_ConfilictTerm reply =? InvalidTerm then ar_ConfilictIndex reply
      else
        let firstIndex := RL.firstFor (log rf) (ar_ConfilictTerm reply) in
        if negb (firstIndex =? InvalidIndex) then firstIndex
        else ar_ConfilictIndex reply in
    let next := if prevIndex <? next then prevIndex else next in
    ni ← slice_set (nextIndex rf) peer next;
    let rf := set_nextIndex ni rf in
    let nextPrevIndex := next - 1 in
    (* the term of the next probe is only printed, but reading it can panic *)
    _ ← (if RL.snapLastIdx (log rf) <=? nextPrevIndex
         then le_Term <$> RL.at_ (log rf) nextPrevIndex else Some InvalidTerm);
    Some rf
  else
    mi ← slice_set (matchIndex rf) peer (ae_PrevLogIndex args + len (ae_Entries args));
    let rf := set_matchIndex mi rf in
    m ← slice_get (matchIndex rf) peer;
    ni ← slice_set (nextIndex rf) peer (m + 1);
    let rf := set_nextIndex ni rf in
    majorityMatched ← getMajorityIndexLocked rf;
    if commitIndex rf <? majorityMatched then
      e ← RL.at_ (log rf) majorityMatched;
      if le_Term e =? currentTerm rf
      then Some (signalApply (set_commitIndex majorityMatched rf))
      else Some rf
    else Some rf.

Record InstallSnapshotArgs := mkISArgs {
  is_Term : Z;
  is_LeaderId : Z;
  is_LastIncludedIndex : Z;
  is_LastIncludedTerm : Z;
  is_Snapshot : list SB
}.

Record InstallSnapshotReply := mkISReply { ir_Term : Z }.

(** A goroutine started for one peer by [startReplication]. *)
Inductive Call :=
  | CallAppend (peer : Z) (args : AppendEntriesArgs)
  | CallInstall (peer : Z) (args : InstallSnapshotArgs).

(** [startReplication]: the boolean is its result.  The entries of a request are what the
    slice that [tail] returns reads at this point; the slice shares the array of the log
    and is encoded after the lock is released, and [Net.EOverwrite] is what writes to the
    array do to it until then. *)
Definition startReplication (term : Z) rf : option (Raft * list Call * bool) :=
  if contextLostLocked Leader term rf then Some (rf, [], false)
  else
    '(rf, calls) ←
      for_range (npeers rf) (λ peer '(rf, calls),
        if peer =? me rf then
          mi ← slice_set (matchIndex rf) peer (RL.size (log rf) - 1);
          let rf := set_matchIndex mi rf in
          ni ← slice_set (nextIndex rf) peer (RL.size (log rf));
          let rf := set_nextIndex ni rf in
          Some (rf, calls)
        else
          next ← slice_get (nextIndex rf) peer;
          let prevIdx := next - 1 in
          if prevIdx <? RL.snapLastIdx (log rf) then
            let args := mkISArgs (currentTerm rf) (me rf) (RL.snapLastIdx (log rf))
                          (RL.snapLastTerm (log rf)) (RL.snapshot (log rf)) in
            Some (rf, calls ++ [CallInstall peer args])
          else
            prev ← RL.at_ (log rf) prevIdx;
            entries ← RL.tail (log rf) (prevIdx + 1);
            let args := mkAEArgs (currentTerm rf) (me rf) prevIdx (le_Term prev)
                          entries (commitIndex rf) in
            Some (rf, calls ++ [CallAppend peer args])) (rf, []);
    Some (rf, calls, true).

(** ** [raft_compaction.go] *)

Definition Snapshot (index : Z) (snap : list SB) rf : option Raft :=
  if commitIndex rf <? index then Some rf
  else if index <=? RL.snapLastIdx (log rf) then Some rf
  else
    l ← RL.doSnapshot (log rf) index snap;
    let rf := set_log l rf in
    Some (persistLocked rf).

Definition InstallSnapshot (args : InstallSnapshotArgs) rf
    : option (Raft * InstallSnapshotReply) :=
  let reply := mkISReply (currentTerm rf) in
  if is_Term args <? currentTerm rf then Some (rf, reply)
  else
    let rf := if currentTerm rf <=? is_Term args
              then becomeFollowerLocked (is_Term args) rf else rf in
    if is_LastIncludedIndex args <=? RL.snapLastIdx (log rf) then Some (rf, reply)
    else
      l ← RL.installSnapshot (log rf) (is_LastIncludedIndex args)
            (is_LastIncludedTerm args) (is_Snapshot args);
      let rf := set_log l rf in
      let rf := persistLocked rf in
      let rf := set_snapPending true rf in
      Some (signalApply rf, reply).

(** The part of [installToPeer] after the call returned with [ok]. *)
Definition installToPeer (peer term : Z) (args : InstallSnapshotArgs) (ok : bool)
    (reply : InstallSnapshotReply) rf : option Raft :=
  if negb ok then Some rf
  else if currentTerm rf <? ir_Term reply
  then Some (becomeFollowerLocked (ir_Term reply) rf)
  else if contextLostLocked Leader term rf then Some rf
  else
    m ← slice_get (matchIndex rf) peer;
    if m <? is_LastIncludedIndex args then
      mi ← slice_set (matchIndex rf) peer (is_LastIncludedIndex args);
      let rf := set_matchIndex mi rf in
      m ← slice_get (matchIndex rf) peer;
      ni ← slice_set (nextIndex rf) peer (m + 1);
      Some (set_nextIndex ni rf)
    else Some rf.

(** ** [raft_application.go]

    One iteration of [applicationTicker] is four steps, because the lock is
    released while the ticker waits and while it sends on [applyCh]. *)

(** [rf.applyCond.Wait()] *)
Definition app_wait rf : Raft := set_applyCond CWaiting rf.

(** The entries [at(start), ..., at(end)]. *)
Fixpoint app_collect (l : RaftLog) (i : Z) (n : nat) : option (list LogEntry) :=
  match n with
  | O => Some []
  | S n => e ← RL.at_ l i; es ← app_collect l (i + 1) n; Some (e :: es)
  end.

(** After the wait: what is about to be applied, [(entries, snapPendingApply)]. *)
Definition app_prepare rf : option (Raft * (list LogEntry * bool)) :=
  let rf := set_applyCond CIdle rf in
  let snapPendingApply := snapPending rf in
  if negb snapPendingApply then
    let rf := if lastApplied rf <? RL.snapLastIdx (log rf)
              then set_lastApplied (RL.snapLastIdx (log rf)) rf else rf in
    let start := lastApplied rf + 1 in
    let end_ := commitIndex rf in
    let end_ := if RL.size (log rf) <=? end_ then RL.size (log rf) - 1 else end_ in
    entries ← app_collect (log rf) start (Z.to_nat (end_ + 1 - start));
    Some (rf, (entries, false))
  else Some (rf, ([], true)).

(** The messages sent on [applyCh], from the state at the time of sending, whose fields
    are read together. *)
Definition app_send (work : list LogEntry * bool) rf : list (ApplyMsg Cmd SB) :=
  let '(entries, snapPendingApply) := work in
  if negb snapPendingApply then
    imap (λ i entry, mkApplyMsg (le_CommandValid entry) (le_Command entry)
                       (lastApplied rf + 1 + Z.of_nat i) false [] 0 0) entries
  else
    [mkApplyMsg false None 0 true (RL.snapshot (log rf)) (RL.snapLastTerm (log rf))
       (RL.snapLastIdx (log rf))].

Definition app_finish (work : list LogEntry * bool) rf : Raft :=
  let '(entries, snapPendingApply) := work in
  if negb snapPendingApply then set_lastApplied (lastApplied rf + len entries) rf
  else
    let rf := set_lastApplied (RL.snapLastIdx (log rf)) rf in
    let rf := if commitIndex rf <? lastApplied rf
              then set_commitIndex (lastApplied rf) rf else rf in
    set_snapPending false rf.
End raft.
Arguments Raft : clear implicits.
End RF.
