(* ===== verification/Logging.v ===== *)
(** The logger of the Raft peers, [src/src/raft/util.go], and the descriptions it
    prints: the [String] methods of the log and of the messages.

    [%d] is [decimal], and [strconv.Atoi] reads such a number back.  A line is what
    [log.Printf] is given; [time.Since] and the text of the message are arguments, and
    [log.Fatalf] is [None]. *)

From Stdlib Require Import Ascii DecimalString DecimalZ DecimalFacts.
From stdpp Require Import strings.
From S2P Require Import Prelude Gob RaftLog Raft.

#[local] Open Scope Z_scope.
#[local] Open Scope string_scope.

Module LOGGER.

(** ** Numbers *)

Definition decimal (z : Z) : string := NilZero.string_of_int (Z.to_int z).

(** [strconv.Atoi]: a sign, digits, and the range of [int]. *)
Definition digits (s : string) : option Z :=
  match s with
  | String "+"%char s => Z.of_uint <$> NilZero.uint_of_string s
  | _ => Z.of_int <$> NilZero.int_of_string s
  end.

Definition Atoi (s : string) : option Z :=
  z ← digits s; if ((- 2 ^ 63 <=? z) && (z <? 2 ^ 63))%Z then Some z else None.

(** [%0wd] *)
Definition padded (w : nat) (z : Z) : string :=
  let sign := if (z <? 0)%Z then "-" else "" in
  let ds := decimal (Z.abs z) in
  sign +:+ String.string_of_list_ascii (replicate (w - String.length sign - String.length ds) "0"%char) +:+ ds.

(** ** [util.go] *)

Inductive logTopic :=
  | DError | DWarn | DInfo | DDebug
  | DClient | DCommit | DDrop | DLeader | DLog | DLog2 | DPersist | DSnap | DTerm | DTest | DTimer | DTrace | DVote | DApply.

Definition topic_string (t : logTopic) : string :=
  match t with
  | DError => "ERRO" | DWarn => "WARN" | DInfo => "INFO" | DDebug => "DBUG"
  | DClient => "CLNT" | DCommit => "CMIT" | DDrop => "DROP" | DLeader => "LEAD" | DLog => "LOG1" | DLog2 => "LOG2"
  | DPersist => "PERS" | DSnap => "SNAP" | DTerm => "TERM" | DTest => "TEST" | DTimer => "TIMR" | DTrace => "TRCE"
  | DVote => "VOTE" | DApply => "APLY"
  end.

Definition getTopicLevel (t : logTopic) : Z :=
  match t with DError => 3 | DWarn => 2 | DInfo => 1 | DDebug => 0 | _ => 1 end.

(** [v] is the value of [VERBOSE], empty when it is not set. *)
Definition getEnvLevel (v : string) : option Z :=
  if decide (v = "") then Some (getTopicLevel DError + 1)%Z else Atoi v.

(** The line [LOG] prints, if any; [micros] is the time since [logStart]. *)
Definition LOG (logLevel micros peerId term : Z) (topic : logTopic) (message : string) : option string :=
  if (logLevel <=? getTopicLevel topic)%Z
  then Some (padded 6 (Z.quot micros 100) +:+ " T" +:+ padded 4 term +:+ " " +:+ topic_string topic +:+ " S" +:+ decimal peerId
               +:+ " " +:+ message)
  else None.

(** ** Who is heard *)

Lemma digits_decimal z : digits (decimal z) = Some z.
Proof.
  assert (NilZero.int_of_string (decimal z) = Some (Z.to_int z)) as E.
  { apply NilZero.isi; [|]; destruct z as [|p|p]; try done; simpl; intros [= H]; by apply DecimalPos.Unsigned.to_uint_nonnil in H. }
  assert (digits (decimal z) = Z.of_int <$> NilZero.int_of_string (decimal z)) as ->.
  { unfold decimal. destruct (Z.to_int z) as [[]|[]]; reflexivity. }
  rewrite E. simpl. f_equal. apply DecimalZ.of_to.
Qed.

(** Without [VERBOSE] nothing is printed; with [VERBOSE] set to a number, exactly the
    messages whose topic has at least this level. *)
Theorem verbose_filters z micros peerId term topic message :
  (- 2 ^ 63 ≤ z < 2 ^ 63)%Z →
  (∃ l, getEnvLevel "" = Some l ∧ LOG l micros peerId term topic message = None) ∧
  (∃ l, getEnvLevel (decimal z) = Some l ∧ (is_Some (LOG l micros peerId term topic message) ↔ (z ≤ getTopicLevel topic)%Z)).
Proof.
  intros Hz. split.
  - exists 4%Z. split; [done|]. by destruct topic.
  - exists z. unfold getEnvLevel. rewrite decide_False by (unfold decimal; by destruct (Z.to_int z) as [[]|[]]).
    unfold Atoi. rewrite digits_decimal. cbn [mbind option_bind].
    assert (((- 2 ^ 63 <=? z) && (z <? 2 ^ 63))%Z = true) as -> by (apply andb_true_intro; split; [apply Z.leb_le|apply Z.ltb_lt]; lia).
    split; [done|]. unfold LOG. destruct (Z.leb_spec z (getTopicLevel topic)); split; [done|by eexists|by intros []|lia].
Qed.

(** ** Messages *)

Definition boolean (b : bool) : string := if b then "true" else "false".

Section strings.
Context {Cmd SB : Type}.
Implicit Types (rl : RL.RaftLog Cmd SB).

Definition RequestVoteArgs_String (args : RF.RequestVoteArgs) : string :=
  "Candidate-" +:+ decimal (RF.rv_CandidateId args) +:+ ", T" +:+ decimal (RF.rv_Term args) +:+ ", Last: ["
  +:+ decimal (RF.rv_LastLogIndex args) +:+ "]T" +:+ decimal (RF.rv_LastLogTerm args).

Definition RequestVoteReply_String (reply : RF.RequestVoteReply) : string :=
  "T" +:+ decimal (RF.rr_Term reply) +:+ ", VoteGranted: " +:+ boolean (RF.rr_VoteGranted reply).

Definition AppendEntriesArgs_String (args : @RF.AppendEntriesArgs Cmd) : string :=
  "Leader-" +:+ decimal (RF.ae_LeaderId args) +:+ ", T" +:+ decimal (RF.ae_Term args) +:+ ", Prev:["
  +:+ decimal (RF.ae_PrevLogIndex args) +:+ "]T" +:+ decimal (RF.ae_PrevLogTerm args) +:+ ", ("
  +:+ decimal (RF.ae_PrevLogIndex args) +:+ ", " +:+ decimal (RF.ae_PrevLogIndex args + len (RF.ae_Entries args))
  +:+ "], CommitIdx: " +:+ decimal (RF.ae_LeaderCommit args).

Definition AppendEntriesReply_String (reply : RF.AppendEntriesReply) : string :=
  "T" +:+ decimal (RF.ar_Term reply) +:+ ", Sucess: " +:+ boolean (RF.ar_Success reply) +:+ ", ConflictTerm: ["
  +:+ decimal (RF.ar_ConfilictIndex reply) +:+ "]T" +:+ decimal (RF.ar_ConfilictTerm reply).

Definition InstallSnapshotArgs_String (args : @RF.InstallSnapshotArgs SB) : string :=
  "Leader-" +:+ decimal (RF.is_LeaderId args) +:+ ", T" +:+ decimal (RF.is_Term args) +:+ ", Last: ["
  +:+ decimal (RF.is_LastIncludedIndex args) +:+ "]T" +:+ decimal (RF.is_LastIncludedTerm args).

Definition InstallSnapshotReply_String (reply : RF.InstallSnapshotReply) : string :=
  "T" +:+ decimal (RF.ir_Term reply).

Definition persistString (rf : RF.Raft Cmd SB) : string :=
  "T" +:+ decimal (RF.currentTerm rf) +:+ ", VotedFor: " +:+ decimal (RF.votedFor rf) +:+ ", Log: [0: "
  +:+ decimal (RL.size (RF.log rf)) +:+ ")".

(** ** The log *)

Definition range (a b term : Z) : string := "[" +:+ decimal a +:+ ", " +:+ decimal b +:+ "]T" +:+ decimal term.

(** The loop of [RaftLog.String] from [i] on: [terms], [prevTerm] and [prevStart]. *)
Fixpoint String_loop (snapLastIdx i : Z) (es : list (LogEntry Cmd)) (terms : string) (prevTerm prevStart : Z) : string * Z * Z :=
  match es with
  | [] => (terms, prevTerm, prevStart)
  | e :: es =>
      if negb (le_Term e =? prevTerm)%Z
      then String_loop snapLastIdx (i + 1) es (terms +:+ " " +:+ range prevStart (snapLastIdx + i - 1) prevTerm) (le_Term e) i
      else String_loop snapLastIdx (i + 1) es terms prevTerm prevStart
  end.

Definition RaftLog_String rl : string :=
  let '(terms, prevTerm, prevStart) :=
    String_loop (RL.snapLastIdx rl) 0 (RL.tailLog rl) "" (RL.snapLastTerm rl) (RL.snapLastIdx rl) in
  terms +:+ range prevStart (RL.snapLastIdx rl + len (RL.tailLog rl) - 1) prevTerm.

(** A block of the log: its first index, its last one and its term. *)
Abbreviation block := (Z * Z * Z)%type.

(** Blocks that cover the log from [lo] to its end, each of one term and as long as it
    can be. *)
Fixpoint covers rl (lo : Z) (bs : list block) : Prop :=
  match bs with
  | [] => lo = RL.size rl
  | (a, b, t) :: bs =>
      a = lo ∧ (a ≤ b)%Z ∧ (∀ j, (a ≤ j ≤ b)%Z → RL.termAt rl j = Some t) ∧ RL.termAt rl (b + 1) ≠ Some t ∧ covers rl (b + 1) bs
  end.

(** What is printed: a space before every block but the last. *)
Fixpoint shown (bs : list block) : string :=
  match bs with
  | [] => ""
  | [(a, b, t)] => range a b t
  | (a, b, t) :: bs => " " +:+ range a b t +:+ shown bs
  end.

(** The blocks as the loop prints them: after the first, the start is a position in
    [tailLog] and not an index. *)
Definition printed (snapLastIdx : Z) (bs : list block) : list block :=
  match bs with [] => [] | b :: bs => b :: ((λ '(a, b, t), (a - snapLastIdx, b, t)%Z) <$> bs) end.

Lemma string_assoc (a b c : string) : (a +:+ b) +:+ c = a +:+ b +:+ c.
Proof. induction a as [|x a IH]; [done|]. change (String x ((a +:+ b) +:+ c) = String x (a +:+ b +:+ c)). by rewrite IH. Qed.

Lemma term_by_position rl j : RL.termAt rl j = le_Term <$> slice_get (RL.tailLog rl) (j - RL.snapLastIdx rl).
Proof. unfold RL.termAt. by rewrite RL.at_slice. Qed.

(** The loop inside a block of term [t] that starts at [start] and is printed from
    [pstart] on. *)
Lemma loop_blocks rl es : ∀ pre start pstart t terms,
  RL.tailLog rl = (pre ++ es)%list → (start < RL.snapLastIdx rl + len pre)%Z →
  (∀ j, (start ≤ j < RL.snapLastIdx rl + len pre)%Z → RL.termAt rl j = Some t) →
  ∃ b bs, covers rl start ((start, b, t) :: bs) ∧
    (let '(terms', t', p') := String_loop (RL.snapLastIdx rl) (len pre) es terms t pstart in
     terms' +:+ range p' (RL.snapLastIdx rl + len (RL.tailLog rl) - 1) t') =
    terms +:+ shown ((pstart, b, t) :: ((λ '(a, b, t), (a - RL.snapLastIdx rl, b, t)%Z) <$> bs)).
Proof.
  induction es as [|e es IH]; intros pre start pstart t terms Hl Hlt Hbl; cbn [String_loop].
  - rewrite app_nil_r in Hl. eexists _, []. cbn [covers]. rewrite Hl. split; [|reflexivity]. unfold RL.size. rewrite Hl.
    split_and!; [done|lia|intros; apply Hbl; lia| |lia]. rewrite term_by_position, Hl.
    by replace (slice_get pre _) with (@None (LogEntry Cmd)) by (symmetry; apply slice_get_None; lia).
  - assert (He : RL.termAt rl (RL.snapLastIdx rl + len pre) = Some (le_Term e)).
    { rewrite term_by_position, Hl. replace (slice_get _ _) with (Some e); [done|]. symmetry. apply slice_get_Some. unfold len. split; [lia|].
      replace (Z.to_nat _) with (length pre) by lia. by rewrite list_lookup_middle. }
    assert (Hl' : RL.tailLog rl = ((pre ++ [e]) ++ es)%list) by (by rewrite <-app_assoc).
    assert (Hlen : len (pre ++ [e])%list = (len pre + 1)%Z) by (unfold len; rewrite length_app; simpl; lia).
    destruct (Z.eqb_spec (le_Term e) t) as [<-|Hne]; cbn [negb].
    + rewrite <-Hlen. apply IH; [done|lia|]. intros j Hj. destruct (decide (j = RL.snapLastIdx rl + len pre)%Z) as [->|]; [done|].
      apply Hbl. lia.
    + destruct (IH (pre ++ [e])%list (RL.snapLastIdx rl + len pre)%Z (len pre) (le_Term e)
        (terms +:+ " " +:+ range pstart (RL.snapLastIdx rl + len pre - 1) t)) as (b & bs & Hc & E); [done|lia| |].
      { intros j Hj. by replace j with (RL.snapLastIdx rl + len pre)%Z by lia. }
      rewrite Hlen in E. exists (RL.snapLastIdx rl + len pre - 1)%Z, ((RL.snapLastIdx rl + len pre, b, le_Term e)%Z :: bs). split.
      * cbn [covers] in *. replace (RL.snapLastIdx rl + len pre - 1 + 1)%Z with (RL.snapLastIdx rl + len pre)%Z by lia.
        split_and!; [done|lia|intros; apply Hbl; lia|congruence|apply Hc..].
      * rewrite E, !string_assoc, fmap_cons. cbn [shown]. by replace (RL.snapLastIdx rl + len pre - RL.snapLastIdx rl)%Z with (len pre) by lia.
Qed.

(** [String] prints the blocks of the log, each of one term: exactly while nothing has
    been compacted. Behind a snapshot the start of every block but the first is too low
    by the index of the snapshot. *)
Theorem RaftLog_String_blocks rl :
  RL.wf rl → ∃ bs, covers rl (RL.snapLastIdx rl) bs ∧ RaftLog_String rl = shown (printed (RL.snapLastIdx rl) bs).
Proof.
  intros [_ Hh]. unfold RaftLog_String. destruct (RL.tailLog rl) as [|e es] eqn:El; [done|]. injection Hh as Hh.
  destruct (loop_blocks rl es [e] (RL.snapLastIdx rl) (RL.snapLastIdx rl) (RL.snapLastTerm rl) "") as (b & bs & Hc & E).
  - done.
  - unfold len. simpl. lia.
  - intros j Hj. unfold len in Hj. simpl in Hj. rewrite term_by_position, El. replace (j - _)%Z with 0%Z by lia. simpl. by rewrite Hh.
  - eexists. split; [exact Hc|]. cbn [printed]. rewrite <-El. cbn [String_loop] in *. rewrite El. cbn [String_loop].
    rewrite Hh, Z.eqb_refl. cbn [negb]. rewrite El in E. exact E.
Qed.
End strings.
End LOGGER.

(** Snapshot up to index 2 of term 1, then entry 3 of term 1 and entries 4 and 5 of term
    3: the second block starts at 4 and not at 2. *)
Module LoggingRuns.
Import LOGGER.

Example compacted_log : RaftLog_String LogExample.ex = " [2, 3]T1[2, 5]T3".
Proof. reflexivity. Qed.

Example vote_line :
  LOG 1 123456 2 7 DVote "granted" = Some "001234 T0007 VOTE S2 granted".
Proof. reflexivity. Qed.
End LoggingRuns.
