(* ===== verification/Matching.v ===== *)
(** Log matching, away from any network.

    [grow] maps a term to the log of the leader of that term, as far as it has
    grown: a leader only ever appends to it.  A log is [grounded] when every entry
    of it stands where the leader that created it put it, with the same entries
    before it.  Every operation of a Raft peer on its log keeps logs grounded, and
    two grounded logs that agree on the term of one entry agree up to that entry.

    Logs are written in full, from the mock entry at index 0; [represents] relates
    them to a [RaftLog], which may have dropped a prefix.  [lm] is the invariant of a
    network, of which it sees the term, the role and the log of every peer and the
    requests in flight; the networks of [raft.go] and [node.go] both keep it. *)

From S2P Require Import Prelude Gob RaftLog Raft.
Import RF.

#[local] Open Scope Z_scope.

Module LM.

Section matching.
Context {Cmd : Type}.
Abbreviation flog := (list (LogEntry Cmd)).
Implicit Types (F L : flog) (G : gmap Z flog) (t : Z) (i j : nat).

(** The first entry is the mock entry of index 0. *)
Definition root : LogEntry Cmd := RL.dummy InvalidTerm.

Record grounded G F : Prop := {
  gr_root : F !! 0%nat = Some root;
  gr_entry : ∀ i e, F !! S i = Some e →
    ∃ L, G !! le_Term e = Some L ∧ take (S (S i)) L = take (S (S i)) F
}.

(** No entry of [F] is of a term after [t], and terms do not decrease. *)
Record ordered t F : Prop := {
  or_bound : ∀ i e, F !! i = Some e → le_Term e ≤ t;
  or_sorted : ∀ i j e f, (i ≤ j)%nat → F !! i = Some e → F !! j = Some f → le_Term e ≤ le_Term f
}.

Definition wf_grow G : Prop := ∀ t L, G !! t = Some L → grounded G L ∧ ordered t L.

(** [G] grows to [G']. *)
Definition extends G G' : Prop :=
  ∀ t L, G !! t = Some L → ∃ ext, G' !! t = Some (L ++ ext).

#[export] Instance extends_preorder : PreOrder extends.
Proof.
  split.
  - intros G t L H. exists []. by rewrite app_nil_r.
  - intros G1 G2 G3 H12 H23 t L H. destruct (H12 t L H) as [e1 H1].
    destruct (H23 t _ H1) as [e2 H2]. exists (e1 ++ e2). by rewrite (assoc_L (++)).
Qed.

Lemma take_take_le {A} (l : list A) n m : (n ≤ m)%nat → take n (take m l) = take n l.
Proof. intros H. rewrite take_take. by rewrite Nat.min_l. Qed.

Lemma take_lookup {A} (l1 l2 : list A) n i :
  take n l1 = take n l2 → (i < n)%nat → l1 !! i = l2 !! i.
Proof. intros E Hi. by rewrite <-(lookup_take_lt l1 n), E, lookup_take_lt. Qed.

Lemma take_shorter {A} (l1 l2 : list A) n m :
  (n ≤ m)%nat → take m l1 = take m l2 → take n l1 = take n l2.
Proof. intros H E. by rewrite <-(take_take_le l1 n m), E, take_take_le. Qed.

Lemma grounded_extends G G' F : extends G G' → grounded G F → grounded G' F.
Proof.
  intros HE [H0 Hs]. split; [done|]. intros i e He. destruct (Hs i e He) as (L & HL & Ht).
  destruct (HE _ _ HL) as [ext HL']. exists (L ++ ext). split; [done|].
  assert (S (S i) ≤ length L)%nat.
  { apply (f_equal length) in Ht. rewrite !length_take in Ht. apply lookup_lt_Some in He. lia. }
  by rewrite take_app_le.
Qed.

Lemma grounded_take G F n : grounded G F → (0 < n)%nat → grounded G (take n F).
Proof.
  intros [H0 Hs] Hn. split; [by rewrite lookup_take_lt|]. intros i e [He Hi]%lookup_take_Some.
  destruct (Hs i e He) as (L & HL & Ht). exists L. split; [done|]. rewrite Ht. by rewrite take_take_le.
Qed.

Lemma ordered_take t F n : ordered t F → ordered t (take n F).
Proof.
  intros [Hb Hs]. split.
  - intros i e [He _]%lookup_take_Some. eauto.
  - intros i j e f Hij [He _]%lookup_take_Some [Hf _]%lookup_take_Some. eauto.
Qed.

Lemma ordered_mono t t' F : t ≤ t' → ordered t F → ordered t' F.
Proof. intros Ht [Hb Hs]. split; [|done]. intros i e He. specialize (Hb i e He). lia. Qed.

(** Two grounded logs agree up to an index where their terms agree. *)
Lemma grounded_agree G F1 F2 i e f :
  grounded G F1 → grounded G F2 → F1 !! i = Some e → F2 !! i = Some f → le_Term e = le_Term f →
  take (S i) F1 = take (S i) F2.
Proof.
  intros [R1 H1] [R2 H2] E1 E2 Ht. destruct i as [|i].
  - destruct F1, F2; simplify_eq/=. by rewrite !take_0.
  - destruct (H1 i e E1) as (L1 & HL1 & <-). destruct (H2 i f E2) as (L2 & HL2 & <-). congruence.
Qed.

(** ** Leaders *)

(** A peer with log [F] becomes the leader of term [t]. *)
Lemma grow_new G t F :
  wf_grow G → G !! t = None → grounded G F → ordered t F →
  wf_grow (<[t := F]> G) ∧ extends G (<[t := F]> G).
Proof.
  intros HG Ht HF HO.
  assert (HE : extends G (<[t := F]> G)).
  { intros u L HL. exists []. rewrite app_nil_r, lookup_insert_ne by congruence. done. }
  split; [|done]. intros u L [[-> ->]|[_ HL]]%lookup_insert_Some.
  - split; [by eapply grounded_extends|done].
  - destruct (HG u L HL). split; [by eapply grounded_extends|done].
Qed.

(** The leader of [t] appends an entry of its term. *)
Lemma grow_append G t L e :
  wf_grow G → G !! t = Some L → le_Term e = t →
  wf_grow (<[t := L ++ [e]]> G) ∧ extends G (<[t := L ++ [e]]> G).
Proof.
  intros HG Ht He.
  assert (HE : extends G (<[t := L ++ [e]]> G)).
  { intros u M HM. destruct (decide (u = t)) as [->|].
    - exists [e]. rewrite lookup_insert_eq. congruence.
    - exists []. by rewrite app_nil_r, lookup_insert_ne. }
  split; [|done]. destruct (HG t L Ht) as [HgL [Hb Hs]].
  intros u M [[<- <-]|[_ HM]]%lookup_insert_Some; cycle 1.
  { destruct (HG u M HM). split; [by eapply grounded_extends|done]. }
  assert (Hnew : ∀ i f, (L ++ [e]) !! i = Some f → L !! i = Some f ∨ i = length L ∧ f = e).
  { intros i f [?|[Hi Hf]]%lookup_app_Some; [by left|right].
    apply list_lookup_singleton_Some in Hf as [? ->]. split; [lia|done]. }
  pose proof (grounded_extends _ _ _ HE HgL) as [H0 Hs'].
  split; split.
  - by apply lookup_app_l_Some.
  - intros i f [Hf|[Hi ->]]%Hnew.
    + destruct (Hs' i f Hf) as (M & HM & Hm). exists M. split; [done|].
      rewrite Hm, take_app_le; [done|]. apply lookup_lt_Some in Hf. lia.
    + exists (L ++ [e]). by rewrite He, lookup_insert_eq.
  - intros i f [Hf|[_ ->]]%Hnew; [eauto|lia].
  - intros i j f g Hij [Hf|[Hi ->]]%Hnew [Hg|[Hj ->]]%Hnew; [eauto| | |done].
    + rewrite He. eauto.
    + apply lookup_lt_Some in Hg. lia.
Qed.

(** ** Followers *)

(** A request of the leader of [t]: its entries follow index [prev], whose entry
    has term [pt], in the leader's log. *)
Definition request G t (prev : nat) (pt : Z) (es : flog) : Prop :=
  ∃ L, G !! t = Some L ∧ le_Term <$> L !! prev = Some pt ∧ take (length es) (drop (S prev) L) = es.

Lemma request_extends G G' t prev pt es : extends G G' → request G t prev pt es → request G' t prev pt es.
Proof.
  intros HE (L & HL & Hp & He). destruct (HE t L HL) as [ext HL']. exists (L ++ ext). split_and!; [done|..].
  - apply fmap_Some in Hp as (e & Hp & ->). by rewrite (lookup_app_l_Some _ _ _ _ Hp).
  - apply fmap_Some in Hp as (e & Hp & _). apply lookup_lt_Some in Hp.
    rewrite drop_app_le by lia. rewrite take_app_le; [done|].
    apply (f_equal length) in He. rewrite length_take in He. lia.
Qed.

(** What the log of a follower becomes when it accepts the request: a prefix of the
    leader's log. *)
Lemma request_accepted G t prev pt es F :
  wf_grow G → grounded G F → request G t prev pt es → le_Term <$> F !! prev = Some pt →
  let F' := take (S prev) F ++ es in grounded G F' ∧ ordered t F'.
Proof.
  intros HG HF (L & HL & Hp & He) Hprev. cbv zeta.
  apply fmap_Some in Hp as (e & Hp & ->). apply fmap_Some in Hprev as (f & Hf & Hft).
  destruct (HG t L HL) as [HgL HoL].
  rewrite (grounded_agree G F L prev f e) by (done || congruence).
  assert (take (S prev) L ++ es = take (S prev + length es) L) as ->.
  { rewrite <-He at 1. rewrite <-(take_drop (S prev) L) at 3. symmetry. apply take_app_add'.
    rewrite length_take. apply lookup_lt_Some in Hp. lia. }
  split; [|by apply ordered_take]. apply grounded_take; [done|lia].
Qed.

End matching.
(** ** Logs with a dropped prefix *)

Section represent.
Context {Cmd SB : Type}.
Implicit Types (F L : list (LogEntry Cmd)) (rl : RL.RaftLog Cmd SB) (G : gmap Z (list (LogEntry Cmd))).

Record represents rl F : Prop := {
  rp_wf : RL.wf rl;
  rp_size : RL.size rl = len F;
  rp_at : ∀ i, RL.snapLastIdx rl < i → RL.at_ rl i = F !! Z.to_nat i;
  rp_term : ∀ i, RL.snapLastIdx rl ≤ i → RL.termAt rl i = le_Term <$> F !! Z.to_nat i
}.

Lemma represents_new snap : represents (RL.NewLog InvalidIndex InvalidTerm snap []) [root].
Proof.
  split; [by apply RL.wf_NewLog|done|..]; intros i Hi; simpl in Hi.
  - rewrite RL.at_slice. simpl. unfold slice_get. case_decide; [|lia]. by rewrite Z.sub_0_r.
  - unfold RL.termAt. rewrite RL.at_slice. simpl. unfold slice_get. case_decide; [|lia]. by rewrite Z.sub_0_r.
Qed.

Lemma represents_append rl F e : represents rl F → represents (RL.append rl e) (F ++ [e]).
Proof.
  intros [Hwf Hs Ha Ht]. pose proof (RL.wf_idx _ Hwf).
  assert (Hl : ∀ i, RL.snapLastIdx rl ≤ i → (F ++ [e]) !! Z.to_nat i =
            if decide (i = RL.size rl) then Some e else F !! Z.to_nat i).
  { intros i Hi. rewrite Hs. unfold len. case_decide as Hd.
    - subst i. rewrite Nat2Z.id. by apply list_lookup_middle.
    - destruct (decide (i < Z.of_nat (length F))); [by rewrite lookup_app_l by lia|].
      rewrite !lookup_ge_None_2; [done|lia|rewrite length_app; simpl; lia]. }
  split; [by apply RL.wf_append| |..].
  - rewrite RL.size_append, Hs, len_app. done.
  - intros i Hi. simpl in Hi. rewrite RL.at_append, Hl by lia. case_decide; [done|by apply Ha].
  - intros i Hi. simpl in Hi. unfold RL.termAt. rewrite RL.at_append, Hl by lia.
    case_decide; [done|]. by apply Ht.
Qed.

Lemma represents_appendFrom rl F prev es rl' :
  represents rl F → RL.appendFrom rl prev es = Some rl' →
  represents rl' (take (S (Z.to_nat prev)) F ++ es).
Proof.
  intros [Hwf Hs Ha Ht] E. pose proof (RL.wf_idx _ Hwf) as H0.
  pose proof (RL.appendFrom_inv _ _ _ _ E) as [Hp Erl].
  assert (Hsi : RL.snapLastIdx rl' = RL.snapLastIdx rl) by (by rewrite Erl).
  assert (Hlen : length (take (S (Z.to_nat prev)) F) = S (Z.to_nat prev)).
  { rewrite length_take. rewrite Hs in Hp. unfold len in Hp. lia. }
  assert (Hl : ∀ i, 0 ≤ i → (take (S (Z.to_nat prev)) F ++ es) !! Z.to_nat i =
            if decide (i ≤ prev) then F !! Z.to_nat i else slice_get es (i - prev - 1)).
  { intros i Hi. case_decide.
    - rewrite lookup_app_l by lia. by rewrite lookup_take_lt by lia.
    - rewrite lookup_app_r by lia. unfold slice_get. rewrite Hlen. case_decide; [|lia]. f_equal. lia. }
  split; [by eapply RL.wf_appendFrom| |..].
  - rewrite (RL.size_appendFrom _ _ _ _ E), len_app. unfold len at 2. rewrite Hlen. lia.
  - intros i Hi. rewrite (RL.at_appendFrom _ _ _ _ _ E), Hl by lia. case_decide; [apply Ha; lia|done].
  - intros i Hi. unfold RL.termAt. rewrite (RL.at_appendFrom _ _ _ _ _ E), Hl by lia.
    case_decide; [apply Ht; lia|done].
Qed.

(** A log whose prefix up to [index] was dropped. *)
Lemma represents_compacted rl F index snap e :
  represents rl F → RL.snapLastIdx rl < index < RL.size rl → F !! Z.to_nat index = Some e →
  represents (RL.mkLog index (le_Term e) snap
    (RL.dummy (le_Term e) :: drop (Z.to_nat (index - RL.snapLastIdx rl + 1)) (RL.tailLog rl))) F.
Proof.
  intros [Hwf Hs Ha Ht] Hi He. pose proof (RL.wf_idx _ Hwf) as H0. split; [split; simpl; [lia|done]| |..].
  - rewrite <-Hs. unfold RL.size, len in *. simpl. rewrite length_drop. lia.
  - intros i Hii. simpl in Hii. rewrite RL.at_compacted by lia.
    rewrite !decide_False by lia. apply Ha. lia.
  - intros i Hii. simpl in Hii. unfold RL.termAt. rewrite RL.at_compacted by lia.
    rewrite decide_False by lia. case_decide; [subst; by rewrite He|]. apply Ht. lia.
Qed.

Lemma represents_doSnapshot rl F index snap rl' :
  represents rl F → RL.doSnapshot rl index snap = Some rl' → represents rl' F.
Proof.
  intros HR E. pose proof (RL.wf_idx _ (rp_wf _ _ HR)) as H0.
  destruct (decide (RL.snapLastIdx rl < index < RL.size rl)) as [H|H].
  - destruct (RL.doSnapshot_Some rl index snap H) as (e & He & E'). simplify_eq.
    apply represents_compacted; [done..|]. rewrite <-(rp_at _ _ HR) by lia. done.
  - rewrite RL.doSnapshot_id in E by lia. by simplify_eq.
Qed.

(** A snapshot of the log [L] arrives; the receiver keeps what it has behind it,
    which is right when its own entry there has the term of the snapshot. *)
Definition fits rl (index term : Z) : Prop :=
  RL.size rl ≤ index + 1 ∨ RL.termAt rl index = Some term.

Lemma represents_install G rl F L t index term snap rl' :
  represents rl F → wf_grow G → grounded G F → G !! t = Some L → le_Term <$> L !! Z.to_nat index = Some term →
  RL.snapLastIdx rl < index → fits rl index term →
  RL.installSnapshot rl index term snap = Some rl' →
  ∃ F', represents rl' F' ∧ grounded G F' ∧ take (S (Z.to_nat index)) F' = take (S (Z.to_nat index)) L ∧
    (F' = F ∨ F' = take (S (Z.to_nat index)) L ∧ RL.size rl ≤ index + 1).
Proof.
  intros HR HG HF HL He Hi Hfit E. pose proof (RL.wf_idx _ (rp_wf _ _ HR)) as H0.
  rewrite RL.installSnapshot_Some in E by done. simplify_eq.
  apply fmap_Some in He as (e & He & ->). destruct (HG t L HL) as [HgL HoL].
  destruct (decide (index + 1 < RL.size rl)) as [Hs|Hs]; cycle 1.
  { exists (take (S (Z.to_nat index)) L).
    split_and!; [|apply grounded_take; [done|lia]|by apply take_take_le|right; split; [done|lia]].
    pose proof (lookup_lt_Some _ _ _ He) as Hlen.
    rewrite drop_ge by (unfold RL.size, len in *; lia).
    assert (Hl : take (S (Z.to_nat index)) L = take (Z.to_nat index) L ++ [e]) by (by apply take_S_r).
    split; [split; simpl; [lia|done]| |..].
    - unfold RL.size, len. simpl. rewrite length_take. lia.
    - intros i Hii. simpl in Hii. rewrite RL.at_slice. simpl. unfold slice_get. case_decide; [|lia].
      rewrite lookup_ge_None_2 by (simpl; lia). rewrite lookup_take_ge; [done|lia].
    - intros i Hii. simpl in Hii. unfold RL.termAt. rewrite RL.at_slice. simpl. unfold slice_get. case_decide; [|lia].
      destruct (decide (i = index)) as [->|].
      + rewrite Z.sub_diag. simpl. by rewrite lookup_take_lt, He by lia.
      + rewrite !lookup_ge_None_2; [done|rewrite length_take; lia|simpl; lia]. }
  destruct Hfit as [|Hfit]; [lia|]. rewrite (rp_term _ _ HR) in Hfit by lia.
  apply fmap_Some in Hfit as (f & Hf & Hft).
  exists F. split_and!; [|done|by eapply grounded_agree|by left]. rewrite Hft. by apply represents_compacted; [|lia|].
Qed.

Lemma represents_tail rl F prev e es :
  represents rl F → RL.snapLastIdx rl ≤ prev → RL.at_ rl prev = Some e → RL.tail rl (prev + 1) = Some es →
  es = drop (S (Z.to_nat prev)) F.
Proof.
  intros HR Hp He Ht. pose proof (RL.wf_idx _ (rp_wf _ _ HR)) as H0.
  pose proof (proj1 (RL.at_is_Some rl prev) (mk_is_Some _ _ He)) as Hr.
  unfold RL.tail in Ht. destruct (RL.size rl <=? prev + 1) eqn:Es.
  - simplify_eq. rewrite drop_ge; [done|]. rewrite (rp_size _ _ HR) in Es. unfold len in Es. lia.
  - destruct (prev + 1 <? RL.snapLastIdx rl) eqn:E2; [lia|].
    rewrite RL.idx_Some in Ht by lia. simplify_eq/=. apply list_eq. intros i. rewrite !lookup_drop.
    pose proof (rp_at _ _ HR (prev + 1 + Z.of_nat i)) as Ha. rewrite RL.at_slice in Ha.
    unfold slice_get in Ha. rewrite decide_True in Ha by lia.
    replace (Z.to_nat (prev + 1 - RL.snapLastIdx rl) + i)%nat with (Z.to_nat (prev + 1 + Z.of_nat i - RL.snapLastIdx rl)) by lia.
    rewrite Ha by lia. f_equal. lia.
Qed.

Lemma represents_prev rl F prev e :
  represents rl F → RL.snapLastIdx rl ≤ prev → RL.at_ rl prev = Some e →
  le_Term <$> F !! Z.to_nat prev = Some (le_Term e).
Proof. intros HR Hp He. rewrite <-(rp_term _ _ HR) by done. unfold RL.termAt. by rewrite He. Qed.

(** What [startReplication] sends. *)
Lemma represents_request G t rl F prev e es :
  represents rl F → G !! t = Some F → RL.snapLastIdx rl ≤ prev →
  RL.at_ rl prev = Some e → RL.tail rl (prev + 1) = Some es →
  0 ≤ prev ∧ request G t (Z.to_nat prev) (le_Term e) es.
Proof.
  intros HR HG Hp He Ht. pose proof (RL.wf_idx _ (rp_wf _ _ HR)) as H0. split; [lia|].
  exists F. split_and!; [done|by eapply represents_prev|].
  rewrite (represents_tail rl F prev e es HR Hp He Ht). by apply firstn_all.
Qed.

(** ** What is promised to the outside *)

(** If two logs have an entry of the same term at the same index, they have the
    same entries up to there, as far as neither has dropped them. *)
Definition logs_match (rl1 rl2 : RL.RaftLog Cmd SB) : Prop :=
  ∀ i t, RL.termAt rl1 i = Some t → RL.termAt rl2 i = Some t → ∀ j, j ≤ i →
    (RL.snapLastIdx rl1 < j → RL.snapLastIdx rl2 < j → RL.at_ rl1 j = RL.at_ rl2 j) ∧
    (RL.snapLastIdx rl1 ≤ j → RL.snapLastIdx rl2 ≤ j → RL.termAt rl1 j = RL.termAt rl2 j).

Lemma represents_match G rl1 rl2 F1 F2 :
  represents rl1 F1 → represents rl2 F2 → grounded G F1 → grounded G F2 → logs_match rl1 rl2.
Proof.
  intros R1 R2 H1 H2 i t T1 T2 j Hj.
  pose proof (proj1 (RL.termAt_is_Some rl1 i) (mk_is_Some _ _ T1)) as Hi1.
  pose proof (proj1 (RL.termAt_is_Some rl2 i) (mk_is_Some _ _ T2)) as Hi2.
  pose proof (RL.wf_idx _ (rp_wf _ _ R1)) as H01. pose proof (RL.wf_idx _ (rp_wf _ _ R2)) as H02.
  rewrite (rp_term _ _ R1) in T1 by lia. rewrite (rp_term _ _ R2) in T2 by lia.
  apply fmap_Some in T1 as (e & E1 & ->). apply fmap_Some in T2 as (f & E2 & Ht).
  pose proof (grounded_agree G F1 F2 _ e f H1 H2 E1 E2 Ht) as Hag.
  split; intros Hj1 Hj2.
  - rewrite (rp_at _ _ R1), (rp_at _ _ R2) by done. eapply take_lookup; [done|lia].
  - rewrite (rp_term _ _ R1), (rp_term _ _ R2) by done. f_equal. eapply take_lookup; [done|lia].
Qed.

Lemma represents_sorted rl F t :
  represents rl F → ordered t F →
  RL.terms_sorted rl ∧ ∀ i u, RL.termAt rl i = Some u → u ≤ t.
Proof.
  intros HR [Hb Hs]. assert (Hin : ∀ i u, RL.termAt rl i = Some u → ∃ e, F !! Z.to_nat i = Some e ∧ u = le_Term e).
  { intros i u Hu. pose proof (proj1 (RL.termAt_is_Some rl i) (mk_is_Some _ _ Hu)).
    rewrite (rp_term _ _ HR) in Hu by lia. by apply fmap_Some. }
  split.
  - apply RL.terms_sorted_spec. intros i j a b (e & He & ->)%Hin (f & Hf & ->)%Hin Hij.
    eapply Hs; [|done..]. lia.
  - intros i u (e & He & ->)%Hin. eauto.
Qed.

End represent.
(** ** Networks *)

Section network.
Context {Cmd SB : Type}.
Implicit Types (F L : list (LogEntry Cmd)) (G : gmap Z (list (LogEntry Cmd))).
Implicit Types (t : Z) (ls : gset (Z * Z)).

(** What is seen of a peer. *)
Record view := mkView {
  v_term : Z;
  v_role : Role;
  v_log : RL.RaftLog Cmd SB
}.
Implicit Types (v : view) (ps : gmap Z view).

(** What is seen of a request of the leader of [t]. *)
Inductive msg :=
  | MAppend (t prev pt : Z) (es : list (LogEntry Cmd))
  | MInstall (t index term : Z).
Implicit Types (m : msg) (ms : list msg).

Definition peer_log G v : Prop :=
  ∃ F, represents (v_log v) F ∧ grounded G F ∧ ordered (v_term v) F ∧
    (v_role v = Leader → G !! v_term v = Some F).

Definition msg_log G m : Prop :=
  match m with
  | MAppend t prev pt es => 0 ≤ prev ∧ request G t (Z.to_nat prev) pt es
  | MInstall t index term => ∃ L, G !! t = Some L ∧ le_Term <$> L !! Z.to_nat index = Some term
  end.

(** [ls] are the leaders there have been. *)
Record lm ps ms ls G : Prop := {
  lm_grow : wf_grow G;
  lm_led : ∀ t L, G !! t = Some L → ∃ p, (t, p) ∈ ls;
  lm_peer : ∀ p v, ps !! p = Some v → peer_log G v;
  lm_msg : ∀ m, m ∈ ms → msg_log G m
}.

Lemma msg_log_extends G G' m : extends G G' → msg_log G m → msg_log G' m.
Proof.
  intros HE. destruct m; simpl.
  - intros [? ?]. eauto using request_extends.
  - intros (L & HL & Ht). destruct (HE _ _ HL) as [ext HL']. exists (L ++ ext). split; [done|].
    apply fmap_Some in Ht as (e & He & ->). by rewrite (lookup_app_l_Some _ _ _ _ He).
Qed.

Lemma peer_log_extends G G' v :
  extends G G' → (v_role v = Leader → G' !! v_term v = G !! v_term v) → peer_log G v → peer_log G' v.
Proof.
  intros HE HL (F & HR & HF & HO & Hl). exists F. split_and!; [done|by eapply grounded_extends|done|].
  intros Hr. rewrite HL by done. by apply Hl.
Qed.

(** A step that does not touch the log and makes nobody leader. *)
Definition keeps v v' : Prop :=
  v_log v' = v_log v ∧ v_term v ≤ v_term v' ∧
  (v_role v' = Leader → v_role v = Leader ∧ v_term v' = v_term v).

Lemma keeps_refl v : keeps v v.
Proof. split_and!; [done|lia|done]. Qed.

Lemma peer_log_keeps G v v' : keeps v v' → peer_log G v → peer_log G v'.
Proof.
  intros (Hl & Ht & Hr) (F & HR & HF & HO & HL). exists F. rewrite Hl. split_and!; [done..| |].
  - by eapply ordered_mono.
  - intros [Hr' ->]%Hr. by apply HL.
Qed.

Lemma lm_intro ps ms ls G ps' ms' ls' G' :
  lm ps ms ls G → extends G G' → wf_grow G' → ls ⊆ ls' →
  (∀ t L, G' !! t = Some L → is_Some (G !! t) ∨ ∃ p, (t, p) ∈ ls') →
  (∀ q v, ps' !! q = Some v →
     (ps !! q = Some v ∧ (v_role v = Leader → G' !! v_term v = G !! v_term v)) ∨ peer_log G' v) →
  (∀ m, m ∈ ms' → m ∈ ms ∨ msg_log G' m) →
  lm ps' ms' ls' G'.
Proof.
  intros [Hg Hl Hp Ht] HE HG Hb Hled Hpeer Hmsg. split; [done|..].
  - intros t L HL. destruct (Hled t L HL) as [[L0 HL0]|?]; [|done].
    destruct (Hl t L0 HL0) as [p ?]. exists p. set_solver.
  - intros q v Hq. destruct (Hpeer q v Hq) as [[Hq' Hr]|?]; [|done]. by eapply peer_log_extends; [|done|eauto].
  - intros m Hm. destruct (Hmsg m Hm) as [?|?]; [|done]. eauto using msg_log_extends.
Qed.

(** A step that leaves the logs of the leaders as they are. *)
Lemma lm_quiet ps ms ls G ps' ms' ls' :
  lm ps ms ls G → ls ⊆ ls' → (∀ q v, ps' !! q = Some v → ps !! q = Some v ∨ peer_log G v) →
  (∀ m, m ∈ ms' → m ∈ ms ∨ msg_log G m) → lm ps' ms' ls' G.
Proof.
  intros H Hb Hp Hm. eapply lm_intro; [done|done|apply H|done|by eauto| |done].
  intros q v [?|?]%Hp; [by left|by right].
Qed.

(** ** Steps of a peer *)

Lemma append_log G v v' t prev pt es :
  wf_grow G → peer_log G v → msg_log G (MAppend t prev pt es) → RL.termAt (v_log v) prev = Some pt →
  RL.appendFrom (v_log v) prev es = Some (v_log v') → v_term v' = t → v_role v' = Follower → peer_log G v'.
Proof.
  intros HG (F & HR & HF & _ & _) [H0 HQ] Ht El Htm Hr.
  pose proof (RL.appendFrom_inv _ _ _ _ El) as [Hp _]. rewrite (rp_term _ _ HR) in Ht by lia.
  destruct (request_accepted G _ _ _ _ F HG HF HQ Ht) as [HF' HO'].
  exists (take (S (Z.to_nat prev)) F ++ es). rewrite Htm, Hr.
  split_and!; [by eapply represents_appendFrom|done|done|done].
Qed.

Lemma install_log G v v' t index term snap :
  wf_grow G → peer_log G v → msg_log G (MInstall t index term) → v_term v ≤ t →
  RL.snapLastIdx (v_log v) < index → fits (v_log v) index term →
  RL.installSnapshot (v_log v) index term snap = Some (v_log v') → v_term v' = t → v_role v' = Follower →
  peer_log G v'.
Proof.
  intros HG (F & HR & HF & HO & _) (L & HL & HT) Hle Hi Hfit El Htm Hr.
  destruct (represents_install G _ F L t _ _ _ _ HR HG HF HL HT Hi Hfit El) as (F' & HR' & HF' & _ & HO').
  exists F'. rewrite Htm, Hr. split_and!; [done|done| |done].
  destruct HO' as [->|[-> _]]; [by eapply ordered_mono|by apply ordered_take, HG].
Qed.

Lemma compact_log G v v' index snap :
  peer_log G v → RL.doSnapshot (v_log v) index snap = Some (v_log v') →
  v_term v' = v_term v → v_role v' = v_role v → peer_log G v'.
Proof.
  intros (F & HR & HF & HO & HL) El Ht Hr. exists F. rewrite Ht, Hr.
  split_and!; [by eapply represents_doSnapshot|done..].
Qed.

(** A restart that keeps the snapshot only. *)
Lemma forget_log G v v' :
  peer_log G v →
  v_log v' = RL.NewLog (RL.snapLastIdx (v_log v)) (RL.snapLastTerm (v_log v)) (RL.snapshot (v_log v)) [] →
  v_term v' = v_term v → v_role v' = Follower → peer_log G v'.
Proof.
  intros (F & HR & HF & HO & _) El Ht Hr. pose proof (rp_wf _ _ HR) as Hwf.
  pose proof (RL.wf_idx _ Hwf) as H0. pose proof (RL.wf_size _ Hwf) as Hs.
  pose proof (RL.wf_termAt _ Hwf) as Hst. rewrite (rp_term _ _ HR) in Hst by lia.
  rewrite (rp_size _ _ HR) in Hs. unfold len in Hs.
  set (si := RL.snapLastIdx (v_log v)) in *.
  exists (take (S (Z.to_nat si)) F). rewrite El, Ht, Hr.
  split_and!; [|apply grounded_take; [done|lia]|by apply ordered_take|done].
  split; [by apply RL.wf_NewLog| |..].
  - rewrite RL.size_NewLog. unfold len. rewrite length_take. cbn [length]. lia.
  - intros i Hi. simpl in Hi. rewrite RL.at_slice. simpl. unfold slice_get. case_decide; [|lia].
    rewrite lookup_ge_None_2 by (simpl; lia). by rewrite lookup_take_ge by lia.
  - intros i Hi. simpl in Hi. unfold RL.termAt. rewrite RL.at_slice. simpl. unfold slice_get. case_decide; [|lia].
    destruct (decide (i = si)) as [->|].
    + rewrite Z.sub_diag. simpl. by rewrite lookup_take_lt, Hst by lia.
    + rewrite !lookup_ge_None_2; [done|rewrite length_take; lia|simpl; lia].
Qed.

(** The requests of a leader. *)
Lemma append_request G v prev e es :
  peer_log G v → v_role v = Leader → RL.snapLastIdx (v_log v) ≤ prev → RL.at_ (v_log v) prev = Some e →
  RL.tail (v_log v) (prev + 1) = Some es → msg_log G (MAppend (v_term v) prev (le_Term e) es).
Proof. intros (F & HR & _ & _ & HL) Hr Hp He Ht. by eapply represents_request; eauto. Qed.

Lemma install_request G v :
  peer_log G v → v_role v = Leader →
  msg_log G (MInstall (v_term v) (RL.snapLastIdx (v_log v)) (RL.snapLastTerm (v_log v))).
Proof.
  intros (F & HR & _ & _ & HL) Hr. exists F. split; [by apply HL|].
  rewrite <-(rp_term _ _ HR) by lia. apply RL.wf_termAt, HR.
Qed.

(** ** Leaders *)

(** The leader [p] appends an entry of its term. *)
Lemma lm_start ps ms ls G ls' p v cmd :
  lm ps ms ls G → ls ⊆ ls' → ps !! p = Some v → v_role v = Leader →
  (∀ q w, q ≠ p → ps !! q = Some w → v_role w = Leader → v_term w ≠ v_term v) →
  ∃ G', lm (<[p := mkView (v_term v) Leader (RL.append (v_log v) (mkEntry (v_term v) true cmd))]> ps) ms ls' G'.
Proof.
  intros H Hb Hp Hr Hu. destruct (lm_peer _ _ _ _ H p v Hp) as (F & HR & HF & HO & HL). specialize (HL Hr).
  set (en := mkEntry (v_term v) true cmd).
  destruct (grow_append G (v_term v) F en (lm_grow _ _ _ _ H) HL eq_refl) as [HG HE].
  exists (<[v_term v := F ++ [en]]> G). eapply lm_intro; [done|done|done|done|..].
  - intros t L [[<- _]|[_ ?]]%lookup_insert_Some; left; eauto.
  - intros q w [[<- <-]|[Hne Hq]]%lookup_insert_Some.
    + right. destruct (HG (v_term v) (F ++ [en])) as [HF' HO']; [by rewrite lookup_insert_eq|].
      exists (F ++ [en]). simpl. split_and!; [by apply represents_append|done|done|].
      intros _. by rewrite lookup_insert_eq.
    + left. split; [done|]. intros Hrq. rewrite lookup_insert_ne; [done|]. intros Et. by apply (Hu q w).
  - by left.
Qed.

(** The candidate [p] becomes leader of a term that had none. *)
Lemma lm_lead ps ms ls G ls' p v ms' :
  lm ps ms ls G → ls ⊆ ls' → ps !! p = Some v → G !! v_term v = None → (v_term v, p) ∈ ls' →
  (∀ m, m ∈ ms' → m ∈ ms ∨ msg_log G m) →
  ∃ G', lm (<[p := mkView (v_term v) Leader (v_log v)]> ps) ms' ls' G'.
Proof.
  intros H Hb Hp Hn Hin Hm. destruct (lm_peer _ _ _ _ H p v Hp) as (F & HR & HF & HO & _).
  destruct (grow_new G (v_term v) F (lm_grow _ _ _ _ H) Hn HF HO) as [HG HE].
  exists (<[v_term v := F]> G). eapply lm_intro; [done|done|done|done|..].
  - intros t L [[<- _]|[_ ?]]%lookup_insert_Some; [right|left]; eauto.
  - intros q w [[<- <-]|[Hne Hq]]%lookup_insert_Some.
    + right. exists F. simpl. split_and!; [done|by eapply grounded_extends|done|].
      intros _. by rewrite lookup_insert_eq.
    + left. split; [done|]. intros Hrq. rewrite lookup_insert_ne; [done|]. intros Et.
      destruct (lm_peer _ _ _ _ H q w Hq) as (F' & _ & _ & _ & HL'). rewrite <-Et in HL'. by rewrite HL' in Hn.
  - intros m [?|?]%Hm; [by left|right]. by eapply msg_log_extends.
Qed.

(** ** The start, and the promise *)

Definition fresh_view : view := mkView 1 Follower (RL.NewLog InvalidIndex InvalidTerm [] []).

Lemma lm_init ps ls : (∀ p v, ps !! p = Some v → v = fresh_view) → lm ps [] ls ∅.
Proof.
  intros Hf. split; [done|done| |set_solver]. intros p v ->%Hf. exists [root].
  split_and!; [apply represents_new| | |done].
  - split; [done|]. by intros i e [? _]%list_lookup_singleton_Some.
  - split.
    + intros i e [_ <-]%list_lookup_singleton_Some. simpl. unfold InvalidTerm. lia.
    + intros i j e f _ [_ <-]%list_lookup_singleton_Some [_ <-]%list_lookup_singleton_Some. done.
Qed.

Lemma lm_match ps ms ls G p q v w :
  lm ps ms ls G → ps !! p = Some v → ps !! q = Some w →
  logs_match (v_log v) (v_log w) ∧ RL.terms_sorted (v_log v) ∧
  ∀ i t, RL.termAt (v_log v) i = Some t → t ≤ v_term v.
Proof.
  intros H Hp Hq. destruct (lm_peer _ _ _ _ H p v Hp) as (F1 & R1 & G1 & O1 & _).
  destruct (lm_peer _ _ _ _ H q w Hq) as (F2 & R2 & G2 & _ & _).
  split; [by eapply represents_match|by eapply represents_sorted].
Qed.
End network.
Arguments view : clear implicits.
Arguments msg : clear implicits.
End LM.
