(* ===== verification/Labrpc.v ===== *)
(** The simulated network: [src/src/labrpc/labrpc.go].

    A call is a record that several goroutines advance: the network's own
    ([processReq]), the one that runs the handler and the caller.  [step] interleaves
    them with the administration of the network; sleeping is not being scheduled,
    and random numbers are arguments.  [None] is a step that is not enabled, or one
    that ends the process ([log.Fatalf], a panic).  A handler is one step of the
    state [W] of the receivers; arguments and replies are their labgob encodings.

    What [RaftNet] assumes of its messages is proved here: a request is executed at
    most once and answered at most once, and a positive answer is the result of
    executing this very request. *)

From Stdlib Require Import Strings.Byte.
From stdpp Require Import strings.
From S2P Require Import Prelude.

#[local] Open Scope Z_scope.

Module LR.

Abbreviation bytes := (list Byte.byte).

(** The widths of the network's and the servers' counters. *)
Definition to_int32 (z : Z) : Z := (z + 2 ^ 31) `mod` 2 ^ 32 - 2 ^ 31.
Definition to_int64 (z : Z) : Z := (z + 2 ^ 63) `mod` 2 ^ 64 - 2 ^ 63.

Section labrpc.

(** [W] is the state of the objects whose methods are called. *)
Context {W : Type}.

(** ** Servers and services *)

Record Service := mkService {
  sv_name : string;
  sv_methods : gmap string (bytes → W → W * bytes)
}.

(** What [reflect] tells of a method: its name, the package path, which is empty when
    the name is upper case, the kinds of its arguments, the receiver first, and the
    number of its results.  [m_Func] decodes the argument, calls the method and encodes
    the reply. *)
Inductive kind := Ptr | OtherKind.

Record Method := mkMethod {
  m_Name : string;
  m_PkgPath : string;
  m_In : list kind;
  m_NumOut : Z;
  m_Func : bytes → W → W * bytes
}.

(** The condition of [MakeService], negated. *)
Definition suitable (m : Method) : bool :=
  bool_decide (m_PkgPath m = ""%string) && (len (m_In m) =? 3)
  && match slice_get (m_In m) 2 with Some Ptr => true | _ => false end && (m_NumOut m =? 0).

Definition handlers (methods : list Method) : gmap string (bytes → W → W * bytes) :=
  foldl (λ ms m, if suitable m then <[m_Name m := m_Func m]> ms else ms) ∅ methods.

(** [name] is the name of the type of the receiver. *)
Definition MakeService (name : string) (methods : list Method) : Service := mkService name (handlers methods).

Record Server := mkServer {
  services : gmap string Service;
  sv_count : Z
}.

Definition MakeServer : Server := mkServer ∅ 0.

Definition AddService (svc : Service) (rs : Server) : Server :=
  mkServer (<[sv_name svc := svc]> (services rs)) (sv_count rs).

Definition Server_GetCount (rs : Server) : Z := sv_count rs.

Definition dot : Ascii.ascii := Ascii.Ascii false true true true false true false false.

(** [strings.LastIndex(s, ".")] as the two parts around the last dot. *)
Fixpoint split_last (l : list Ascii.ascii) : option (list Ascii.ascii * list Ascii.ascii) :=
  match l with
  | [] => None
  | c :: l =>
      match split_last l with
      | Some (a, b) => Some (c :: a, b)
      | None => if Ascii.eqb c dot then Some ([], l) else None
      end
  end.

Definition split_method (svcMeth : string) : option (string * string) :=
  '(a, b) ← split_last (String.list_ascii_of_string svcMeth);
  Some (String.string_of_list_ascii a, String.string_of_list_ascii b).

(** [Service.dispatch]; [None] is [log.Fatalf]. *)
Definition dispatch_service (methname : string) (args : bytes) (svc : Service) (w : W) : option (W * bytes) :=
  method ← sv_methods svc !! methname; Some (method args w).

Lemma handlers_spec methods n f :
  NoDup (m_Name <$> methods) →
  handlers methods !! n = Some f ↔ ∃ m, m ∈ methods ∧ suitable m = true ∧ m_Name m = n ∧ m_Func m = f.
Proof.
  unfold handlers. induction methods as [|m ms IH] using rev_ind; intros Hnd.
  { simpl. rewrite lookup_empty. split; [done|]. intros (m & Hm & _). by apply not_elem_of_nil in Hm. }
  rewrite fmap_app, list.NoDup_app in Hnd. destruct Hnd as (Hnd & Hdisj & _). rewrite foldl_app. simpl.
  setoid_rewrite elem_of_app. setoid_rewrite list_elem_of_singleton.
  assert (Hm : ∀ m', m' ∈ ms → m_Name m' ≠ m_Name m).
  { intros m' Hm' E. apply (Hdisj (m_Name m')); [by apply list_elem_of_fmap_2|]. rewrite E. by apply list_elem_of_singleton. }
  specialize (IH Hnd). destruct (suitable m) eqn:Es.
  - destruct (decide (m_Name m = n)) as [<-|Hne].
    + rewrite lookup_insert_eq. split; [intros [= <-]; exists m; split; [by right|done]|]. intros (m' & [Hin| ->] & _ & Hn & <-); [by apply Hm in Hin|done].
    + rewrite lookup_insert_ne by done. rewrite IH. split; [intros (m' & ? & ?); exists m'; split; [by left|done]|]. intros (m' & [Hin| ->] & Hs & Hn & Hf); eauto. done.
  - rewrite IH. split; [intros (m' & ? & ?); exists m'; split; [by left|done]|]. intros (m' & [Hin| ->] & Hs & Hn & Hf); eauto. congruence.
Qed.

(** A service answers calls of exactly the suitable methods; any other call ends the
    program. *)
Theorem MakeService_answers name methods mname args w :
  NoDup (m_Name <$> methods) →
  (∀ m, m ∈ methods → suitable m = true → m_Name m = mname →
     dispatch_service mname args (MakeService name methods) w = Some (m_Func m args w)) ∧
  ((∀ m, m ∈ methods → m_Name m = mname → suitable m = false) →
     dispatch_service mname args (MakeService name methods) w = None).
Proof.
  intros Hnd. unfold dispatch_service. cbn [MakeService sv_methods]. split.
  - intros m Hm Hs Hn. assert (handlers methods !! mname = Some (m_Func m)) as -> by (apply handlers_spec; eauto). done.
  - intros Hno. destruct (handlers methods !! mname) as [f|] eqn:E; [|done].
    apply handlers_spec in E as (m & Hm & Hs & Hn & _); [|done]. by rewrite (Hno m Hm Hn) in Hs.
Qed.

(** [Server.dispatch]; slicing at -1 panics when there is no dot. *)
Definition dispatch (svcMeth : string) (args : bytes) (rs : Server) (w : W) : option (Server * W * bytes) :=
  let rs := mkServer (services rs) (to_int64 (sv_count rs + 1)) in
  '(serviceName, methodName) ← split_method svcMeth;
  service ← services rs !! serviceName;
  '(w, reply) ← dispatch_service methodName args service w;
  Some (rs, w, reply).

(** ** The network *)

(** End names and server names are numbers; [None] in [connections] and [servers] is
    nil, and a server is an address in [heap].  [looping] is the goroutine that
    takes the requests. *)
Record Network := mkNetwork {
  reliable : bool;
  longDelays : bool;
  longReordering : bool;
  ends : gset Z;
  enabled : gmap Z bool;
  servers : gmap Z (option nat);
  connections : gmap Z (option Z);
  heap : list Server;
  count : Z;
  nbytes : Z;
  done_ : bool;
  looping : bool
}.
Implicit Types rn : Network.

Definition MakeNetwork : Network := mkNetwork true false false ∅ ∅ ∅ ∅ [] 0 0 false true.

(** Closing [done] twice panics. *)
Definition Cleanup rn : option Network :=
  if done_ rn then None
  else Some (mkNetwork (reliable rn) (longDelays rn) (longReordering rn) (ends rn) (enabled rn) (servers rn) (connections rn) (heap rn) (count rn) (nbytes rn) true (looping rn)).

(** The loop of [MakeNetwork] returns. *)
Definition loop_exit rn : option Network :=
  if done_ rn then Some (mkNetwork (reliable rn) (longDelays rn) (longReordering rn) (ends rn) (enabled rn) (servers rn) (connections rn) (heap rn) (count rn) (nbytes rn) (done_ rn) false)
  else None.

Definition Reliable (yes : bool) rn : Network :=
  mkNetwork yes (longDelays rn) (longReordering rn) (ends rn) (enabled rn) (servers rn)
    (connections rn) (heap rn) (count rn) (nbytes rn) (done_ rn) (looping rn).
Definition LongReordering (yes : bool) rn : Network :=
  mkNetwork (reliable rn) (longDelays rn) yes (ends rn) (enabled rn) (servers rn)
    (connections rn) (heap rn) (count rn) (nbytes rn) (done_ rn) (looping rn).
Definition LongDelays (yes : bool) rn : Network :=
  mkNetwork (reliable rn) yes (longReordering rn) (ends rn) (enabled rn) (servers rn)
    (connections rn) (heap rn) (count rn) (nbytes rn) (done_ rn) (looping rn).
Definition AddServer (servername : Z) (rs : nat) rn : Network :=
  mkNetwork (reliable rn) (longDelays rn) (longReordering rn) (ends rn) (enabled rn) (<[servername := Some rs]> (servers rn))
    (connections rn) (heap rn) (count rn) (nbytes rn) (done_ rn) (looping rn).
Definition DeleteServer (servername : Z) rn : Network :=
  mkNetwork (reliable rn) (longDelays rn) (longReordering rn) (ends rn) (enabled rn) (<[servername := None]> (servers rn))
    (connections rn) (heap rn) (count rn) (nbytes rn) (done_ rn) (looping rn).
Definition Connect (endname servername : Z) rn : Network :=
  mkNetwork (reliable rn) (longDelays rn) (longReordering rn) (ends rn) (enabled rn) (servers rn)
    (<[endname := Some servername]> (connections rn)) (heap rn) (count rn) (nbytes rn) (done_ rn) (looping rn).
Definition Enable (endname : Z) (b : bool) rn : Network :=
  mkNetwork (reliable rn) (longDelays rn) (longReordering rn) (ends rn) (<[endname := b]> (enabled rn)) (servers rn)
    (connections rn) (heap rn) (count rn) (nbytes rn) (done_ rn) (looping rn).
Definition set_heap (h : list Server) rn : Network :=
  mkNetwork (reliable rn) (longDelays rn) (longReordering rn) (ends rn) (enabled rn) (servers rn)
    (connections rn) h (count rn) (nbytes rn) (done_ rn) (looping rn).
Definition add_count (c b : Z) rn : Network :=
  mkNetwork (reliable rn) (longDelays rn) (longReordering rn) (ends rn) (enabled rn) (servers rn)
    (connections rn) (heap rn) (to_int32 (count rn + c)) (to_int64 (nbytes rn + b)) (done_ rn) (looping rn).

(** [log.Fatalf] when the name is taken. *)
Definition MakeEnd (endname : Z) rn : option Network :=
  if decide (endname ∈ ends rn) then None
  else Some (mkNetwork (reliable rn) (longDelays rn) (longReordering rn) ({[endname]} ∪ ends rn) (<[endname := false]> (enabled rn)) (servers rn) (<[endname := None]> (connections rn)) (heap rn) (count rn) (nbytes rn) (done_ rn) (looping rn)).

(** A server that is nil panics. *)
Definition GetCount (servername : Z) rn : option Z :=
  s ← mjoin (servers rn !! servername); Server_GetCount <$> heap rn !! s.
Definition GetTotalCount rn : Z := count rn.
Definition GetTotalBytes rn : Z := nbytes rn.

(** A missing key reads as the zero value. *)
Definition end_enabled (endname : Z) rn : bool := default false (enabled rn !! endname).
Definition server_of (servername : Z) rn : option nat := mjoin (servers rn !! servername).

Definition readEndnameInfo (endname : Z) rn : bool * option Z * option nat * bool * bool :=
  let servername := mjoin (connections rn !! endname) in
  (end_enabled endname rn, servername, servername ≫= (λ n, server_of n rn), reliable rn, longReordering rn).

Definition isServerDead (endname servername : Z) (server : nat) rn : bool :=
  negb (end_enabled endname rn) || bool_decide (server_of servername rn ≠ Some server).

(** ** Calls *)

(** What [processReq] read at the start. *)
Record info := mkInfo {
  i_name : Z;
  i_server : nat;
  i_reliable : bool;
  i_longReordering : bool
}.

Inductive stage :=
  | Sending                        (* [Call] in its first select *)
  | Taken                          (* go rn.processReq(xreq) *)
  | Delaying (i : info)            (* the short delay *)
  | Waiting (i : info)             (* for the handler, polling isServerDead *)
  | Got (i : info) (reply : bytes)
  | GaveUp                         (* the server died while waiting *)
  | Timer (reply : option bytes)   (* a time.AfterFunc that will answer *)
  | Answered                       (* [Call] has its reply *)
  | Destroyed.                     (* [Call] returned false: the network is gone *)

(** The goroutine that runs the handler, with the server it was started for. *)
Inductive runner := NotStarted | Started (server : nat) | Returned (reply : bytes) | Drained.

(** [c_runs] and [c_answers] record what happened: the results of the executions
    of this request and the answers sent on its [replyCh]. *)
Record call := mkCall {
  c_end : Z;
  c_meth : string;
  c_args : bytes;
  c_stage : stage;
  c_runner : runner;
  c_runs : list bytes;
  c_answers : list (option bytes)
}.

(** [ClientEnd.Call] up to its first select. *)
Definition Call (endname : Z) (meth : string) (args : bytes) : call :=
  mkCall endname meth args Sending NotStarted [] [].

Definition at_stage (g : stage) (c : call) : call :=
  mkCall (c_end c) (c_meth c) (c_args c) g (c_runner c) (c_runs c) (c_answers c).
Definition at_runner (r : runner) (c : call) : call :=
  mkCall (c_end c) (c_meth c) (c_args c) (c_stage c) r (c_runs c) (c_answers c).
Definition ran (reply : bytes) (c : call) : call :=
  mkCall (c_end c) (c_meth c) (c_args c) (c_stage c) (Returned reply) (c_runs c ++ [reply]) (c_answers c).

(** [req.replyCh <- replyMsg{...}], which [Call] receives. *)
Definition answer (o : option bytes) (c : call) : call :=
  mkCall (c_end c) (c_meth c) (c_args c) Answered (c_runner c) (c_runs c) (c_answers c ++ [o]).

(** The goroutine of [MakeNetwork] receives the request. *)
Definition take_call (c : call) rn : option (call * Network) :=
  match c_stage c with
  | Sending => if looping rn then Some (at_stage Taken c, add_count 1 (len (c_args c)) rn) else None
  | _ => None
  end.

(** The other case of the select. *)
Definition call_destroyed (c : call) rn : option call :=
  match c_stage c with
  | Sending => if done_ rn then Some (at_stage Destroyed c) else None
  | _ => None
  end.

(** [processReq] up to the short delay. *)
Definition process_start (c : call) rn : option call :=
  match c_stage c with
  | Taken =>
      match readEndnameInfo (c_end c) rn with
      | (true, Some name, Some server, rel, lr) => Some (at_stage (Delaying (mkInfo name server rel lr)) c)
      | _ => Some (at_stage (Timer None) c)
      end
  | _ => None
  end.

(** Drop the request, or start the handler. *)
Definition process_drop (rnd : Z) (c : call) : option call :=
  match c_stage c with
  | Delaying i =>
      if negb (i_reliable i) && (Z.rem rnd 1000 <? 100) then Some (answer None c)
      else Some (at_runner (Started (i_server i)) (at_stage (Waiting i) c))
  | _ => None
  end.

(** The goroutine of the handler, up to [ech <- r]. *)
Definition run_handler (c : call) rn (w : W) : option (call * Network * W) :=
  match c_runner c with
  | Started server =>
      rs ← heap rn !! server;
      '(rs, w, reply) ← dispatch (c_meth c) (c_args c) rs w;
      Some (ran reply c, set_heap (<[server := rs]> (heap rn)) rn, w)
  | _ => None
  end.

(** One iteration of the wait loop: the handler's result is received, or 100 ms
    have passed (both can be ready, and then either is chosen). *)
Definition process_wait (timeout : bool) (c : call) rn : option call :=
  match c_stage c with
  | Waiting i =>
      if timeout then
        Some (if isServerDead (c_end c) (i_name i) (i_server i) rn then at_stage GaveUp c else c)
      else
        match c_runner c with
        | Returned reply => Some (at_runner Drained (at_stage (Got i reply) c))
        | _ => None
        end
  | _ => None
  end.

(** After the loop. *)
Definition process_finish (rnd1 rnd2 : Z) (c : call) rn : option (call * Network) :=
  match c_stage c with
  | GaveUp => Some (answer None c, rn)
  | Got i reply =>
      if isServerDead (c_end c) (i_name i) (i_server i) rn then Some (answer None c, rn)
      else if negb (i_reliable i) && (Z.rem rnd1 1000 <? 100) then Some (answer None c, rn)
      else if i_longReordering i && (rnd2 <? 600) then Some (at_stage (Timer (Some reply)) c, rn)
      else Some (answer (Some reply) c, add_count 0 (len reply) rn)
  | _ => None
  end.

(** The function of [time.AfterFunc]. *)
Definition fire_timer (c : call) rn : option (call * Network) :=
  match c_stage c with
  | Timer (Some reply) => Some (answer (Some reply) c, add_count 0 (len reply) rn)
  | Timer None => Some (answer None c, rn)
  | _ => None
  end.

(** ** Steps *)

Record state := mkState {
  net : Network;
  calls : list call;
  world : W
}.

Inductive admin :=
  | ACleanup | AExit | AReliable (b : bool) | ALongReordering (b : bool) | ALongDelays (b : bool)
  | AMakeEnd (e : Z) | ANewServer (rs : Server) | AAddServer (n : Z) (s : nat) | ADeleteServer (n : Z)
  | AConnect (e n : Z) | AEnable (e : Z) (b : bool).

Definition run_admin (a : admin) rn : option Network :=
  match a with
  | ACleanup => Cleanup rn
  | AExit => loop_exit rn
  | AReliable b => Some (Reliable b rn)
  | ALongReordering b => Some (LongReordering b rn)
  | ALongDelays b => Some (LongDelays b rn)
  | AMakeEnd e => MakeEnd e rn
  | ANewServer rs => Some (set_heap (heap rn ++ [rs]) rn)
  | AAddServer n s => Some (AddServer n s rn)
  | ADeleteServer n => Some (DeleteServer n rn)
  | AConnect e n => Some (Connect e n rn)
  | AEnable e b => Some (Enable e b rn)
  end.

Inductive action :=
  | DoTake | DoDestroyed | DoStart | DoDrop (rnd : Z) | DoRun | DoWait (timeout : bool)
  | DoFinish (rnd1 rnd2 : Z) | DoTimer.

Definition act (a : action) (c : call) rn (w : W) : option (call * Network * W) :=
  match a with
  | DoTake => '(c, rn) ← take_call c rn; Some (c, rn, w)
  | DoDestroyed => c ← call_destroyed c rn; Some (c, rn, w)
  | DoStart => c ← process_start c rn; Some (c, rn, w)
  | DoDrop rnd => c ← process_drop rnd c; Some (c, rn, w)
  | DoRun => run_handler c rn w
  | DoWait t => c ← process_wait t c rn; Some (c, rn, w)
  | DoFinish r1 r2 => '(c, rn) ← process_finish r1 r2 c rn; Some (c, rn, w)
  | DoTimer => '(c, rn) ← fire_timer c rn; Some (c, rn, w)
  end.

Inductive event :=
  | EAdmin (a : admin)
  | ECall (endname : Z) (meth : string) (args : bytes)
  | EAct (k : nat) (a : action).

(** A call is made on an end of [MakeEnd]. *)
Definition step (ev : event) (s : state) : option state :=
  match ev with
  | EAdmin a => rn ← run_admin a (net s); Some (mkState rn (calls s) (world s))
  | ECall e m args =>
      if decide (e ∈ ends (net s)) then Some (mkState (net s) (calls s ++ [Call e m args]) (world s))
      else None
  | EAct k a =>
      c ← calls s !! k;
      '(c, rn, w) ← act a c (net s) (world s);
      Some (mkState rn (<[k := c]> (calls s)) w)
  end.

Fixpoint run (evs : list event) (s : state) : option state :=
  match evs with
  | [] => Some s
  | ev :: evs => s ← step ev s; run evs s
  end.

(** ** At most once *)

(** The runs and answers a call has had, given where its goroutines are. *)
Definition runner_ok (c : call) : Prop :=
  match c_runner c with
  | NotStarted | Started _ => c_runs c = []
  | Returned reply => c_runs c = [reply]
  | Drained => ∃ reply, c_runs c = [reply]
  end.

Definition stage_ok (c : call) : Prop :=
  match c_stage c with
  | Sending | Taken | Delaying _ | Destroyed | Timer None => c_runner c = NotStarted ∧ c_answers c = []
  | Got _ reply | Timer (Some reply) => c_runner c = Drained ∧ c_runs c = [reply] ∧ c_answers c = []
  | Waiting i => (c_runner c = Started (i_server i) ∨ ∃ reply, c_runner c = Returned reply) ∧ c_answers c = []
  | GaveUp => c_answers c = []
  | Answered => c_answers c = [None] ∨ ∃ reply, c_runner c = Drained ∧ c_answers c = [Some reply] ∧ c_runs c = [reply]
  end.

Definition call_ok (c : call) : Prop := runner_ok c ∧ stage_ok c.

(** Every way the action [a] of [E : act a c rn w = Some _] can go. *)
Ltac invert_act a E :=
  destruct a as [| | |rnd| |t|r1 r2|]; simpl in E;
  unfold take_call, call_destroyed, process_start, process_drop, run_handler, process_wait,
    process_finish, fire_timer in E; simpl in E;
  repeat (case_match; simplify_option_eq);
  repeat match goal with
         | p : _ * _ |- _ => destruct p
         | H : _ ∧ _ |- _ => destruct H
         end;
  simplify_option_eq.

Lemma call_ok_new e m args : call_ok (Call e m args).
Proof. by repeat split. Qed.

Lemma act_ok a c rn w c' rn' w' :
  act a c rn w = Some (c', rn', w') → call_ok c → call_ok c'.
Proof.
  intros E [H1 H2].
  destruct c as [ce cm ca cs cr cruns cans]. unfold runner_ok, stage_ok, call_ok in *. simpl in *.
  invert_act a E; unfold runner_ok, stage_ok; simpl; subst; eauto; try naive_solver.
Qed.

(** What a call adds to the counters of the network. *)
Definition taken (c : call) : Z :=
  match c_stage c with Sending | Destroyed => 0 | _ => 1 end.
Definition answered_bytes (c : call) : Z :=
  foldr (λ o z, match o with Some reply => len reply | None => 0 end + z) 0 (c_answers c).
Definition sent_bytes (c : call) : Z := taken c * len (c_args c) + answered_bytes c.

Definition total (f : call → Z) (l : list call) : Z := foldr (λ c z, f c + z) 0 l.

Lemma total_insert f l k c c' :
  l !! k = Some c → total f (<[k := c']> l) = total f l + f c' - f c.
Proof.
  revert k; induction l as [|d l IH]; intros [|k] Hk; simplify_eq/=; [lia|].
  rewrite (IH _ Hk). lia.
Qed.

Lemma total_snoc f l c : total f (l ++ [c]) = total f l + f c.
Proof. induction l; simpl; lia. Qed.

Lemma to_int32_add a b : to_int32 (to_int32 a + b) = to_int32 (a + b).
Proof.
  unfold to_int32. f_equal.
  replace ((a + 2 ^ 31) `mod` 2 ^ 32 - 2 ^ 31 + b + 2 ^ 31) with ((a + 2 ^ 31) `mod` 2 ^ 32 + b) by lia.
  rewrite Zplus_mod_idemp_l. f_equal. lia.
Qed.

Lemma to_int64_add a b : to_int64 (to_int64 a + b) = to_int64 (a + b).
Proof.
  unfold to_int64. f_equal.
  replace ((a + 2 ^ 63) `mod` 2 ^ 64 - 2 ^ 63 + b + 2 ^ 63) with ((a + 2 ^ 63) `mod` 2 ^ 64 + b) by lia.
  rewrite Zplus_mod_idemp_l. f_equal. lia.
Qed.

(** The counters of [rn] say what the calls add up to. *)
Definition counted (n b : Z) rn : Prop := count rn = to_int32 n ∧ nbytes rn = to_int64 b.

Lemma counted_add n b c d rn : counted n b rn → counted (n + c) (b + d) (add_count c d rn).
Proof. intros [H1 H2]. split; simpl; rewrite ?H1, ?H2; [apply to_int32_add|apply to_int64_add]. Qed.

Lemma counted_admin n b a rn rn' : run_admin a rn = Some rn' → counted n b rn → counted n b rn'.
Proof.
  intros E H. destruct a; simpl in E; unfold Cleanup, loop_exit, MakeEnd in E;
    repeat case_match; by simplify_eq/=.
Qed.

Lemma counted_act n b a c rn w c' rn' w' :
  act a c rn w = Some (c', rn', w') → call_ok c → counted n b rn →
  counted (n + taken c' - taken c) (b + sent_bytes c' - sent_bytes c) rn'.
Proof.
  intros E [_ H2] HC.
  destruct c as [ce cm ca cs cr cruns cans].
  unfold stage_ok, sent_bytes, answered_bytes, taken in *. simpl in *.
  invert_act a E; unfold sent_bytes, answered_bytes, taken; simpl; subst; simpl;
    try (match goal with
         | |- counted ?x ?y (add_count ?c ?d _) =>
             replace x with (n + c) by lia; replace y with (b + d) by lia; by apply counted_add
         | |- counted ?x ?y _ => replace x with n by lia; replace y with b by lia; done
         end).
Qed.

(** The state of the whole network. *)
Definition net_ok (s : state) : Prop :=
  Forall call_ok (calls s) ∧ counted (total taken (calls s)) (total sent_bytes (calls s)) (net s).

Lemma net_ok_step ev s s' : step ev s = Some s' → net_ok s → net_ok s'.
Proof.
  intros E [HF HC]. destruct ev as [a|e m args|k a]; simpl in E.
  - simplify_option_eq. split; [done|]. by eapply counted_admin.
  - simplify_option_eq. split; simpl.
    + apply Forall_app; split; [done|]. constructor; [apply call_ok_new|constructor].
    + rewrite !total_snoc. by rewrite !Z.add_0_r.
  - destruct (calls s !! k) as [c|] eqn:Hk; [|done]. simpl in E.
    destruct (act a c (net s) (world s)) as [[[c' rn'] w']|] eqn:Ha; [|done]. simplify_eq/=.
    assert (call_ok c) by (by eapply Forall_lookup_1).
    split; simpl.
    + apply Forall_insert; [done|]. by eapply act_ok.
    + rewrite !(total_insert _ _ _ _ _ Hk). by eapply counted_act.
Qed.

Lemma net_ok_run evs s s' : run evs s = Some s' → net_ok s → net_ok s'.
Proof.
  revert s; induction evs as [|ev evs IH]; intros s E H; simplify_eq/=; [done|].
  destruct (step ev s) as [s1|] eqn:E1; [|done]. eapply IH; [done|]. by eapply net_ok_step.
Qed.

(** How often the handler of call [k] was run by the events [evs]. *)
Definition is_run (k : nat) (ev : event) : bool :=
  match ev with EAct j DoRun => bool_decide (j = k) | _ => false end.
Definition runs_of (k : nat) (evs : list event) : nat := length (filter (is_run k) evs).
Definition runs_at (k : nat) (s : state) : nat :=
  match calls s !! k with Some c => length (c_runs c) | None => 0%nat end.

Lemma act_runs a c rn w c' rn' w' :
  act a c rn w = Some (c', rn', w') →
  length (c_runs c') = (length (c_runs c) + match a with DoRun => 1 | _ => 0 end)%nat.
Proof.
  intros E. destruct c as [ce cm ca cs cr cruns cans]. invert_act a E; simpl; rewrite ?length_app; simpl; lia.
Qed.

Lemma step_runs k ev s s' :
  step ev s = Some s' → runs_at k s' = (runs_at k s + if is_run k ev then 1 else 0)%nat.
Proof.
  intros E. unfold runs_at. destruct ev as [a|e m args|j a]; simpl in E |- *.
  - simplify_option_eq. lia.
  - simplify_option_eq. destruct (decide (k < length (calls s))%nat).
    + rewrite lookup_app_l by done. lia.
    + rewrite (lookup_ge_None_2 (calls s)) by lia. rewrite lookup_app_r by lia.
      destruct (k - length (calls s))%nat as [|j]; [done|by destruct j].
  - destruct (calls s !! j) as [c|] eqn:Hj; [|done]. simpl in E.
    destruct (act a c (net s) (world s)) as [[[c' rn'] w']|] eqn:Ha; [|done]. simplify_eq/=.
    apply act_runs in Ha. destruct (decide (j = k)) as [->|].
    + rewrite list_lookup_insert_eq by (by eapply lookup_lt_Some). rewrite Hj, Ha.
      destruct a; rewrite ?bool_decide_eq_true_2 by done; lia.
    + rewrite list_lookup_insert_ne by done.
      destruct a; rewrite ?bool_decide_eq_false_2 by done; lia.
Qed.

Lemma run_runs k evs s s' : run evs s = Some s' → runs_at k s' = (runs_at k s + runs_of k evs)%nat.
Proof.
  revert s; induction evs as [|ev evs IH]; intros s E; simplify_eq/=; [unfold runs_of; simpl; lia|].
  destruct (step ev s) as [s1|] eqn:E1; [|done]. rewrite (IH _ E), (step_runs _ _ _ _ E1).
  unfold runs_of. rewrite list.filter_cons. case_decide; destruct (is_run k ev); simpl; done || lia.
Qed.

(** C21: Whatever the network is made to do (lose, delay and reorder messages, crash
    and replace servers, be cleaned up), the handler of a request runs at most once,
    [Call] gets at most one answer, a positive answer carries the result of
    executing this very request, and the statistics ([GetTotalCount],
    [GetTotalBytes]) are those of the requests taken and the replies delivered,
    modulo their width. *)
Theorem at_most_once w evs s :
  run evs (mkState MakeNetwork [] w) = Some s →
  (∀ k c, calls s !! k = Some c →
    (runs_of k evs ≤ 1)%nat ∧ (length (c_answers c) ≤ 1)%nat ∧
    ∀ reply, Some reply ∈ c_answers c → runs_of k evs = 1%nat ∧ c_runs c = [reply]) ∧
  GetTotalCount (net s) = to_int32 (total taken (calls s)) ∧
  GetTotalBytes (net s) = to_int64 (total sent_bytes (calls s)).
Proof.
  intros E. destruct (net_ok_run _ _ _ E) as [HF HC]; [by repeat constructor|].
  split; [|exact HC]. intros k c Hk.
  pose proof (run_runs k _ _ _ E) as HR. unfold runs_at in HR. rewrite Hk in HR. simpl in HR.
  destruct (Forall_lookup_1 _ _ _ _ HF Hk) as [H1 H2]. rewrite <- HR.
  split_and!.
  - unfold runner_ok in H1. case_match; try (rewrite H1; simpl; lia). destruct H1 as [? ->]. simpl; lia.
  - unfold stage_ok in H2. repeat case_match; destruct_and?;
      try (destruct H2 as [H2|(?&?&H2&?)]);
      match goal with H : c_answers _ = _ |- _ => rewrite H end; simpl; lia.
  - intros reply Hin. unfold stage_ok in H2.
    repeat case_match; destruct_and?; try (destruct H2 as [H2|(?&?&H2&H3)]);
      repeat match goal with
             | H : c_answers _ = _ |- _ => rewrite H in Hin
             | H : c_runs _ = _ |- _ => rewrite H
             end; set_solver.
Qed.

(** ** Deleted servers *)














(** ** Calls return *)

Fixpoint acts_run (acts : list action) (c : call) rn (w : W) : option (call * Network * W) :=
  match acts with
  | [] => Some (c, rn, w)
  | a :: acts => '(c, rn, w) ← act a c rn w; acts_run acts c rn w
  end.

Lemma run_acts k acts s c c' rn' w' :
  calls s !! k = Some c → acts_run acts c (net s) (world s) = Some (c', rn', w') →
  run (EAct k <$> acts) s = Some (mkState rn' (<[k := c']> (calls s)) w').
Proof.
  revert s c; induction acts as [|a acts IH]; intros s c Hk E; simplify_eq/=.
  - rewrite list_insert_id by done. by destruct s.
  - rewrite Hk. simpl. destruct (act a c (net s) (world s)) as [[[c1 rn1] w1]|]; [|done]. simpl in E |- *.
    assert (k < length (calls s))%nat by (by eapply lookup_lt_Some).
    rewrite (IH (mkState rn1 (<[k := c1]> (calls s)) w1) c1); simpl; [|by rewrite list_lookup_insert_eq|done].
    by rewrite list_insert_insert_eq.
Qed.

Definition finished (c : call) : Prop := c_stage c = Answered ∨ c_stage c = Destroyed.

(** At most [n] actions of its goroutines finish the call. *)
Definition finishes (n : nat) (c : call) rn (w : W) : Prop :=
  ∃ acts c' rn' w', (length acts ≤ n)%nat ∧ acts_run acts c rn w = Some (c', rn', w') ∧ finished c'.

Lemma finishes_now n c rn w : finished c → finishes n c rn w.
Proof. intros H. exists [], c, rn, w. simpl. split; [lia|done]. Qed.

Lemma finishes_act a n c rn w c1 rn1 w1 :
  act a c rn w = Some (c1, rn1, w1) → finishes n c1 rn1 w1 → finishes (S n) c rn w.
Proof.
  intros E (acts & c' & rn' & w' & Hn & E' & HF). exists (a :: acts), c', rn', w'.
  simpl. rewrite E. split; [lia|done].
Qed.

Lemma finishes_timer n o c rn w : c_stage c = Timer o → finishes (S n) c rn w.
Proof.
  intros H. destruct o as [reply|];
    (eapply (finishes_act DoTimer); [simpl; unfold fire_timer; by rewrite H|]); by apply finishes_now; left.
Qed.

Lemma finishes_got n i reply c rn w : c_stage c = Got i reply → finishes (S n) c rn w.
Proof.
  intros H. destruct (process_finish 999 600 c rn) as [[c1 rn1]|] eqn:E.
  - eapply (finishes_act (DoFinish 999 600)); [simpl; by rewrite E|].
    unfold process_finish in E. rewrite H in E. change (600 <? 600) with false in E. rewrite !andb_false_r in E.
    apply finishes_now. left. repeat case_match; by simplify_eq.
  - unfold process_finish in E. rewrite H in E. repeat case_match; done.
Qed.

Lemma finishes_returned n i reply c rn w :
  c_stage c = Waiting i → c_runner c = Returned reply → finishes (S (S n)) c rn w.
Proof.
  intros H1 H2. eapply (finishes_act (DoWait false)); [simpl; unfold process_wait; by rewrite H1, H2|].
  by eapply finishes_got.
Qed.

(** The handler of the request returns on server [a]. *)
Definition handles (meth : string) (args : bytes) rn (a : nat) : Prop :=
  ∃ rs, heap rn !! a = Some rs ∧ ∀ w, is_Some (dispatch meth args rs w).

Lemma finishes_started n i a c rn w :
  c_stage c = Waiting i → c_runner c = Started a → handles (c_meth c) (c_args c) rn a →
  finishes (S (S (S n))) c rn w.
Proof.
  intros H1 H2 (rs & Hrs & Hd). destruct (Hd w) as [[[rs' w'] reply] Hdisp].
  eapply (finishes_act DoRun); [simpl; unfold run_handler; rewrite H2, Hrs; simpl; by rewrite Hdisp|].
  by eapply finishes_returned.
Qed.

Lemma finishes_delaying n i c rn w :
  c_stage c = Delaying i → handles (c_meth c) (c_args c) rn (i_server i) → finishes (S (S (S (S n)))) c rn w.
Proof.
  intros H1 H2. eapply (finishes_act (DoDrop 999)).
  { simpl. unfold process_drop. rewrite H1. change (Z.rem 999 1000 <? 100) with false.
    rewrite andb_false_r. done. }
  by eapply finishes_started.
Qed.

Lemma finishes_taken n c rn w :
  c_stage c = Taken → (∀ m a, server_of m rn = Some a → handles (c_meth c) (c_args c) rn a) →
  finishes (S (S (S (S (S n))))) c rn w.
Proof.
  intros H1 H2. destruct (process_start c rn) as [c1|] eqn:E.
  - eapply (finishes_act DoStart); [simpl; by rewrite E|].
    unfold process_start, readEndnameInfo in E. rewrite H1 in E.
    destruct (mjoin (connections rn !! c_end c)) as [m|] eqn:Hm; simpl in E;
      [destruct (server_of m rn) as [a|] eqn:Ha|]; destruct (end_enabled (c_end c) rn); simplify_eq;
      try (by eapply finishes_timer).
    eapply finishes_delaying; [done|]. by eapply H2.
  - unfold process_start in E. rewrite H1 in E. repeat case_match; done.
Qed.

(** The goroutine that takes requests ends only after [Cleanup]. *)
Lemma run_loop evs s s' :
  run evs s = Some s' → looping (net s) = true ∨ done_ (net s) = true →
  looping (net s') = true ∨ done_ (net s') = true.
Proof.
  revert s; induction evs as [|ev evs IH]; intros s E H; simplify_eq/=; [done|].
  destruct (step ev s) as [s1|] eqn:E1; [|done]. apply (IH s1 E). clear IH E.
  destruct ev as [a|e m args|k a]; simpl in E1; [simplify_option_eq|by simplify_option_eq|].
  - destruct a; simpl in *; unfold Cleanup, loop_exit, MakeEnd in *; repeat case_match; simplify_eq/=; auto.
  - destruct (calls s !! k) as [c|]; [|done]. simpl in E1.
    destruct (act a c (net s) (world s)) as [[[c' rn'] w']|] eqn:Ha; [|done]. simplify_eq/=.
    destruct c as [ce cm ca cs cr cruns cans]. invert_act a Ha; auto.
Qed.

(** C23: [Call] returns unless its handler does not: in every reachable state, at
    most six actions of a call's own goroutines end it, provided the servers it can
    be sent to (and the one it was sent to) know its method. *)
Theorem call_returns w evs s k c :
  run evs (mkState MakeNetwork [] w) = Some s → calls s !! k = Some c →
  (∀ m a, server_of m (net s) = Some a ∨ c_runner c = Started a ∨ (∃ i, c_stage c = Delaying i ∧ i_server i = a) →
    handles (c_meth c) (c_args c) (net s) a) →
  ∃ acts s' c', (length acts ≤ 6)%nat ∧ run (EAct k <$> acts) s = Some s' ∧
    calls s' !! k = Some c' ∧ finished c'.
Proof.
  intros E Hk HH.
  assert (HF : finishes 6 c (net s) (world s)).
  { destruct (net_ok_run _ _ _ E) as [HF _]; [by repeat constructor|].
    destruct (Forall_lookup_1 _ _ _ _ HF Hk) as [_ HS].
    pose proof (run_loop _ _ _ E (or_introl eq_refl)) as HL.
    unfold stage_ok in HS. destruct (c_stage c) as [| |i|i|i reply| |o| |] eqn:Hst.
    - destruct (looping (net s)) eqn:Hloop.
      + eapply (finishes_act DoTake); [simpl; unfold take_call; by rewrite Hst, Hloop|].
        apply finishes_taken; [done|]. intros m a Ha. apply (HH m a). by left.
      + eapply (finishes_act DoDestroyed).
        * simpl. unfold call_destroyed. rewrite Hst. destruct HL as [|HL]; [done|]. by rewrite HL.
        * by apply finishes_now; right.
    - apply finishes_taken; [done|]. intros m a Ha. apply (HH m a). by left.
    - eapply finishes_delaying; [done|]. apply (HH 0). eauto.
    - destruct HS as [[HS|[reply HS]] _]; [|by eapply finishes_returned].
      eapply finishes_started; [done..|]. apply (HH 0). eauto.
    - by eapply finishes_got.
    - eapply (finishes_act (DoFinish 0 0)); [simpl; unfold process_finish; by rewrite Hst|].
      by apply finishes_now; left.
    - by eapply finishes_timer.
    - by apply finishes_now; left.
    - by apply finishes_now; right. }
  destruct HF as (acts & c' & rn' & w' & Hn & Hr & Hfin).
  exists acts, (mkState rn' (<[k := c']> (calls s)) w'), c'. split_and!; [done| | |done].
  - by eapply run_acts.
  - simpl. apply list_lookup_insert_eq. by eapply lookup_lt_Some.
Qed.

(** On a reliable network without reordering, a call to a registered server
    over an enabled connection is executed once and answered with the handler's
    result, whatever the random numbers, and is counted by the server. *)
Theorem reliable_call_answered s k e m args n a rs sname mname svc f rnd r1 r2 :
  let s' := run (EAct k <$> [DoTake; DoStart; DoDrop rnd; DoRun; DoWait false; DoFinish r1 r2]) s in
  calls s !! k = Some (Call e m args) →
  looping (net s) = true → readEndnameInfo e (net s) = (true, Some n, Some a, true, false) →
  heap (net s) !! a = Some rs →
  split_method m = Some (sname, mname) → services rs !! sname = Some svc → sv_methods svc !! mname = Some f →
  ∃ rn', s' = Some (mkState rn' (<[k := mkCall e m args Answered Drained [(f args (world s)).2] [Some (f args (world s)).2]]> (calls s))
                      (f args (world s)).1) ∧
    GetCount n rn' = Some (to_int64 (sv_count rs + 1)).
Proof.
  intros s' Hk HL HI Hrs Hsp Hsv Hf. unfold s'. destruct (f args (world s)) as [w' reply] eqn:Ef.
  assert (He : end_enabled e (net s) = true) by (unfold readEndnameInfo in HI; congruence).
  assert (HA : server_of n (net s) = Some a).
  { unfold readEndnameInfo in HI. destruct (mjoin (connections (net s) !! e)); simplify_eq/=. congruence. }
  eexists. split.
  - eapply run_acts; [exact Hk|]. simpl. unfold take_call. simpl. rewrite HL. simpl.
    assert (Hps : process_start (at_stage Taken (Call e m args)) (add_count 1 (len args) (net s)) =
                  Some (at_stage (Delaying (mkInfo n a true false)) (Call e m args))).
    { unfold process_start. cbn [c_stage at_stage c_end Call].
      change (readEndnameInfo e _) with (readEndnameInfo e (net s)). by rewrite HI. }
    rewrite Hps. simpl. unfold run_handler. simpl. rewrite Hrs. simpl. unfold dispatch. rewrite Hsp. simpl.
    rewrite Hsv. simpl. unfold dispatch_service. rewrite Hf. simpl. rewrite Ef. simpl.
    unfold process_finish. simpl. unfold isServerDead.
    rewrite (bool_decide_eq_false_2 _) by (intros HN; by apply HN).
    change (end_enabled e _) with (end_enabled e (net s)). rewrite He. simpl. done.
  - unfold GetCount. simpl. unfold server_of in HA. rewrite HA. simpl.
    rewrite list_lookup_insert_eq by (by eapply lookup_lt_Some). done.
Qed.

End labrpc.

#[global] Arguments Service : clear implicits.
#[global] Arguments Method : clear implicits.
#[global] Arguments Server : clear implicits.
#[global] Arguments Network : clear implicits.
#[global] Arguments state : clear implicits.
#[global] Arguments event : clear implicits.

(** ** A counter behind the network *)
Module Counter.

(** [Inc] adds one and echoes its argument. *)
Definition inc (args : bytes) (w : Z) : Z * bytes := (w + 1, args).
Definition counter : Service Z := MakeService "Counter" [mkMethod "Inc" "" [Ptr; OtherKind; Ptr] 0 inc].
Definition srv : Server Z := AddService counter MakeServer.

(** End 1 is connected to server 7. *)
Definition setup : list (event Z) :=
  [EAdmin (AMakeEnd 1); EAdmin (ANewServer srv); EAdmin (AAddServer 7 0); EAdmin (AConnect 1 7);
   EAdmin (AEnable 1 true); ECall 1 "Counter.Inc" [x2a]].
Definition init : state Z := mkState MakeNetwork [] 0.
Definition start : option (state Z) := run setup init.

Definition deliver : list (event Z) :=
  EAct 0 <$> [DoTake; DoStart; DoDrop 0; DoRun; DoWait false; DoFinish 0 0].


Definition get {A} (d : A) (o : option A) : A := default d o.
Definition started : state Z := get init start.

Definition delivered : state Z := get init (run (setup ++ deliver) init).
Definition delivered_call : call := mkCall 1 "Counter.Inc" [x2a] Answered Drained [[x2a]] [Some [x2a]].

Lemma at_most_once_witness :
  calls delivered !! 0%nat = Some delivered_call ∧ runs_of 0 (setup ++ deliver) = 1%nat ∧
  world delivered = 1 ∧ GetTotalBytes (net delivered) = to_int64 (total sent_bytes (calls delivered)).
Proof.
  assert (E : run (setup ++ deliver) init = Some delivered) by (vm_compute; reflexivity).
  assert (Hk : calls delivered !! 0%nat = Some delivered_call) by (vm_compute; reflexivity).
  destruct (at_most_once 0 _ _ E) as (HC & _ & HB).
  destruct (HC _ _ Hk) as (_ & _ & HR).
  split; [exact Hk|]. split; [|split; [vm_compute; reflexivity|exact HB]].
  apply (HR [x2a]). apply list_elem_of_here.
Defined.



Lemma call_returns_witness :
  ∃ acts s' c', (length acts ≤ 6)%nat ∧ run (EAct 0 <$> acts) started = Some s' ∧
    calls s' !! 0%nat = Some c' ∧ finished c'.
Proof.
  apply (call_returns 0 setup started 0 (Call 1 "Counter.Inc" [x2a])); [vm_compute; reflexivity..|].
  intros m a [Ha|[Ha|(i & Ha & _)]]; [|discriminate..].
  assert (a = 0%nat) as ->.
  { unfold server_of in Ha. change (servers (net started)) with (<[7 := Some 0%nat]> (∅ : gmap Z (option nat))) in Ha.
    destruct (decide (m = 7)) as [->|].
    - rewrite lookup_insert_eq in Ha. by simplify_eq/=.
    - rewrite lookup_insert_ne in Ha by done. by rewrite lookup_empty in Ha. }
  exists srv. split; [vm_compute; reflexivity|]. intros w. vm_compute. by eexists.
Defined.

Lemma reliable_call_witness :
  ∃ s' c', run deliver started = Some s' ∧ calls s' !! 0%nat = Some c' ∧
    c_answers c' = [Some [x2a]] ∧ GetCount 7 (net s') = Some 1.
Proof.
  destruct (reliable_call_answered started 0 1 "Counter.Inc" [x2a] 7 0 srv "Counter" "Inc" counter inc 0 0 0)
    as (rn' & E & HG); [vm_compute; reflexivity..|].
  eexists _, _. split; [exact E|]. split; [reflexivity|]. split; [reflexivity|exact HG].
Defined.

End Counter.
End LR.
