(* ===== verification/Harness.v ===== *)
(** The wiring of the test harnesses: the ends by which the servers of a test reach
    each other on the simulated network, as the [config.go] of [raft], [kvraft],
    [shardctrler] and [shardkv] keep and switch them.

    [endnames[i][j]] is the end with which server [i] calls server [j].  [wired] says
    that it has an end of its own for every pair of servers, and the lemmas say what
    enabling, disabling and renewing ends does to [linked], which is all a test sees
    of its partitions. *)

From S2P Require Import Prelude Labrpc.

#[local] Open Scope Z_scope.

(** [for j := 0; j < len(l); j++ { body(l[j]) }], where [body] may panic. *)
Definition for_list {A S : Type} (l : list A) (body : A → S → option S) (s : S) : option S :=
  for_range (len l) (λ j s, x ← slice_get l j; body x s) s.

(** Two loops whose bodies agree as long as [P] holds. *)
Lemma for_range_ext {S : Type} (P : S → Prop) n (f g : Z → S → option S) s :
  P s → (∀ i s, 0 ≤ i < n → P s → f i s = g i s ∧ ∀ s', g i s = Some s' → P s') →
  for_range n f s = for_range n g s.
Proof.
  intros Hs H. unfold for_range.
  assert (∀ js o, (∀ j, j ∈ js → 0 ≤ j < n) → (∀ s, o = Some s → P s) →
    foldl (λ o i, o ≫= f i) o js = foldl (λ o i, o ≫= g i) o js) as E.
  { induction js as [|j js IH]; intros o Hj Ho; simpl; [done|].
    assert (o ≫= f j = o ≫= g j) as -> by (destruct o; [|done]; apply H; [set_solver|by apply Ho]).
    apply IH; [set_solver|]. intros s' (s1 & -> & E')%bind_Some. eapply H; [|by apply Ho|done]. set_solver. }
  apply E; [|by intros s' [= <-]]. intros j ?%elem_of_seqZ. lia.
Qed.

Section for_list.
Context {A S : Type}.
Implicit Types (l : list A) (s : S).

Lemma for_list_nil (body : A → S → option S) s : for_list [] body s = Some s.
Proof. done. Qed.

Lemma for_list_snoc l x (body : A → S → option S) s :
  for_list (l ++ [x]) body s = for_list l body s ≫= body x.
Proof.
  unfold for_list. rewrite len_app. change (len [x]) with 1.
  rewrite for_range_step by apply len_nonneg.
  assert (∀ o, foldl (λ o j, o ≫= λ s, x ← slice_get (l ++ [x]) j; body x s) o (seqZ 0 (len l)) =
    foldl (λ o j, o ≫= λ s, x ← slice_get l j; body x s) o (seqZ 0 (len l))) as E.
  { assert (∀ js, (∀ j, j ∈ js → 0 ≤ j < len l) → ∀ o,
      foldl (λ o j, o ≫= λ s, x ← slice_get (l ++ [x]) j; body x s) o js =
      foldl (λ o j, o ≫= λ s, x ← slice_get l j; body x s) o js) as H.
    { induction js as [|j js IH]; intros Hj o; simpl; [done|]. rewrite IH by set_solver. f_equal.
      destruct o; simpl; [|done]. unfold slice_get. case_decide; [|done].
      destruct (Hj j) as [? Hlt]; [set_solver|]. unfold len in Hlt. by rewrite lookup_app_l by lia. }
    apply H. intros j ?%elem_of_seqZ. lia. }
  unfold for_range. rewrite E. f_equal. unfold slice_get. rewrite decide_True by apply len_nonneg.
  unfold len. by rewrite Nat2Z.id, lookup_app_r, Nat.sub_diag by lia.
Qed.

(** A loop that applies a function to every element it can. *)
Lemma for_list_foldl l (body : A → S → option S) (f : S → A → S) (P : S → Prop) s :
  P s → (∀ x s, x ∈ l → P s → body x s = Some (f s x) ∧ P (f s x)) →
  for_list l body s = Some (foldl f s l) ∧ P (foldl f s l).
Proof.
  intros Hs Hb. induction l as [|x l IH] using rev_ind; [done|].
  rewrite for_list_snoc, foldl_app. destruct IH as [-> HP]; [intros y ? ? ?; apply Hb; set_solver|]. simpl.
  apply Hb; [set_solver|done].
Qed.
End for_list.

Module WR.
Section wires.
Context {W : Type}.
Abbreviation Network := (LR.Network W).
Implicit Types (rn : Network) (es : list (option (list Z))) (i j e N : Z).

(** ** Ends *)

(** [endnames[i][j]]; [endnames[i]] is nil before the server is started. *)
Definition endname es i j : option Z :=
  row ← slice_get es i; names ← row; slice_get names j.

(** The calls of [i] reach [j]. *)
Definition linked es rn i j : bool :=
  match endname es i j with Some e => LR.end_enabled e rn | None => false end.

(** [ends[j] = net.MakeEnd(names[j]); net.Connect(names[j], target(j))] *)
Definition make_ends (names : list Z) (target : Z → Z) rn : option Network :=
  for_range (len names) (λ j rn,
    e ← slice_get names j;
    rn ← LR.MakeEnd e rn;
    Some (LR.Connect e (target j) rn)) rn.

Definition enables (ops : list (Z * bool)) rn : Network :=
  foldl (λ rn x, LR.Enable x.1 x.2 rn) rn ops.

Lemma enables_app ops1 ops2 rn : enables (ops1 ++ ops2) rn = enables ops2 (enables ops1 rn).
Proof. apply foldl_app. Qed.

Lemma enables_ends ops rn : LR.ends (enables ops rn) = LR.ends rn.
Proof. revert rn. induction ops as [|x ops IH]; intros rn; simpl; [done|]. by rewrite IH. Qed.

Lemma enables_servers ops rn : LR.servers (enables ops rn) = LR.servers rn.
Proof. revert rn. induction ops as [|x ops IH]; intros rn; simpl; [done|]. by rewrite IH. Qed.

Lemma enabled_Enable e e' b rn :
  LR.end_enabled e (LR.Enable e' b rn) = if decide (e = e') then b else LR.end_enabled e rn.
Proof.
  unfold LR.end_enabled. simpl. case_decide; subst; [by rewrite lookup_insert_eq|by rewrite lookup_insert_ne].
Qed.

Lemma enables_other e ops rn :
  (∀ b, (e, b) ∉ ops) → LR.end_enabled e (enables ops rn) = LR.end_enabled e rn.
Proof.
  revert rn. induction ops as [|[e' b'] ops IH]; intros rn H; simpl; [done|].
  rewrite IH, enabled_Enable; [|set_solver]. rewrite decide_False; [done|]. intros ->. apply (H b'). set_solver.
Qed.

(** An end that is only switched one way. *)
Lemma enables_all e b ops rn :
  (∀ b', (e, b') ∈ ops → b' = b) → (e, b) ∈ ops → LR.end_enabled e (enables ops rn) = b.
Proof.
  induction ops as [|[e' b'] ops IH] using rev_ind; intros Hb Hin; [set_solver|].
  rewrite enables_app. simpl. rewrite enabled_Enable. case_decide as He.
  - apply Hb. set_solver.
  - apply IH; [intros b'' ?; apply Hb; set_solver|]. set_solver.
Qed.

(** ** The invariant *)

Record wired N es rn : Prop := {
  wi_len : len es = N;
  wi_row : ∀ i names, slice_get es i = Some (Some names) → len names = N;
  wi_inj : ∀ i j i' j' e, endname es i j = Some e → endname es i' j' = Some e → i = i' ∧ j = j';
  wi_known : ∀ i j e, endname es i j = Some e → e ∈ LR.ends rn
}.

(** Every server has been started. *)
Definition full N es : Prop := ∀ i, 0 ≤ i < N → ∃ names, slice_get es i = Some (Some names).

Lemma endname_Some N es rn i j :
  wired N es rn → full N es → 0 ≤ i < N → 0 ≤ j < N → ∃ e, endname es i j = Some e.
Proof.
  intros Hw Hf Hi Hj. destruct (Hf i Hi) as [names Hn]. unfold endname. rewrite Hn. simpl.
  apply slice_get_is_Some. by rewrite (wi_row _ _ _ Hw i names Hn).
Qed.

Lemma endname_range N es rn i j e : wired N es rn → endname es i j = Some e → 0 ≤ i < N ∧ 0 ≤ j < N.
Proof.
  intros Hw He. unfold endname in He. apply bind_Some in He as (row & Hr & He). apply bind_Some in He as (names & -> & He).
  rewrite <-(wi_len _ _ _ Hw) at 1. rewrite <-(wi_row _ _ _ Hw i names Hr).
  split; apply slice_get_is_Some; eauto.
Qed.

Lemma wired_enables N es rn ops : wired N es rn → wired N es (enables ops rn).
Proof. intros [? ? ? Hk]. split; [done..|]. intros i j e He. rewrite enables_ends. eauto. Qed.

Lemma wired_Enable N es rn e b : wired N es rn → wired N es (LR.Enable e b rn).
Proof. by intros [? ? ? ?]. Qed.

Lemma linked_Enable N es rn i j e b a c :
  wired N es rn → endname es i j = Some e →
  linked es (LR.Enable e b rn) a c = if decide (a = i ∧ c = j) then b else linked es rn a c.
Proof.
  intros Hw He. unfold linked. destruct (endname es a c) as [e'|] eqn:He'.
  - rewrite enabled_Enable. repeat case_decide; subst; try done.
    + destruct (wi_inj _ _ _ Hw a c i j e He' He). tauto.
    + naive_solver.
  - case_decide; [naive_solver|done].
Qed.

(** What switching the ends of pairs of servers does. *)
Definition pair_ops es (ps : list (Z * Z)) (b : bool) : list (Z * bool) :=
  omap (λ p, e ← endname es p.1 p.2; Some (e, b)) ps.

Lemma pair_ops_in es ps b i j e b' N rn :
  wired N es rn → endname es i j = Some e → (e, b') ∈ pair_ops es ps b ↔ (i, j) ∈ ps ∧ b' = b.
Proof.
  intros Hw He. unfold pair_ops. rewrite list_elem_of_omap. split.
  - intros ([i' j'] & Hin & H). apply bind_Some in H as (e' & He' & [= -> ->]).
    destruct (wi_inj _ _ _ Hw i j i' j' e He He') as [-> ->]. done.
  - intros [Hin ->]. exists (i, j). split; [done|]. simpl. by rewrite He.
Qed.

Lemma linked_enables N es rn ps b i j :
  wired N es rn → is_Some (endname es i j) →
  linked es (enables (pair_ops es ps b) rn) i j = if decide ((i, j) ∈ ps) then b else linked es rn i j.
Proof.
  intros Hw [e He]. unfold linked. rewrite He. case_decide as Hin.
  - apply enables_all; [|by apply (pair_ops_in es ps b i j e b N rn)]. intros b' Hb. by eapply pair_ops_in in Hb as [_ ?].
  - apply enables_other. intros b' Hb. by eapply pair_ops_in in Hb as [? _].
Qed.

(** ** New ends *)

(** What [make_ends] has done when it has made the ends [names]. *)
Record made (names : list Z) (target : Z → Z) rn rn' : Prop := {
  md_ends : LR.ends rn' = list_to_set names ∪ LR.ends rn;
  md_servers : LR.servers rn' = LR.servers rn;
  md_heap : LR.heap rn' = LR.heap rn;
  md_off : ∀ e, e ∈ names → LR.end_enabled e rn' = false;
  md_old : ∀ e, e ∉ names → LR.end_enabled e rn' = LR.end_enabled e rn ∧
             LR.connections rn' !! e = LR.connections rn !! e;
  md_conn : ∀ j e, slice_get names j = Some e → LR.connections rn' !! e = Some (Some (target j))
}.

Lemma take_slice (l : list Z) i e :
  slice_get l i = Some e → take (Z.to_nat (i + 1)) l = take (Z.to_nat i) l ++ [e].
Proof.
  intros [H0 He]%slice_get_Some. rewrite Z2Nat.inj_add, Nat.add_1_r by lia. by apply take_S_r.
Qed.

Lemma make_ends_spec (names : list Z) (target : Z → Z) rn :
  NoDup names → (∀ e, e ∈ names → e ∉ LR.ends rn) →
  ∃ rn', make_ends names target rn = Some rn' ∧ made names target rn rn'.
Proof.
  intros Hnd Hfr. unfold make_ends.
  destruct (for_range_inv (len names) (λ j rn, e ← slice_get names j; rn ← LR.MakeEnd e rn;
    Some (LR.Connect e (target j) rn)) (λ i rn', made (take (Z.to_nat i) names) target rn rn') rn)
    as (rn' & E & HM); [apply len_nonneg| | |exists rn'; split; [exact E|]].
  - simpl. split; simpl; try done; [set_solver|set_solver|]. intros j e [_ He]%slice_get_Some. done.
  - intros i rn1 Hi [He Hs Hh Hoff Hold Hc].
    destruct (proj2 (slice_get_is_Some names i) Hi) as [e Hei]. rewrite Hei. cbn [mbind option_bind].
    pose proof (take_slice _ _ _ Hei) as Ht. pose proof (proj1 (slice_get_Some _ _ _) Hei) as [_ Hl].
    assert (e ∉ take (Z.to_nat i) names) as Hnew.
    { intros [k Hk]%list_elem_of_lookup. apply lookup_take_Some in Hk as [Hk Hlt].
      pose proof (NoDup_lookup _ _ _ _ Hnd Hk Hl). lia. }
    unfold LR.MakeEnd. rewrite decide_False.
    2:{ rewrite He, elem_of_union, elem_of_list_to_set. intros [?|?]; [done|].
        apply (Hfr e); [by eapply list_elem_of_lookup_2|done]. }
    cbn [mbind option_bind]. eexists. split; [done|]. rewrite Ht. split; simpl; [|done|done|..].
    + rewrite He, list_to_set_app_L. set_solver.
    + intros x [Hx| ->%list_elem_of_singleton]%elem_of_app; unfold LR.end_enabled; simpl.
      * rewrite lookup_insert_ne; [by apply Hoff|]. by intros ->.
      * by rewrite lookup_insert_eq.
    + intros x [Hx Hne]%not_elem_of_app. apply not_elem_of_cons in Hne as [Hne _].
      unfold LR.end_enabled. simpl. rewrite !lookup_insert_ne by done. by apply Hold.
    + intros j x [H0 Hj]%slice_get_Some. destruct (decide (x = e)) as [->|Hne].
      * rewrite lookup_insert_eq. do 3 f_equal.
        rewrite <-Ht in Hj. apply lookup_take_Some in Hj as [Hj _]. pose proof (NoDup_lookup _ _ _ _ Hnd Hj Hl). lia.
      * rewrite !lookup_insert_ne by done. apply Hc. apply slice_get_Some. split; [done|].
        apply lookup_app_Some in Hj as [?|[_ [_ Hx]%list_lookup_singleton_Some]]; [done|congruence].
  - unfold len in HM. by rewrite Nat2Z.id, firstn_all in HM.
Qed.

(** [MakeEnd] refuses a name that is taken. *)
Lemma make_ends_inv (names : list Z) (target : Z → Z) rn rn' :
  make_ends names target rn = Some rn' → NoDup names ∧ ∀ e, e ∈ names → e ∉ LR.ends rn.
Proof.
  intros E. pose proof (for_range_post _ _ (λ i rn', let done := take (Z.to_nat i) names in
    NoDup done ∧ (∀ e, e ∈ done → e ∉ LR.ends rn) ∧ LR.ends rn' = list_to_set done ∪ LR.ends rn) _ _ E) as HP.
  cbv beta zeta in HP. rewrite Z.max_r in HP by apply len_nonneg. unfold len in HP. rewrite Nat2Z.id, firstn_all in HP.
  destruct HP as (Hnd & Hfr & _); [|..|done].
  - simpl. split_and!; [constructor|set_solver|set_solver].
  - intros i r1 r2 Hi (Hnd & Hfr & He) (e & Hei & (r & Hr & [= <-])%bind_Some)%bind_Some.
    unfold LR.MakeEnd in Hr. case_decide as Hin; simplify_eq. rewrite He in Hin.
    rewrite (take_slice _ _ _ Hei). split_and!.
    + apply list.NoDup_app. split_and!; [done|set_solver|apply NoDup_singleton].
    + intros x [?|?]%elem_of_app; set_solver.
    + simpl. rewrite He, list_to_set_app_L. set_solver.
Qed.

(** [endnames[i]] is replaced by fresh names. *)
Lemma endname_renew es i names es' a b :
  slice_set es i (Some names) = Some es' →
  endname es' a b = if decide (i = a) then slice_get names b else endname es a b.
Proof. intros E. unfold endname. rewrite (slice_get_set _ _ _ _ _ E). by case_decide. Qed.

Lemma wired_renew N es rn i names es' target rn' :
  wired N es rn → slice_set es i (Some names) = Some es' → len names = N → NoDup names →
  (∀ e, e ∈ names → e ∉ LR.ends rn) → made names target rn rn' → wired N es' rn'.
Proof.
  intros [Hl Hr Hi Hk] E Hn Hnd Hfr HM.
  assert (Hin : ∀ b e, slice_get names b = Some e → e ∈ names).
  { intros b e [_ He]%slice_get_Some. by eapply list_elem_of_lookup_2. }
  split.
  - by rewrite (slice_set_len _ _ _ _ E).
  - intros a names'. rewrite (slice_get_set _ _ _ _ _ E). case_decide; [by intros [= <-]|apply Hr].
  - intros a b a' b' e. rewrite !(endname_renew _ _ _ _ _ _ E). repeat case_decide; subst; [| | |by apply Hi].
    + intros [? H1]%slice_get_Some [? H2]%slice_get_Some. pose proof (NoDup_lookup _ _ _ _ Hnd H1 H2). split; [done|lia].
    + intros ?%Hin ?%Hk. by destruct (Hfr e).
    + intros ?%Hk ?%Hin. by destruct (Hfr e).
  - intros a b e. rewrite (endname_renew _ _ _ _ _ _ E), (md_ends _ _ _ _ HM), elem_of_union, elem_of_list_to_set.
    case_decide; [intros ?%Hin; by left|intros ?%Hk; by right].
Qed.

(** The new ends are switched off; the others are as they were. *)
Lemma linked_renew N es rn i names es' target rn' a b :
  wired N es rn → slice_set es i (Some names) = Some es' → (∀ e, e ∈ names → e ∉ LR.ends rn) →
  made names target rn rn' → linked es' rn' a b = if decide (i = a) then false else linked es rn a b.
Proof.
  intros Hw E Hfr HM. unfold linked. rewrite (endname_renew _ _ _ _ _ _ E). case_decide as Hi.
  - destruct (slice_get names b) as [e|] eqn:He; [|done]. apply (md_off _ _ _ _ HM).
    apply slice_get_Some in He as [_ He]. by eapply list_elem_of_lookup_2.
  - destruct (endname es a b) as [e|] eqn:He; [|done]. apply (md_old _ _ _ _ HM). intros Hin.
    apply (Hfr e Hin). by eapply wi_known.
Qed.
End wires.
End WR.
