(* ===== verification/ServiceHarness.v ===== *)
(** The test harnesses of [kvraft] and [shardctrler]: [src/src/kvraft/config.go] and
    [src/src/shardctrler/config.go].

    A [config] holds the simulated network, the servers, their persisters and the
    ends of servers and clerks.  Pointers are shared: a server keeps writing to the
    persister it was started with, so [saved[i]] is an address in [persisters], and a
    clerk is the address it is known by in [clerks].  [None] is a panic or
    [log.Fatal]; the strings of [randstring] are arguments.  The server under test is
    an instance of [TestedServer].  The two files are the same program up to the
    server they start and to [Leader]; the definitions that follow the text of
    [kvraft/config.go] are instantiated for [shardctrler] at the end. *)

From S2P Require Import Prelude Gob RaftLog Raft Labrpc Harness.
Import WR.

#[local] Open Scope Z_scope.

(** What the harness needs of a server: [StartKVServer] or [StartServer], [Kill],
    [rf.GetState] and the services [labrpc.MakeService] finds in it and in its Raft
    peer. *)
Class TestedServer (W Cmd SB S : Type) := {
  ts_start : Z → Z → PS.Persister Cmd SB → option S;
  ts_Kill : S → S;
  ts_GetState : S → Z * bool;
  ts_services : S → list (LR.Service W)
}.
#[global] Hint Mode TestedServer - - - ! : typeclass_instances.

Module SH.

(** [random_handles]: [draws i] is [rand.Intn(i + 1)]. *)
Definition random_handles {A} (draws : Z → Z) (kvh : list A) : option (list A) :=
  for_range (len kvh) (λ i sa,
    let j := draws i in
    a ← slice_get sa i; b ← slice_get sa j;
    sa ← slice_set sa i b; slice_set sa j a) kvh.

(** The strings of [randstring] for a row of ends. *)
Definition randnames (draws : Z → Z) (n : Z) : list Z := draws <$> seqZ 0 n.

Section config.
Context {W Cmd SB S : Type} `{!TestedServer W Cmd SB S}.
Abbreviation Persister := (PS.Persister Cmd SB).

(** [t0] is left out: it is only printed. *)
Record config := mkConfig {
  net : LR.Network W;
  n : Z;
  servers : list (option S);
  saved : list (option nat);
  persisters : list Persister;
  endnames : list (option (list Z));
  clerks : gmap Z (list Z);
  nextClientId : Z;
  rpcs0 : Z;
  ops : Z
}.
Implicit Types cfg : config.

Definition set_net v cfg := mkConfig v (n cfg) (servers cfg) (saved cfg) (persisters cfg) (endnames cfg) (clerks cfg) (nextClientId cfg) (rpcs0 cfg) (ops cfg).
Definition set_servers v cfg := mkConfig (net cfg) (n cfg) v (saved cfg) (persisters cfg) (endnames cfg) (clerks cfg) (nextClientId cfg) (rpcs0 cfg) (ops cfg).
Definition set_saved v p cfg := mkConfig (net cfg) (n cfg) (servers cfg) v p (endnames cfg) (clerks cfg) (nextClientId cfg) (rpcs0 cfg) (ops cfg).
Definition set_endnames v cfg := mkConfig (net cfg) (n cfg) (servers cfg) (saved cfg) (persisters cfg) v (clerks cfg) (nextClientId cfg) (rpcs0 cfg) (ops cfg).
Definition set_clerks v i cfg := mkConfig (net cfg) (n cfg) (servers cfg) (saved cfg) (persisters cfg) (endnames cfg) v i (rpcs0 cfg) (ops cfg).
Definition set_stats r o cfg := mkConfig (net cfg) (n cfg) (servers cfg) (saved cfg) (persisters cfg) (endnames cfg) (clerks cfg) (nextClientId cfg) r o.

Definition Enable (e : Z) (b : bool) cfg : config := set_net (LR.Enable e b (net cfg)) cfg.

(** ** Connections *)

Definition connectUnlocked (i : Z) (to : list Z) cfg : option config :=
  cfg ← for_range (len to) (λ j cfg,
          t ← slice_get to j; e ← endname (endnames cfg) i t; Some (Enable e true cfg)) cfg;
  for_range (len to) (λ j cfg,
    t ← slice_get to j; e ← endname (endnames cfg) t i; Some (Enable e true cfg)) cfg.

(** The second loop looks at [endnames[j]], not at [endnames[from[j]]]. *)
Definition disconnectUnlocked (i : Z) (from : list Z) cfg : option config :=
  cfg ← for_range (len from) (λ j cfg,
          row ← slice_get (endnames cfg) i;
          match row with
          | None => Some cfg
          | Some _ => f ← slice_get from j; e ← endname (endnames cfg) i f; Some (Enable e false cfg)
          end) cfg;
  for_range (len from) (λ j cfg,
    row ← slice_get (endnames cfg) j;
    match row with
    | None => Some cfg
    | Some _ => f ← slice_get from j; e ← endname (endnames cfg) f i; Some (Enable e false cfg)
    end) cfg.

Definition connect (i : Z) (to : list Z) cfg : option config := connectUnlocked i to cfg.
Definition disconnect (i : Z) (from : list Z) cfg : option config := disconnectUnlocked i from cfg.

Definition All cfg : list Z := seqZ 0 (n cfg).

Definition ConnectAll cfg : option config :=
  for_range (n cfg) (λ i cfg, connectUnlocked i (All cfg) cfg) cfg.

Definition partition (p1 p2 : list Z) cfg : option config :=
  cfg ← for_range (len p1) (λ i cfg,
          p ← slice_get p1 i; cfg ← disconnectUnlocked p p2 cfg; connectUnlocked p p1 cfg) cfg;
  for_range (len p2) (λ i cfg,
    p ← slice_get p2 i; cfg ← disconnectUnlocked p p1 cfg; connectUnlocked p p2 cfg) cfg.

(** ** Clerks *)

(** A clerk that is not in the map has no ends. *)
Definition clerk_ends (ck : Z) cfg : list Z := default [] (clerks cfg !! ck).

Definition ConnectClientUnlocked (ck : Z) (to : list Z) cfg : option config :=
  for_range (len to) (λ j cfg,
    t ← slice_get to j; s ← slice_get (clerk_ends ck cfg) t; Some (Enable s true cfg)) cfg.

Definition DisconnectClientUnlocked (ck : Z) (from : list Z) cfg : option config :=
  for_range (len from) (λ j cfg,
    f ← slice_get from j; s ← slice_get (clerk_ends ck cfg) f; Some (Enable s false cfg)) cfg.

(** [ck] is the address of the new clerk. *)
Definition makeClient (draws : Z → Z) (ck : Z) (to : list Z) cfg : option config :=
  let names := randnames draws (n cfg) in
  rn ← make_ends names id (net cfg);
  let cfg := set_net rn cfg in
  let cfg := set_clerks (<[ck := names]> (clerks cfg)) (nextClientId cfg + 1) cfg in
  ConnectClientUnlocked ck to cfg.

(** [os.Remove] of the end names touches no file. *)
Definition deleteClient (ck : Z) cfg : config := set_clerks (delete ck (clerks cfg)) (nextClientId cfg) cfg.

(** ** Servers *)

(** A copy of [saved[i]], or [MakePersister] when there is none and [fresh] is set. *)
Definition copy_saved (fresh : bool) (i : Z) cfg : option config :=
  sv ← slice_get (saved cfg) i;
  match sv with
  | Some a =>
      ps ← persisters cfg !! a;
      saved' ← slice_set (saved cfg) i (Some (length (persisters cfg)));
      Some (set_saved saved' (persisters cfg ++ [PS.Copy ps]) cfg)
  | None =>
      if fresh then
        saved' ← slice_set (saved cfg) i (Some (length (persisters cfg)));
        Some (set_saved saved' (persisters cfg ++ [PS.MakePersister]) cfg)
      else Some cfg
  end.

(** The killed server is gone from [servers]. *)
Definition ShutdownServer (i : Z) cfg : option config :=
  cfg ← disconnectUnlocked i (All cfg) cfg;
  let cfg := set_net (LR.DeleteServer i (net cfg)) cfg in
  cfg ← copy_saved false i cfg;
  kv ← slice_get (servers cfg) i;
  match kv with
  | None => Some cfg
  | Some _ => servers' ← slice_set (servers cfg) i None; Some (set_servers servers' cfg)
  end.

(** [srv := labrpc.MakeServer()] with the services of [kv], added as [i]. *)
Definition add_server (i : Z) (kv : S) (rn : LR.Network W) : LR.Network W :=
  let srv := foldl (λ srv svc, LR.AddService svc srv) LR.MakeServer (ts_services kv) in
  LR.AddServer i (length (LR.heap rn)) (LR.set_heap (LR.heap rn ++ [srv]) rn).

Definition StartServer (draws : Z → Z) (i : Z) cfg : option config :=
  let names := randnames draws (n cfg) in
  es ← slice_set (endnames cfg) i (Some names);
  let cfg := set_endnames es cfg in
  rn ← make_ends names id (net cfg);
  let cfg := set_net rn cfg in
  cfg ← copy_saved true i cfg;
  sv ← slice_get (saved cfg) i; a ← sv; ps ← persisters cfg !! a;
  kv ← ts_start (n cfg) i ps;
  servers' ← slice_set (servers cfg) i (Some kv);
  let cfg := set_servers servers' cfg in
  Some (set_net (add_server i kv (net cfg)) cfg).

(** [cleanup] up to the time limit. *)
Definition cleanup cfg : option config :=
  let cfg := set_servers (option_map ts_Kill <$> servers cfg) cfg in
  rn ← LR.Cleanup (net cfg);
  Some (set_net rn cfg).

(** ** Leaders and partitions *)

(** [kvservers[i].rf] panics when the server has been shut down. *)
Fixpoint find_leader (i : Z) (l : list (option S)) : option (bool * Z) :=
  match l with
  | [] => Some (false, 0)
  | kv :: l => kv ← kv; if (ts_GetState kv).2 then Some (true, i) else find_leader (i + 1) l
  end.

Definition Leader cfg : option (bool * Z) := find_leader 0 (take (Z.to_nat (n cfg)) (servers cfg)).

(** The loop of [make_partition], and the leader in the last place of [p2]. *)
Definition split_servers (n l : Z) : option (list Z * list Z) :=
  let p1 := replicate (Z.to_nat (Z.quot n 2 + 1)) 0 in
  let p2 := replicate (Z.to_nat (Z.quot n 2)) 0 in
  '(p1, p2, _) ← for_range n (λ i '(p1, p2, j),
     if negb (i =? l) then
       if j <? len p1 then p1 ← slice_set p1 j i; Some (p1, p2, j + 1)
       else p2 ← slice_set p2 (j - len p1) i; Some (p1, p2, j + 1)
     else Some (p1, p2, j)) (p1, p2, 0);
  p2 ← slice_set p2 (len p2 - 1) l;
  Some (p1, p2).

Definition make_partition cfg : option (list Z * list Z) :=
  '(_, l) ← Leader cfg; split_servers (n cfg) l.

(** ** The whole *)

Definition make_config (draws : Z → Z → Z) (n : Z) (unreliable : bool) : option config :=
  let cfg := mkConfig LR.MakeNetwork n (replicate (Z.to_nat n) None) (replicate (Z.to_nat n) None) []
               (replicate (Z.to_nat n) None) ∅ (n + 1000) 0 0 in
  cfg ← for_range n (λ i, StartServer (draws i) i) cfg;
  cfg ← ConnectAll cfg;
  Some (set_net (LR.Reliable (negb unreliable) (net cfg)) cfg).

Definition rpcTotal cfg : Z := LR.GetTotalCount (net cfg).

(** The largest of [size] over [saved]. *)
Definition max_saved (size : Persister → Z) cfg : option Z :=
  for_range (n cfg) (λ i logsize,
    sv ← slice_get (saved cfg) i; a ← sv; ps ← persisters cfg !! a;
    Some (if logsize <? size ps then size ps else logsize)) 0.

Definition LogSize (sz : rgob Cmd → Z) cfg : option Z := max_saved (PS.RaftStateSize sz) cfg.
Definition SnapshotSize (sz : SB → Z) cfg : option Z :=
  max_saved (λ ps, foldr (λ v n, sz v + n) 0 (PS.snapshot ps)) cfg.

Definition begin cfg : config := set_stats (rpcTotal cfg) 0 cfg.
Definition op cfg : config := set_stats (rpcs0 cfg) (LR.to_int32 (ops cfg + 1)) cfg.
(** The numbers [end] prints. *)
Definition end_ cfg : Z * Z * Z := (n cfg, rpcTotal cfg - rpcs0 cfg, ops cfg).

(** ** What the operations do to the wiring *)

Definition ready cfg : Prop :=
  wired (n cfg) (endnames cfg) (net cfg) ∧ full (n cfg) (endnames cfg).

(** The calls of [i] reach [j]. *)
Definition link cfg (i j : Z) : bool := linked (endnames cfg) (net cfg) i j.

Definition switch (ps : list (Z * Z)) (b : bool) cfg : config :=
  set_net (enables (pair_ops (endnames cfg) ps b) (net cfg)) cfg.

(** The pairs of [i] with the servers of [l]. *)
Definition star (i : Z) (l : list Z) : list (Z * Z) := (pair i <$> l) ++ ((λ j, (j, i)) <$> l).

Lemma elem_of_star i l a b : (a, b) ∈ star i l ↔ a = i ∧ b ∈ l ∨ b = i ∧ a ∈ l.
Proof.
  unfold star. rewrite elem_of_app, !list_elem_of_fmap. split.
  - intros [(x & [= -> ->] & ?)|(x & [= -> ->] & ?)]; auto.
  - intros [[-> ?]|[-> ?]]; [left|right]; eauto.
Qed.

Lemma switch_app ps1 ps2 b cfg : switch (ps1 ++ ps2) b cfg = switch ps2 b (switch ps1 b cfg).
Proof. unfold switch, pair_ops. simpl. by rewrite omap_app, enables_app. Qed.

Lemma ready_switch ps b cfg : ready cfg → ready (switch ps b cfg).
Proof. intros [Hw Hf]. split; [by apply wired_enables|done]. Qed.

Lemma link_switch ps b cfg i j :
  ready cfg → 0 ≤ i < n cfg → 0 ≤ j < n cfg →
  link (switch ps b cfg) i j = if decide ((i, j) ∈ ps) then b else link cfg i j.
Proof. intros [Hw Hf] Hi Hj. eapply linked_enables; [done|]. by eapply endname_Some. Qed.

Lemma switch_loop (g : Z → Z * Z) (l : list Z) b cfg :
  ready cfg → (∀ t, t ∈ l → 0 ≤ (g t).1 < n cfg ∧ 0 ≤ (g t).2 < n cfg) →
  for_range (len l) (λ j cfg,
    t ← slice_get l j; e ← endname (endnames cfg) (g t).1 (g t).2; Some (Enable e b cfg)) cfg =
  Some (switch (g <$> l) b cfg).
Proof.
  intros [Hw Hf] Hl.
  change (for_list l (λ t cfg, e ← endname (endnames cfg) (g t).1 (g t).2; Some (Enable e b cfg)) cfg =
    Some (switch (g <$> l) b cfg)).
  induction l as [|t l IH] using rev_ind; [by destruct cfg|].
  rewrite for_list_snoc, IH, fmap_app, switch_app by (intros; apply Hl; set_solver). simpl.
  destruct (Hl t) as [H1 H2]; [set_solver|]. destruct (endname_Some _ _ _ _ _ Hw Hf H1 H2) as [e He].
  rewrite He. simpl. unfold switch, pair_ops. simpl. by rewrite He.
Qed.

Lemma connect_switch i to cfg :
  ready cfg → 0 ≤ i < n cfg → (∀ t, t ∈ to → 0 ≤ t < n cfg) →
  connectUnlocked i to cfg = Some (switch (star i to) true cfg).
Proof.
  intros HR Hi Hto. unfold connectUnlocked, star. rewrite switch_app.
  rewrite (switch_loop (pair i)) by auto. simpl.
  rewrite (switch_loop (λ j, (j, i))); [done|by apply ready_switch|auto].
Qed.

Lemma disconnect_switch i from cfg :
  ready cfg → 0 ≤ i < n cfg → (∀ t, t ∈ from → 0 ≤ t < n cfg) → len from ≤ n cfg →
  disconnectUnlocked i from cfg = Some (switch (star i from) false cfg).
Proof.
  intros HR Hi Hfrom Hlen. unfold disconnectUnlocked, star. rewrite switch_app.
  rewrite (for_range_ext (λ c, endnames c = endnames cfg) _ _ (λ j cfg, t ← slice_get from j;
    e ← endname (endnames cfg) (i, t).1 (i, t).2; Some (Enable e false cfg))); [|done|].
  2:{ intros j c Hj Hc. destruct HR as [_ Hf]. destruct (Hf i Hi) as [names Hn]. rewrite Hc, Hn. simpl. split; [done|].
      intros s' (t & _ & (e & _ & [= <-])%bind_Some)%bind_Some. done. }
  rewrite (switch_loop (pair i)) by auto. simpl.
  rewrite (for_range_ext (λ c, endnames c = endnames cfg) _ _ (λ j cfg, t ← slice_get from j;
    e ← endname (endnames cfg) (t, i).1 (t, i).2; Some (Enable e false cfg))); [|done|].
  2:{ intros j c Hj Hc. destruct HR as [_ Hf]. destruct (Hf j) as [names Hn]; [lia|]. rewrite Hc, Hn. simpl. split; [done|].
      intros s' (t & _ & (e & _ & [= <-])%bind_Some)%bind_Some. done. }
  rewrite (switch_loop (λ j, (j, i))); [done|by apply ready_switch|auto].
Qed.

(** One of the two loops of [partition]: the servers of [q] leave [B] and join [A]. *)
Definition half (A B q : list Z) cfg : config :=
  foldl (λ cfg x, switch (star x A) true (switch (star x B) false cfg)) cfg q.

Lemma half_frame A B q cfg : n (half A B q cfg) = n cfg ∧ endnames (half A B q cfg) = endnames cfg ∧
  servers (half A B q cfg) = servers cfg ∧ saved (half A B q cfg) = saved cfg ∧
  persisters (half A B q cfg) = persisters cfg.
Proof. revert cfg. induction q as [|x q IH]; intros cfg; [done|]. apply (IH (switch (star x A) true (switch (star x B) false cfg))). Qed.

Lemma ready_half A B q cfg : ready cfg → ready (half A B q cfg).
Proof. revert cfg. induction q as [|x q IH]; intros cfg HR; simpl; [done|]. by apply IH, ready_switch, ready_switch. Qed.

Lemma half_loop A B q cfg :
  ready cfg → (∀ x, x ∈ q → 0 ≤ x < n cfg) → (∀ x, x ∈ A → 0 ≤ x < n cfg) →
  (∀ x, x ∈ B → 0 ≤ x < n cfg) → len B ≤ n cfg →
  for_range (len q) (λ i cfg,
    p ← slice_get q i; cfg ← disconnectUnlocked p B cfg; connectUnlocked p A cfg) cfg = Some (half A B q cfg).
Proof.
  intros HR Hq HA HB HL.
  change (for_list q (λ p cfg, cfg ← disconnectUnlocked p B cfg; connectUnlocked p A cfg) cfg = Some (half A B q cfg)).
  apply (for_list_foldl q _ _ (λ c, ready c ∧ n c = n cfg)); [done|].
  intros x c Hx [HRc Hn]. rewrite disconnect_switch by (rewrite ?Hn; auto). simpl.
  rewrite connect_switch by (simpl; rewrite ?Hn; auto using ready_switch). by auto using ready_switch.
Qed.

Lemma half_link A B q cfg i j :
  ready cfg → (∀ x, x ∈ q → x ∈ A) → (∀ x, x ∈ A → x ∉ B) → 0 ≤ i < n cfg → 0 ≤ j < n cfg →
  link (half A B q cfg) i j =
    if decide (i ∈ q ∧ j ∈ A ∨ j ∈ q ∧ i ∈ A) then true
    else if decide (i ∈ q ∧ j ∈ B ∨ j ∈ q ∧ i ∈ B) then false else link cfg i j.
Proof.
  intros HR HqA Hd Hi Hj. induction q as [|x q IH] using rev_ind.
  { repeat case_decide; [set_solver..|done]. }
  assert (x ∈ A ∧ ∀ y, y ∈ q → y ∈ A) as [Hx Hq] by (split; [|intros y ?]; apply HqA; set_solver). specialize (IH Hq).
  unfold half. rewrite foldl_app. simpl. fold (half A B q cfg).
  destruct (half_frame A B q cfg) as (Hn & _). pose proof (ready_half A B q cfg HR) as HR'.
  rewrite link_switch by (simpl; rewrite ?Hn; auto using ready_switch).
  rewrite link_switch by (rewrite ?Hn; done). rewrite IH.
  pose proof (Hd i) as Di. pose proof (Hd j) as Dj. pose proof (Hq i) as Qi. pose proof (Hq j) as Qj.
  clear -Hx Di Dj Qi Qj.
  destruct (decide (i = x)) as [->|], (decide (j = x)) as [->|]; repeat case_decide; try done;
    exfalso; repeat match goal with
    | H : context [star] |- _ => rewrite elem_of_star in H
    | H : context [_ ++ [_]] |- _ => rewrite !elem_of_app, !list_elem_of_singleton in H
    end; tauto.
Qed.

(** The servers of [p1] and [p2] are servers, and none is in both. *)
Record parts (p1 p2 : list Z) cfg : Prop := {
  pa_1 : ∀ x, x ∈ p1 → 0 ≤ x < n cfg;
  pa_2 : ∀ x, x ∈ p2 → 0 ≤ x < n cfg;
  pa_disj : ∀ x, x ∈ p1 → x ∉ p2;
  pa_len1 : len p1 ≤ n cfg;
  pa_len2 : len p2 ≤ n cfg
}.

Definition same_part (p1 p2 : list Z) (i j : Z) : Prop := i ∈ p1 ∧ j ∈ p1 ∨ i ∈ p2 ∧ j ∈ p2.
Definition cut (p1 p2 : list Z) (i j : Z) : Prop := i ∈ p1 ∧ j ∈ p2 ∨ i ∈ p2 ∧ j ∈ p1.
#[local] Instance same_part_dec p1 p2 i j : Decision (same_part p1 p2 i j).
Proof. unfold same_part. apply _. Defined.
#[local] Instance cut_dec p1 p2 i j : Decision (cut p1 p2 i j).
Proof. unfold cut. apply _. Defined.

Lemma partition_links p1 p2 cfg :
  ready cfg → parts p1 p2 cfg →
  ∃ cfg', partition p1 p2 cfg = Some cfg' ∧ ready cfg' ∧ n cfg' = n cfg ∧
    servers cfg' = servers cfg ∧ saved cfg' = saved cfg ∧ persisters cfg' = persisters cfg ∧
    ∀ i j, 0 ≤ i < n cfg → 0 ≤ j < n cfg →
      link cfg' i j = if decide (same_part p1 p2 i j) then true
                      else if decide (cut p1 p2 i j) then false else link cfg i j.
Proof.
  intros HR [H1 H2 Hd L1 L2]. unfold partition. rewrite half_loop by done. simpl.
  destruct (half_frame p1 p2 p1 cfg) as (Hn & He & Hs & Hv & Hp). pose proof (ready_half p1 p2 p1 cfg HR) as HR1.
  rewrite half_loop by (rewrite ?Hn; auto). eexists. split; [done|].
  destruct (half_frame p2 p1 p2 (half p1 p2 p1 cfg)) as (-> & _ & -> & -> & ->).
  split_and!; [by apply ready_half|done..|]. intros i j Hi Hj.
  rewrite half_link by (rewrite ?Hn; auto; intros x ? ?; by eapply Hd). rewrite half_link by auto.
  pose proof (Hd i). pose proof (Hd j). unfold same_part, cut. repeat case_decide; try done; tauto.
Qed.

(** ** Shutting down and starting *)

Record shaped cfg : Prop := {
  sp_n : 0 ≤ n cfg;
  sp_servers : len (servers cfg) = n cfg;
  sp_saved : len (saved cfg) = n cfg;
  sp_addr : ∀ i a, slice_get (saved cfg) i = Some (Some a) → (a < length (persisters cfg))%nat
}.

(** What [saved[i]] refers to. *)
Definition saved_state (i : Z) cfg : option Persister :=
  sv ← slice_get (saved cfg) i; a ← sv; persisters cfg !! a.

Lemma Copy_eq (ps : Persister) : PS.Copy ps = ps.
Proof. by destruct ps. Qed.

(** [saved[i]] moves to a new persister with the same contents. *)
Definition moved (i : Z) cfg cfg' : Prop :=
  ∃ ps, cfg' = set_saved (<[Z.to_nat i := Some (length (persisters cfg))]> (saved cfg)) (persisters cfg ++ [ps]) cfg ∧
    ps = default PS.MakePersister (saved_state i cfg).

Lemma copy_saved_spec fresh i cfg :
  shaped cfg → 0 ≤ i < n cfg →
  ∃ cfg', copy_saved fresh i cfg = Some cfg' ∧
    (moved i cfg cfg' ∧ (fresh = false → is_Some (saved_state i cfg)) ∨
     fresh = false ∧ slice_get (saved cfg) i = Some None ∧ cfg' = cfg).
Proof.
  intros Hs Hi. unfold copy_saved. pose proof (sp_saved _ Hs) as HL.
  destruct (proj2 (slice_get_is_Some (saved cfg) i)) as [sv Hsv]; [lia|]. rewrite Hsv. simpl.
  assert (∀ v, slice_set (saved cfg) i v = Some (<[Z.to_nat i := v]> (saved cfg))) as Hset.
  { intros v. apply slice_set_Some. split; [lia|done]. }
  destruct sv as [a|]; [|destruct fresh].
  - destruct (lookup_lt_is_Some_2 (persisters cfg) a) as [ps Hps]; [by eapply sp_addr|].
    rewrite Hps. simpl. rewrite Hset. simpl. eexists. split; [done|].
    assert (saved_state i cfg = Some ps) as Hss by (unfold saved_state; by rewrite Hsv).
    left. split; [|by eauto]. exists ps. by rewrite Copy_eq, Hss.
  - rewrite Hset. simpl. eexists. split; [done|]. left. split; [|done]. eexists. split; [done|].
    unfold saved_state. by rewrite Hsv.
  - eexists. split; [done|]. by right.
Qed.

Lemma moved_saved i cfg cfg' j :
  shaped cfg → 0 ≤ i < n cfg → moved i cfg cfg' →
  saved_state j cfg' = if decide (j = i) then Some (default PS.MakePersister (saved_state i cfg)) else saved_state j cfg.
Proof.
  intros Hs Hi (ps & -> & Hps). pose proof (sp_saved _ Hs) as HL. unfold saved_state. simpl.
  rewrite (slice_get_set (saved cfg) i j (Some (length (persisters cfg)))) by (apply slice_set_Some; split; [lia|done]).
  destruct (decide (j = i)) as [->|Hne].
  - rewrite decide_True by done. simpl. by rewrite list_lookup_middle, Hps.
  - rewrite decide_False by done. destruct (slice_get (saved cfg) j) as [[a|]|] eqn:Ha; [|done..]. simpl.
    rewrite lookup_app_l; [done|]. by eapply sp_addr.
Qed.

Lemma moved_shaped i cfg cfg' : shaped cfg → 0 ≤ i < n cfg → moved i cfg cfg' → shaped cfg'.
Proof.
  intros [H0 Hv Hl Ha] Hi (ps & -> & _). split; simpl; [done|done|by rewrite <-Hl; unfold len; rewrite length_insert|].
  intros j a. rewrite (slice_get_set (saved cfg) i j (Some (length (persisters cfg)))) by (apply slice_set_Some; split; [lia|done]).
  rewrite length_app. simpl. case_decide; [intros [= <-]; lia|]. intros ?%Ha. lia.
Qed.

Lemma shaped_switch ps b cfg : shaped cfg → shaped (switch ps b cfg).
Proof. by intros [? ? ? ?]. Qed.

Lemma All_range cfg : ∀ t, t ∈ All cfg → 0 ≤ t < n cfg.
Proof. intros t ?%elem_of_seqZ. lia. Qed.

Lemma len_All cfg : 0 ≤ n cfg → len (All cfg) = n cfg.
Proof. intros ?. unfold len, All. rewrite length_seqZ. lia. Qed.

Lemma ShutdownServer_links i cfg :
  ready cfg → shaped cfg → 0 ≤ i < n cfg →
  ∃ cfg', ShutdownServer i cfg = Some cfg' ∧ ready cfg' ∧ shaped cfg' ∧ n cfg' = n cfg ∧
    slice_get (servers cfg') i = Some None ∧ LR.server_of i (net cfg') = None ∧
    (∀ a b, 0 ≤ a < n cfg → 0 ≤ b < n cfg →
       link cfg' a b = if decide (a = i ∨ b = i) then false else link cfg a b) ∧
    (∀ j, saved_state j cfg' = saved_state j cfg) ∧
    (length (persisters cfg) ≤ length (persisters cfg'))%nat ∧
    (∀ a, slice_get (saved cfg') i = Some (Some a) → (length (persisters cfg) ≤ a)%nat).
Proof.
  intros HR Hs Hi. unfold ShutdownServer. pose proof (sp_n _ Hs) as H0.
  rewrite disconnect_switch; [|done|done|apply All_range|by rewrite len_All]. cbn [mbind option_bind].
  set (c1 := switch (star i (All cfg)) false cfg). set (c2 := set_net (LR.DeleteServer i (net c1)) c1).
  assert (shaped c2) as Hs2 by by destruct Hs.
  destruct (copy_saved_spec false i c2 Hs2 Hi) as (c3 & -> & Hc3). cbn [mbind option_bind].
  assert (net c3 = net c2 ∧ endnames c3 = endnames c2 ∧ n c3 = n c2 ∧ servers c3 = servers c2) as (En & Ee & Ek & Ev).
  { by destruct Hc3 as [[(ps & -> & _) _]|(_ & _ & ->)]. }
  assert (shaped c3) as Hs3.
  { destruct Hc3 as [[Hm _]|(_ & _ & ->)]; [by eapply moved_shaped|done]. }
  assert (∀ j, saved_state j c3 = saved_state j cfg) as Hsv.
  { intros j. destruct Hc3 as [[Hm Hsm]|(_ & _ & ->)]; [|done]. rewrite (moved_saved i c2 c3 j Hs2 Hi Hm).
    case_decide; subst; [|done]. destruct (Hsm eq_refl) as [ps Hps]. by trans (saved_state i c2); [rewrite Hps|]. }
  assert (Ha : (length (persisters cfg) ≤ length (persisters c3))%nat ∧
    ∀ a, slice_get (saved c3) i = Some (Some a) → (length (persisters cfg) ≤ a)%nat).
  { pose proof (sp_saved _ Hs). destruct Hc3 as [[(ps & -> & _) _]|(_ & Hno & ->)]; simpl in *; [|split; [lia|congruence]].
    rewrite length_app. split; [lia|]. intros a. 
    rewrite (slice_get_set (saved cfg) i i (Some (length (persisters cfg)))) by (apply slice_set_Some; split; [lia|done]).
    rewrite decide_True by done. intros [= <-]. done. }
  assert (Hlen : 0 ≤ i < len (servers c3)) by (rewrite Ev; simpl; rewrite (sp_servers _ Hs); done).
  assert (Hkv : ∃ c4, (kv ← slice_get (servers c3) i; match kv with
      | None => Some c3 | Some _ => servers' ← slice_set (servers c3) i None; Some (set_servers servers' c3) end) = Some c4 ∧
      slice_get (servers c4) i = Some None ∧ len (servers c4) = len (servers c3) ∧ c4 = set_servers (servers c4) c3).
  { destruct (proj2 (slice_get_is_Some (servers c3) i) Hlen) as [[kv|] Hkv]; rewrite Hkv; simpl.
    - destruct (proj2 (slice_set_is_Some (servers c3) i None) Hlen) as [l' El]. rewrite El. simpl.
      eexists. split; [done|]. simpl. rewrite (slice_get_set _ _ _ _ _ El), decide_True by done.
      split_and!; [done|by eapply slice_set_len|done].
    - exists c3. split_and!; try done. by destruct c3. }
  destruct Hkv as (c4 & E4 & H4 & L4 & F4). exists c4. split; [exact E4|].
  assert (net c4 = net c2 ∧ endnames c4 = endnames cfg ∧ n c4 = n cfg ∧ saved c4 = saved c3 ∧ persisters c4 = persisters c3)
    as (En4 & Ee4 & Ek4 & Ev4 & Ep4) by (rewrite F4; simpl; rewrite En, Ee, Ek; done).
  split; [|split; [|split; [done|split; [done|split; [|split; [|split; [|rewrite Ep4, Ev4; apply Ha]]]]]]].
  - destruct HR as [Hw Hf]. split; rewrite ?Ek4, ?Ee4, ?En4; [|done]. by destruct (wired_enables _ _ _ (pair_ops (endnames cfg) (star i (All cfg)) false) Hw).
  - destruct Hs3. split; rewrite ?Ev4, ?Ep4, ?L4, ?Ek4; try done; rewrite <-Ek4, F4; simpl; done.
  - rewrite En4. unfold LR.server_of. simpl. by rewrite lookup_insert_eq.
  - intros a b Hra Hrb. unfold link. rewrite Ee4, En4. change (link c1 a b = if decide (a = i ∨ b = i) then false else link cfg a b).
    unfold c1. rewrite link_switch by done. assert (∀ t, 0 ≤ t < n cfg → t ∈ All cfg) as HA.
    { intros t ?. apply elem_of_seqZ. lia. }
    pose proof (HA a Hra). pose proof (HA b Hrb). pose proof (elem_of_star i (All cfg) a b).
    repeat case_decide; try done; tauto.
  - intros j. rewrite <-Hsv. unfold saved_state. by rewrite Ev4, Ep4.
Qed.

(** The strings drawn for server [i] have not been used. *)
Definition fresh_draws (draws : Z → Z) cfg : Prop :=
  NoDup (randnames draws (n cfg)) ∧ ∀ e, e ∈ randnames draws (n cfg) → e ∉ LR.ends (net cfg).

Record started (draws : Z → Z) (i : Z) (kv : S) cfg cfg' : Prop := {
  sd_start : ts_start (n cfg) i (default PS.MakePersister (saved_state i cfg)) = Some kv;
  sd_wired : wired (n cfg') (endnames cfg') (net cfg');
  sd_shaped : shaped cfg';
  sd_n : n cfg' = n cfg;
  sd_server : slice_set (servers cfg) i (Some kv) = Some (servers cfg');
  sd_rows : slice_set (endnames cfg) i (Some (randnames draws (n cfg))) = Some (endnames cfg');
  sd_ends : LR.ends (net cfg') = list_to_set (randnames draws (n cfg)) ∪ LR.ends (net cfg);
  sd_there : is_Some (LR.server_of i (net cfg'));
  sd_link : ∀ a b, link cfg' a b = if decide (i = a) then false else link cfg a b;
  sd_saved : ∀ j, saved_state j cfg' = if decide (j = i) then Some (default PS.MakePersister (saved_state i cfg))
                                       else saved_state j cfg
}.

Lemma StartServer_spec draws i cfg :
  wired (n cfg) (endnames cfg) (net cfg) → shaped cfg → 0 ≤ i < n cfg → fresh_draws draws cfg →
  is_Some (ts_start (n cfg) i (default PS.MakePersister (saved_state i cfg)) : option S) →
  ∃ cfg' kv, StartServer draws i cfg = Some cfg' ∧ started draws i kv cfg cfg'.
Proof.
  intros Hw Hs Hi [Hnd Hfr] [kv Hkv]. unfold StartServer. set (names := randnames draws (n cfg)) in *.
  assert (Hln : len names = n cfg).
  { unfold names, randnames, len. rewrite length_fmap, length_seqZ. pose proof (sp_n _ Hs). lia. }
  destruct (proj2 (slice_set_is_Some (endnames cfg) i (Some names))) as [es Hes]; [by rewrite (wi_len _ _ _ Hw)|].
  rewrite Hes. cbn [mbind option_bind]. destruct (make_ends_spec names id (net cfg) Hnd Hfr) as (rn & Ern & HM).
  set (c1 := set_endnames es cfg). change (net c1) with (net cfg). rewrite Ern. cbn [mbind option_bind].
  set (c2 := set_net rn c1). assert (shaped c2) as Hs2 by by destruct Hs.
  destruct (copy_saved_spec true i c2 Hs2 Hi) as (c3 & -> & Hc3). cbn [mbind option_bind].
  destruct Hc3 as [[Hm _]|[? _]]; [|done].
  pose proof (moved_shaped i c2 c3 Hs2 Hi Hm) as Hs3. pose proof (moved_saved i c2 c3 i Hs2 Hi Hm) as Hsv.
  rewrite decide_True in Hsv by done. change (saved_state i c2) with (saved_state i cfg) in Hsv.
  assert (net c3 = rn ∧ endnames c3 = es ∧ n c3 = n cfg ∧ servers c3 = servers cfg) as (En & Ee & Ek & Ev).
  { by destruct Hm as (ps & -> & _). }
  unfold saved_state in Hsv at 1. apply bind_Some in Hsv as (sv & E1 & Hsv). apply bind_Some in Hsv as (a & -> & E2).
  rewrite E1. cbn [mbind option_bind]. rewrite E2. cbn [mbind option_bind]. rewrite Ek, Hkv, Ev. cbn [mbind option_bind].
  destruct (proj2 (slice_set_is_Some (servers cfg) i (Some kv))) as [sv Hsrv]; [by rewrite (sp_servers _ Hs)|].
  rewrite Hsrv. cbn [mbind option_bind]. eexists _, kv. split; [done|].
  split; simpl; rewrite ?Ee, ?En, ?Ek; try done.
  - destruct (wired_renew _ _ _ _ _ _ _ _ Hw Hes Hln Hnd Hfr HM) as [? ? ? ?]. by split.
  - destruct Hs3 as [? ? ? Ha]. split; simpl; try done. rewrite (slice_set_len _ _ _ _ Hsrv), Ek. apply Hs.
  - apply (md_ends _ _ _ _ HM).
  - unfold LR.server_of. simpl. rewrite lookup_insert_eq. by eexists.
  - intros x y. unfold link. simpl. rewrite ?Ee, ?En.
    exact (linked_renew _ _ _ _ _ _ _ _ x y Hw Hes Hfr HM).
  - intros j. exact (moved_saved i c2 c3 j Hs2 Hi Hm).
Qed.

(** ** Everybody connected *)

Lemma ConnectAll_links cfg :
  ready cfg → shaped cfg →
  ∃ cfg', ConnectAll cfg = Some cfg' ∧ ready cfg' ∧ shaped cfg' ∧ n cfg' = n cfg ∧ servers cfg' = servers cfg ∧
    ∀ a b, 0 ≤ a < n cfg → 0 ≤ b < n cfg → link cfg' a b = true.
Proof.
  intros HR Hs. unfold ConnectAll.
  destruct (for_range_inv (n cfg) (λ i cfg, connectUnlocked i (All cfg) cfg) (λ i c, ready c ∧ shaped c ∧ n c = n cfg ∧
    servers c = servers cfg ∧ ∀ a b, 0 ≤ a < n cfg → 0 ≤ b < n cfg → a < i → link c a b = true) cfg)
    as (c & E & HRc & Hsc & Hn & Hv & Hl); [apply Hs| | |exists c; split_and!; try done; [apply HRc..|]; intros a b ? ?; apply Hl; lia].
  - split_and!; try done. intros. lia.
  - intros i c Hi (HRc & Hsc & Hn & Hv & Hl). rewrite connect_switch; [|done|by rewrite Hn|apply All_range].
    eexists. split; [done|]. split; [by apply ready_switch|]. split; [by apply shaped_switch|]. split_and!; [done..|].
    intros a b Ha Hb Hlt. rewrite link_switch by (rewrite ?Hn; done). case_decide as Hin; [done|].
    apply Hl; [done..|]. destruct (decide (a = i)) as [->|]; [|lia]. destruct Hin. apply elem_of_star. left.
    split; [done|]. apply elem_of_seqZ. lia.
Qed.

(** Draws that never repeat. *)
Definition distinct_draws (draws : Z → Z → Z) (N : Z) : Prop :=
  ∀ i j i' j', 0 ≤ i < N → 0 ≤ j < N → 0 ≤ i' < N → 0 ≤ j' < N → draws i j = draws i' j' → i = i' ∧ j = j'.

Lemma distinct_fresh draws N i :
  distinct_draws draws N → 0 ≤ i < N → NoDup (randnames (draws i) N) ∧
    ∀ i' e, 0 ≤ i' < N → e ∈ randnames (draws i) N → e ∈ randnames (draws i') N → i = i'.
Proof.
  intros Hd Hi. split.
  - apply NoDup_fmap_2_strong; [|apply NoDup_seqZ]. intros x y ?%elem_of_seqZ ?%elem_of_seqZ E.
    by destruct (Hd i x i y) as [_ ?]; [lia..|].
  - intros i' e Hi' (x & -> & Hx%elem_of_seqZ)%list_elem_of_fmap (y & E & Hy%elem_of_seqZ)%list_elem_of_fmap.
    by destruct (Hd i x i' y) as [? _]; [lia..|].
Qed.

Lemma make_config_links draws N unreliable :
  0 ≤ N → distinct_draws draws N →
  (∀ i, 0 ≤ i < N → is_Some (ts_start N i PS.MakePersister : option S)) →
  ∃ cfg, make_config draws N unreliable = Some cfg ∧ ready cfg ∧ shaped cfg ∧ n cfg = N ∧
    (∀ i, 0 ≤ i < N → ∃ kv, slice_get (servers cfg) i = Some (Some kv)) ∧
    ∀ a b, 0 ≤ a < N → 0 ≤ b < N → link cfg a b = true.
Proof.
  intros HN Hd Hst. unfold make_config. set (c0 := mkConfig _ _ _ _ _ _ _ _ _ _).
  assert (Hrep : ∀ A, len (replicate (Z.to_nat N) (@None A)) = N) by (intros A; unfold len; rewrite length_replicate; lia).
  assert (Hnone : ∀ A i x, slice_get (replicate (Z.to_nat N) (@None A)) i = Some x → x = None).
  { intros A i x [_ Hx]%slice_get_Some. by apply lookup_replicate in Hx as [-> _]. }
  destruct (for_range_inv N (λ i, StartServer (draws i) i) (λ i c,
      wired N (endnames c) (net c) ∧ shaped c ∧ n c = N ∧
      (∀ j, 0 ≤ j < i → ∃ kv names, slice_get (servers c) j = Some (Some kv) ∧ slice_get (endnames c) j = Some (Some names)) ∧
      (∀ j, i ≤ j → saved_state j c = None) ∧
      ∀ e, e ∈ LR.ends (net c) → ∃ j, 0 ≤ j < i ∧ e ∈ randnames (draws j) N) c0)
    as (c1 & -> & Hw & Hs & Hn & Hrow & _); [done|..].
  { split; [|split; [|split_and!; [done|lia| |set_solver]]].
    2:{ split; simpl; [done|apply Hrep|apply Hrep|]. by intros i a ?%Hnone. }
    - split; simpl; [apply Hrep|by intros i names ?%Hnone| |].
      + intros i j i' j' e He. apply bind_Some in He as (row & ->%Hnone & He). done.
      + intros i j e He. apply bind_Some in He as (row & ->%Hnone & He). done.
    - intros j _. unfold saved_state. simpl. destruct (slice_get _ j) as [x|] eqn:Hx; [|done]. by apply Hnone in Hx as ->. }
  { intros i c Hi (Hw & Hs & Hn & Hrow & Hsv & He). pose proof (distinct_fresh draws N i Hd Hi) as [Hnd Hdis].
    destruct (StartServer_spec (draws i) i c) as (c' & kv & E & HD); rewrite ?Hn; try done.
    { split; rewrite Hn; [done|]. intros e Hin (j & Hj & Hin')%He. assert (i = j) by (eapply Hdis; [lia|done..]). lia. }
    { rewrite Hsv by lia. by apply Hst. }
    exists c'. split; [done|]. destruct HD as [Hd1 Hd2 Hd3 Hd4 Hd5 Hd6 Hd7 _ _ Hd10]. rewrite Hn in *.
    split_and!; [by rewrite <-Hd4 at 1|done|done|..].
    - intros j Hj. rewrite (slice_get_set _ _ _ _ _ Hd5), (slice_get_set _ _ _ _ _ Hd6).
      destruct (decide (i = j)); [by eauto|]. apply Hrow. lia.
    - intros j Hj. rewrite Hd10, decide_False by lia. apply Hsv. lia.
    - intros e. rewrite Hd7, elem_of_union, elem_of_list_to_set. intros [?|(j & ? & ?)%He]; [exists i|exists j]; (split; [lia|done]). }
  cbn [mbind option_bind]. destruct (ConnectAll_links c1) as (c2 & -> & HR2 & Hs2 & Hn2 & Hv2 & Hl2).
  - split; [by rewrite Hn|]. rewrite Hn. intros i (kv & names & _ & ?)%Hrow. eauto.
  - done.
  - eexists. split; [done|]. split; [|split; [by destruct Hs2|split_and!]].
    + destruct HR2 as [[? ? ? ?] ?]. by split; [split|].
    + simpl. by rewrite Hn2.
    + simpl. rewrite Hv2. intros i (kv & names & ? & _)%Hrow. eauto.
    + intros a b Ha Hb. rewrite Hn in Hl2. by apply Hl2.
Qed.
End config.
Arguments config : clear implicits.
End SH.
