(* ===== verification/RaftHarness.v ===== *)
(** The test harness of [raft]: [src/src/raft/config.go].

    The harness keeps what every server has applied in [logs] and checks each new
    [ApplyMsg] against it; the checks of the tests ([checkOneLeader], [nCommitted],
    [one]) read the servers.  Raft instances live in a heap: a killed instance is no
    longer in [rafts], but its goroutines and the persister it writes to stay.
    [saved[i]] is the persister of an instance, or one that nobody writes to yet.

    [None] is [log.Fatalf], [t.Fatal] or a panic.  The servers run while the harness
    looks at them: what it reads at different times is an argument.  Random strings
    and the order in which Go ranges over a map are arguments.  Printing and the
    two-minute limit are left out; [applyErr] stays empty, because [log.Fatalf] does
    not return. *)

From S2P Require Import Prelude Gob RaftLog Raft Labrpc Harness.
Import WR.

#[local] Open Scope Z_scope.

Module RH.
Section config.
Context {W Cmd SB : Type} `{EqDecision Cmd, !GobType SB Z, !GobType SB (list (option Cmd))}.
Abbreviation Raft := (RF.Raft Cmd SB).
Abbreviation Persister := (PS.Persister Cmd SB).
Abbreviation ApplyMsg := (ApplyMsg Cmd SB).

(** The service [labrpc.MakeService] finds in a Raft instance. *)
Context (MakeService : nat → LR.Service W).

(** The persister of an instance, or one with these contents. *)
Inductive pref := OfRaft (k : nat) | Held (ps : Persister).

Record config := mkConfig {
  finished : Z;
  net : LR.Network W;
  n : Z;
  objs : list Raft;
  rafts : list (option nat);
  connected : list bool;
  saved : list (option pref);
  endnames : list (option (list Z));
  logs : list (gmap Z (option Cmd));
  lastApplied : list Z;
  rpcs0 : Z;
  cmds0 : Z;
  bytes0 : Z;
  maxIndex : Z;
  maxIndex0 : Z
}.
Implicit Types cfg : config.

Definition set_finished v cfg := mkConfig v (net cfg) (n cfg) (objs cfg) (rafts cfg) (connected cfg) (saved cfg) (endnames cfg) (logs cfg) (lastApplied cfg) (rpcs0 cfg) (cmds0 cfg) (bytes0 cfg) (maxIndex cfg) (maxIndex0 cfg).
Definition set_net v cfg := mkConfig (finished cfg) v (n cfg) (objs cfg) (rafts cfg) (connected cfg) (saved cfg) (endnames cfg) (logs cfg) (lastApplied cfg) (rpcs0 cfg) (cmds0 cfg) (bytes0 cfg) (maxIndex cfg) (maxIndex0 cfg).
Definition set_rafts o v cfg := mkConfig (finished cfg) (net cfg) (n cfg) o v (connected cfg) (saved cfg) (endnames cfg) (logs cfg) (lastApplied cfg) (rpcs0 cfg) (cmds0 cfg) (bytes0 cfg) (maxIndex cfg) (maxIndex0 cfg).
Definition set_connected v cfg := mkConfig (finished cfg) (net cfg) (n cfg) (objs cfg) (rafts cfg) v (saved cfg) (endnames cfg) (logs cfg) (lastApplied cfg) (rpcs0 cfg) (cmds0 cfg) (bytes0 cfg) (maxIndex cfg) (maxIndex0 cfg).
Definition set_saved v cfg := mkConfig (finished cfg) (net cfg) (n cfg) (objs cfg) (rafts cfg) (connected cfg) v (endnames cfg) (logs cfg) (lastApplied cfg) (rpcs0 cfg) (cmds0 cfg) (bytes0 cfg) (maxIndex cfg) (maxIndex0 cfg).
Definition set_endnames v cfg := mkConfig (finished cfg) (net cfg) (n cfg) (objs cfg) (rafts cfg) (connected cfg) (saved cfg) v (logs cfg) (lastApplied cfg) (rpcs0 cfg) (cmds0 cfg) (bytes0 cfg) (maxIndex cfg) (maxIndex0 cfg).
Definition set_logs v m cfg := mkConfig (finished cfg) (net cfg) (n cfg) (objs cfg) (rafts cfg) (connected cfg) (saved cfg) (endnames cfg) v (lastApplied cfg) (rpcs0 cfg) (cmds0 cfg) (bytes0 cfg) m (maxIndex0 cfg).
Definition set_lastApplied v cfg := mkConfig (finished cfg) (net cfg) (n cfg) (objs cfg) (rafts cfg) (connected cfg) (saved cfg) (endnames cfg) (logs cfg) v (rpcs0 cfg) (cmds0 cfg) (bytes0 cfg) (maxIndex cfg) (maxIndex0 cfg).
Definition set_stats r c b m cfg := mkConfig (finished cfg) (net cfg) (n cfg) (objs cfg) (rafts cfg) (connected cfg) (saved cfg) (endnames cfg) (logs cfg) (lastApplied cfg) r c b (maxIndex cfg) m.

(** ** What has been applied *)

(** The last server whose log disagrees, and whether the entry before is there. *)
Definition checkLogs (i : Z) (m : ApplyMsg) cfg : option (config * option Z * bool) :=
  let v := am_Command m in
  err ← for_range (len (logs cfg)) (λ j err,
          l ← slice_get (logs cfg) j;
          Some (match l !! am_CommandIndex m with
                | Some old => if decide (old = v) then err else Some j
                | None => err
                end)) None;
  l ← slice_get (logs cfg) i;
  let prevok := bool_decide (is_Some (l !! (am_CommandIndex m - 1))) in
  logs' ← slice_set (logs cfg) i (<[am_CommandIndex m := v]> l);
  let max := if maxIndex cfg <? am_CommandIndex m then am_CommandIndex m else maxIndex cfg in
  Some (set_logs logs' max cfg, err, prevok).

(** One iteration of [applier]. *)
Definition applier (i : Z) (m : ApplyMsg) cfg : option config :=
  if am_CommandValid m then
    '(cfg, err, prevok) ← checkLogs i m cfg;
    if (1 <? am_CommandIndex m) && negb prevok then None
    else match err with Some _ => None | None => Some cfg end
  else Some cfg.

(** The boolean: the index does not match. *)
Definition ingestSnap (i : Z) (snapshot : list SB) (index : Z) cfg : option (config * bool) :=
  if decide (len snapshot = 0) then None
  else
    '(lastIncludedIndex, rest) ← Decode (A:=Z) snapshot;
    '(xlog, _) ← Decode (A:=list (option Cmd)) rest;
    if negb (index =? -1) && negb (index =? lastIncludedIndex) then Some (cfg, true)
    else
      logs' ← slice_set (logs cfg) i (list_to_map (imap (λ j c, (Z.of_nat j, c)) xlog));
      last' ← slice_set (lastApplied cfg) i lastIncludedIndex;
      Some (set_lastApplied last' (set_logs logs' (maxIndex cfg) cfg), false).

Definition SnapShotInterval : Z := 10.

(** [rf.Snapshot(index, snap)] on the instance [k]. *)
Definition raft_Snapshot (k : nat) (index : Z) (snap : list SB) cfg : option config :=
  rf ← objs cfg !! k; rf ← RF.Snapshot index snap rf;
  Some (set_rafts (<[k := rf]> (objs cfg)) (rafts cfg) cfg).

(** The commands up to [index], nil where there is none. *)
Definition xlog_of (index : Z) (l : gmap Z (option Cmd)) : list (option Cmd) :=
  (λ j, default None (l !! j)) <$> seqZ 0 (index + 1).

(** One iteration of [applierSnap], whose [rf] is the instance [k]. *)
Definition applierSnap (i : Z) (k : nat) (m : ApplyMsg) cfg : option config :=
  if am_SnapshotValid m then
    '(cfg, err) ← ingestSnap i (am_Snapshot m) (am_SnapshotIndex m) cfg;
    if err : bool then None else Some cfg
  else if am_CommandValid m then
    last ← slice_get (lastApplied cfg) i;
    '(cfg, bad) ←
      (if negb (am_CommandIndex m =? last + 1) then Some (cfg, true)
       else
         '(cfg, err, prevok) ← checkLogs i m cfg;
         Some (cfg, (1 <? am_CommandIndex m) && negb prevok || bool_decide (is_Some err)));
    last' ← slice_set (lastApplied cfg) i (am_CommandIndex m);
    let cfg := set_lastApplied last' cfg in
    cfg ←
      (if Z.rem (am_CommandIndex m + 1) SnapShotInterval =? 0 then
         let w := Encode (A:=Z) [] (am_CommandIndex m) in
         l ← slice_get (logs cfg) i;
         let w := Encode (A:=list (option Cmd)) w (xlog_of (am_CommandIndex m) l) in
         raft_Snapshot k (am_CommandIndex m) w cfg
       else Some cfg);
    if bad : bool then None else Some cfg
  else Some cfg.

(** ** Servers *)

Definition Enable (e : Z) (b : bool) cfg : config := set_net (LR.Enable e b (net cfg)) cfg.

Definition connect (i : Z) cfg : option config :=
  con ← slice_set (connected cfg) i true;
  let cfg := set_connected con cfg in
  cfg ← for_range (n cfg) (λ j cfg,
          c ← slice_get (connected cfg) j;
          if c : bool then e ← endname (endnames cfg) i j; Some (Enable e true cfg) else Some cfg) cfg;
  for_range (n cfg) (λ j cfg,
    c ← slice_get (connected cfg) j;
    if c : bool then e ← endname (endnames cfg) j i; Some (Enable e true cfg) else Some cfg) cfg.

Definition disconnect (i : Z) cfg : option config :=
  con ← slice_set (connected cfg) i false;
  let cfg := set_connected con cfg in
  cfg ← for_range (n cfg) (λ j cfg,
          row ← slice_get (endnames cfg) i;
          match row with
          | None => Some cfg
          | Some _ => e ← endname (endnames cfg) i j; Some (Enable e false cfg)
          end) cfg;
  for_range (n cfg) (λ j cfg,
    row ← slice_get (endnames cfg) j;
    match row with
    | None => Some cfg
    | Some _ => e ← endname (endnames cfg) j i; Some (Enable e false cfg)
    end) cfg.

Definition pref_state (p : pref) cfg : option Persister :=
  match p with OfRaft k => RF.persister <$> objs cfg !! k | Held ps => Some ps end.

(** [saved[i]] becomes a copy that nobody writes to; nil stays nil. *)
Definition copy_saved (i : Z) cfg : option config :=
  sv ← slice_get (saved cfg) i;
  match sv with
  | None => Some cfg
  | Some p =>
      ps ← pref_state p cfg;
      saved' ← slice_set (saved cfg) i (Some (Held (PS.Copy ps)));
      Some (set_saved saved' cfg)
  end.

(** The last lines save what was read from [saved[i]] in an empty persister. *)
Definition crash1 (i : Z) cfg : option config :=
  cfg ← disconnect i cfg;
  let cfg := set_net (LR.DeleteServer i (net cfg)) cfg in
  cfg ← copy_saved i cfg;
  rf ← slice_get (rafts cfg) i;
  cfg ←
    match rf with
    | None => Some cfg
    | Some k =>
        rf ← objs cfg !! k;
        rafts' ← slice_set (rafts cfg) i None;
        Some (set_rafts (<[k := RF.Kill rf]> (objs cfg)) rafts' cfg)
    end;
  sv ← slice_get (saved cfg) i;
  match sv with
  | None => Some cfg
  | Some p =>
      ps ← pref_state p cfg;
      let raftlog := PS.ReadRaftState ps in
      let snapshot := PS.ReadSnapshot ps in
      saved' ← slice_set (saved cfg) i (Some (Held (PS.Save PS.MakePersister raftlog snapshot)));
      Some (set_saved saved' cfg)
  end.

(** [go applier(i, applyCh)] is left to the goroutine's own steps. *)
Definition start1 (draws : Z → Z) (i : Z) cfg : option config :=
  cfg ← crash1 i cfg;
  let names := draws <$> seqZ 0 (n cfg) in
  es ← slice_set (endnames cfg) i (Some names);
  let cfg := set_endnames es cfg in
  rn ← make_ends names id (net cfg);
  let cfg := set_net rn cfg in
  last' ← slice_set (lastApplied cfg) i 0;
  let cfg := set_lastApplied last' cfg in
  sv ← slice_get (saved cfg) i;
  '(cfg, ps) ←
    match sv with
    | Some _ =>
        cfg ← copy_saved i cfg;
        sv ← slice_get (saved cfg) i; p ← sv; ps ← pref_state p cfg;
        if decide (0 < len (PS.ReadSnapshot ps)) then
          '(cfg, err) ← ingestSnap i (PS.ReadSnapshot ps) (-1) cfg;
          if err : bool then None else Some (cfg, ps)
        else Some (cfg, ps)
    | None => Some (cfg, PS.MakePersister)
    end;
  let k := length (objs cfg) in
  rafts' ← slice_set (rafts cfg) i (Some k);
  saved' ← slice_set (saved cfg) i (Some (OfRaft k));
  let cfg := set_saved saved' (set_rafts (objs cfg ++ [RF.Make (n cfg) i ps]) rafts' cfg) in
  let rn := net cfg in
  let srv := LR.AddService (MakeService k) LR.MakeServer in
  Some (set_net (LR.AddServer i (length (LR.heap rn)) (LR.set_heap (LR.heap rn ++ [srv]) rn)) cfg).

Definition make_config (draws : Z → Z → Z) (n : Z) (unreliable : bool) : option config :=
  let z := Z.to_nat n in
  let cfg := mkConfig 0 LR.MakeNetwork n [] (replicate z None) (replicate z false) (replicate z None)
               (replicate z None) (replicate z ∅) (replicate z 0) 0 0 0 0 0 in
  let cfg := set_net (LR.LongDelays true (LR.Reliable (negb unreliable) (net cfg))) cfg in
  cfg ← for_range n (λ i, start1 (draws i) i) cfg;
  for_range n connect cfg.

Definition checkFinished cfg : bool := negb (finished cfg =? 0).

Definition cleanup cfg : option config :=
  let cfg := set_finished 1 cfg in
  let killed := foldl (λ os r, match r with Some k => alter RF.Kill k os | None => os end) (objs cfg) (rafts cfg) in
  rn ← LR.Cleanup (net cfg);
  Some (set_net rn (set_rafts killed (rafts cfg) cfg)).

Definition rpcCount (server : Z) cfg : option Z := LR.GetCount server (net cfg).
Definition rpcTotal cfg : Z := LR.GetTotalCount (net cfg).
Definition bytesTotal cfg : Z := LR.GetTotalBytes (net cfg).
Definition setunreliable (unrel : bool) cfg : config := set_net (LR.Reliable (negb unrel) (net cfg)) cfg.
Definition setlongreordering (longrel : bool) cfg : config := set_net (LR.LongReordering longrel (net cfg)) cfg.

(** ** The checks of the tests *)

(** [cfg.rafts[i].GetState()], now. *)
Definition GetState (i : Z) cfg : option (Z * bool) :=
  r ← slice_get (rafts cfg) i; k ← r; RF.GetState <$> objs cfg !! k.

(** The leaders by term; [seen i] is what server [i] answered when it was asked. *)
Definition collect_leaders (seen : Z → option (Z * bool)) cfg : option (gmap Z (list Z)) :=
  for_range (n cfg) (λ i leaders,
    c ← slice_get (connected cfg) i;
    if c : bool then
      '(term, leader) ← seen i;
      Some (if leader : bool then <[term := default [] (leaders !! term) ++ [i]]> leaders else leaders)
    else Some leaders) ∅.

(** [order] is the order in which the map is ranged over. *)
Definition last_term (order : list Z) (leaders : gmap Z (list Z)) : option Z :=
  for_list order (λ term last,
    ls ← leaders !! term;
    if 1 <? len ls then None else Some (if last <? term then term else last)) (-1).

(** One iteration of [checkOneLeader]. *)
Definition check_round (seen : Z → option (Z * bool)) (order : list Z) cfg : option (option Z) :=
  leaders ← collect_leaders seen cfg;
  last ← last_term order leaders;
  if decide (leaders = ∅) then Some None
  else ls ← leaders !! last; i ← slice_get ls 0; Some (Some i).

Fixpoint checkOneLeader (rounds : list ((Z → option (Z * bool)) * list Z)) cfg : option Z :=
  match rounds with
  | [] => None
  | (seen, order) :: rounds =>
      r ← check_round seen order cfg;
      match r with Some i => Some i | None => checkOneLeader rounds cfg end
  end.

Definition checkTerms (seen : Z → option (Z * bool)) cfg : option Z :=
  for_range (n cfg) (λ i term,
    c ← slice_get (connected cfg) i;
    if c : bool then
      '(xterm, _) ← seen i;
      if term =? -1 then Some xterm else if negb (term =? xterm) then None else Some term
    else Some term) (-1).

Definition checkNoLeader (seen : Z → option (Z * bool)) cfg : option unit :=
  for_range (n cfg) (λ i u,
    c ← slice_get (connected cfg) i;
    if c : bool then '(_, is_leader) ← seen i; if is_leader : bool then None else Some u else Some u) tt.

Definition nCommitted (index : Z) cfg : option (Z * option Cmd) :=
  for_range (len (rafts cfg)) (λ i '(count, cmd),
    l ← slice_get (logs cfg) i;
    match l !! index with
    | Some cmd1 => if (0 <? count) && negb (bool_decide (cmd = cmd1)) then None else Some (count + 1, cmd1)
    | None => Some (count, cmd)
    end) (0, None).

(** Somebody has moved on to another term. *)
Definition moved_on (startTerm : Z) cfg : option bool :=
  for_list (rafts cfg) (λ r b,
    if b : bool then Some true else k ← r; rf ← objs cfg !! k; Some (startTerm <? (RF.GetState rf).1)) false.

(** The loop of [wait]: [polls] are the states it sees, at most 30; the answer says
    that somebody has moved on. *)
Fixpoint wait_loop (index k startTerm : Z) (polls : list config) : option bool :=
  match polls with
  | [] => Some false
  | cfg :: polls =>
      '(nd, _) ← nCommitted index cfg;
      if k <=? nd then Some false
      else
        moved ← (if -1 <? startTerm then moved_on startTerm cfg else Some false);
        if moved : bool then Some true else wait_loop index k startTerm polls
  end.

(** [cfg] is the state after the loop; [Some None] is the answer -1. *)
Definition wait (index k startTerm : Z) (polls : list config) cfg : option (option (option Cmd)) :=
  moved ← wait_loop index k startTerm polls;
  if moved : bool then Some None
  else '(nd, cmd) ← nCommitted index cfg; if nd <? k then None else Some (Some cmd).

(** The inner loop of [one]: the first connected server that takes the command, and
    its index; [si] is the number of servers left to try. *)
Fixpoint try_start (si : nat) (cmd : option Cmd) (starts : Z) cfg : option (config * Z * Z) :=
  match si with
  | O => Some (cfg, starts, -1)
  | S si =>
      let starts := Z.rem (starts + 1) (n cfg) in
      c ← slice_get (connected cfg) starts;
      rf ← (if c : bool then slice_get (rafts cfg) starts else Some None);
      match rf with
      | None => try_start si cmd starts cfg
      | Some k =>
          rf ← objs cfg !! k;
          let '(rf, (index1, _, ok)) := RF.Start cmd rf in
          let cfg := set_rafts (<[k := rf]> (objs cfg)) (rafts cfg) cfg in
          if ok : bool then Some (cfg, starts, index1) else try_start si cmd starts cfg
      end
  end.

(** The polls of [one] for an agreement; the servers go on between them. *)
Fixpoint poll (index expectedServers : Z) (cmd : option Cmd) (polls : list (config → config)) cfg
    : option (config * bool) :=
  match polls with
  | [] => Some (cfg, false)
  | run :: polls =>
      let cfg := run cfg in
      '(nd, cmd1) ← nCommitted index cfg;
      if (0 <? nd) && (expectedServers <=? nd) && bool_decide (cmd1 = cmd) then Some (cfg, true)
      else poll index expectedServers cmd polls cfg
  end.

(** [one]; a round is what the servers do before it and between its polls, and there
    are as many as fit into ten seconds. *)
Fixpoint one (cmd : option Cmd) (expectedServers : Z) (retry : bool) (starts : Z)
    (rounds : list ((config → config) * list (config → config))) cfg : option (config * Z) :=
  match rounds with
  | [] => if checkFinished cfg then Some (cfg, -1) else None
  | (run, polls) :: rounds =>
      let cfg := run cfg in
      if checkFinished cfg then Some (cfg, -1)
      else
        '(cfg, starts, index) ← try_start (Z.to_nat (n cfg)) cmd starts cfg;
        if negb (index =? -1) then
          '(cfg, agreed) ← poll index expectedServers cmd polls cfg;
          if agreed : bool then Some (cfg, index)
          else if negb retry then None
          else one cmd expectedServers retry starts rounds cfg
        else one cmd expectedServers retry starts rounds cfg
  end.

Definition begin cfg : config := set_stats (rpcTotal cfg) 0 (bytesTotal cfg) (maxIndex cfg) cfg.
(** The numbers [end] prints. *)
Definition end_ cfg : Z * Z * Z * Z :=
  (n cfg, rpcTotal cfg - rpcs0 cfg, bytesTotal cfg - bytes0 cfg, maxIndex cfg - maxIndex0 cfg).

Definition LogSize (sz : rgob Cmd → Z) cfg : option Z :=
  for_range (n cfg) (λ i logsize,
    sv ← slice_get (saved cfg) i; p ← sv; ps ← pref_state p cfg;
    let size := PS.RaftStateSize sz ps in
    Some (if logsize <? size then size else logsize)) 0.
End config.
End RH.
