(* ===== verification/Voting.v ===== *)
(** The contract of a Raft election, with no messages, logs or persistence:
    every peer has a current term, votes at most once per term, and a candidate
    leads a term once a majority of the peers voted for it in that term.

    The networks of [raft.go] peers and of [node.go] peers are both proved to
    implement it; [election_safety] is proved here once. *)

From S2P Require Import Prelude.

#[local] Open Scope Z_scope.

Section voting.
Context (cluster : gset Z).

Record vstate := mkV {
  vterm : gmap Z Z;
  grants : gset (Z * Z * Z);   (* (voter, term, candidate) *)
  leaders : gset (Z * Z)       (* (term, leader) *)
}.

Definition majority (Q : gset Z) : Prop :=
  Q ⊆ cluster ∧ (size cluster < 2 * size Q)%nat.

Inductive vstep : vstate → vstate → Prop :=
  | v_advance s p t t' :
      vterm s !! p = Some t → t < t' →
      vstep s (mkV (<[p := t']> (vterm s)) (grants s) (leaders s))
  | v_vote s p t c :
      vterm s !! p = Some t → (∀ c', (p, t, c') ∈ grants s → c' = c) →
      vstep s (mkV (vterm s) ({[(p, t, c)]} ∪ grants s) (leaders s))
  | v_lead s t c Q :
      majority Q → (∀ q, q ∈ Q → (q, t, c) ∈ grants s) →
      vstep s (mkV (vterm s) (grants s) ({[(t, c)]} ∪ leaders s)).

Definition vinit (terms : gmap Z Z) : vstate := mkV terms ∅ ∅.

Lemma majority_intersect Q1 Q2 : majority Q1 → majority Q2 → ∃ q, q ∈ Q1 ∧ q ∈ Q2.
Proof.
  intros [H1 S1] [H2 S2]. destruct (set_choose_or_empty (Q1 ∩ Q2)) as [[q Hq]|He].
  - exists q. set_solver.
  - exfalso. assert (size (Q1 ∪ Q2) ≤ size cluster)%nat as Hle.
    { apply subseteq_size. set_solver. }
    rewrite size_union in Hle by set_solver. lia.
Qed.

Record vinv (s : vstate) : Prop := {
  vi_once : ∀ p t c1 c2, (p, t, c1) ∈ grants s → (p, t, c2) ∈ grants s → c1 = c2;
  vi_quorum : ∀ t c, (t, c) ∈ leaders s →
    ∃ Q, majority Q ∧ ∀ q, q ∈ Q → (q, t, c) ∈ grants s
}.

Lemma vinv_init terms : vinv (vinit terms).
Proof. split; simpl; set_solver. Qed.

Lemma vinv_step s s' : vinv s → vstep s s' → vinv s'.
Proof.
  intros [Ho Hq] Hs. destruct Hs as [s p t t' _ _|s p t c _ Hc|s t c Q HQ HgQ];
    split; simpl; try done.
  - intros q u c1 c2 H1 H2. set_unfold. naive_solver.
  - intros u d Hd. destruct (Hq u d Hd) as (Q & ? & ?). exists Q. set_solver.
  - intros u d Hd. set_unfold in Hd. naive_solver.
Qed.

Lemma vinv_steps s s' : vinv s → rtc vstep s s' → vinv s'.
Proof. intros H Hs. induction Hs; eauto using vinv_step. Qed.

Lemma grants_mono s s' : rtc vstep s s' → grants s ⊆ grants s'.
Proof. induction 1 as [|s s1 s2 Hs _ IH]; [done|]. destruct Hs; set_solver. Qed.

Lemma leaders_mono s s' : rtc vstep s s' → leaders s ⊆ leaders s'.
Proof. induction 1 as [|s s1 s2 Hs _ IH]; [done|]. destruct Hs; set_solver. Qed.

(** At most one leader per term. *)
Lemma voting_safe s t c1 c2 :
  vinv s → (t, c1) ∈ leaders s → (t, c2) ∈ leaders s → c1 = c2.
Proof.
  intros [Ho Hq] H1 H2. destruct (Hq _ _ H1) as (Q1 & M1 & G1).
  destruct (Hq _ _ H2) as (Q2 & M2 & G2).
  destruct (majority_intersect Q1 Q2 M1 M2) as (q & ? & ?). eauto.
Qed.
End voting.


