(* ===== verification/Ballot.v ===== *)
(** Elections by messages, between the voting contract and the networks of
    [raft.go] and [node.go] peers.

    A [ballot] knows of every peer its term, its vote and its role, and of every
    election the calls that are in flight and the votes counted so far; logs and
    storage are gone.  [grants] and [leaders] record what happened.  The steps
    leave open when a peer votes, so both implementations simulate them;
    [bstep_refines] shows that every step is a run of [Voting]. *)

From S2P Require Import Prelude Gob RaftLog Raft Voting.

#[local] Open Scope Z_scope.

Definition cluster (n : Z) : gset Z := list_to_set (seqZ 0 n).

Lemma elem_of_cluster n q : q ∈ cluster n ↔ 0 ≤ q < n.
Proof. unfold cluster. rewrite elem_of_list_to_set, elem_of_seqZ. lia. Qed.

Lemma size_cluster n : size (cluster n) = Z.to_nat n.
Proof. unfold cluster. by rewrite size_list_to_set, length_seqZ by apply NoDup_seqZ. Qed.

Module BL.

Record bpeer := mkB {
  b_term : Z;
  b_vote : Z;
  b_role : Role
}.

(** [p] runs an election for term [t]: it has not asked yet, it asks [q], or [q]
    has granted its vote. *)
Inductive bcall := BElect (p t : Z) | BReq (p t q : Z) | BRep (p t q : Z).

Record ballot := mkBallot {
  b_peers : gmap Z bpeer;
  b_votes : gmap (Z * Z) Z;
  b_calls : list bcall;
  b_grants : gset (Z * Z * Z);
  b_leaders : gset (Z * Z)
}.

(** A step of a peer that takes no part in an election: its term stays and it
    may step down, or it learns of a later term. *)
Definition bquiet (x x' : bpeer) : Prop :=
  (b_term x' = b_term x ∧ b_vote x' = b_vote x ∧ (b_role x' = b_role x ∨ b_role x' = Follower)) ∨
  (b_term x < b_term x' ∧ b_vote x' = -1 ∧ b_role x' = Follower).

Section ballot.
Context (n : Z).
Implicit Types (s : ballot) (x : bpeer) (p q t v : Z).

Inductive bstep : ballot → ballot → Prop :=
  | bs_quiet s p x x' :
      b_peers s !! p = Some x → bquiet x x' →
      bstep s (mkBallot (<[p := x']> (b_peers s)) (b_votes s) (b_calls s) (b_grants s) (b_leaders s))
  | bs_candidate s p x :
      b_peers s !! p = Some x →
      bstep s (mkBallot (<[p := mkB (b_term x + 1) p Candidate]> (b_peers s)) (b_votes s)
                 (BElect p (b_term x + 1) :: b_calls s)
                 ({[(p, b_term x + 1, p)]} ∪ b_grants s) (b_leaders s))
  | bs_start s p x qs rest :
      b_calls s ≡ₚ BElect p (b_term x) :: rest →
      b_peers s !! p = Some x → b_role x = Candidate →
      NoDup qs → (∀ q, q ∈ qs → 0 ≤ q < n ∧ q ≠ p) →
      bstep s (mkBallot (b_peers s) (<[(p, b_term x) := 1]> (b_votes s))
                 ((BReq p (b_term x) <$> qs) ++ rest) (b_grants s) (b_leaders s))
  | bs_drop s calls :
      calls ⊆+ b_calls s →
      bstep s (mkBallot (b_peers s) (b_votes s) calls (b_grants s) (b_leaders s))
  | bs_grant s p t q x rest :
      b_calls s ≡ₚ BReq p t q :: rest → b_peers s !! q = Some x → b_term x ≤ t →
      (b_term x = t → b_vote x = -1 ∨ b_vote x = p) →
      bstep s (mkBallot
                 (<[q := mkB t p (if decide (b_term x = t) then b_role x else Follower)]> (b_peers s))
                 (b_votes s) (BRep p t q :: rest) ({[(q, t, p)]} ∪ b_grants s) (b_leaders s))
  | bs_count s p t q v rest :
      b_calls s ≡ₚ BRep p t q :: rest → b_votes s !! (p, t) = Some v →
      bstep s (mkBallot (b_peers s) (<[(p, t) := v + 1]> (b_votes s)) rest (b_grants s) (b_leaders s))
  | bs_lead s p x v :
      b_peers s !! p = Some x → b_role x = Candidate →
      b_votes s !! (p, b_term x) = Some v → n < 2 * v →
      bstep s (mkBallot (<[p := mkB (b_term x) (b_vote x) Leader]> (b_peers s)) (b_votes s)
                 (b_calls s) (b_grants s) ({[(b_term x, p)]} ∪ b_leaders s))
  | bs_forget s p :
      bstep s (mkBallot (b_peers s) (filter (λ kv, kv.1.1 ≠ p) (b_votes s)) (b_calls s)
                 (b_grants s) (b_leaders s)).

(** The call of an election; [-1] stands for the goroutine that starts the
    others. *)
Definition bkey (c : bcall) : Z * Z * Z :=
  match c with BElect p t => (p, t, -1) | BReq p t q => (p, t, q) | BRep p t q => (p, t, q) end.

Definition started (ps : gmap Z bpeer) p t : Prop :=
  ∃ x, ps !! p = Some x ∧ t ≤ b_term x.

Definition call_ok (ps : gmap Z bpeer) (g : gset (Z * Z * Z)) (c : bcall) : Prop :=
  match c with
  | BElect p t => started ps p t
  | BReq p t q => 0 ≤ q < n ∧ q ≠ p ∧ started ps p t
  | BRep p t q => 0 ≤ q < n ∧ (q, t, p) ∈ g ∧ started ps p t
  end.

Record bpeer_ok (g : gset (Z * Z * Z)) (l : gset (Z * Z)) p x : Prop := {
  bp_range : 0 ≤ p < n;
  bp_grant : ∀ t c, (p, t, c) ∈ g → c ≠ -1 ∧ t ≤ b_term x ∧ (t = b_term x → b_vote x = c);
  bp_voted : b_vote x ≠ -1 → (p, b_term x, b_vote x) ∈ g;
  bp_self : b_role x ≠ Follower → b_vote x = p;
  bp_lead : b_role x = Leader → (b_term x, p) ∈ l
}.

Record binv s : Prop := {
  bi_peer : ∀ p x, b_peers s !! p = Some x → bpeer_ok (b_grants s) (b_leaders s) p x;
  bi_call : ∀ c, c ∈ b_calls s → call_ok (b_peers s) (b_grants s) c;
  bi_nodup : NoDup (bkey <$> b_calls s);
  bi_elect : ∀ p t q, (p, t, -1) ∈ bkey <$> b_calls s →
    b_votes s !! (p, t) = None ∧ (q ≠ -1 → (p, t, q) ∉ bkey <$> b_calls s);
  bi_votes : ∀ p t v, b_votes s !! (p, t) = Some v →
    started (b_peers s) p t ∧
    ∃ C, v = Z.of_nat (size C) ∧ C ⊆ cluster n ∧
      ∀ q, q ∈ C → (q, t, p) ∈ b_grants s ∧ (p, t, q) ∉ bkey <$> b_calls s
}.

Definition abs s : vstate := mkV (b_term <$> b_peers s) (b_grants s) (b_leaders s).

(** ** Frames *)

Lemma started_insert ps p x x' q t :
  ps !! p = Some x → b_term x ≤ b_term x' → started ps q t → started (<[p := x']> ps) q t.
Proof.
  intros Hp Ht (y & Hq & Hy). destruct (decide (p = q)) as [->|Hne].
  - exists x'. rewrite lookup_insert_eq. simplify_eq. split; [done|lia].
  - exists y. by rewrite lookup_insert_ne.
Qed.

Lemma call_ok_insert ps p x x' g g' c :
  ps !! p = Some x → b_term x ≤ b_term x' → g ⊆ g' → call_ok ps g c →
  call_ok (<[p := x']> ps) g' c.
Proof.
  intros Hp Ht Hg. destruct c; simpl; naive_solver eauto using started_insert.
Qed.

Lemma bpeer_ok_other g g' l l' p q y :
  q ≠ p → (∀ t c, (q, t, c) ∈ g' ↔ (q, t, c) ∈ g) → l ⊆ l' →
  bpeer_ok g l q y → bpeer_ok g' l' q y.
Proof.
  intros Hne Hg Hl []. split; try done.
  - intros t c. rewrite Hg. auto.
  - rewrite Hg. auto.
  - auto.
Qed.

(** Updating one peer whose term does not decrease, with calls taken away. *)
Lemma binv_update s p x x' calls g l :
  binv s → b_peers s !! p = Some x → b_term x ≤ b_term x' →
  b_grants s ⊆ g → b_leaders s ⊆ l →
  (∀ q t c, q ≠ p → (q, t, c) ∈ g ↔ (q, t, c) ∈ b_grants s) → bpeer_ok g l p x' →
  (bkey <$> calls) ⊆+ (bkey <$> b_calls s) →
  (∀ c, c ∈ calls → c ∈ b_calls s ∨ call_ok (<[p := x']> (b_peers s)) g c) →
  binv (mkBallot (<[p := x']> (b_peers s)) (b_votes s) calls g l).
Proof.
  intros [I1 I2 I3 I4 I5] Hp Ht Hg Hl Hoth Hok Hk Hc. split; simpl.
  - intros q y. destruct (decide (p = q)) as [->|Hne].
    + rewrite lookup_insert_eq. by intros [= <-].
    + rewrite lookup_insert_ne by done. intros Hq.
      eapply (bpeer_ok_other (b_grants s) g (b_leaders s) l p); eauto.
  - intros c [Hin|Hin]%Hc; [|done]. eapply call_ok_insert; eauto.
  - destruct (submseteq_Permutation _ _ Hk) as [k Hk']. rewrite Hk' in I3.
    by apply list.NoDup_app in I3 as [? _].
  - intros q t q' Hq. destruct (I4 q t q') as [H1 H2]; [by eapply elem_of_submseteq|].
    split; [done|]. intros ? ?. apply H2; [done|]. by eapply elem_of_submseteq.
  - intros q t v (Hst & C & ? & ? & HC)%I5. split; [by eapply started_insert|].
    exists C. split_and!; [done|done|]. intros q' Hq'. destruct (HC q' Hq') as [H1 H2].
    split; [auto|]. intros ?. apply H2. by eapply elem_of_submseteq.
Qed.

(** ** The steps *)

Lemma quiet_refines s p x x' :
  binv s → b_peers s !! p = Some x → bquiet x x' →
  let s' := mkBallot (<[p := x']> (b_peers s)) (b_votes s) (b_calls s) (b_grants s) (b_leaders s) in
  binv s' ∧ rtc (vstep (cluster n)) (abs s) (abs s').
Proof.
  intros I Hp Hq. pose proof (bi_peer s I p x Hp) as [].
  assert (vterm (abs s) !! p = Some (b_term x)) as Hv by (simpl; by rewrite lookup_fmap, Hp).
  destruct Hq as [(Ht & Hvo & Hr)|(Ht & Hvo & Hr)]; split.
  - apply (binv_update s p x x'); try done; [lia| |by left].
    split; try done; rewrite ?Ht, ?Hvo; try done; destruct Hr as [->| ->]; done.
  - unfold abs. simpl. rewrite fmap_insert, insert_id; [done|]. by rewrite lookup_fmap, Hp, Ht.
  - apply (binv_update s p x x'); try done; [lia| |by left]. split; try done; rewrite ?Hr, ?Hvo; try done.
    intros t c Hg. destruct (bp_grant0 t c Hg) as (? & ? & _). split_and!; [done|lia|lia].
  - unfold abs. simpl. rewrite fmap_insert. by eapply rtc_once, (v_advance _ (abs s)).
Qed.

(** A vote of [p] for [c] in term [t]. *)
Lemma vote_abs s p x t c x' votes calls :
  binv s → b_peers s !! p = Some x → b_term x ≤ t → b_term x' = t →
  (∀ c', (p, t, c') ∈ b_grants s → c' = c) →
  rtc (vstep (cluster n)) (abs s)
    (abs (mkBallot (<[p := x']> (b_peers s)) votes calls ({[(p, t, c)]} ∪ b_grants s) (b_leaders s))).
Proof.
  intros I Hp Hle Ht Hc. unfold abs. simpl. rewrite fmap_insert, Ht.
  set (m := mkV (<[p := t]> (b_term <$> b_peers s)) (b_grants s) (b_leaders s)).
  assert (vstep (cluster n) m (mkV (vterm m) ({[(p, t, c)]} ∪ grants m) (leaders m))) as Hvote.
  { apply v_vote; simpl; [by rewrite lookup_insert_eq|done]. }
  eapply rtc_r; [|exact Hvote]. subst m. clear Hvote.
  destruct (decide (b_term x = t)) as [<-|Hne].
  - rewrite insert_id; [done|]. by rewrite lookup_fmap, Hp.
  - eapply rtc_once, (v_advance _ (abs s)); [simpl; by rewrite lookup_fmap, Hp|lia].
Qed.

Lemma vote_peer_ok s p x t c r :
  bpeer_ok (b_grants s) (b_leaders s) p x → b_term x ≤ t → c ≠ -1 →
  (∀ c', (p, t, c') ∈ b_grants s → c' = c) → (r ≠ Follower → c = p ∧ r = Candidate) →
  bpeer_ok ({[(p, t, c)]} ∪ b_grants s) (b_leaders s) p (mkB t c r).
Proof.
  intros [] Hle Hc Hone Hr. split; simpl; try done.
  - intros u d [[= -> ->]%elem_of_singleton|Hg]%elem_of_union; [done|].
    destruct (bp_grant0 _ _ Hg) as (? & ? & _). split_and!; [done|lia|].
    intros ->. symmetry. by apply Hone.
  - intros _. set_solver.
  - by intros [? _]%Hr.
  - intros ->. by destruct Hr as [_ ?].
Qed.

Lemma candidate_refines s p x :
  binv s → b_peers s !! p = Some x →
  let s' := mkBallot (<[p := mkB (b_term x + 1) p Candidate]> (b_peers s)) (b_votes s)
              (BElect p (b_term x + 1) :: b_calls s)
              ({[(p, b_term x + 1, p)]} ∪ b_grants s) (b_leaders s) in
  binv s' ∧ rtc (vstep (cluster n)) (abs s) (abs s').
Proof.
  intros I Hp. pose proof (bi_peer s I p x Hp) as Hok. pose proof (bp_range _ _ _ _ Hok) as Hrange.
  assert (∀ c', (p, b_term x + 1, c') ∈ b_grants s → c' = p) as Hone.
  { intros c' (_ & ? & _)%(bp_grant _ _ _ _ Hok). lia. }
  split; [|eapply (vote_abs s p x); try done; simpl; lia].
  assert (∀ q, (p, b_term x + 1, q) ∉ bkey <$> b_calls s) as Hfresh.
  { intros q (c & E & Hc%(bi_call s I))%list_elem_of_fmap.
    destruct c; simpl in *; simplify_eq; destruct_and?; unfold started in *; naive_solver lia. }
  destruct (binv_update s p x (mkB (b_term x + 1) p Candidate) (b_calls s)
      ({[(p, b_term x + 1, p)]} ∪ b_grants s) (b_leaders s)) as [J1 J2 J3 J4 J5];
    try done; simpl; [lia|set_solver|set_solver| |by left|].
  { apply (vote_peer_ok s p x); try done; lia. }
  simpl in *. split; simpl.
  - done.
  - intros c [->|Hc]%elem_of_cons; [|by apply J2]. simpl. eexists. rewrite lookup_insert_eq.
    split; [done|]. simpl. lia.
  - apply list.NoDup_cons. split; [apply Hfresh|done].
  - intros p' t' q. rewrite !elem_of_cons. intros [[= -> ->]|Hin].
    + split; [|naive_solver]. destruct (b_votes s !! (p, b_term x + 1)) eqn:Ev; [|done].
      apply (bi_votes s I) in Ev as [(y & ? & ?) _]. simplify_eq. lia.
    + destruct (J4 p' t' q Hin) as [? Hn]. split; [done|]. intros Hq [?|?]; [naive_solver|by apply Hn].
  - intros p' t' v Hv. destruct (J5 p' t' v Hv) as (? & C & ? & HC1 & HC). split; [done|].
    exists C. split_and!; [done|done|]. intros q Hq. destruct (HC q Hq) as [? Hn]. split; [done|].
    rewrite elem_of_cons. intros [[= -> -> ->]|?]; [|done].
    assert (0 ≤ -1 < n); [apply elem_of_cluster; set_solver|lia].
Qed.

Lemma grant_refines s p t q x rest :
  binv s → b_calls s ≡ₚ BReq p t q :: rest → b_peers s !! q = Some x → b_term x ≤ t →
  (b_term x = t → b_vote x = -1 ∨ b_vote x = p) →
  let s' := mkBallot
      (<[q := mkB t p (if decide (b_term x = t) then b_role x else Follower)]> (b_peers s))
      (b_votes s) (BRep p t q :: rest) ({[(q, t, p)]} ∪ b_grants s) (b_leaders s) in
  binv s' ∧ rtc (vstep (cluster n)) (abs s) (abs s').
Proof.
  intros I Hk Hq Hle Hfree. pose proof (bi_peer s I q x Hq) as Hok.
  assert (BReq p t q ∈ b_calls s) as Hin by (rewrite Hk; set_solver).
  destruct (bi_call s I _ Hin) as (Hqn & Hne & y & Hy & Hty).
  pose proof (bp_range _ _ _ _ (bi_peer s I p y Hy)) as Hrange.
  assert (∀ c', (q, t, c') ∈ b_grants s → c' = p) as Hone.
  { intros c' Hg. destruct (bp_grant _ _ _ _ Hok _ _ Hg) as (? & ? & Heq).
    destruct Hfree as [E|E]; [lia|..]; rewrite Heq in E by lia; congruence. }
  split; [|eapply (vote_abs s q x); try done; simpl; lia].
  apply (binv_update s q x); try done; simpl; [set_solver|set_solver| | |].
  - apply (vote_peer_ok s q x); try done; [lia|]. case_decide as Ht; [|done]. intros Hr.
    pose proof (bp_self _ _ _ _ Hok Hr) as Hv. destruct (Hfree Ht) as [E|E]; [lia|congruence].
  - rewrite Hk. done.
  - intros c [->|Hc]%elem_of_cons; [right|left; rewrite Hk; set_solver]. simpl.
    split_and!; [lia|lia|set_solver|]. eapply started_insert; [done| |by exists y]. simpl. lia.
Qed.

(** Calls that are lost, and counts of a peer that restarts. *)
Lemma fewer_inv s votes calls :
  binv s → votes ⊆ b_votes s → calls ⊆+ b_calls s →
  binv (mkBallot (b_peers s) votes calls (b_grants s) (b_leaders s)).
Proof.
  intros [I1 I2 I3 I4 I5] Hv Hc.
  assert ((bkey <$> calls) ⊆+ (bkey <$> b_calls s)) as Hk by by apply fmap_submseteq.
  split; simpl; [done|..].
  - intros c ?. apply I2. by eapply elem_of_submseteq.
  - destruct (submseteq_Permutation _ _ Hk) as [k Hk']. rewrite Hk' in I3.
    by apply list.NoDup_app in I3 as [? _].
  - intros p t q Hq. destruct (I4 p t q) as [H1 H2]; [by eapply elem_of_submseteq|].
    split; [by eapply lookup_weaken_None|]. intros ? ?. apply H2; [done|]. by eapply elem_of_submseteq.
  - intros p t v Hp. destruct (I5 p t v) as (? & C & ? & ? & HC); [by eapply lookup_weaken|].
    split; [done|]. exists C. split_and!; [done|done|]. intros q Hq.
    destruct (HC q Hq) as [? Hn]. split; [done|]. intros ?. apply Hn. by eapply elem_of_submseteq.
Qed.

(** The election starts its calls: the candidate's own vote is counted. *)
Lemma start_inv s p x qs rest :
  binv s → b_calls s ≡ₚ BElect p (b_term x) :: rest →
  b_peers s !! p = Some x → b_role x = Candidate →
  NoDup qs → (∀ q, q ∈ qs → 0 ≤ q < n ∧ q ≠ p) →
  binv (mkBallot (b_peers s) (<[(p, b_term x) := 1]> (b_votes s))
          ((BReq p (b_term x) <$> qs) ++ rest) (b_grants s) (b_leaders s)).
Proof.
  intros I Hk Hp Hr Hnd Hqs. destruct (bi_peer s I p x Hp) as [Hrange _ Hvoted Hself _].
  assert ((p, b_term x, -1) ∈ bkey <$> b_calls s) as Hel by (rewrite Hk; set_solver).
  pose proof (bi_elect s I p (b_term x)) as Hno.
  pose proof (bi_nodup s I) as Hnk. rewrite Hk in Hnk. apply list.NoDup_cons in Hnk as [Hel' Hnk].
  assert (∀ k, k ∈ bkey <$> rest → k ∈ bkey <$> b_calls s) as Hsub.
  { intros k ?. rewrite Hk. set_solver. }
  assert (∀ k, k ∈ bkey <$> ((BReq p (b_term x) <$> qs) ++ rest) →
    (∃ q, q ∈ qs ∧ k = (p, b_term x, q)) ∨ k ∈ bkey <$> rest) as Hkeys.
  { intros k. rewrite fmap_app, elem_of_app, <-list_fmap_compose, list_elem_of_fmap. naive_solver. }
  split; simpl.
  - apply I.
  - intros c [(q & -> & Hq)%list_elem_of_fmap|Hc]%elem_of_app.
    + simpl. destruct (Hqs q Hq). split_and!; try lia. by exists x.
    + apply (bi_call s I). rewrite Hk. set_solver.
  - rewrite fmap_app, <-list_fmap_compose. apply list.NoDup_app. split_and!; [|..|done].
    + apply list.NoDup_fmap_2; [|done]. by intros a b [= ->].
    + intros k (q & -> & Hq)%list_elem_of_fmap Hk2. destruct (Hqs q Hq).
      destruct (Hno q Hel) as [_ Hn]. apply Hn; [lia|]. by apply Hsub.
  - intros p' t' q Hk'. apply Hkeys in Hk' as [(q' & Hq' & [= -> -> <-])|Hk'].
    { destruct (Hqs _ Hq'). lia. }
    destruct (bi_elect s I p' t' q) as [H1 H2]; [by apply Hsub|].
    assert ((p, b_term x) ≠ (p', t')) as Hne by (intros [= <- <-]; done).
    rewrite lookup_insert_ne by done. split; [done|].
    intros ? [(? & _ & [= ? ? _])|?]%Hkeys; [congruence|]. apply H2; [done|]. by apply Hsub.
  - intros p' t' v. rewrite lookup_insert_Some. intros [([= <- <-] & <-)|[Hne Hv]].
    + split; [by exists x|]. exists {[p]}. rewrite size_singleton. split_and!; [done|..].
      * intros q ->%elem_of_singleton. by apply elem_of_cluster.
      * intros q ->%elem_of_singleton. rewrite Hself in Hvoted by congruence.
        split; [apply Hvoted; lia|]. intros [(q & Hq & [= ->])|Hq]%Hkeys.
        -- by destruct (Hqs _ Hq).
        -- destruct (Hno p Hel) as [_ Hn]. apply Hn; [lia|]. by apply Hsub.
    + destruct (bi_votes s I p' t' v Hv) as (? & C & ? & ? & HC). split; [done|].
      exists C. split_and!; [done|done|]. intros q Hq. destruct (HC q Hq) as [? Hn]. split; [done|].
      intros [(? & _ & [= ? ? _])|?]%Hkeys; [congruence|]. by apply Hn, Hsub.
Qed.

Lemma count_inv s p t q v rest :
  binv s → b_calls s ≡ₚ BRep p t q :: rest → b_votes s !! (p, t) = Some v →
  binv (mkBallot (b_peers s) (<[(p, t) := v + 1]> (b_votes s)) rest (b_grants s) (b_leaders s)).
Proof.
  intros I Hk Hv.
  assert (BRep p t q ∈ b_calls s) as Hin by (rewrite Hk; set_solver).
  destruct (bi_call s I _ Hin) as (Hq & Hg & Hst).
  pose proof (bi_nodup s I) as Hnk. rewrite Hk in Hnk. apply list.NoDup_cons in Hnk as [Hel' _].
  destruct (fewer_inv s (b_votes s) rest I) as [J1 J2 J3 J4 J5]; [done|rewrite Hk; by apply submseteq_cons|].
  simpl in *. split; simpl; try done.
  - intros p' t' q' Hk'. destruct (J4 p' t' q' Hk') as [H1 H2]. split; [|done].
    rewrite lookup_insert_None. split; [done|]. intros [= <- <-]. congruence.
  - intros p' t' v'. rewrite lookup_insert_Some. intros [([= <- <-] & <-)|[Hne Hv']]; [|by eauto].
    destruct (bi_votes s I p t v Hv) as (_ & C & -> & HC1 & HC). split; [done|].
    assert (q ∉ C) as Hnew.
    { intros Hc. apply (proj2 (HC q Hc)). rewrite Hk. set_solver. }
    exists ({[q]} ∪ C). split_and!.
    + rewrite size_union by set_solver. rewrite size_singleton. lia.
    + apply union_subseteq. split; [|done]. intros ? ->%elem_of_singleton. by apply elem_of_cluster.
    + intros q' [->%elem_of_singleton|Hc]%elem_of_union; [done|].
      destruct (HC q' Hc) as [? Hn]. split; [done|]. intros ?. apply Hn. rewrite Hk. set_solver.
Qed.

Lemma lead_refines s p x v :
  binv s → b_peers s !! p = Some x → b_role x = Candidate →
  b_votes s !! (p, b_term x) = Some v → n < 2 * v →
  let s' := mkBallot (<[p := mkB (b_term x) (b_vote x) Leader]> (b_peers s)) (b_votes s)
              (b_calls s) (b_grants s) ({[(b_term x, p)]} ∪ b_leaders s) in
  binv s' ∧ rtc (vstep (cluster n)) (abs s) (abs s').
Proof.
  intros I Hp Hr Hv Hmaj. pose proof (bi_peer s I p x Hp) as []. split.
  - apply (binv_update s p x); try done; simpl; [set_solver| |by left]. split; simpl; try done.
    + intros _. apply bp_self0. congruence.
    + set_solver.
  - unfold abs. simpl. rewrite fmap_insert, insert_id by by rewrite lookup_fmap, Hp.
    destruct (bi_votes s I p (b_term x) v Hv) as (_ & C & -> & HC1 & HC).
    eapply rtc_once, (v_lead _ (abs s) (b_term x) p C).
    + split; [done|]. rewrite size_cluster. lia.
    + intros q Hq. by apply HC.
Qed.

(** Every step of a ballot keeps its invariant and is a run of [Voting]. *)
Lemma bstep_refines s s' :
  binv s → bstep s s' → binv s' ∧ rtc (vstep (cluster n)) (abs s) (abs s').
Proof.
  intros I H. destruct H.
  - by eapply quiet_refines.
  - by apply candidate_refines.
  - split; [by apply start_inv|done].
  - split; [by apply fewer_inv|done].
  - by apply grant_refines.
  - split; [by eapply count_inv|done].
  - by eapply lead_refines.
  - split; [|done]. apply fewer_inv; try done. apply map_filter_subseteq.
Qed.

Lemma bsteps_refine s s' :
  binv s → rtc bstep s s' → binv s' ∧ rtc (vstep (cluster n)) (abs s) (abs s').
Proof.
  intros I H. induction H as [s|s s1 s2 H1 _ IH]; [done|].
  destruct (bstep_refines s s1 I H1) as [I1 R1]. destruct (IH I1) as [I2 R2].
  split; [done|by etrans].
Qed.

(** A ballot in which nobody has voted. *)
Definition bfresh (terms : gmap Z Z) : ballot :=
  mkBallot ((λ t, mkB t (-1) Follower) <$> terms) ∅ [] ∅ ∅.

Lemma bfresh_inv terms : dom terms ⊆ cluster n → binv (bfresh terms).
Proof.
  intros Hd. split; simpl; try set_solver; [|constructor].
  intros p x. rewrite lookup_fmap. intros (t & Ht & ->)%fmap_Some.
  split; simpl; try done; try set_solver.
  apply elem_of_cluster, Hd. by apply elem_of_dom_2 in Ht.
Qed.

Lemma bfresh_abs terms : abs (bfresh terms) = vinit terms.
Proof. unfold abs, bfresh, vinit. simpl. f_equal. rewrite <-map_fmap_compose. apply map_fmap_id. Qed.

(** A peer leads a term at most once: after it stopped it cannot be a candidate of
    that term again. *)
Definition once s : Prop :=
  ∀ p x, b_peers s !! p = Some x →
    (∀ t, (t, p) ∈ b_leaders s → t ≤ b_term x) ∧ (b_role x = Candidate → (b_term x, p) ∉ b_leaders s).

Lemma once_step s s' : once s → bstep s s' → once s'.
Proof.
  intros H Hs p y Hy. destruct Hs as [s q x x' Hq Hqu|s q x Hq|s q x qs rest _ _ _ _ _|s cs _
    |s c t q x rest _ Hq Hle _|s c t q v rest _ _|s q x v Hq Hr _ _|s q]; simpl in *; try by apply H.
  - apply lookup_insert_Some in Hy as [[<- <-]|[_ Hy]]; [|by apply H].
    destruct (H _ _ Hq) as [H1 H2]. destruct Hqu as [(Ht & _ & Hro)|(Ht & _ & Hro)].
    + rewrite Ht. split; [done|]. destruct Hro as [->| ->]; done.
    + split; [|by rewrite Hro]. intros t Hin%H1. lia.
  - apply lookup_insert_Some in Hy as [[<- <-]|[_ Hy]]; [|by apply H].
    destruct (H _ _ Hq) as [H1 _]. simpl. split; [|intros _ Hin%H1; lia]. intros t Hin%H1. lia.
  - apply lookup_insert_Some in Hy as [[<- <-]|[_ Hy]]; [|by apply H].
    destruct (H _ _ Hq) as [H1 H2]. simpl. split; [intros u Hin%H1; lia|].
    case_decide as Hd; [|done]. by rewrite <-Hd.
  - apply lookup_insert_Some in Hy as [[<- <-]|[Hne Hy]].
    + destruct (H _ _ Hq) as [H1 _]. split; [|done]. simpl. intros t Hin. set_unfold in Hin.
      destruct Hin as [[= ->]|Hin]; [lia|by apply H1].
    + destruct (H _ _ Hy) as [H1 H2]. split; [|intros Hc Hin; apply (H2 Hc)].
      * intros t Hin. apply H1. set_solver.
      * set_solver.
Qed.

Lemma once_steps s s' : once s → rtc bstep s s' → once s'.
Proof. intros H Hs. induction Hs; eauto using once_step. Qed.

Lemma bfresh_once terms : once (bfresh terms).
Proof. intros p x H. simpl in *. set_solver. Qed.

(** Terms start at 1 and grow. *)
Definition positive s : Prop := ∀ p x, b_peers s !! p = Some x → 1 ≤ b_term x.

Lemma positive_step s s' : positive s → bstep s s' → positive s'.
Proof.
  intros H Hs p y Hy. destruct Hs as [s q x x' Hq Hqu|s q x Hq|s q x qs rest _ _ _ _ _|s cs _
    |s c t q x rest _ Hq Hle _|s c t q v rest _ _|s q x v Hq Hr _ _|s q]; simpl in *; try by eapply H.
  all: apply lookup_insert_Some in Hy as [[<- <-]|[_ Hy]]; [|by eapply H]; pose proof (H _ _ Hq); simpl; try lia.
  destruct Hqu as [(? & _)|(? & _)]; lia.
Qed.

Lemma positive_steps s s' : positive s → rtc bstep s s' → positive s'.
Proof. intros H Hs. induction Hs; eauto using positive_step. Qed.

(** The peers stay the same. *)
Lemma bdom_steps s s' : rtc bstep s s' → dom (b_peers s') = dom (b_peers s).
Proof.
  induction 1 as [|s s1 s2 Hs _ IH]; [done|]. rewrite IH. destruct Hs; simpl; try done; by rewrite dom_insert_lookup_L.
Qed.

Lemma bleaders_mono s s' : rtc bstep s s' → b_leaders s ⊆ b_leaders s'.
Proof. induction 1 as [|s s1 s2 Hs _ IH]; [done|]. destruct Hs; set_solver. Qed.

Lemma bleaders_unique terms s t p q :
  dom terms ⊆ cluster n → rtc bstep (bfresh terms) s →
  (t, p) ∈ b_leaders s → (t, q) ∈ b_leaders s → p = q.
Proof.
  intros Hd H. destruct (bsteps_refine _ _ (bfresh_inv _ Hd) H) as [_ R]. rewrite bfresh_abs in R.
  apply (voting_safe (cluster n) (abs s) t). exact (vinv_steps _ _ _ (vinv_init _ _) R).
Qed.

(** Two leaders of one term, now or one of them earlier, are the same peer. *)
Lemma ballot_safe terms s1 s2 p q x y :
  dom terms ⊆ cluster n → rtc bstep (bfresh terms) s1 → rtc bstep s1 s2 →
  b_peers s1 !! p = Some x → b_role x = Leader →
  b_peers s2 !! q = Some y → b_role y = Leader → b_term x = b_term y → p = q.
Proof.
  intros Hd H1 H2 Hp Hx Hq Hy Ht.
  destruct (bsteps_refine _ _ (bfresh_inv _ Hd) H1) as [I1 R1].
  destruct (bsteps_refine _ _ I1 H2) as [I2 R2]. rewrite bfresh_abs in R1.
  pose proof (vinv_steps _ _ _ (vinv_steps _ _ _ (vinv_init _ _) R1) R2) as Hi.
  apply (voting_safe (cluster n) (abs s2) (b_term x)); [exact Hi|..].
  - apply (leaders_mono _ _ _ R2). by eapply bp_lead; [apply (bi_peer s1 I1)|].
  - rewrite Ht. by eapply bp_lead; [apply (bi_peer s2 I2)|].
Qed.

(** ** What an implementation shows of a ballot

    A network of peers displays the peers, the counts and the calls of a ballot;
    the lemmas below are the moves of the ballot that answer its steps. *)

Implicit Types (b : ballot) (ps : gmap Z bpeer) (calls : list bcall).

Definition shows b (ps : gmap Z bpeer) (votes : gmap (Z * Z) Z) (calls : list bcall) : Prop :=
  b_peers b = ps ∧ b_votes b = votes ∧ b_calls b ≡ₚ calls.

(** A move in which nobody votes. *)
Definition still b b' : Prop := rtc bstep b b' ∧ b_grants b' = b_grants b.

(** A move with at most one vote, which is the last one of its voter. *)
Definition bmove b b' : Prop :=
  rtc bstep b b' ∧
  (b_grants b' = b_grants b ∨
   ∃ q x, b_peers b' !! q = Some x ∧ b_grants b' = {[(q, b_term x, b_vote x)]} ∪ b_grants b).

Lemma still_trans b1 b2 b3 : still b1 b2 → still b2 b3 → still b1 b3.
Proof. intros [? ?] [? ?]. split; [by etrans|congruence]. Qed.

Lemma still_bmove b b' : still b b' → bmove b b'.
Proof. intros [? ?]. split; [done|by left]. Qed.

Lemma bmove_still b b1 b2 : bmove b b1 → still b1 b2 → b_peers b2 = b_peers b1 → bmove b b2.
Proof.
  intros [H1 Hg] [H2 Hg'] Hp. split; [by etrans|]. rewrite Hg'.
  destruct Hg as [->|(q & x & Hq & ->)]; [by left|right]. exists q, x. by rewrite Hp.
Qed.

Lemma show_drop b ps votes calls calls' :
  shows b ps votes calls → calls' ⊆+ calls →
  ∃ b', still b b' ∧ shows b' ps votes calls'.
Proof.
  intros (<- & <- & Hc) Hs. eexists. split; [split; [apply rtc_once, (bs_drop b calls'); by rewrite Hc|done]|done].
Qed.

Lemma show_quiet b ps votes calls p x x' calls' :
  shows b ps votes calls → ps !! p = Some x → bquiet x x' → calls' ⊆+ calls →
  ∃ b', still b b' ∧ shows b' (<[p := x']> ps) votes calls'.
Proof.
  intros (<- & <- & Hc) Hp Hq Hs.
  set (b1 := mkBallot (<[p := x']> (b_peers b)) (b_votes b) (b_calls b) (b_grants b) (b_leaders b)).
  destruct (show_drop b1 (<[p := x']> (b_peers b)) (b_votes b) calls calls') as (b' & H & Hb');
    [by split_and!|done|].
  exists b'. split; [|done]. eapply still_trans; [|exact H]. split; [by eapply rtc_once, bs_quiet|done].
Qed.

Lemma show_candidate b ps votes calls p x :
  shows b ps votes calls → ps !! p = Some x →
  ∃ b', bmove b b' ∧
    shows b' (<[p := mkB (b_term x + 1) p Candidate]> ps) votes (BElect p (b_term x + 1) :: calls).
Proof.
  intros (<- & <- & Hc) Hp. eexists. split; [split; [by apply rtc_once, bs_candidate|right]|].
  - eexists p, _. simpl. by rewrite lookup_insert_eq.
  - split_and!; [done|done|]. simpl. by rewrite Hc.
Qed.

Lemma show_start b ps votes calls p x qs :
  shows b ps votes (BElect p (b_term x) :: calls) → ps !! p = Some x → b_role x = Candidate →
  NoDup qs → (∀ q, q ∈ qs → 0 ≤ q < n ∧ q ≠ p) →
  ∃ b', still b b' ∧
    shows b' ps (<[(p, b_term x) := 1]> votes) ((BReq p (b_term x) <$> qs) ++ calls).
Proof. intros (<- & <- & Hc) Hp Hr Hn Hq. eexists. split; [split; [by eapply rtc_once, bs_start|done]|done]. Qed.

Lemma show_grant b ps votes calls p t q x x' :
  shows b ps votes (BReq p t q :: calls) → ps !! q = Some x → b_term x ≤ t →
  (b_term x = t → b_vote x = -1 ∨ b_vote x = p) →
  x' = mkB t p (if decide (b_term x = t) then b_role x else Follower) →
  ∃ b', bmove b b' ∧ shows b' (<[q := x']> ps) votes (BRep p t q :: calls).
Proof.
  intros (<- & <- & Hc) Hp Ht Hv ->. eexists. split; [split; [by eapply rtc_once, bs_grant|right]|done].
  eexists q, _. simpl. by rewrite lookup_insert_eq.
Qed.

Lemma show_count b ps votes calls p t q v :
  shows b ps votes (BRep p t q :: calls) → votes !! (p, t) = Some v →
  ∃ b', still b b' ∧ shows b' ps (<[(p, t) := v + 1]> votes) calls.
Proof. intros (<- & <- & Hc) Hv. eexists. split; [split; [by eapply rtc_once, bs_count|done]|done]. Qed.

Lemma show_lead b ps votes calls p x x' v :
  shows b ps votes calls → ps !! p = Some x → b_role x = Candidate →
  votes !! (p, b_term x) = Some v → n < 2 * v → x' = mkB (b_term x) (b_vote x) Leader →
  ∃ b', still b b' ∧ shows b' (<[p := x']> ps) votes calls.
Proof.
  intros (<- & <- & Hc) Hp Hr Hv Hm ->. eexists. split; [split; [by eapply rtc_once, bs_lead|done]|done].
Qed.

Lemma show_restart b ps votes calls p x x' calls' :
  shows b ps votes calls → ps !! p = Some x → bquiet x x' → calls' ⊆+ calls →
  ∃ b', still b b' ∧
    shows b' (<[p := x']> ps) (filter (λ kv, kv.1.1 ≠ p) votes) calls'.
Proof.
  intros Hb Hp Hq Hs. destruct (show_quiet _ _ _ _ _ _ _ _ Hb Hp Hq Hs) as (b1 & H1 & E1 & E2 & E3).
  eexists. split; [eapply still_trans; [exact H1|split; [apply rtc_once, (bs_forget b1 p)|done]]|]. by rewrite E1, E2.
Qed.

(** What a move adds, when only one peer may have voted. *)
Lemma bgrants_mono s s' : rtc bstep s s' → b_grants s ⊆ b_grants s'.
Proof. induction 1 as [|s s1 s2 Hs _ IH]; [done|]. destruct Hs; set_solver. Qed.

Definition same_vote b q (y : bpeer) : Prop :=
  b_vote y = -1 ∨ ∃ x, b_peers b !! q = Some x ∧ b_term x = b_term y ∧ b_vote x = b_vote y.

Lemma same_vote_grants b b' q y :
  binv b → binv b' → b_peers b' !! q = Some y → same_vote b q y →
  b_grants b' = {[(q, b_term y, b_vote y)]} ∪ b_grants b → b_grants b' = b_grants b.
Proof.
  intros I I' Hq Hs E. destruct (decide (b_vote y = -1)) as [Hv|Hv].
  - destruct (bp_grant _ _ _ _ (bi_peer _ I' q y Hq) (b_term y) (b_vote y)) as [? _]; [set_solver|done].
  - destruct Hs as [?|(x & Hx & Ht & Hvx)]; [done|].
    pose proof (bp_voted _ _ _ _ (bi_peer _ I q x Hx) ltac:(congruence)) as Hin. rewrite Ht, Hvx in Hin. set_solver.
Qed.

Lemma bmove_same b b' :
  binv b → binv b' → bmove b b' → (∀ q y, b_peers b' !! q = Some y → same_vote b q y) →
  b_grants b' = b_grants b.
Proof. intros I I' [_ [?|(q & y & Hq & E)]] Hs; [done|]. eapply same_vote_grants; eauto. Qed.

Lemma bmove_vote b b' p x :
  binv b → binv b' → bmove b b' → b_peers b' !! p = Some x → b_vote x ≠ -1 →
  (∀ q y, q ≠ p → b_peers b' !! q = Some y → same_vote b q y) →
  b_grants b' = {[(p, b_term x, b_vote x)]} ∪ b_grants b.
Proof.
  intros I I' [_ Hg] Hp Hv Hs. pose proof (bp_voted _ _ _ _ (bi_peer _ I' p x Hp) Hv) as Hin.
  destruct Hg as [E|(q & y & Hq & E)]; [set_solver|]. destruct (decide (q = p)) as [->|Hne]; [congruence|].
  pose proof (same_vote_grants b b' q y I I' Hq (Hs q y Hne Hq) E). set_solver.
Qed.
End ballot.
End BL.
