(* ===== verification/RaftFacts.v ===== *)
(** One peer of [src/src/raft] on its own: the invariants every critical
    section keeps, and what each handler does.

    [peer_step] is the transition relation of a single peer: any of its
    critical sections run with any arguments, or a crash followed by a restart
    from the persister.  [peer_inv] is its invariant. *)

From S2P Require Import Prelude Gob RaftLog Raft.
Import RF.

#[local] Open Scope Z_scope.

Create HintDb raft.

Section facts.
Context {Cmd SB : Type}.
Abbreviation Raft := (RF.Raft Cmd SB).
Implicit Types (rf : Raft) (t : Z) (e : Env) (ps : PS.Persister Cmd SB).

(** ** What a restart would read back *)

Definition saved_view (ps : PS.Persister Cmd SB) : Z * Z * RL.RaftLog Cmd SB :=
  let rf := Make 0 0 ps in (currentTerm rf, votedFor rf, log rf).

(** The persister holds the peer's term, vote and log. *)
Definition synced rf : Prop :=
  saved_view (persister rf) = (currentTerm rf, votedFor rf, log rf).

Record peer_inv rf : Prop := {
  pi_synced : synced rf;
  pi_wf : RL.wf (log rf);
  pi_next : len (nextIndex rf) = npeers rf;
  pi_match : len (matchIndex rf) = npeers rf
}.

Lemma synced_persist rf : synced (persistLocked rf).
Proof.
  unfold synced, saved_view, Make. cbn. destruct (log rf) as [si st snap tl]. cbn.
  by destruct (0 <? si).
Qed.

Lemma Make_view n m ps :
  (currentTerm (Make n m ps), votedFor (Make n m ps), log (Make n m ps)) = saved_view ps.
Proof.
  unfold saved_view, Make, readPersist. cbn -[Decode RL.readPersist].
  destruct (PS.ReadRaftState ps) as [|v d]; [done|].
  destruct (Decode (v :: d)) as [[ct d1]|]; [|done].
  destruct (Decode d1) as [[vf d2]|]; [|done]. cbn -[RL.readPersist].
  destruct (RL.readPersist _ d2) as [l ok]. destruct ok; [|done]. cbn. by destruct (0 <? _).
Qed.

Lemma Make_frame n m ps :
  npeers (Make n m ps) = n ∧ me (Make n m ps) = m ∧ persister (Make n m ps) = ps ∧
  role (Make n m ps) = Follower ∧
  len (nextIndex (Make n m ps)) = Z.max 0 n ∧ len (matchIndex (Make n m ps)) = Z.max 0 n.
Proof.
  unfold Make, readPersist, len.
  repeat case_match; simplify_eq/=; rewrite !length_replicate; split_and!; lia || done.
Qed.

Lemma synced_Make n m ps : synced (Make n m ps).
Proof.
  unfold synced. rewrite Make_view. by destruct (Make_frame n m ps) as (_ & _ & -> & _).
Qed.

(** Fields that persistence does not depend on. *)
Lemma synced_reset e rf : synced rf → synced (resetElectionTimerLocked e rf).
Proof. done. Qed.
Lemma synced_signal rf : synced rf → synced (signalApply rf).
Proof. done. Qed.
Lemma synced_commit v rf : synced rf → synced (set_commitIndex v rf).
Proof. done. Qed.
Lemma synced_indices ni mi rf : synced rf → synced (set_matchIndex mi (set_nextIndex ni rf)).
Proof. done. Qed.
Lemma synced_role r rf : synced rf → synced (set_role r rf).
Proof. done. Qed.
Lemma synced_snapPending b rf : synced rf → synced (set_snapPending b rf).
Proof. done. Qed.

Lemma synced_becomeFollower t rf : synced rf → synced (becomeFollowerLocked t rf).
Proof.
  intros H. unfold becomeFollowerLocked.
  destruct (t <? currentTerm rf) eqn:E1; [done|].
  destruct (Z.eqb_spec (currentTerm rf) t) as [<-|Hne]; cbn -[persistLocked].
  - rewrite Z.ltb_irrefl. exact H.
  - apply synced_persist.
Qed.

Lemma synced_becomeCandidate rf : synced rf → synced (becomeCandidateLocked rf).
Proof.
  intros H. unfold becomeCandidateLocked. case_decide; [done|]. apply synced_persist.
Qed.
End facts.

#[export] Hint Resolve synced_persist synced_Make synced_reset synced_signal synced_commit
  synced_indices synced_role synced_snapPending synced_becomeFollower synced_becomeCandidate
  : raft.

Section frames.
Context {Cmd SB : Type}.
Abbreviation Raft := (RF.Raft Cmd SB).
Implicit Types (rf : Raft) (t : Z) (e : Env) (ps : PS.Persister Cmd SB).

(** ** Frames: what the building blocks leave alone *)

Lemma becomeFollower_spec t rf :
  let rf' := becomeFollowerLocked t rf in
  (t < currentTerm rf ∧ rf' = rf) ∨
  (currentTerm rf ≤ t ∧ currentTerm rf' = t ∧ role rf' = Follower ∧
   votedFor rf' = (if currentTerm rf <? t then -1 else votedFor rf)).
Proof.
  unfold becomeFollowerLocked. destruct (t <? currentTerm rf) eqn:E1; [left; split; [lia|done]|right].
  destruct (Z.eqb_spec (currentTerm rf) t) as [<-|Hne]; cbn.
  - rewrite Z.ltb_irrefl. cbn. split_and!; lia || done.
  - destruct (currentTerm rf <? t) eqn:E2; cbn; split_and!; lia || done.
Qed.

Lemma becomeFollower_frame t rf :
  let rf' := becomeFollowerLocked t rf in
  log rf' = log rf ∧ me rf' = me rf ∧ npeers rf' = npeers rf ∧
  nextIndex rf' = nextIndex rf ∧ matchIndex rf' = matchIndex rf ∧
  commitIndex rf' = commitIndex rf ∧ lastApplied rf' = lastApplied rf.
Proof. unfold becomeFollowerLocked. repeat case_match; done. Qed.

Lemma becomeCandidate_spec rf :
  role rf ≠ Leader →
  let rf' := becomeCandidateLocked rf in
  currentTerm rf' = currentTerm rf + 1 ∧ role rf' = Candidate ∧ votedFor rf' = me rf ∧
  log rf' = log rf ∧ me rf' = me rf ∧ npeers rf' = npeers rf ∧
  nextIndex rf' = nextIndex rf ∧ matchIndex rf' = matchIndex rf ∧
  commitIndex rf' = commitIndex rf.
Proof. intros H. unfold becomeCandidateLocked. rewrite decide_False by done. done. Qed.

(** [rf'] is [rf] with other next and match indices. *)
Definition reindexed rf rf' : Prop :=
  ∃ ni mi, rf' = set_matchIndex mi (set_nextIndex ni rf) ∧
    len ni = len (nextIndex rf) ∧ len mi = len (matchIndex rf).

Lemma reindexed_refl rf : reindexed rf rf.
Proof. exists (nextIndex rf), (matchIndex rf). by destruct rf. Qed.

Lemma reindexed_next rf rf' ni i v :
  reindexed rf rf' → slice_set (nextIndex rf') i v = Some ni →
  reindexed rf (set_nextIndex ni rf').
Proof.
  intros (ni0 & mi & -> & H1 & H2) E%slice_set_len. exists ni, mi. cbn in *.
  split_and!; [done|lia|lia].
Qed.

Lemma reindexed_match rf rf' mi i v :
  reindexed rf rf' → slice_set (matchIndex rf') i v = Some mi →
  reindexed rf (set_matchIndex mi rf').
Proof.
  intros (ni & mi0 & -> & H1 & H2) E%slice_set_len. exists ni, mi. cbn in *.
  split_and!; [done|lia|lia].
Qed.

Lemma becomeLeader_spec rf rf' :
  becomeLeaderLocked rf = Some rf' →
  (role rf ≠ Candidate ∧ rf' = rf) ∨
  (role rf = Candidate ∧ reindexed (set_role Leader rf) rf').
Proof.
  unfold becomeLeaderLocked. case_decide; [naive_solver|].
  intros E. right. split; [by destruct (role rf); naive_solver|].
  eapply (for_range_post _ _ (λ _ s, reindexed (set_role Leader rf) s)); [exact E|..].
  - apply reindexed_refl.
  - intros i s s' _ H' ?. simplify_option_eq.
    eapply reindexed_match; [by eapply reindexed_next|done].
Qed.

Lemma startReplication_spec term rf rf' calls b :
  startReplication term rf = Some (rf', calls, b) → reindexed rf rf'.
Proof.
  unfold startReplication. case_match; [intros; simplify_eq; apply reindexed_refl|].
  rewrite bind_Some. intros ([rf1 calls1] & E & ?). simplify_eq.
  eapply (for_range_post _ _ (λ _ s, reindexed rf s.1)) in E; [exact E|..].
  - apply reindexed_refl.
  - intros i [s c] [s' c'] _ Hs Hb. repeat (case_match; simplify_option_eq; try done).
    eapply reindexed_next; [by eapply reindexed_match|done].
Qed.

Lemma replicateToPeer_spec term peer args ok reply rf rf' :
  replicateToPeer term peer args ok reply rf = Some rf' →
  (∃ t, currentTerm rf < t ∧ rf' = becomeFollowerLocked t rf) ∨ reindexed rf rf' ∨
  (∃ rf1 m, reindexed rf rf1 ∧ commitIndex rf < m ∧
     rf' = signalApply (set_commitIndex m rf1)).
Proof.
  unfold replicateToPeer. intros E. repeat (case_match; simplify_option_eq).
  all: first
    [ left; eexists; split; [|reflexivity]; lia
    | right; left; solve [eauto using reindexed_refl, reindexed_next, reindexed_match]
    | right; right; do 2 eexists; split; [|split; [|reflexivity]]; [|lia];
      solve [eauto using reindexed_refl, reindexed_next, reindexed_match] ].
Qed.

Lemma installToPeer_spec peer term args ok reply rf rf' :
  installToPeer peer term args ok reply rf = Some rf' →
  (∃ t, currentTerm rf < t ∧ rf' = becomeFollowerLocked t rf) ∨ reindexed rf rf'.
Proof.
  unfold installToPeer. intros E. repeat (case_match; simplify_option_eq).
  all: first
    [ left; eexists; split; [|reflexivity]; lia
    | right; solve [eauto using reindexed_refl, reindexed_next, reindexed_match] ].
Qed.
End frames.

Section peer.
Context {Cmd SB : Type}.
Abbreviation Raft := (RF.Raft Cmd SB).
Implicit Types (rf : Raft) (t : Z) (e : Env) (ps : PS.Persister Cmd SB).

(** ** Case analysis of the two log-changing handlers *)

Lemma AppendEntries_cases e args rf rf' reply :
  AppendEntries e args rf = Some (rf', reply) →
  (ae_Term args < currentTerm rf ∧ rf' = rf ∧ ar_Success reply = false) ∨
  (currentTerm rf ≤ ae_Term args ∧
   let rf1 := becomeFollowerLocked (ae_Term args) rf in
   (ar_Success reply = false ∧ rf' = resetElectionTimerLocked e rf1) ∨
   (ar_Success reply = true ∧ ∃ l,
      RL.termAt (log rf) (ae_PrevLogIndex args) = Some (ae_PrevLogTerm args) ∧
      RL.appendFrom (log rf) (ae_PrevLogIndex args) (ae_Entries args) = Some l ∧
      let rf2 := persistLocked (set_log l rf1) in
      rf' = resetElectionTimerLocked e
              (if commitIndex rf <? ae_LeaderCommit args
               then signalApply (set_commitIndex (ae_LeaderCommit args) rf2) else rf2))).
Proof.
  unfold AppendEntries. destruct (ae_Term args <? currentTerm rf) eqn:E1.
  { intros [= <- <-]. left. split_and!; [lia|done|done]. }
  destruct (Z.leb_spec (currentTerm rf) (ae_Term args)); [|lia].
  pose proof (becomeFollower_frame (ae_Term args) rf) as (Hl & _ & _ & _ & _ & Hc & _).
  cbn zeta. rewrite Hl. intros E. right. split; [lia|].
  destruct (_ <=? _); [simplify_eq; by left|].
  destruct (_ <? RL.snapLastIdx _); [simplify_eq; by left|].
  apply bind_Some in E as (prev & Ep & E).
  destruct (negb _) eqn:En; [simplify_eq; by left|].
  apply bind_Some in E as (l & El & E).
  change (commitIndex (persistLocked (set_log l ?r))) with (commitIndex r) in E.
  rewrite Hc in E. simplify_eq. right. split; [done|]. exists l. split_and!; [|done|done].
  unfold RL.termAt. rewrite Ep. apply negb_false_iff, Z.eqb_eq in En. simpl. congruence.
Qed.

Lemma InstallSnapshot_cases args rf rf' reply :
  InstallSnapshot args rf = Some (rf', reply) →
  (is_Term args < currentTerm rf ∧ rf' = rf) ∨
  (currentTerm rf ≤ is_Term args ∧
   let rf1 := becomeFollowerLocked (is_Term args) rf in
   (is_LastIncludedIndex args ≤ RL.snapLastIdx (log rf) ∧ rf' = rf1) ∨
   (∃ l, RL.snapLastIdx (log rf) < is_LastIncludedIndex args ∧
      RL.installSnapshot (log rf) (is_LastIncludedIndex args)
        (is_LastIncludedTerm args) (is_Snapshot args) = Some l ∧
      rf' = signalApply (set_snapPending true (persistLocked (set_log l rf1))))).
Proof.
  unfold InstallSnapshot. destruct (is_Term args <? currentTerm rf) eqn:E1.
  { intros [= <- <-]. left. split; [lia|done]. }
  destruct (Z.leb_spec (currentTerm rf) (is_Term args)); [|lia].
  pose proof (becomeFollower_frame (is_Term args) rf) as (Hl & _).
  cbn -[becomeFollowerLocked persistLocked]. rewrite Hl. intros E. right. split; [lia|].
  case_match; simplify_option_eq.
  - left. split; [lia|done].
  - right. eexists. split_and!; [lia|done|done].
Qed.

(** ** The transition relation of one peer *)

Inductive peer_step : Raft → Raft → Prop :=
  | ps_tick e rf : peer_step rf (electionTicker e rf).1
  | ps_vote e args rf : peer_step rf (RequestVote e args rf).1
  | ps_vote_reply term ok reply votes rf rf' votes' b :
      askVoteFromPeer term ok reply votes rf = Some (rf', votes', b) → peer_step rf rf'
  | ps_append e args rf rf' reply :
      AppendEntries e args rf = Some (rf', reply) → peer_step rf rf'
  | ps_append_reply term peer args ok reply rf rf' :
      replicateToPeer term peer args ok reply rf = Some rf' → peer_step rf rf'
  | ps_replicate term rf rf' calls b :
      startReplication term rf = Some (rf', calls, b) → peer_step rf rf'
  | ps_start cmd rf : peer_step rf (Start cmd rf).1
  | ps_snapshot index snap rf rf' :
      Snapshot index snap rf = Some rf' → peer_step rf rf'
  | ps_install args rf rf' reply :
      InstallSnapshot args rf = Some (rf', reply) → peer_step rf rf'
  | ps_install_reply peer term args ok reply rf rf' :
      installToPeer peer term args ok reply rf = Some rf' → peer_step rf rf'
  | ps_wait rf : peer_step rf (app_wait rf)
  | ps_prepare rf rf' work : app_prepare rf = Some (rf', work) → peer_step rf rf'
  | ps_finish work rf : peer_step rf (app_finish work rf)
  | ps_kill rf : peer_step rf (Kill rf)
  | ps_restart rf : peer_step rf (Make (npeers rf) (me rf) (persister rf)).

(** How a step that is not part of an election changes term, vote and role. *)
Definition quiet rf rf' : Prop :=
  me rf' = me rf ∧ npeers rf' = npeers rf ∧
  ((currentTerm rf' = currentTerm rf ∧ votedFor rf' = votedFor rf ∧
     (role rf' = role rf ∨ role rf' = Follower)) ∨
   (currentTerm rf < currentTerm rf' ∧ votedFor rf' = -1 ∧ role rf' = Follower)).

Lemma quiet_refl rf : quiet rf rf.
Proof. unfold quiet. naive_solver. Qed.

Lemma quiet_becomeFollower t rf : quiet rf (becomeFollowerLocked t rf).
Proof.
  pose proof (becomeFollower_frame t rf) as (_ & Hm & Hn & _).
  split_and!; [done|done|].
  destruct (becomeFollower_spec t rf) as [[? ->]|(? & -> & -> & ->)]; [naive_solver|].
  destruct (Z.ltb_spec (currentTerm rf) t); [right|left]; split_and!; lia || naive_solver.
Qed.

Lemma quiet_reindexed rf rf' : reindexed rf rf' → quiet rf rf'.
Proof. intros (ni & mi & -> & _). unfold quiet. naive_solver. Qed.

Lemma quiet_append e args rf rf' reply :
  AppendEntries e args rf = Some (rf', reply) → quiet rf rf'.
Proof.
  intros [(_ & -> & _)|(_ & [(_ & ->)|(_ & l & _ & _ & ->)])]%AppendEntries_cases.
  - apply quiet_refl.
  - apply (quiet_becomeFollower (ae_Term args)).
  - destruct (_ <? _); apply (quiet_becomeFollower (ae_Term args)).
Qed.

Lemma quiet_install args rf rf' reply :
  InstallSnapshot args rf = Some (rf', reply) → quiet rf rf'.
Proof.
  intros [(_ & ->)|(_ & [(_ & ->)|(l & _ & _ & ->)])]%InstallSnapshot_cases.
  - apply quiet_refl.
  - apply quiet_becomeFollower.
  - apply (quiet_becomeFollower (is_Term args)).
Qed.

Lemma quiet_append_reply term peer args ok reply rf rf' :
  replicateToPeer term peer args ok reply rf = Some rf' → quiet rf rf'.
Proof.
  intros [(t & _ & ->)|[H|(rf1 & m & H & _ & ->)]]%replicateToPeer_spec.
  - apply quiet_becomeFollower.
  - by apply quiet_reindexed.
  - exact (quiet_reindexed _ _ H).
Qed.

Lemma quiet_install_reply peer term args ok reply rf rf' :
  installToPeer peer term args ok reply rf = Some rf' → quiet rf rf'.
Proof.
  intros [(t & _ & ->)|H]%installToPeer_spec;
    [apply quiet_becomeFollower|by apply quiet_reindexed].
Qed.

Lemma quiet_start cmd rf : quiet rf (Start cmd rf).1.
Proof. unfold Start. case_decide; [apply quiet_refl|unfold quiet; naive_solver]. Qed.

Lemma quiet_snapshot index snap rf rf' :
  Snapshot index snap rf = Some rf' → quiet rf rf'.
Proof.
  unfold Snapshot. repeat case_match; intros; simplify_option_eq; try apply quiet_refl.
  unfold quiet; naive_solver.
Qed.

Lemma quiet_prepare rf rf' work : app_prepare rf = Some (rf', work) → quiet rf rf'.
Proof.
  unfold app_prepare. repeat case_match; intros; simplify_option_eq; try apply quiet_refl;
  unfold quiet; naive_solver.
Qed.

Lemma quiet_finish work rf : quiet rf (app_finish work rf).
Proof. unfold app_finish, quiet. repeat case_match; naive_solver. Qed.

Lemma quiet_restart rf : synced rf → quiet rf (Make (npeers rf) (me rf) (persister rf)).
Proof.
  intros H. destruct (Make_frame (npeers rf) (me rf) (persister rf)) as (Hn & Hm & _ & Hr & _).
  pose proof (Make_view (npeers rf) (me rf) (persister rf)) as E.
  rewrite H in E. injection E as E1 E2 _.
  split_and!; [done|done|]. left. rewrite Hr. auto.
Qed.

(** ** Voting *)

Lemma RequestVote_cases e args rf rf' reply :
  RequestVote e args rf = (rf', reply) →
  (rr_VoteGranted reply = false ∧ quiet rf rf') ∨
  (rr_VoteGranted reply = true ∧ me rf' = me rf ∧ npeers rf' = npeers rf ∧
   currentTerm rf ≤ rv_Term args ∧ currentTerm rf' = rv_Term args ∧
   votedFor rf' = rv_CandidateId args ∧
   ((currentTerm rf = rv_Term args ∧ votedFor rf = -1 ∧ role rf' = role rf) ∨
    (currentTerm rf < rv_Term args ∧ role rf' = Follower))).
Proof.
  unfold RequestVote. case_match eqn:E1; [intros; simplify_eq; left; by split; [|apply quiet_refl]|].
  set (rf1 := if currentTerm rf <? rv_Term args then _ else rf).
  assert (quiet rf rf1) as Hq
    by (unfold rf1; case_match; [apply quiet_becomeFollower|apply quiet_refl]).
  assert (currentTerm rf1 = rv_Term args ∧
    (currentTerm rf = rv_Term args ∧ rf1 = rf ∨
     currentTerm rf < rv_Term args ∧ role rf1 = Follower)) as [Ht Hc].
  { unfold rf1. destruct (Z.ltb_spec (currentTerm rf) (rv_Term args)); [|split; [lia|left; split; [lia|done]]].
    destruct (becomeFollower_spec (rv_Term args) rf) as [[? _]|(_ & ? & ? & _)]; [lia|]. naive_solver. }
  clearbody rf1. case_match eqn:E2; [intros; simplify_eq; by left|].
  case_match eqn:E3; intros; simplify_eq; [by left|right].
  destruct Hq as (Hm & Hn & _). apply negb_false_iff, Z.eqb_eq in E2. cbn.
  split_and!; try done; [lia|]. destruct Hc as [[? ->]|[? ?]]; naive_solver.
Qed.

Lemma askVote_cases t reply v rf rf' v' b :
  askVoteFromPeer t true reply v rf = Some (rf', v', b) →
  (v' = v ∧ quiet rf rf') ∨
  (rr_VoteGranted reply = true ∧ v' = v + 1 ∧ currentTerm rf = t ∧ role rf = Candidate ∧
   (rf' = rf ∨ (npeers rf < 2 * v' ∧ reindexed (set_role Leader rf) rf'))).
Proof.
  unfold askVoteFromPeer. cbn [negb].
  case_match eqn:E1; [intros; simplify_eq; left; split; [done|apply quiet_becomeFollower]|].
  case_match eqn:E2; [intros; simplify_eq; left; split; [done|apply quiet_refl]|].
  unfold contextLostLocked in E2.
  apply negb_false_iff, andb_true_iff in E2 as [Ht%Z.eqb_eq Hr%bool_decide_eq_true].
  case_match eqn:E3; [|intros; simplify_eq; left; split; [done|apply quiet_refl]].
  case_match eqn:E4; [|intros; simplify_eq; right; naive_solver].
  rewrite bind_Some. intros (rf1 & E & ?). simplify_eq. right.
  apply becomeLeader_spec in E as [[? _]|[_ E]]; [done|].
  split_and!; try done. right. split; [|done].
  apply Z.ltb_lt in E4. pose proof (Z.quot_rem' (npeers rf) 2).
  pose proof (Z.rem_bound_abs (npeers rf) 2). lia.
Qed.

(** ** The invariant *)

Lemma inv_intro rf rf' :
  peer_inv rf → synced rf' → RL.wf (log rf') → npeers rf' = npeers rf →
  len (nextIndex rf') = len (nextIndex rf) → len (matchIndex rf') = len (matchIndex rf) →
  peer_inv rf'.
Proof. intros [] ? ? Hn H1 H2. split; [done|done|congruence|congruence]. Qed.

Lemma inv_same_log rf rf' :
  peer_inv rf → synced rf' → log rf' = log rf → npeers rf' = npeers rf →
  nextIndex rf' = nextIndex rf → matchIndex rf' = matchIndex rf → peer_inv rf'.
Proof.
  intros H ? Hl ? H1 H2. eapply inv_intro; [done|done|..|by rewrite H1|by rewrite H2];
    [|done]. rewrite Hl. apply H.
Qed.

Lemma inv_becomeFollower t rf : peer_inv rf → peer_inv (becomeFollowerLocked t rf).
Proof.
  intros H. pose proof (becomeFollower_frame t rf) as (?&?&?&?&?&_).
  eapply inv_same_log; eauto. apply synced_becomeFollower, H.
Qed.

Lemma inv_reindexed rf rf' : peer_inv rf → reindexed rf rf' → peer_inv rf'.
Proof.
  intros H (ni & mi & -> & H1 & H2). eapply inv_intro; try done; apply H.
Qed.

Lemma inv_new_log rf l :
  peer_inv rf → RL.wf l → peer_inv (persistLocked (set_log l rf)).
Proof. intros H Hl. eapply inv_intro; try done. apply synced_persist. Qed.

Lemma inv_candidate rf : peer_inv rf → peer_inv (becomeCandidateLocked rf).
Proof.
  intros H. unfold becomeCandidateLocked. case_decide; [done|].
  eapply inv_same_log; try done. apply synced_persist.
Qed.

Lemma inv_leader rf rf' : peer_inv rf → becomeLeaderLocked rf = Some rf' → peer_inv rf'.
Proof.
  intros H [[_ ->]|[_ Hr]]%becomeLeader_spec; [done|].
  eapply inv_reindexed; [|exact Hr]. eapply inv_same_log; try done. apply H.
Qed.

Lemma inv_votereply term ok reply votes rf rf' votes' b :
  peer_inv rf → askVoteFromPeer term ok reply votes rf = Some (rf', votes', b) → peer_inv rf'.
Proof.
  intros H E. unfold askVoteFromPeer in E. repeat (case_match; simplify_option_eq; try done).
  - by apply inv_becomeFollower.
  - by eapply inv_leader.
Qed.

Lemma inv_vote e args rf : peer_inv rf → peer_inv (RequestVote e args rf).1.
Proof.
  intros H. unfold RequestVote. destruct (_ <? _); [done|].
  set (rf1 := if currentTerm rf <? rv_Term args then _ else rf).
  assert (peer_inv rf1) as H1 by (unfold rf1; case_match; auto using inv_becomeFollower).
  clearbody rf1. case_match; [done|]. case_match; [done|].
  eapply inv_same_log; try done. apply (synced_persist (set_votedFor _ rf1)).
Qed.

Lemma inv_append e args rf rf' reply :
  peer_inv rf → AppendEntries e args rf = Some (rf', reply) → peer_inv rf'.
Proof.
  intros H [(_ & -> & _)|(_ & [(_ & ->)|(_ & l & _ & El & ->)])]%AppendEntries_cases; [done|..].
  - eapply inv_same_log; [exact (inv_becomeFollower (ae_Term args) _ H)|..]; try done.
    apply (synced_becomeFollower (ae_Term args)), H.
  - apply RL.wf_appendFrom in El; [|apply H].
    pose proof (inv_new_log _ l (inv_becomeFollower (ae_Term args) _ H) El) as Hi.
    destruct (_ <? _); (eapply inv_same_log; [exact Hi|apply Hi|..]); done.
Qed.

Lemma inv_install args rf rf' reply :
  peer_inv rf → InstallSnapshot args rf = Some (rf', reply) → peer_inv rf'.
Proof.
  intros H [(_ & ->)|(_ & [(_ & ->)|(l & Hi & El & ->)])]%InstallSnapshot_cases; [done|..].
  - by apply inv_becomeFollower.
  - apply RL.wf_installSnapshot in El as Hl; [|apply H].
    pose proof (inv_new_log _ l (inv_becomeFollower (is_Term args) _ H) Hl) as Hi'.
    eapply inv_same_log; [exact Hi'|apply Hi'|..]; done.
Qed.

Lemma inv_snapshot index snap rf rf' :
  peer_inv rf → Snapshot index snap rf = Some rf' → peer_inv rf'.
Proof.
  intros H. unfold Snapshot. case_match; [by intros [= <-]|].
  case_match; [by intros [= <-]|]. rewrite bind_Some. intros (l & El & [= <-]).
  apply inv_new_log; [done|]. eapply RL.wf_doSnapshot; [apply H|done].
Qed.

Lemma inv_prepare rf rf' work : peer_inv rf → app_prepare rf = Some (rf', work) → peer_inv rf'.
Proof.
  intros H. unfold app_prepare. repeat case_match; intros; simplify_option_eq;
    (eapply inv_same_log; [done|apply H|..]; done).
Qed.

Lemma inv_finish work rf : peer_inv rf → peer_inv (app_finish work rf).
Proof.
  intros H. unfold app_finish. repeat case_match; (eapply inv_same_log; [done|apply H|..]; done).
Qed.

Lemma inv_restart rf :
  0 ≤ npeers rf → peer_inv rf → peer_inv (Make (npeers rf) (me rf) (persister rf)).
Proof.
  intros Hn H. destruct (Make_frame (npeers rf) (me rf) (persister rf)) as (?&?&?&?&?&?).
  pose proof (Make_view (npeers rf) (me rf) (persister rf)) as E.
  rewrite (pi_synced _ H) in E. injection E as _ _ El.
  split; [apply synced_Make|rewrite El; apply H|lia|lia].
Qed.
End peer.
