(* ===== verification/RaftSpec.v ===== *)
(** What a single peer of [src/src/raft] promises, handler by handler.

    The theorems are about one critical section of [raft_election.go],
    [raft_replication.go] or [raft_application.go] each, for every state that
    satisfies [peer_inv] (which every step keeps, see [peer_inv_step]). *)

From S2P Require Import Prelude Gob RaftLog Raft RaftFacts.
Import RF.

#[local] Open Scope Z_scope.

Section spec.
Context {Cmd SB : Type}.
Abbreviation Raft := (RF.Raft Cmd SB).
Implicit Types (rf : Raft) (t : Z) (e : Env).

Lemma getMajorityIndex_Some rf :
  1 ≤ npeers rf → len (matchIndex rf) = npeers rf →
  ∃ m, getMajorityIndexLocked rf = Some m ∧ majority_index (npeers rf) (matchIndex rf) m.
Proof.
  intros Hn Hl. unfold getMajorityIndexLocked. rewrite make_copy_full by (unfold len in Hl; lia).
  by apply median_majority.
Qed.

(** [getMajorityIndexLocked] does not panic, and returns the largest log
    index that more than half of the peers have reached: its sorted copy and the
    position [(n-1)/2] are right for odd and even cluster sizes. *)
Theorem getMajorityIndexLocked_spec rf :
  1 ≤ npeers rf → peer_inv rf →
  ∃ m, getMajorityIndexLocked rf = Some m ∧ majority_index (npeers rf) (matchIndex rf) m.
Proof. intros Hn [_ _ _ Hm]. by apply getMajorityIndex_Some. Qed.

(** C20: the commit rule. When the reply of an append advances the commit index,
    the new value is the index a majority of the peers has matched and the
    entry there belongs to the leader's current term. *)
Theorem commit_rule term peer args ok reply rf rf' :
  1 ≤ npeers rf → peer_inv rf →
  replicateToPeer term peer args ok reply rf = Some rf' →
  commitIndex rf' = commitIndex rf ∨
  (commitIndex rf < commitIndex rf' ∧ role rf' = Leader ∧
   majority_index (npeers rf') (matchIndex rf') (commitIndex rf') ∧
   RL.termAt (log rf') (commitIndex rf') = Some (currentTerm rf')).
Proof.
  intros Hn Hi E. unfold replicateToPeer in E.
  destruct (negb ok); [simplify_eq; by left|].
  destruct (_ <? ar_Term _); [simplify_eq; left; apply becomeFollower_frame|].
  destruct (contextLostLocked Leader term rf) eqn:Ec; [simplify_eq; by left|].
  destruct (negb (ar_Success reply)); [simplify_option_eq; by left|].
  apply bind_Some in E as (mi & Emi & E). apply bind_Some in E as (m & _ & E).
  apply bind_Some in E as (ni & _ & E). apply bind_Some in E as (mj & Emj & E).
  apply slice_set_len in Emi as Hlen.
  edestruct getMajorityIndex_Some as (m' & Em' & Hmaj); [| |rewrite Em' in Emj]; [done| |].
  { cbn. rewrite Hlen. apply Hi. }
  injection Emj as ->. cbn -[getMajorityIndexLocked] in *.
  destruct (commitIndex rf <? mj) eqn:Ecm; [|simplify_eq; by left].
  apply bind_Some in E as (en & Een & E). destruct (_ =? _) eqn:Et; [|simplify_eq; by left].
  simplify_eq. right. cbn. split_and!; [lia| |done|].
  - unfold contextLostLocked in Ec. apply negb_false_iff, andb_true_iff in Ec as [_ Ec].
    by apply bool_decide_eq_true in Ec.
  - unfold RL.termAt. cbn in Een. rewrite Een. simpl. f_equal. lia.
Qed.

(** The log of the candidate is at least as up to date as [l]. *)
Definition up_to_date (l : RL.RaftLog Cmd SB) (args : RequestVoteArgs) : Prop :=
  let '(i, t) := RL.last l in
  t < rv_LastLogTerm args ∨ (t = rv_LastLogTerm args ∧ i ≤ rv_LastLogIndex args).

Lemma isMoreUpToDate_spec rf args :
  isMoreUpToDateLocked (rv_LastLogIndex args) (rv_LastLogTerm args) rf = false ↔
  up_to_date (log rf) args.
Proof.
  unfold isMoreUpToDateLocked, up_to_date. destruct (RL.last _) as [i t].
  destruct (Z.eqb_spec t (rv_LastLogTerm args)); simpl; lia.
Qed.

(** a vote is granted exactly when the request is not from an older term,
    no vote was given in that term, and the candidate's log is at least as up to
    date; a granted vote is recorded for the candidate and the request's term,
    in memory and in the persister. *)
Theorem RequestVote_granted_iff e args rf :
  let '(rf', reply) := RequestVote e args rf in
  (rr_VoteGranted reply = true ↔
     currentTerm rf ≤ rv_Term args ∧
     (currentTerm rf < rv_Term args ∨ votedFor rf = -1) ∧ up_to_date (log rf) args) ∧
  (rr_VoteGranted reply = true →
     votedFor rf' = rv_CandidateId args ∧ currentTerm rf' = rv_Term args ∧ synced rf') ∧
  log rf' = log rf ∧ currentTerm rf' = Z.max (currentTerm rf) (rv_Term args).
Proof.
  unfold RequestVote. destruct (_ <? _) eqn:E1; [split_and!; simpl; [|done|done|lia]|].
  { split; [done|]. lia. }
  set (rf1 := if currentTerm rf <? rv_Term args then _ else rf).
  assert (log rf1 = log rf ∧ currentTerm rf1 = rv_Term args ∧
          (votedFor rf1 = -1 ↔ currentTerm rf < rv_Term args ∨ votedFor rf = -1))
    as (Hl & Ht & Hv).
  { unfold rf1. destruct (Z.ltb_spec (currentTerm rf) (rv_Term args)) as [Hlt|]; [|lia || naive_solver lia].
    split; [apply becomeFollower_frame|].
    destruct (becomeFollower_spec (rv_Term args) rf) as [[? _]|(_ & -> & _ & ->)]; [lia|].
    case_match; lia. }
  clearbody rf1. destruct (Z.eqb_spec (votedFor rf1) (-1)) as [Hv1|Hv1]; simpl.
  - destruct (isMoreUpToDateLocked _ _ _) eqn:Eu.
    + split_and!; [|done|done|lia]. split; [done|]. intros (_ & _ & Hu).
      rewrite <-Hl, <-isMoreUpToDate_spec in Hu. congruence.
    + apply isMoreUpToDate_spec in Eu. rewrite Hl in Eu. cbn -[persistLocked].
      split_and!; [|intros _; split_and!; [done|done|]|done|cbn; lia].
      * split; [intros _|done]. split_and!; [lia|tauto|done].
      * apply synced_reset, synced_persist.
  - split_and!; [|done|done|lia]. split; [done|]. naive_solver.
Qed.

(** What [AppendEntries] answers to a request of a current term whose
    [PrevLogIndex] does not match: the peer's log is too short, the index is
    compacted away, or the term there differs. *)
Definition conflict_hint (l : RL.RaftLog Cmd SB) (args : @AppendEntriesArgs Cmd)
    (reply : AppendEntriesReply) : Prop :=
  (RL.size l ≤ ae_PrevLogIndex args ∧
     ar_ConfilictIndex reply = RL.size l ∧ ar_ConfilictTerm reply = InvalidTerm) ∨
  (ae_PrevLogIndex args < RL.snapLastIdx l ∧
     ar_ConfilictIndex reply = RL.snapLastIdx l ∧
     ar_ConfilictTerm reply = RL.snapLastTerm l) ∨
  (∃ t, RL.termAt l (ae_PrevLogIndex args) = Some t ∧ t ≠ ae_PrevLogTerm args ∧
     ar_ConfilictIndex reply = RL.firstFor l t ∧ ar_ConfilictTerm reply = t).

Lemma AppendEntries_total e args rf :
  RL.wf (log rf) → ∃ rf' reply, AppendEntries e args rf = Some (rf', reply).
Proof.
  intros Hw. unfold AppendEntries. destruct (_ <? currentTerm rf); [eauto|].
  set (rf1 := if currentTerm rf <=? _ then _ else rf).
  assert (log rf1 = log rf) as Hl by (unfold rf1; case_match; [apply becomeFollower_frame|done]).
  clearbody rf1. cbn zeta. rewrite Hl.
  destruct (_ <=? ae_PrevLogIndex args) eqn:E1; [eauto|].
  destruct (_ <? RL.snapLastIdx _) eqn:E2; [eauto|].
  destruct (proj2 (RL.at_is_Some (log rf) (ae_PrevLogIndex args))) as [prev ->]; [lia|].
  simpl. destruct (negb _); [eauto|].
  rewrite RL.appendFrom_Some by lia. simpl. eauto.
Qed.

Lemma AppendEntries_reply e args rf rf' reply :
  AppendEntries e args rf = Some (rf', reply) →
  ar_Term reply = currentTerm rf ∧
  (currentTerm rf ≤ ae_Term args → ar_Success reply = false →
   conflict_hint (log rf) args reply).
Proof.
  unfold AppendEntries. destruct (_ <? currentTerm rf) eqn:E0.
  { intros [= <- <-]. split; [done|]. lia. }
  set (rf1 := if currentTerm rf <=? _ then _ else rf).
  assert (log rf1 = log rf) as Hl by (unfold rf1; case_match; [apply becomeFollower_frame|done]).
  clearbody rf1. cbn zeta. rewrite Hl. unfold conflict_hint. intros E.
  destruct (_ <=? ae_PrevLogIndex args) eqn:E1; [simplify_eq; simpl; split; [done|]; left; lia|].
  destruct (_ <? RL.snapLastIdx _) eqn:E2; [simplify_eq; simpl; split; [done|]; right; left; lia|].
  apply bind_Some in E as (prev & Ep & E). destruct (negb _) eqn:En.
  - simplify_eq. simpl. split; [done|]. intros _ _. right. right. exists (le_Term prev).
    unfold RL.termAt. rewrite Ep. split_and!; [done|lia|done|done].
  - apply bind_Some in E as (l & _ & E). by simplify_eq.
Qed.

Lemma conflict_hint_sound l args reply :
  conflict_hint l args reply →
  RL.termAt l (ae_PrevLogIndex args) ≠ Some (ae_PrevLogTerm args).
Proof.
  intros [(H & _)|[(H & _)|(t & Ht & Hne & _)]] E; [| |congruence];
    pose proof (mk_is_Some _ _ E) as Hs; apply RL.termAt_is_Some in Hs; lia.
Qed.

(** C19: [AppendEntries] never panics.  A request of an older term changes
    nothing; any other makes the peer a follower of that term.  It succeeds
    exactly when the peer has [PrevLogTerm] at [PrevLogIndex]; then the log is
    the old one up to there followed by the entries, and the commit index is the
    larger of the two; otherwise log and commit index stay and the reply names
    the conflict. *)
Theorem AppendEntries_spec e args rf :
  peer_inv rf →
  ∃ rf' reply, AppendEntries e args rf = Some (rf', reply) ∧ peer_inv rf' ∧
    ar_Term reply = currentTerm rf ∧
    (ae_Term args < currentTerm rf → rf' = rf ∧ ar_Success reply = false) ∧
    (currentTerm rf ≤ ae_Term args →
       currentTerm rf' = ae_Term args ∧ role rf' = Follower ∧
       (ar_Success reply = true ↔
          RL.termAt (log rf) (ae_PrevLogIndex args) = Some (ae_PrevLogTerm args)) ∧
       (ar_Success reply = true →
          commitIndex rf' = Z.max (commitIndex rf) (ae_LeaderCommit args) ∧
          RL.size (log rf') = ae_PrevLogIndex args + 1 + len (ae_Entries args) ∧
          (∀ i, i ≤ ae_PrevLogIndex args → RL.at_ (log rf') i = RL.at_ (log rf) i) ∧
          (∀ i, ae_PrevLogIndex args < i →
             RL.at_ (log rf') i = slice_get (ae_Entries args) (i - ae_PrevLogIndex args - 1))) ∧
       (ar_Success reply = false →
          log rf' = log rf ∧ commitIndex rf' = commitIndex rf ∧
          conflict_hint (log rf) args reply)).
Proof.
  intros Hi. assert (∃ rf' reply, AppendEntries e args rf = Some (rf', reply)) as (rf' & reply & E).
  { apply AppendEntries_total, Hi. }
  exists rf', reply. split; [done|]. split; [by eapply inv_append|].
  pose proof (AppendEntries_reply _ _ _ _ _ E) as [Hrt Hhint].
  split; [done|]. apply AppendEntries_cases in E as [(H & -> & Hf)|(H & HC)].
  { split; [done|lia]. }
  split; [lia|]. intros _.
  pose proof (becomeFollower_frame (ae_Term args) rf) as (Hl & _ & _ & _ & _ & Hc & _).
  destruct (becomeFollower_spec (ae_Term args) rf) as [[? _]|(_ & Ht & Hr & _)]; [lia|].
  destruct HC as [(Hf & ->)|(Hs & l & Hterm & Ha & ->)].
  - specialize (Hhint H Hf). split_and!; [exact Ht|exact Hr| |by rewrite Hf|done].
    rewrite Hf. split; [done|]. intros Hterm. exfalso. by eapply conflict_hint_sound.
  - rewrite Hs. split_and!; try (destruct (_ <? _); [exact Ht || exact Hr|exact Ht || exact Hr]);
      [done| |done].
    intros _. assert (log (if commitIndex rf <? ae_LeaderCommit args
               then signalApply (set_commitIndex (ae_LeaderCommit args)
                      (persistLocked (set_log l (becomeFollowerLocked (ae_Term args) rf))))
               else persistLocked (set_log l (becomeFollowerLocked (ae_Term args) rf))) = l)
      as Hlog by (by destruct (_ <? _)).
    cbn -[persistLocked]. rewrite Hlog. split_and!.
    + destruct (Z.ltb_spec (commitIndex rf) (ae_LeaderCommit args)); cbn; lia.
    + by eapply RL.size_appendFrom.
    + intros i Hle. by rewrite (RL.at_appendFrom _ _ _ _ _ Ha), decide_True.
    + intros i Hle. by rewrite (RL.at_appendFrom _ _ _ _ _ Ha), decide_False by lia.
Qed.

(** ** Along the steps of a peer *)

Lemma askVote_ok term ok reply votes rf rf' votes' b :
  askVoteFromPeer term ok reply votes rf = Some (rf', votes', b) →
  quiet rf rf' ∨ (role rf = Candidate ∧ reindexed (set_role Leader rf) rf').
Proof.
  destruct ok; [|intros [= <- _ _]; left; apply quiet_refl].
  intros [[_ ?]|(_ & _ & _ & Hr & [->|[_ ?]])]%askVote_cases;
    [by left|left; apply quiet_refl|by right].
Qed.

Lemma askVote_log term ok reply votes rf rf' votes' b :
  askVoteFromPeer term ok reply votes rf = Some (rf', votes', b) →
  log rf' = log rf ∧ commitIndex rf' = commitIndex rf.
Proof.
  unfold askVoteFromPeer. intros E. repeat (case_match; simplify_option_eq; try done).
  - by split; apply becomeFollower_frame.
  - match goal with H : becomeLeaderLocked _ = _ |- _ => apply becomeLeader_spec in H as [[_ ->]|(_ & ni & mi & -> & _)] end; done.
Qed.

Lemma RequestVote_frame e args rf :
  log (RequestVote e args rf).1 = log rf ∧
  commitIndex (RequestVote e args rf).1 = commitIndex rf.
Proof.
  unfold RequestVote. pose proof (becomeFollower_frame (rv_Term args) rf) as (?&_&_&_&_&?&_).
  repeat case_match; done.
Qed.

(** How a step moves the term and the vote. *)
Definition term_vote_mono rf rf' : Prop :=
  npeers rf' = npeers rf ∧ currentTerm rf ≤ currentTerm rf' ∧
  (currentTerm rf' = currentTerm rf → votedFor rf ≠ -1 → votedFor rf' = votedFor rf).

Lemma term_vote_quiet rf rf' : quiet rf rf' → term_vote_mono rf rf'.
Proof.
  intros (_ & Hn & [(? & ? & _)|(? & _)]); split_and!; (lia || done || congruence).
Qed.

Lemma term_vote_step rf rf' : synced rf → peer_step rf rf' → term_vote_mono rf rf'.
Proof.
  intros Hsy Hs.
  destruct Hs as [e rf|e args rf|term ok reply votes rf rf' v' b E| | | | | | | |rf| | |rf|rf];
    try (apply term_vote_quiet; eauto using quiet_append, quiet_append_reply, quiet_start,
      quiet_snapshot, quiet_install, quiet_install_reply, quiet_prepare, quiet_finish,
      quiet_restart, quiet_refl; done).
  - unfold electionTicker. case_match eqn:E; [|by apply term_vote_quiet, quiet_refl].
    apply andb_true_iff in E as [E%bool_decide_eq_true _]. simpl.
    destruct (becomeCandidate_spec rf E) as (Ht & _ & _ & _ & _ & Hn & _).
    split_and!; [done|lia|lia].
  - destruct (RequestVote e args rf) as [rf' reply] eqn:E. simpl.
    apply RequestVote_cases in E as [[_ ?]|(_ & _ & Hn & Hle & Ht & _ & Hc)];
      [by apply term_vote_quiet|].
    split_and!; [done|lia|]. destruct Hc as [(_ & ? & _)|[? _]]; [done|lia].
  - apply askVote_ok in E as [?|(_ & ni & mi & -> & _)]; [by apply term_vote_quiet|].
    split_and!; [done|simpl; lia|done].
  - apply term_vote_quiet. eapply quiet_reindexed, startReplication_spec; done.
  - exact (term_vote_quiet _ _ (quiet_refl rf)).
  - exact (term_vote_quiet _ _ (quiet_refl rf)).
Qed.

Lemma peer_inv_step rf rf' : 0 ≤ npeers rf → peer_inv rf → peer_step rf rf' → peer_inv rf'.
Proof.
  intros Hn H Hs.
  destruct Hs as [e rf|e args rf|term ok reply votes rf rf' v' b E|e args rf rf' reply E
    |term peer args ok reply rf rf' E|term rf rf' calls b E|cmd rf|index snap rf rf' E
    |args rf rf' reply E|peer term args ok reply rf rf' E|rf|rf rf' work E|work rf|rf|rf].
  - unfold electionTicker. case_match; [by apply inv_candidate|done].
  - by apply inv_vote.
  - by eapply inv_votereply.
  - by eapply inv_append.
  - apply replicateToPeer_spec in E as [(t & _ & ->)|[Hr|(rf1 & m & Hr & _ & ->)]].
    + by apply inv_becomeFollower.
    + by eapply inv_reindexed.
    + apply (inv_reindexed _ _ H) in Hr. eapply inv_same_log; [exact Hr|apply Hr|..]; done.
  - eapply inv_reindexed; [done|]. by eapply startReplication_spec.
  - unfold Start. case_decide; [done|]. apply inv_new_log; [done|]. apply RL.wf_append, H.
  - by eapply inv_snapshot.
  - by eapply inv_install.
  - apply installToPeer_spec in E as [(t & _ & ->)|Hr];
      [by apply inv_becomeFollower|by eapply inv_reindexed].
  - eapply inv_same_log; [done|apply H|..]; done.
  - by eapply inv_prepare.
  - by apply inv_finish.
  - eapply inv_same_log; [done|apply H|..]; done.
  - by apply inv_restart.
Qed.

(** along any sequence of steps of a peer, handlers with arbitrary
    arguments and crashes included, the invariant holds, the term never
    decreases and a vote given in a term is never changed or forgotten while
    that term lasts. *)
Theorem votes_are_final rf rf' :
  0 ≤ npeers rf → peer_inv rf → rtc peer_step rf rf' →
  peer_inv rf' ∧ currentTerm rf ≤ currentTerm rf' ∧
  (currentTerm rf' = currentTerm rf → votedFor rf ≠ -1 → votedFor rf' = votedFor rf).
Proof.
  intros Hn Hi H. induction H as [rf|rf rf1 rf2 H1 _ IH]; [split_and!; [done|lia|done]|].
  pose proof (peer_inv_step _ _ Hn Hi H1) as Hi1.
  destruct (term_vote_step _ _ (pi_synced _ Hi) H1) as (Hn1 & Ht1 & Hv1).
  destruct IH as (Hi2 & Ht2 & Hv2); [lia|done|]. split_and!; [done|lia|].
  intros Ht Hne. rewrite Hv2; [apply Hv1; [lia|done]|lia|]. rewrite Hv1; [done|lia|done].
Qed.

(** [l'] has every entry of [l] that it did not compact away. *)
Definition log_extends (l l' : RL.RaftLog Cmd SB) : Prop :=
  RL.snapLastIdx l ≤ RL.snapLastIdx l' ∧ RL.size l ≤ RL.size l' ∧
  ∀ i, RL.snapLastIdx l' < i < RL.size l → RL.at_ l' i = RL.at_ l i.

Lemma log_extends_refl l l' : l' = l → log_extends l l'.
Proof. intros ->. by split_and!. Qed.

Lemma log_extends_append l en : log_extends l (RL.append l en).
Proof.
  split_and!; [done|rewrite RL.size_append; lia|]. intros i Hi.
  by rewrite RL.at_append, decide_False by lia.
Qed.

Lemma log_extends_doSnapshot l l' index snap :
  RL.doSnapshot l index snap = Some l' → log_extends l l'.
Proof.
  intros E. destruct (decide (RL.snapLastIdx l < index < RL.size l)) as [H|H].
  - destruct (RL.doSnapshot_Some l index snap H) as (en & _ & E'). simplify_eq.
    split_and!; [simpl; lia| |].
    + unfold RL.size, len in *. simpl. rewrite length_drop. lia.
    + intros i Hi. simpl in Hi. rewrite RL.at_compacted by lia.
      by rewrite !decide_False by lia.
  - rewrite RL.doSnapshot_id in E by lia. simplify_eq. by apply log_extends_refl.
Qed.

(** Leader Append-Only. A step that leaves a leader a leader never removes
    or changes an entry of its log; entries only leave it by compaction into a
    snapshot, and the log only grows. *)
Theorem leader_append_only rf rf' :
  peer_step rf rf' → role rf = Leader → role rf' = Leader → log_extends (log rf) (log rf').
Proof.
  intros Hs Hr Hr'.
  destruct Hs as [e rf|e args rf|term ok reply votes rf rf' v' b E|e args rf rf' reply E
    |term peer args ok reply rf rf' E|term rf rf' calls b E|cmd rf|index snap rf rf' E
    |args rf rf' reply E|peer term args ok reply rf rf' E|rf|rf rf' work E|work rf|rf|rf].
  - apply log_extends_refl. unfold electionTicker. by rewrite bool_decide_false by naive_solver.
  - apply log_extends_refl, RequestVote_frame.
  - apply log_extends_refl. by apply askVote_log in E as [-> _].
  - apply AppendEntries_cases in E as [(_ & -> & _)|(Hle & HC)]; [by apply log_extends_refl|].
    exfalso. destruct (becomeFollower_spec (ae_Term args) rf) as [[? _]|(_ & _ & Hf & _)]; [lia|].
    destruct HC as [(_ & ->)|(_ & l & _ & _ & ->)]; [|destruct (_ <? _)]; cbn in Hr'; congruence.
  - apply log_extends_refl.
    apply replicateToPeer_spec in E as [(t & _ & ->)|[(?&?&->&_)|(rf1 & m & (?&?&->&_) & _ & ->)]];
      [apply becomeFollower_frame|done|done].
  - apply log_extends_refl. by apply startReplication_spec in E as (?&?&->&_).
  - unfold Start. case_decide; [by apply log_extends_refl|]. apply log_extends_append.
  - unfold Snapshot in E. repeat case_match; simplify_option_eq; try by apply log_extends_refl.
    by eapply log_extends_doSnapshot.
  - apply InstallSnapshot_cases in E as [(_ & ->)|(Hle & HC)]; [by apply log_extends_refl|].
    exfalso. destruct (becomeFollower_spec (is_Term args) rf) as [[? _]|(_ & _ & Hf & _)]; [lia|].
    destruct HC as [(_ & ->)|(l & _ & _ & ->)]; cbn in Hr'; congruence.
  - apply log_extends_refl.
    apply installToPeer_spec in E as [(t & _ & ->)|(?&?&->&_)]; [apply becomeFollower_frame|done].
  - by apply log_extends_refl.
  - apply log_extends_refl. unfold app_prepare in E. repeat case_match; by simplify_option_eq.
  - apply log_extends_refl. unfold app_finish. by repeat case_match.
  - by apply log_extends_refl.
  - exfalso. destruct (Make_frame (npeers rf) (me rf) (persister rf)) as (_&_&_&?&_). congruence.
Qed.

(** ** Application *)

Lemma app_collect_spec (l : RL.RaftLog Cmd SB) i n :
  RL.snapLastIdx l ≤ i → n = 0%nat ∨ i + Z.of_nat n ≤ RL.size l →
  ∃ es, app_collect l i n = Some es ∧ length es = n ∧
    ∀ k en, es !! k = Some en → RL.at_ l (i + Z.of_nat k) = Some en.
Proof.
  revert i. induction n as [|n IH]; intros i H1 H2; simpl; [by exists []|].
  destruct (proj2 (RL.at_is_Some l i)) as [en He]; [lia|]. rewrite He. simpl.
  destruct (IH (i + 1)) as (es & -> & Hlen & Hes); [lia|lia|]. simpl.
  exists (en :: es). split_and!; [done|simpl; lia|]. intros [|k] en' Hk; simpl in Hk.
  - simplify_eq. by rewrite Z.add_0_r.
  - rewrite <-(Hes k en' Hk). f_equal. lia.
Qed.

(** one round of [applicationTicker] without a pending snapshot does not
    panic and hands the service exactly the committed entries it has not applied
    yet: consecutive indices from the first one after both [lastApplied] and
    the snapshot, up to the commit index or the end of the log, each with the
    command the log has at that index; [lastApplied] then stands at the last of
    them.  Other critical sections may run in between ([rf2]) as long as the
    ticker alone moves [lastApplied]. *)
Theorem apply_round_spec rf rf2 :
  peer_inv rf → snapPending rf = false →
  let first := Z.max (lastApplied rf) (RL.snapLastIdx (log rf)) + 1 in
  let stop := Z.min (commitIndex rf) (RL.size (log rf) - 1) in
  ∃ rf1 work, app_prepare rf = Some (rf1, work) ∧ log rf1 = log rf ∧
    (lastApplied rf2 = lastApplied rf1 →
     Z.of_nat (length (app_send work rf2)) = Z.max 0 (stop + 1 - first) ∧
     lastApplied (app_finish work rf2) = Z.max stop (first - 1) ∧
     ∀ k msg, app_send work rf2 !! k = Some msg →
       am_CommandIndex msg = first + Z.of_nat k ∧ am_SnapshotValid msg = false ∧
       ∃ en, RL.at_ (log rf) (am_CommandIndex msg) = Some en ∧
         am_CommandValid msg = le_CommandValid en ∧ am_Command msg = le_Command en).
Proof.
  intros Hi Hp first stop. pose proof (RL.wf_size _ (pi_wf _ Hi)) as Hs.
  unfold app_prepare. cbn -[app_collect]. rewrite Hp. cbn -[app_collect].
  set (rf1 := if lastApplied rf <? _ then _ else _).
  assert (lastApplied rf1 + 1 = first ∧ log rf1 = log rf ∧ commitIndex rf1 = commitIndex rf)
    as (Hf & Hl & Hc).
  { unfold rf1, first. destruct (_ <? _) eqn:E; cbn in *; split_and!; (lia || done). }
  clearbody rf1. rewrite Hf, Hl, Hc.
  set (end_ := if RL.size (log rf) <=? commitIndex rf then _ else _).
  assert (end_ = stop) as -> by (unfold end_, stop; destruct (_ <=? _) eqn:E; lia).
  destruct (app_collect_spec (log rf) first (Z.to_nat (stop + 1 - first)))
    as (es & E & Hlen & Hes); [lia|lia|].
  rewrite E. simpl. eexists _, _. split; [done|]. split; [done|]. intros H2.
  unfold app_send, app_finish. simpl. split_and!.
  - rewrite length_imap. lia.
  - cbn. unfold len. lia.
  - intros k msg. rewrite list_lookup_imap. intros (en & Hk & ->)%fmap_Some. simpl.
    split_and!; [lia|done|]. exists en. split; [|done].
    rewrite <-(Hes k en Hk). f_equal. lia.
Qed.
End spec.

(** ** A concrete peer *)

Module PeerExample.

Definition env : Env := mkEnv 1000 7.

(** Peer 0 of three, leader of term 2, with two commands in its log; peer 1 has
    acknowledged both. *)
Definition boot : RF.Raft Z unit := Make 3 0 PS.MakePersister.
Definition lead : RF.Raft Z unit :=
  let rf := default boot (becomeLeaderLocked (becomeCandidateLocked boot)) in
  let rf := (Start (Some 20) (Start (Some 10) rf).1).1 in
  match startReplication 2 rf with Some (rf, _, _) => rf | None => rf end.
Definition sent : @AppendEntriesArgs Z :=
  mkAEArgs 2 0 0 0 [mkEntry 2 true (Some 10); mkEntry 2 true (Some 20)] 0.
Definition acked : RF.Raft Z unit :=
  default boot (replicateToPeer 2 1 sent true (mkAEReply 2 true 0 0) lead).

Lemma boot_inv : peer_inv boot.
Proof. by split; [|split| |]. Qed.

Lemma lead_inv : peer_inv lead.
Proof.
  split; [vm_compute; reflexivity|split; [vm_compute; discriminate|vm_compute; reflexivity]|..];
    vm_compute; reflexivity.
Qed.

Lemma acked_inv : peer_inv acked.
Proof.
  split; [vm_compute; reflexivity|split; [vm_compute; discriminate|vm_compute; reflexivity]|..];
    vm_compute; reflexivity.
Qed.

Lemma getMajority_witness :
  ∃ m, getMajorityIndexLocked acked = Some m ∧ majority_index (npeers acked) (matchIndex acked) m.
Proof. apply (getMajorityIndexLocked_spec acked); [vm_compute; discriminate|apply acked_inv]. Defined.

Lemma commit_rule_witness :
  commitIndex lead = 0 ∧ commitIndex acked = 2 ∧
  (commitIndex acked = commitIndex lead ∨
   (commitIndex lead < commitIndex acked ∧ role acked = Leader ∧
    majority_index (npeers acked) (matchIndex acked) (commitIndex acked) ∧
    RL.termAt (log acked) (commitIndex acked) = Some (currentTerm acked))).
Proof.
  split; [vm_compute; reflexivity|]. split; [vm_compute; reflexivity|].
  apply (commit_rule 2 1 sent true (mkAEReply 2 true 0 0) lead acked).
  - vm_compute. discriminate.
  - apply lead_inv.
  - vm_compute. reflexivity.
Defined.

(** Peer 1 receives [sent]. *)
Lemma AppendEntries_witness :
  ∃ rf' reply, AppendEntries env sent boot = Some (rf', reply) ∧ peer_inv rf' ∧
    ar_Term reply = currentTerm boot ∧
    (ae_Term sent < currentTerm boot → rf' = boot ∧ ar_Success reply = false) ∧
    (currentTerm boot ≤ ae_Term sent →
       currentTerm rf' = ae_Term sent ∧ role rf' = Follower ∧
       (ar_Success reply = true ↔
          RL.termAt (log boot) (ae_PrevLogIndex sent) = Some (ae_PrevLogTerm sent)) ∧
       (ar_Success reply = true →
          commitIndex rf' = Z.max (commitIndex boot) (ae_LeaderCommit sent) ∧
          RL.size (log rf') = ae_PrevLogIndex sent + 1 + len (ae_Entries sent) ∧
          (∀ i, i ≤ ae_PrevLogIndex sent → RL.at_ (log rf') i = RL.at_ (log boot) i) ∧
          (∀ i, ae_PrevLogIndex sent < i →
             RL.at_ (log rf') i = slice_get (ae_Entries sent) (i - ae_PrevLogIndex sent - 1))) ∧
       (ar_Success reply = false →
          log rf' = log boot ∧ commitIndex rf' = commitIndex boot ∧
          conflict_hint (log boot) sent reply)).
Proof. apply (AppendEntries_spec env sent boot). apply boot_inv. Defined.

Lemma votes_final_witness :
  let rf' := becomeCandidateLocked boot in
  let rf'' := Make (npeers rf') (me rf') (persister rf') in
  votedFor rf' = 0 ∧ votedFor rf'' = votedFor rf'.
Proof.
  split; [vm_compute; reflexivity|].
  apply (votes_are_final (becomeCandidateLocked boot)).
  - vm_compute. discriminate.
  - by split; [|split| |].
  - eapply rtc_once. apply ps_restart.
  - vm_compute. reflexivity.
  - vm_compute. discriminate.
Defined.

Lemma append_only_witness :
  RL.size (log lead) = 3 ∧ log_extends (log lead) (log (Start (Some 30) lead).1).
Proof.
  split; [vm_compute; reflexivity|].
  apply (leader_append_only lead (Start (Some 30) lead).1).
  - apply ps_start.
  - vm_compute. reflexivity.
  - vm_compute. reflexivity.
Defined.

Lemma apply_round_witness :
  ∃ rf1 work, app_prepare acked = Some (rf1, work) ∧ log rf1 = log acked ∧
    (lastApplied acked = lastApplied rf1 →
     Z.of_nat (length (app_send work acked)) = Z.max 0 (Z.min (commitIndex acked) (RL.size (log acked) - 1) + 1 - (Z.max (lastApplied acked) (RL.snapLastIdx (log acked)) + 1))).
Proof.
  destruct (apply_round_spec acked acked) as (rf1 & work & E & Hl & H).
  - apply acked_inv.
  - vm_compute. reflexivity.
  - exists rf1, work. split; [exact E|]. split; [exact Hl|]. intros H2. apply H. exact H2.
Defined.
End PeerExample.
