(* ===== verification/RaftNet.v ===== *)
(** A cluster of [raft.go] peers connected by [labrpc].

    The goroutines the peers start and the RPCs they have in flight are
    [task]s; a step runs one task, or one of the ticker bodies, client calls
    and failures that are always possible.  [labrpc] may lose a request or a
    reply and may deliver them in any order, but executes a request at most once
    and returns at most one reply to the call, so a task is consumed when it
    runs.  The entries of an [AppendEntries] request are a view of the array of its
    sender's log until [labrpc] encodes them, after [startReplication] has released
    the lock ([GoSlice]): [EOverwrite] is what later writes to that array do to a
    request that is not encoded yet.  A round of the application ticker delivers its
    messages in one step, or some of them before a crash ([ESendCrash]).  A crash loses
    everything but the persister: the peer's goroutines disappear, and requests it had
    already sent become orphans, which may still be executed but whose reply nobody
    receives. *)

From S2P Require Import Prelude Gob RaftLog Raft.
Import RF.

#[local] Open Scope Z_scope.

Module Net.
Section net.
Context {Cmd SB : Type}.
Abbreviation Raft := (RF.Raft Cmd SB).

(** [p] owns the goroutine, [t] is the term it was started for, [q] the peer it
    calls. *)
Inductive task :=
  | TElect (p t : Z)
  | TVoteReq (p t q : Z) (args : RequestVoteArgs) (orphan : bool)
  | TVoteRep (p t q : Z) (reply : RequestVoteReply)
  | TRepl (p t : Z)
  | TAppReq (p t q : Z) (args : @AppendEntriesArgs Cmd) (orphan : bool)
  | TAppRep (p t q : Z) (args : @AppendEntriesArgs Cmd) (reply : AppendEntriesReply)
  | TInsReq (p t q : Z) (args : @InstallSnapshotArgs SB) (orphan : bool)
  | TInsRep (p t q : Z) (args : @InstallSnapshotArgs SB) (reply : InstallSnapshotReply)
  | TSend (p : Z) (work : list (LogEntry Cmd) * bool)
  | TFinish (p : Z) (work : list (LogEntry Cmd) * bool).

(** [votes] is the variable captured by the goroutines of the election that
    peer [p] runs for term [t]; [applied] is what each peer sent on its
    [applyCh]. *)
Record net := mkNet {
  peers : gmap Z Raft;
  votes : gmap (Z * Z) Z;
  tasks : list task;
  applied : gmap Z (list (ApplyMsg Cmd SB))
}.

Implicit Types s : net.

Definition set_peer (p : Z) (rf : Raft) s : net :=
  mkNet (<[p := rf]> (peers s)) (votes s) (tasks s) (applied s).
Definition set_votes (p t v : Z) s : net :=
  mkNet (peers s) (<[(p, t) := v]> (votes s)) (tasks s) (applied s).
Definition set_tasks (l : list task) s : net :=
  mkNet (peers s) (votes s) l (applied s).
Definition spawn (l : list task) s : net := set_tasks (tasks s ++ l) s.
Definition deliver (p : Z) (ms : list (ApplyMsg Cmd SB)) s : net :=
  mkNet (peers s) (votes s) (tasks s)
    (<[p := default [] (applied s !! p) ++ ms]> (applied s)).

Definition call_task (p t : Z) (c : @Call Cmd SB) : task :=
  match c with
  | CallAppend q args => TAppReq p t q args false
  | CallInstall q args => TInsReq p t q args false
  end.

(** Run a task that was taken out of [tasks]; [None] when a peer panics. *)
Definition run_task (e : Env) (tk : task) s : option net :=
  match tk with
  | TElect p t =>
      rf ← peers s !! p;
      match startElection t rf with
      | None => Some s
      | Some (v, calls) =>
          Some (spawn ((λ '(q, args), TVoteReq p t q args false) <$> calls)
                  (set_votes p t v s))
      end
  | TVoteReq p t q args orphan =>
      rf ← peers s !! q;
      let '(rf, reply) := RequestVote e args rf in
      Some (spawn (if orphan : bool then [] else [TVoteRep p t q reply]) (set_peer q rf s))
  | TVoteRep p t q reply =>
      v ← votes s !! (p, t);
      rf ← peers s !! p;
      '(rf, v, b) ← askVoteFromPeer t true reply v rf;
      Some (spawn (if b : bool then [TRepl p t] else []) (set_votes p t v (set_peer p rf s)))
  | TRepl p t =>
      rf ← peers s !! p;
      if killed rf then Some s
      else
        '(rf, calls, ok) ← startReplication t rf;
        Some (spawn ((call_task p t <$> calls) ++ (if ok : bool then [TRepl p t] else []))
                (set_peer p rf s))
  | TAppReq p t q args orphan =>
      rf ← peers s !! q;
      '(rf, reply) ← AppendEntries e args rf;
      Some (spawn (if orphan : bool then [] else [TAppRep p t q args reply]) (set_peer q rf s))
  | TAppRep p t q args reply =>
      rf ← peers s !! p;
      rf ← replicateToPeer t q args true reply rf;
      Some (set_peer p rf s)
  | TInsReq p t q args orphan =>
      rf ← peers s !! q;
      '(rf, reply) ← InstallSnapshot args rf;
      Some (spawn (if orphan : bool then [] else [TInsRep p t q args reply]) (set_peer q rf s))
  | TInsRep p t q args reply =>
      rf ← peers s !! p;
      rf ← installToPeer q t args true reply rf;
      Some (set_peer p rf s)
  | TSend p work =>
      rf ← peers s !! p;
      Some (spawn [TFinish p work] (deliver p (app_send work rf) s))
  | TFinish p work =>
      rf ← peers s !! p;
      Some (set_peer p (app_finish work rf) s)
  end.

(** The network may lose requests and replies, nothing else. *)
Definition lossy (tk : task) : bool :=
  match tk with
  | TVoteReq _ _ _ _ _ | TVoteRep _ _ _ _ | TAppReq _ _ _ _ _ | TAppRep _ _ _ _ _
  | TInsReq _ _ _ _ _ | TInsRep _ _ _ _ _ => true
  | _ => false
  end.

(** What a crash of [c] does to a task. *)
Definition on_crash (c : Z) (tk : task) : option task :=
  match tk with
  | TVoteReq p t q args o => Some (TVoteReq p t q args (o || (p =? c)))
  | TAppReq p t q args o => Some (TAppReq p t q args (o || (p =? c)))
  | TInsReq p t q args o => Some (TInsReq p t q args (o || (p =? c)))
  | TElect p _ | TVoteRep p _ _ _ | TRepl p _ | TAppRep p _ _ _ _ | TInsRep p _ _ _ _
  | TSend p _ | TFinish p _ => if p =? c then None else Some tk
  end.

(** The array behind the entries of a request is written to before they are encoded:
    any of the entries may be another one, their number and the other fields stay. *)
Definition overwrite_task (es : list (LogEntry Cmd)) (tk : task) : option task :=
  match tk with
  | TAppReq p t q args false =>
      if decide (length es = length (ae_Entries args)) then
        Some (TAppReq p t q (mkAEArgs (ae_Term args) (ae_LeaderId args) (ae_PrevLogIndex args)
                               (ae_PrevLogTerm args) es (ae_LeaderCommit args)) false)
      else None
  | _ => None
  end.

(** The application ticker of [p] is between its two critical sections. *)
Definition applying (p : Z) (tk : task) : bool :=
  match tk with TSend p' _ | TFinish p' _ => p' =? p | _ => false end.

(** [p] has lost everything but its persister and starts again. *)
Definition crashed (p : Z) (rf : Raft) s : net :=
  mkNet (<[p := Make (npeers rf) (me rf) (persister rf)]> (peers s))
    (filter (λ kv, kv.1.1 ≠ p) (votes s)) (omap (on_crash p) (tasks s)) (applied s).

Definition sending (tk : task) : option (Z * (list (LogEntry Cmd) * bool)) :=
  match tk with TSend p work => Some (p, work) | _ => None end.

Inductive event :=
  | ETick (p : Z) (e : Env)          (* one iteration of electionTicker *)
  | ERun (k : nat) (e : Env)         (* run the k-th task *)
  | EDrop (k : nat)                  (* lose the k-th task *)
  | EOverwrite (k : nat) (es : list (LogEntry Cmd))   (* the entries of the k-th task change *)
  | EStart (p : Z) (cmd : option Cmd)
  | ESnapshot (p index : Z) (snap : list SB)
  | EWait (p : Z)                    (* applicationTicker blocks *)
  | EPrepare (p : Z)                 (* applicationTicker wakes up *)
  | EKill (p : Z)
  | ECrash (p : Z)
  | ESendCrash (k j : nat).          (* p crashes after the first j messages of a round *)

Definition step (ev : event) s : option net :=
  match ev with
  | ETick p e =>
      rf ← peers s !! p;
      if killed rf then None
      else
        let '(rf, ot) := electionTicker e rf in
        Some (spawn (match ot with Some t => [TElect p t] | None => [] end)
                (set_peer p rf s))
  | ERun k e => tk ← tasks s !! k; run_task e tk (set_tasks (delete k (tasks s)) s)
  | EDrop k =>
      tk ← tasks s !! k;
      if lossy tk then Some (set_tasks (delete k (tasks s)) s) else None
  | EOverwrite k es =>
      tk ← tasks s !! k;
      tk ← overwrite_task es tk;
      Some (spawn [tk] (set_tasks (delete k (tasks s)) s))
  | EStart p cmd => rf ← peers s !! p; Some (set_peer p (Start cmd rf).1 s)
  | ESnapshot p index snap =>
      rf ← peers s !! p; rf ← Snapshot index snap rf; Some (set_peer p rf s)
  | EWait p =>
      rf ← peers s !! p;
      if killed rf || existsb (applying p) (tasks s) then None
      else match applyCond rf with CIdle => Some (set_peer p (app_wait rf) s) | _ => None end
  | EPrepare p =>
      rf ← peers s !! p;
      match applyCond rf with
      | CWoken =>
          '(rf, work) ← app_prepare rf;
          Some (spawn [TSend p work] (set_peer p rf s))
      | _ => None
      end
  | EKill p => rf ← peers s !! p; Some (set_peer p (Kill rf) s)
  | ECrash p =>
      rf ← peers s !! p;
      Some (crashed p rf s)
  | ESendCrash k j =>
      tk ← tasks s !! k;
      '(p, work) ← sending tk;
      rf ← peers s !! p;
      Some (crashed p rf (deliver p (take j (app_send work rf)) s))
  end.

Definition next s s' : Prop := ∃ ev, step ev s = Some s'.

(** [n] peers that start with empty persisters. *)
Definition init (n : Z) : net :=
  mkNet (list_to_map ((λ p, (p, Make n p PS.MakePersister)) <$> seqZ 0 n)) ∅ [] ∅.

(** A run as a function of its events. *)
Fixpoint exec (evs : list event) s : option net :=
  match evs with
  | [] => Some s
  | ev :: evs => s ← step ev s; exec evs s
  end.

Lemma exec_rtc evs s s' : exec evs s = Some s' → rtc next s s'.
Proof.
  revert s. induction evs as [|ev evs IH]; intros s; simpl; [intros [= ->]; constructor|].
  rewrite bind_Some. intros (s1 & E & H). econstructor; [by exists ev|]. by apply IH.
Qed.
End net.
Arguments net : clear implicits.
Arguments task : clear implicits.
Arguments event : clear implicits.
End Net.
