(* ===== verification/RaftElection.v ===== *)
(** The cluster of [raft.go] peers implements the voting contract, and so has
    at most one leader per term.

    [sim] says that a network shows a state of [Ballot]; [step_refines] is the
    simulation: every step of the network is zero or more steps of the ballot,
    which are in turn steps of [Voting]. *)

From S2P Require Import Prelude Gob RaftLog Raft RaftFacts Voting Ballot RaftNet.
Import RF Net.

#[local] Open Scope Z_scope.

Section election.
Context {Cmd SB : Type}.
Abbreviation Raft := (RF.Raft Cmd SB).
Abbreviation net := (Net.net Cmd SB).
Abbreviation task := (Net.task Cmd SB).
Implicit Types (rf : Raft) (s : net) (tk : task) (b : BL.ballot) (n p q t : Z).

(** ** The election steps of one peer *)

Lemma ask_everyone (m : Z) (args : RequestVoteArgs) l v c :
  foldl (λ '(votes, calls) peer,
      if peer =? m then (votes + 1, calls) else (votes, calls ++ [(peer, args)])) (v, c) l =
    (v + len (filter (λ q, q = m) l), c ++ ((λ q, (q, args)) <$> filter (λ q, q ≠ m) l)).
Proof.
  revert v c. induction l as [|x l IH]; intros v c; simpl.
  { rewrite !filter_nil. simpl. by rewrite app_nil_r, Z.add_0_r. }
  destruct (Z.eqb_spec x m); rewrite IH.
  - rewrite filter_cons_True, filter_cons_False by naive_solver. f_equal.
    unfold len. simpl. lia.
  - rewrite filter_cons_False, filter_cons_True by naive_solver. f_equal.
    by rewrite <-app_assoc.
Qed.

Lemma filter_eq_NoDup (m : Z) l : NoDup l → m ∈ l → filter (λ q, q = m) l = [m].
Proof.
  induction 1 as [|x l Hx Hnd IH]; [set_solver|]. intros [->|Hm]%elem_of_cons.
  - rewrite filter_cons_True by done. f_equal.
    apply elem_of_nil_inv. intros y [-> ?]%list_elem_of_filter. done.
  - rewrite filter_cons_False by set_solver. auto.
Qed.

Lemma startElection_cases t rf v calls :
  startElection t rf = Some (v, calls) → 0 ≤ me rf < npeers rf →
  currentTerm rf = t ∧ role rf = Candidate ∧ v = 1 ∧ NoDup calls.*1 ∧
  ∀ q args, (q, args) ∈ calls →
    0 ≤ q < npeers rf ∧ q ≠ me rf ∧ rv_Term args = t ∧ rv_CandidateId args = me rf.
Proof.
  unfold startElection. case_match eqn:E; [done|]. intros H Hme.
  unfold contextLostLocked in E.
  apply negb_false_iff, andb_true_iff in E as [Ht%Z.eqb_eq Hr%bool_decide_eq_true].
  destruct (RL.last (log rf)) as [li lt]. injection H as H.
  rewrite ask_everyone, filter_eq_NoDup in H; [|apply NoDup_seqZ|apply elem_of_seqZ; lia].
  injection H as <- <-. simpl. split_and!; try done.
  - rewrite <-list_fmap_compose, (list_fmap_ext _ id) by done. rewrite list_fmap_id.
    apply list.NoDup_filter, NoDup_seqZ.
  - intros q args. rewrite list_elem_of_fmap. intros (q' & [= -> ->] & Hq).
    apply list_elem_of_filter in Hq as [? Hq%elem_of_seqZ]. simpl. split_and!; lia || done.
Qed.

(** ** The simulation relation *)

Definition proj rf : BL.bpeer := BL.mkB (currentTerm rf) (votedFor rf) (role rf).

(** What a task is in the ballot. *)
Definition call tk : option BL.bcall :=
  match tk with
  | TElect p t => Some (BL.BElect p t)
  | TVoteReq p t q _ _ => Some (BL.BReq p t q)
  | TVoteRep p t q reply => if rr_VoteGranted reply then Some (BL.BRep p t q) else None
  | _ => None
  end.

Definition calls (l : list task) : list BL.bcall := omap call l.

Definition task_ok tk : Prop :=
  match tk with
  | TVoteReq p t _ args _ => rv_Term args = t ∧ rv_CandidateId args = p
  | _ => True
  end.

Record peer_ok n p rf : Prop := {
  po_me : me rf = p;
  po_n : npeers rf = n;
  po_range : 0 ≤ p < n;
  po_inv : peer_inv rf
}.

Record sim n s b : Prop := {
  si_shows : BL.shows b (proj <$> peers s) (votes s) (calls (tasks s));
  si_peer : ∀ p rf, peers s !! p = Some rf → peer_ok n p rf;
  si_task : ∀ tk, tk ∈ tasks s → task_ok tk
}.

Lemma calls_app l1 l2 : calls (l1 ++ l2) = calls l1 ++ calls l2.
Proof. apply omap_app. Qed.

Lemma calls_delete l k tk :
  l !! k = Some tk → calls l ≡ₚ option_list (call tk) ++ calls (delete k l).
Proof.
  intros H. unfold calls. rewrite (delete_Permutation l k tk H) at 1. simpl.
  by destruct (call tk).
Qed.

Lemma calls_delete_sub l k tk : l !! k = Some tk → calls (delete k l) ⊆+ calls l.
Proof. intros E. rewrite (calls_delete _ _ _ E). by apply submseteq_inserts_l. Qed.

Lemma calls_none l : (∀ tk, tk ∈ l → call tk = None) → calls l = [].
Proof.
  intros H. apply elem_of_nil_inv. intros c. unfold calls. rewrite list_elem_of_omap.
  intros (tk & ? & E). by rewrite H in E.
Qed.

Lemma task_ok_none tk : call tk = None → task_ok tk.
Proof. by destruct tk. Qed.

Lemma proj_lookup s p rf : peers s !! p = Some rf → (proj <$> peers s) !! p = Some (proj rf).
Proof. intros H. by rewrite lookup_fmap, H. Qed.

Lemma quiet_proj rf rf' : quiet rf rf' → BL.bquiet (proj rf) (proj rf').
Proof. by intros (_ & _ & ?). Qed.

Lemma peer_ok_same n p rf rf' :
  peer_ok n p rf → me rf' = me rf → npeers rf' = npeers rf → peer_inv rf' → peer_ok n p rf'.
Proof. intros [] ? ? ?. split; congruence || done. Qed.

(** The network after a step that the ballot answered with [b']. *)
Lemma sim_intro n s b b' ps vs l app :
  sim n s b → BL.shows b' (proj <$> ps) vs (calls l) →
  (∀ p rf, ps !! p = Some rf → peers s !! p = Some rf ∨ peer_ok n p rf) →
  (∀ tk, tk ∈ l → tk ∈ tasks s ∨ task_ok tk) → sim n (mkNet ps vs l app) b'.
Proof.
  intros [_ Hp Ht] Hs Hps Hl. split; simpl; [done|..].
  - intros p rf [?|?]%Hps; auto.
  - intros tk [?|?]%Hl; auto.
Qed.

Lemma insert_ok n s p rf' :
  peer_ok n p rf' → ∀ q rq, <[p := rf']> (peers s) !! q = Some rq →
    peers s !! q = Some rq ∨ peer_ok n q rq.
Proof. intros Hok q rq [[<- <-]|[_ ?]]%lookup_insert_Some; auto. Qed.

(** A step of [p] that takes no part in an election. *)
Lemma run_quiet n s b l p rf rf' new app :
  sim n s b → calls l ⊆+ calls (tasks s) → (∀ tk, tk ∈ l → tk ∈ tasks s) →
  peers s !! p = Some rf → quiet rf rf' → peer_inv rf' → (∀ tk, tk ∈ new → call tk = None) →
  ∃ b', BL.bmove n b b' ∧
    sim n (mkNet (<[p := rf']> (peers s)) (votes s) (l ++ new) app) b'.
Proof.
  intros R Hk Hl Hp Hq Hi Hn. pose proof (si_peer _ _ _ R p rf Hp) as Hok.
  destruct (BL.show_quiet n b _ _ _ p (proj rf) (proj rf') (calls l) (si_shows _ _ _ R))
    as (b' & Hb & Hs); [by apply proj_lookup|by apply quiet_proj|done|].
  exists b'. split; [by apply BL.still_bmove|]. eapply sim_intro; [done|..].
  - by rewrite fmap_insert, calls_app, (calls_none new), app_nil_r.
  - apply insert_ok. destruct Hq as (? & ? & _). by eapply peer_ok_same.
  - intros tk [?|?]%elem_of_app; [left; auto|right; apply task_ok_none; auto].
Qed.

(** A step that loses tasks. *)
Lemma run_drop n s b l new app :
  sim n s b → calls l ⊆+ calls (tasks s) → (∀ tk, tk ∈ l → tk ∈ tasks s) →
  (∀ tk, tk ∈ new → call tk = None) →
  ∃ b', BL.bmove n b b' ∧ sim n (mkNet (peers s) (votes s) (l ++ new) app) b'.
Proof.
  intros R Hk Hl Hn. destruct (BL.show_drop n b _ _ _ (calls l) (si_shows _ _ _ R) Hk) as (b' & Hb & Hs).
  exists b'. split; [by apply BL.still_bmove|]. eapply sim_intro; [done|..].
  - by rewrite calls_app, (calls_none new), app_nil_r.
  - auto.
  - intros tk [?|?]%elem_of_app; [left; auto|right; apply task_ok_none; auto].
Qed.

Lemma no_task_calls (p t : Z) (cs : list (@Call Cmd SB)) (b : bool) tk :
  tk ∈ (call_task p t <$> cs) ++ (if b then [TRepl p t] else []) → call tk = None.
Proof.
  rewrite elem_of_app, list_elem_of_fmap. intros [([] & -> & _)|H]; [done|done|].
  destruct b; set_unfold; naive_solver.
Qed.

(** ** The election tasks *)

Lemma tick_refines n s b p e rf :
  sim n s b → peers s !! p = Some rf →
  ∃ b', BL.bmove n b b' ∧
    sim n (spawn (match (electionTicker e rf).2 with Some t => [TElect p t] | None => [] end)
             (set_peer p (electionTicker e rf).1 s)) b'.
Proof.
  intros R Hp. unfold electionTicker. destruct (_ && _) eqn:E; simpl; last first.
  { eapply (run_quiet n s b (tasks s) p rf rf [] (applied s)); try done;
      [apply quiet_refl|by eapply po_inv, si_peer|set_solver]. }
  apply andb_true_iff in E as [Hr%bool_decide_eq_true _].
  pose proof (becomeCandidate_spec rf Hr) as (Ht & Hro & Hv & _ & Hm & Hn & _).
  pose proof (si_peer _ _ _ R p rf Hp) as Hok.
  destruct (BL.show_candidate n b _ _ _ p (proj rf) (si_shows _ _ _ R)) as (b' & Hb & Hs);
    [by apply proj_lookup|].
  exists b'. split; [done|]. unfold spawn, set_tasks, set_peer. simpl. eapply sim_intro; [done|..].
  - rewrite fmap_insert, Ht, calls_app. unfold proj at 1. rewrite Ht, Hv, Hro, (po_me _ _ _ Hok).
    destruct Hs as (? & ? & Hc). split_and!; [done..|]. rewrite Hc. simpl. by rewrite Permutation_app_comm.
  - apply insert_ok. eapply peer_ok_same; try done. by apply inv_candidate, Hok.
  - intros tk [?| ->%list_elem_of_singleton]%elem_of_app; [by left|by right].
Qed.

Lemma calls_requests (p t : Z) (cs : list (Z * RequestVoteArgs)) :
  calls ((λ '(q, args), TVoteReq p t q args false) <$> cs) = BL.BReq p t <$> cs.*1.
Proof. induction cs as [|[q a] cs IH]; [done|]. unfold calls in *. simpl. by f_equal. Qed.

(** [startElection]: the candidate's own vote is the first one counted. *)
Lemma elect_refines n s b k p t rf v cs :
  sim n s b → tasks s !! k = Some (TElect p t) → peers s !! p = Some rf →
  startElection t rf = Some (v, cs) →
  ∃ b', BL.bmove n b b' ∧
    sim n (mkNet (peers s) (<[(p, t) := v]> (votes s))
             (delete k (tasks s) ++ ((λ '(q, args), TVoteReq p t q args false) <$> cs))
             (applied s)) b'.
Proof.
  intros R Hk Hp E. destruct (si_peer _ _ _ R p rf Hp) as [<- <- Hr _].
  apply startElection_cases in E as (<- & Hro & -> & Hnd & Hc); [|done].
  destruct (si_shows _ _ _ R) as (E1 & E2 & E3). rewrite (calls_delete _ _ _ Hk) in E3.
  destruct (BL.show_start (npeers rf) b _ _ (calls (delete k (tasks s))) (me rf) (proj rf) cs.*1
    (conj E1 (conj E2 E3))) as (b' & Hb & Hs); [by apply proj_lookup|done|done|..].
  { intros q ([q' a] & -> & Ha)%list_elem_of_fmap. by destruct (Hc _ _ Ha) as (? & ? & _). }
  exists b'. split; [by apply BL.still_bmove|]. eapply sim_intro; [done|..].
  - rewrite calls_app, calls_requests. destruct Hs as (? & ? & Hcs). split_and!; [done..|].
    rewrite Hcs. by rewrite Permutation_app_comm.
  - auto.
  - intros tk [?%list_elem_of_delete_inv|Htk]%elem_of_app; [by left|right].
    apply list_elem_of_fmap in Htk as ([q args] & -> & Ha). by destruct (Hc _ _ Ha) as (_ & _ & ? & ?).
Qed.

(** [RequestVote] at [q], on behalf of the election of [p]. *)
Lemma votereq_refines n s b k p t q args o e rf :
  sim n s b → tasks s !! k = Some (TVoteReq p t q args o) → peers s !! q = Some rf →
  ∃ b', BL.bmove n b b' ∧
    sim n (mkNet (<[q := (RequestVote e args rf).1]> (peers s)) (votes s)
             (delete k (tasks s) ++
              (if o : bool then [] else [TVoteRep p t q (RequestVote e args rf).2]))
             (applied s)) b'.
Proof.
  intros R Hk Hq. pose proof (si_peer _ _ _ R q rf Hq) as Hok.
  pose proof (inv_vote e args rf (po_inv _ _ _ Hok)) as Hi.
  destruct (RequestVote e args rf) as [rf' reply] eqn:E. simpl in *.
  destruct (si_task _ _ _ R _ (list_elem_of_lookup_2 _ _ _ Hk)) as [Ht Hc].
  destruct (si_shows _ _ _ R) as (E1 & E2 & E3). rewrite (calls_delete _ _ _ Hk) in E3.
  assert (∀ tk, tk ∈ delete k (tasks s) ++ (if o then [] else [TVoteRep p t q reply]) →
            tk ∈ tasks s ∨ task_ok tk) as Htk.
  { intros tk [?%list_elem_of_delete_inv|?]%elem_of_app; [by left|right]. destruct o; set_solver. }
  apply RequestVote_cases in E as [(Hng & Hqu)|(Hg & Hm & Hn & Hle & Ht' & Hv' & Hcase)].
  - eapply run_quiet; eauto using calls_delete_sub, list_elem_of_delete_inv.
    intros tk. destruct o; [set_solver|]. intros ->%list_elem_of_singleton. simpl. by rewrite Hng.
  - destruct (BL.show_grant n b _ _ (calls (delete k (tasks s))) p t q (proj rf) (proj rf')
      (conj E1 (conj E2 E3))) as (b1 & Hb1 & Hs1); [by apply proj_lookup|simpl; lia|..].
    { simpl. intros <-. destruct Hcase as [(_ & ? & _)|[? _]]; [by left|lia]. }
    { unfold proj. rewrite Ht', Hv', Ht, Hc. f_equal. simpl.
      destruct Hcase as [(? & _ & ->)|[? ->]]; [rewrite decide_True|rewrite decide_False]; done || lia. }
    destruct (BL.show_drop n b1 _ _ _ (calls (delete k (tasks s) ++
      (if o then [] else [TVoteRep p t q reply]))) Hs1) as (b2 & Hb2 & Hs2).
    { rewrite calls_app. destruct o; simpl.
      - rewrite app_nil_r. by apply submseteq_cons.
      - rewrite Hg. simpl. by rewrite Permutation_app_comm. }
    exists b2. split; [eapply BL.bmove_still; [done..|]; by destruct Hs1 as [-> _], Hs2 as [-> _]|].
    eapply sim_intro; [done|by rewrite fmap_insert|..|done]. apply insert_ok. by eapply peer_ok_same.
Qed.

(** A reply to the candidate: one more vote, and maybe a majority. *)
Lemma voterep_refines n s b k p t q reply rf v rf' v' won :
  sim n s b → tasks s !! k = Some (TVoteRep p t q reply) → votes s !! (p, t) = Some v →
  peers s !! p = Some rf → askVoteFromPeer t true reply v rf = Some (rf', v', won) →
  ∃ b', BL.bmove n b b' ∧
    sim n (mkNet (<[p := rf']> (peers s)) (<[(p, t) := v']> (votes s))
             (delete k (tasks s) ++ (if won : bool then [TRepl p t] else [])) (applied s)) b'.
Proof.
  intros R Hk Hv Hp E. pose proof (si_peer _ _ _ R p rf Hp) as Hok.
  pose proof (inv_votereply _ _ _ _ _ _ _ _ (po_inv _ _ _ Hok) E) as Hi.
  assert (∀ tk, tk ∈ (if won then [TRepl p t] else [] : list task) → call tk = None) as Hw
    by (destruct won; set_solver).
  apply askVote_cases in E as [[-> Hq]|(Hg & -> & Ht & Hr & Hcase)].
  { rewrite (insert_id (votes s)) by done.
    eapply run_quiet; eauto using calls_delete_sub, list_elem_of_delete_inv. }
  destruct (si_shows _ _ _ R) as (E1 & E2 & E3).
  rewrite (calls_delete _ _ _ Hk) in E3. simpl in E3. rewrite Hg in E3.
  destruct (BL.show_count n b _ _ (calls (delete k (tasks s))) p t q v (conj E1 (conj E2 E3)) Hv)
    as (b1 & Hb1 & Hs1).
  assert (∃ b2, BL.still n b1 b2 ∧ BL.shows b2 (proj <$> <[p := rf']> (peers s))
    (<[(p, t) := v + 1]> (votes s)) (calls (delete k (tasks s)))) as (b2 & Hb2 & Hs2).
  { destruct Hcase as [->|[Hmaj (ni & mi & -> & _)]].
    - exists b1. by rewrite insert_id.
    - rewrite fmap_insert. subst t. eapply (BL.show_lead n b1 _ _ _ p (proj rf)); try done.
      + by apply proj_lookup.
      + simpl. by rewrite lookup_insert_eq.
      + rewrite <-(po_n _ _ _ Hok). lia. }
  exists b2. split; [apply BL.still_bmove; by apply (BL.still_trans n b b1 b2)|]. eapply sim_intro; [done|..].
  - by rewrite calls_app, (calls_none (if won then _ else _)), app_nil_r.
  - apply insert_ok. destruct Hcase as [->|[_ (ni & mi & -> & _)]]; [done|]. by eapply peer_ok_same.
  - intros tk [?%list_elem_of_delete_inv|?]%elem_of_app; [by left|right]. by apply task_ok_none, Hw.
Qed.

(** ** Crashes *)

Lemma on_crash_call c tk tk' :
  on_crash c tk = Some tk' → call tk' = call tk ∧ (task_ok tk → task_ok tk').
Proof. intros E. destruct tk; simpl in E; try destruct (_ =? _); by simplify_eq. Qed.

Lemma on_crash_sub c l : calls (omap (on_crash c) l) ⊆+ calls l.
Proof.
  induction l as [|tk l IH]; [done|]. unfold calls in *. simpl.
  destruct (on_crash c tk) as [tk'|] eqn:E; simpl.
  - rewrite (proj1 (on_crash_call _ _ _ E)). destruct (call tk); [by apply submseteq_skip|done].
  - destruct (call tk); [by apply submseteq_cons|done].
Qed.

Lemma crash_refines n s b p rf :
  sim n s b → peers s !! p = Some rf →
  ∃ b', BL.bmove n b b' ∧
    sim n (mkNet (<[p := Make (npeers rf) (me rf) (persister rf)]> (peers s))
             (filter (λ kv, kv.1.1 ≠ p) (votes s))
             (omap (on_crash p) (tasks s)) (applied s)) b'.
Proof.
  intros R Hp. pose proof (si_peer _ _ _ R p rf Hp) as Hok. pose proof Hok as [].
  destruct (BL.show_restart n b _ _ _ p (proj rf) (proj (Make (npeers rf) (me rf) (persister rf)))
    (calls (omap (on_crash p) (tasks s))) (si_shows _ _ _ R)) as (b' & Hb & Hs).
  - by apply proj_lookup.
  - apply quiet_proj, quiet_restart, po_inv0.
  - apply on_crash_sub.
  - exists b'. split; [by apply BL.still_bmove|]. eapply sim_intro; [done|by rewrite fmap_insert|..].
    + apply insert_ok. destruct (quiet_restart rf (pi_synced _ po_inv0)) as (? & ? & _).
      apply (peer_ok_same n p rf); try done. apply inv_restart; [lia|done].
    + intros tk' (tk & Htk & E)%list_elem_of_omap. right.
      apply (on_crash_call _ _ _ E), (si_task _ _ _ R _ Htk).
Qed.

(** ** The simulation *)

Lemma run_refines n s b k tk e s' :
  sim n s b → tasks s !! k = Some tk →
  run_task e tk (set_tasks (delete k (tasks s)) s) = Some s' →
  ∃ b', BL.bmove n b b' ∧ sim n s' b'.
Proof.
  intros R Hk E.
  assert (∀ p rf rf' new app, peers s !! p = Some rf → quiet rf rf' → peer_inv rf' →
    (∀ tk, tk ∈ new → call tk = None) →
    ∃ b', BL.bmove n b b' ∧
      sim n (mkNet (<[p := rf']> (peers s)) (votes s) (delete k (tasks s) ++ new) app) b') as Q.
  { intros. eapply run_quiet; eauto using calls_delete_sub, list_elem_of_delete_inv. }
  assert (∀ new app, (∀ tk, tk ∈ new → call tk = None) → ∃ b', BL.bmove n b b' ∧
    sim n (mkNet (peers s) (votes s) (delete k (tasks s) ++ new) app) b') as T.
  { intros. apply run_drop; eauto using calls_delete_sub, list_elem_of_delete_inv. }
  assert (∃ b', BL.bmove n b b' ∧ sim n (set_tasks (delete k (tasks s)) s) b') as T0.
  { unfold set_tasks. rewrite <-(app_nil_r (delete k (tasks s))). apply T. set_solver. }
  assert (∀ p rf, peers s !! p = Some rf → peer_inv rf) as I.
  { intros p rf Hp. eapply po_inv, si_peer; done. }
  destruct tk as [p t|p t q args o|p t q reply|p t|p t q args o|p t q args reply|p t q args o
                 |p t q args reply|p work|p work]; simpl in E;
    apply bind_Some in E as (rf & Hp & E).
  - destruct (startElection t rf) as [[v cs]|] eqn:Es; simplify_eq; [|done].
    exact (elect_refines n s b k p t rf v cs R Hk Hp Es).
  - destruct (RequestVote e args rf) as [rf' reply] eqn:Er. simplify_eq.
    pose proof (votereq_refines n s b k p t q args o e rf R Hk Hp) as H. by rewrite Er in H.
  - apply bind_Some in E as (rf0 & Hp' & E). apply bind_Some in E as ([[rf' v'] won] & Ea & E).
    simplify_eq. exact (voterep_refines n s b k p t q reply rf0 rf rf' v' won R Hk Hp Hp' Ea).
  - destruct (killed rf); simplify_eq; [done|].
    apply bind_Some in E as ([[rf' cs] ok] & Es & E). simplify_eq.
    apply startReplication_spec in Es.
    apply (Q _ rf); eauto using quiet_reindexed, inv_reindexed, no_task_calls.
  - apply bind_Some in E as ([rf' reply] & Ea & E). simplify_eq.
    apply (Q _ rf); eauto using quiet_append, inv_append. destruct o; set_solver.
  - apply bind_Some in E as (rf' & Ea & E). simplify_eq.
    rewrite <-(app_nil_r (delete k (tasks s))). apply (Q _ rf); eauto using quiet_append_reply.
    + apply replicateToPeer_spec in Ea as [(u & _ & ->)|[Hr|(rf1 & m & Hr & _ & ->)]].
      * eauto using inv_becomeFollower.
      * eauto using inv_reindexed.
      * pose proof (inv_reindexed _ _ (I _ _ Hp) Hr) as Hi.
        eapply inv_same_log; [exact Hi|apply Hi|..]; done.
    + set_solver.
  - apply bind_Some in E as ([rf' reply] & Ea & E). simplify_eq.
    apply (Q _ rf); eauto using quiet_install, inv_install. destruct o; set_solver.
  - apply bind_Some in E as (rf' & Ea & E). simplify_eq.
    rewrite <-(app_nil_r (delete k (tasks s))). apply (Q _ rf); eauto using quiet_install_reply.
    + apply installToPeer_spec in Ea as [(u & _ & ->)|Hr];
        eauto using inv_becomeFollower, inv_reindexed.
    + set_solver.
  - simplify_eq. apply T. set_solver.
  - simplify_eq. rewrite <-(app_nil_r (delete k (tasks s))).
    apply (Q _ rf); eauto using quiet_finish, inv_finish. set_solver.
Qed.

Lemma overwrite_no_call es tk tk' : overwrite_task es tk = Some tk' → call tk' = None.
Proof. unfold overwrite_task. intros E. by repeat case_match; simplify_eq. Qed.

Lemma step_refines n s b ev s' :
  sim n s b → step ev s = Some s' → ∃ b', BL.bmove n b b' ∧ sim n s' b'.
Proof.
  intros R E.
  assert (∀ p rf rf' new, peers s !! p = Some rf → quiet rf rf' → peer_inv rf' →
    (∀ tk, tk ∈ new → call tk = None) →
    ∃ b', BL.bmove n b b' ∧
      sim n (mkNet (<[p := rf']> (peers s)) (votes s) (tasks s ++ new) (applied s)) b') as Q.
  { intros. by eapply run_quiet. }
  assert (∀ p rf, peers s !! p = Some rf → peer_inv rf) as I.
  { intros p rf Hp. eapply po_inv, si_peer; done. }
  destruct ev as [p e|k e|k|k es|p cmd|p i snap|p|p|p|p|k j]; simpl in E;
    apply bind_Some in E as (x & Hx & E).
  - destruct (killed x); [done|]. pose proof (tick_refines n s b p e x R Hx) as H.
    destruct (electionTicker e x) as [rf' ot]. by simplify_eq.
  - by eapply run_refines.
  - destruct (lossy x); simplify_eq. unfold set_tasks. rewrite <-(app_nil_r (delete k (tasks s))).
    apply run_drop; eauto using calls_delete_sub, list_elem_of_delete_inv. set_solver.
  - apply bind_Some in E as (tk & Ho & E). simplify_eq. unfold spawn, set_tasks. simpl.
    apply run_drop; eauto using calls_delete_sub, list_elem_of_delete_inv.
    intros tk' ->%list_elem_of_singleton. by eapply overwrite_no_call.
  - simplify_eq. unfold set_peer. rewrite <-(app_nil_r (tasks s)).
    apply (Q _ x); [done|apply quiet_start| |set_solver].
    unfold Start. case_decide; [eauto|]. apply inv_new_log; eauto. apply RL.wf_append. by eapply pi_wf, I.
  - apply bind_Some in E as (rf' & Es & E). simplify_eq. unfold set_peer.
    rewrite <-(app_nil_r (tasks s)).
    apply (Q _ x); [done|by eapply quiet_snapshot|eapply inv_snapshot; eauto|set_solver].
  - destruct (killed x || _); [done|]. destruct (applyCond x); simplify_eq. unfold set_peer.
    rewrite <-(app_nil_r (tasks s)). apply (Q _ x); [done|apply (quiet_refl x)| |set_solver].
    eapply inv_same_log; [eauto|apply (I p x Hx)|..]; done.
  - destruct (applyCond x); simplify_eq. apply bind_Some in E as ([rf' work] & Es & E).
    simplify_eq. apply (Q _ x); [done|by eapply quiet_prepare|eapply inv_prepare; eauto|set_solver].
  - simplify_eq. unfold set_peer. rewrite <-(app_nil_r (tasks s)).
    apply (Q _ x); [done|apply (quiet_refl x)| |set_solver].
    eapply inv_same_log; [eauto|apply (I p x Hx)|..]; done.
  - simplify_eq. by apply crash_refines.
  - apply bind_Some in E as ([p work] & _ & E). apply bind_Some in E as (rf & Hp & E). simplify_eq.
    apply crash_refines; [|done]. by destruct R.
Qed.

Lemma init_peers n p rf :
  peers (init n : net) !! p = Some rf → 0 ≤ p < n ∧ rf = Make n p PS.MakePersister.
Proof.
  simpl. intros H%elem_of_list_to_map_2. apply list_elem_of_fmap in H as (q & [= -> ->] & Hq).
  apply elem_of_seqZ in Hq. split; [lia|done].
Qed.

Definition terms0 n : gmap Z Z := list_to_map ((λ p, (p, 1)) <$> seqZ 0 n).
Definition vs0 n : vstate := vinit (terms0 n).

Lemma terms0_dom n : dom (terms0 n) ⊆ cluster n.
Proof.
  intros p. unfold terms0. rewrite dom_list_to_map, elem_of_list_to_set, <-list_fmap_compose.
  rewrite (list_fmap_ext _ id) by done. rewrite list_fmap_id. intros H%elem_of_seqZ.
  apply elem_of_cluster. lia.
Qed.

Lemma init_sim n : sim n (init n) (BL.bfresh (terms0 n)).
Proof.
  split; simpl; [|..|set_solver].
  - split_and!; [|done..]. simpl. unfold terms0. by rewrite <-!list_to_map_fmap, <-!list_fmap_compose.
  - intros p rf H. apply (init_peers n p rf) in H as [Hp ->]. split; try done.
    split; simpl; [done|by apply RL.wf_NewLog|..]; unfold len; rewrite length_replicate; lia.
Qed.

Lemma runs_refine n s b s' :
  sim n s b → rtc next s s' → ∃ b', rtc (BL.bstep n) b b' ∧ sim n s' b'.
Proof.
  intros R H. revert b R. induction H as [s|s s1 s2 Hn _ IH]; intros b R.
  { by exists b. }
  destruct Hn as [ev E]. destruct (step_refines n s b ev s1 R E) as (b1 & [H1 _] & R1).
  destruct (IH b1 R1) as (b2 & H2 & R2). exists b2. split; [by etrans|done].
Qed.

Lemma sim_peer n s b p rf :
  sim n s b → peers s !! p = Some rf → BL.b_peers b !! p = Some (proj rf).
Proof. intros R Hp. destruct (si_shows _ _ _ R) as (-> & _). by apply proj_lookup. Qed.

(** ** The theorems *)

(** C12: every run of a cluster of [raft.go] peers, with lost and reordered
    messages and crashes followed by restarts from the persister, is a run of
    the voting contract: terms only grow, a peer votes at most once per term
    and a peer that is leader was elected by a majority of that term's votes. *)
Theorem raft_net_refines_voting n (s : net) :
  rtc next (init n) s →
  ∃ vs, rtc (vstep (cluster n)) (vs0 n) vs ∧
    (∀ p rf, peers s !! p = Some rf →
       vterm vs !! p = Some (currentTerm rf) ∧
       (votedFor rf ≠ -1 → (p, currentTerm rf, votedFor rf) ∈ grants vs) ∧
       (role rf = Leader → (currentTerm rf, p) ∈ leaders vs)).
Proof.
  intros H. destruct (runs_refine n _ _ _ (init_sim n) H) as (b & Hb & R).
  destruct (BL.bsteps_refine n _ _ (BL.bfresh_inv n _ (terms0_dom n)) Hb) as [I Hvs].
  rewrite BL.bfresh_abs in Hvs. exists (BL.abs b). split; [done|].
  intros p rf Hp%(sim_peer n s b p rf R). split; [simpl; by rewrite lookup_fmap, Hp|].
  by destruct (BL.bi_peer n b I p _ Hp).
Qed.

(** C1: Election Safety. If [p] leads a term at some point of a run and [q]
    leads the same term at the same or any later point, [p] and [q] are the
    same peer, whatever was lost, reordered or crashed in between. *)
Theorem election_safety n (s1 s2 : net) p q rfp rfq :
  rtc next (init n) s1 → rtc next s1 s2 →
  peers s1 !! p = Some rfp → role rfp = Leader →
  peers s2 !! q = Some rfq → role rfq = Leader →
  currentTerm rfp = currentTerm rfq → p = q.
Proof.
  intros H1 H2 Hp Hlp Hq Hlq Ht.
  destruct (runs_refine n _ _ _ (init_sim n) H1) as (b1 & Hb1 & R1).
  destruct (runs_refine n _ _ _ R1 H2) as (b2 & Hb2 & R2).
  by eapply (BL.ballot_safe n (terms0 n) b1 b2 p q (proj rfp) (proj rfq));
    eauto using terms0_dom, sim_peer.
Qed.

(** C16: durability. In every reachable state, restarting any peer from its
    persister gives back the term, the vote and the log it has in memory:
    nothing a peer acted on is lost by a crash. *)
Theorem crash_loses_nothing n (s : net) p rf :
  rtc next (init n) s → peers s !! p = Some rf →
  let rf' := Make (npeers rf) (me rf) (persister rf) in
  currentTerm rf' = currentTerm rf ∧ votedFor rf' = votedFor rf ∧ log rf' = log rf.
Proof.
  intros H Hp. destruct (runs_refine n _ _ _ (init_sim n) H) as (b & _ & R).
  pose proof (po_inv _ _ _ (si_peer _ _ _ R p rf Hp)) as [Hs _ _ _]. cbv zeta.
  pose proof (Make_view (npeers rf) (me rf) (persister rf)) as E. rewrite Hs in E.
  by injection E.
Qed.
End election.

(** ** A run in which a leader is elected *)

Module ElectionRun.

Definition env : Env := mkEnv (10 ^ 12) 7.

(** Peer 0 times out, asks both others, both vote for it, and it counts the
    first vote. *)
Definition events : list (Net.event Z unit) :=
  [ETick 0 env; ERun 0 env; ERun 0 env; ERun 1 env].

Definition elected : Net.net Z unit := default (init 3) (exec events (init 3)).

Lemma elected_run : rtc next (init 3) elected.
Proof. apply (exec_rtc events). vm_compute. reflexivity. Qed.

Definition leader : RF.Raft Z unit := default (Make 3 0 PS.MakePersister) (peers elected !! 0).

Lemma refines_witness :
  ∃ vs, rtc (vstep (cluster 3)) (vs0 3) vs ∧
    (∀ p rf, peers elected !! p = Some rf →
       vterm vs !! p = Some (currentTerm rf) ∧
       (votedFor rf ≠ -1 → (p, currentTerm rf, votedFor rf) ∈ grants vs) ∧
       (role rf = Leader → (currentTerm rf, p) ∈ leaders vs)).
Proof. apply (raft_net_refines_voting 3 elected). apply elected_run. Defined.

Lemma election_safety_witness :
  role leader = Leader ∧ currentTerm leader = 2 ∧ (0 : Z) = 0.
Proof.
  split; [vm_compute; reflexivity|]. split; [vm_compute; reflexivity|].
  apply (election_safety 3 elected elected 0 0 leader leader).
  - apply elected_run.
  - apply rtc_refl.
  - vm_compute. reflexivity.
  - vm_compute. reflexivity.
  - vm_compute. reflexivity.
  - vm_compute. reflexivity.
  - reflexivity.
Defined.

Lemma crash_witness :
  currentTerm (Make (npeers leader) (me leader) (persister leader)) = currentTerm leader.
Proof.
  apply (crash_loses_nothing 3 elected 0 leader).
  - apply elected_run.
  - vm_compute. reflexivity.
Defined.
End ElectionRun.
