(* ===== verification/Completeness.v ===== *)
(** Leader Completeness, away from any network.

    [ghost] is a history of a cluster: the log of the leader of every term as far as it
    has grown and as it was when the leader was elected, the log every candidate asked
    for votes with, and what peers have acknowledged to the leader of a term.  A peer
    that acknowledged a log keeps it until it accepts a log that a leader did not have
    it in ([spoils]); a vote says the same of the candidate ([vouches]).  A log that a
    majority acknowledged in the term of its last entry is [chosen]: every later leader
    has it, by induction on the term and because two majorities meet. *)

From S2P Require Import Prelude Gob RaftLog Raft Matching Voting Ballot.
Import RF LM.

#[local] Open Scope Z_scope.

Module LC.

Section completeness.
Context {Cmd : Type} (n : Z).
Abbreviation flog := (list (LogEntry Cmd)).
Implicit Types (F L P E X : flog) (t u w p q : Z).

Record ghost := mkGhost {
  g_grow : gmap Z flog;             (* the log of the leader of a term *)
  g_born : gmap Z flog;             (* the same, at its election *)
  g_cand : gmap (Z * Z) flog;       (* the log of the candidate (term, peer) *)
  g_acks : list (Z * Z * flog)      (* (peer, term, log) *)
}.
Implicit Types gh : ghost.

(** ** Up-to-date logs *)

Definition last_term F : Z := from_option le_Term 0 (list.last F).

Definition up_to_date P F : Prop :=
  last_term P < last_term F ∨ last_term P = last_term F ∧ (length P ≤ length F)%nat.

Lemma up_to_date_trans P F L : up_to_date P F → up_to_date F L → up_to_date P L.
Proof. unfold up_to_date. lia. Qed.

Lemma last_term_take F i e : F !! i = Some e → last_term (take (S i) F) = le_Term e.
Proof. intros H. unfold last_term. rewrite (take_S_r _ _ _ H), last_snoc. done. Qed.

Lemma last_term_lookup F e : F !! pred (length F) = Some e → last_term F = le_Term e.
Proof. intros H. unfold last_term. by rewrite last_lookup, H. Qed.

Lemma nonempty_last F : F ≠ [] → ∃ e, F !! pred (length F) = Some e.
Proof.
  intros H. destruct (lookup_lt_is_Some_2 F (pred (length F))) as [e He]; [|by exists e].
  destruct F; [done|simpl; lia].
Qed.

Lemma prefix_take_le P F : P `prefix_of` F → P = take (length P) F.
Proof. intros [k ->]. by rewrite take_app_length. Qed.

Lemma take_prefix F i : take i F `prefix_of` F.
Proof. exists (drop i F). by rewrite take_drop. Qed.

Lemma prefix_same F L P : P `prefix_of` L → F `prefix_of` L → (length P ≤ length F)%nat → P `prefix_of` F.
Proof.
  intros HP%prefix_take_le HF%prefix_take_le Hl. rewrite HP, HF. rewrite <-(take_take_le L (length P) (length F)) by done.
  apply take_prefix.
Qed.

Lemma prefix_lookup F P i e : P `prefix_of` F → P !! i = Some e → F !! i = Some e.
Proof. intros [k ->] H. by apply lookup_app_l_Some. Qed.

Lemma ordered_up_to_date t F P : ordered t F → P `prefix_of` F → P ≠ [] → up_to_date P F.
Proof.
  intros [_ Hs] HP Hne. pose proof (prefix_length _ _ HP) as Hl. destruct (nonempty_last P Hne) as [e He].
  assert (F ≠ []) as HneF by (intros ->; destruct P; simpl in *; [done|lia]).
  destruct (nonempty_last F HneF) as [f Hf]. pose proof (prefix_lookup _ _ _ _ HP He) as He'.
  unfold up_to_date. rewrite (last_term_lookup P e He), (last_term_lookup F f Hf).
  assert (le_Term e ≤ le_Term f) by (eapply Hs; [|done|done]; lia). lia.
Qed.

(** For grounded logs, being a prefix is a matter of one term. *)
Lemma grounded_prefix_dec G P E :
  grounded G P → grounded G E → P `prefix_of` E ∨ ¬ P `prefix_of` E.
Proof.
  intros HP HE. assert (Hne : P ≠ []) by (intros ->; by pose proof (gr_root _ _ HP)).
  destruct (nonempty_last P Hne) as [e He].
  assert (Hlen : length P = S (pred (length P))) by (destruct P; [done|simpl; lia]).
  destruct (E !! pred (length P)) as [f|] eqn:Ef.
  - destruct (decide (le_Term e = le_Term f)) as [Ht|Ht].
    + left. pose proof (grounded_agree G P E _ e f HP HE He Ef Ht) as Hag.
      rewrite <-Hlen, firstn_all in Hag. rewrite Hag. apply take_prefix.
    + right. intros HPE. pose proof (prefix_lookup _ _ _ _ HPE He). congruence.
  - right. intros HPE. pose proof (prefix_lookup _ _ _ _ HPE He). congruence.
Qed.

(** ** Histories *)

Definition acked gh q t P : Prop := ∃ P', (q, t, P') ∈ g_acks gh ∧ P `prefix_of` P'.

(** The leader of a term after [t] was elected without [P]. *)
Definition spoils gh t w P : Prop := t < w ∧ ∃ E, g_born gh !! w = Some E ∧ ¬ P `prefix_of` E.

(** What the vote of [q] for a candidate of term [t] with log [F] says. *)
Definition vouches gh q t F : Prop :=
  ∀ u P, acked gh q u P → u < t → P ≠ [] → up_to_date P F ∨ ∃ w, w < t ∧ spoils gh u w P.

Record history gh (grants : gset (Z * Z * Z)) (leaders : gset (Z * Z)) : Prop := {
  hi_grow : wf_grow (g_grow gh);
  hi_grown : ∀ t, is_Some (g_grow gh !! t) ↔ is_Some (g_born gh !! t);
  hi_prefix : ∀ t E L, g_born gh !! t = Some E → g_grow gh !! t = Some L → E `prefix_of` L;
  hi_born : ∀ t E, g_born gh !! t = Some E →
    ∃ p Q, (t, p) ∈ leaders ∧ g_cand gh !! (t, p) = Some E ∧ majority (cluster n) Q ∧
      ∀ q, q ∈ Q → (q, t, p) ∈ grants ∧ vouches gh q t E;
  hi_cand : ∀ t p F, g_cand gh !! (t, p) = Some F → grounded (g_grow gh) F ∧ ordered (t - 1) F;
  hi_ack : ∀ q t P, acked gh q t P → ∃ L, g_grow gh !! t = Some L ∧ P `prefix_of` L;
  hi_vote : ∀ q t p, (q, t, p) ∈ grants →
    ∃ F, g_cand gh !! (t, p) = Some F ∧ (g_born gh !! t = None → vouches gh q t F)
}.

Definition chosen gh t P : Prop :=
  P ≠ [] ∧ last_term P = t ∧ ∃ Q, majority (cluster n) Q ∧ ∀ q, q ∈ Q → acked gh q t P.

(** [X] is committed by a leader of a term up to [T]; the mock entry always is. *)
Definition committed gh (T : Z) X : Prop :=
  X `prefix_of` [root] ∨ ∃ t P, t ≤ T ∧ chosen gh t P ∧ X `prefix_of` P.

Lemma majority_inhabited Q : majority (cluster n) Q → ∃ q, q ∈ Q.
Proof. intros H. destruct (majority_intersect _ Q Q H H) as (q & ? & _). by exists q. Qed.

Section facts.
Context gh grants leaders (H : history gh grants leaders).

Lemma grow_root t L : g_grow gh !! t = Some L → L !! 0%nat = Some root.
Proof. intros HL. apply (hi_grow _ _ _ H t L HL). Qed.

Lemma root_prefix F : F !! 0%nat = Some root → [root] `prefix_of` F.
Proof. destruct F as [|e F]; [done|]. intros [= ->]. by exists F. Qed.

Lemma chosen_grow t P : chosen gh t P → ∃ L, g_grow gh !! t = Some L ∧ P `prefix_of` L.
Proof.
  intros (_ & _ & Q & HQ & HA). destruct (majority_inhabited Q HQ) as [q Hq]. by apply (hi_ack _ _ _ H q), HA.
Qed.

(** A candidate whose log is as up to date as [P] has it, if the leaders before had. *)
Lemma up_to_date_has t P u E :
  chosen gh t P → grounded (g_grow gh) E → ordered (u - 1) E → E ≠ [] → up_to_date P E →
  (∀ w L, t < w < u → g_grow gh !! w = Some L → P `prefix_of` L) → P `prefix_of` E.
Proof.
  intros HC HE HO Hne Hup IH. destruct (chosen_grow t P HC) as (L & HL & HP). destruct HC as (HneP & Hlt & _).
  destruct (hi_grow _ _ _ H t L HL) as [HgL HoL]. destruct (nonempty_last E Hne) as [e He].
  destruct (nonempty_last P HneP) as [f Hf]. rewrite (last_term_lookup P f Hf) in Hlt.
  unfold up_to_date in Hup. rewrite (last_term_lookup E e He), (last_term_lookup P f Hf), Hlt in Hup.
  assert (Hterms : ∀ i x, P !! i = Some x → le_Term x ≤ t) by (intros i x Hx; eapply (or_bound _ _ HoL), prefix_lookup; done).
  assert (Hroot : P !! 0%nat = Some root).
  { destruct P as [|x P]; [done|]. pose proof (prefix_lookup _ _ 0%nat x HP eq_refl) as Hx. rewrite (gr_root _ _ HgL) in Hx. by simplify_eq. }
  destruct (pred (length E)) as [|i] eqn:Ei.
  { rewrite (gr_root _ _ HE) in He. simplify_eq. cbn in Hup. pose proof (Hterms _ _ Hroot) as H0. cbn in H0. unfold InvalidTerm in *.
    assert (length P = 1)%nat as Hl1 by (destruct P; simpl in *; [done|lia]).
    destruct P as [|x [|]]; simplify_eq/=. apply root_prefix, HE. }
  destruct (gr_entry _ _ HE i e He) as (M & HM & Ht).
  assert (E `prefix_of` M) as HEM.
  { assert (length E = S (S i)) as Hlen by lia. rewrite <-Hlen, firstn_all in Ht. rewrite <-Ht. apply take_prefix. }
  assert (P `prefix_of` M) as HPM.
  { destruct Hup as [Hlt'|[Heq _]]; [|rewrite <-Heq in HM; by simplify_eq]. apply (IH (le_Term e)); [|done].
    pose proof (or_bound _ _ HO _ _ He). lia. }
  apply (prefix_same E M P); [done|done|]. destruct Hup as [Hlt'|[_ ?]]; [|done].
  destruct (decide (length P ≤ length E)%nat) as [|Hlong]; [done|exfalso].
  pose proof (prefix_same P M E HEM HPM ltac:(lia)) as HEP. pose proof (Hterms _ _ (prefix_lookup _ _ _ _ HEP He)). lia.
Qed.

(** Leader Completeness. *)
Lemma completeness t P : chosen gh t P → ∀ u E, t < u → g_born gh !! u = Some E → P `prefix_of` E.
Proof.
  intros HC u. induction u as [u IH] using (well_founded_induction (Z.lt_wf t)). intros E Hu HE.
  destruct (hi_born _ _ _ H u E HE) as (p & Q & _ & Hcand & HQ & Hvotes).
  destruct (hi_cand _ _ _ H u p E Hcand) as [HgE HoE]. pose proof HC as (HneP & _ & Q' & HQ' & HA).
  destruct (majority_intersect _ Q Q' HQ HQ') as (q & Hq & Hq'). destruct (Hvotes q Hq) as [_ HV].
  assert (E ≠ []) as HneE by (intros ->; by pose proof (gr_root _ _ HgE)).
  destruct (HV t P (HA q Hq') Hu HneP) as [Hup|(w & Hw & Htw & Ew & HEw & [])].
  - eapply up_to_date_has; [done..|]. intros w L Hw HL. destruct (proj1 (hi_grown _ _ _ H w) (mk_is_Some _ _ HL)) as [Ew HEw].
    etrans; [apply (IH w ltac:(lia) Ew); [lia|done]|]. by eapply (hi_prefix _ _ _ H).
  - apply (IH w); [lia|lia|done].
Qed.

Lemma committed_led T X u L : committed gh T X → T ≤ u → g_grow gh !! u = Some L → X `prefix_of` L.
Proof.
  intros [HX|(t & P & Ht & HC & HX)] Hu HL; [etrans; [done|]; by eapply root_prefix, grow_root|].
  etrans; [done|]. destruct (chosen_grow t P HC) as (L0 & HL0 & HP). destruct (decide (t = u)) as [->|]; [by simplify_eq|].
  destruct (proj1 (hi_grown _ _ _ H u) (mk_is_Some _ _ HL)) as [E HE]. etrans; [by eapply (completeness t P HC u E); [lia|]|].
  by eapply (hi_prefix _ _ _ H).
Qed.

(** Two committed logs are prefixes of one log. *)
Lemma committed_agree T1 T2 X Y i e f :
  committed gh T1 X → committed gh T2 Y → X !! i = Some e → Y !! i = Some f → e = f.
Proof.
  assert (Hsym : ∀ t1 t2 P1 P2, t1 ≤ t2 → chosen gh t1 P1 → chosen gh t2 P2 → ∃ L, P1 `prefix_of` L ∧ P2 `prefix_of` L).
  { intros t1 t2 P1 P2 Ht H1 H2. destruct (chosen_grow t2 P2 H2) as (L & HL & HP). exists L. split; [|done].
    apply (committed_led t1 P1 t2 L); [|done|done]. right. exists t1, P1. by split_and!; [lia|done|]. }
  assert (Hroot : ∀ t P, chosen gh t P → ∃ L, [root] `prefix_of` L ∧ P `prefix_of` L).
  { intros t P HC. destruct (chosen_grow t P HC) as (L & HL & HP). exists L. split; [|done]. by eapply root_prefix, grow_root. }
  intros HX HY Ei Fi. cut (∃ L, X `prefix_of` L ∧ Y `prefix_of` L).
  { intros (L & HXL & HYL). pose proof (prefix_lookup _ _ _ _ HXL Ei). pose proof (prefix_lookup _ _ _ _ HYL Fi). congruence. }
  destruct HX as [HX|(t1 & P1 & _ & C1 & HX)], HY as [HY|(t2 & P2 & _ & C2 & HY)].
  - by exists [root].
  - destruct (Hroot t2 P2 C2) as (L & ? & ?). exists L. split; by etrans.
  - destruct (Hroot t1 P1 C1) as (L & ? & ?). exists L. split; by etrans.
  - destruct (decide (t1 ≤ t2)).
    + destruct (Hsym t1 t2 P1 P2) as (L & ? & ?); [done..|]. exists L. split; by etrans.
    + destruct (Hsym t2 t1 P2 P1) as (L & ? & ?); [lia|done..|]. exists L. split; by etrans.
Qed.
End facts.

(** ** Growing histories *)

Record grows gh gh' : Prop := {
  gs_grow : extends (g_grow gh) (g_grow gh');
  gs_born : g_born gh ⊆ g_born gh';
  gs_cand : g_cand gh ⊆ g_cand gh';
  gs_acks : ∀ a, a ∈ g_acks gh → a ∈ g_acks gh'
}.

#[export] Instance grows_preorder : PreOrder grows.
Proof.
  split; [by intros gh; split|]. intros g1 g2 g3 [? ? ? ?] [? ? ? ?]. split; [by etrans|by etrans|by etrans|by eauto].
Qed.

Lemma acked_mono gh gh' q t P : grows gh gh' → acked gh q t P → acked gh' q t P.
Proof. intros HG (P' & H & HP). exists P'. split; [by apply (gs_acks _ _ HG)|done]. Qed.

Lemma spoils_mono gh gh' t w P : grows gh gh' → spoils gh t w P → spoils gh' t w P.
Proof. intros HG (Ht & E & HE & Hn). split; [done|]. exists E. split; [|done]. by eapply lookup_weaken; [|apply HG]. Qed.

Lemma committed_mono gh gh' T T' X X' :
  grows gh gh' → T ≤ T' → X' `prefix_of` X → committed gh T X → committed gh' T' X'.
Proof.
  intros HG HT HX [H|(t & P & Ht & (Hne & Hl & Q & HQ & HA) & HP)]; [left; by etrans|right].
  exists t, P. split_and!; [lia| |by etrans]. split_and!; [done..|]. exists Q. split; [done|]. eauto using acked_mono.
Qed.

Lemma vouches_mono gh gh' q t F :
  grows gh gh' → (∀ u P, acked gh' q u P → u < t → acked gh q u P) → vouches gh q t F → vouches gh' q t F.
Proof.
  intros HG Hold HV u P HA Hu Hne. destruct (HV u P (Hold u P HA Hu) Hu Hne) as [?|(w & ? & ?)]; [by left|right].
  exists w. eauto using spoils_mono.
Qed.

Lemma extends_prefix (G G' : gmap Z flog) t L L' : extends G G' → G !! t = Some L → G' !! t = Some L' → L `prefix_of` L'.
Proof. intros HE HL HL'. destruct (HE t L HL) as [ext E]. simplify_eq. by exists ext. Qed.

Lemma history_leaders gh gr ls ls' : history gh gr ls → ls ⊆ ls' → history gh gr ls'.
Proof.
  intros [] Hls. split; try done. intros t E HE. destruct (hi_born0 t E HE) as (p & Q & Hp & ?). exists p, Q. split; [set_solver|done].
Qed.

(** [q] acknowledges [P'] to the leader of [t], which is not before a term it voted in. *)
Definition add_ack q t (P' : flog) gh : ghost := mkGhost (g_grow gh) (g_born gh) (g_cand gh) ((q, t, P') :: g_acks gh).

Lemma grows_ack q t P' gh : grows gh (add_ack q t P' gh).
Proof. split; [done..|]. intros a Ha. by right. Qed.

Lemma acked_add q t P' gh r u P : acked (add_ack q t P' gh) r u P → acked gh r u P ∨ r = q ∧ u = t ∧ P `prefix_of` P'.
Proof. intros (P0 & [[= -> -> ->]|Hin]%elem_of_cons & HP); [by right|left]. by exists P0. Qed.

Lemma history_ack gh gr ls q t P' L :
  history gh gr ls → g_grow gh !! t = Some L → P' `prefix_of` L → (∀ u c, (q, u, c) ∈ gr → u ≤ t) →
  history (add_ack q t P' gh) gr ls.
Proof.
  intros H HL HP Hgr. pose proof (grows_ack q t P' gh) as HG.
  assert (HV : ∀ r u c F, (r, u, c) ∈ gr → vouches gh r u F → vouches (add_ack q t P' gh) r u F).
  { intros r u c F Hin. apply vouches_mono; [done|]. intros w P [?|(-> & -> & _)]%acked_add Hw; [done|]. apply Hgr in Hin. lia. }
  destruct H. split; simpl; try done.
  - intros u E HE. destruct (hi_born0 u E HE) as (p & Q & ? & ? & ? & HQ). exists p, Q. split_and!; [done..|].
    intros r Hr. destruct (HQ r Hr). eauto.
  - intros r u P [?|(-> & -> & ?)]%acked_add; [eauto|]. exists L. split; [done|]. by etrans.
  - intros r u c Hin. destruct (hi_vote0 r u c Hin) as (F & ? & HF). exists F. split; [done|]. intros Hn. eauto.
Qed.

(** [p] becomes a candidate of [t] with the log [F]. *)
Definition add_cand t p F gh : ghost := mkGhost (g_grow gh) (g_born gh) (<[(t, p) := F]> (g_cand gh)) (g_acks gh).

Lemma grows_cand t p F gh : g_cand gh !! (t, p) = None → grows gh (add_cand t p F gh).
Proof. intros Hn. split; [done|done|by apply insert_subseteq|done]. Qed.

Lemma history_cand gh gr ls t p F :
  history gh gr ls → g_cand gh !! (t, p) = None → grounded (g_grow gh) F → ordered (t - 1) F →
  (g_born gh !! t = None → vouches gh p t F) →
  history (add_cand t p F gh) ({[(p, t, p)]} ∪ gr) ls.
Proof.
  intros H Hn HF HO HV. pose proof (grows_cand t p F gh Hn) as HG. destruct H. split; simpl; try done.
  - intros u E HE. destruct (hi_born0 u E HE) as (c & Q & ? & ? & ? & HQ). exists c, Q.
    split_and!; [done|by eapply lookup_weaken; [|apply HG]|done|]. intros r Hr. destruct (HQ r Hr). split; [set_solver|done].
  - intros u c E [[[= <- <-] <-]|[_ ?]]%lookup_insert_Some; [done|]. by eapply hi_cand0.
  - intros r u c [[= -> -> ->]%elem_of_singleton|Hin]%elem_of_union; [exists F; by rewrite lookup_insert_eq|].
    destruct (hi_vote0 r u c Hin) as (E & ? & ?). exists E. split; [by eapply lookup_weaken; [|apply HG]|done].
Qed.

Lemma history_vote gh gr ls q t p F :
  history gh gr ls → g_cand gh !! (t, p) = Some F → (g_born gh !! t = None → vouches gh q t F) →
  history gh ({[(q, t, p)]} ∪ gr) ls.
Proof.
  intros [] HF HV. split; try done.
  - intros u E HE. destruct (hi_born0 u E HE) as (c & Q & ? & ? & ? & HQ). exists c, Q. split_and!; [done..|].
    intros r Hr. destruct (HQ r Hr). split; [set_solver|done].
  - intros r u c [[= -> -> ->]%elem_of_singleton|Hin]%elem_of_union; eauto.
Qed.

(** The candidate [p] of [t] is elected. *)
Definition add_born t F gh : ghost := mkGhost (<[t := F]> (g_grow gh)) (<[t := F]> (g_born gh)) (g_cand gh) (g_acks gh).

Lemma history_lead gh gr ls t p F Q :
  history gh gr ls → g_born gh !! t = None → g_cand gh !! (t, p) = Some F → (t, p) ∈ ls →
  majority (cluster n) Q → (∀ q, q ∈ Q → (q, t, p) ∈ gr) →
  history (add_born t F gh) gr ls ∧ grows gh (add_born t F gh).
Proof.
  intros H Hn HF Hp HQ Hgr. destruct (hi_cand _ _ _ H t p F HF) as [HgF HoF].
  assert (g_grow gh !! t = None) as Hn'.
  { apply eq_None_not_Some. intros [E HE]%(hi_grown _ _ _ H). congruence. }
  destruct (grow_new (g_grow gh) t F (hi_grow _ _ _ H) Hn' HgF) as [HG HE]; [by eapply ordered_mono; [|exact HoF]; lia|].
  assert (HGr : grows gh (add_born t F gh)) by (split; [done|by apply insert_subseteq|done|done]).
  assert (HV : ∀ q u E, vouches gh q u E → vouches (add_born t F gh) q u E) by (intros; by eapply vouches_mono).
  split; [|done]. destruct H. split; simpl; try done.
  - intros u. destruct (decide (t = u)) as [<-|]; [by rewrite !lookup_insert_eq|]. by rewrite !lookup_insert_ne.
  - intros u E L. destruct (decide (t = u)) as [<-|]; [rewrite !lookup_insert_eq; by intros [= ->] [= ->]|].
    rewrite !lookup_insert_ne by done. apply hi_prefix0.
  - intros u E [[<- <-]|[_ HEu]]%lookup_insert_Some.
    + exists p, Q. split_and!; [done..|]. intros q Hq. split; [by apply Hgr|]. apply HV.
      destruct (hi_vote0 q t p (Hgr q Hq)) as (F' & HF' & HVq). simplify_eq. by apply HVq.
    + destruct (hi_born0 u E HEu) as (c & Q' & ? & ? & ? & HQ'). exists c, Q'. split_and!; [done..|].
      intros q Hq. destruct (HQ' q Hq). eauto.
  - intros u c E HE'. destruct (hi_cand0 u c E HE'). split; [by eapply grounded_extends|done].
  - intros q u P (L & HL & HP)%hi_ack0. exists L. split; [|done]. rewrite lookup_insert_ne by congruence. done.
  - intros q u c (E & HE' & HVq)%hi_vote0. exists E. split; [done|]. intros Hu.
    apply HV, HVq. destruct (decide (t = u)) as [<-|]; [by rewrite lookup_insert_eq in Hu|]. by rewrite lookup_insert_ne in Hu.
Qed.

(** The leader of [t] appends an entry. *)
Definition add_entry t L e gh : ghost := mkGhost (<[t := L ++ [e]]> (g_grow gh)) (g_born gh) (g_cand gh) (g_acks gh).

Lemma history_start gh gr ls t L e :
  history gh gr ls → g_grow gh !! t = Some L → le_Term e = t →
  history (add_entry t L e gh) gr ls ∧ grows gh (add_entry t L e gh).
Proof.
  intros H HL He. destruct (grow_append (g_grow gh) t L e (hi_grow _ _ _ H) HL He) as [HG HE].
  assert (HGr : grows gh (add_entry t L e gh)) by (by split).
  assert (Hpre : ∀ u P M, g_grow gh !! u = Some M → P `prefix_of` M →
    ∃ M', <[t := L ++ [e]]> (g_grow gh) !! u = Some M' ∧ P `prefix_of` M').
  { intros u P M HM HP. destruct (HE u M HM) as [ext Hext]. eexists. split; [exact Hext|]. by apply prefix_app_r. }
  split; [|done]. destruct H. split; simpl; try done.
  - intros u. rewrite <-hi_grown0. destruct (decide (t = u)) as [<-|]; [by rewrite lookup_insert_eq, HL|by rewrite lookup_insert_ne].
  - intros u E M HEu HM. destruct (proj2 (hi_grown0 u) (mk_is_Some _ _ HEu)) as [M0 HM0].
    destruct (Hpre u E M0 HM0) as (M' & HM' & ?); [by eapply hi_prefix0|]. by simplify_eq.
  - intros u c E HE'. destruct (hi_cand0 u c E HE'). split; [by eapply grounded_extends|done].
  - intros q u P (M & HM & HP)%hi_ack0. by eapply Hpre.
Qed.
End completeness.
Arguments ghost : clear implicits.

(** ** Peers and requests *)

Section peers.
Context {Cmd SB : Type} (n : Z).
Implicit Types (F L P E X : list (LogEntry Cmd)) (t u w p q : Z) (gh : ghost Cmd) (v : view Cmd SB) (cm : Z) (ms : list Z).

(** What is known of peer [p] with the log [F]: [cm] is the index up to which it knows
    the log to be committed, [ms] are its match indices. *)
Record sound gh p v cm ms F : Prop := {
  so_rep : represents (v_log v) F;
  so_grounded : grounded (g_grow gh) F;
  so_ordered : ordered (v_term v) F;
  so_lead : v_role v = Leader → g_grow gh !! v_term v = Some F;
  so_cand : v_role v = Candidate → g_cand gh !! (v_term v, p) = Some F;
  so_acks : ∀ t P, acked gh p t P → P ≠ [] →
    t ≤ v_term v ∧ (P `prefix_of` F ∨ ∃ w, w ≤ v_term v ∧ spoils gh t w P);
  so_cands : ∀ t E, g_cand gh !! (t, p) = Some E → t ≤ v_term v;
  so_index : RL.snapLastIdx (v_log v) ≤ cm < len F;
  so_commit : committed n gh (v_term v) (take (S (Z.to_nat cm)) F);
  so_match : v_role v = Leader → ∀ q m, slice_get ms q = Some m → 0 < m → ∃ P, acked gh q (v_term v) P ∧ m < len P
}.

(** Another peer has made the step. *)
Lemma sound_frame gh gh' p v cm ms F :
  sound gh p v cm ms F → grows gh gh' →
  (v_role v = Leader → g_grow gh' !! v_term v = g_grow gh !! v_term v) →
  (∀ t P, acked gh' p t P → acked gh p t P) → (∀ t E, g_cand gh' !! (t, p) = Some E → is_Some (g_cand gh !! (t, p))) →
  sound gh' p v cm ms F.
Proof.
  intros [] HG Hl Ha Hc. split; try done.
  - by eapply grounded_extends; [apply HG|].
  - intros Hr. rewrite Hl by done. by apply so_lead0.
  - intros Hr. eapply lookup_weaken; [by apply so_cand0|apply HG].
  - intros t P HA Hne. destruct (so_acks0 t P (Ha t P HA) Hne) as [? [?|(w & ? & ?)]]; split; [done|by left|done|right].
    exists w. eauto using spoils_mono.
  - intros t E [E' HE]%Hc. by eapply so_cands0.
  - by eapply committed_mono; [done| |done|].
  - intros Hr q m Hq Hm. destruct (so_match0 Hr q m Hq Hm) as (P & ? & ?). exists P. eauto using acked_mono.
Qed.

(** A step that leaves the log alone, and makes nobody a candidate or a leader. *)
Lemma sound_keeps gh p v cm ms F v' cm' ms' :
  sound gh p v cm ms F → v_log v' = v_log v → v_term v ≤ v_term v' →
  v_role v' = Follower ∨ v_role v' = v_role v ∧ v_term v' = v_term v →
  RL.snapLastIdx (v_log v) ≤ cm' ≤ cm →
  (v_role v' = Leader → ∀ q m, slice_get ms' q = Some m → 0 < m → ∃ P, acked gh q (v_term v') P ∧ m < len P) →
  sound gh p v' cm' ms' F.
Proof.
  intros [] Hl Ht Hr Hcm Hms. split; rewrite ?Hl; try done.
  - by eapply ordered_mono.
  - destruct Hr as [->|[-> ->]]; done.
  - destruct Hr as [->|[-> ->]]; done.
  - intros t P HA Hne. destruct (so_acks0 t P HA Hne) as [? [?|(w & ? & ?)]]; split; [lia|by left|lia|right].
    exists w. split; [lia|done].
  - intros t E HE%so_cands0. lia.
  - lia.
  - eapply committed_mono; [reflexivity|done| |exact so_commit0]. rewrite <-(take_take_le F _ (S (Z.to_nat cm))) by lia.
    apply take_prefix.
Qed.

Lemma sound_compact gh p v cm ms F v' :
  sound gh p v cm ms F → represents (v_log v') F → RL.snapLastIdx (v_log v') ≤ cm →
  v_term v' = v_term v → v_role v' = v_role v → sound gh p v' cm ms F.
Proof. intros [] HR Hi Ht Hr. split; rewrite ?Ht, ?Hr; try done. lia. Qed.

(** ** Followers *)

(** [F'] keeps of [F] what agrees with [L]. *)
Definition retains F L F' : Prop := ∀ P, P `prefix_of` F → P `prefix_of` L → P `prefix_of` F'.

Section accept.
Context gh (gr : gset (Z * Z * Z)) (ls : gset (Z * Z)) (H : history n gh gr ls).

Lemma ack_or_not q t P w E :
  acked gh q t P → P ≠ [] → g_born gh !! w = Some E → P `prefix_of` E ∨ ¬ P `prefix_of` E.
Proof.
  intros HA Hne HE. destruct (hi_ack _ _ _ _ H q t P HA) as (L & HL & HP).
  destruct (hi_born _ _ _ _ H w E HE) as (c & Q & _ & Hc & _). destruct (hi_cand _ _ _ _ H w c E Hc) as [HgE _].
  destruct (hi_grow _ _ _ _ H t L HL) as [HgL _]. apply (grounded_prefix_dec (g_grow gh)); [|done].
  rewrite (prefix_take_le _ _ HP). apply grounded_take; [done|]. destruct P; [done|simpl; lia].
Qed.

Lemma sound_accept p v cm ms F L F' v' cm' ms' :
  sound gh p v cm ms F → g_grow gh !! v_term v' = Some L → v_term v ≤ v_term v' → retains F L F' →
  represents (v_log v') F' → grounded (g_grow gh) F' → ordered (v_term v') F' → v_role v' = Follower →
  RL.snapLastIdx (v_log v') ≤ cm' →
  (cm < cm' → cm' < len F' ∧ committed n gh (v_term v') (take (S (Z.to_nat cm')) F')) →
  sound gh p v' cm' ms' F'.
Proof.
  intros HS HL Ht HR Hrep Hgr Hord Hr Hcm Hnew. pose proof HS as [].
  assert (Hcp : take (S (Z.to_nat cm)) F `prefix_of` F').
  { apply HR; [apply take_prefix|]. by eapply committed_led. }
  pose proof (RL.wf_idx _ (rp_wf _ _ so_rep0)) as H0.
  assert (Hlen : cm < len F') by (apply prefix_length in Hcp; rewrite length_take in Hcp; unfold len in *; lia).
  split; try (done || congruence).
  - intros t P HA Hne. destruct (so_acks0 t P HA Hne) as [Hle [HP|(w & Hw & Hsp)]]; split; [lia| |lia|right; exists w; split; [lia|done]].
    destruct (hi_ack _ _ _ _ H p t P HA) as (M & HM & HPM). destruct (decide (t = v_term v')) as [->|Hne'].
    { left. simplify_eq. by apply HR. }
    destruct (proj1 (hi_grown _ _ _ _ H _) (mk_is_Some _ _ HL)) as [E HE].
    destruct (ack_or_not p t P _ E HA Hne HE) as [HPE|HPE].
    + left. apply HR; [done|]. etrans; [done|]. by eapply (hi_prefix _ _ _ _ H).
    + right. exists (v_term v'). split; [lia|]. split; [lia|]. by exists E.
  - intros t E HE%so_cands0. lia.
  - destruct (decide (cm < cm')) as [Hlt|Hge]; [apply Hnew in Hlt as [??]|]; lia.
  - destruct (decide (cm < cm')) as [Hlt|Hge]; [by apply Hnew|].
    eapply committed_mono; [reflexivity|exact Ht| |exact so_commit0].
    apply (prefix_same _ F'); [apply take_prefix|done|]. rewrite !length_take. unfold len in *. lia.
Qed.

Lemma sound_ack p v cm ms F P :
  sound gh p v cm ms F → P `prefix_of` F → sound (add_ack p (v_term v) P gh) p v cm ms F.
Proof.
  intros [] HP. pose proof (grows_ack p (v_term v) P gh) as HG. split; try done.
  - intros t P0 [HA|(_ & -> & HP0)]%acked_add Hne; [|split; [lia|left; by etrans]].
    destruct (so_acks0 t P0 HA Hne) as [? [?|(w & ? & ?)]]; split; [done|by left|done|right]. exists w. eauto using spoils_mono.
  - by eapply committed_mono; [done| |done|].
  - intros Hr q m Hq Hm. destruct (so_match0 Hr q m Hq Hm) as (P0 & ? & ?). exists P0. eauto using acked_mono.
Qed.

(** [p] acknowledges a prefix of the leader's log that it has. *)
Lemma acknowledge p v cm ms F L P i :
  sound gh p v cm ms F → g_grow gh !! v_term v = Some L → P `prefix_of` F → P `prefix_of` L →
  (∀ u c, (p, u, c) ∈ gr → u ≤ v_term v) → i < len P →
  history n (add_ack p (v_term v) P gh) gr ls ∧ sound (add_ack p (v_term v) P gh) p v cm ms F ∧ i < len P.
Proof. intros HS HL HP HPL Hgr Hi. split_and!; [by eapply history_ack|by apply sound_ack|done]. Qed.
End accept.

(** ** Requests *)

(** An append of the leader of [t], which knows the log up to [lc] to be committed. *)
Definition m_append gh (t prev pt : Z) (es : list (LogEntry Cmd)) (lc : Z) : Prop :=
  0 ≤ prev ∧ ∃ L, g_grow gh !! t = Some L ∧ le_Term <$> L !! Z.to_nat prev = Some pt ∧
    take (length es) (drop (S (Z.to_nat prev)) L) = es ∧ lc ≤ prev + len es ∧
    committed n gh t (take (S (Z.to_nat lc)) L).

Definition m_install gh (t index term : Z) : Prop :=
  ∃ L, g_grow gh !! t = Some L ∧ le_Term <$> L !! Z.to_nat index = Some term ∧
    committed n gh t (take (S (Z.to_nat index)) L).

Definition m_vote gh (t p li lt : Z) : Prop :=
  ∃ F, g_cand gh !! (t, p) = Some F ∧ li = len F - 1 ∧ lt = last_term F.

Lemma m_append_mono gh gh' t prev pt es lc : grows gh gh' → m_append gh t prev pt es lc → m_append gh' t prev pt es lc.
Proof.
  intros HG (H0 & L & HL & Hp & He & Hlc & HC). split; [done|].
  apply fmap_Some in Hp as (e & Hp & ->). pose proof (lookup_lt_Some _ _ _ Hp).
  pose proof (f_equal length He) as Hlen. rewrite length_take, length_drop in Hlen. unfold len in Hlc.
  destruct (gs_grow _ _ HG t L HL) as [ext HL']. exists (L ++ ext). split_and!; [done|..].
  - by rewrite (lookup_app_l_Some _ _ _ _ Hp).
  - rewrite drop_app_le by lia. rewrite take_app_le; [done|]. rewrite length_drop. lia.
  - done.
  - eapply committed_mono; [done|reflexivity| |exact HC]. by rewrite take_app_le by lia.
Qed.

Lemma m_install_mono gh gh' t index term : grows gh gh' → m_install gh t index term → m_install gh' t index term.
Proof.
  intros HG (L & HL & Hp & HC). apply fmap_Some in Hp as (e & Hp & ->). pose proof (lookup_lt_Some _ _ _ Hp).
  destruct (gs_grow _ _ HG t L HL) as [ext HL']. exists (L ++ ext). split_and!; [done|..].
  - by rewrite (lookup_app_l_Some _ _ _ _ Hp).
  - eapply committed_mono; [done|reflexivity| |exact HC]. by rewrite take_app_le by lia.
Qed.

Lemma m_vote_mono gh gh' t p li lt : grows gh gh' → m_vote gh t p li lt → m_vote gh' t p li lt.
Proof. intros HG (F & HF & ? & ?). exists F. split_and!; [by eapply lookup_weaken; [|apply HG]|done..]. Qed.

(** What a leader sends. *)
Lemma send_append gh p v cm ms F prev e es lc :
  sound gh p v cm ms F → v_role v = Leader → RL.snapLastIdx (v_log v) ≤ prev → RL.at_ (v_log v) prev = Some e →
  RL.tail (v_log v) (prev + 1) = Some es → lc ≤ cm → m_append gh (v_term v) prev (le_Term e) es lc.
Proof.
  intros [] Hr Hp He Ht Hlc. pose proof (RL.wf_idx _ (rp_wf _ _ so_rep0)) as H0. split; [lia|].
  pose proof (represents_prev _ _ _ _ so_rep0 Hp He) as HP. pose proof (represents_tail _ _ _ _ _ so_rep0 Hp He Ht) as ->.
  exists F. split_and!; [by apply so_lead0|done|by apply firstn_all|..].
  - apply fmap_Some in HP as (e' & HP & _). apply lookup_lt_Some in HP. unfold len in *. rewrite length_drop. lia.
  - eapply committed_mono; [reflexivity|reflexivity| |exact so_commit0].
    apply (prefix_same _ F); [apply take_prefix..|]. rewrite !length_take. lia.
Qed.

Lemma send_install gh p v cm ms F :
  sound gh p v cm ms F → v_role v = Leader →
  m_install gh (v_term v) (RL.snapLastIdx (v_log v)) (RL.snapLastTerm (v_log v)).
Proof.
  intros [] Hr. exists F. split_and!; [by apply so_lead0|..].
  - rewrite <-(rp_term _ _ so_rep0) by lia. apply RL.wf_termAt, so_rep0.
  - eapply committed_mono; [reflexivity|reflexivity| |exact so_commit0].
    apply (prefix_same _ F); [apply take_prefix..|]. rewrite !length_take. lia.
Qed.

(** What a candidate sends. *)
Lemma represents_last (rl : RL.RaftLog Cmd SB) F : represents rl F → RL.last rl = (len F - 1, last_term F).
Proof.
  intros HR. rewrite (RL.last_spec _ (rp_wf _ _ HR)), (rp_size _ _ HR). f_equal.
  pose proof (RL.wf_size _ (rp_wf _ _ HR)) as Hs. pose proof (RL.wf_idx _ (rp_wf _ _ HR)). rewrite (rp_size _ _ HR) in Hs.
  rewrite (rp_term _ _ HR) by lia. unfold last_term. rewrite last_lookup. unfold len in *.
  replace (Z.to_nat (Z.of_nat (length F) - 1)) with (pred (length F)) by lia.
  by destruct (F !! pred (length F)).
Qed.

Lemma send_vote gh p v cm ms F li lt :
  sound gh p v cm ms F → v_role v = Candidate → RL.last (v_log v) = (li, lt) → m_vote gh (v_term v) p li lt.
Proof.
  intros [] Hr E. rewrite (represents_last _ _ so_rep0) in E. simplify_eq. exists F. by split_and!; [apply so_cand0| |].
Qed.

(** ** Steps of a peer *)

Section steps.
Context gh (gr : gset (Z * Z * Z)) (ls : gset (Z * Z)) (H : history n gh gr ls).

(** The entries of the request reach to the end of the log, or one of them contradicts
    it: cutting the log after them loses nothing that agrees with the leader. *)
Definition covers (rl : RL.RaftLog Cmd SB) (prev : Z) (es : list (LogEntry Cmd)) : Prop :=
  RL.size rl ≤ prev + 1 + len es ∨
  ∃ i e u, es !! i = Some e ∧ RL.termAt rl (prev + 1 + Z.of_nat i) = Some u ∧ u ≠ le_Term e.

Lemma covers_retains (rl : RL.RaftLog Cmd SB) F L prev es :
  represents rl F → 0 ≤ prev → RL.snapLastIdx rl ≤ prev → take (length es) (drop (S (Z.to_nat prev)) L) = es →
  (S (Z.to_nat prev) + length es ≤ length L)%nat →
  covers rl prev es → retains F L (take (S (Z.to_nat prev) + length es) L).
Proof.
  intros HR H0 Hsi He HlL HC P HPF HPL. apply (prefix_same _ L); [done|apply take_prefix|].
  rewrite length_take, Nat.min_l by done. pose proof (prefix_length _ _ HPF).
  destruct HC as [HC|(i & e & u & Hi & Hu & Hne)]; [rewrite (rp_size _ _ HR) in HC; unfold len in HC; lia|].
  destruct (decide (length P ≤ S (Z.to_nat prev) + length es)%nat) as [|Hlong]; [done|exfalso].
  pose proof (lookup_lt_Some _ _ _ Hi) as Hil. rewrite (rp_term _ _ HR) in Hu by lia. apply fmap_Some in Hu as (f & Hf & ->).
  replace (Z.to_nat (prev + 1 + Z.of_nat i)) with (S (Z.to_nat prev) + i)%nat in Hf by lia.
  destruct (lookup_lt_is_Some_2 P (S (Z.to_nat prev) + i)%nat) as [x Hx]; [lia|].
  pose proof (prefix_lookup _ _ _ _ HPF Hx). pose proof (prefix_lookup _ _ _ _ HPL Hx) as HxL.
  rewrite <-He, lookup_take_lt, lookup_drop in Hi by done. congruence.
Qed.

Lemma accept_append q v cm ms F v' cm' ms' prev pt es lc :
  sound gh q v cm ms F → m_append gh (v_term v') prev pt es lc → v_term v ≤ v_term v' → v_role v' = Follower →
  RL.termAt (v_log v) prev = Some pt → RL.appendFrom (v_log v) prev es = Some (v_log v') →
  covers (v_log v) prev es → cm' = Z.max cm lc → (∀ u c, (q, u, c) ∈ gr → u ≤ v_term v') →
  ∃ F', history n (add_ack q (v_term v') F' gh) gr ls ∧
    sound (add_ack q (v_term v') F' gh) q v' cm' ms' F' ∧ prev + len es < len F'.
Proof.
  intros HS (H0 & L & HL & Hp & He & Hlc & HC) Hle Hr Ht El Hcov -> Hgr. pose proof (so_rep _ _ _ _ _ _ HS) as HR.
  pose proof (RL.appendFrom_inv _ _ _ _ El) as [Hpi Erl]. rewrite (rp_term _ _ HR) in Ht by lia.
  assert (Hsi : RL.snapLastIdx (v_log v') = RL.snapLastIdx (v_log v)) by (by rewrite Erl).
  destruct (hi_grow _ _ _ _ H _ _ HL) as [HgL HoL]. pose proof Hp as (e & Hpe & Ee)%fmap_Some.
  pose proof Ht as (f & Hf & Ef)%fmap_Some. pose proof (lookup_lt_Some _ _ _ Hpe) as Hpl.
  pose proof (f_equal length He) as Hlen. rewrite length_take, length_drop in Hlen.
  set (k := (S (Z.to_nat prev) + length es)%nat).
  assert (HF' : take (S (Z.to_nat prev)) F ++ es = take k L).
  { rewrite (grounded_agree (g_grow gh) F L _ f e (so_grounded _ _ _ _ _ _ HS) HgL Hf Hpe) by congruence.
    rewrite <-He at 1. rewrite <-(take_drop (S (Z.to_nat prev)) L) at 3. symmetry. apply take_app_add'. rewrite length_take. lia. }
  pose proof (represents_appendFrom _ _ _ _ _ HR El) as HR'. rewrite HF' in HR'.
  assert (HlF : len (take k L) = prev + 1 + len es) by (unfold len, k; rewrite length_take; lia).
  exists (take k L). eapply (acknowledge gh gr ls H); [|done|done|apply take_prefix|done|lia].
  eapply (sound_accept gh gr ls H q v cm ms F L); [done..| |done| |by apply ordered_take|done| |].
  - eapply covers_retains; [done|done|lia|done|lia|done].
  - apply grounded_take; [done|unfold k; lia].
  - pose proof (so_index _ _ _ _ _ _ HS). lia.
  - intros Hlt. split; [lia|]. eapply committed_mono; [reflexivity|reflexivity| |exact HC].
    rewrite take_take_le by (unfold k, len in *; lia). replace (Z.max cm lc) with lc by lia. done.
Qed.

Lemma accept_install q v cm ms F v' cm' ms' index term snap :
  sound gh q v cm ms F → m_install gh (v_term v') index term → v_term v ≤ v_term v' → v_role v' = Follower →
  RL.snapLastIdx (v_log v) < index → fits (v_log v) index term →
  RL.installSnapshot (v_log v) index term snap = Some (v_log v') → cm' = Z.max cm index →
  (∀ u c, (q, u, c) ∈ gr → u ≤ v_term v') →
  ∃ F' P, history n (add_ack q (v_term v') P gh) gr ls ∧
    sound (add_ack q (v_term v') P gh) q v' cm' ms' F' ∧ index < len P.
Proof.
  intros HS (L & HL & Hp & HC) Hle Hr Hi Hfit El -> Hgr. pose proof (so_rep _ _ _ _ _ _ HS) as HR.
  pose proof (RL.wf_idx _ (rp_wf _ _ HR)) as H0.
  destruct (represents_install (g_grow gh) _ F L _ _ _ _ _ HR (hi_grow _ _ _ _ H) (so_grounded _ _ _ _ _ _ HS) HL Hp Hi Hfit El)
    as (F' & HR' & HF' & Htake & Hcase).
  destruct (hi_grow _ _ _ _ H _ _ HL) as [HgL HoL].
  pose proof Hp as (e & Hpe & Ee)%fmap_Some. pose proof (lookup_lt_Some _ _ _ Hpe) as Hpl.
  set (P := take (S (Z.to_nat index)) L) in *.
  assert (HlP : len P = index + 1) by (unfold len, P; rewrite length_take; lia).
  assert (HPF' : P `prefix_of` F') by (rewrite <-Htake; apply take_prefix).
  exists F', P. eapply (acknowledge gh gr ls H); [|done|done|apply take_prefix|done|lia].
  rewrite RL.installSnapshot_Some in El by done.
  eapply (sound_accept gh gr ls H q v cm ms F L); [done..| |done|done| |done| |].
  - intros X HX HXL. destruct Hcase as [->|[-> Hs]]; [done|]. apply (prefix_same _ L); [done|apply take_prefix|].
    apply prefix_length in HX. rewrite (rp_size _ _ HR) in Hs. unfold len in *. lia.
  - destruct Hcase as [->|[-> _]]; [by eapply ordered_mono, HS|by apply ordered_take].
  - injection El as <-. simpl. lia.
  - intros Hlt. replace (Z.max cm index) with index by lia. apply prefix_length in HPF'. split; [unfold len in *; lia|].
    by rewrite Htake.
Qed.

(** A snapshot that the peer has already. *)
Lemma skip_install q v cm ms F v' ms' index term :
  sound gh q v cm ms F → m_install gh (v_term v') index term → v_term v ≤ v_term v' → v_role v' = Follower →
  index ≤ RL.snapLastIdx (v_log v) → v_log v' = v_log v →
  (∀ u c, (q, u, c) ∈ gr → u ≤ v_term v') →
  ∃ P, history n (add_ack q (v_term v') P gh) gr ls ∧
    sound (add_ack q (v_term v') P gh) q v' cm ms' F ∧ index < len P.
Proof.
  intros HS (L & HL & Hp & HC) Hle Hr Hi El Hgr. pose proof (so_index _ _ _ _ _ _ HS) as Hcm.
  pose proof (RL.wf_idx _ (rp_wf _ _ (so_rep _ _ _ _ _ _ HS))) as H0.
  exists (take (S (Z.to_nat cm)) F). 
  eapply (acknowledge gh gr ls H); [|done|apply take_prefix| |done|unfold len in *; rewrite length_take; lia].
  - eapply sound_keeps; [done|done|done|by left|lia|congruence].
  - eapply committed_led; [done|apply HS|done|done].
Qed.

(** A vote for a log that is as up to date as one's own. *)
Lemma vouches_for q v cm ms F t E :
  sound gh q v cm ms F → v_term v ≤ t → up_to_date F E → g_born gh !! t = None → vouches gh q t E.
Proof.
  intros [] Ht Hup Hn u P HA Hu Hne. destruct (so_acks0 u P HA Hne) as [_ [HP|(w & Hw & Hsp)]].
  - left. eapply up_to_date_trans; [by eapply ordered_up_to_date|done].
  - right. exists w. split; [|done]. destruct Hsp as (_ & E' & HE' & _).
    destruct (decide (w = t)) as [->|]; [congruence|lia].
Qed.

Lemma grant_vote q v cm ms F t p li lt i u :
  sound gh q v cm ms F → m_vote gh t p li lt → v_term v ≤ t →
  RL.last (v_log v) = (i, u) → u < lt ∨ u = lt ∧ i ≤ li →
  history n gh ({[(q, t, p)]} ∪ gr) ls.
Proof.
  intros HS (E & HE & -> & ->) Ht Hl Hup. eapply history_vote; [done|done|]. intros Hn.
  eapply vouches_for; [done|done| |done]. rewrite (represents_last _ _ (so_rep _ _ _ _ _ _ HS)) in Hl. simplify_eq.
  unfold up_to_date, len in *. lia.
Qed.

(** [p] starts an election of the next term. *)
Lemma stand p v cm ms F v' ms' :
  sound gh p v cm ms F → v_log v' = v_log v → v_term v' = v_term v + 1 → v_role v' = Candidate →
  history n (add_cand (v_term v') p F gh) ({[(p, v_term v', p)]} ∪ gr) ls ∧
  grows gh (add_cand (v_term v') p F gh) ∧ sound (add_cand (v_term v') p F gh) p v' cm ms' F.
Proof.
  intros HS Hl Ht Hr. pose proof HS as [].
  assert (Hn : g_cand gh !! (v_term v', p) = None).
  { apply eq_None_not_Some. intros [E HE%so_cands0]. lia. }
  pose proof (grows_cand (v_term v') p F gh Hn) as HG. split_and!; [|done|].
  - apply history_cand; [done|done|done|by rewrite Ht, Z.add_simpl_r|].
    eapply vouches_for; [done|lia|]. unfold up_to_date. lia.
  - split; rewrite ?Hl; try (done || congruence).
    + by eapply ordered_mono; [|exact so_ordered0]; lia.
    + intros _. simpl. by rewrite lookup_insert_eq.
    + intros t P HA Hne. destruct (so_acks0 t P HA Hne) as [? [?|(w & ? & ?)]]; split; [lia|by left|lia|right].
      exists w. split; [lia|done].
    + intros t E. simpl. intros [[[= <-] _]|[_ HE%so_cands0]]%lookup_insert_Some; lia.
    + eapply committed_mono; [done| |done|exact so_commit0]. lia.
Qed.

(** The candidate [p] wins. *)
Lemma win p v cm ms F v' ms' Q :
  sound gh p v cm ms F → v_role v = Candidate → v_log v' = v_log v → v_term v' = v_term v →
  g_born gh !! v_term v = None → (v_term v, p) ∈ ls → majority (cluster n) Q → (∀ q, q ∈ Q → (q, v_term v, p) ∈ gr) →
  (∀ q m, slice_get ms' q = Some m → m ≤ 0) →
  history n (add_born (v_term v) F gh) gr ls ∧
  grows gh (add_born (v_term v) F gh) ∧ sound (add_born (v_term v) F gh) p v' cm ms' F.
Proof.
  intros HS Hr Hl Ht Hn Hp HQ Hgr Hms. pose proof HS as [].
  destruct (history_lead n gh gr ls (v_term v) p F Q H Hn (so_cand0 Hr) Hp HQ Hgr) as [HH HG]. split_and!; [done|done|].
  split; rewrite ?Hl, ?Ht; try done.
  - by eapply grounded_extends; [apply HG|].
  - intros _. simpl. by rewrite lookup_insert_eq.
  - intros _. exact (so_cand0 Hr).
  - intros t P HA Hne. destruct (so_acks0 t P HA Hne) as [? [?|(w & ? & ?)]]; split; [done|by left|done|right].
    exists w. eauto using spoils_mono.
  - intros _ q m Hq Hm. specialize (Hms q m Hq). lia.
Qed.

(** The leader [p] appends an entry. *)
Lemma extend p v cm ms F v' e :
  sound gh p v cm ms F → v_role v = Leader → v_role v' = Leader → v_log v' = RL.append (v_log v) e →
  v_term v' = v_term v → le_Term e = v_term v →
  history n (add_entry (v_term v) F e gh) gr ls ∧
  grows gh (add_entry (v_term v) F e gh) ∧ sound (add_entry (v_term v) F e gh) p v' cm ms (F ++ [e]).
Proof.
  intros HS Hr Hr' Hl Ht He. pose proof HS as []. specialize (so_lead0 Hr).
  destruct (history_start n gh gr ls (v_term v) F e H so_lead0 He) as [HH HG]. split_and!; [done|done|].
  destruct (hi_grow _ _ _ _ HH (v_term v) (F ++ [e])) as [HgF HoF]; [simpl; by rewrite lookup_insert_eq|].
  split; rewrite ?Hl, ?Ht; try (done || congruence).
  - by apply represents_append.
  - intros _. simpl. by rewrite lookup_insert_eq.
  - intros t P HA Hne. destruct (so_acks0 t P HA Hne) as [? [?|(w & ? & ?)]]; split; [done|left; by apply prefix_app_r|done|right].
    exists w. eauto using spoils_mono.
  - simpl. rewrite len_app. unfold len in *. simpl. lia.
  - eapply committed_mono; [done|reflexivity| |exact so_commit0]. rewrite take_app_le; [done|]. unfold len in *.
    pose proof (RL.wf_idx _ (rp_wf _ _ so_rep0)). lia.
  - intros _ q m Hq Hm. destruct (so_match0 Hr q m Hq Hm) as (P & ? & ?). exists P. eauto using acked_mono.
Qed.

(** The peers that [ms] says have reached [m]. *)
Lemma reached_set ms m :
  ∃ Q : gset Z, size Q = count (λ x, m ≤ x) ms ∧ ∀ q, q ∈ Q → ∃ x, slice_get ms q = Some x ∧ m ≤ x.
Proof.
  induction ms as [|x ms (Q & HQ & HIn)] using rev_ind; [exists ∅; set_solver|].
  assert (Hold : ∀ q, q ∈ Q → ∃ y, slice_get (ms ++ [x]) q = Some y ∧ m ≤ y).
  { intros q (y & [Hq Hy]%slice_get_Some & Hm)%HIn. exists y. split; [|done]. apply slice_get_Some. split; [done|].
    by apply lookup_app_l_Some. }
  unfold count in *. rewrite list.filter_app, length_app. destruct (decide (m ≤ x)) as [Hx|Hx].
  - rewrite filter_cons_True, filter_nil by done. exists ({[len ms]} ∪ Q). rewrite size_union, size_singleton; [split; [simpl; lia|]|].
    + intros q [->%elem_of_singleton|?]%elem_of_union; [|by apply Hold]. exists x. split; [|done]. apply slice_get_Some.
      unfold len. split; [lia|]. rewrite Nat2Z.id. by apply list_lookup_middle.
    + intros q ->%elem_of_singleton (y & [_ Hy%lookup_lt_Some]%slice_get_Some & _)%HIn. unfold len in Hy. lia.
  - rewrite filter_cons_False, filter_nil by done. exists Q. split; [simpl; lia|done].
Qed.

(** A majority has reached an entry of the leader's term: it is committed. *)
Lemma commit p v cm ms F m e :
  sound gh p v cm ms F → v_role v = Leader → len ms = n → majority_index n ms m → 0 < m →
  F !! Z.to_nat m = Some e → le_Term e = v_term v → sound gh p v (Z.max cm m) ms F.
Proof.
  intros HS Hr Hlen [Hmaj _] H0 He Ht. pose proof HS as []. pose proof (lookup_lt_Some _ _ _ He) as Hl.
  destruct (reached_set ms m) as (Q & HsQ & HQ). rewrite <-HsQ in Hmaj.
  split; try done; [unfold len in *; lia|]. destruct (decide (m ≤ cm)) as [|Hgt]; [by replace (Z.max cm m) with cm by lia|].
  replace (Z.max cm m) with m by lia. right. exists (v_term v), (take (S (Z.to_nat m)) F). split_and!; [lia| |done].
  split_and!; [|by rewrite (last_term_take _ _ _ He)|].
  { intros E%(f_equal length). rewrite length_take, Nat.min_l in E by lia. done. }
  exists Q. split; [split|].
  - intros q (x & [Hq Hx]%slice_get_Some & _)%HQ. apply lookup_lt_Some in Hx. apply elem_of_cluster. unfold len in Hlen. lia.
  - rewrite size_cluster. unfold len in Hlen. pose proof (Z.quot_rem' n 2). pose proof (Z.rem_bound_abs n 2). lia.
  - intros q (x & Hx & Hm)%HQ. destruct (so_match0 Hr q x Hx ltac:(lia)) as (P & HA & HP). specialize (so_lead0 Hr).
    destruct (hi_ack _ _ _ _ H q _ P HA) as (L & HL & HPL). simplify_eq.
    destruct HA as (P' & Hin & HP'). exists P'. split; [done|]. etrans; [|exact HP'].
    apply (prefix_same _ F); [apply take_prefix|done|]. rewrite length_take. unfold len in HP. lia.
Qed.
End steps.

(** ** The start *)

Definition no_history : ghost Cmd := mkGhost ∅ ∅ ∅ [].

Lemma history_init : history n no_history ∅ ∅.
Proof.
  split; simpl; try (set_solver || done).
  - intros q t P (P' & H & _). set_solver.
Qed.

Lemma sound_init p ms : sound no_history p fresh_view 0 ms [root].
Proof.
  split; try done.
  - apply represents_new.
  - split.
    + intros i e [_ <-]%list_lookup_singleton_Some. simpl. unfold InvalidTerm. lia.
    + intros i j e f _ [_ <-]%list_lookup_singleton_Some [_ <-]%list_lookup_singleton_Some. done.
  - intros t P (P' & H & _). simpl in H. set_solver.
  - by left.
Qed.
End peers.
End LC.
