(* ===== verification/RaftMatching.v ===== *)
(** Log Matching for the cluster of [raft.go] peers.

    The logs of the leaders are those of [Matching]: a term gets its log when its
    leader is elected, which happens once ([Ballot]), and only that leader appends to
    it.  [lm] says that every peer's log is grounded in them and that every request
    in flight is a segment of the log of its leader.

    Two steps of the program can break this: [InstallSnapshot] keeps the entries
    behind the snapshot without comparing terms, and a request whose entries are
    overwritten before they are encoded is no segment of any leader's log.  [benign]
    runs are those in which the terms agree whenever entries are kept, and requests
    are encoded with the entries they were built with. *)

From S2P Require Import Prelude Gob RaftLog Matching Raft RaftFacts Voting Ballot RaftNet RaftElection.
Import RF Net LM.

#[local] Open Scope Z_scope.

Section matching.
Context {Cmd SB : Type}.
Abbreviation Raft := (RF.Raft Cmd SB).
Abbreviation net := (Net.net Cmd SB).
Abbreviation task := (Net.task Cmd SB).
Implicit Types (rf : Raft) (s : net) (tk : task) (b : BL.ballot) (n p q t : Z).
Implicit Types (F L : list (LogEntry Cmd)) (G : gmap Z (list (LogEntry Cmd))).

(** An [InstallSnapshot] that is about to run does not keep foreign entries. *)
Definition benign_install (args : @InstallSnapshotArgs SB) rf : Prop :=
  is_Term args < currentTerm rf ∨ is_LastIncludedIndex args ≤ RL.snapLastIdx (log rf) ∨
  fits (log rf) (is_LastIncludedIndex args) (is_LastIncludedTerm args).

(** What is written to the array behind a request that is not encoded yet is what was
    there. *)
Definition intact (ev : Net.event Cmd SB) s : Prop :=
  ∀ k es p t q args o, ev = EOverwrite k es → tasks s !! k = Some (TAppReq p t q args o) → es = ae_Entries args.

Definition benign (ev : Net.event Cmd SB) s : Prop :=
  (∀ k e p t q args o rf, ev = ERun k e → tasks s !! k = Some (TInsReq p t q args o) →
    peers s !! q = Some rf → benign_install args rf) ∧
  intact ev s.

Lemma intact_same k es s tk tk' :
  intact (EOverwrite k es) s → tasks s !! k = Some tk → overwrite_task es tk = Some tk' → tk' = tk.
Proof.
  unfold overwrite_task. intros HI Hk E. destruct tk as [| | | |p t q args []| | | | |]; try done.
  case_decide; simplify_eq. rewrite (HI k es p t q args false eq_refl Hk). by destruct args.
Qed.

Definition benign_next s s' : Prop := ∃ ev, step ev s = Some s' ∧ benign ev s.

(** ** What [Matching] sees *)

Definition view_of rf : view Cmd SB := mkView (currentTerm rf) (role rf) (log rf).

Definition msg_of tk : option (msg Cmd) :=
  match tk with
  | TAppReq _ _ _ args _ =>
      Some (MAppend (ae_Term args) (ae_PrevLogIndex args) (ae_PrevLogTerm args) (ae_Entries args))
  | TInsReq _ _ _ args _ => Some (MInstall (is_Term args) (is_LastIncludedIndex args) (is_LastIncludedTerm args))
  | _ => None
  end.

Definition net_lm s b G : Prop :=
  lm (view_of <$> peers s) (omap msg_of (tasks s)) (BL.b_leaders b) G.

Definition task_log G tk : Prop := ∀ m, msg_of tk = Some m → msg_log G m.

Lemma tasks_none G (l : list task) : omap msg_of l = [] → ∀ tk, tk ∈ l → task_log G tk.
Proof.
  intros E tk Htk m Hm. assert (m ∈ omap msg_of l) as Hin by (apply list_elem_of_omap; eauto).
  rewrite E in Hin. set_solver.
Qed.

Lemma lm_task s b G tk : net_lm s b G → tk ∈ tasks s → task_log G tk.
Proof. intros H Htk m Hm. apply (lm_msg _ _ _ _ H). apply list_elem_of_omap. eauto. Qed.

Lemma lm_view s b G p rf : net_lm s b G → peers s !! p = Some rf → peer_log G (view_of rf).
Proof. intros H Hp. apply (lm_peer _ _ _ _ H p). by rewrite lookup_fmap, Hp. Qed.

Lemma tasks_log s G (l : list task) :
  (∀ tk, tk ∈ l → tk ∈ tasks s ∨ task_log G tk) →
  ∀ m, m ∈ omap msg_of l → m ∈ omap msg_of (tasks s) ∨ msg_log G m.
Proof.
  intros H m (tk & Htk & Hm)%list_elem_of_omap. destruct (H tk Htk) as [?|Hl]; [left|right; by apply Hl].
  apply list_elem_of_omap. eauto.
Qed.

(** A step of [p] that leaves the logs of the leaders as they are. *)
Lemma lm_peer_step s b G b' p rf' vs (l : list task) app :
  net_lm s b G → BL.b_leaders b ⊆ BL.b_leaders b' → peer_log G (view_of rf') →
  (∀ tk, tk ∈ l → tk ∈ tasks s ∨ task_log G tk) →
  net_lm (mkNet (<[p := rf']> (peers s)) vs l app) b' G.
Proof.
  intros H Hb Hp Hl. eapply lm_quiet; [exact H|done| |by apply tasks_log].
  simpl. intros q v. rewrite fmap_insert. intros [[<- <-]|[_ ?]]%lookup_insert_Some; [by right|by left].
Qed.

Lemma keeps_quiet rf rf' : quiet rf rf' → log rf' = log rf → keeps (view_of rf) (view_of rf').
Proof.
  intros (_ & _ & [(Ht & _ & Hr)|(Ht & _ & Hr)]) Hl; split_and!; simpl; [done|lia| |done|lia|congruence].
  destruct Hr as [Hr|Hr]; rewrite Hr; done.
Qed.

(** ** The operations *)

Lemma append_view G e p t q args o rf rf' reply :
  AppendEntries e args rf = Some (rf', reply) → wf_grow G → peer_log G (view_of rf) →
  task_log G (TAppReq p t q args o) → peer_log G (view_of rf').
Proof.
  intros E HG HP HQ. pose proof (quiet_append _ _ _ _ _ E) as Hq.
  apply AppendEntries_cases in E as [(_ & -> & _)|(Hle & [(_ & ->)|(_ & l & Ht & El & ->)])]; [done|..].
  - eapply peer_log_keeps; [|done]. apply keeps_quiet; [done|]. apply (becomeFollower_frame (ae_Term args) rf).
  - destruct (becomeFollower_spec (ae_Term args) rf) as [[? _]|(_ & Htm & Hr & _)]; [lia|].
    eapply (append_log G (view_of rf)); [done|done|by apply HQ|done|..];
      destruct (commitIndex rf <? ae_LeaderCommit args); done.
Qed.

Lemma install_view G p t q args o rf rf' reply :
  InstallSnapshot args rf = Some (rf', reply) → wf_grow G → peer_log G (view_of rf) → benign_install args rf →
  task_log G (TInsReq p t q args o) → peer_log G (view_of rf').
Proof.
  intros E HG HP HB HQ. pose proof (quiet_install _ _ _ _ E) as Hq.
  apply InstallSnapshot_cases in E as [(_ & ->)|(Hle & [(_ & ->)|(l & Hi & El & ->)])]; [done|..].
  - eapply peer_log_keeps; [|done]. apply keeps_quiet; [done|]. apply (becomeFollower_frame (is_Term args) rf).
  - destruct HB as [?|[?|Hfit]]; [lia|lia|].
    destruct (becomeFollower_spec (is_Term args) rf) as [[? _]|(_ & Htm & Hr & _)]; [lia|].
    by eapply (install_log G (view_of rf)); [done|done|by apply HQ|done|done|done|..].
Qed.

Lemma snapshot_view G index snap rf rf' :
  Snapshot index snap rf = Some rf' → peer_log G (view_of rf) → peer_log G (view_of rf').
Proof.
  intros E HP. unfold Snapshot in E. case_match; [by simplify_eq|]. case_match; [by simplify_eq|].
  apply bind_Some in E as (l & El & E). simplify_eq. by eapply compact_log.
Qed.

(** The calls [startReplication] makes. *)
Definition call_of rf (c : @Call Cmd SB) : Prop :=
  match c with
  | CallAppend _ args =>
      ae_Term args = currentTerm rf ∧ ae_LeaderCommit args = commitIndex rf ∧
      RL.snapLastIdx (log rf) ≤ ae_PrevLogIndex args ∧
      ∃ e, RL.at_ (log rf) (ae_PrevLogIndex args) = Some e ∧ ae_PrevLogTerm args = le_Term e ∧
        RL.tail (log rf) (ae_PrevLogIndex args + 1) = Some (ae_Entries args)
  | CallInstall _ args =>
      is_Term args = currentTerm rf ∧ is_LastIncludedIndex args = RL.snapLastIdx (log rf) ∧
      is_LastIncludedTerm args = RL.snapLastTerm (log rf)
  end.

Lemma startReplication_calls t rf rf' calls ok :
  startReplication t rf = Some (rf', calls, ok) →
  ∀ c, c ∈ calls → role rf = Leader ∧ call_of rf c.
Proof.
  unfold startReplication. destruct (contextLostLocked Leader t rf) eqn:Ec; [intros; simplify_eq; set_solver|].
  unfold contextLostLocked in Ec. apply negb_false_iff, andb_true_iff in Ec as [_ Hr%bool_decide_eq_true].
  rewrite bind_Some. intros ([rf1 calls1] & E & ?) c Hc. simplify_eq. split; [done|].
  cut (reindexed rf (rf', calls).1 ∧ ∀ c, c ∈ (rf', calls).2 → call_of rf c); [by intros [_ H]; apply H|].
  eapply (for_range_post _ _ (λ _ x, reindexed rf x.1 ∧ ∀ c, c ∈ x.2 → call_of rf c)); [exact E|..].
  - split; [apply reindexed_refl|set_solver].
  - intros i [r1 c1] [r2 c2] _ [HR HC] Es. simpl in *. pose proof HR as (ni & mi & -> & _).
    destruct (i =? _).
    + apply bind_Some in Es as (mi' & Em & Es). apply bind_Some in Es as (ni' & En & Es). simplify_eq.
      split; [|done]. eapply reindexed_next; [|exact En]. by eapply reindexed_match.
    + apply bind_Some in Es as (nx & En & Es). simpl in Es.
      destruct (nx - 1 <? RL.snapLastIdx (log rf)) eqn:El.
      * simplify_eq. split; [done|]. intros x [Hx| ->%list_elem_of_singleton]%elem_of_app; [by apply HC|done].
      * apply bind_Some in Es as (prev & Ep & Es). apply bind_Some in Es as (ents & Et & Es). simplify_eq.
        split; [done|]. intros x [Hx| ->%list_elem_of_singleton]%elem_of_app; [by apply HC|].
        simpl. split_and!; [done|done|lia|eauto].
Qed.

Lemma call_task_log G rf p t c :
  peer_log G (view_of rf) → role rf = Leader → call_of rf c → task_log G (call_task p t c).
Proof.
  intros HP Hr Hc m Hm. destruct c as [q args|q args]; simpl in *; simplify_eq.
  - destruct Hc as (-> & _ & Hp & e & He & -> & Ht). by apply (append_request G (view_of rf)).
  - destruct Hc as (-> & -> & ->). by apply (install_request G (view_of rf)).
Qed.

(** ** Every step *)

Lemma vote_keeps e args rf : keeps (view_of rf) (view_of (RequestVote e args rf).1).
Proof.
  assert (Hl : log (RequestVote e args rf).1 = log rf).
  { unfold RequestVote. pose proof (becomeFollower_frame (rv_Term args) rf) as [Hl _].
    repeat case_match; simpl; try done. }
  destruct (RequestVote e args rf) as [rf' reply] eqn:E. simpl in *.
  apply RequestVote_cases in E as [[_ Hq]|(_ & _ & _ & Hle & Ht & _ & Hcase)]; [by apply keeps_quiet|].
  split_and!; simpl; [done|lia|]. destruct Hcase as [(Heq & _ & ->)|[_ ->]]; [|done]. intros ?. split; [done|lia].
Qed.

Lemma reindexed_keeps rf rf' : reindexed rf rf' → keeps (view_of rf) (view_of rf').
Proof. intros (ni & mi & -> & _). split_and!; simpl; [done|lia|done]. Qed.

Lemma follower_keeps t rf : keeps (view_of rf) (view_of (becomeFollowerLocked t rf)).
Proof. apply keeps_quiet; [apply quiet_becomeFollower|apply becomeFollower_frame]. Qed.

Lemma prepare_keeps rf rf' work : app_prepare rf = Some (rf', work) → keeps (view_of rf) (view_of rf').
Proof.
  intros E. apply keeps_quiet; [by eapply quiet_prepare|]. unfold app_prepare in E.
  repeat case_match; simplify_option_eq; done.
Qed.

Lemma finish_keeps work rf : keeps (view_of rf) (view_of (app_finish work rf)).
Proof. apply keeps_quiet; [apply quiet_finish|]. unfold app_finish. by repeat case_match. Qed.

Lemma tick_keeps e rf : keeps (view_of rf) (view_of (electionTicker e rf).1).
Proof.
  unfold electionTicker. destruct (_ && _) eqn:E; simpl; [|apply keeps_refl].
  apply andb_true_iff in E as [Hr%bool_decide_eq_true _].
  destruct (becomeCandidate_spec rf Hr) as (Ht & Hro & _ & Hl & _). split_and!; simpl; [done|lia|congruence].
Qed.

Lemma restart_keeps rf : synced rf → keeps (view_of rf) (view_of (Make (npeers rf) (me rf) (persister rf))).
Proof.
  intros H. apply keeps_quiet; [by apply quiet_restart|].
  pose proof (Make_view (npeers rf) (me rf) (persister rf)) as E. rewrite H in E. by injection E.
Qed.

Lemma append_reply_keeps t q args reply rf rf' :
  replicateToPeer t q args true reply rf = Some rf' → keeps (view_of rf) (view_of rf').
Proof.
  intros E. apply replicateToPeer_spec in E as [(u & _ & ->)|[Hr|(rf1 & m & Hr & _ & ->)]].
  - apply follower_keeps.
  - by apply reindexed_keeps.
  - exact (reindexed_keeps _ _ Hr).
Qed.

Lemma install_reply_keeps q t args reply rf rf' :
  installToPeer q t args true reply rf = Some rf' → keeps (view_of rf) (view_of rf').
Proof.
  intros E. apply installToPeer_spec in E as [(u & _ & ->)|Hr]; [apply follower_keeps|by apply reindexed_keeps].
Qed.

Lemma vote_reply_cases t reply v rf rf' v' won :
  askVoteFromPeer t true reply v rf = Some (rf', v', won) →
  keeps (view_of rf) (view_of rf') ∨ (role rf = Candidate ∧ reindexed (set_role Leader rf) rf').
Proof.
  intros E. unfold askVoteFromPeer in E. cbn [negb] in E.
  case_match; [simplify_eq; left; apply follower_keeps|]. case_match; [simplify_eq; left; apply keeps_refl|].
  case_match; [|simplify_eq; left; apply keeps_refl]. case_match; [|simplify_eq; left; apply keeps_refl].
  apply bind_Some in E as (rf1 & E1 & E). simplify_eq.
  apply becomeLeader_spec in E1 as [[_ ->]|?]; [left; apply keeps_refl|by right].
Qed.

Lemma on_crash_log G c tk tk' : on_crash c tk = Some tk' → task_log G tk → task_log G tk'.
Proof.
  intros E H m Hm. apply H. destruct tk; simpl in E; try destruct (_ =? _); by simplify_eq.
Qed.

Section step.
Context (n : Z).
Abbreviation reached b := (rtc (BL.bstep n) (BL.bfresh (terms0 n)) b).

Lemma leader_recorded s b p rf :
  reached b → sim n s b → peers s !! p = Some rf → role rf = Leader →
  (currentTerm rf, p) ∈ BL.b_leaders b.
Proof.
  intros Hb R Hp Hr. destruct (BL.bsteps_refine n _ _ (BL.bfresh_inv n _ (terms0_dom n)) Hb) as [I _].
  apply (BL.bp_lead _ _ _ _ _ (BL.bi_peer n b I p _ (sim_peer n s b p rf R Hp))). done.
Qed.

(** A candidate has not led its term before. *)
Lemma candidate_fresh s b G b' p rf :
  reached b → rtc (BL.bstep n) b b' → sim n s b → net_lm s b G → peers s !! p = Some rf → role rf = Candidate →
  (currentTerm rf, p) ∈ BL.b_leaders b' → G !! currentTerm rf = None.
Proof.
  intros Hb Hbb R H Hp Hr Hin. apply eq_None_not_Some. intros [L HL].
  destruct (lm_led _ _ _ _ H _ _ HL) as [q Hq].
  assert (p = q) as <-.
  { apply (BL.bleaders_unique n (terms0 n) b' (currentTerm rf)); [apply terms0_dom|by etrans|done|].
    by apply (BL.bleaders_mono n b b' Hbb). }
  destruct (BL.once_steps n _ _ (BL.bfresh_once _) Hb p _ (sim_peer n s b p rf R Hp)) as [_ Hc].
  by apply Hc.
Qed.

Lemma lead_lm s b G b' p rf rf' vs (l : list task) app :
  net_lm s b G → BL.b_leaders b ⊆ BL.b_leaders b' → peers s !! p = Some rf →
  view_of rf' = mkView (currentTerm rf) Leader (log rf) → G !! currentTerm rf = None →
  (currentTerm rf, p) ∈ BL.b_leaders b' → (∀ tk, tk ∈ l → tk ∈ tasks s ∨ task_log G tk) →
  ∃ G', net_lm (mkNet (<[p := rf']> (peers s)) vs l app) b' G'.
Proof.
  intros H Hm Hp Hv Hn Hin Hl. unfold net_lm. cbn [peers tasks]. rewrite fmap_insert, Hv.
  eapply (lm_lead (view_of <$> peers s) _ (BL.b_leaders b) G _ p (view_of rf)); [exact H|done| |done|done|].
  - by rewrite lookup_fmap, Hp.
  - by apply tasks_log.
Qed.

(** What the step of task [k] may leave behind. *)
Section running.
Context s b G (b' : BL.ballot) (k : nat).
Context (Hm : BL.b_leaders b ⊆ BL.b_leaders b') (H : net_lm s b G).

Lemma left_log new tk : (∀ tk, tk ∈ new → task_log G tk) → tk ∈ delete k (tasks s) ++ new → tk ∈ tasks s ∨ task_log G tk.
Proof. intros Hn [?%list_elem_of_delete_inv|?]%elem_of_app; eauto. Qed.

Lemma left_peer p rf' new vs app :
  peer_log G (view_of rf') → (∀ tk, tk ∈ new → task_log G tk) →
  ∃ G', net_lm (mkNet (<[p := rf']> (peers s)) vs (delete k (tasks s) ++ new) app) b' G'.
Proof. intros Hp Hn. exists G. eapply lm_peer_step; [done..|]. intros x. by apply left_log. Qed.

Lemma left_net new vs app :
  (∀ tk, tk ∈ new → task_log G tk) → ∃ G', net_lm (mkNet (peers s) vs (delete k (tasks s) ++ new) app) b' G'.
Proof.
  intros Hn. exists G. eapply lm_quiet; [exact H|done|by left|apply tasks_log]. intros x. by apply left_log.
Qed.

Lemma left_only : ∃ G', net_lm (set_tasks (delete k (tasks s)) s) b' G'.
Proof. unfold set_tasks. rewrite <-(app_nil_r (delete k (tasks s))). apply left_net. set_solver. Qed.

Lemma left_keeps p rf rf' : peers s !! p = Some rf → keeps (view_of rf) (view_of rf') → peer_log G (view_of rf').
Proof. intros Hp Hkp. eapply peer_log_keeps; [done|]. by eapply lm_view. Qed.

Lemma left_set p rf rf' :
  peers s !! p = Some rf → keeps (view_of rf) (view_of rf') →
  ∃ G', net_lm (set_peer p rf' (set_tasks (delete k (tasks s)) s)) b' G'.
Proof.
  intros Hp Hkp. unfold set_peer. simpl. rewrite <-(app_nil_r (delete k (tasks s))).
  apply left_peer; [by eapply left_keeps|set_solver].
Qed.
End running.

Lemma run_lm s b G b' k tk e s' :
  reached b → rtc (BL.bstep n) b b' → sim n s b → sim n s' b' → net_lm s b G →
  tasks s !! k = Some tk → benign (ERun k e) s →
  run_task e tk (set_tasks (delete k (tasks s)) s) = Some s' → ∃ G', net_lm s' b' G'.
Proof.
  intros Hb Hbb R R' H Hk HB E. pose proof (BL.bleaders_mono n b b' Hbb) as Hm.
  assert (Htk : task_log G tk) by (apply (lm_task s b); [done|]; by eapply list_elem_of_lookup_2).
  pose proof (left_peer s b G b' k Hm H) as Q. pose proof (left_net s b G b' k Hm H) as T.
  pose proof (left_keeps s b G H) as P. pose proof (left_only s b G b' k Hm H) as T0. pose proof (left_set s b G b' k Hm H) as Q0.
  destruct tk as [p t|p t q args o|p t q reply|p t|p t q args o|p t q args reply|p t q args o
                 |p t q args reply|p work|p work]; simpl in E;
    apply bind_Some in E as (rf & Hp & E).
  - destruct (startElection t rf) as [[v cs]|]; simplify_eq; [|done]. apply T.
    by intros x ([q a] & -> & _)%list_elem_of_fmap.
  - destruct (RequestVote e args rf) as [rf' reply] eqn:Er. simplify_eq. apply Q.
    + eapply P; [done|]. pose proof (vote_keeps e args rf) as Hv. by rewrite Er in Hv.
    + apply tasks_none; by destruct o.
  - apply bind_Some in E as (rf0 & Hp' & E). apply bind_Some in E as ([[rf' v'] won] & Ea & E). simplify_eq.
    destruct (vote_reply_cases _ _ _ _ _ _ _ Ea) as [Hkp|[Hc Hr]].
    { apply Q; [by eapply P|]. apply tasks_none; by destruct won. }
    pose proof Hr as (ni & mi & Erf & _).
    assert (Hin : (currentTerm rf0, p) ∈ BL.b_leaders b').
    { rewrite Erf in R'.
      change (currentTerm rf0) with (currentTerm (set_matchIndex mi (set_nextIndex ni (set_role Leader rf0)))).
      eapply leader_recorded; [by etrans|exact R'|simpl; by rewrite lookup_insert_eq|done]. }
    eapply (lead_lm s b G); [exact H|done|exact Hp'|by rewrite Erf|by eapply candidate_fresh|done|].
    intros x. apply left_log. apply tasks_none. by destruct won.
  - destruct (killed rf); simplify_eq; [done|].
    apply bind_Some in E as ([[rf' cs] ok] & Es & E). simplify_eq.
    pose proof (startReplication_calls _ _ _ _ _ Es) as Hc. apply startReplication_spec in Es. apply Q.
    + eapply P; [done|]. by apply reindexed_keeps.
    + intros x [(c & -> & Hin)%list_elem_of_fmap|Hx]%elem_of_app; [|by revert x Hx; apply tasks_none; destruct ok].
      destruct (Hc c Hin) as [Hr Hof]. by eapply call_task_log; [by eapply lm_view|..].
  - apply bind_Some in E as ([rf' reply] & Ea & E). simplify_eq. apply Q.
    + by eapply append_view; [done|apply H|eapply lm_view|].
    + apply tasks_none; by destruct o.
  - apply bind_Some in E as (rf' & Ea & E). simplify_eq. eapply Q0; [done|]. by eapply append_reply_keeps.
  - apply bind_Some in E as ([rf' reply] & Ea & E). simplify_eq. apply Q.
    + eapply install_view; [done|apply H|by eapply lm_view| |done]. by eapply HB.
    + apply tasks_none; by destruct o.
  - apply bind_Some in E as (rf' & Ea & E). simplify_eq. eapply Q0; [done|]. by eapply install_reply_keeps.
  - simplify_eq. apply T. set_solver.
  - simplify_eq. eapply Q0; [done|]. apply finish_keeps.
Qed.

Lemma start_lm s b G b' p cmd rf :
  reached b → sim n s b → net_lm s b G → BL.b_leaders b ⊆ BL.b_leaders b' → peers s !! p = Some rf →
  ∃ G', net_lm (set_peer p (Start cmd rf).1 s) b' G'.
Proof.
  intros Hb R H Hm Hp. unfold Start. case_decide as Hr; simpl.
  { exists G. apply lm_peer_step with b; [done|done|by eapply lm_view|by left]. }
  unfold net_lm, set_peer. cbn [peers tasks]. rewrite fmap_insert.
  change (view_of _) with (mkView (currentTerm rf) (role rf) (RL.append (log rf) (mkEntry (currentTerm rf) true cmd))).
  rewrite Hr. eapply (lm_start _ _ (BL.b_leaders b) G _ p (view_of rf)); [done|done| |done|].
  - by rewrite lookup_fmap, Hp.
  - intros q w Hne Hq Hw Ht. rewrite lookup_fmap in Hq. apply fmap_Some in Hq as (rq & Hq & ->).
    apply Hne. apply (BL.bleaders_unique n (terms0 n) b (currentTerm rf)); [apply terms0_dom|done|..].
    + simpl in Ht. rewrite <-Ht. by eapply leader_recorded.
    + by eapply leader_recorded.
Qed.

Lemma step_lm s b G ev s' :
  reached b → sim n s b → net_lm s b G → step ev s = Some s' → benign ev s →
  ∃ b' G', reached b' ∧ sim n s' b' ∧ net_lm s' b' G'.
Proof.
  intros Hb R H E HB. destruct (step_refines n s b ev s' R E) as (b' & [Hbb _] & R').
  pose proof (BL.bleaders_mono n b b' Hbb) as Hm.
  exists b'. cut (∃ G', net_lm s' b' G'); [intros [G' ?]; exists G'; split_and!; [by etrans|done|done]|].
  assert (Q : ∀ p rf rf' new, peers s !! p = Some rf → keeps (view_of rf) (view_of rf') → (∀ tk, tk ∈ new → task_log G tk) →
    ∃ G', net_lm (mkNet (<[p := rf']> (peers s)) (votes s) (tasks s ++ new) (applied s)) b' G').
  { intros p rf rf' new Hp Hkp Hn. exists G. eapply lm_peer_step; [done..| |].
    - eapply peer_log_keeps; [done|]. by eapply lm_view.
    - intros x [?|?]%elem_of_app; eauto. }
  assert (C : ∀ p rf, peers s !! p = Some rf → ∃ G', net_lm (crashed p rf s) b' G').
  { intros p rf Hp. exists G. eapply lm_peer_step; [done..| |].
    - eapply peer_log_keeps; [|by eapply lm_view]. apply restart_keeps.
      apply (pi_synced _ (po_inv _ _ _ (si_peer _ _ _ R p rf Hp))).
    - intros tk' (tk & Htk & Eo)%list_elem_of_omap. right. eapply on_crash_log; [done|]. by apply (lm_task s b). }
  destruct ev as [p e|k e|k|k es|p cmd|p i snap|p|p|p|p|k j]; simpl in E;
    apply bind_Some in E as (x & Hx & E).
  - destruct (killed x); [done|]. pose proof (tick_keeps e x) as Hkp.
    destruct (electionTicker e x) as [rf' ot]. simplify_eq. apply (Q _ x); [done|done|].
    apply tasks_none; by destruct ot.
  - by eapply run_lm.
  - destruct (lossy x); simplify_eq. exists G. eapply lm_quiet; [exact H|done|by left|apply tasks_log].
    intros y Hy%list_elem_of_delete_inv. by left.
  - apply bind_Some in E as (tk & Ho & E). simplify_eq. apply (intact_same _ _ _ _ _ (proj2 HB) Hx) in Ho as ->.
    exists G. eapply lm_quiet; [exact H|done|by left|apply tasks_log].
    intros y [Hy%list_elem_of_delete_inv| ->%list_elem_of_singleton]%elem_of_app; left; [done|by eapply list_elem_of_lookup_2].
  - simplify_eq. by eapply start_lm.
  - apply bind_Some in E as (rf' & Es & E). simplify_eq. exists G. apply lm_peer_step with b; [done|done| |by left].
    eapply snapshot_view; [done|]. by eapply lm_view.
  - destruct (killed x || _); [done|]. destruct (applyCond x); simplify_eq. unfold set_peer.
    rewrite <-(app_nil_r (tasks s)). apply (Q _ x); [done|apply keeps_refl|set_solver].
  - destruct (applyCond x); simplify_eq. apply bind_Some in E as ([rf' work] & Es & E).
    simplify_eq. apply (Q _ x); [done|by eapply prepare_keeps|by apply tasks_none].
  - simplify_eq. unfold set_peer. rewrite <-(app_nil_r (tasks s)).
    apply (Q _ x); [done|apply keeps_refl|set_solver].
  - simplify_eq. by apply C.
  - apply bind_Some in E as ([p work] & _ & E). apply bind_Some in E as (rf & Hp & E). simplify_eq.
    by apply (C p rf Hp).
Qed.

Lemma init_lm : net_lm (init n) (BL.bfresh (terms0 n)) ∅.
Proof.
  apply lm_init. intros p v. rewrite lookup_fmap. intros (rf & Hp & ->)%fmap_Some.
  by apply (init_peers n p rf) in Hp as [_ ->].
Qed.

Lemma reach_lm s : rtc benign_next (init n) s → ∃ b G, sim n s b ∧ net_lm s b G.
Proof.
  cut (∀ s0 b G, rtc benign_next s0 s → reached b → sim n s0 b → net_lm s0 b G → ∃ b G, sim n s b ∧ net_lm s b G).
  { intros H Hs. eapply H; [done|apply rtc_refl|apply init_sim|apply init_lm]. }
  intros s0 b G Hs. revert b G. induction Hs as [s0|s0 s1 s2 (ev & E & HB) _ IH]; intros b G Hb R H; [by eauto|].
  destruct (step_lm s0 b G ev s1 Hb R H E HB) as (b1 & G1 & Hb1 & R1 & H1). eauto.
Qed.
End step.

(** C5: Log Matching. In every state a cluster reaches without an [InstallSnapshot]
    that keeps entries behind a snapshot of another term, and in which every
    [AppendEntries] request is encoded with the entries it was built with, with lost,
    reordered and stale requests, compaction and crashes: if the logs of two peers have an entry
    of the same term at the same index, they have the same entries up to there, as
    far as neither has compacted them; and along every log terms never decrease
    and never exceed the peer's current term. *)
Theorem log_matching n (s : net) p q rfp rfq :
  rtc benign_next (init n) s → peers s !! p = Some rfp → peers s !! q = Some rfq →
  logs_match (log rfp) (log rfq) ∧
  RL.terms_sorted (log rfp) ∧ ∀ i t, RL.termAt (log rfp) i = Some t → t ≤ currentTerm rfp.
Proof.
  intros H Hp Hq. destruct (reach_lm n s H) as (b & G & _ & HL).
  apply (lm_match _ _ _ _ p q (view_of rfp) (view_of rfq) HL); by rewrite lookup_fmap, ?Hp, ?Hq.
Qed.
End matching.

(** ** Runs *)

Module MatchingRuns.

Definition e1 : Env := mkEnv (10 ^ 12) 7.
Definition e2 : Env := mkEnv (2 * 10 ^ 12) 7.

(** Peer 0 is elected in term 2 by peers 1 and 2 and replicates [[10; 20]] to peer 1
    only.  Peer 2 is elected in term 3 by peers 3 and 4, replicates [[30]] to them
    and commits it. *)
Definition split_votes : list (Net.event Z unit) :=
  [ETick 0 e1; ERun 0 e1; ERun 0 e1; ERun 0 e1; EDrop 0; EDrop 0; ERun 0 e1; ERun 0 e1;
   EStart 0 (Some 10); EStart 0 (Some 20); ERun 0 e1; ERun 0 e1; EDrop 0; EDrop 0; EDrop 0; EDrop 1;
   ETick 2 e2; ERun 1 e2; ERun 3 e2; ERun 3 e2; EDrop 1; EDrop 1; ERun 1 e2; ERun 1 e2;
   EStart 2 (Some 30); ERun 1 e2; ERun 3 e2; ERun 3 e2; EDrop 1; EDrop 1; ERun 2 e2; ERun 2 e2].

(** It compacts its log and sends the snapshot to peer 1, which keeps its entry 20. *)
Definition install : list (Net.event Z unit) := [ESnapshot 2 1 []; ERun 1 e2; ERun 2 e2].

Definition before : Net.net Z unit := default (init 5) (exec split_votes (init 5)).
Definition after : Net.net Z unit := default before (exec install before).
Definition peer (s : Net.net Z unit) (p : Z) : RF.Raft Z unit :=
  default (Make 5 p PS.MakePersister) (peers s !! p).

(** No [InstallSnapshot] runs, and no request is overwritten. *)
Definition no_install (ev : Net.event Z unit) (s : Net.net Z unit) : bool :=
  match ev with
  | EOverwrite _ _ => false
  | ERun k _ => match tasks s !! k with Some (TInsReq _ _ _ _ _) => false | _ => true end
  | _ => true
  end.

Fixpoint quiet_run (evs : list (Net.event Z unit)) (s : Net.net Z unit) : option (Net.net Z unit) :=
  match evs with
  | [] => Some s
  | ev :: evs => if no_install ev s then s ← step ev s; quiet_run evs s else None
  end.

Lemma quiet_run_benign evs s s' : quiet_run evs s = Some s' → rtc benign_next s s'.
Proof.
  revert s. induction evs as [|ev evs IH]; intros s E; simpl in E; [by simplify_eq|].
  destruct (no_install ev s) eqn:Hn; [|done]. apply bind_Some in E as (s1 & E1 & E).
  eapply rtc_l; [|by apply IH]. exists ev. split; [done|].
  split; [|by intros k es p t q args o ->].
  intros k e p t q args o rf -> Hk _. simpl in Hn. by rewrite Hk in Hn.
Qed.

Lemma log_matching_witness :
  RL.termAt (log (peer before 0)) 2 = Some 2 ∧ RL.termAt (log (peer before 1)) 2 = Some 2 ∧
  RL.at_ (log (peer before 0)) 1 = RL.at_ (log (peer before 1)) 1.
Proof.
  destruct (log_matching 5 before 0 1 (peer before 0) (peer before 1)) as (HM & _ & _).
  - apply (quiet_run_benign split_votes). vm_compute. reflexivity.
  - vm_compute. reflexivity.
  - vm_compute. reflexivity.
  - split; [vm_compute; reflexivity|]. split; [vm_compute; reflexivity|].
    apply (HM 2 2); vm_compute; done.
Defined.

(** C38: [InstallSnapshot] breaks Log Matching. In a run of five peers without a crash
    a peer installs a snapshot whose last entry has term 3 and keeps the entry of
    term 2 behind it: the terms of its log decrease, and it agrees with another peer
    on the term at index 2 but not on the entry before. *)
Theorem install_breaks_log_matching :
  ∃ (s : Net.net Z unit) rf0 rf1, rtc next (init 5) s ∧
    peers s !! 0 = Some rf0 ∧ peers s !! 1 = Some rf1 ∧
    ¬ logs_match (log rf0) (log rf1) ∧ ¬ RL.terms_sorted (log rf1).
Proof.
  exists after, (peer after 0), (peer after 1). split_and!.
  - apply (exec_rtc (split_votes ++ install)). vm_compute. reflexivity.
  - vm_compute. reflexivity.
  - vm_compute. reflexivity.
  - intros HM. destruct (HM 2 2 ltac:(vm_compute; reflexivity) ltac:(vm_compute; reflexivity) 1 ltac:(done)) as [_ H].
    specialize (H ltac:(vm_compute; done) ltac:(vm_compute; done)). vm_compute in H. done.
  - intros HS. pose proof (proj1 (RL.terms_sorted_spec _) HS 1 2 3 2) as H.
    specialize (H ltac:(vm_compute; reflexivity) ltac:(vm_compute; reflexivity) ltac:(done)). lia.
Qed.
End MatchingRuns.
