(* ===== verification/RaftSafety.v ===== *)
(** The history of a cluster of [raft.go] peers, and what every peer knows of it.

    [Completeness] is about histories; here the history of a network is kept along its
    steps.  [core] says that every peer is [sound] and that every request and reply in
    flight is what the history makes of it; [step_core] is that every step keeps it.

    Three steps of the program leave the protocol, and [orderly] runs are those without
    them: an [InstallSnapshot] that keeps entries of another history, a request whose
    entries are overwritten before they are encoded ([RaftMatching]), and an
    [AppendEntries] that cuts off entries the request does not contradict
    ([RaftTraces] shows what happens then). *)

From S2P Require Import Prelude Gob RaftLog Raft RaftFacts RaftSpec Matching Voting Ballot RaftNet RaftElection Completeness RaftMatching.
Import RF Net LM LC.

#[local] Open Scope Z_scope.

Section safety.
Context {Cmd SB : Type}.
Abbreviation Raft := (RF.Raft Cmd SB).
Abbreviation net := (Net.net Cmd SB).
Abbreviation task := (Net.task Cmd SB).
Implicit Types (rf : Raft) (s : net) (tk : task) (b : BL.ballot) (n p q t : Z).
Implicit Types (F L P : list (LogEntry Cmd)) (gh : ghost Cmd).

(** An [AppendEntries] that is about to run is refused, or cuts off only what it
    contradicts. *)
Definition benign_append (args : @AppendEntriesArgs Cmd) rf : Prop :=
  ae_Term args < currentTerm rf ∨
  RL.termAt (log rf) (ae_PrevLogIndex args) ≠ Some (ae_PrevLogTerm args) ∨
  covers (log rf) (ae_PrevLogIndex args) (ae_Entries args).

Definition orderly (ev : Net.event Cmd SB) s : Prop :=
  benign ev s ∧
  ∀ k e p t q args o rf, ev = ERun k e → tasks s !! k = Some (TAppReq p t q args o) →
    peers s !! q = Some rf → benign_append args rf.

Definition orderly_next s s' : Prop := ∃ ev, step ev s = Some s' ∧ orderly ev s.

(** ** What the history says of a peer and of a task *)

Section invariant.
Context (n : Z).

(** The index up to which a peer knows its log to be committed. *)
Definition known rf : Z := Z.max (commitIndex rf) (RL.snapLastIdx (log rf)).

Definition psound gh p rf F : Prop := sound n gh p (view_of rf) (known rf) (matchIndex rf) F.

Definition task_safe gh tk : Prop :=
  match tk with
  | TVoteReq p t _ args _ => m_vote gh t p (rv_LastLogIndex args) (rv_LastLogTerm args)
  | TAppReq _ t _ args _ =>
      ae_Term args = t ∧
      m_append n gh t (ae_PrevLogIndex args) (ae_PrevLogTerm args) (ae_Entries args) (ae_LeaderCommit args)
  | TAppRep _ t q args reply =>
      ar_Success reply = true → ∃ P, acked gh q t P ∧ ae_PrevLogIndex args + len (ae_Entries args) < len P
  | TInsReq _ t _ args _ =>
      is_Term args = t ∧ m_install n gh t (is_LastIncludedIndex args) (is_LastIncludedTerm args)
  | TInsRep _ t q args reply => t < ir_Term reply ∨ ∃ P, acked gh q t P ∧ is_LastIncludedIndex args < len P
  | _ => True
  end.

Record core s b gh : Prop := {
  cr_hist : history n gh (BL.b_grants b) (BL.b_leaders b);
  cr_peer : ∀ p rf, peers s !! p = Some rf → ∃ F, psound gh p rf F;
  cr_task : ∀ tk, tk ∈ tasks s → task_safe gh tk
}.

Lemma task_safe_mono gh gh' tk : grows gh gh' → task_safe gh tk → task_safe gh' tk.
Proof.
  intros HG. destruct tk; simpl; try done.
  - by apply m_vote_mono.
  - intros [? ?]. split; [done|]. by eapply m_append_mono.
  - intros H Hs. destruct (H Hs) as (P & ? & ?). exists P. eauto using acked_mono.
  - intros [? ?]. split; [done|]. by eapply m_install_mono.
  - intros [?|(P & ? & ?)]; [by left|right]. exists P. eauto using acked_mono.
Qed.

(** The history grows on account of [p] only. *)
Definition only p gh gh' : Prop :=
  ∀ q, q ≠ p → (∀ t P, acked gh' q t P → acked gh q t P) ∧
    ∀ t E, g_cand gh' !! (t, q) = Some E → is_Some (g_cand gh !! (t, q)).

Lemma only_refl p gh : only p gh gh.
Proof. intros q _. split; [done|]. by intros t E ->. Qed.

Lemma only_ack p t P gh : only p gh (add_ack p t P gh).
Proof.
  intros q Hne. split; [|by intros u E HE; exists E]. intros u X [?|(-> & _)]%acked_add; done.
Qed.

Lemma only_cand p t F gh : only p gh (add_cand t p F gh).
Proof.
  intros q Hne. split; [done|]. intros u E. simpl. rewrite lookup_insert_ne by congruence. by intros ->.
Qed.

Lemma core_intro s b gh b' gh' p ps vs (l : list task) app :
  core s b gh → grows gh gh' → only p gh gh' → history n gh' (BL.b_grants b') (BL.b_leaders b') →
  (∀ q rq, ps !! q = Some rq →
     q ≠ p ∧ peers s !! q = Some rq ∧
       (role rq = Leader → g_grow gh' !! currentTerm rq = g_grow gh !! currentTerm rq) ∨
     ∃ F, psound gh' q rq F) →
  (∀ tk, tk ∈ l → tk ∈ tasks s ∨ task_safe gh' tk) → core (mkNet ps vs l app) b' gh'.
Proof.
  intros [_ Hp Ht] HG Ho HH Hps Hl. split; simpl; [done|..].
  - intros q rq Hq. destruct (Hps q rq Hq) as [(Hne & Hq' & Hlead)|?]; [|done].
    destruct (Hp q rq Hq') as [F HF]. exists F. destruct (Ho q Hne). by eapply sound_frame.
  - intros tk Htk. destruct (Hl tk Htk) as [?|?]; [|done]. eapply task_safe_mono; eauto.
Qed.

(** The history stays as it is. *)
Lemma core_keep s b gh b' ps vs (l : list task) app :
  core s b gh → history n gh (BL.b_grants b') (BL.b_leaders b') →
  (∀ q rq, ps !! q = Some rq → peers s !! q = Some rq ∨ ∃ F, psound gh q rq F) →
  (∀ tk, tk ∈ l → tk ∈ tasks s ∨ task_safe gh tk) → core (mkNet ps vs l app) b' gh.
Proof.
  intros HC HH Hps Hl. split; simpl; [done|..].
  - intros q rq [?|?]%Hps; [by eapply cr_peer|done].
  - intros tk [?|?]%Hl; [by eapply cr_task|done].
Qed.

(** ** The critical sections *)

Lemma psound_keeps gh p rf F rf' :
  psound gh p rf F → keeps (view_of rf) (view_of rf') → role rf' = Follower ∨ role rf' = role rf ∧ currentTerm rf' = currentTerm rf →
  known rf' ≤ known rf → (role rf' = Leader → matchIndex rf' = matchIndex rf) → psound gh p rf' F.
Proof.
  intros HS (Hl & Ht & _) Hr Hk Hm. pose proof (so_match _ _ _ _ _ _ _ HS) as Hmatch.
  eapply sound_keeps; [exact HS|done|done|done| |].
  - simpl in *. split; [unfold known; rewrite Hl; lia|done].
  - intros Hlead. destruct Hr as [Hr|[Hr Ht']]; [simpl in *; congruence|]. simpl in *. rewrite Hm, Ht' by done. apply Hmatch. congruence.
Qed.

(** A step in which the peer takes no part in an election and its log stays. *)
Lemma psound_quiet gh p rf F rf' :
  psound gh p rf F → quiet rf rf' → log rf' = log rf → known rf' ≤ known rf →
  (role rf' = Leader → matchIndex rf' = matchIndex rf) → psound gh p rf' F.
Proof.
  intros HS Hq Hl Hk Hm. eapply psound_keeps; [done|by apply keeps_quiet| |done|done].
  destruct Hq as (_ & _ & [(? & _ & [?|?])|(_ & _ & ?)]); [right|left|left]; done.
Qed.

Lemma psound_follower gh p rf F t : psound gh p rf F → psound gh p (becomeFollowerLocked t rf) F.
Proof.
  intros HS. pose proof (becomeFollower_frame t rf) as (Hl & _ & _ & _ & Hm & Hc & _).
  eapply psound_quiet; [done|apply quiet_becomeFollower|done| |done]. unfold known. rewrite Hl, Hc. lia.
Qed.

(** The history grows by at most one acknowledgement of [q]. *)
Definition acks q gh gh' : Prop := gh' = gh ∨ ∃ t P, gh' = add_ack q t P gh.

Lemma acks_grows q gh gh' : acks q gh gh' → grows gh gh' ∧ only q gh gh' ∧ g_grow gh' = g_grow gh.
Proof.
  intros [->|(t & P & ->)]; [split_and!; [done|apply only_refl|done]|].
  split_and!; [apply grows_ack|apply only_ack|done].
Qed.

Lemma acked_last q t P gh i : i < len P → ∃ P', acked (add_ack q t P gh) q t P' ∧ i < len P'.
Proof. intros Hi. exists P. split; [|done]. exists P. split; [by left|done]. Qed.

Section handlers.
Context gh (gr : gset (Z * Z * Z)) (ls : gset (Z * Z)) (H : history n gh gr ls).

Lemma append_step q e args rf rf' reply F :
  AppendEntries e args rf = Some (rf', reply) → psound gh q rf F → (∀ u c, (q, u, c) ∈ gr → u ≤ currentTerm rf) →
  m_append n gh (ae_Term args) (ae_PrevLogIndex args) (ae_PrevLogTerm args) (ae_Entries args) (ae_LeaderCommit args) →
  benign_append args rf →
  ∃ gh' F', acks q gh gh' ∧ history n gh' gr ls ∧ psound gh' q rf' F' ∧
    (ar_Success reply = true →
       ∃ P, acked gh' q (ae_Term args) P ∧ ae_PrevLogIndex args + len (ae_Entries args) < len P).
Proof.
  intros E HS Hgr HM HB. apply AppendEntries_cases in E as [(_ & -> & Hs)|(Hle & [(Hs & ->)|(Hs & l & Ht & El & Erf)])].
  - exists gh, F. split_and!; [by left|done|done|congruence].
  - exists gh, F. split_and!; [by left|done|by apply (psound_follower gh q rf F (ae_Term args))|congruence].
  - destruct HB as [?|[?|Hcov]]; [lia|done|].
    pose proof (becomeFollower_frame (ae_Term args) rf) as (_ & _ & _ & _ & _ & Hc & _).
    destruct (becomeFollower_spec (ae_Term args) rf) as [[? _]|(_ & Htm & Hr & _)]; [lia|].
    assert (Hv : view_of rf' = mkView (ae_Term args) Follower l).
    { rewrite Erf. destruct (commitIndex rf <? ae_LeaderCommit args); unfold view_of; simpl; by rewrite Htm, Hr. }
    assert (Hk : known rf' = Z.max (known rf) (ae_LeaderCommit args)).
    { pose proof (RL.appendFrom_inv _ _ _ _ El) as [_ El']. unfold known. rewrite Erf, El'.
      destruct (Z.ltb_spec (commitIndex rf) (ae_LeaderCommit args)); simpl; lia. }
    destruct (accept_append n gh gr ls H q (view_of rf) (known rf) (matchIndex rf) F (view_of rf') (known rf') (matchIndex rf')
      (ae_PrevLogIndex args) (ae_PrevLogTerm args) (ae_Entries args) (ae_LeaderCommit args)) as (F' & HH & HS' & HF');
      rewrite ?Hv; try done.
    { intros u c Hu%Hgr. simpl. lia. }
    rewrite Hv in HH, HS'. simpl in HH, HS'. exists (add_ack q (ae_Term args) F' gh), F'.
    split_and!; [right; eauto|done|unfold psound; by rewrite Hv|]. intros _. by apply acked_last.
Qed.

Lemma install_step q args rf rf' reply F :
  InstallSnapshot args rf = Some (rf', reply) → psound gh q rf F → (∀ u c, (q, u, c) ∈ gr → u ≤ currentTerm rf) →
  m_install n gh (is_Term args) (is_LastIncludedIndex args) (is_LastIncludedTerm args) → benign_install args rf →
  ∃ gh' F', acks q gh gh' ∧ history n gh' gr ls ∧ psound gh' q rf' F' ∧
    (is_Term args < ir_Term reply ∨ ∃ P, acked gh' q (is_Term args) P ∧ is_LastIncludedIndex args < len P).
Proof.
  intros E HS Hgr HM HB. assert (Hrt : ir_Term reply = currentTerm rf).
  { unfold InstallSnapshot in E. repeat case_match; by simplify_option_eq. }
  apply InstallSnapshot_cases in E as [(Hlt & ->)|(Hle & HC)].
  { exists gh, F. split_and!; [by left|done|done|left; lia]. }
  pose proof (becomeFollower_frame (is_Term args) rf) as (Hl & _ & _ & _ & _ & Hc & _).
  destruct (becomeFollower_spec (is_Term args) rf) as [[? _]|(_ & Htm & Hr & _)]; [lia|].
  destruct HC as [(Hi & ->)|(l & Hi & El & ->)].
  - set (rf' := becomeFollowerLocked (is_Term args) rf) in *.
    destruct (skip_install n gh gr ls H q (view_of rf) (known rf) (matchIndex rf) F (view_of rf') (matchIndex rf')
      (is_LastIncludedIndex args) (is_LastIncludedTerm args)) as (P & HH & HS' & HP); simpl; rewrite ?Htm; try done.
    { intros u c Hu%Hgr. lia. }
    simpl in HH, HS'. rewrite Htm in HH, HS'. exists (add_ack q (is_Term args) P gh), F. split_and!; [right; eauto|done| |].
    + unfold psound. replace (known rf') with (known rf); [done|]. unfold known. by rewrite Hl, Hc.
    + right. by apply acked_last.
  - destruct HB as [?|[?|Hfit]]; [lia|lia|].
    set (rf' := signalApply _). assert (Hv : view_of rf' = mkView (is_Term args) Follower l) by (unfold view_of; simpl; by rewrite Htm, Hr).
    assert (Hk : known rf' = Z.max (known rf) (is_LastIncludedIndex args)).
    { rewrite RL.installSnapshot_Some in El by done. injection El as <-. unfold known. simpl. rewrite Hc. lia. }
    destruct (accept_install n gh gr ls H q (view_of rf) (known rf) (matchIndex rf) F (view_of rf') (known rf') (matchIndex rf')
      (is_LastIncludedIndex args) (is_LastIncludedTerm args) (is_Snapshot args)) as (F' & P & HH & HS' & HP);
      rewrite ?Hv; try done.
    { intros u c Hu%Hgr. simpl. lia. }
    rewrite Hv in HH, HS'. simpl in HH, HS'. exists (add_ack q (is_Term args) P gh), F'.
    split_and!; [right; eauto|done|unfold psound; by rewrite Hv|]. right. by apply acked_last.
Qed.

(** What [startReplication] does to the match indices. *)
Lemma startReplication_match t rf rf' cs ok :
  startReplication t rf = Some (rf', cs, ok) →
  (cs = [] ∧ rf' = rf) ∨
  (role rf = Leader ∧ currentTerm rf = t ∧
   ∀ q m, slice_get (matchIndex rf') q = Some m →
     slice_get (matchIndex rf) q = Some m ∨ q = me rf ∧ m = RL.size (log rf) - 1).
Proof.
  unfold startReplication. destruct (contextLostLocked Leader t rf) eqn:Ec; [intros; simplify_eq; by left|].
  unfold contextLostLocked in Ec. apply negb_false_iff, andb_true_iff in Ec as [Ht%Z.eqb_eq Hr%bool_decide_eq_true].
  rewrite bind_Some. intros ([rf1 cs1] & E & ?). simplify_eq. right. split_and!; [done|done|].
  cut (reindexed rf (rf', cs).1 ∧ ∀ q m, slice_get (matchIndex (rf', cs).1) q = Some m →
     slice_get (matchIndex rf) q = Some m ∨ q = me rf ∧ m = RL.size (log rf) - 1); [by intros [_ ?]|].
  eapply (for_range_post _ _ (λ _ x, reindexed rf x.1 ∧ ∀ q m, slice_get (matchIndex x.1) q = Some m →
     slice_get (matchIndex rf) q = Some m ∨ q = me rf ∧ m = RL.size (log rf) - 1)); [exact E|..].
  - split; [apply reindexed_refl|by left].
  - intros i [r1 c1] [r2 c2] _ [HR HC] Es. simpl in *. pose proof HR as (ni & mi & -> & _).
    destruct (Z.eqb_spec i (me (set_matchIndex mi (set_nextIndex ni rf)))) as [->|].
    + apply bind_Some in Es as (mi' & Em & Es). apply bind_Some in Es as (ni' & En & Es). simplify_eq. simpl in *.
      split; [eapply reindexed_next; [|exact En]; by eapply reindexed_match|].
      intros q m. rewrite (slice_get_set _ _ _ _ _ Em). case_decide as Hd; [|by apply HC].
      intros [= <-]. right. done.
    + apply bind_Some in Es as (nx & En & Es). case_match; [by simplify_eq|].
      apply bind_Some in Es as (prev & Ep & Es). apply bind_Some in Es as (ents & Et & Es). by simplify_eq.
Qed.

Lemma repl_step p t rf rf' cs ok F :
  startReplication t rf = Some (rf', cs, ok) → psound gh p rf F → me rf = p → (∀ u c, (p, u, c) ∈ gr → u ≤ currentTerm rf) →
  ∃ gh', acks p gh gh' ∧ history n gh' gr ls ∧ psound gh' p rf' F ∧ ∀ c, c ∈ cs → task_safe gh' (call_task p t c).
Proof.
  intros E HS Hme Hgr. pose proof (startReplication_calls _ _ _ _ _ E) as Hcs. pose proof (startReplication_spec _ _ _ _ _ E) as (ni & mi & Erf & _).
  apply startReplication_match in E as [[-> ->]|(Hr & Ht & Hm)]; [exists gh; split_and!; [by left|done|done|set_solver]|].
  pose proof (so_lead _ _ _ _ _ _ _ HS Hr) as HL. simpl in HL. pose proof (so_rep _ _ _ _ _ _ _ HS) as HR.
  destruct (acknowledge n gh gr ls H p (view_of rf) (known rf) (matchIndex rf) F F F (len F - 1)) as (HH & HS' & _); try done; [lia|].
  simpl in HH, HS'. exists (add_ack p (currentTerm rf) F gh). split_and!; [right; eauto|done|..].
  - subst rf'. eapply sound_keeps; [exact HS'|done|simpl; lia|by right|split; [unfold known; simpl; lia|done]|].
    intros _ q m Hq H0. simpl in *. destruct (Hm q m Hq) as [Hq'|[-> ->]].
    + by eapply (so_match _ _ _ _ _ _ _ HS').
    + rewrite Hme. apply acked_last. rewrite (rp_size _ _ HR). lia.
  - intros c Hc. destruct (Hcs c Hc) as [_ Hof]. destruct c as [q args|q args]; simpl in *.
    + destruct Hof as (-> & -> & Hsi & e & He & -> & Htl). split; [done|]. rewrite <-Ht.
      eapply (send_append n _ p (view_of rf)); [exact HS'|done..|]. unfold known. lia.
    + destruct Hof as (-> & -> & ->). split; [done|]. rewrite <-Ht. by eapply (send_install n _ p (view_of rf)).
Qed.

(** The match index of [q] moves to what [q] has acknowledged. *)
Lemma psound_match p rf F q m mi ni :
  psound gh p rf F → slice_set (matchIndex rf) q m = Some mi →
  (role rf = Leader → ∃ P, acked gh q (currentTerm rf) P ∧ m < len P) →
  psound gh p (set_nextIndex ni (set_matchIndex mi rf)) F.
Proof.
  intros HS Em Ha. eapply sound_keeps; [exact HS|done|simpl; lia|by right|split; [unfold known; simpl; lia|done]|].
  intros Hr r x Hx H0. simpl in *. rewrite (slice_get_set _ _ _ _ _ Em) in Hx. case_decide as Hd; [|by eapply (so_match _ _ _ _ _ _ _ HS)].
  simplify_eq. by apply Ha.
Qed.

Lemma append_reply_step p t q args reply rf rf' F :
  replicateToPeer t q args true reply rf = Some rf' → psound gh p rf F → peer_inv rf → npeers rf = n → 1 ≤ n →
  1 ≤ currentTerm rf →
  (ar_Success reply = true → ∃ P, acked gh q t P ∧ ae_PrevLogIndex args + len (ae_Entries args) < len P) →
  psound gh p rf' F.
Proof.
  intros E HS Hi Hn H1 Hpos Ha. unfold replicateToPeer in E. cbn [negb] in E.
  destruct (_ <? ar_Term _); [simplify_eq; by apply psound_follower|].
  destruct (contextLostLocked Leader t rf) eqn:Ec; [by simplify_eq|].
  unfold contextLostLocked in Ec. apply negb_false_iff, andb_true_iff in Ec as [Ht%Z.eqb_eq Hr%bool_decide_eq_true].
  destruct (ar_Success reply); cbn [negb] in E; [|by simplify_option_eq].
  destruct (Ha eq_refl) as (P & HA & HP). rewrite <-Ht in HA.
  apply bind_Some in E as (mi & Emi & E). apply bind_Some in E as (m & _ & E).
  apply bind_Some in E as (ni & _ & E). apply bind_Some in E as (mj & Emj & E).
  set (rf1 := set_nextIndex ni (set_matchIndex mi rf)) in *.
  assert (HS1 : psound gh p rf1 F) by (eapply psound_match; eauto).
  assert (Hlen : len (matchIndex rf1) = n) by (simpl; rewrite (slice_set_len _ _ _ _ Emi), <-Hn; apply Hi).
  destruct (getMajorityIndex_Some rf1) as (m' & Em' & Hmaj); [simpl; lia|simpl in *; congruence|].
  rewrite Em' in Emj. injection Emj as ->. simpl in Hmaj. rewrite Hn in Hmaj.
  destruct (commitIndex rf1 <? mj) eqn:Ecm; [|by simplify_eq]. apply bind_Some in E as (en & Een & E).
  destruct (_ =? _) eqn:Et; [|by simplify_eq]. injection E as <-.
  pose proof (so_rep _ _ _ _ _ _ _ HS1) as HR. pose proof (RL.wf_idx _ (rp_wf _ _ HR)) as H0. simpl in H0.
  pose proof (proj1 (RL.at_is_Some _ _) (mk_is_Some _ _ Een)) as Hmj. simpl in Hmj.
  pose proof (represents_prev _ _ _ _ HR (proj1 Hmj) Een) as (f & Hf & Eft)%fmap_Some.
  assert (0 < mj).
  { destruct (decide (mj = 0)) as [->|]; [|lia]. change (Z.to_nat 0) with 0%nat in Hf. rewrite (gr_root _ _ (so_grounded _ _ _ _ _ _ _ HS1)) in Hf.
    simplify_eq. simpl in *. unfold InvalidTerm in *. lia. }
  pose proof (commit n gh gr ls H p (view_of rf1) (known rf1) (matchIndex rf1) F mj f HS1 Hr Hlen Hmaj) as HS2.
  unfold psound. replace (known _) with (Z.max (known rf1) mj); [apply HS2; simpl in *; [done|done|lia]|].
  unfold known. simpl in *. lia.
Qed.

Lemma install_reply_step p t q args reply rf rf' F :
  installToPeer q t args true reply rf = Some rf' → psound gh p rf F →
  (t < ir_Term reply ∨ ∃ P, acked gh q t P ∧ is_LastIncludedIndex args < len P) → psound gh p rf' F.
Proof.
  intros E HS Ha. unfold installToPeer in E. cbn [negb] in E.
  destruct (_ <? ir_Term _) eqn:Er; [simplify_eq; by apply psound_follower|].
  destruct (contextLostLocked Leader t rf) eqn:Ec; [by simplify_eq|].
  unfold contextLostLocked in Ec. apply negb_false_iff, andb_true_iff in Ec as [Ht%Z.eqb_eq Hr%bool_decide_eq_true].
  destruct Ha as [?|(P & HA & HP)]; [lia|]. rewrite <-Ht in HA.
  apply bind_Some in E as (m & Em & E). destruct (m <? _); [|by simplify_eq].
  apply bind_Some in E as (mi & Emi & E). apply bind_Some in E as (m' & _ & E). apply bind_Some in E as (ni & _ & E).
  simplify_eq. eapply psound_match; eauto.
Qed.

(** ** Elections *)

Lemma RequestVote_match e args rf : matchIndex (RequestVote e args rf).1 = matchIndex rf.
Proof.
  unfold RequestVote. pose proof (becomeFollower_frame (rv_Term args) rf) as (_&_&_&_&?&_). repeat case_match; done.
Qed.

Lemma vote_sound q e args rf F : psound gh q rf F → psound gh q (RequestVote e args rf).1 F.
Proof.
  intros HS. pose proof (vote_keeps e args rf) as Hk. pose proof (RequestVote_frame e args rf) as [Hl Hc].
  pose proof (RequestVote_match e args rf) as Hm. destruct (RequestVote e args rf) as [rf' reply] eqn:E. simpl in *.
  eapply psound_keeps; [done|done| |unfold known; rewrite Hl, Hc; lia|done].
  apply RequestVote_cases in E as [[_ (_ & _ & Hq)]|(_ & _ & _ & _ & Ht & _ & Hq)].
  - destruct Hq as [(? & _ & [?|?])|(_ & _ & ?)]; [by right|by left|by left].
  - destruct Hq as [(? & _ & ?)|[_ ?]]; [right; split; [done|congruence]|by left].
Qed.

Lemma vote_granted q e args rf F :
  psound gh q rf F → m_vote gh (rv_Term args) (rv_CandidateId args) (rv_LastLogIndex args) (rv_LastLogTerm args) →
  rr_VoteGranted (RequestVote e args rf).2 = true →
  history n gh ({[(q, rv_Term args, rv_CandidateId args)]} ∪ gr) ls.
Proof.
  intros HS HM Hg. pose proof (RequestVote_granted_iff e args rf) as Hi. destruct (RequestVote e args rf) as [rf' reply].
  simpl in Hg. destruct Hi as [[Hi _] _]. destruct (Hi Hg) as (Hle & _ & Hup). unfold RaftSpec.up_to_date in Hup.
  destruct (RL.last (log rf)) as [i u] eqn:El.
  by eapply (grant_vote n gh gr ls H q (view_of rf)); [exact HS|exact HM|done|exact El|].
Qed.

Lemma startElection_last t rf v cs :
  startElection t rf = Some (v, cs) → currentTerm rf = t ∧ role rf = Candidate ∧
  ∀ q args, (q, args) ∈ cs → RL.last (log rf) = (rv_LastLogIndex args, rv_LastLogTerm args).
Proof.
  unfold startElection. destruct (contextLostLocked Candidate t rf) eqn:Ec; [done|].
  unfold contextLostLocked in Ec. apply negb_false_iff, andb_true_iff in Ec as [Ht%Z.eqb_eq Hr%bool_decide_eq_true].
  destruct (RL.last (log rf)) as [li lt]. rewrite ask_everyone. intros [= _ <-]. split_and!; [done|done|].
  intros q args. rewrite list_elem_of_fmap. by intros (r & [= -> ->] & _).
Qed.

Lemma becomeLeader_match rf rf' :
  becomeLeaderLocked rf = Some rf' → role rf = Candidate → len (matchIndex rf) ≤ npeers rf →
  ∀ q m, slice_get (matchIndex rf') q = Some m → m = 0.
Proof.
  intros E Hr Hlen q m Hq. unfold becomeLeaderLocked in E. rewrite decide_False in E by (intros Hne; by apply Hne).
  assert (HI : len (matchIndex rf') = len (matchIndex rf) ∧ ∀ r x, r < npeers rf → slice_get (matchIndex rf') r = Some x → x = 0).
  { eapply (for_range_post _ _ (λ i x, len (matchIndex x) = len (matchIndex rf) ∧
      ∀ r y, r < i → slice_get (matchIndex x) r = Some y → y = 0)) in E as [Hl Hz]; [split; [done|]| |].
    - intros r x Hlt. apply Hz. lia.
    - split; [done|]. intros r y Hlt [? _]%slice_get_Some. lia.
    - intros i x x' _ [Hl Hz] Es. apply bind_Some in Es as (ni & _ & Es). apply bind_Some in Es as (mi & Em & Es).
      simplify_eq. simpl. split; [rewrite <-Hl; by eapply slice_set_len|]. intros r y Hlt.
      rewrite (slice_get_set _ _ _ _ _ Em). case_decide; [congruence|]. apply Hz. lia. }
  destruct HI as [Hl Hz]. apply (Hz q); [|done]. pose proof (proj1 (slice_get_is_Some _ _) (mk_is_Some _ _ Hq)). lia.
Qed.

Lemma win_step p t reply v rf rf' v' won F Q :
  askVoteFromPeer t true reply v rf = Some (rf', v', won) → role rf = Candidate → role rf' = Leader →
  len (matchIndex rf) ≤ npeers rf →
  psound gh p rf F → g_born gh !! currentTerm rf = None → (currentTerm rf, p) ∈ ls →
  majority (cluster n) Q → (∀ q, q ∈ Q → (q, currentTerm rf, p) ∈ gr) →
  history n (add_born (currentTerm rf) F gh) gr ls ∧ grows gh (add_born (currentTerm rf) F gh) ∧
  psound (add_born (currentTerm rf) F gh) p rf' F.
Proof.
  intros E Hr Hr' Hlen HS Hn Hp HQ Hgr. pose proof (askVote_log _ _ _ _ _ _ _ _ E) as [Hl Hc].
  assert (Hm : currentTerm rf' = currentTerm rf ∧ ∀ q m, slice_get (matchIndex rf') q = Some m → m ≤ 0).
  { unfold askVoteFromPeer in E. cbn [negb] in E. destruct (_ <? rr_Term _) eqn:Et.
    { simplify_eq. destruct (becomeFollower_spec (rr_Term reply) rf) as [[? _]|(_ & _ & ? & _)]; [lia|congruence]. }
    repeat (case_match; [simplify_eq; congruence|]).
    case_match; [|simplify_eq; congruence]. case_match; [|simplify_eq; congruence].
    apply bind_Some in E as (rf1 & El & E). simplify_eq. pose proof (becomeLeader_match _ _ El Hr Hlen) as Hz.
    apply becomeLeader_spec in El as [[? _]|(_ & ni & mi & -> & _)]; [done|]. split; [done|]. intros q m Hq%Hz. lia. }
  destruct Hm as [Ht Hm].
  apply (win n gh gr ls H p (view_of rf) _ (matchIndex rf) F (view_of rf') (matchIndex rf') Q); try done.
  replace (known rf') with (known rf); [done|]. unfold known. by rewrite Hl, Hc.
Qed.

Lemma stand_step p rf F :
  psound gh p rf F → role rf ≠ Leader →
  let rf' := becomeCandidateLocked rf in
  history n (add_cand (currentTerm rf') p F gh) ({[(p, currentTerm rf', p)]} ∪ gr) ls ∧
  grows gh (add_cand (currentTerm rf') p F gh) ∧ psound (add_cand (currentTerm rf') p F gh) p rf' F.
Proof.
  intros HS Hr. cbv zeta. destruct (becomeCandidate_spec rf Hr) as (Ht & Hr' & _ & Hl & _ & _ & _ & _ & Hc).
  apply (stand n gh gr ls H p (view_of rf) _ (matchIndex rf) F (view_of (becomeCandidateLocked rf))); try done.
  replace (known (becomeCandidateLocked rf)) with (known rf); [done|]. unfold known. by rewrite Hl, Hc.
Qed.

Lemma start_step p rf F cmd :
  psound gh p rf F → role rf = Leader →
  let rf' := (Start cmd rf).1 in let en := mkEntry (currentTerm rf) true cmd in
  history n (add_entry (currentTerm rf) F en gh) gr ls ∧
  grows gh (add_entry (currentTerm rf) F en gh) ∧ psound (add_entry (currentTerm rf) F en gh) p rf' (F ++ [en]).
Proof.
  intros HS Hr. cbv zeta. unfold Start. rewrite decide_False by (intros Hne; by apply Hne).
  by apply (extend n gh gr ls H p (view_of rf) (known rf) (matchIndex rf) F).
Qed.

(** ** Compaction, application and restarts *)

Lemma snapshot_step p index snap rf rf' F :
  Snapshot index snap rf = Some rf' → psound gh p rf F → psound gh p rf' F.
Proof.
  intros E HS. unfold Snapshot in E. destruct (commitIndex rf <? index) eqn:Ec; [by simplify_eq|].
  destruct (index <=? _) eqn:Ei; [by simplify_eq|]. apply bind_Some in E as (l & El & E). simplify_eq.
  pose proof (so_rep _ _ _ _ _ _ _ HS) as HR. pose proof (represents_doSnapshot _ _ _ _ _ HR El) as HR'. simpl in *.
  assert (Hsi : RL.snapLastIdx l ≤ index ∧ RL.snapLastIdx (log rf) ≤ RL.snapLastIdx l).
  { destruct (decide (RL.snapLastIdx (log rf) < index < RL.size (log rf))) as [Hin|Hout].
    - destruct (RL.doSnapshot_Some (log rf) index snap Hin) as (e & _ & E'). simplify_eq. simpl. lia.
    - rewrite RL.doSnapshot_id in El by lia. simplify_eq. lia. }
  set (rf' := persistLocked (set_log l rf)). unfold psound. replace (known rf') with (known rf) by (unfold known; simpl; lia).
  eapply sound_compact; [exact HS|exact HR'|simpl; unfold known; lia|done|done].
Qed.

Lemma finish_step p work rf F : psound gh p rf F → psound gh p (app_finish work rf) F.
Proof.
  intros HS. eapply psound_quiet; [done|apply quiet_finish| | |]; unfold app_finish, known; destruct work as [es []]; simpl; try done.
  - by case_match.
  - case_match; simpl; lia.
  - by case_match.
Qed.

Lemma prepare_step p rf rf' work F : app_prepare rf = Some (rf', work) → psound gh p rf F → psound gh p rf' F.
Proof.
  intros E HS. assert (log rf' = log rf ∧ commitIndex rf' = commitIndex rf ∧ matchIndex rf' = matchIndex rf) as (Hl & Hc & Hm).
  { unfold app_prepare in E. repeat case_match; simplify_option_eq; done. }
  eapply psound_quiet; [done|by eapply quiet_prepare|done|unfold known; rewrite Hl, Hc; lia|done].
Qed.

Lemma Make_commit (npeers me : Z) (ps : PS.Persister Cmd SB) :
  commitIndex (Make npeers me ps) = 0 ∨
  commitIndex (Make npeers me ps) = RL.snapLastIdx (log (Make npeers me ps)).
Proof.
  unfold Make, readPersist. repeat case_match; simplify_eq/=; try (by left). by right.
Qed.

Lemma restart_step p rf F : psound gh p rf F → synced rf → psound gh p (Make (npeers rf) (me rf) (persister rf)) F.
Proof.
  intros HS Hsy. destruct (restart_keeps rf Hsy) as (Hl & _). simpl in Hl.
  pose proof (RL.wf_idx _ (rp_wf _ _ (so_rep _ _ _ _ _ _ _ HS))) as H0. simpl in H0.
  eapply psound_quiet; [done|by apply quiet_restart|done| |].
  - unfold known. destruct (Make_commit (npeers rf) (me rf) (persister rf)) as [->| ->]; rewrite Hl; lia.
  - destruct (Make_frame (npeers rf) (me rf) (persister rf)) as (_ & _ & _ & -> & _). done.
Qed.
End handlers.

(** ** The ballot *)

Abbreviation reached b := (rtc (BL.bstep n) (BL.bfresh (terms0 n)) b).

Lemma reached_inv b : reached b → BL.binv n b.
Proof. intros Hb. by apply (BL.bsteps_refine n _ _ (BL.bfresh_inv n _ (terms0_dom n)) Hb). Qed.

Lemma reached_quorum b t p :
  reached b → (t, p) ∈ BL.b_leaders b → ∃ Q, majority (cluster n) Q ∧ ∀ q, q ∈ Q → (q, t, p) ∈ BL.b_grants b.
Proof.
  intros Hb Hin. destruct (BL.bsteps_refine n _ _ (BL.bfresh_inv n _ (terms0_dom n)) Hb) as [_ R]. rewrite BL.bfresh_abs in R.
  by apply (vi_quorum _ _ (vinv_steps _ _ _ (vinv_init _ _) R)).
Qed.

Lemma reached_positive s b p rf : reached b → sim n s b → peers s !! p = Some rf → 1 ≤ currentTerm rf.
Proof.
  intros Hb R Hp. assert (H0 : BL.positive (BL.bfresh (terms0 n))).
  { intros q x. simpl. rewrite lookup_fmap. intros (t & Ht & ->)%fmap_Some. unfold terms0 in Ht.
    apply elem_of_list_to_map_2, list_elem_of_fmap in Ht as (r & [= _ ->] & _). done. }
  apply (BL.positive_steps n _ _ H0 Hb p (proj rf)). by apply (sim_peer n s).
Qed.

Lemma grants_bound s b p rf u c :
  reached b → sim n s b → peers s !! p = Some rf → (p, u, c) ∈ BL.b_grants b → u ≤ currentTerm rf.
Proof.
  intros Hb R Hp Hin. pose proof (BL.bi_peer n b (reached_inv b Hb) p _ (sim_peer n s b p rf R Hp)) as Hok.
  by apply (BL.bp_grant _ _ _ _ _ Hok) in Hin as (_ & ? & _).
Qed.

(** The peer has given no new vote. *)
Definition keeps_vote rf rf' : Prop :=
  votedFor rf' = -1 ∨ currentTerm rf = currentTerm rf' ∧ votedFor rf = votedFor rf'.

Definition unmoved s s' : Prop :=
  ∀ q rq, peers s' !! q = Some rq → ∃ rq0, peers s !! q = Some rq0 ∧ keeps_vote rq0 rq.

Lemma quiet_keeps_vote rf rf' : quiet rf rf' → keeps_vote rf rf'.
Proof. intros (_ & _ & [(? & ? & _)|(_ & ? & _)]); [by right|by left]. Qed.

Lemma same_vote_keeps s b q rq0 rq :
  sim n s b → peers s !! q = Some rq0 → keeps_vote rq0 rq → BL.same_vote b q (proj rq).
Proof. intros R Hq [?|?]; [by left|right]. exists (proj rq0). split; [by apply (sim_peer n s)|done]. Qed.

Lemma sim_lookup s b q y : sim n s b → BL.b_peers b !! q = Some y → ∃ rq, peers s !! q = Some rq ∧ y = proj rq.
Proof. intros R Hq. destruct (si_shows _ _ _ R) as (E & _). rewrite E, lookup_fmap in Hq. by apply fmap_Some. Qed.

Lemma unmoved_grants s b s' b' :
  reached b → BL.bmove n b b' → sim n s b → sim n s' b' → unmoved s s' → BL.b_grants b' = BL.b_grants b.
Proof.
  intros Hb Hm R R' Hu. assert (reached b') as Hb' by (etrans; [exact Hb|apply Hm]).
  apply (BL.bmove_same n); [by apply reached_inv|by apply reached_inv|done|].
  intros q y (rq & Hq & ->)%(sim_lookup s' b' q y R'). destruct (Hu q rq Hq) as (rq0 & Hq0 & Hqu).
  by eapply same_vote_keeps.
Qed.

Lemma unmoved_peer s vs (l : list task) app p rf rf' :
  peers s !! p = Some rf → keeps_vote rf rf' → unmoved s (mkNet (<[p := rf']> (peers s)) vs l app).
Proof. intros Hp Hq q rq. simpl. intros [[<- <-]|[_ ?]]%lookup_insert_Some; [by exists rf|]. exists rq. split; [done|by right]. Qed.

Lemma unmoved_none s vs (l : list task) app : unmoved s (mkNet (peers s) vs l app).
Proof. intros q rq Hq. exists rq. split; [done|by right]. Qed.

(** The history at the ballot [b'], for a step without a vote. *)
Section stepping.
Context s b gh b' (Hb : reached b) (Hm : BL.bmove n b b') (R : sim n s b) (HC : core s b gh).

Lemma leaders_grow : BL.b_leaders b ⊆ BL.b_leaders b'.
Proof. apply (BL.bleaders_mono n b b'), Hm. Qed.

Lemma history_later gh' s' :
  sim n s' b' → unmoved s s' → history n gh' (BL.b_grants b) (BL.b_leaders b) →
  history n gh' (BL.b_grants b') (BL.b_leaders b').
Proof.
  intros R' Hu HH. rewrite (unmoved_grants s b s' b') by done. eapply history_leaders; [done|apply leaders_grow].
Qed.

(** A step of [p] that may acknowledge something. *)
Lemma core_acks gh' p rf rf' vs (l : list task) app :
  sim n (mkNet (<[p := rf']> (peers s)) vs l app) b' → peers s !! p = Some rf → quiet rf rf' →
  acks p gh gh' → history n gh' (BL.b_grants b) (BL.b_leaders b) → (∃ F, psound gh' p rf' F) →
  (∀ tk, tk ∈ l → tk ∈ tasks s ∨ task_safe gh' tk) →
  core (mkNet (<[p := rf']> (peers s)) vs l app) b' gh' ∧ grows gh gh'.
Proof.
  intros R' Hp Hq Ha HH HS Hl. destruct (acks_grows p gh gh' Ha) as (HG & Ho & Hgrow). split; [|done].
  eapply core_intro; [done|done|done|by eapply history_later; [|eapply unmoved_peer; [|apply quiet_keeps_vote]|]| |done].
  intros q rq [[<- <-]|[Hne ?]]%lookup_insert_Some; [by right|left]. rewrite Hgrow. done.
Qed.

Lemma core_peer p rf rf' vs (l : list task) app :
  sim n (mkNet (<[p := rf']> (peers s)) vs l app) b' → peers s !! p = Some rf → quiet rf rf' →
  (∀ F, psound gh p rf F → psound gh p rf' F) → (∀ tk, tk ∈ l → tk ∈ tasks s ∨ task_safe gh tk) →
  ∃ gh', core (mkNet (<[p := rf']> (peers s)) vs l app) b' gh' ∧ grows gh gh'.
Proof.
  intros R' Hp Hq HS Hl. exists gh. eapply core_acks; [done|done|done|by left|apply HC| |done].
  destruct (cr_peer _ _ _ HC p rf Hp) as [F HF]. exists F. by apply HS.
Qed.

Lemma core_idle vs (l : list task) app :
  sim n (mkNet (peers s) vs l app) b' → (∀ tk, tk ∈ l → tk ∈ tasks s ∨ task_safe gh tk) →
  ∃ gh', core (mkNet (peers s) vs l app) b' gh' ∧ grows gh gh'.
Proof.
  intros R' Hl. exists gh. split; [|done]. eapply core_keep; [exact HC| |by left|done].
  by eapply history_later; [|apply unmoved_none|apply HC].
Qed.

(** A step in which [p] votes. *)
Lemma voted_grants p rf' vs (l : list task) app :
  sim n (mkNet (<[p := rf']> (peers s)) vs l app) b' → votedFor rf' ≠ -1 →
  BL.b_grants b' = {[(p, currentTerm rf', votedFor rf')]} ∪ BL.b_grants b.
Proof.
  intros R' Hv. assert (reached b') as Hb' by (etrans; [exact Hb|apply Hm]).
  apply (BL.bmove_vote n b b' p (proj rf')); [by apply reached_inv|by apply reached_inv|done| |done|].
  - apply (sim_peer n _ _ _ _ R'). simpl. by rewrite lookup_insert_eq.
  - intros q y Hne Hq. destruct (sim_lookup _ b' q y R' Hq) as (rq & Hq' & ->). simpl in Hq'.
    rewrite lookup_insert_ne in Hq' by done. eapply same_vote_keeps; [done|done|by right].
Qed.

Lemma core_tick p rf vs (l : list task) app :
  sim n (mkNet (<[p := becomeCandidateLocked rf]> (peers s)) vs l app) b' →
  peers s !! p = Some rf → role rf ≠ Leader → (∀ tk, tk ∈ l → tk ∈ tasks s ∨ task_safe gh tk) →
  ∃ gh', core (mkNet (<[p := becomeCandidateLocked rf]> (peers s)) vs l app) b' gh' ∧ grows gh gh'.
Proof.
  intros R' Hp Hr Hl. destruct (cr_peer _ _ _ HC p rf Hp) as [F HF].
  destruct (becomeCandidate_spec rf Hr) as (_ & _ & Hv & _). destruct (si_peer _ _ _ R p rf Hp) as [Hme _ Hrange _].
  destruct (stand_step gh _ _ (cr_hist _ _ _ HC) p rf F HF Hr) as (HH & HG & HS). eexists. split; [|exact HG].
  pose proof (voted_grants p _ _ _ _ R') as Hgr. rewrite Hv, Hme in Hgr.
  eapply (core_intro s b gh b' _ p); [done|done|apply only_cand| | |].
  - rewrite Hgr by lia. eapply history_leaders; [exact HH|apply leaders_grow].
  - intros q rq [[<- <-]|[Hne ?]]%lookup_insert_Some; [right; eauto|by left].
  - intros tk [?|?]%Hl; [by left|right]. by eapply task_safe_mono.
Qed.

Lemma request_range p t q args o : TVoteReq p t q args o ∈ tasks s → 0 ≤ p < n.
Proof.
  intros Hin. assert (BL.BReq p t q ∈ BL.b_calls b) as Hc.
  { destruct (si_shows _ _ _ R) as (_ & _ & ->). apply list_elem_of_omap. by eexists. }
  destruct (BL.bi_call n b (reached_inv b Hb) _ Hc) as (_ & _ & x & Hx & _).
  apply (BL.bp_range _ _ _ _ _ (BL.bi_peer n b (reached_inv b Hb) p x Hx)).
Qed.

Lemma core_vote p t q args o e rf vs (l : list task) app :
  sim n (mkNet (<[q := (RequestVote e args rf).1]> (peers s)) vs l app) b' →
  TVoteReq p t q args o ∈ tasks s → peers s !! q = Some rf → (∀ tk, tk ∈ l → tk ∈ tasks s ∨ task_safe gh tk) →
  ∃ gh', core (mkNet (<[q := (RequestVote e args rf).1]> (peers s)) vs l app) b' gh' ∧ grows gh gh'.
Proof.
  intros R' Htk Hq Hl. destruct (cr_peer _ _ _ HC q rf Hq) as [F HF]. pose proof (vote_sound gh q e args rf F HF) as HS.
  pose proof (cr_task _ _ _ HC _ Htk) as HM. destruct (si_task _ _ _ R _ Htk) as [Ht Hc]. simpl in HM. rewrite <-Ht, <-Hc in HM.
  pose proof (vote_granted gh _ _ (cr_hist _ _ _ HC) q e args rf F HF HM) as HV.
  destruct (RequestVote e args rf) as [rf' reply] eqn:E. simpl in *.
  apply RequestVote_cases in E as [[_ Hqu]|(Hg & _ & _ & _ & Ht' & Hv' & _)].
  { exists gh. eapply core_acks; [done|done|done|by left|apply HC|eauto|done]. }
  exists gh. split; [|done]. pose proof (voted_grants q rf' vs l app R') as Hgr. rewrite Ht', Hv', Hc, Ht in Hgr.
  pose proof (request_range _ _ _ _ _ Htk). eapply core_keep; [exact HC| | |done].
  - rewrite Hgr by lia. rewrite <-Ht, <-Hc at 1. eapply history_leaders; [by apply HV|apply leaders_grow].
  - intros r rq [[<- <-]|[_ ?]]%lookup_insert_Some; [right; eauto|by left].
Qed.

(** A candidate has not led its term before. *)
Lemma candidate_unborn p rf :
  peers s !! p = Some rf → role rf = Candidate → (currentTerm rf, p) ∈ BL.b_leaders b' → g_born gh !! currentTerm rf = None.
Proof.
  intros Hp Hr Hin. apply eq_None_not_Some. intros [E HE].
  destruct (hi_born _ _ _ _ (cr_hist _ _ _ HC) _ _ HE) as (q & _ & Hq & _).
  assert (p = q) as <-.
  { apply (BL.bleaders_unique n (terms0 n) b' (currentTerm rf)); [apply terms0_dom|etrans; [exact Hb|apply Hm]|done|].
    by apply leaders_grow. }
  destruct (BL.once_steps n _ _ (BL.bfresh_once _) Hb p _ (sim_peer n s b p rf R Hp)) as [_ Hc]. by apply Hc.
Qed.

Lemma core_win p t reply v rf rf' v' won vs (l : list task) app :
  sim n (mkNet (<[p := rf']> (peers s)) vs l app) b' → peers s !! p = Some rf →
  askVoteFromPeer t true reply v rf = Some (rf', v', won) → role rf = Candidate → role rf' = Leader →
  currentTerm rf' = currentTerm rf → votedFor rf' = votedFor rf → (∀ tk, tk ∈ l → tk ∈ tasks s ∨ task_safe gh tk) →
  ∃ gh', core (mkNet (<[p := rf']> (peers s)) vs l app) b' gh' ∧ grows gh gh'.
Proof.
  intros R' Hp E Hr Hr' Ht Hv Hl. destruct (cr_peer _ _ _ HC p rf Hp) as [F HF].
  assert (reached b') as Hb' by (etrans; [exact Hb|apply Hm]).
  assert (Hin : (currentTerm rf, p) ∈ BL.b_leaders b').
  { rewrite <-Ht. eapply (leader_recorded n _ b' p rf' Hb' R'); [simpl; by rewrite lookup_insert_eq|done]. }
  pose proof (candidate_unborn p rf Hp Hr Hin) as Hn. destruct (reached_quorum b' _ _ Hb' Hin) as (Q & HQ & HgQ).
  assert (HH : history n gh (BL.b_grants b') (BL.b_leaders b')).
  { eapply history_later; [done|eapply unmoved_peer; [done|by right]|apply HC]. }
  destruct (win_step gh _ _ HH p t reply v rf rf' v' won F Q) as (HH' & HG & HS); try done.
  { destruct (si_peer _ _ _ R p rf Hp) as [_ _ _ [_ _ _ Hm']]. lia. }
  eexists. split; [|exact HG]. eapply (core_intro s b gh b' _ p); [done|done|exact (only_refl p gh)|done| |].
  - intros q rq [[<- <-]|[Hne Hq]]%lookup_insert_Some; [right; eauto|left]. split_and!; [done|done|]. intros Hlq. simpl.
    rewrite lookup_insert_ne; [done|]. intros Eq. destruct (cr_peer _ _ _ HC q rq Hq) as [Fq HFq].
    pose proof (so_lead _ _ _ _ _ _ _ HFq Hlq) as HLq. simpl in HLq. rewrite <-Eq in HLq.
    destruct (proj1 (hi_grown _ _ _ _ HH _) (mk_is_Some _ _ HLq)). congruence.
  - intros tk [?|?]%Hl; [by left|right]. by eapply task_safe_mono.
Qed.

Lemma core_start p cmd rf :
  sim n (set_peer p (Start cmd rf).1 s) b' → peers s !! p = Some rf →
  ∃ gh', core (set_peer p (Start cmd rf).1 s) b' gh' ∧ grows gh gh'.
Proof.
  intros R' Hp. destruct (decide (role rf = Leader)) as [Hr|Hr]; cycle 1.
  { assert ((Start cmd rf).1 = rf) as Es by (unfold Start; by rewrite decide_True).
    eapply core_peer; [done|done|apply quiet_start|by rewrite Es|by left]. }
  destruct (cr_peer _ _ _ HC p rf Hp) as [F HF].
  assert (HH : history n gh (BL.b_grants b') (BL.b_leaders b')).
  { eapply history_later; [done|eapply unmoved_peer; [done|]; apply quiet_keeps_vote, quiet_start|apply HC]. }
  destruct (start_step gh _ _ HH p rf F cmd HF Hr) as (HH' & HG & HS).
  eexists. split; [|exact HG]. eapply (core_intro s b gh b' _ p); [done|done|exact (only_refl p gh)|done| |by left].
  intros q rq [[<- <-]|[Hne Hq]]%lookup_insert_Some; [right; eauto|left]. split_and!; [done|done|]. intros Hlq. simpl.
  rewrite lookup_insert_ne; [done|]. intros Eq. apply Hne.
  apply (BL.bleaders_unique n (terms0 n) b (currentTerm rf)); [apply terms0_dom|done|by eapply leader_recorded|].
  rewrite Eq. by eapply leader_recorded.
Qed.

(** Tasks left behind. *)
Lemma left_safe gh' k new tk :
  (∀ tk, tk ∈ new → task_safe gh' tk) → tk ∈ delete k (tasks s) ++ new → tk ∈ tasks s ∨ task_safe gh' tk.
Proof. intros Hn [?%list_elem_of_delete_inv|?]%elem_of_app; eauto. Qed.
End stepping.

Lemma on_crash_safe gh c tk tk' : on_crash c tk = Some tk' → task_safe gh tk → task_safe gh tk'.
Proof. intros E H. destruct tk; simpl in E; try destruct (_ =? _); by simplify_eq. Qed.

(** ** Every step *)

Lemma vote_reply_three t reply v rf rf' v' won :
  askVoteFromPeer t true reply v rf = Some (rf', v', won) →
  (∃ u, rf' = becomeFollowerLocked u rf) ∨ rf' = rf ∨
  (role rf = Candidate ∧ role rf' = Leader ∧ currentTerm rf' = currentTerm rf ∧ votedFor rf' = votedFor rf).
Proof.
  intros E. unfold askVoteFromPeer in E. cbn [negb] in E. case_match; [simplify_eq; left; eauto|].
  case_match; [simplify_eq; by right; left|]. case_match; [|simplify_eq; by right; left].
  case_match; [|simplify_eq; by right; left]. apply bind_Some in E as (rf1 & E1 & E). simplify_eq.
  apply becomeLeader_spec in E1 as [[_ ->]|(Hr & ni & mi & -> & _)]; [by right; left|by right; right].
Qed.

Lemma safe_none gh (l : list task) :
  (∀ tk, tk ∈ l → match tk with TElect _ _ | TVoteRep _ _ _ _ | TRepl _ _ | TSend _ _ | TFinish _ _ => True | _ => False end) →
  ∀ tk, tk ∈ l → task_safe gh tk.
Proof. intros H tk Htk. specialize (H tk Htk). by destruct tk. Qed.

Lemma run_core s b gh b' k tk e s' :
  reached b → BL.bmove n b b' → sim n s b → sim n s' b' → core s b gh → tasks s !! k = Some tk → orderly (ERun k e) s →
  run_task e tk (set_tasks (delete k (tasks s)) s) = Some s' → ∃ gh', core s' b' gh' ∧ grows gh gh'.
Proof.
  intros Hb Hm R R' HC Hk [HBi HBa] E. pose proof (list_elem_of_lookup_2 _ _ _ Hk) as Htk. pose proof (cr_task _ _ _ HC _ Htk) as HT.
  pose proof (core_idle s b gh b' Hb Hm R HC) as TI. pose proof (core_peer s b gh b' Hb Hm R HC) as TP.
  pose proof (core_acks s b gh b' Hb Hm R HC) as TA.
  assert (T0 : sim n (set_tasks (delete k (tasks s)) s) b' → ∃ gh', core (set_tasks (delete k (tasks s)) s) b' gh' ∧ grows gh gh').
  { intros R0. apply TI; [done|]. intros x Hx%list_elem_of_delete_inv. by left. }
  destruct tk as [p t|p t q args o|p t q reply|p t|p t q args o|p t q args reply|p t q args o
                 |p t q args reply|p work|p work]; simpl in E; apply bind_Some in E as (rf & Hp & E).
  - destruct (startElection t rf) as [[v cs]|] eqn:Es; simplify_eq; [|by apply T0].
    apply TI; [done|]. intros x. apply left_safe. intros y ([q args] & -> & Hin)%list_elem_of_fmap.
    destruct (startElection_last t rf v cs Es) as (<- & Hr & Hlast). destruct (cr_peer _ _ _ HC p rf Hp) as [F HF].
    by eapply (send_vote n gh p (view_of rf)), Hlast.
  - destruct (RequestVote e args rf) as [rf' reply] eqn:Er. injection E as <-.
    pose proof (core_vote s b gh b' Hb Hm R HC p t q args o e rf) as Hv. rewrite Er in Hv. apply Hv; [done..|].
    intros x. apply left_safe, safe_none. intros y. destruct o; [set_solver|]. by intros ->%list_elem_of_singleton.
  - apply bind_Some in E as (rf0 & Hp' & E). apply bind_Some in E as ([[rf' v'] won] & Ea & E). injection E as <-.
    assert (Hl : ∀ x, x ∈ delete k (tasks s) ++ (if won then [TRepl p t] else []) → x ∈ tasks s ∨ task_safe gh x).
    { intros x. apply left_safe, safe_none. intros y. destruct won; [|set_solver]. by intros ->%list_elem_of_singleton. }
    destruct (vote_reply_three _ _ _ _ _ _ _ Ea) as [(u & ->)|[->|(? & ? & ? & ?)]].
    + eapply TP; [done|done|apply quiet_becomeFollower|intros; by apply psound_follower|done].
    + eapply TP; [done|done|apply quiet_refl|done|done].
    + by eapply (core_win s b gh b').
  - destruct (killed rf); simplify_eq; [by apply T0|].
    apply bind_Some in E as ([[rf' cs] ok] & Es & E). injection E as <-.
    destruct (cr_peer _ _ _ HC p rf Hp) as [F HF]. destruct (si_peer _ _ _ R p rf Hp) as [Hme _ _ _].
    destruct (repl_step gh _ _ (cr_hist _ _ _ HC) p t rf rf' cs ok F Es HF Hme) as (gh' & Ha & HH & HS & Hcs).
    { intros u c. by eapply grants_bound. }
    exists gh'. eapply TA; [done|done|eapply quiet_reindexed, startReplication_spec; done|done|done|eauto|].
    intros x. apply left_safe. intros y [(c & -> & Hin)%list_elem_of_fmap|Hy]%elem_of_app; [by apply Hcs|].
    destruct ok; [|set_solver]. by apply list_elem_of_singleton in Hy as ->.
  - apply bind_Some in E as ([rf' reply] & Ea & E). injection E as <-. destruct (cr_peer _ _ _ HC q rf Hp) as [F HF].
    destruct HT as [Ht HM]. subst t. destruct (append_step gh _ _ (cr_hist _ _ _ HC) q e args rf rf' reply F Ea HF)
      as (gh' & F' & Ha & HH & HS & Hack); [intros u c; by eapply grants_bound|done|by eapply HBa|].
    exists gh'. eapply TA; [done|done|by eapply quiet_append|done|done|eauto|].
    intros x. apply left_safe. intros y. destruct o; [set_solver|]. by intros ->%list_elem_of_singleton.
  - apply bind_Some in E as (rf' & Ea & E). injection E as <-. destruct (si_peer _ _ _ R p rf Hp) as [_ Hn Hrange Hi].
    eapply TP; [done|done|by eapply quiet_append_reply| |].
    + intros F HF. eapply append_reply_step; [apply HC|done|done|done|done|lia|by eapply reached_positive|done].
    + intros x Hx%list_elem_of_delete_inv. by left.
  - apply bind_Some in E as ([rf' reply] & Ea & E). injection E as <-. destruct (cr_peer _ _ _ HC q rf Hp) as [F HF].
    destruct HT as [Ht HM]. subst t. destruct (install_step gh _ _ (cr_hist _ _ _ HC) q args rf rf' reply F Ea HF)
      as (gh' & F' & Ha & HH & HS & Hack); [intros u c; by eapply grants_bound|done|by eapply HBi|].
    exists gh'. eapply TA; [done|done|by eapply quiet_install|done|done|eauto|].
    intros x. apply left_safe. intros y. destruct o; [set_solver|]. by intros ->%list_elem_of_singleton.
  - apply bind_Some in E as (rf' & Ea & E). injection E as <-.
    eapply TP; [done|done|by eapply quiet_install_reply| |].
    + intros F HF. by eapply install_reply_step.
    + intros x Hx%list_elem_of_delete_inv. by left.
  - injection E as <-. apply TI; [done|]. intros x. apply left_safe, safe_none.
    by intros y ->%list_elem_of_singleton.
  - injection E as <-. eapply TP; [done|done|apply quiet_finish|intros; by apply finish_step|].
    intros x Hx%list_elem_of_delete_inv. by left.
Qed.

Lemma step_core s b gh ev s' :
  reached b → sim n s b → core s b gh → step ev s = Some s' → orderly ev s →
  ∃ b' gh', reached b' ∧ sim n s' b' ∧ core s' b' gh' ∧ grows gh gh'.
Proof.
  intros Hb R HC E HB. destruct (step_refines n s b ev s' R E) as (b' & Hm & R').
  exists b'. cut (∃ gh', core s' b' gh' ∧ grows gh gh').
  { intros (gh' & ? & ?). exists gh'. split_and!; [etrans; [exact Hb|apply Hm]|done..]. }
  pose proof (core_peer s b gh b' Hb Hm R HC) as TP.
  assert (C : ∀ p rf ap, peers s !! p = Some rf → sim n (crashed p rf (mkNet (peers s) (votes s) (tasks s) ap)) b' →
    ∃ gh', core (crashed p rf (mkNet (peers s) (votes s) (tasks s) ap)) b' gh' ∧ grows gh gh').
  { intros p rf ap Hp Hsim. destruct (si_peer _ _ _ R p rf Hp) as [_ _ _ Hi].
    eapply TP; [done|done|apply quiet_restart, Hi|intros F HF; by apply restart_step, Hi|].
    intros tk' (tk & Htk & Eo)%list_elem_of_omap. right. eapply on_crash_safe; [done|]. by apply HC. }
  destruct ev as [p e|k e|k|k es|p cmd|p i snap|p|p|p|p|k j]; simpl in E; apply bind_Some in E as (x & Hx & E).
  - destruct (killed x); [done|]. unfold electionTicker in E. destruct (_ && _) eqn:Ec.
    + apply andb_true_iff in Ec as [Hr%bool_decide_eq_true _]. injection E as <-.
      eapply (core_tick s b gh b'); [done..|]. by intros tk [?| ->%list_elem_of_singleton]%elem_of_app; [left|right].
    + injection E as <-. eapply (TP p x x); [done|done|apply quiet_refl|done|]. simpl. rewrite app_nil_r. by left.
  - by eapply run_core.
  - destruct (lossy x); simplify_eq. eapply (core_idle s b gh b'); [done..|]. intros y Hy%list_elem_of_delete_inv. by left.
  - apply bind_Some in E as (tk & Ho & E). injection E as <-.
    apply (intact_same _ _ _ _ _ (proj2 (proj1 HB)) Hx) in Ho as ->. eapply (core_idle s b gh b'); [done..|].
    intros y [Hy%list_elem_of_delete_inv| ->%list_elem_of_singleton]%elem_of_app; left; [done|by eapply list_elem_of_lookup_2].
  - injection E as <-. by eapply (core_start s b gh b').
  - apply bind_Some in E as (rf' & Es & E). injection E as <-.
    eapply TP; [done|done|by eapply quiet_snapshot|intros F; by eapply snapshot_step|by left].
  - destruct (killed x || _); [done|]. destruct (applyCond x); simplify_eq.
    eapply (TP p x (app_wait x)); [done|done|apply (quiet_refl x)|done|by left].
  - destruct (applyCond x); simplify_eq. apply bind_Some in E as ([rf' work] & Es & E). injection E as <-.
    eapply TP; [done|done|by eapply quiet_prepare|intros F; by eapply prepare_step|].
    by intros tk [?| ->%list_elem_of_singleton]%elem_of_app; [left|right].
  - injection E as <-. eapply (TP p x (Kill x)); [done|done|apply (quiet_refl x)|done|by left].
  - injection E as <-. by apply (C p x (applied s)).
  - apply bind_Some in E as ([p work] & _ & E). apply bind_Some in E as (rf & Hp & E). injection E as <-. by apply C.
Qed.

Lemma init_core : core (init n) (BL.bfresh (terms0 n)) no_history.
Proof.
  split; simpl; [apply history_init| |set_solver]. intros p rf Hp. apply (init_peers n p rf) in Hp as [_ ->].
  exists [root]. apply (sound_init n p).
Qed.

End invariant.
End safety.
