(* ===== verification/RaftDelivery.v ===== *)
(** State Machine Safety and Leader Completeness for the cluster of [raft.go] peers.

    [RaftSafety] keeps the history of a network along its steps; [delivery] adds the
    application ticker: there is one per peer, and what it is about to send and what
    it has sent stands in a committed log. *)

From S2P Require Import Prelude Gob RaftLog Raft RaftFacts RaftSpec Matching Voting Ballot RaftNet RaftElection Completeness RaftMatching RaftSafety.
Import RF Net LM LC.

#[local] Open Scope Z_scope.

Section delivery.
Context {Cmd SB : Type}.
Abbreviation Raft := (RF.Raft Cmd SB).
Abbreviation net := (Net.net Cmd SB).
Abbreviation task := (Net.task Cmd SB).
Implicit Types (rf : Raft) (s : net) (tk : task) (b : BL.ballot) (n p q t : Z).
Implicit Types (F L P : list (LogEntry Cmd)) (gh : ghost Cmd).

Section applied.
Context (n : Z).

(** ** What is applied *)

(** The entry [e] stands at index [i] of a committed log. *)
Definition ratified gh (i : Z) (e : LogEntry Cmd) : Prop :=
  ∃ T X, committed n gh T X ∧ X !! Z.to_nat i = Some e.

Lemma ratified_mono gh gh' i e : grows gh gh' → ratified gh i e → ratified gh' i e.
Proof. intros HG (T & X & HX & He). exists T, X. split; [|done]. by eapply committed_mono. Qed.

Lemma ratified_agree gh gr ls i e f : history n gh gr ls → ratified gh i e → ratified gh i f → e = f.
Proof. intros H (T & X & HX & He) (U & Y & HY & Hf). by eapply (committed_agree n gh gr ls H T U X Y). Qed.

(** What the application ticker of [p] is busy with. *)
Definition ticking p (l : list task) : list task := filter (λ tk, applying p tk = true) l.

(** There is one ticker: it waits, it is about to be woken, or it is busy with one
    batch. *)
Definition one_ticker p rf (l : list task) : Prop :=
  (length (ticking p l) + (if decide (applyCond rf = CIdle) then 0 else 1) ≤ 1)%nat.

Record delivery s gh : Prop := {
  dl_one : ∀ p rf, peers s !! p = Some rf → one_ticker p rf (tasks s);
  dl_work : ∀ p rf es i e, peers s !! p = Some rf → TSend p (es, false) ∈ tasks s → es !! i = Some e →
    ratified gh (lastApplied rf + 1 + Z.of_nat i) e;
  dl_sent : ∀ p ms m, applied s !! p = Some ms → m ∈ ms → am_CommandValid m = true →
    ∃ e, ratified gh (am_CommandIndex m) e ∧ le_Command e = am_Command m
}.

(** A step the ticker of a peer does not notice. *)
Definition unnoticed rf rf' : Prop :=
  lastApplied rf' = lastApplied rf ∧ (applyCond rf' = CIdle ↔ applyCond rf = CIdle).

Lemma ticking_in p es (l : list task) : TSend p (es, false) ∈ l ↔ TSend p (es, false) ∈ ticking p l.
Proof. unfold ticking. rewrite list_elem_of_filter. simpl. rewrite Z.eqb_refl. naive_solver. Qed.

Lemma ticking_app p (l1 l2 : list task) : ticking p (l1 ++ l2) = ticking p l1 ++ ticking p l2.
Proof. apply list.filter_app. Qed.

Lemma ticking_none p (l : list task) : (∀ tk, tk ∈ l → applying p tk = false) → ticking p l = [].
Proof. intros H. apply elem_of_nil_inv. intros tk [Ha Hin]%list_elem_of_filter. rewrite H in Ha; done. Qed.

Lemma ticking_delete p (l : list task) k tk :
  l !! k = Some tk → ticking p l ≡ₚ (if applying p tk then [tk] else []) ++ ticking p (delete k l).
Proof.
  intros Hk. unfold ticking. rewrite (delete_Permutation l k tk Hk) at 1. rewrite filter_cons.
  destruct (applying p tk); [by rewrite decide_True|by rewrite decide_False].
Qed.

Lemma ticking_sub p (l : list task) k tk : l !! k = Some tk → ticking p (delete k l) ⊆+ ticking p l.
Proof. intros Hk. rewrite (ticking_delete p l k tk Hk). by apply submseteq_inserts_l. Qed.

Lemma one_ticker_sub p rf rf' (l l' : list task) :
  one_ticker p rf l → unnoticed rf rf' → ticking p l' ⊆+ ticking p l → one_ticker p rf' l'.
Proof.
  intros H [_ Hi] Hl%submseteq_length. unfold one_ticker in *. repeat case_decide; tauto || lia.
Qed.

Lemma delivery_calm s gh gh' ps vs (l : list task) :
  delivery s gh → grows gh gh' →
  (∀ q rq, ps !! q = Some rq → ticking q l = [] ∨
     ∃ rq0, peers s !! q = Some rq0 ∧ unnoticed rq0 rq ∧ ticking q l ⊆+ ticking q (tasks s)) →
  delivery (mkNet ps vs l (applied s)) gh'.
Proof.
  intros [H1 H2 H3] HG Hps. split; simpl.
  - intros q rq Hq. destruct (Hps q rq Hq) as [E|(rq0 & Hq0 & Hu & Hl)]; [|by eapply one_ticker_sub; [apply H1| |]].
    unfold one_ticker. rewrite E. simpl. case_decide; lia.
  - intros q rq es i e Hq Hin%ticking_in He. destruct (Hps q rq Hq) as [E|(rq0 & Hq0 & [-> _] & Hl)].
    { rewrite E in Hin. set_solver. }
    eapply ratified_mono, H2; [done|done| |done]. apply ticking_in. by eapply elem_of_submseteq.
  - intros q ms m Hq Hm Hv. destruct (H3 q ms m Hq Hm Hv) as (e & ? & ?). exists e. eauto using ratified_mono.
Qed.

(** A step of [p] that its ticker does not notice, with tasks that are none of its. *)
Lemma delivery_step s gh gh' p rf rf' vs (l new : list task) :
  delivery s gh → grows gh gh' → peers s !! p = Some rf → unnoticed rf rf' →
  (∀ q, ticking q l ⊆+ ticking q (tasks s)) → (∀ tk q, tk ∈ new → applying q tk = false) →
  delivery (mkNet (<[p := rf']> (peers s)) vs (l ++ new) (applied s)) gh'.
Proof.
  intros HD HG Hp Hu Hl Hn. eapply delivery_calm; [done|done|]. intros q rq Hq. right.
  rewrite ticking_app, (ticking_none q new), app_nil_r by eauto.
  apply lookup_insert_Some in Hq as [[<- <-]|[_ ?]]; [by exists rf|]. exists rq. split_and!; [done|by split|done].
Qed.

Lemma delivery_idle s gh gh' vs (l new : list task) :
  delivery s gh → grows gh gh' → (∀ q, ticking q l ⊆+ ticking q (tasks s)) → (∀ tk q, tk ∈ new → applying q tk = false) →
  delivery (mkNet (peers s) vs (l ++ new) (applied s)) gh'.
Proof.
  intros HD HG Hl Hn. eapply delivery_calm; [done|done|]. intros q rq Hq. right.
  rewrite ticking_app, (ticking_none q new), app_nil_r by eauto. exists rq. split_and!; [done|by split|done].
Qed.

(** The ticker sends a batch. *)
Lemma delivery_send s gh gh' p rf work k vs :
  delivery s gh → grows gh gh' → peers s !! p = Some rf → tasks s !! k = Some (TSend p work) →
  delivery (mkNet (peers s) vs (delete k (tasks s) ++ [TFinish p work])
    (<[p := default [] (applied s !! p) ++ app_send work rf]> (applied s))) gh'.
Proof.
  intros [H1 H2 H3] HG Hp Hk. pose proof (list_elem_of_lookup_2 _ _ _ Hk) as Htk. split; simpl.
  - intros q rq Hq. specialize (H1 q rq Hq). unfold one_ticker in *. rewrite (ticking_delete q _ _ _ Hk) in H1. simpl in H1.
    rewrite ticking_app. unfold ticking at 2. rewrite filter_cons, filter_nil. simpl.
    destruct (p =? q); [rewrite decide_True by done|rewrite decide_False by done]; rewrite length_app in *; simpl in *; lia.
  - intros q rq es i e Hq [Hin%list_elem_of_delete_inv|Hin]%elem_of_app He; [|set_solver]. by eapply ratified_mono, H2.
  - intros q ms m [[<- <-]|[_ Hq]]%lookup_insert_Some Hm Hv.
    2: { destruct (H3 q ms m Hq Hm Hv) as (e & ? & ?). exists e. eauto using ratified_mono. }
    apply elem_of_app in Hm as [Hm|Hm].
    { destruct (applied s !! p) as [ms|] eqn:Ea; [|set_solver]. destruct (H3 p ms m Ea Hm Hv) as (e & ? & ?).
      exists e. eauto using ratified_mono. }
    destruct work as [es []]; simpl in Hm; [set_solver|].
    apply list_elem_of_lookup in Hm as [i Hi]. rewrite list_lookup_imap in Hi. apply fmap_Some in Hi as (e & He & ->).
    simpl. exists e. split; [|done]. by eapply ratified_mono, H2.
Qed.

(** The ticker prepares a batch. *)

Lemma app_collect_inv (l : RL.RaftLog Cmd SB) i m es :
  app_collect l i m = Some es → length es = m ∧ ∀ k e, es !! k = Some e → RL.at_ l (i + Z.of_nat k) = Some e.
Proof.
  revert i es. induction m as [|m IH]; intros i es E; simpl in E; [by simplify_eq|].
  apply bind_Some in E as (e & Ee & E). apply bind_Some in E as (es' & Es & E). injection E as <-.
  destruct (IH _ _ Es) as [Hl Hat]. split; [simpl; lia|]. intros [|k] f Hk; simpl in Hk.
  - simplify_eq. by rewrite Z.add_0_r.
  - rewrite <-(Hat k f Hk). f_equal. lia.
Qed.

Lemma prepare_ratified gh p rf rf' es F i e :
  app_prepare rf = Some (rf', (es, false)) → psound n gh p rf F → es !! i = Some e →
  ratified gh (lastApplied rf' + 1 + Z.of_nat i) e.
Proof.
  intros E HS He. unfold app_prepare in E. destruct (negb (snapPending (set_applyCond CIdle rf))); [|done].
  set (rf1 := if _ : bool then _ else _) in E.
  assert (log rf1 = log rf ∧ commitIndex rf1 = commitIndex rf ∧ RL.snapLastIdx (log rf) ≤ lastApplied rf1) as (Hl & Hc & Hla).
  { unfold rf1. destruct (_ <? _) eqn:Elt; simpl in *; split_and!; (done || lia). }
  apply bind_Some in E as (es' & Es & E). injection E as <- ->. clearbody rf1. rewrite Hl, Hc in Es.
  destruct (app_collect_inv _ _ _ _ Es) as [Hlen Hat]. pose proof (lookup_lt_Some _ _ _ He) as Hi.
  specialize (Hat i e He). pose proof (so_rep _ _ _ _ _ _ _ HS) as HR. pose proof (RL.wf_idx _ (rp_wf _ _ HR)) as H0. simpl in H0.
  assert (Hle : lastApplied rf1 + 1 + Z.of_nat i ≤ commitIndex rf).
  { destruct (RL.size (log rf) <=? commitIndex rf) eqn:Esz; lia. }
  exists (currentTerm rf), (take (S (Z.to_nat (known rf))) F). split; [apply HS|].
  rewrite lookup_take_lt by (unfold known; lia). rewrite <-(rp_at _ _ HR) by (simpl; lia). exact Hat.
Qed.

Lemma delivery_prepare s gh gh' p rf rf' work F vs :
  delivery s gh → grows gh gh' → peers s !! p = Some rf → applyCond rf = CWoken →
  app_prepare rf = Some (rf', work) → psound n gh p rf F →
  delivery (mkNet (<[p := rf']> (peers s)) vs (tasks s ++ [TSend p work]) (applied s)) gh'.
Proof.
  intros [H1 H2 H3] HG Hp Hw E HS.
  assert (Hnone : ticking p (tasks s) = []).
  { specialize (H1 p rf Hp). unfold one_ticker in H1. rewrite decide_False in H1 by congruence. apply nil_length_inv. lia. }
  assert (Hidle : applyCond rf' = CIdle) by (unfold app_prepare in E; repeat case_match; simplify_option_eq; done).
  assert (Hnew : ∀ q, ticking q [TSend p work] = if p =? q then [TSend p work] else []).
  { intros q. unfold ticking. rewrite filter_cons, filter_nil. simpl.
    destruct (p =? q); [by rewrite decide_True|by rewrite decide_False]. }
  split; simpl.
  - intros q rq Hq. unfold one_ticker. rewrite ticking_app, Hnew, length_app.
    apply lookup_insert_Some in Hq as [[<- <-]|[Hne Hq]].
    + rewrite Hnone, Z.eqb_refl, decide_True by done. simpl. lia.
    + destruct (Z.eqb_spec p q); [done|]. specialize (H1 q rq Hq). unfold one_ticker in H1. simpl. lia.
  - intros q rq es i e Hq Hin He. apply lookup_insert_Some in Hq as [[<- <-]|[Hne Hq]].
    + apply ticking_in in Hin. rewrite ticking_app, Hnone, Hnew, Z.eqb_refl in Hin.
      apply list_elem_of_singleton in Hin as [= <-]. eapply ratified_mono; [exact HG|]. by eapply prepare_ratified.
    + apply elem_of_app in Hin as [Hin|[= <-]%list_elem_of_singleton]; [|done]. by eapply ratified_mono, H2.
  - intros q ms m Hq Hm Hv. destruct (H3 q ms m Hq Hm Hv) as (e & ? & ?). exists e. eauto using ratified_mono.
Qed.

(** ** What the ticker does not notice *)

Lemma unnoticed_refl rf : unnoticed rf rf.
Proof. by split. Qed.

Lemma unnoticed_trans rf1 rf2 rf3 : unnoticed rf1 rf2 → unnoticed rf2 rf3 → unnoticed rf1 rf3.
Proof. intros [? ?] [? ?]. split; [congruence|tauto]. Qed.

Lemma unnoticed_follower t rf : unnoticed rf (becomeFollowerLocked t rf).
Proof. unfold becomeFollowerLocked. repeat case_match; by split. Qed.

Lemma unnoticed_signal rf : unnoticed rf (signalApply rf).
Proof. split; [done|]. simpl. by destruct (applyCond rf). Qed.

Lemma unnoticed_reindexed rf rf' : reindexed rf rf' → unnoticed rf rf'.
Proof. intros (ni & mi & -> & _). by split. Qed.

Lemma unnoticed_vote e args rf : unnoticed rf (RequestVote e args rf).1.
Proof.
  unfold RequestVote. case_match; [apply unnoticed_refl|]. set (rf1 := if _ : bool then _ else rf).
  assert (unnoticed rf rf1) as Hu by (unfold rf1; case_match; [apply unnoticed_follower|apply unnoticed_refl]).
  clearbody rf1. repeat case_match; exact Hu.
Qed.

Lemma unnoticed_append e args rf rf' reply : AppendEntries e args rf = Some (rf', reply) → unnoticed rf rf'.
Proof.
  intros [(_ & -> & _)|(_ & [(_ & ->)|(_ & l & _ & _ & ->)])]%AppendEntries_cases; [apply unnoticed_refl|..].
  - apply (unnoticed_follower (ae_Term args) rf).
  - eapply unnoticed_trans; [apply (unnoticed_follower (ae_Term args) rf)|].
    destruct (_ <? _); [|by split]. apply (unnoticed_signal (becomeFollowerLocked (ae_Term args) rf)).
Qed.

Lemma unnoticed_install args rf rf' reply : InstallSnapshot args rf = Some (rf', reply) → unnoticed rf rf'.
Proof.
  intros [(_ & ->)|(_ & [(_ & ->)|(l & _ & _ & ->)])]%InstallSnapshot_cases; [apply unnoticed_refl|..].
  - apply unnoticed_follower.
  - eapply unnoticed_trans; [apply (unnoticed_follower (is_Term args) rf)|].
    apply (unnoticed_signal (becomeFollowerLocked (is_Term args) rf)).
Qed.

Lemma unnoticed_append_reply t q args reply rf rf' :
  replicateToPeer t q args true reply rf = Some rf' → unnoticed rf rf'.
Proof.
  intros [(u & _ & ->)|[Hr|(rf1 & m & Hr & _ & ->)]]%replicateToPeer_spec.
  - apply unnoticed_follower.
  - by apply unnoticed_reindexed.
  - eapply unnoticed_trans; [by apply unnoticed_reindexed|]. apply (unnoticed_signal rf1).
Qed.

Lemma unnoticed_install_reply t q args reply rf rf' :
  installToPeer q t args true reply rf = Some rf' → unnoticed rf rf'.
Proof.
  intros [(u & _ & ->)|Hr]%installToPeer_spec; [apply unnoticed_follower|by apply unnoticed_reindexed].
Qed.

Lemma unnoticed_vote_reply t reply v rf rf' v' won :
  askVoteFromPeer t true reply v rf = Some (rf', v', won) → unnoticed rf rf'.
Proof.
  intros E. unfold askVoteFromPeer in E.
  repeat (case_match; simplify_option_eq; try apply unnoticed_refl); [apply unnoticed_follower|].
  match goal with H : becomeLeaderLocked _ = _ |- _ => apply becomeLeader_spec in H as [[_ ->]|(_ & Hr)] end; [apply unnoticed_refl|].
  eapply unnoticed_trans; [|by apply unnoticed_reindexed]. by split.
Qed.

Lemma unnoticed_tick e rf : unnoticed rf (electionTicker e rf).1.
Proof. unfold electionTicker, becomeCandidateLocked. repeat case_match; simplify_eq/=; by split. Qed.

Lemma unnoticed_start cmd rf : unnoticed rf (Start cmd rf).1.
Proof. unfold Start. case_decide; by split. Qed.

Lemma unnoticed_snapshot index snap rf rf' : Snapshot index snap rf = Some rf' → unnoticed rf rf'.
Proof. unfold Snapshot. intros E. repeat case_match; simplify_option_eq; by split. Qed.

(** ** Every step *)

Lemma ticking_crash c q (l : list task) : ticking q (omap (on_crash c) l) ⊆+ ticking q l.
Proof.
  induction l as [|tk l IH]; [done|]. unfold ticking in *. simpl. rewrite filter_cons.
  destruct (on_crash c tk) as [tk'|] eqn:E; [|case_decide; [by apply submseteq_cons|done]]. simpl. rewrite filter_cons.
  assert (applying q tk' = applying q tk ∧ (applying q tk = true → tk' = tk)) as [-> Heq].
  { destruct tk; simpl in E; try destruct (_ =? c); by simplify_eq. }
  case_decide; [|done]. rewrite Heq by done. by apply submseteq_skip.
Qed.

Definition no_ticker (l : list task) : Prop := ∀ tk q, tk ∈ l → applying q tk = false.

Lemma no_ticker_one tk : (∀ q, applying q tk = false) → no_ticker [tk].
Proof. by intros H x q ->%list_elem_of_singleton. Qed.

Lemma no_ticker_if (c : bool) tk : (∀ q, applying q tk = false) → no_ticker (if c then [tk] else []).
Proof. intros H. destruct c; [by apply no_ticker_one|]. intros x q. set_solver. Qed.

Lemma no_ticker_orphan (c : bool) tk : (∀ q, applying q tk = false) → no_ticker (if c then [] else [tk]).
Proof. intros H. destruct c; [|by apply no_ticker_one]. intros x q. set_solver. Qed.

Lemma no_ticker_fmap {A} (f : A → task) (l : list A) : (∀ x q, applying q (f x) = false) → no_ticker (f <$> l).
Proof. by intros H tk q (x & -> & _)%list_elem_of_fmap. Qed.

Lemma no_ticker_app (l1 l2 : list task) : no_ticker l1 → no_ticker l2 → no_ticker (l1 ++ l2).
Proof. intros H1 H2 tk q [?|?]%elem_of_app; eauto. Qed.

Lemma run_delivery s gh gh' k tk e s' :
  delivery s gh → grows gh gh' → tasks s !! k = Some tk →
  run_task e tk (set_tasks (delete k (tasks s)) s) = Some s' → delivery s' gh'.
Proof.
  intros HD HG Hk E. assert (Hsub : ∀ q, ticking q (delete k (tasks s)) ⊆+ ticking q (tasks s)).
  { intros q. by eapply ticking_sub. }
  assert (Q : ∀ p rf rf' new vs, peers s !! p = Some rf → unnoticed rf rf' → no_ticker new →
    delivery (mkNet (<[p := rf']> (peers s)) vs (delete k (tasks s) ++ new) (applied s)) gh').
  { intros. by eapply delivery_step. }
  assert (Q0 : ∀ p rf rf', peers s !! p = Some rf → unnoticed rf rf' →
    delivery (set_peer p rf' (set_tasks (delete k (tasks s)) s)) gh').
  { intros p rf rf' Hp Hu. unfold set_peer. simpl. rewrite <-(app_nil_r (delete k (tasks s))). eapply Q; [done|done|]. intros x q. set_solver. }
  assert (T : ∀ new vs, no_ticker new → delivery (mkNet (peers s) vs (delete k (tasks s) ++ new) (applied s)) gh').
  { intros. by eapply delivery_idle. }
  assert (T0 : delivery (set_tasks (delete k (tasks s)) s) gh').
  { unfold set_tasks. rewrite <-(app_nil_r (delete k (tasks s))). apply T. intros x q. set_solver. }
  destruct tk as [p t|p t q args o|p t q reply|p t|p t q args o|p t q args reply|p t q args o
                 |p t q args reply|p work|p work]; simpl in E; apply bind_Some in E as (rf & Hp & E).
  - destruct (startElection t rf) as [[v cs]|]; simplify_eq; [|done]. apply T, no_ticker_fmap. by intros [].
  - pose proof (unnoticed_vote e args rf) as Hu. destruct (RequestVote e args rf) as [rf' reply]. injection E as <-.
    by eapply Q; [|exact Hu|apply no_ticker_orphan].
  - apply bind_Some in E as (rf0 & Hp' & E). apply bind_Some in E as ([[rf' v'] won] & Ea & E). injection E as <-.
    by eapply Q; [|by eapply unnoticed_vote_reply|apply no_ticker_if].
  - destruct (killed rf); simplify_eq; [done|]. apply bind_Some in E as ([[rf' cs] ok] & Es & E). injection E as <-.
    eapply Q; [done|by eapply unnoticed_reindexed, startReplication_spec|].
    apply no_ticker_app; [apply no_ticker_fmap; by intros []|by apply no_ticker_if].
  - apply bind_Some in E as ([rf' reply] & Ea & E). injection E as <-.
    by eapply Q; [|by eapply unnoticed_append|apply no_ticker_orphan].
  - apply bind_Some in E as (rf' & Ea & E). injection E as <-. by eapply Q0, unnoticed_append_reply.
  - apply bind_Some in E as ([rf' reply] & Ea & E). injection E as <-.
    by eapply Q; [|by eapply unnoticed_install|apply no_ticker_orphan].
  - apply bind_Some in E as (rf' & Ea & E). injection E as <-. by eapply Q0, unnoticed_install_reply.
  - injection E as <-. exact (delivery_send s gh gh' p rf work k (votes s) HD HG Hp Hk).
  - injection E as <-. eapply delivery_calm; [done|done|]. intros q rq [[<- <-]|[_ Hq]]%lookup_insert_Some; [left|right].
    + pose proof (dl_one _ _ HD p rf Hp) as H1. unfold one_ticker in H1. rewrite (ticking_delete p _ _ _ Hk), length_app in H1.
      simpl in H1. rewrite Z.eqb_refl in H1. apply nil_length_inv. simpl in *. lia.
    + exists rq. split_and!; [done|apply unnoticed_refl|done].
Qed.

Lemma delivery_crash s gh gh' p rf : delivery s gh → grows gh gh' → delivery (crashed p rf s) gh'.
Proof.
  intros HD HG. eapply delivery_calm; [done|done|]. intros q rq [[<- <-]|[Hne Hq]]%lookup_insert_Some; [left|right].
  - apply ticking_none. intros tk' (tk & Htk & Eo)%list_elem_of_omap. destruct tk; simpl in *; simplify_eq; try done;
      (case_match eqn:Ep; simplify_eq; done).
  - exists rq. split_and!; [done|apply unnoticed_refl|apply ticking_crash].
Qed.

Lemma step_delivery s gh gh' ev s' :
  delivery s gh → grows gh gh' → (∀ p rf, peers s !! p = Some rf → ∃ F, psound n gh p rf F) →
  step ev s = Some s' → delivery s' gh'.
Proof.
  intros HD HG HS E.
  assert (Q : ∀ p rf rf' new, peers s !! p = Some rf → unnoticed rf rf' → no_ticker new →
    delivery (mkNet (<[p := rf']> (peers s)) (votes s) (tasks s ++ new) (applied s)) gh').
  { intros. by eapply delivery_step. }
  assert (Q0 : ∀ p rf rf', peers s !! p = Some rf → unnoticed rf rf' → delivery (set_peer p rf' s) gh').
  { intros p rf rf' Hp Hu. unfold set_peer. rewrite <-(app_nil_r (tasks s)). eapply Q; [done|done|]. intros x q. set_solver. }
  destruct ev as [p e|k e|k|k es|p cmd|p i snap|p|p|p|p|k j]; simpl in E; apply bind_Some in E as (x & Hx & E).
  - destruct (killed x); [done|]. pose proof (unnoticed_tick e x) as Hu. destruct (electionTicker e x) as [rf' ot]. injection E as <-.
    eapply Q; [done|exact Hu|]. destruct ot; [by apply no_ticker_one|]. intros y q. set_solver.
  - by eapply run_delivery.
  - destruct (lossy x); simplify_eq. unfold set_tasks. rewrite <-(app_nil_r (delete k (tasks s))).
    eapply delivery_idle; [done|done|intros q; by eapply ticking_sub|]. intros y q. set_solver.
  - apply bind_Some in E as (tk & Ho & E). injection E as <-. unfold spawn, set_tasks. simpl.
    eapply delivery_idle; [done|done|intros q; by eapply ticking_sub|]. apply no_ticker_one. intros q.
    unfold overwrite_task in Ho. by repeat case_match; simplify_eq.
  - injection E as <-. eapply Q0; [done|apply unnoticed_start].
  - apply bind_Some in E as (rf' & Es & E). injection E as <-. by eapply Q0, unnoticed_snapshot.
  - destruct (killed x); [done|]. destruct (existsb (applying p) (tasks s)) eqn:Ea; [done|].
    destruct (applyCond x); simplify_eq/=. eapply delivery_calm; [done|done|]. intros q rq [[<- <-]|[_ Hq]]%lookup_insert_Some; [left|right].
    + apply ticking_none. intros tk Htk. destruct (applying p tk) eqn:Et; [|done]. rewrite <-Ea. symmetry.
      apply existsb_exists. exists tk. by rewrite <-list_elem_of_In.
    + exists rq. split_and!; [done|apply unnoticed_refl|done].
  - destruct (applyCond x) eqn:Ec; simplify_eq. apply bind_Some in E as ([rf' work] & Es & E). injection E as <-.
    destruct (HS p x Hx) as [F HF]. exact (delivery_prepare s gh gh' p x rf' work F (votes s) HD HG Hx Ec Es HF).
  - injection E as <-. by eapply Q0.
  - injection E as <-. by apply delivery_crash with gh.
  - apply bind_Some in E as ([p work] & Hs & E). apply bind_Some in E as (rf & Hp & E). injection E as <-.
    assert (x = TSend p work) as -> by (by destruct x; simplify_eq/=).
    pose proof (delivery_send s gh gh' p rf work k (votes s) HD HG Hp Hx) as [_ _ D3].
    pose proof (delivery_crash s gh gh' p rf HD HG) as [D1 D2 _]. split; [exact D1|exact D2|].
    simpl in *. intros q ms m [[<- <-]|[Hne Hq]]%lookup_insert_Some Hm Hv.
    + apply (D3 p _ m (lookup_insert_eq _ _ _)); [|done]. apply elem_of_app in Hm as [?|Hm]; apply elem_of_app; [by left|right].
      by apply elem_of_take in Hm as (i & Hi%list_elem_of_lookup_2 & _).
    + apply (D3 q ms m); [by rewrite lookup_insert_ne|done|done].
Qed.

Lemma init_delivery : delivery (init n) no_history.
Proof.
  split; simpl; [|set_solver|set_solver]. intros p rf Hp. apply (init_peers n p rf) in Hp as [_ ->]. unfold one_ticker. simpl. lia.
Qed.

Lemma reach_safe s :
  rtc orderly_next (init n) s → ∃ b gh, core n s b gh ∧ delivery s gh.
Proof.
  cut (∀ s0 b gh, rtc orderly_next s0 s → rtc (BL.bstep n) (BL.bfresh (terms0 n)) b → sim n s0 b → core n s0 b gh →
    delivery s0 gh → ∃ b gh, core n s b gh ∧ delivery s gh).
  { intros H Hs. eapply H; [done|apply rtc_refl|apply init_sim|apply init_core|apply init_delivery]. }
  intros s0 b gh Hs. revert b gh. induction Hs as [s0|s0 s1 s2 (ev & E & HO) _ IH]; intros b gh Hb R HC HD; [by eauto|].
  destruct (step_core n s0 b gh ev s1 Hb R HC E HO) as (b1 & gh1 & Hb1 & R1 & HC1 & HG1).
  apply (IH b1 gh1); [done..|]. eapply step_delivery; [done|done| |done]. apply HC.
Qed.
End applied.

Lemma deliveries_agree n (s : net) p q msp msq m m' :
  rtc orderly_next (init n) s → applied s !! p = Some msp → applied s !! q = Some msq → m ∈ msp → m' ∈ msq →
  am_CommandValid m = true → am_CommandValid m' = true → am_CommandIndex m = am_CommandIndex m' →
  ∃ e, am_Command m = le_Command e ∧ am_Command m' = le_Command e.
Proof.
  intros Hs Hp Hq Hm Hm' Hv Hv' Hi. destruct (reach_safe n s Hs) as (b & gh & HC & HD).
  destruct (dl_sent _ _ _ HD p msp m Hp Hm Hv) as (e & He & <-).
  destruct (dl_sent _ _ _ HD q msq m' Hq Hm' Hv') as (f & Hf & <-). rewrite <-Hi in Hf.
  rewrite (ratified_agree n gh _ _ _ e f (cr_hist _ _ _ _ HC) He Hf). by exists f.
Qed.

(** C2: State Machine Safety. In every run of a cluster whose [AppendEntries] are encoded
    with the entries they were built with and cut off only entries they contradict, and
    whose [InstallSnapshot]s keep only entries that follow the snapshot, with lost, reordered and stale requests, compaction, crashes
    and restarts: two commands that peers hand to their services at the same index
    are the same command. *)
Theorem state_machine_safety n (s : net) p q msp msq m m' :
  rtc orderly_next (init n) s → applied s !! p = Some msp → applied s !! q = Some msq → m ∈ msp → m' ∈ msq →
  am_CommandValid m = true → am_CommandValid m' = true → am_CommandIndex m = am_CommandIndex m' →
  am_Command m = am_Command m'.
Proof. intros. by destruct (deliveries_agree n s p q msp msq m m') as (e & -> & ->). Qed.

(** C3: Leader Completeness. In the same runs: what a peer knows to be committed is in
    the log of every leader of its term or a later one, entry by entry as far as neither
    of the two has compacted it, and the leader's log is long enough. *)
Theorem leader_completeness n (s : net) p q rfp rfq :
  rtc orderly_next (init n) s → peers s !! p = Some rfp → peers s !! q = Some rfq →
  role rfq = Leader → currentTerm rfp ≤ currentTerm rfq →
  known rfp < RL.size (log rfq) ∧
  ∀ i, i ≤ known rfp → RL.snapLastIdx (log rfp) < i → RL.snapLastIdx (log rfq) < i →
    RL.at_ (log rfp) i = RL.at_ (log rfq) i.
Proof.
  intros Hs Hp Hq Hr Ht. destruct (reach_safe n s Hs) as (b & gh & HC & _).
  destruct (cr_peer _ _ _ _ HC p rfp Hp) as [F [HRp _ _ _ _ _ _ Hi HCm _]].
  destruct (cr_peer _ _ _ _ HC q rfq Hq) as [L [HRq _ _ HL _ _ _ _ _ _]].
  pose proof (committed_led n gh _ _ (cr_hist _ _ _ _ HC) _ _ _ _ HCm Ht (HL Hr)) as Hpre.
  pose proof (RL.wf_idx _ (rp_wf _ _ HRp)) as H0. simpl in *. split.
  - apply prefix_length in Hpre. rewrite length_take in Hpre. rewrite (rp_size _ _ HRq). unfold len in *. lia.
  - intros i Hik Hip Hiq. rewrite (rp_at _ _ HRp), (rp_at _ _ HRq) by done.
    destruct (lookup_lt_is_Some_2 F (Z.to_nat i)) as [e He]; [unfold len in *; lia|]. rewrite He. symmetry.
    eapply prefix_lookup; [exact Hpre|]. by rewrite lookup_take_lt by lia.
Qed.
End delivery.

(** ** A run *)

Module SafeRun.

Definition e1 : Env := mkEnv (10 ^ 12) 7.
Definition e2 : Env := mkEnv (2 * 10 ^ 12) 7.

Section checked.
Context {Cmd SB : Type}.

(** The checks that make a step orderly: no [InstallSnapshot] runs, no request is
    overwritten, and no [AppendEntries] shortens a log. *)
Definition checked (ev : Net.event Cmd SB) (s : Net.net Cmd SB) : bool :=
  match ev with
  | EOverwrite _ _ => false
  | ERun k _ =>
      match tasks s !! k with
      | Some (TInsReq _ _ _ _ _) => false
      | Some (TAppReq _ _ q args _) =>
          match peers s !! q with
          | Some rf => RL.size (log rf) <=? ae_PrevLogIndex args + 1 + len (ae_Entries args)
          | None => true
          end
      | _ => true
      end
  | _ => true
  end.

Fixpoint checked_run (evs : list (Net.event Cmd SB)) (s : Net.net Cmd SB) : option (Net.net Cmd SB) :=
  match evs with
  | [] => Some s
  | ev :: evs => if checked ev s then s ← step ev s; checked_run evs s else None
  end.

Lemma checked_orderly ev s : checked ev s = true → orderly ev s.
Proof.
  intros H. split; [split; [|by intros k es p t q args o ->]|];
    intros k e p t q args o rf -> Hk Hq; simpl in H; rewrite Hk in H; [done|].
  rewrite Hq in H. right. right. left. lia.
Qed.

Lemma checked_run_orderly evs s s' : checked_run evs s = Some s' → rtc orderly_next s s'.
Proof.
  revert s. induction evs as [|ev evs IH]; intros s E; simpl in E; [by simplify_eq|].
  destruct (checked ev s) eqn:Hn; [|done]. apply bind_Some in E as (s1 & E1 & E).
  eapply rtc_l; [|by apply IH]. exists ev. split; [done|]. by apply checked_orderly.
Qed.
End checked.

(** Peer 0 is elected in term 2 and replicates 10 to peer 1; both apply it.  Peer 2
    crashes; peer 1 is elected in term 3 by peer 2. *)
Definition events : list (Net.event Z unit) :=
  [EWait 0; EWait 1; ETick 0 e1; ERun 0 e1; ERun 0 e1; ERun 1 e1; EStart 0 (Some 10); ERun 1 e1; ERun 1 e1; ERun 3 e1;
   EPrepare 0; ERun 3 e1; ERun 2 e1; ERun 3 e1; EPrepare 1; ERun 6 e1;
   ECrash 2; ETick 1 e2; ERun 7 e2; ERun 8 e2; ERun 8 e2].
Definition final : Net.net Z unit := default (init 3) (checked_run events (init 3)).
Definition peer (p : Z) : RF.Raft Z unit := default (Make 3 p PS.MakePersister) (peers final !! p).
Definition ten : ApplyMsg Z unit := mkApplyMsg true (Some 10) 1 false [] 0 0.

Lemma safe_final_run : rtc orderly_next (init 3) final.
Proof. apply (checked_run_orderly events). vm_compute. reflexivity. Qed.

Lemma state_machine_safety_witness :
  applied final !! 0 = Some [ten] ∧ applied final !! 1 = Some [ten] ∧ am_Command ten = am_Command ten.
Proof.
  split; [vm_compute; reflexivity|]. split; [vm_compute; reflexivity|].
  apply (state_machine_safety 3 final 0 1 [ten] [ten] ten ten).
  - apply safe_final_run.
  - vm_compute. reflexivity.
  - vm_compute. reflexivity.
  - by apply list_elem_of_singleton.
  - by apply list_elem_of_singleton.
  - reflexivity.
  - reflexivity.
  - reflexivity.
Defined.

Lemma leader_completeness_witness :
  currentTerm (peer 0) = 2 ∧ known (peer 0) = 1 ∧ currentTerm (peer 1) = 3 ∧
  RL.at_ (log (peer 0)) 1 = RL.at_ (log (peer 1)) 1.
Proof.
  split; [vm_compute; reflexivity|]. split; [vm_compute; reflexivity|]. split; [vm_compute; reflexivity|].
  apply (leader_completeness 3 final 0 1 (peer 0) (peer 1)).
  - apply safe_final_run.
  - vm_compute. reflexivity.
  - vm_compute. reflexivity.
  - vm_compute. reflexivity.
  - vm_compute. discriminate.
  - vm_compute. discriminate.
  - vm_compute. reflexivity.
  - vm_compute. reflexivity.
Defined.
End SafeRun.
