(* ===== verification/RaftTraces.v ===== *)
(** Runs of the cluster of [RaftNet] that show where the implementation departs
    from Raft.

    [appendFrom] always cuts the log after [PrevLogIndex], also when the
    entries that follow agree with the request.  A delayed [AppendEntries] of
    the current term therefore removes entries the follower has already
    acknowledged, and that the leader may have committed. *)

From S2P Require Import Prelude Gob RaftLog Raft RaftNet.
Import RF Net.

#[local] Open Scope Z_scope.

Module StaleAppend.

Definition e1 : Env := mkEnv (10 ^ 12) 7.
Definition e2 : Env := mkEnv (2 * 10 ^ 12) 7.

(** Peer 0 is elected in term 2 by peer 1.  It sends [[10]] to peer 1 (the
    request is delayed), then [[10; 20]], which peer 1 acknowledges; peer 0
    commits and applies both.  The delayed request arrives and cuts the log of
    peer 1 back to [[10]].  Peer 1 is elected in term 3 by peer 2, appends 30 at
    index 2, replicates it to peer 2, commits and applies it. *)
Definition events : list (Net.event Z unit) :=
  [EWait 0; EWait 1; ETick 0 e1; ERun 0 e1; ERun 0 e1; ERun 1 e1; EDrop 0;
   EStart 0 (Some 10); ERun 0 e1; EDrop 1;
   EStart 0 (Some 20); ERun 1 e1; EDrop 2; ERun 1 e1; ERun 2 e1;
   EPrepare 0; ERun 2 e1;
   ERun 0 e1;
   ETick 1 e2; ERun 2 e2; ERun 2 e2; ERun 3 e2; ERun 3 e2;
   EStart 1 (Some 30); ERun 3 e2; ERun 4 e2; ERun 5 e2; ERun 4 e2; ERun 5 e2; ERun 6 e2;
   EPrepare 1; ERun 6 e2].

Definition final : Net.net Z unit := default (init 3) (exec events (init 3)).

Lemma final_run : rtc next (init 3) final.
Proof. apply (exec_rtc events). vm_compute. reflexivity. Qed.

(** C37: State Machine Safety does not hold for networks that reorder requests:
    in a run of three peers with no crash, peer 0 applies command 20 at index 2
    and peer 1 applies command 30 at index 2. *)
Theorem state_machine_safety_violated :
  ∃ (s : Net.net Z unit) ms0 ms1 m0 m1,
    rtc next (init 3) s ∧
    applied s !! 0 = Some ms0 ∧ applied s !! 1 = Some ms1 ∧
    m0 ∈ ms0 ∧ m1 ∈ ms1 ∧
    am_CommandValid m0 = true ∧ am_CommandValid m1 = true ∧
    am_CommandIndex m0 = am_CommandIndex m1 ∧ am_Command m0 ≠ am_Command m1.
Proof.
  exists final, (default [] (applied final !! 0)), (default [] (applied final !! 1)),
    (mkApplyMsg true (Some 20) 2 false [] 0 0), (mkApplyMsg true (Some 30) 2 false [] 0 0).
  split; [apply final_run|].
  split; [vm_compute; reflexivity|]. split; [vm_compute; reflexivity|].
  split; [apply (list_elem_of_lookup_2 _ 1%nat); vm_compute; reflexivity|].
  split; [apply (list_elem_of_lookup_2 _ 1%nat); vm_compute; reflexivity|].
  by split_and!.
Qed.
End StaleAppend.
