(* ===== verification/RaftHarnessFacts.v ===== *)
(** What the checks of [raft/config.go] amount to.

    [applier] accepts a sequence of applied messages exactly when it satisfies State
    Machine Safety and every server applies in order; the ends of two servers are
    enabled exactly when both are connected; [checkOneLeader] never reports two
    leaders of one term for a cluster of [raft.go] peers, although it asks them at
    different times; and [one] returns an index only when as many servers as asked
    for have applied the command there. *)

From S2P Require Import Prelude Gob RaftLog Raft Labrpc Harness RaftHarness Voting Ballot RaftFacts RaftNet RaftElection RaftSafety RaftDelivery RaftTraces.
Import WR RH.

#[local] Open Scope Z_scope.

Section applier.
Context {W Cmd SB : Type} `{EqDecision Cmd}.
Abbreviation config := (@RH.config W Cmd SB).
Abbreviation ApplyMsg := (ApplyMsg Cmd SB).
Implicit Types (cfg : config) (evs : list (Z * ApplyMsg)).

(** ** [applier] *)

(** The messages the appliers of all servers receive, in the order in which they
    enter [checkLogs]. *)
Definition feed evs cfg : option config :=
  foldl (λ o ev, o ≫= applier ev.1 ev.2) (Some cfg) evs.

Lemma feed_snoc evs ev cfg : feed (evs ++ [ev]) cfg = feed evs cfg ≫= applier ev.1 ev.2.
Proof. unfold feed. by rewrite foldl_app. Qed.

(** Server [i] applied [c] at [x]. *)
Definition applied_at evs (i x : Z) (c : option Cmd) : Prop :=
  ∃ m, (i, m) ∈ evs ∧ am_CommandValid m = true ∧ am_CommandIndex m = x ∧ am_Command m = c.

(** State Machine Safety: no two servers apply different commands at an index. *)
Definition agreement evs : Prop :=
  ∀ i j x c d, applied_at evs i x c → applied_at evs j x d → c = d.

(** A server applies index [x > 1] after index [x - 1]. *)
Definition no_gap evs : Prop :=
  ∀ k i m, evs !! k = Some (i, m) → am_CommandValid m = true → 1 < am_CommandIndex m →
    ∃ c, applied_at (take k evs) i (am_CommandIndex m - 1) c.

Definition tracks evs cfg : Prop :=
  ∀ i x c, (l ← slice_get (logs cfg) i; l !! x) = Some c ↔ applied_at evs i x c.

Lemma applied_snoc evs i m j x c :
  applied_at (evs ++ [(i, m)]) j x c ↔
  applied_at evs j x c ∨ j = i ∧ am_CommandValid m = true ∧ am_CommandIndex m = x ∧ am_Command m = c.
Proof.
  unfold applied_at. split.
  - intros (m' & [Hin|[= -> ->]%list_elem_of_singleton]%elem_of_app & H); [left; eauto|by right].
  - intros [(m' & Hin & H)|(-> & H)]; [exists m'|exists m]; (split; [set_solver|done]).
Qed.

Lemma agreement_snoc evs i m :
  agreement (evs ++ [(i, m)]) ↔
  agreement evs ∧ (am_CommandValid m = true → ∀ j c, applied_at evs j (am_CommandIndex m) c → c = am_Command m).
Proof.
  unfold agreement. setoid_rewrite applied_snoc. split.
  - intros H. split; [intros; eapply H; by left|]. intros Hv j c Hj. eapply H; [by left|right]. by split_and!.
  - intros [H Hm] a b x c d [Ha|(-> & Hv & <- & <-)] [Hb|(-> & Hv' & Hx & <-)]; eauto.
    + subst. eauto.
    + symmetry. eauto.
Qed.

Lemma no_gap_snoc evs i m :
  no_gap (evs ++ [(i, m)]) ↔
  no_gap evs ∧ (am_CommandValid m = true → 1 < am_CommandIndex m → ∃ c, applied_at evs i (am_CommandIndex m - 1) c).
Proof.
  unfold no_gap. split.
  - intros H. split.
    + intros k j m' Hk. pose proof (lookup_lt_Some _ _ _ Hk).
      specialize (H k j m' (lookup_app_l_Some _ _ _ _ Hk)). by rewrite take_app_le in H by lia.
    + specialize (H (length evs) i m). rewrite list_lookup_middle, take_app_length in H by done. by apply H.
  - intros [H Hm] k j m' [Hk|[Hk [Hk' [= <- <-]]%list_lookup_singleton_Some]]%lookup_app_Some Hv Hx.
    + pose proof (lookup_lt_Some _ _ _ Hk). rewrite take_app_le by lia. by eapply H.
    + assert (k = length evs) as -> by lia. rewrite take_app_length. by apply Hm.
Qed.

(** The loop of [checkLogs]. *)
Lemma checkLogs_spec i m cfg :
  0 ≤ i < len (logs cfg) →
  ∃ err cfg', checkLogs i m cfg = Some (cfg', err, bool_decide (is_Some (l ← slice_get (logs cfg) i; l !! (am_CommandIndex m - 1)))) ∧
    (err = None ↔ ∀ j c, (l ← slice_get (logs cfg) j; l !! am_CommandIndex m) = Some c → c = am_Command m) ∧
    len (logs cfg') = len (logs cfg) ∧
    ∀ j x, (l ← slice_get (logs cfg') j; l !! x) =
      if decide (j = i ∧ x = am_CommandIndex m) then Some (am_Command m) else (l ← slice_get (logs cfg) j; l !! x).
Proof.
  intros Hi. unfold checkLogs. match goal with |- context [for_range _ ?b _] => set (body := b) end.
  destruct (for_range_inv (len (logs cfg)) body (λ k err, err = None ↔
    ∀ j c, j < k → (l ← slice_get (logs cfg) j; l !! am_CommandIndex m) = Some c → c = am_Command m) None)
    as (err & -> & Herr); [apply len_nonneg| | |].
  - split; [|done]. intros _ j c Hj (l & [H0 _]%slice_get_Some & _)%bind_Some. lia.
  - intros k err Hk Herr. unfold body. destruct (proj2 (slice_get_is_Some (logs cfg) k) Hk) as [l Hl]. rewrite Hl.
    cbn [mbind option_bind]. eexists. split; [done|].
    assert (Hstep : (∀ j c, j < k + 1 → (l ← slice_get (logs cfg) j; l !! am_CommandIndex m) = Some c → c = am_Command m) ↔
      (∀ j c, j < k → (l ← slice_get (logs cfg) j; l !! am_CommandIndex m) = Some c → c = am_Command m) ∧
      (∀ c, l !! am_CommandIndex m = Some c → c = am_Command m)).
    { split.
      - intros H. split; [intros j c ?; apply H; lia|]. intros c Hc. apply (H k c); [lia|]. by rewrite Hl.
      - intros [H Hc] j c Hj E. destruct (decide (j = k)) as [->|]; [|by apply (H j c); [lia|]]. rewrite Hl in E. by apply Hc. }
    rewrite Hstep. destruct (l !! am_CommandIndex m) as [old|] eqn:Eo; [|rewrite Herr; naive_solver].
    case_decide; [subst; rewrite Herr; naive_solver|]. split; [done|]. intros [_ H']. by destruct (H' old).
  - cbn [mbind option_bind]. destruct (proj2 (slice_get_is_Some (logs cfg) i) Hi) as [l Hl]. rewrite Hl. cbn [mbind option_bind].
    destruct (proj2 (slice_set_is_Some (logs cfg) i (<[am_CommandIndex m := am_Command m]> l)) Hi) as [ls El].
    rewrite El. cbn [mbind option_bind]. eexists err, _. split; [done|]. split; [|split; [by eapply slice_set_len|]].
    + rewrite Herr. split; intros H j c; [|intros _; apply H]. intros E. apply (H j c); [|done].
      apply bind_Some in E as (l' & Hl' & _). apply (slice_get_is_Some (logs cfg) j). eauto.
    + intros j x. simpl. rewrite (slice_get_set _ _ _ _ _ El). destruct (decide (i = j)) as [<-|Hne].
      * simpl. rewrite Hl. simpl. destruct (decide (x = am_CommandIndex m)) as [->|].
        -- rewrite lookup_insert_eq. by rewrite decide_True.
        -- rewrite lookup_insert_ne by done. by rewrite decide_False by naive_solver.
      * by rewrite decide_False by naive_solver.
Qed.

Lemma applier_step evs i m cfg :
  tracks evs cfg → 0 ≤ i < len (logs cfg) →
  match applier i m cfg with
  | Some cfg' =>
      tracks (evs ++ [(i, m)]) cfg' ∧ len (logs cfg') = len (logs cfg) ∧
      (am_CommandValid m = true →
         (∀ j c, applied_at evs j (am_CommandIndex m) c → c = am_Command m) ∧
         (1 < am_CommandIndex m → ∃ c, applied_at evs i (am_CommandIndex m - 1) c))
  | None =>
      am_CommandValid m = true ∧
      ¬ ((∀ j c, applied_at evs j (am_CommandIndex m) c → c = am_Command m) ∧
         (1 < am_CommandIndex m → ∃ c, applied_at evs i (am_CommandIndex m - 1) c))
  end.
Proof.
  intros HT Hi. unfold applier. destruct (am_CommandValid m) eqn:Hv.
  2:{ split; [|split; [done|done]]. intros j x c. rewrite (HT j x c), applied_snoc. split; [by left|].
      intros [?|(_ & ? & _)]; [done|congruence]. }
  destruct (checkLogs_spec i m cfg Hi) as (err & cfg' & -> & Herr & Hlen & Hl). cbn [mbind option_bind].
  assert (HA : err = None ↔ ∀ j c, applied_at evs j (am_CommandIndex m) c → c = am_Command m).
  { rewrite Herr. split; intros H j c Hc; apply (H j c); by apply HT. }
  assert (HP : is_Some (l ← slice_get (logs cfg) i; l !! (am_CommandIndex m - 1)) ↔
    ∃ c, applied_at evs i (am_CommandIndex m - 1) c).
  { split; intros [c Hc]; exists c; by apply HT. }
  destruct ((1 <? am_CommandIndex m) && _) eqn:Eo.
  { split; [done|]. intros [_ Ho]. apply andb_true_iff in Eo as [Hx%Z.ltb_lt Hno%negb_true_iff%bool_decide_eq_false].
    apply Hno, HP, Ho, Hx. }
  assert (Hord : 1 < am_CommandIndex m → ∃ c, applied_at evs i (am_CommandIndex m - 1) c).
  { intros Hx. apply andb_false_iff in Eo as [?%Z.ltb_ge|Hok%negb_false_iff%bool_decide_eq_true]; [lia|by apply HP]. }
  destruct err as [e|].
  { split; [done|]. intros [Ha _]. apply HA in Ha. done. }
  split; [|split; [done|intros _; split; [by apply HA|done]]].
  intros j x c. rewrite Hl, applied_snoc. case_decide as Hd.
  - destruct Hd as [-> ->]. split; [intros [= <-]; right; by split_and!|]. intros [Ha|(_ & _ & _ & ->)]; [|done].
    f_equal. symmetry. by eapply (proj1 HA).
  - rewrite (HT j x c). split; [by left|]. intros [?|(-> & _ & <- & _)]; [done|]. by destruct Hd.
Qed.

Lemma feed_iff evs cfg :
  (∀ i l, slice_get (logs cfg) i = Some l → l = ∅) → (∀ i m, (i, m) ∈ evs → 0 ≤ i < len (logs cfg)) →
  is_Some (feed evs cfg) ↔ agreement evs ∧ no_gap evs.
Proof.
  intros He Hr. cut (match feed evs cfg with
    | Some cfg' => tracks evs cfg' ∧ len (logs cfg') = len (logs cfg) ∧ agreement evs ∧ no_gap evs
    | None => ¬ (agreement evs ∧ no_gap evs)
    end).
  { destruct (feed evs cfg); rewrite is_Some_alt; tauto. }
  induction evs as [|[i m] evs IH] using rev_ind.
  { split_and!; [|done|by intros ? ? ? ? ? (m & ?%not_elem_of_nil & _)|done]. intros i x c. split.
    - intros (l & ->%He & ?)%bind_Some. done.
    - by intros (m & ?%not_elem_of_nil & _). }
  rewrite feed_snoc. pose proof (agreement_snoc evs i m) as EA. pose proof (no_gap_snoc evs i m) as EO.
  assert (Hr' : ∀ j m', (j, m') ∈ evs → 0 ≤ j < len (logs cfg)) by (intros j m' ?; apply (Hr j m'); set_solver).
  specialize (IH Hr'). destruct (feed evs cfg) as [c1|]; cbn [mbind option_bind]; [|tauto].
  destruct IH as (HT & Hlen & Ha & Ho). assert (0 ≤ i < len (logs c1)) as Hi by (rewrite Hlen; apply (Hr i m); set_solver).
  pose proof (applier_step evs i m c1 HT Hi) as HS. simpl in *. destruct (applier i m c1) as [c2|].
  - destruct HS as (? & ? & Hv). rewrite <-Hlen. tauto.
  - destruct HS as [Hv Hn]. tauto.
Qed.

(** C26: the judge of the tests. Started on empty logs, [applier] accepts the messages
    of all servers, in the order in which they come in, exactly when State Machine
    Safety holds for them (no two messages with one index carry different commands) and
    no server leaves out an index: one above 1 comes after the index before it. An index
    may come again, with the same command. *)
Theorem applier_accepts_iff evs cfg :
  (∀ i l, slice_get (logs cfg) i = Some l → l = ∅) → (∀ i m, (i, m) ∈ evs → 0 ≤ i < len (logs cfg)) →
  is_Some (feed evs cfg) ↔ agreement evs ∧ no_gap evs.
Proof. exact (feed_iff evs cfg). Qed.

(** C27: no false alarm. Whatever part of the deliveries of a cluster, in an orderly run,
    comes in in whatever order: as long as no server leaves out an index, the judge of
    the tests accepts. *)
Theorem judge_accepts_cluster n (s : Net.net Cmd SB) evs cfg :
  rtc orderly_next (Net.init n) s →
  (∀ i m, (i, m) ∈ evs → 0 ≤ i < len (logs cfg) ∧ ∃ ms, Net.applied s !! i = Some ms ∧ m ∈ ms) →
  no_gap evs → (∀ i l, slice_get (logs cfg) i = Some l → l = ∅) → is_Some (feed evs cfg).
Proof.
  intros Hs Hevs Ho He. apply feed_iff; [done|intros i m Hin; apply (Hevs i m Hin)|]. split; [|done].
  intros i j x c d (m & Hm & Hv & Hx & <-) (m' & Hm' & Hv' & Hx' & <-).
  destruct (Hevs i m Hm) as (_ & ms & Hms & Hin), (Hevs j m' Hm') as (_ & ms' & Hms' & Hin').
  destruct (deliveries_agree n s i j ms ms' m m') as (e & -> & ->); [done..|congruence|done].
Qed.

(** ** [nCommitted] and [one] *)

(** The servers whose log has an entry at [index]. *)
Definition holders (index : Z) cfg : list (option Cmd) := omap (λ l, l !! index) (take (length (rafts cfg)) (logs cfg)).

Lemma nCommitted_spec index cfg nd cmd :
  nCommitted index cfg = Some (nd, cmd) →
  nd = len (holders index cfg) ∧ (∀ c, c ∈ holders index cfg → c = cmd) ∧ (nd = 0 → cmd = None).
Proof.
  unfold nCommitted, holders. intros E.
  match type of E with for_range _ ?b _ = _ => set (body := b) in E end.
  assert (Hp : ∀ k (x : Z * option Cmd), for_range (Z.of_nat k) body (0, None) = Some x → (k ≤ length (rafts cfg))%nat →
    let h := omap (λ l, l !! index) (take k (logs cfg)) in
    x.1 = len h ∧ (∀ c, c ∈ h → c = x.2) ∧ (x.1 = 0 → x.2 = None)).
  { induction k as [|k IH]; intros x Ex Hk.
    { unfold for_range in Ex. simpl in Ex. simplify_eq. simpl. split_and!; [done|set_solver|done]. }
    rewrite Nat2Z.inj_succ, <-Z.add_1_r, for_range_step in Ex by lia.
    apply bind_Some in Ex as ([count c0] & Ex & E1). destruct (IH _ Ex) as (H1 & H2 & H3); [lia|]. simpl in H1, H2, H3.
    unfold body in E1. apply bind_Some in E1 as (l & [_ Hl]%slice_get_Some & E1). rewrite Nat2Z.id in Hl.
    rewrite (take_S_r _ _ _ Hl), omap_app. simpl. destruct (l !! index) as [c1|] eqn:Ec.
    - destruct (_ && _) eqn:Eb; simplify_eq/=. rewrite len_app. change (len [c1]) with 1.
      assert (∀ c, c ∈ omap (λ l, l !! index) (take k (logs cfg)) → c = c1) as Hc.
      { intros c Hin. apply andb_false_iff in Eb as [Hz%Z.ltb_ge|Hq%negb_false_iff%bool_decide_eq_true].
        - assert (0 < len (omap (λ l, l !! index) (take k (logs cfg)))); [|lia].
          destruct (omap _ _); [set_solver|]. unfold len. simpl. lia.
        - rewrite <-Hq. by apply H2. }
      split_and!; [done| |pose proof (len_nonneg (omap (λ l, l !! index) (take k (logs cfg)))); lia].
      intros c [?| ->%list_elem_of_singleton]%elem_of_app; auto.
    - simplify_eq/=. rewrite app_nil_r. by split_and!. }
  destruct (Hp (length (rafts cfg)) (nd, cmd)) as (H1 & H2 & H3); [exact E|done|]. done.
Qed.

Lemma poll_spec index expected cmd polls cfg cfg' :
  poll index expected cmd polls cfg = Some (cfg', true) →
  ∃ nd, nCommitted index cfg' = Some (nd, cmd) ∧ 0 < nd ∧ expected ≤ nd.
Proof.
  revert cfg. induction polls as [|run polls IH]; intros cfg E; simpl in E; [done|].
  apply bind_Some in E as ([nd cmd1] & En & E). destruct (_ && _) eqn:Eb; [|by apply IH in E].
  simplify_eq. apply andb_true_iff in Eb as [Eb Hc%bool_decide_eq_true]. apply andb_true_iff in Eb as [? ?].
  subst. exists nd. split; [done|lia].
Qed.

(** what [one] promises. When it returns an index, at least [expectedServers]
    servers (and at least one) have an entry at that index, and all that have one have
    applied the submitted command there. *)
Theorem one_sound cmd expectedServers retry starts rounds cfg cfg' index :
  one cmd expectedServers retry starts rounds cfg = Some (cfg', index) → index ≠ -1 →
  0 < len (holders index cfg') ∧ expectedServers ≤ len (holders index cfg') ∧
  ∀ c, c ∈ holders index cfg' → c = cmd.
Proof.
  intros E Hi. revert starts cfg E. induction rounds as [|[run polls] rounds IH]; intros starts cfg E; simpl in E.
  { case_match; simplify_eq. }
  destruct (checkFinished _); [by simplify_eq|].
  apply bind_Some in E as ([[c1 st] ix] & Et & E). destruct (Z.eqb_spec ix (-1)) as [->|Hix]; simpl in E; [by eapply IH|].
  apply bind_Some in E as ([c2 agreed] & Ep & E). destruct agreed.
  - simplify_eq. apply poll_spec in Ep as (nd & Hn & ? & ?). apply nCommitted_spec in Hn as (-> & Hc & _). done.
  - destruct (negb retry); [done|by eapply IH].
Qed.
End applier.

(** ** Connections *)

Section connections.
Context {W Cmd SB : Type} `{EqDecision Cmd, !GobType SB Z, !GobType SB (list (option Cmd))}.
Context (MakeService : nat → LR.Service W).
Abbreviation config := (@RH.config W Cmd SB).
Implicit Types (cfg : config) (i j a c : Z).

Definition con cfg i : bool := default false (slice_get (connected cfg) i).
Definition link cfg i j : bool := linked (endnames cfg) (net cfg) i j.

(** Everything but the network is as it was. *)
Definition frame cfg cfg' : Prop := ∃ rn, cfg' = set_net rn cfg.

Lemma frame_refl cfg : frame cfg cfg.
Proof. exists (net cfg). by destruct cfg. Qed.

Lemma frame_Enable e b cfg cfg' : frame cfg cfg' → frame cfg (Enable e b cfg').
Proof. intros [rn ->]. by eexists. Qed.

Lemma frame_endnames cfg cfg' : frame cfg cfg' → endnames cfg' = endnames cfg ∧ connected cfg' = connected cfg ∧ n cfg' = n cfg.
Proof. by intros [rn ->]. Qed.

Lemma frame_trans cfg1 cfg2 cfg3 : frame cfg1 cfg2 → frame cfg2 cfg3 → frame cfg1 cfg3.
Proof. intros [rn ->] [rn' ->]. by eexists. Qed.

(** A loop that switches the ends from (or to) [i] to (from) the servers that pass
    [test]. *)
Definition side (out : bool) i j : Z * Z := if out then (i, j) else (j, i).
Definition hit (out : bool) i (test : Z → bool) a c : bool :=
  if out then (a =? i) && test c else (c =? i) && test a.

Lemma switch_side (out : bool) i (b : bool) (test : Z → bool) cfg :
  wired (n cfg) (endnames cfg) (net cfg) → 0 ≤ n cfg →
  (∀ j, 0 ≤ j < n cfg → test j = true → is_Some (endname (endnames cfg) (side out i j).1 (side out i j).2)) →
  ∃ cfg', for_range (n cfg) (λ j cfg,
      if test j then e ← endname (endnames cfg) (side out i j).1 (side out i j).2; Some (Enable e b cfg)
      else Some cfg) cfg = Some cfg' ∧
    frame cfg cfg' ∧ wired (n cfg) (endnames cfg) (net cfg') ∧ LR.servers (net cfg') = LR.servers (net cfg) ∧
    LR.ends (net cfg') = LR.ends (net cfg) ∧
    ∀ a c, 0 ≤ a < n cfg → 0 ≤ c < n cfg → link cfg' a c = if hit out i test a c then b else link cfg a c.
Proof.
  intros Hw Hn Ht. match goal with |- context [for_range _ ?b' _] => set (body := b') end.
  destruct (for_range_inv (n cfg) body (λ k cfg1, frame cfg cfg1 ∧ wired (n cfg) (endnames cfg) (net cfg1) ∧
      LR.servers (net cfg1) = LR.servers (net cfg) ∧ LR.ends (net cfg1) = LR.ends (net cfg) ∧
      ∀ a c, 0 ≤ a < n cfg → 0 ≤ c < n cfg →
        link cfg1 a c = if hit out i (λ j, test j && (j <? k)) a c then b else link cfg a c) cfg)
    as (cfg' & E & HF & Hw' & Hsv & Hen & Hl); [done| | |].
  - split_and!; [apply frame_refl|done..|]. intros a c Ha Hc. unfold hit.
    replace (if out then _ else _) with false; [done|]. destruct out; lia.
  - intros k cfg1 Hk (HF & Hw' & Hsv & Hen & Hl). unfold body. destruct (test k) eqn:Et.
    + destruct (frame_endnames _ _ HF) as (Ee & _). rewrite Ee.
      destruct (Ht k Hk Et) as [e He]. rewrite He. cbn [mbind option_bind]. eexists. split; [done|]. split_and!; simpl; try done.
      * by apply frame_Enable.
      * by apply wired_Enable.
      * intros a c Ha Hc. unfold link. simpl. rewrite Ee. erewrite linked_Enable by done.
        assert (linked (endnames cfg) (net cfg1) a c = link cfg1 a c) as -> by (unfold link; by rewrite Ee).
        rewrite Hl by done. unfold hit, side in *. destruct out; simpl.
        -- destruct (Z.eqb_spec a i), (decide (c = k)); subst; rewrite ?Et; simpl.
           ++ rewrite decide_True by done. by destruct (Z.ltb_spec k (k + 1)); [|lia].
           ++ rewrite decide_False by naive_solver.
              destruct (Z.ltb_spec c k), (Z.ltb_spec c (k + 1)); try lia; done.
           ++ by rewrite decide_False by naive_solver.
           ++ by rewrite decide_False by naive_solver.
        -- destruct (Z.eqb_spec c i), (decide (a = k)); subst; rewrite ?Et; simpl.
           ++ rewrite decide_True by done. by destruct (Z.ltb_spec k (k + 1)); [|lia].
           ++ rewrite decide_False by naive_solver.
              destruct (Z.ltb_spec a k), (Z.ltb_spec a (k + 1)); try lia; done.
           ++ by rewrite decide_False by naive_solver.
           ++ by rewrite decide_False by naive_solver.
    + eexists. split; [done|]. split_and!; try done. intros a c Ha Hc. rewrite Hl by done. unfold hit.
      destruct out.
      * destruct (decide (c = k)) as [->|]; [by rewrite Et, !andb_false_r|].
        destruct (Z.ltb_spec c k), (Z.ltb_spec c (k + 1)); try lia; done.
      * destruct (decide (a = k)) as [->|]; [by rewrite Et, !andb_false_r|].
        destruct (Z.ltb_spec a k), (Z.ltb_spec a (k + 1)); try lia; done.
  - exists cfg'. split_and!; try done. intros a c Ha Hc. rewrite Hl by done. unfold hit. destruct out.
    + destruct (Z.ltb_spec c (n cfg)); [|lia]. by rewrite andb_true_r.
    + destruct (Z.ltb_spec a (n cfg)); [|lia]. by rewrite andb_true_r.
Qed.

(** The ends of two servers are enabled exactly when both are connected. *)
Record wiring cfg : Prop := {
  wg_n : 0 ≤ n cfg;
  wg_con : len (connected cfg) = n cfg;
  wg_wired : wired (n cfg) (endnames cfg) (net cfg);
  wg_link : ∀ a c, 0 ≤ a < n cfg → 0 ≤ c < n cfg → link cfg a c = con cfg a && con cfg c
}.

Lemma con_set cfg i b l a :
  slice_set (connected cfg) i b = Some l → con (set_connected l cfg) a = if decide (i = a) then b else con cfg a.
Proof. intros E. unfold con. simpl. rewrite (slice_get_set _ _ _ _ _ E). by case_decide. Qed.

Lemma connect_wiring i cfg :
  wiring cfg → full (n cfg) (endnames cfg) → 0 ≤ i < n cfg →
  ∃ cfg', connect i cfg = Some cfg' ∧ wiring cfg' ∧ n cfg' = n cfg ∧ endnames cfg' = endnames cfg ∧
    ∀ a, con cfg' a = if decide (i = a) then true else con cfg a.
Proof.
  intros [Hn Hc Hw Hl] Hf Hi. unfold connect.
  destruct (proj2 (slice_set_is_Some (connected cfg) i true)) as [l El]; [by rewrite Hc|]. rewrite El. cbn [mbind option_bind].
  set (c0 := set_connected l cfg). pose proof (λ a, con_set cfg i true l a El) as Hcon.
  assert (Hlen : len l = n cfg) by (rewrite <-Hc; by eapply slice_set_len).
  assert (L : ∀ out (c1 : config), frame c0 c1 →
    for_range (n c1) (λ j cfg, c ← slice_get (connected cfg) j;
      if c : bool then e ← endname (endnames cfg) (side out i j).1 (side out i j).2; Some (Enable e true cfg) else Some cfg) c1 =
    for_range (n c1) (λ j cfg, if con c0 j then e ← endname (endnames cfg) (side out i j).1 (side out i j).2; Some (Enable e true cfg)
      else Some cfg) c1).
  { intros out c1 HF. apply (for_range_ext (frame c0)); [done|]. intros j c2 Hj HF2.
    destruct (frame_endnames _ _ HF) as (_ & _ & En). destruct (frame_endnames _ _ HF2) as (_ & Ec & _).
    destruct (proj2 (slice_get_is_Some l j)) as [b Hb]; [rewrite Hlen; rewrite En in Hj; done|].
    rewrite Ec. unfold con. simpl. rewrite Hb. simpl. split; [done|]. intros c3.
    destruct b; [|by intros [= <-]]. intros (e & _ & [= <-])%bind_Some. by apply frame_Enable. }
  pose proof (L true c0 (frame_refl c0)) as L1. simpl in L1. change (n c0) with (n cfg). rewrite L1. clear L1.
  destruct (switch_side true i true (con c0) c0) as (c1 & E1 & HF1 & Hw1 & _ & _ & Hl1);
    [done|done|intros j Hj _; by eapply endname_Some|].
  simpl in E1. rewrite E1. cbn [mbind option_bind]. destruct (frame_endnames _ _ HF1) as (Ee & Ec & En).
  pose proof (L false c1 HF1) as L2. simpl in L2. rewrite L2. clear L2. rewrite En in *.
  destruct (switch_side false i true (con c0) c1) as (c2 & E2 & HF2 & Hw2 & _ & _ & Hl2); rewrite ?En, ?Ee; try done.
  { intros j Hj _. by eapply endname_Some. }
  rewrite En in E2. exists c2. split; [exact E2|].
  destruct (frame_endnames _ _ HF2) as (Ee2 & Ec2 & En2). rewrite Ee in Ee2, Hw2. rewrite Ec in Ec2. rewrite En in En2, Hw2.
  assert (Hcon2 : ∀ a, con c2 a = con c0 a) by (intros a; unfold con; by rewrite Ec2).
  split_and!; [|done|done|intros a; rewrite Hcon2; by apply Hcon].
  split; rewrite ?En2, ?Ee2, ?Ec2; try done. intros a c Ha Hc'. rewrite !Hcon2.
  rewrite Hl2, Hl1 by (rewrite ?En; done). change (link c0 a c) with (link cfg a c). rewrite Hl by done. unfold hit.
  fold c0 in Hcon. rewrite !Hcon. destruct (Z.eqb_spec a i), (Z.eqb_spec c i); subst; repeat case_decide; try done;
    repeat match goal with |- context [con cfg ?x] => destruct (con cfg x) end; try done; congruence.
Qed.

Definition has_row cfg j : bool := match slice_get (endnames cfg) j with Some (Some _) => true | _ => false end.

Lemma link_no_row cfg a c : has_row cfg a = false → link cfg a c = false.
Proof. unfold has_row, link, linked, endname. by destruct (slice_get (endnames cfg) a) as [[]|]. Qed.

Lemma row_endname cfg a c :
  wired (n cfg) (endnames cfg) (net cfg) → has_row cfg a = true → 0 ≤ c < n cfg → is_Some (endname (endnames cfg) a c).
Proof.
  intros Hw Ha Hc. unfold has_row, endname in *. destruct (slice_get (endnames cfg) a) as [[names|]|] eqn:Er; [|done..].
  simpl. apply slice_get_is_Some. by rewrite (wi_row _ _ _ Hw a names Er).
Qed.

Lemma disconnect_wiring i cfg :
  wiring cfg → 0 ≤ i < n cfg →
  ∃ cfg' l, disconnect i cfg = Some cfg' ∧ wiring cfg' ∧ frame (set_connected l cfg) cfg' ∧
    LR.ends (net cfg') = LR.ends (net cfg) ∧ ∀ a, con cfg' a = if decide (i = a) then false else con cfg a.
Proof.
  intros [Hn Hc Hw Hl] Hi. unfold disconnect.
  destruct (proj2 (slice_set_is_Some (connected cfg) i false)) as [l El]; [by rewrite Hc|]. rewrite El. cbn [mbind option_bind].
  set (c0 := set_connected l cfg). pose proof (λ a, con_set cfg i false l a El) as Hcon. fold c0 in Hcon.
  assert (L : ∀ out (c1 : config), frame c0 c1 →
    for_range (n c1) (λ j cfg, row ← slice_get (endnames cfg) (if out : bool then i else j);
      match row with None => Some cfg | Some _ =>
        e ← endname (endnames cfg) (side out i j).1 (side out i j).2; Some (Enable e false cfg) end) c1 =
    for_range (n c1) (λ j cfg, if has_row c0 (if out then i else j)
      then e ← endname (endnames cfg) (side out i j).1 (side out i j).2; Some (Enable e false cfg) else Some cfg) c1).
  { intros out c1 HF. apply (for_range_ext (frame c0)); [done|]. intros j c2 Hj HF2.
    destruct (frame_endnames _ _ HF) as (_ & _ & En). destruct (frame_endnames _ _ HF2) as (Ee & _ & _).
    destruct (proj2 (slice_get_is_Some (endnames c0) (if out then i else j))) as [row Hr].
    { change (endnames c0) with (endnames cfg). rewrite (wi_len _ _ _ Hw). rewrite En in Hj. by destruct out. }
    rewrite Ee, Hr. unfold has_row. rewrite Hr. simpl. destruct row; (split; [done|]); intros c3.
    - intros (e & _ & [= <-])%bind_Some. by apply frame_Enable.
    - by intros [= <-]. }
  pose proof (L true c0 (frame_refl c0)) as L1. simpl in L1. change (n c0) with (n cfg). rewrite L1. clear L1.
  destruct (switch_side true i false (λ _, has_row c0 i) c0) as (c1 & E1 & HF1 & Hw1 & _ & He1 & Hl1);
    [done|done|intros j Hj Hr; by apply row_endname|].
  simpl in E1. rewrite E1. cbn [mbind option_bind]. destruct (frame_endnames _ _ HF1) as (Ee & Ec & En).
  pose proof (L false c1 HF1) as L2. simpl in L2. rewrite L2. clear L2. rewrite En in *.
  destruct (switch_side false i false (has_row c0) c1) as (c2 & E2 & HF2 & Hw2 & _ & He2 & Hl2); rewrite ?En, ?Ee; try done.
  { intros j Hj Hr. by apply row_endname. }
  rewrite En in E2. exists c2, l. split; [exact E2|].
  destruct (frame_endnames _ _ HF2) as (Ee2 & Ec2 & En2). rewrite Ee in Ee2, Hw2. rewrite Ec in Ec2. rewrite En in En2, Hw2.
  assert (Hcon2 : ∀ a, con c2 a = con c0 a) by (intros a; unfold con; by rewrite Ec2).
  split; [|split; [by eapply frame_trans|split; [by rewrite He2, He1|intros a; by rewrite Hcon2, Hcon]]].
  split; rewrite ?En2, ?Ee2, ?Ec2; try done.
  { trans (len (connected cfg)); [by eapply slice_set_len|done]. }
  intros a c Ha Hc'. rewrite !Hcon2, Hl2, Hl1 by (rewrite ?En; done).
  change (link c0 a c) with (link cfg a c). unfold hit. rewrite !Hcon.
  pose proof (link_no_row cfg a c) as Hno. change (has_row c0) with (has_row cfg).
  destruct (Z.eqb_spec a i), (Z.eqb_spec c i); subst; repeat case_decide; try done; simpl;
    repeat match goal with |- context [has_row cfg ?x] => destruct (has_row cfg x) eqn:? end;
    rewrite ?Hno, ?Hl by done; rewrite ?andb_false_r; try done; congruence.
Qed.

(** What [wiring] depends on. *)
Definition wires cfg : Z * list (option (list Z)) * list bool * gset Z * gmap Z bool :=
  (n cfg, endnames cfg, connected cfg, LR.ends (net cfg), LR.enabled (net cfg)).

Lemma wires_same cfg cfg' :
  wires cfg' = wires cfg →
  n cfg' = n cfg ∧ endnames cfg' = endnames cfg ∧ LR.ends (net cfg') = LR.ends (net cfg) ∧
  (∀ a, con cfg' a = con cfg a) ∧ (∀ a c, link cfg' a c = link cfg a c) ∧ (wiring cfg → wiring cfg').
Proof.
  intros [= En Ee Ec Es Eb].
  assert (Hl : ∀ a c, link cfg' a c = link cfg a c) by (intros a c; unfold link, linked, LR.end_enabled; by rewrite Ee, Eb).
  assert (Hc : ∀ a, con cfg' a = con cfg a) by (intros a; unfold con; by rewrite Ec).
  split_and!; try done. intros [? ? [? ? ? Hk] Hlk]. split; rewrite ?En, ?Ec, ?Ee; [done..| |].
  - split; try done. intros i j e He. rewrite Es. eauto.
  - intros a c Ha Hc'. rewrite Hl, !Hc. by apply Hlk.
Qed.

Lemma copy_saved_wires i cfg cfg' : copy_saved i cfg = Some cfg' → wires cfg' = wires cfg.
Proof.
  unfold copy_saved. intros (sv & _ & E)%bind_Some. destruct sv; [|by simplify_eq].
  apply bind_Some in E as (ps & _ & (l & _ & [= <-])%bind_Some). done.
Qed.

Lemma ingest_wires i snap x cfg cfg' b : ingestSnap i snap x cfg = Some (cfg', b) → wires cfg' = wires cfg.
Proof.
  unfold ingestSnap. case_decide; [done|]. intros ([li rest] & _ & ([xl r] & _ & E)%bind_Some)%bind_Some.
  destruct (_ && _); [by simplify_eq|]. apply bind_Some in E as (l1 & _ & (l2 & _ & [= <- <-])%bind_Some). done.
Qed.

Lemma crash1_wiring i cfg cfg' :
  wiring cfg → 0 ≤ i < n cfg → crash1 i cfg = Some cfg' →
  wiring cfg' ∧ n cfg' = n cfg ∧ endnames cfg' = endnames cfg ∧ LR.ends (net cfg') = LR.ends (net cfg) ∧
  ∀ a, con cfg' a = if decide (i = a) then false else con cfg a.
Proof.
  intros Hw Hi E. destruct (disconnect_wiring i cfg Hw Hi) as (c1 & l & E1 & Hw1 & HF & He & Hc).
  destruct (frame_endnames _ _ HF) as (Ee & _ & En). unfold crash1 in E. rewrite E1 in E. cbn [mbind option_bind] in E.
  apply bind_Some in E as (c2 & E2%copy_saved_wires & E). apply bind_Some in E as (rf & _ & E).
  apply bind_Some in E as (c3 & E3 & E). assert (wires c3 = wires c2) as W3.
  { destruct rf; [|by simplify_eq]. by apply bind_Some in E3 as (rf' & _ & (rs & _ & [= <-])%bind_Some). }
  apply bind_Some in E as (sv & _ & E). assert (wires cfg' = wires c3) as W4.
  { destruct sv; [|by simplify_eq]. by apply bind_Some in E as (ps & _ & (sv' & _ & [= <-])%bind_Some). }
  assert (wires cfg' = wires c1) as Hsame by (rewrite W4, W3, E2; done).
  destruct (wires_same _ _ Hsame) as (-> & -> & -> & Hc' & _ & Hwg). split_and!; [by apply Hwg|done|done|done|].
  intros a. by rewrite Hc', Hc.
Qed.

Lemma start1_wiring draws i cfg cfg' :
  wiring cfg → 0 ≤ i < n cfg → start1 MakeService draws i cfg = Some cfg' →
  wiring cfg' ∧ n cfg' = n cfg ∧ slice_set (endnames cfg) i (Some (draws <$> seqZ 0 (n cfg))) = Some (endnames cfg') ∧
  ∀ a, con cfg' a = if decide (i = a) then false else con cfg a.
Proof.
  intros Hw Hi E. unfold start1 in E. apply bind_Some in E as (c1 & E1 & E).
  destruct (crash1_wiring i cfg c1 Hw Hi E1) as (Hw1 & En & Ee & _ & Hc). rewrite En, Ee in E.
  set (names := draws <$> seqZ 0 (n cfg)) in *.
  apply bind_Some in E as (es & Hes & E). cbn [net set_endnames] in E. apply bind_Some in E as (rn & Hrn & E).
  destruct (make_ends_inv _ _ _ _ Hrn) as [Hnd Hfr].
  destruct (make_ends_spec names id (net c1) Hnd Hfr) as (rn' & Hrn' & HM). rewrite Hrn in Hrn'. injection Hrn' as <-.
  set (c2 := set_net rn (set_endnames es c1)) in *.
  assert (Hln : len names = n c1).
  { unfold names, len. rewrite length_fmap, length_seqZ, En. pose proof (wg_n _ Hw). lia. }
  rewrite <-Ee in Hes.
  assert (Hw2 : wiring c2).
  { destruct Hw1 as [H0 Hcl Hwd Hlk]. split; [done|done| |].
    - exact (wired_renew _ _ _ _ _ _ _ _ Hwd Hes Hln Hnd Hfr HM).
    - intros a c Ha Hc'. change (con c2) with (con c1). unfold link. simpl.
      rewrite (linked_renew _ _ _ _ _ _ _ _ a c Hwd Hes Hfr HM). fold (link c1 a c). case_decide as Hia.
      + by rewrite Hc, decide_True.
      + by apply Hlk. }
  apply bind_Some in E as (last & _ & E). apply bind_Some in E as (sv & _ & E). apply bind_Some in E as ([c3 ps] & E3 & E).
  assert (wires c3 = wires c2) as W3.
  { destruct sv; [|by simplify_eq]. apply bind_Some in E3 as (c4 & W4%copy_saved_wires & E3).
    apply bind_Some in E3 as (sv' & _ & (p0 & _ & (ps' & _ & E3)%bind_Some)%bind_Some).
    case_decide; [|injection E3 as <- <-; exact W4]. apply bind_Some in E3 as ([c5 err] & W5%ingest_wires & E3).
    destruct err; [done|]. injection E3 as <- <-. exact (eq_trans W5 W4). }
  apply bind_Some in E as (rs & _ & (sv' & _ & [= <-])%bind_Some).
  set (c6 := set_net _ _). assert (wires c6 = wires c2) as W6 by (rewrite <-W3; done).
  destruct (wires_same _ _ W6) as (-> & -> & _ & Hc' & _ & Hwg). split_and!; [by apply Hwg|done|by rewrite <-Ee|].
  intros a. rewrite Hc'. exact (Hc a).
Qed.

Lemma checkLogs_wires i m cfg x y cfg' : checkLogs i m cfg = Some (cfg', x, y) → wires cfg' = wires cfg.
Proof.
  unfold checkLogs. intros (err & _ & (l & _ & (ls & _ & [= <- _ _])%bind_Some)%bind_Some)%bind_Some. done.
Qed.

Lemma applier_wires i m cfg cfg' : applier i m cfg = Some cfg' → wires cfg' = wires cfg.
Proof.
  unfold applier. destruct (am_CommandValid m); [|by intros [= <-]].
  intros ([[c1 err] ok] & E1%checkLogs_wires & E)%bind_Some. destruct (_ && _); [done|]. destruct err; [done|].
  by injection E as <-.
Qed.

Lemma applierSnap_wires i k m cfg cfg' : applierSnap i k m cfg = Some cfg' → wires cfg' = wires cfg.
Proof.
  unfold applierSnap. destruct (am_SnapshotValid m).
  { intros ([c1 err] & E1%ingest_wires & E)%bind_Some. destruct err; [done|]. by injection E as <-. }
  destruct (am_CommandValid m); [|by intros [= <-]].
  intros (last & _ & ([c1 bad] & E1 & E)%bind_Some)%bind_Some.
  assert (wires c1 = wires cfg) as W1.
  { destruct (negb _); [by injection E1 as <- _|]. apply bind_Some in E1 as ([[c2 err] ok] & E2%checkLogs_wires & E1).
    by injection E1 as <- _. }
  apply bind_Some in E as (last' & _ & (c3 & E3 & E)%bind_Some). rewrite <-W1.
  assert (wires c3 = wires c1) as W3.
  { destruct (_ =? 0); [|by injection E3 as <-]. apply bind_Some in E3 as (l & _ & (rf & _ & (rf' & _ & [= <-])%bind_Some)%bind_Some).
    done. }
  destruct bad; [done|]. by injection E as <-.
Qed.

(** What the tests, the appliers and the servers do. *)
Inductive hstep cfg : config → Prop :=
  | h_connect i cfg' : 0 ≤ i < n cfg → connect i cfg = Some cfg' → hstep cfg cfg'
  | h_disconnect i cfg' : 0 ≤ i < n cfg → disconnect i cfg = Some cfg' → hstep cfg cfg'
  | h_crash i cfg' : 0 ≤ i < n cfg → crash1 i cfg = Some cfg' → hstep cfg cfg'
  | h_start draws i cfg' : 0 ≤ i < n cfg → start1 MakeService draws i cfg = Some cfg' → hstep cfg cfg'
  | h_apply i m cfg' : applier i m cfg = Some cfg' → hstep cfg cfg'
  | h_applySnap i k m cfg' : applierSnap i k m cfg = Some cfg' → hstep cfg cfg'
  | h_raft k rf : hstep cfg (set_rafts (<[k := rf]> (objs cfg)) (rafts cfg) cfg).

Definition wired_up cfg : Prop := wiring cfg ∧ full (n cfg) (endnames cfg).

Lemma wired_up_wires cfg cfg' : wires cfg' = wires cfg → wired_up cfg → wired_up cfg'.
Proof. intros Hs [Hw Hf]. destruct (wires_same _ _ Hs) as (En & Ee & _ & _ & _ & HW). split; [by apply HW|by rewrite En, Ee]. Qed.

Lemma hstep_wired cfg cfg' : wired_up cfg → hstep cfg cfg' → wired_up cfg'.
Proof.
  intros HU. pose proof HU as [Hw Hf]. destruct 1 as [i cfg' Hi E|i cfg' Hi E|i cfg' Hi E|draws i cfg' Hi E|i m cfg' E|i k m cfg' E|k rf].
  - destruct (connect_wiring i cfg Hw Hf Hi) as (c1 & E1 & Hw1 & En & Ee & _). rewrite E1 in E. injection E as <-.
    split; [done|by rewrite En, Ee].
  - destruct (disconnect_wiring i cfg Hw Hi) as (c1 & l & E1 & Hw1 & HF & _). rewrite E1 in E. injection E as <-.
    destruct (frame_endnames _ _ HF) as (Ee & _ & En). split; [done|by rewrite En, Ee].
  - destruct (crash1_wiring i cfg cfg' Hw Hi E) as (Hw1 & En & Ee & _). split; [done|by rewrite En, Ee].
  - destruct (start1_wiring draws i cfg cfg' Hw Hi E) as (Hw1 & En & Ee & _). split; [done|]. rewrite En.
    intros j Hj. rewrite (slice_get_set _ _ _ _ _ Ee). case_decide; [by eauto|by apply Hf].
  - eapply wired_up_wires; [by eapply applier_wires|done].
  - eapply wired_up_wires; [by eapply applierSnap_wires|done].
  - by apply (wired_up_wires cfg).
Qed.

Lemma make_config_wired draws N unreliable cfg :
  0 ≤ N → make_config MakeService draws N unreliable = Some cfg →
  wired_up cfg ∧ n cfg = N ∧ ∀ i, 0 ≤ i < N → con cfg i = true.
Proof.
  intros HN E. unfold make_config in E. set (c0 := set_net _ _) in E.
  assert (Hnone : ∀ A i (x y : A), slice_get (replicate (Z.to_nat N) y) i = Some x → x = y).
  { intros A i x y [_ Hx]%slice_get_Some. by apply lookup_replicate in Hx as [-> _]. }
  assert (Hend : ∀ i j, endname (endnames c0) i j = None).
  { intros i j. unfold endname. simpl. destruct (slice_get _ i) as [x|] eqn:Ex; [|done]. by apply Hnone in Ex as ->. }
  apply bind_Some in E as (c1 & E1 & E2).
  assert (wired_up c1 ∧ n c1 = N) as [[Hw1 Hf1] Hn1].
  { pose proof (for_range_post _ _ (λ i cfg1, wiring cfg1 ∧ n cfg1 = N ∧
      ∀ j, 0 ≤ j < i → ∃ names, slice_get (endnames cfg1) j = Some (Some names)) _ _ E1) as HP.
    rewrite Z.max_r in HP by done. cbv beta in HP. destruct HP as (Hw & Hn & Hr); [| |by rewrite <-Hn in *].
    - split_and!; [|done|lia]. split; [done|unfold len; simpl; rewrite length_replicate; lia| |].
      + split; [unfold len; simpl; rewrite length_replicate; lia|by intros i names ?%Hnone| |];
          intros i j; [intros i' j' e|intros e]; by rewrite Hend.
      + intros a c Ha Hc. unfold link, linked. rewrite Hend. unfold con.
        destruct (slice_get (connected c0) a) as [b|] eqn:Eb; [|done]. by apply Hnone in Eb as ->.
    - intros i s s' Hi (Hw & Hn & Hr) Es. rewrite <-Hn in Hi.
      destruct (start1_wiring _ _ _ _ Hw Hi Es) as (Hw' & Hn' & Ee & _). split_and!; [done|congruence|].
      intros j Hj. rewrite (slice_get_set _ _ _ _ _ Ee). case_decide; [by eauto|]. apply Hr. lia. }
  pose proof (for_range_post _ _ (λ i cfg1, wired_up cfg1 ∧ n cfg1 = N ∧ ∀ j, 0 ≤ j < i → con cfg1 j = true) _ _ E2) as HP.
  rewrite Z.max_r in HP by done. cbv beta in HP. destruct HP as (HU & Hn & Hc); [| |done].
  - split_and!; try done. lia.
  - intros i s s' Hi ([Hw Hf] & Hn & Hc) Es. rewrite <-Hn in Hi.
    destruct (connect_wiring i s Hw Hf Hi) as (c2 & Ec & Hw2 & En & Ee & Hc2). rewrite Ec in Es. injection Es as <-.
    split; [by split; [|rewrite En, Ee]|]. split; [congruence|]. intros j Hj. rewrite Hc2. case_decide; [done|]. apply Hc. lia.
Qed.

(** partitions of the tests. [make_config] connects everybody, and through any
    sequence of [connect], [disconnect], crashes, restarts, applied messages and steps
    of the servers, the end from one server to another is enabled exactly when both
    are connected. *)
Theorem links_follow_connected draws N unreliable cfg0 cfg :
  0 ≤ N → make_config MakeService draws N unreliable = Some cfg0 → rtc hstep cfg0 cfg →
  (∀ i, 0 ≤ i < N → con cfg0 i = true) ∧
  ∀ i j, 0 ≤ i < n cfg → 0 ≤ j < n cfg → link cfg i j = con cfg i && con cfg j.
Proof.
  intros HN E H. destruct (make_config_wired draws N unreliable cfg0 HN E) as (HU & _ & Hc). split; [done|].
  assert (wired_up cfg) as [Hw _]; [|apply Hw]. clear E Hc. induction H; eauto using hstep_wired.
Qed.
End connections.

(** ** Leaders *)

Section leaders.
Context {W Cmd SB : Type}.
Abbreviation config := (@RH.config W Cmd SB).
Abbreviation net := (Net.net Cmd SB).
Implicit Types (cfg : config) (seen : Z → option (Z * bool)).

(** Server [i], connected, said that it leads [t]. *)
Definition claims seen cfg (t i : Z) : Prop := con cfg i = true ∧ seen i = Some (t, true).
#[local] Instance claims_dec seen cfg t i : Decision (claims seen cfg t i).
Proof. unfold claims. apply _. Defined.

Definition claimants seen cfg (k t : Z) : list Z := filter (claims seen cfg t) (seqZ 0 k).

Lemma claimants_snoc seen cfg k t :
  0 ≤ k → claimants seen cfg (k + 1) t = claimants seen cfg k t ++ (if decide (claims seen cfg t k) then [k] else []).
Proof.
  intros Hk. unfold claimants. rewrite seqZ_app, list.filter_app, Z.add_0_l by lia. f_equal.
Qed.

Lemma collect_spec seen cfg :
  0 ≤ n cfg → len (connected cfg) = n cfg → (∀ i, 0 ≤ i < n cfg → is_Some (seen i)) →
  ∃ leaders, collect_leaders seen cfg = Some leaders ∧
    ∀ t ls, leaders !! t = Some ls ↔ ls = claimants seen cfg (n cfg) t ∧ ls ≠ [].
Proof.
  intros Hn Hc Hs. unfold collect_leaders. match goal with |- context [for_range _ ?b _] => set (body := b) end.
  destruct (for_range_inv (n cfg) body (λ k leaders, ∀ t ls, leaders !! t = Some ls ↔ ls = claimants seen cfg k t ∧ ls ≠ []) ∅)
    as (leaders & E & H); [done| | |by exists leaders].
  { intros t ls. rewrite lookup_empty. split; [done|]. by intros [-> ?]. }
  intros k m Hk Hm. unfold body. destruct (proj2 (slice_get_is_Some (connected cfg) k)) as [b Hb]; [lia|]. rewrite Hb.
  assert (Hcon : con cfg k = b) by (unfold con; by rewrite Hb). destruct (Hs k Hk) as [[term leader] Hsk].
  cbn [mbind option_bind]. rewrite Hsk. cbn [mbind option_bind].
  assert (Hcl : ∀ t, claims seen cfg t k ↔ b = true ∧ leader = true ∧ t = term).
  { intros t. unfold claims. rewrite Hcon, Hsk. split; [intros [-> [= -> ->]]; done|by intros (-> & -> & ->)]. }
  assert (Hno : (b = false ∨ leader = false) → ∀ t ls, m !! t = Some ls ↔ ls = claimants seen cfg (k + 1) t ∧ ls ≠ []).
  { intros Hbl t ls. rewrite claimants_snoc by lia. rewrite decide_False, app_nil_r; [apply Hm|].
    rewrite Hcl. intros (-> & -> & _). by destruct Hbl. }
  destruct b; [|by exists m; auto]. eexists. split; [done|]. destruct leader; [|by auto].
  intros t ls. rewrite claimants_snoc by lia. destruct (decide (t = term)) as [->|Hne].
  - rewrite lookup_insert_eq, decide_True by (by apply Hcl).
    assert (default [] (m !! term) = claimants seen cfg k term) as ->.
    { destruct (m !! term) as [l|] eqn:El; simpl; [by apply Hm in El as [-> _]|].
      destruct (claimants seen cfg k term) as [|x l] eqn:Ex; [done|].
      assert (m !! term = Some (x :: l)) by (apply Hm; by rewrite Ex). congruence. }
    split; [intros [= <-]; split; [done|by destruct (claimants seen cfg k term)]|]. by intros [-> _].
  - rewrite lookup_insert_ne by done. rewrite decide_False, app_nil_r; [apply Hm|]. rewrite Hcl. by intros (_ & _ & ?).
Qed.

Lemma last_term_spec order (leaders : gmap Z (list Z)) :
  (∀ t, t ∈ order → ∃ ls, leaders !! t = Some ls ∧ len ls ≤ 1) →
  ∃ last, last_term order leaders = Some last ∧ -1 ≤ last ∧
    (∀ t, t ∈ order → t ≤ last) ∧ (last = -1 ∨ last ∈ order).
Proof.
  unfold last_term. induction order as [|t order IH] using rev_ind; intros H.
  { exists (-1). split_and!; [done|lia|set_solver|by left]. }
  destruct IH as (last & E & Hge & Hle & Hor); [intros; apply H; set_solver|].
  rewrite for_list_snoc, E. cbn [mbind option_bind]. destruct (H t) as (ls & -> & Hl); [set_solver|]. cbn [mbind option_bind].
  destruct (Z.ltb_spec 1 (len ls)); [lia|]. eexists. split; [done|].
  destruct (Z.ltb_spec last t); split_and!; try lia.
  - intros x [?%Hle| ->%list_elem_of_singleton]%elem_of_app; lia.
  - right. set_solver.
  - intros x [?%Hle| ->%list_elem_of_singleton]%elem_of_app; lia.
  - destruct Hor; [by left|right; set_solver].
Qed.

(** The answers of the servers, asked one after the other: server [i] in state [i] of
    [ss]. *)
Definition watch (ss : list net) (i : Z) : option (Z * bool) :=
  s ← slice_get ss i; rf ← Net.peers s !! i; Some (RF.GetState rf).

(** The states of a run, in this order. *)
Inductive run_of : net → list net → Prop :=
  | run_nil s : run_of s []
  | run_cons s s' ss : rtc Net.next s s' → run_of s' ss → run_of s (s' :: ss).

Lemma run_of_reach s ss k sk : run_of s ss → ss !! k = Some sk → rtc Net.next s sk.
Proof.
  intros H. revert k. induction H as [s|s s' ss Hs _ IH]; intros [|k] Hk; simplify_eq/=; [done|].
  etrans; [done|by eapply IH].
Qed.

Lemma run_of_later s ss a b sa sb :
  run_of s ss → ss !! a = Some sa → ss !! b = Some sb → (a ≤ b)%nat → rtc Net.next sa sb.
Proof.
  intros H. revert a b. induction H as [s|s s' ss Hs H IH]; intros [|a] [|b] Ha Hb Hab; simplify_eq/=; try done; try lia.
  - by eapply run_of_reach.
  - eapply IH; [done..|lia].
Qed.

Section cluster.
Context (N : Z) (ss : list net) (cfg : config).
Context (Hrun : run_of (Net.init N) ss) (Hlen : len ss = N) (Hn : n cfg = N) (Hcon : len (connected cfg) = N).

Lemma watch_Some i :
  0 ≤ i < N → ∃ s rf, ss !! Z.to_nat i = Some s ∧ Net.peers s !! i = Some rf ∧ watch ss i = Some (RF.GetState rf) ∧
    1 ≤ RF.currentTerm rf.
Proof.
  intros Hi. destruct (proj2 (slice_get_is_Some ss i)) as [s Hs]; [lia|]. pose proof Hs as [_ Hs']%slice_get_Some.
  destruct (runs_refine N _ _ _ (init_sim N) (run_of_reach _ _ _ _ Hrun Hs')) as (b & Hb & R).
  assert (Ht : ∀ p, 0 ≤ p < N → terms0 N !! p = Some 1).
  { intros p Hp. apply elem_of_list_to_map_1'.
    - by intros y (q & [= -> ->] & _)%list_elem_of_fmap.
    - apply list_elem_of_fmap. exists p. split; [done|]. apply elem_of_seqZ. lia. }
  assert (Hpos : BL.positive (BL.bfresh (terms0 N))).
  { intros p x Hp. simpl in Hp. rewrite lookup_fmap in Hp. apply fmap_Some in Hp as (t & Hp & ->). simpl.
    apply elem_of_list_to_map_2, list_elem_of_fmap in Hp as (q & [= -> ->] & _). done. }
  assert (is_Some (Net.peers s !! i)) as [rf Hrf].
  { apply elem_of_dom. pose proof (BL.bdom_steps N _ _ Hb) as Hd. destruct (si_shows _ _ _ R) as (Hp & _).
    rewrite Hp, dom_fmap_L in Hd. rewrite Hd. simpl. rewrite dom_fmap_L. apply elem_of_dom. rewrite Ht; [by eexists|done]. }
  exists s, rf. split_and!; [done|done|by unfold watch; rewrite Hs; simpl; rewrite Hrf|].
  exact (BL.positive_steps N _ _ Hpos Hb i _ (sim_peer N s b i rf R Hrf)).
Qed.

(** Two servers that lead the same term, whenever they are asked, are the same. *)
Lemma watch_unique i j t :
  0 ≤ i < N → 0 ≤ j < N → watch ss i = Some (t, true) → watch ss j = Some (t, true) → i = j.
Proof.
  assert (G : ∀ i j, 0 ≤ i ≤ j → j < N → watch ss i = Some (t, true) → watch ss j = Some (t, true) → i = j).
  { intros a b Hab Hb Ea Eb.
    destruct (watch_Some a) as (sa & rfa & Hsa & Hpa & Wa & _); [lia|]. destruct (watch_Some b) as (sb & rfb & Hsb & Hpb & Wb & _); [lia|].
    rewrite Wa in Ea. rewrite Wb in Eb. unfold RF.GetState in Ea, Eb. injection Ea as Ta La. injection Eb as Tb Lb.
    apply bool_decide_eq_true in La, Lb.
    destruct (runs_refine N _ _ _ (init_sim N) (run_of_reach _ _ _ _ Hrun Hsa)) as (b1 & Hb1 & R1).
    assert (rtc Net.next sa sb) as Hlat by (eapply run_of_later; [done..|lia]).
    destruct (runs_refine N _ _ _ R1 Hlat) as (b2 & Hb2 & R2).
    eapply (BL.ballot_safe N (terms0 N) b1 b2 a b (proj rfa) (proj rfb)); eauto using terms0_dom, sim_peer.
    simpl. congruence. }
  intros Hi Hj Ei Ej. destruct (decide (i ≤ j)); [by apply G; [lia|lia| |]|symmetry; by apply G; [lia|lia| |]].
Qed.

(** no false alarm. When the servers are peers of a [raft.go] cluster that goes on
    running while [checkOneLeader] asks them one after the other, a round never fails:
    it never finds two leaders of a term, and it answers the connected server that
    claimed the highest term, or nobody when no connected server claimed to lead. *)
Theorem checkOneLeader_round order :
  (∀ leaders, collect_leaders (watch ss) cfg = Some leaders → ∀ t, t ∈ order ↔ is_Some (leaders !! t)) →
  (∃ i t, check_round (watch ss) order cfg = Some (Some i) ∧ claims (watch ss) cfg t i ∧
     ∀ j u, 0 ≤ j < N → claims (watch ss) cfg u j → u < t ∨ u = t ∧ j = i) ∨
  (check_round (watch ss) order cfg = Some None ∧ ∀ j u, 0 ≤ j < N → ¬ claims (watch ss) cfg u j).
Proof.
  intros Hord. assert (0 ≤ N) as HN by (rewrite <-Hlen; apply len_nonneg).
  destruct (collect_spec (watch ss) cfg) as (leaders & E & HL); [by rewrite Hn|by rewrite Hn| |].
  { intros i Hi. rewrite Hn in Hi. destruct (watch_Some i Hi) as (? & ? & _ & _ & -> & _). by eexists. }
  specialize (Hord leaders E). rewrite Hn in HL. unfold check_round. rewrite E. cbn [mbind option_bind].
  assert (Hin : ∀ t i, i ∈ claimants (watch ss) cfg N t ↔ claims (watch ss) cfg t i ∧ 0 ≤ i < N).
  { intros t i. unfold claimants. rewrite list_elem_of_filter, elem_of_seqZ. naive_solver lia. }
  assert (Hone : ∀ t ls, leaders !! t = Some ls → ∃ i, ls = [i] ∧ claims (watch ss) cfg t i ∧ 0 ≤ i < N).
  { intros t ls [-> Hne]%HL. assert (NoDup (claimants (watch ss) cfg N t)) as Hnd by apply list.NoDup_filter, NoDup_seqZ.
    destruct (claimants (watch ss) cfg N t) as [|i [|j l]] eqn:Ec; [done|exists i; split; [done|]; apply Hin; rewrite Ec; set_solver|].
    exfalso. assert (i ∈ claimants (watch ss) cfg N t ∧ j ∈ claimants (watch ss) cfg N t) as [[[_ Hi] ?]%Hin [[_ Hj] ?]%Hin]
      by (rewrite Ec; set_solver). assert (i = j) as -> by by eapply watch_unique. apply list.NoDup_cons in Hnd as [Hn' _]. set_solver. }
  assert (Hclaim : ∀ t i, 0 ≤ i < N → claims (watch ss) cfg t i → leaders !! t = Some [i]).
  { intros t i Hi Hc. destruct (claimants (watch ss) cfg N t) as [|x l] eqn:Ec.
    { assert (i ∈ claimants (watch ss) cfg N t) by by apply Hin. rewrite Ec in *. set_solver. }
    assert (leaders !! t = Some (x :: l)) as Hl by (apply HL; by rewrite Ec). rewrite Hl.
    destruct (Hone t _ Hl) as (y & Ey & [_ Hy] & Hr). injection Ey as -> ->. do 2 f_equal.
    destruct Hc as [_ Hc]. by eapply watch_unique. }
  destruct (last_term_spec order leaders) as (last & -> & _ & Hle & Hor).
  { intros t [ls Hls]%Hord. exists ls. split; [done|]. by destruct (Hone t ls Hls) as (i & -> & _). }
  cbn [mbind option_bind]. case_decide as Hem.
  { right. split; [done|]. intros j u Hj Hc%Hclaim; [|done]. by rewrite Hem in Hc. }
  left. destruct (map_choose _ Hem) as (t0 & ls0 & H0). destruct (Hone t0 ls0 H0) as (i0 & -> & [_ Hs0] & Hi0).
  assert (1 ≤ t0) as Ht0.
  { destruct (watch_Some i0 Hi0) as (s & rf & _ & _ & Hw & Hp). rewrite Hw in Hs0. by injection Hs0 as <-. }
  assert (t0 ≤ last) by (apply Hle, Hord; by eexists). destruct Hor as [->|[ls Hls]%Hord]; [lia|].
  destruct (Hone last ls Hls) as (i & -> & Hc & Hi). rewrite Hls. cbn [mbind option_bind]. exists i, last.
  split_and!; [done|done|]. intros j u Hj Hcj. pose proof (Hclaim u j Hj Hcj) as Hu.
  assert (u ≤ last) by (apply Hle, Hord; by eexists). destruct (decide (u = last)) as [->|]; [right|left; lia].
  split; [done|]. rewrite Hu in Hls. by injection Hls.
Qed.
End cluster.
End leaders.

(** ** Runs *)

Module RaftHarnessRuns.

(** Snapshots of the harness hold an index and a list of commands. *)
Inductive hgob := HInt (z : Z) | HLog (l : list (option Z)).
#[local] Instance gob_int : GobType hgob Z.
Proof. by refine {| to_gob := HInt; of_gob v := match v with HInt z => Some z | _ => None end |}. Defined.
#[local] Instance gob_log : GobType hgob (list (option Z)).
Proof. by refine {| to_gob := HLog; of_gob v := match v with HLog l => Some l | _ => None end |}. Defined.

Definition no_service (_ : nat) : LR.Service unit := LR.mkService String.EmptyString ∅.
Definition draws (i j : Z) : Z := 100 + 3 * i + j.

(** *** Connections *)

Definition nothing : @RH.config unit Z hgob := mkConfig 0 LR.MakeNetwork 0 [] [] [] [] [] [] [] 0 0 0 0 0.
Definition booted : @RH.config unit Z hgob := default nothing (make_config no_service draws 3 false).
Definition cut : @RH.config unit Z hgob := default nothing (disconnect 1 booted).

Lemma cut_step : hstep no_service booted cut.
Proof. apply (h_disconnect _ _ 1); vm_compute; done. Qed.

Lemma links_witness : link cut 0 2 = true ∧ link cut 0 1 = con cut 0 && con cut 1 ∧ con cut 1 = false.
Proof.
  split; [vm_compute; reflexivity|]. split; [|vm_compute; reflexivity].
  apply (links_follow_connected no_service draws 3 false booted cut).
  - done.
  - vm_compute. reflexivity.
  - apply rtc_once, cut_step.
  - vm_compute. done.
  - vm_compute. done.
Defined.

(** *** Applied messages *)

Definition tester (k : Z) : @RH.config unit Z unit :=
  mkConfig 0 LR.MakeNetwork k [] (replicate (Z.to_nat k) None) (replicate (Z.to_nat k) true) [] []
    (replicate (Z.to_nat k) ∅) [] 0 0 0 0 0.
Definition command (index c : Z) : ApplyMsg Z unit := mkApplyMsg true (Some c) index false [] 0 0.

Definition good : list (Z * ApplyMsg Z unit) := [(0, command 1 10); (1, command 1 10); (0, command 2 20)].

Lemma applier_witness : is_Some (feed good (tester 3)) ∧ agreement good ∧ no_gap good.
Proof.
  assert (is_Some (feed good (tester 3))) as H by (eexists; vm_compute; reflexivity). split; [exact H|].
  apply (applier_accepts_iff good (tester 3)).
  - intros i l [_ Hl]%slice_get_Some. by apply (lookup_replicate 3 ∅) in Hl as [-> _].
  - intros i m Hin. unfold good in Hin. assert (i = 0 ∨ i = 1) as [->| ->] by set_solver; vm_compute; done.
  - exact H.
Defined.

(** The deliveries of [SafeRun]. *)
Definition safe : list (Z * ApplyMsg Z unit) := [(1, SafeRun.ten); (0, SafeRun.ten)].

Lemma judge_witness : is_Some (feed safe (tester 3)).
Proof.
  apply (judge_accepts_cluster 3 SafeRun.final safe (tester 3)).
  - apply SafeRun.safe_final_run.
  - intros i m Hin. assert (m = SafeRun.ten ∧ (i = 0 ∨ i = 1)) as [-> Hi] by (unfold safe in Hin; set_solver).
    split; [destruct Hi as [->| ->]; vm_compute; done|]. exists [SafeRun.ten].
    split; [destruct Hi as [->| ->]; vm_compute; reflexivity|]. by apply list_elem_of_singleton.
  - intros [|[|k]] i m E _ H; simplify_eq/=; lia.
  - intros i l [_ Hl]%slice_get_Some. by apply (lookup_replicate 3 ∅) in Hl as [-> _].
Defined.

(** The run of [StaleAppend], in which two peers apply different commands at index 2,
    does not pass. *)
Definition stale : list (Z * ApplyMsg Z unit) :=
  (pair 0 <$> default [] (Net.applied StaleAppend.final !! 0)) ++ (pair 1 <$> default [] (Net.applied StaleAppend.final !! 1)).
Example tester_catches_stale_append : feed stale (tester 3) = None.
Proof. vm_compute. reflexivity. Qed.

(** *** Agreement *)

(** One server, which leads, and applies the command before the first poll. *)
Definition alone : @RH.config unit Z unit :=
  mkConfig 0 LR.MakeNetwork 1 [RF.set_role Leader (RF.Make 1 0 PS.MakePersister)] [Some 0%nat] [true] [None] [None]
    [∅] [0] 0 0 0 0 0.
Definition applies (cfg : @RH.config unit Z unit) : @RH.config unit Z unit := default cfg (applier 0 (command 1 10) cfg).
Definition agreed : @RH.config unit Z unit :=
  fst (default (alone, -1) (one (Some 10) 1 false 0 [(id, [applies])] alone)).

Lemma one_witness : 0 < len (holders 1 agreed) ∧ 1 ≤ len (holders 1 agreed) ∧ ∀ c, c ∈ holders 1 agreed → c = Some 10.
Proof.
  apply (one_sound (Some 10) 1 false 0 [(id, [applies])] alone agreed 1).
  - vm_compute. reflexivity.
  - done.
Defined.

(** *** Leaders *)

(** Peer 0 has been elected in term 2. *)
Definition elected : Net.net Z unit := default (Net.init 3) (Net.exec (take 7 StaleAppend.events) (Net.init 3)).

Lemma lead_reach : rtc Net.next (Net.init 3) elected.
Proof. apply (Net.exec_rtc (take 7 StaleAppend.events)). vm_compute. reflexivity. Qed.

Definition asked : list (Net.net Z unit) := [elected; elected; elected].

Lemma checkOneLeader_witness :
  check_round (watch asked) [2] (tester 3) = Some (Some 0) ∧
  ((∃ i t, check_round (watch asked) [2] (tester 3) = Some (Some i) ∧ claims (watch asked) (tester 3) t i ∧
     ∀ j u, 0 ≤ j < 3 → claims (watch asked) (tester 3) u j → u < t ∨ u = t ∧ j = i) ∨
  (check_round (watch asked) [2] (tester 3) = Some None ∧ ∀ j u, 0 ≤ j < 3 → ¬ claims (watch asked) (tester 3) u j)).
Proof.
  split; [vm_compute; reflexivity|]. apply (checkOneLeader_round 3 asked (tester 3)).
  - repeat (apply run_cons; [first [apply lead_reach|apply rtc_refl]|]). apply run_nil.
  - reflexivity.
  - reflexivity.
  - reflexivity.
  - intros leaders E t. assert (collect_leaders (watch asked) (tester 3) = Some {[2 := [0]]}) as E' by (vm_compute; reflexivity).
    rewrite E' in E. injection E as <-. rewrite list_elem_of_singleton. split; [intros ->; by eexists|].
    intros [x [<- _]%lookup_singleton_Some]. done.
Defined.
End RaftHarnessRuns.
