(* ===== verification/Bitset.v ===== *)
(** [src/src/porcupine/bitset.go]: sets of operation ids as slices of 64-bit
    words.  A word is a [Z] in [0 <= w < 2^64]; an index outside the slice is a
    Go panic, [None].  [bits_ok] is the invariant of the words; [set], [clear]
    and [get] obey the laws of a set of positions, and [equals] is equality. *)

From S2P Require Import Prelude.

#[local] Open Scope Z_scope.

(** Conversion to [uint64] or [uint]. *)
Definition u64 (z : Z) : Z := z mod 2 ^ 64.

Module BS.

Abbreviation bitset := (list Z).
Implicit Types (b : bitset) (pos : Z).

Definition newBitset (bits : Z) : bitset :=
  let extra := if decide (bits mod 64 = 0) then 0 else 1 in
  let chunks := bits / 64 + extra in
  replicate (Z.to_nat chunks) 0.

(** [make] a slice of the same length, [copy] into it. *)
Definition clone b : bitset := make_copy (length b) b.

Definition bitsetIndex pos : Z * Z := (pos / 64, pos mod 64).

Definition set b pos : option bitset :=
  let '(major, minor) := bitsetIndex pos in
  w ← slice_get b major;
  slice_set b major (Z.lor w (u64 (Z.shiftl 1 minor))).

Definition clear b pos : option bitset :=
  let '(major, minor) := bitsetIndex pos in
  w ← slice_get b major;
  slice_set b major (Z.ldiff w (u64 (Z.shiftl 1 minor))).

Definition get b pos : option bool :=
  let '(major, minor) := bitsetIndex pos in
  w ← slice_get b major;
  Some (negb (Z.land w (u64 (Z.shiftl 1 minor)) =? 0)).

(** [bits.OnesCount64] *)
Definition OnesCount64 (w : Z) : Z :=
  Z.of_nat (length (filter (λ i, Z.testbit w i = true) (seqZ 0 64))).

Definition popcnt b : Z := u64 (foldl (λ total v, total + OnesCount64 v) 0 b).

Definition hash b : Z := foldl Z.lxor (popcnt b) b.

Fixpoint equals_loop b (b2 : bitset) : bool :=
  match b, b2 with
  | v :: b, v2 :: b2 => if decide (v = v2) then equals_loop b b2 else false
  | _, _ => true
  end.

Definition equals b (b2 : bitset) : bool :=
  if decide (len b = len b2) then equals_loop b b2 else false.

(** ** Laws *)

(** Every word fits in 64 bits. *)
Definition bits_ok b : Prop := Forall (λ w, 0 ≤ w < 2 ^ 64) b.

(** [pos] is a position of [b]. *)
Definition in_range b pos : Prop := 0 ≤ pos < 64 * len b.

Lemma mask_eq pos : u64 (Z.shiftl 1 (pos mod 64)) = 2 ^ (pos mod 64).
Proof.
  unfold u64. rewrite Z.shiftl_1_l. apply Z.mod_small.
  pose proof (Z.mod_pos_bound pos 64 ltac:(lia)).
  split; [lia|]. apply Z.pow_lt_mono_r; lia.
Qed.

Lemma in_range_word b pos : in_range b pos → ∃ w, slice_get b (pos / 64) = Some w.
Proof.
  unfold in_range. intros H. apply slice_get_is_Some.
  split; [apply Z.div_pos; lia|]. apply Z.div_lt_upper_bound; lia.
Qed.

Lemma get_word b pos w :
  slice_get b (pos / 64) = Some w → get b pos = Some (Z.testbit w (pos mod 64)).
Proof.
  intros E. unfold get, bitsetIndex. rewrite E. simpl. rewrite mask_eq. f_equal.
  pose proof (Z.mod_pos_bound pos 64 ltac:(lia)) as Hm.
  destruct (Z.testbit w (pos mod 64)) eqn:Et.
  - apply negb_true_iff, Z.eqb_neq. intros E0.
    assert (Z.testbit (Z.land w (2 ^ (pos mod 64))) (pos mod 64) = false) as E1
      by (by rewrite E0, Z.bits_0).
    rewrite Z.land_spec, Et, Z.pow2_bits_true in E1 by lia. done.
  - apply negb_false_iff, Z.eqb_eq. apply Z.bits_inj'. intros n Hn.
    rewrite Z.land_spec, Z.bits_0, Z.pow2_bits_eqb by lia.
    destruct (Z.eqb_spec (pos mod 64) n) as [<-|]; [by rewrite Et|apply andb_false_r].
Qed.

(** Updating the word of [pos] with a function that only touches its bit. *)
Lemma update_spec b pos (f : Z → Z) (v : bool) :
  in_range b pos → bits_ok b →
  (∀ w n, 0 ≤ n →
     Z.testbit (f w) n = if decide (n = pos mod 64) then v else Z.testbit w n) →
  (∀ w, 0 ≤ w < 2 ^ 64 → 0 ≤ f w < 2 ^ 64) →
  ∃ w b', slice_get b (pos / 64) = Some w ∧ slice_set b (pos / 64) (f w) = Some b' ∧
    bits_ok b' ∧ len b' = len b ∧
    ∀ q, in_range b q → get b' q = if decide (q = pos) then Some v else get b q.
Proof.
  intros Hr Hok Hf Hb. destruct (in_range_word b pos Hr) as (w & Ew).
  assert (Hrange : 0 ≤ pos / 64 < len b) by (apply slice_get_is_Some; eauto).
  destruct (proj2 (slice_set_is_Some b (pos / 64) (f w)) Hrange) as [b' Eb'].
  exists w, b'. split_and!; try done.
  - apply slice_set_Some in Eb' as [_ ->]. apply Forall_insert; [done|].
    apply Hb. apply slice_get_Some in Ew as [_ Ew].
    unfold bits_ok in Hok. rewrite Forall_lookup in Hok. eauto.
  - by eapply slice_set_len.
  - intros q Hq. destruct (in_range_word b q Hq) as (wq & Ewq).
    pose proof (slice_get_set _ _ (q / 64) _ _ Eb') as Es.
    pose proof (Z.mod_pos_bound q 64 ltac:(lia)).
    destruct (decide (pos / 64 = q / 64)) as [E|E].
    + rewrite E, Ewq in Ew. injection Ew as ->. rewrite (get_word _ _ _ Es), (get_word _ _ _ Ewq).
      rewrite Hf by lia. destruct (decide (q = pos)) as [->|Hne].
      * by rewrite decide_True.
      * rewrite decide_False; [done|]. intros E2. apply Hne.
        rewrite (Z.div_mod q 64), (Z.div_mod pos 64) by lia. congruence.
    + rewrite Ewq in Es. rewrite (get_word _ _ _ Es), (get_word _ _ _ Ewq).
      rewrite decide_False; [done|]. congruence.
Qed.

Lemma word_bound f w :
  0 ≤ w → (∀ n, 64 ≤ n → Z.testbit (f w) n = false) → 0 ≤ f w → 0 ≤ f w < 2 ^ 64.
Proof.
  intros Hw Hf H0. split; [done|].
  destruct (decide (f w = 0)) as [->|Hz]; [lia|].
  destruct (decide (f w < 2 ^ 64)) as [|Hge]; [done|exfalso].
  assert (64 ≤ Z.log2 (f w)) by (rewrite <-(Z.log2_pow2 64) by lia; apply Z.log2_le_mono; lia).
  pose proof (Z.bit_log2 (f w) ltac:(lia)). specialize (Hf (Z.log2 (f w))). rewrite Hf in *; done.
Qed.

Lemma high_bit w n : 0 ≤ w < 2 ^ 64 → 64 ≤ n → Z.testbit w n = false.
Proof.
  intros Hw Hn. destruct (decide (w = 0)) as [->|]; [apply Z.bits_0|].
  apply Z.bits_above_log2; [lia|]. apply Z.log2_lt_pow2; [lia|].
  eapply Z.lt_le_trans; [apply Hw|]. apply Z.pow_le_mono_r; lia.
Qed.

Lemma set_spec b pos :
  in_range b pos → bits_ok b →
  ∃ b', set b pos = Some b' ∧ bits_ok b' ∧ len b' = len b ∧
    ∀ q, in_range b q → get b' q = if decide (q = pos) then Some true else get b q.
Proof.
  intros Hr Hok. pose proof (Z.mod_pos_bound pos 64 ltac:(lia)) as Hm.
  destruct (update_spec b pos (λ w, Z.lor w (2 ^ (pos mod 64))) true Hr Hok)
    as (w & b' & Ew & Eb & ?).
  - intros w n Hn. rewrite Z.lor_spec, Z.pow2_bits_eqb by lia.
    case_decide; destruct (Z.eqb_spec (pos mod 64) n); try congruence;
      [apply orb_true_r|apply orb_false_r].
  - intros w Hw. apply word_bound with (f := λ w, Z.lor w _); [lia| |].
    + intros n Hn. rewrite Z.lor_spec, high_bit, Z.pow2_bits_eqb by lia.
      destruct (Z.eqb_spec (pos mod 64) n); [lia|done].
    + apply Z.lor_nonneg. lia.
  - exists b'. split; [|done]. unfold set, bitsetIndex. rewrite Ew. simpl. by rewrite mask_eq.
Qed.

Lemma clear_spec b pos :
  in_range b pos → bits_ok b →
  ∃ b', clear b pos = Some b' ∧ bits_ok b' ∧ len b' = len b ∧
    ∀ q, in_range b q → get b' q = if decide (q = pos) then Some false else get b q.
Proof.
  intros Hr Hok. pose proof (Z.mod_pos_bound pos 64 ltac:(lia)) as Hm.
  destruct (update_spec b pos (λ w, Z.ldiff w (2 ^ (pos mod 64))) false Hr Hok)
    as (w & b' & Ew & Eb & ?).
  - intros w n Hn. rewrite Z.ldiff_spec, Z.pow2_bits_eqb by lia.
    case_decide; destruct (Z.eqb_spec (pos mod 64) n); try congruence;
      [apply andb_false_r|apply andb_true_r].
  - intros w Hw. apply word_bound with (f := λ w, Z.ldiff w _); [lia| |].
    + intros n Hn. by rewrite Z.ldiff_spec, high_bit by lia.
    + apply Z.ldiff_nonneg. lia.
  - exists b'. split; [|done]. unfold clear, bitsetIndex. rewrite Ew. simpl. by rewrite mask_eq.
Qed.

(** Two bitsets of one length with the same positions are the same words. *)
Lemma bits_ext b b2 :
  bits_ok b → bits_ok b2 → len b = len b2 →
  (∀ q, in_range b q → get b q = get b2 q) → b = b2.
Proof.
  unfold bits_ok. rewrite !Forall_lookup. intros H1 H2 Hl Hq.
  apply (list_eq_same_length _ _ (length b)); [unfold len in Hl; lia|done|].
  intros i x y Hi Hx Hy. apply Z.bits_inj'. intros n Hn.
  destruct (decide (64 ≤ n)) as [|Hlt]; [by rewrite !high_bit by eauto|].
  pose (q := 64 * Z.of_nat i + n).
  assert (Hdiv : q / 64 = Z.of_nat i) by (unfold q; rewrite Z.mul_comm, Z.div_add_l by lia;
    rewrite Z.div_small by lia; lia).
  assert (Hmod : q mod 64 = n) by (unfold q; rewrite Z.add_comm, Z.mul_comm, Z_mod_plus_full;
    apply Z.mod_small; lia).
  assert (Hget : ∀ l z, l !! i = Some z → get l q = Some (Z.testbit z n)).
  { intros l z Hz. rewrite <-Hmod. apply get_word. rewrite Hdiv. apply slice_get_Some.
    rewrite Nat2Z.id. split; [lia|done]. }
  specialize (Hq q). rewrite (Hget b x), (Hget b2 y) in Hq by done.
  enough (in_range b q) by naive_solver. unfold in_range, len, q. lia.
Qed.

Lemma equals_spec b b2 : equals b b2 = true ↔ b = b2.
Proof.
  unfold equals, len. case_decide as Hl; cycle 1.
  { split; [done|]. intros ->. done. }
  apply Nat2Z.inj in Hl. revert b2 Hl.
  induction b as [|v b IH]; intros [|v2 b2] Hl; simplify_eq/=; [done|].
  case_decide; [|naive_solver]. rewrite IH by done. naive_solver.
Qed.

Lemma clone_id b : clone b = b.
Proof. by apply make_copy_full. Qed.

Lemma newBitset_len n : 0 ≤ n → n ≤ 64 * len (newBitset n).
Proof.
  intros Hn. unfold newBitset, len. rewrite length_replicate.
  pose proof (Z.div_mod n 64 ltac:(lia)). pose proof (Z.mod_pos_bound n 64 ltac:(lia)).
  assert (0 ≤ n / 64) by (apply Z.div_pos; lia). case_decide; lia.
Qed.

Lemma newBitset_ok n : bits_ok (newBitset n).
Proof. apply Forall_replicate. lia. Qed.

Lemma newBitset_get n q : 0 ≤ n → in_range (newBitset n) q → get (newBitset n) q = Some false.
Proof.
  intros Hn Hr. destruct (in_range_word _ _ Hr) as (w & Ew). rewrite (get_word _ _ _ Ew).
  apply slice_get_Some in Ew as [_ Ew]. unfold newBitset in Ew.
  apply lookup_replicate in Ew as [-> _]. by rewrite Z.bits_0.
Qed.

Lemma get_is_Some b q : in_range b q → is_Some (get b q).
Proof. intros (w & Ew)%in_range_word. rewrite (get_word _ _ _ Ew). eauto. Qed.

(** Bitsets of one length are sets of positions: [equals] compares the
    words, and holds exactly when [get] agrees on every position. *)
Theorem equals_members b b2 :
  bits_ok b → bits_ok b2 → len b = len b2 →
  equals b b2 = true ↔ ∀ q, in_range b q → get b q = get b2 q.
Proof. intros H1 H2 Hl. rewrite equals_spec. split; [by intros ->|by apply bits_ext]. Qed.

Lemma equals_members_witness :
  equals [5; 1] [5; 1] = true ↔ ∀ q, in_range [5; 1] q → get [5; 1] q = get [5; 1] q.
Proof. apply equals_members; [repeat constructor; lia..|done]. Defined.

End BS.
