(* ===== verification/Porcupine.v ===== *)
(** The linearizability checker: [src/src/porcupine/checker.go], [model.go],
    [porcupine.go], and the key/value model [src/src/models/kv.go].

    The doubly linked list of entries is a heap of nodes, a pointer is the index
    of its node, and [insertBefore], [lift] and [unlift] write the pointers as
    the source does.  The loop of [checkSingle] is a step function on the local
    variables of the Go function, iterated with fuel.  The [interface{}] of an
    entry holds an input or an output; [Step] asserts which.  A run-time panic
    is [None].  [sort.Sort] is any function that returns a sorted permutation
    ([Sorter]), because it is not stable. *)

From stdpp Require Import strings.
From S2P Require Import Prelude Bitset.

#[local] Open Scope Z_scope.

Module PC.

(** ** [model.go] *)

Section types.
Context {State Input Output : Type}.

Record Operation := mkOperation {
  op_ClientId : Z;
  op_Input : Input;
  op_Call : Z;
  op_Output : Output;
  op_Return : Z
}.

Inductive EventKind := CallEvent | ReturnEvent.

(** [Value] is an input for a call and an output for a return. *)
Record Event := mkEvent {
  ev_ClientId : Z;
  ev_Kind : EventKind;
  ev_Value : Input + Output;
  ev_Id : Z
}.

(** A [nil] function of the model is [None].  The functions that only describe
    operations and states are the [Describer] of [PorcupineVisual]. *)
Record Model := mkModel {
  Partition : option (list Operation → list (list Operation));
  PartitionEvent : option (list Event → list (list Event));
  Init : State;
  Step : State → Input → Output → bool * State;
  Equal : option (State → State → bool)
}.

Definition NoPartition (history : list Operation) : list (list Operation) := [history].

Definition NoPartitionEvent (history : list Event) : list (list Event) := [history].

Definition ShallowEqual `{EqDecision State} (state1 state2 : State) : bool :=
  bool_decide (state1 = state2).

Definition fillDefault `{EqDecision State} (model : Model) : Model :=
  {| Partition := Some (default NoPartition (Partition model));
     PartitionEvent := Some (default NoPartitionEvent (PartitionEvent model));
     Init := Init model;
     Step := Step model;
     Equal := Some (default ShallowEqual (Equal model)) |}.
End types.

Arguments Operation : clear implicits.
Arguments Event : clear implicits.
Arguments Model : clear implicits.

Inductive CheckResult := Unknown | Ok | Illegal.

#[export] Instance CheckResult_eq_dec : EqDecision CheckResult.
Proof. solve_decision. Defined.

(** ** Entries *)

Inductive entryKind := callEntry | returnEntry.

#[export] Instance entryKind_eq_dec : EqDecision entryKind.
Proof. solve_decision. Defined.

Section checker.
Context {State Input Output : Type}.

Record entry := mkEntry {
  en_kind : entryKind;
  en_value : Input + Output;
  en_id : Z;
  en_time : Z;
  en_clientId : Z
}.

(** [byTime.Less] *)
Definition Less (a b : entry) : bool :=
  if decide (en_time a ≠ en_time b) then bool_decide (en_time a < en_time b)
  else bool_decide (en_kind a = callEntry) && bool_decide (en_kind b = returnEntry).

(** [sort.Sort(byTime(entries))]: some permutation without inversions. *)
Class Sorter := {
  sort_Sort : list entry → list entry;
  sort_Sort_perm : ∀ l, sort_Sort l ≡ₚ l;
  sort_Sort_sorted : ∀ l i j a b, (i < j)%nat →
    sort_Sort l !! i = Some a → sort_Sort l !! j = Some b → Less b a = false
}.

Definition op_entries (id : nat) (elem : Operation Input Output) : list entry :=
  [mkEntry callEntry (inl (op_Input elem)) (Z.of_nat id) (op_Call elem) (op_ClientId elem);
   mkEntry returnEntry (inr (op_Output elem)) (Z.of_nat id) (op_Return elem) (op_ClientId elem)].

(** The entries before they are sorted. *)
Definition unsortedEntries (history : list (Operation Input Output)) : list entry :=
  mjoin (imap op_entries history).

Definition makeEntries {so : Sorter} (history : list (Operation Input Output)) : list entry :=
  sort_Sort (unsortedEntries history).

(** [e], [m] and [id] of [renumber]. *)
Definition renumber_step (acc : list (Event Input Output) * gmap Z Z * Z) (v : Event Input Output)
  : list (Event Input Output) * gmap Z Z * Z :=
  let '(e, m, id) := acc in
  match m !! ev_Id v with
  | Some r => (e ++ [mkEvent (ev_ClientId v) (ev_Kind v) (ev_Value v) r], m, id)
  | None => (e ++ [mkEvent (ev_ClientId v) (ev_Kind v) (ev_Value v) id],
             <[ev_Id v := id]> m, id + 1)
  end.

Definition renumber (events : list (Event Input Output)) : list (Event Input Output) :=
  (foldl renumber_step ([], ∅, 0) events).1.1.

Definition convertEntries (events : list (Event Input Output)) : list entry :=
  imap (λ i elem,
    let kind := match ev_Kind elem with ReturnEvent => returnEntry | CallEvent => callEntry end in
    mkEntry kind (ev_Value elem) (ev_Id elem) (Z.of_nat i) (ev_ClientId elem)) events.

(** ** The linked list *)

(** A [*node]: the index of the node in the heap, [None] for [nil]. *)
Abbreviation ptr := (option nat).

(** The head's value is [nil]. *)
Record node := mkNode {
  nd_value : option (Input + Output);
  nd_match : ptr;
  nd_id : Z;
  nd_next : ptr;
  nd_prev : ptr
}.

Abbreviation nodes := (list node).
Implicit Types (h : nodes) (p : nat).

(** Dereference: [nil] panics. *)
Definition deref h (q : ptr) : option node := p ← q; h !! p.

Definition set_next h (q : ptr) (v : ptr) : option nodes :=
  p ← q; n ← h !! p;
  Some (<[p := mkNode (nd_value n) (nd_match n) (nd_id n) v (nd_prev n)]> h).

Definition set_prev h (q : ptr) (v : ptr) : option nodes :=
  p ← q; n ← h !! p;
  Some (<[p := mkNode (nd_value n) (nd_match n) (nd_id n) (nd_next n) v]> h).

(** [&node{value: v, match: m, id: id}] *)
Definition new_node h (v : option (Input + Output)) (m : ptr) (id : Z) : nodes * nat :=
  (h ++ [mkNode v m id None None], length h).

Definition insertBefore h (n : nat) (mark : ptr) : option nodes :=
  match mark with
  | None => Some h
  | Some _ =>
      m ← deref h mark;
      let beforeMark := nd_prev m in
      h ← set_prev h mark (Some n);
      h ← set_next h (Some n) mark;
      match beforeMark with
      | None => Some h
      | Some _ =>
          h ← set_prev h (Some n) beforeMark;
          set_next h beforeMark (Some n)
      end
  end.

(** [length]: at most one iteration per node of the heap. *)
Fixpoint length_loop (fuel : nat) h (n : ptr) (l : Z) : option Z :=
  match fuel, n with
  | _, None => Some l
  | O, _ => None
  | S fuel, Some p => nd ← h !! p; length_loop fuel h (nd_next nd) (l + 1)
  end.

Definition length_ h (n : ptr) : option Z := length_loop (length h) h n 0.

(** One iteration of [makeLinkedEntries], on the heap, [match] and [root]. *)
Definition link_step (elem : entry) (s : nodes * gmap Z nat * ptr) : option (nodes * gmap Z nat * ptr) :=
  let '(h, match_, root) := s in
  match en_kind elem with
  | returnEntry =>
      let '(h, e) := new_node h (Some (en_value elem)) None (en_id elem) in
      h ← insertBefore h e root;
      Some (h, <[en_id elem := e]> match_, Some e)
  | callEntry =>
      let '(h, e) := new_node h (Some (en_value elem)) (match_ !! en_id elem) (en_id elem) in
      h ← insertBefore h e root;
      Some (h, match_, Some e)
  end.

Definition link_entries (entries : list entry) : option (nodes * gmap Z nat * ptr) :=
  foldr (λ elem o, s ← o; link_step elem s) (Some ([], ∅, None)) entries.

(** The heap and the root. *)
Definition makeLinkedEntries (entries : list entry) : option (nodes * ptr) :=
  '(h, _, root) ← link_entries entries; Some (h, root).

Definition lift h (e : nat) : option nodes :=
  n ← h !! e;
  h ← set_next h (nd_prev n) (nd_next n);
  n ← h !! e;
  h ← set_prev h (nd_next n) (nd_prev n);
  n ← h !! e;
  m ← deref h (nd_match n);
  h ← set_next h (nd_prev m) (nd_next m);
  m ← deref h (nd_match n);
  match nd_next m with
  | Some _ => set_prev h (nd_next m) (nd_prev m)
  | None => Some h
  end.

Definition unlift h (e : nat) : option nodes :=
  n ← h !! e;
  let match_ := nd_match n in
  m ← deref h match_;
  h ← set_next h (nd_prev m) match_;
  m ← deref h match_;
  h ← match nd_next m with
      | Some _ => set_prev h (nd_next m) match_
      | None => Some h
      end;
  n ← h !! e;
  h ← set_next h (nd_prev n) (Some e);
  n ← h !! e;
  set_prev h (nd_next n) (Some e).

(** ** The search *)

Record cacheEntry := mkCache {
  linearized : list Z;
  ce_state : State
}.

(** Calling a [nil] function panics. *)
Definition call_Equal (model : Model State Input Output) (s1 s2 : State) : option bool :=
  f ← Equal model; Some (f s1 s2).

Fixpoint bucketContains (model : Model State Input Output) (bucket : list cacheEntry)
    (e : cacheEntry) : option bool :=
  match bucket with
  | [] => Some false
  | elem :: bucket =>
      if BS.equals (linearized e) (linearized elem) then
        eq ← call_Equal model (ce_state e) (ce_state elem);
        if eq : bool then Some true else bucketContains model bucket e
      else bucketContains model bucket e
  end.

Definition cacheContains (model : Model State Input Output) (cache : gmap Z (list cacheEntry))
    (e : cacheEntry) : option bool :=
  bucketContains model (default [] (cache !! BS.hash (linearized e))) e.

Record callsEntry := mkCall {
  ca_entry : nat;
  ca_state : State
}.

(** [*[]int]: an allocation number and the sequence it points to. *)
Abbreviation seqptr := (nat * list Z)%type.

(** The local variables of [checkSingle] that its loop changes. *)
Record search := mkSearch {
  se_heap : nodes;
  se_entry : ptr;
  se_linearized : list Z;
  se_cache : gmap Z (list cacheEntry);
  se_calls : list callsEntry;
  se_longest : list (option seqptr);
  se_state : State;
  se_allocs : nat
}.

Inductive step_result :=
  | Continue (s : search)
  | Return (ok : bool) (longest : list (option seqptr)).

(** The ids of the calls, [seq]. *)
Definition calls_seq h (calls : list callsEntry) : option (list Z) :=
  mapM (λ v, nd_id <$> h !! ca_entry v) calls.

(** The update of [longest] before backtracking. *)
Definition longest_step (calls_len : Z) (seq : seqptr) (longest : list (option seqptr)) (id : Z)
  : option (list (option seqptr)) :=
  cur ← slice_get longest id;
  let better := match cur with
                | None => true
                | Some (_, q) => bool_decide (len q < calls_len)
                end in
  if better : bool then slice_set longest id (Some seq) else Some longest.

Definition record_longest h (calls : list callsEntry) (fresh : nat) (longest : list (option seqptr))
  : option (list (option seqptr)) :=
  seq ← calls_seq h calls;
  foldl (λ o id, lg ← o; longest_step (len calls) (fresh, seq) lg id) (Some longest) seq.

(** [model.Step(state, entry.value, matching.value)] with its type assertions. *)
Definition call_Step (model : Model State Input Output) (state : State) (e m : node)
  : option (bool * State) :=
  match nd_value e, nd_value m with
  | Some (inl input), Some (inr output) => Some (Step model state input output)
  | _, _ => None
  end.

(** The body of the loop; [killed] is the value of [*kill] it reads. *)
Definition check_step (model : Model State Input Output) (computePartial : bool) (headEntry : nat)
    (killed : bool) (s : search) : option step_result :=
  let '(mkSearch h entry lin cache calls longest state allocs) := s in
  if killed then Some (Return false longest) else
  e ← deref h entry;
  match nd_match e with
  | Some _ =>
      matching ← deref h (nd_match e);
      '(ok, newState) ← call_Step model state e matching;
      if ok : bool then
        newLinearized ← BS.set (BS.clone lin) (u64 (nd_id e));
        let newCacheEntry := mkCache newLinearized newState in
        seen ← cacheContains model cache newCacheEntry;
        if negb seen then
          let hash := BS.hash newLinearized in
          let cache := <[hash := default [] (cache !! hash) ++ [newCacheEntry]]> cache in
          p ← entry;
          lin ← BS.set lin (u64 (nd_id e));
          h ← lift h p;
          hd ← h !! headEntry;
          Some (Continue (mkSearch h (nd_next hd) lin cache (calls ++ [mkCall p state])
                            longest newState allocs))
        else Some (Continue (mkSearch h (nd_next e) lin cache calls longest state allocs))
      else Some (Continue (mkSearch h (nd_next e) lin cache calls longest state allocs))
  | None =>
      if decide (len calls = 0) then Some (Return false longest) else
      longest ← (if computePartial then record_longest h calls allocs longest else Some longest);
      callsTop ← slice_get calls (len calls - 1);
      let entry := ca_entry callsTop in
      e ← h !! entry;
      lin ← BS.clear lin (u64 (nd_id e));
      h ← unlift h entry;
      e ← h !! entry;
      Some (Continue (mkSearch h (nd_next e) lin cache (take (length calls - 1) calls)
                        longest (ca_state callsTop) (S allocs)))
  end.

Inductive verdict :=
  | Panicked
  | Running
  | Returned (ok : bool) (longest : list (option seqptr)).

(** After the loop: [longest] is the complete linearization for every id. *)
Definition check_done (n : Z) (s : search) : verdict :=
  match calls_seq (se_heap s) (se_calls s) with
  | None => Panicked
  | Some seq =>
      match for_range n (λ i lg, slice_set lg i (Some (se_allocs s, seq))) (se_longest s) with
      | None => Panicked
      | Some longest => Returned true longest
      end
  end.

(** The loop; [kill i] is what iteration [i] reads from [*kill]. *)
Fixpoint check_loop (model : Model State Input Output) (computePartial : bool) (headEntry : nat)
    (n : Z) (kill : nat → bool) (fuel : nat) (s : search) : verdict :=
  match fuel with
  | O => Running
  | S fuel =>
      match se_heap s !! headEntry with
      | None => Panicked
      | Some hd =>
          match nd_next hd with
          | None => check_done n s
          | Some _ =>
              match check_step model computePartial headEntry (kill O) s with
              | None => Panicked
              | Some (Return ok longest) => Returned ok longest
              | Some (Continue s) =>
                  check_loop model computePartial headEntry n (λ i, kill (S i)) fuel s
              end
          end
      end
  end.

(** The initial values of the local variables, with [headEntry] and [n]. *)
Definition check_init (model : Model State Input Output) (history : list entry)
  : option (nat * Z * search) :=
  '(h, entry) ← makeLinkedEntries history;
  l ← length_ h entry;
  let n := Z.quot l 2 in
  let '(h, headEntry) := new_node h None None (-1) in
  h ← insertBefore h headEntry entry;
  Some (headEntry, n,
    mkSearch h entry (BS.newBitset (u64 n)) ∅ [] (replicate (Z.to_nat n) None) (Init model) 0).

Definition checkSingle (model : Model State Input Output) (history : list entry)
    (computePartial : bool) (kill : nat → bool) (fuel : nat) : verdict :=
  match check_init model history with
  | None => Panicked
  | Some (headEntry, n, s) => check_loop model computePartial headEntry n kill fuel s
  end.

(** ** Partitions in parallel *)

(** What the [select] of [checkParallel] receives. *)
Inductive signal := Result (ok : bool) | TimeoutSignal.

(** The loop: [ok], [timedOut] and [count] when it breaks, [None] when it still
    waits after the given signals. *)
Fixpoint collect (computeInfo : bool) (total : Z) (signals : list signal) (ok : bool) (count : Z)
  : option (bool * bool * Z) :=
  match signals with
  | [] => None
  | Result result :: signals =>
      let count := count + 1 in
      let ok := ok && result in
      if negb ok && negb computeInfo then Some (ok, false, count)
      else if decide (count >= total) then Some (ok, false, count)
      else collect computeInfo total signals ok count
  | TimeoutSignal :: _ => Some (ok, true, count)
  end.

(** [partials] of one partition: the distinct pointers of [longest], in the order
    of first occurrence (the source ranges over a map). *)
Fixpoint unique_partials (seen : list nat) (longest : list (option seqptr)) : list (list Z) :=
  match longest with
  | [] => []
  | None :: longest => unique_partials seen longest
  | Some (p, seq) :: longest =>
      if decide (p ∈ seen) then unique_partials seen longest
      else seq :: unique_partials (p :: seen) longest
  end.

(** The result once the loop broke. *)
Definition parallel_result (ok timedOut : bool) : CheckResult :=
  if negb ok then Illegal else if timedOut then Unknown else Ok.

(** The goroutine of partition [i], run to its end within [fuel] iterations;
    [kill i] is what it reads from [*kill]. *)
Definition goroutine (model : Model State Input Output) (computeInfo : bool)
    (kill : nat → nat → bool) (fuel : nat) (i : nat) (subhistory : list entry)
  : option (bool * list (option seqptr)) :=
  match checkSingle model subhistory computeInfo (kill i) fuel with
  | Returned ok l => Some (ok, l)
  | _ => None
  end.

(** A receive of the [select]: from the goroutine of a partition or the timer. *)
Definition receive (model : Model State Input Output) (history : list (list entry))
    (computeInfo : bool) (kill : nat → nat → bool) (fuel : nat) (c : option nat)
  : option signal :=
  match c with
  | None => Some TimeoutSignal
  | Some i =>
      subhistory ← history !! i;
      '(ok, _) ← goroutine model computeInfo kill fuel i subhistory;
      Some (Result ok)
  end.

(** [partialLinearizations], once all goroutines have finished. *)
Definition partialLinearizations (model : Model State Input Output) (history : list (list entry))
    (computeInfo : bool) (kill : nat → nat → bool) (fuel : nat) : option (list (list (list Z))) :=
  mapM (λ '(i, subhistory),
          '(_, longest) ← goroutine model computeInfo kill fuel i subhistory;
          Some (unique_partials [] longest))
       (imap pair history).

(** [checkParallel] for the given order of receives; [None]: it does not return.
    The second component is the [partialLinearizations] of the info. *)
Definition checkParallel (model : Model State Input Output) (history : list (list entry))
    (computeInfo : bool) (kill : nat → nat → bool) (fuel : nat) (order : list (option nat))
  : option (CheckResult * list (list (list Z))) :=
  signals ← mapM (receive model history computeInfo kill fuel) order;
  '(ok, timedOut, _) ← collect computeInfo (len history) signals true 0;
  info ← (if computeInfo then partialLinearizations model history computeInfo kill fuel
          else Some []);
  Some (parallel_result ok timedOut, info).

Context `{EqDecision State}.

(** [checkOperations] and [checkEvents]; a [nil] partition function would panic. *)
Definition checkOperations {so : Sorter} (model : Model State Input Output)
    (history : list (Operation Input Output)) (verbose : bool)
    (kill : nat → nat → bool) (fuel : nat) (order : list (option nat))
  : option (CheckResult * list (list (list Z))) :=
  let model := fillDefault model in
  match Partition model with
  | None => None
  | Some part =>
      let l := map makeEntries (part history) in
      checkParallel model l verbose kill fuel order
  end.

Definition checkEvents (model : Model State Input Output)
    (history : list (Event Input Output)) (verbose : bool)
    (kill : nat → nat → bool) (fuel : nat) (order : list (option nat))
  : option (CheckResult * list (list (list Z))) :=
  let model := fillDefault model in
  match PartitionEvent model with
  | None => None
  | Some part =>
      let l := map (λ subhistory, convertEntries (renumber subhistory)) (part history) in
      checkParallel model l verbose kill fuel order
  end.

(** ** [porcupine.go] *)

Definition CheckOperations {so : Sorter} (model : Model State Input Output)
    (history : list (Operation Input Output)) kill fuel order : option bool :=
  '(res, _) ← checkOperations model history false kill fuel order;
  Some (bool_decide (res = Ok)).

Definition CheckOperationsTimeout {so : Sorter} (model : Model State Input Output)
    (history : list (Operation Input Output)) kill fuel order : option CheckResult :=
  '(res, _) ← checkOperations model history false kill fuel order; Some res.

Definition CheckOperationsVerbose {so : Sorter} (model : Model State Input Output)
    (history : list (Operation Input Output)) kill fuel order :=
  checkOperations model history true kill fuel order.

Definition CheckEvents (model : Model State Input Output)
    (history : list (Event Input Output)) kill fuel order : option bool :=
  '(res, _) ← checkEvents model history false kill fuel order;
  Some (bool_decide (res = Ok)).

Definition CheckEventsTimeout (model : Model State Input Output)
    (history : list (Event Input Output)) kill fuel order : option CheckResult :=
  '(res, _) ← checkEvents model history false kill fuel order; Some res.

Definition CheckEventsVerbose (model : Model State Input Output)
    (history : list (Event Input Output)) kill fuel order :=
  checkEvents model history true kill fuel order.

End checker.

Arguments entry : clear implicits.
Arguments node : clear implicits.
Arguments cacheEntry : clear implicits.
Arguments callsEntry : clear implicits.
Arguments search : clear implicits.
Arguments step_result : clear implicits.
Arguments Sorter : clear implicits.

(** One sort: insertion by [Less]. *)
Section insertion.
Context {Input Output : Type}.

Fixpoint insert_by (x : entry Input Output) (l : list (entry Input Output)) :=
  match l with
  | [] => [x]
  | y :: l => if Less y x then y :: insert_by x l else x :: y :: l
  end.

Definition insertion_sort (l : list (entry Input Output)) := foldr insert_by [] l.
End insertion.

(** ** [models/kv.go] *)

Module Kv.

Record KvInput := mkInput {
  Op : Z;
  Key : string;
  Value : string
}.

Record KvOutput := mkOutput { out_Value : string }.

Abbreviation operation := (Operation KvInput KvOutput).

(** [m] after the loop: the operations of each key in order. *)
Definition group_step (m : gmap string (list operation)) (v : operation) :=
  let key := Key (op_Input v) in
  <[key := default [] (m !! key) ++ [v]]> m.

Definition byKey (history : list operation) : gmap string (list operation) :=
  foldl group_step ∅ history.

(** [sort.Strings]: lexicographic order of the bytes. *)
Definition sort_Strings (l : list string) : list string :=
  merge_sort (λ a b, Is_true (String.leb a b)) l.

Definition kv_Partition (history : list operation) : list (list operation) :=
  let m := byKey history in
  let keys := sort_Strings (map_to_list m).*1 in
  (λ k, default [] (m !! k)) <$> keys.

Definition kv_Step (st : string) (inp : KvInput) (out : KvOutput) : bool * string :=
  if decide (Op inp = 0) then (bool_decide (out_Value out = st), st)
  else if decide (Op inp = 1) then (true, Value inp)
  else (true, (st +:+ Value inp)%string).

Definition KvModel : Model string KvInput KvOutput := {|
  Partition := Some kv_Partition;
  PartitionEvent := None;
  Init := ""%string;
  Step := kv_Step;
  Equal := None
|}.

End Kv.

End PC.
