(* ===== verification/PorcupineList.v ===== *)
(** The doubly linked list of the checker: [dll h ls] says that the heap [h]
    links exactly the nodes [ls].  [lift] takes a call and its return out of the
    list, [unlift] puts them back, and because the lifted nodes keep their own
    pointers it restores the heap of before the [lift] exactly. *)

From S2P Require Import Prelude Bitset Porcupine.

Module PL.
Import PC.

Section list.
#[local] Arguments set_prev : simpl never.
#[local] Arguments set_next : simpl never.
Context {Input Output : Type}.
Abbreviation nodes := (list (node Input Output)).
Implicit Types (h : nodes) (ls A B C : list nat) (p q : option nat).

(** The first node of a segment that ends in front of [q]. *)
Definition first ls q : option nat := match ls with [] => q | l :: _ => Some l end.

(** The last node of a segment that starts behind [p]. *)
Fixpoint final p ls : option nat := match ls with [] => p | l :: ls => final (Some l) ls end.

Fixpoint seg h p ls q : Prop :=
  match ls with
  | [] => True
  | l :: ls => ∃ nd, h !! l = Some nd ∧ nd_prev nd = p ∧ nd_next nd = first ls q ∧
                 seg h (Some l) ls q
  end.

(** The heap links the nodes [ls], in this order and no others. *)
Definition dll h ls : Prop := NoDup ls ∧ seg h None ls None.

(** What the pointer surgery never changes. *)
Definition core (nd : node Input Output) := (nd_value nd, nd_match nd, nd_id nd).

Definition same_core h h' : Prop := ∀ x : nat, core <$> h !! x = core <$> h' !! x.

Lemma first_app A B q : first (A ++ B) q = first A (first B q).
Proof. by destruct A. Qed.

Lemma seg_app h p A B q :
  seg h p (A ++ B) q ↔ seg h p A (first B q) ∧ seg h (final p A) B q.
Proof.
  revert p. induction A as [|a A IH]; intros p; simpl; [naive_solver|].
  setoid_rewrite IH. setoid_rewrite first_app. naive_solver.
Qed.

Lemma final_snoc p A a : final p (A ++ [a]) = Some a.
Proof. revert p. induction A; naive_solver. Qed.

Lemma seg_insert h l nd p ls q : l ∉ ls → seg h p ls q → seg (<[l := nd]> h) p ls q.
Proof.
  revert p. induction ls as [|x ls IH]; intros p Hl; simpl; [done|].
  apply not_elem_of_cons in Hl as [? ?]. intros (nx & ? & ? & ? & ?). exists nx.
  rewrite list_lookup_insert_ne by done. eauto.
Qed.

(** Removing one node, and putting it back. *)
Definition unlink h (l : nat) : option nodes :=
  n ← h !! l;
  h ← set_next h (nd_prev n) (nd_next n);
  match nd_next n with
  | Some _ => set_prev h (nd_next n) (nd_prev n)
  | None => Some h
  end.

Definition relink h (l : nat) : option nodes :=
  n ← h !! l;
  h ← set_next h (nd_prev n) (Some l);
  match nd_next n with
  | Some _ => set_prev h (nd_next n) (Some l)
  | None => Some h
  end.

Lemma set_next_Some h x (n : node Input Output) v :
  h !! x = Some n →
  set_next h (Some x) v = Some (<[x := mkNode (nd_value n) (nd_match n) (nd_id n) v (nd_prev n)]> h).
Proof. intros E. unfold set_next. simpl. by rewrite E. Qed.

Lemma set_prev_Some h x (n : node Input Output) v :
  h !! x = Some n →
  set_prev h (Some x) v = Some (<[x := mkNode (nd_value n) (nd_match n) (nd_id n) (nd_next n) v]> h).
Proof. intros E. unfold set_prev. simpl. by rewrite E. Qed.

Lemma same_core_insert h x (n n' : node Input Output) :
  h !! x = Some n → core n' = core n → same_core (<[x := n']> h) h.
Proof.
  intros E Hc y. destruct (decide (x = y)) as [->|].
  - rewrite list_lookup_insert_eq by (by eapply lookup_lt_Some). rewrite E. simpl. by rewrite Hc.
  - by rewrite list_lookup_insert_ne.
Qed.

Lemma same_core_trans h1 h2 h3 : same_core h1 h2 → same_core h2 h3 → same_core h1 h3.
Proof. intros H1 H2 x. by rewrite H1, H2. Qed.

Lemma same_core_sym h1 h2 : same_core h1 h2 → same_core h2 h1.
Proof. intros H1 x. by rewrite H1. Qed.

Lemma node_next_id (n : node Input Output) v :
  nd_next n = v → mkNode (nd_value n) (nd_match n) (nd_id n) v (nd_prev n) = n.
Proof. intros <-. by destruct n. Qed.

Lemma node_prev_id (n : node Input Output) v :
  nd_prev n = v → mkNode (nd_value n) (nd_match n) (nd_id n) (nd_next n) v = n.
Proof. intros <-. by destruct n. Qed.

(** [unlink] in the middle of a list. *)
Lemma unlink_inner h A a l c C :
  dll h (A ++ a :: l :: c :: C) →
  ∃ h', unlink h l = Some h' ∧ dll h' (A ++ a :: c :: C) ∧ relink h' l = Some h ∧
    (∀ x : nat, x ∉ A ++ a :: c :: C → h' !! x = h !! x) ∧ same_core h' h.
Proof.
  intros [Hnd Hs].
  apply seg_app in Hs as [HA (na & Ea & Pa & Na & nl & El & Pl & Nl & nc & Ec & Pc & Nc & HC)].
  simpl in *.
  apply list.NoDup_app in Hnd as (NA & DA & Hnd).
  apply list.NoDup_cons in Hnd as [Da Hnd]. apply list.NoDup_cons in Hnd as [Dl Hnd].
  apply list.NoDup_cons in Hnd as [Dc Hnd].
  assert (a ≠ l ∧ a ≠ c ∧ l ≠ c) as (Hal & Hac & Hlc) by set_solver.
  assert ((a ∉ A) ∧ (c ∉ A) ∧ (a ∉ C)) as (HaA & HcA & HaC) by set_solver.
  eexists. split_and!.
  - unfold unlink. rewrite El. simpl. rewrite Pl, Nl, (set_next_Some _ _ na) by done. simpl.
    rewrite (set_prev_Some _ _ nc) by (by rewrite list_lookup_insert_ne). done.
  - split.
    { apply list.NoDup_app. split_and!; [done|set_solver|].
      repeat (apply list.NoDup_cons; split; [set_solver|]). done. }
    apply seg_app. split; [by do 2 (apply seg_insert; [done|])|].
    exists (mkNode (nd_value na) (nd_match na) (nd_id na) (Some c) (nd_prev na)).
    rewrite list_lookup_insert_ne by done.
    rewrite list_lookup_insert_eq by (by eapply lookup_lt_Some). split_and!; try done.
    eexists. rewrite list_lookup_insert_eq
      by (rewrite length_insert; by eapply lookup_lt_Some).
    split_and!; try done. by do 2 (apply seg_insert; [done|]).
  - unfold relink. rewrite !list_lookup_insert_ne, El by done. simpl. rewrite Pl, Nl.
    rewrite (set_next_Some _ _ (mkNode (nd_value na) (nd_match na) (nd_id na) (Some c) (nd_prev na)))
      by (by rewrite list_lookup_insert_ne, list_lookup_insert_eq
             by (try done; by eapply lookup_lt_Some)). simpl.
    rewrite (set_prev_Some _ _ (mkNode (nd_value nc) (nd_match nc) (nd_id nc) (nd_next nc) (Some a)))
      by (by rewrite list_lookup_insert_ne, list_lookup_insert_eq
             by (try done; rewrite ?length_insert; by eapply lookup_lt_Some)). simpl.
    f_equal. rewrite (list_insert_insert_ne _ a c), !list_insert_insert_eq by done.
    rewrite (node_next_id na), (node_prev_id nc), (list_insert_id h a), list_insert_id; done.
  - intros x Hx. rewrite !list_lookup_insert_ne; set_solver.
  - eapply same_core_trans.
    + eapply same_core_insert; [by rewrite list_lookup_insert_ne|done].
    + by eapply same_core_insert.
Qed.

(** [unlink] of the last node. *)
Lemma unlink_last h A a l :
  dll h (A ++ [a; l]) →
  ∃ h', unlink h l = Some h' ∧ dll h' (A ++ [a]) ∧ relink h' l = Some h ∧
    (∀ x : nat, x ∉ A ++ [a] → h' !! x = h !! x) ∧ same_core h' h.
Proof.
  intros [Hnd Hs].
  apply seg_app in Hs as [HA (na & Ea & Pa & Na & nl & El & Pl & Nl & _)]. simpl in *.
  apply list.NoDup_app in Hnd as (NA & DA & Hnd). apply list.NoDup_cons in Hnd as [Da Hnd].
  assert (a ≠ l ∧ (a ∉ A)) as [Hal HaA] by set_solver.
  eexists. split_and!.
  - unfold unlink. rewrite El. simpl. rewrite Pl, Nl, (set_next_Some _ _ na) by done. done.
  - split.
    { apply list.NoDup_app. split_and!; [done|set_solver|apply NoDup_singleton]. }
    apply seg_app. split; [by apply seg_insert|]. eexists.
    rewrite list_lookup_insert_eq by (by eapply lookup_lt_Some). split_and!; done.
  - unfold relink. rewrite list_lookup_insert_ne, El by done. simpl. rewrite Pl, Nl.
    erewrite set_next_Some by (rewrite list_lookup_insert_eq; [done|by eapply lookup_lt_Some]).
    simpl. rewrite list_insert_insert_eq, (node_next_id na), list_insert_id by done. done.
  - intros x Hx. rewrite list_lookup_insert_ne; set_solver.
  - by eapply same_core_insert.
Qed.

Lemma unlink_spec h A l C :
  dll h (A ++ l :: C) → A ≠ [] →
  ∃ h', unlink h l = Some h' ∧ dll h' (A ++ C) ∧ relink h' l = Some h ∧
    (∀ x : nat, x ∉ A ++ C → h' !! x = h !! x) ∧ same_core h' h.
Proof.
  intros H HA. destruct (exists_last HA) as (A' & a & ->). rewrite <-!(assoc_L app) in *.
  destruct C as [|c C]; [by apply unlink_last|by apply unlink_inner].
Qed.

Lemma dll_node h A l C :
  dll h (A ++ l :: C) → ∃ nd, h !! l = Some nd ∧ nd_prev nd = final None A ∧ nd_next nd = first C None.
Proof. intros [_ [_ (nd & ? & ? & ? & ?)]%seg_app]. eauto. Qed.

(** [lift] and [unlift] in terms of the single steps. *)
Lemma lift_unlink h h1 h2 (e m : nat) (ne : node Input Output) (q : nat) :
  h !! e = Some ne → nd_next ne = Some q → nd_match ne = Some m →
  unlink h e = Some h1 → h1 !! e = h !! e → unlink h1 m = Some h2 → e ≠ m →
  (∀ p : nat, nd_prev ne = Some p → p ≠ e) →
  (∀ nm (p : nat), h1 !! m = Some nm → nd_prev nm = Some p → p ≠ m) →
  lift h e = Some h2.
Proof.
  intros Ee Eq Em U1 E1 U2 Hem Hp Hp2. unfold unlink in U1, U2. unfold lift.
  rewrite Ee in *. simpl in *. rewrite Eq in *.
  apply bind_Some in U1 as (h0 & S0 & S1). rewrite S0. simpl.
  assert (h0 !! e = Some ne) as E0.
  { unfold set_next in S0. destruct (nd_prev ne) as [p|]; [|done]. simpl in S0.
    apply bind_Some in S0 as (np & ? & [= <-]). rewrite list_lookup_insert_ne; [done|].
    by apply Hp. }
  rewrite E0. simpl. rewrite Eq, S1. simpl. rewrite E1. simpl. rewrite Em. simpl.
  apply bind_Some in U2 as (nm & Enm & U2). rewrite Enm. simpl.
  apply bind_Some in U2 as (h3 & S3 & U2). rewrite S3. simpl.
  assert (h3 !! m = Some nm) as E3.
  { unfold set_next in S3. destruct (nd_prev nm) as [p|] eqn:Epm; [|done]. simpl in S3.
    apply bind_Some in S3 as (np & ? & [= <-]). rewrite list_lookup_insert_ne; [done|].
    by eapply Hp2. }
  rewrite E3. simpl. done.
Qed.

Lemma unlift_relink h h1 h2 (e m : nat) (ne : node Input Output) (q : nat) :
  h2 !! e = Some ne → nd_next ne = Some q → nd_match ne = Some m →
  relink h2 m = Some h1 → h1 !! e = Some ne → relink h1 e = Some h →
  (∀ nm (p : nat), h2 !! m = Some nm → nd_prev nm = Some p → p ≠ m) →
  (∀ p : nat, nd_prev ne = Some p → p ≠ e) →
  unlift h2 e = Some h.
Proof.
  intros Ee Eq Em R1 E1 R2 Hp2 Hp. unfold unlift. rewrite Ee. simpl. rewrite Em. simpl.
  unfold relink in R1, R2. apply bind_Some in R1 as (nm & Enm & R1). rewrite Enm. simpl.
  apply bind_Some in R1 as (h3 & S3 & R1). rewrite S3. simpl.
  assert (h3 !! m = Some nm) as E3.
  { unfold set_next in S3. destruct (nd_prev nm) as [p|] eqn:Epm; [|done]. simpl in S3.
    apply bind_Some in S3 as (np & ? & [= <-]). rewrite list_lookup_insert_ne; [done|].
    by eapply Hp2. }
  rewrite E3. simpl. rewrite R1. simpl. rewrite E1 in *. simpl in *.
  apply bind_Some in R2 as (h4 & S4 & R2). rewrite S4. simpl.
  assert (h4 !! e = Some ne) as E4.
  { unfold set_next in S4. destruct (nd_prev ne) as [p|] eqn:Epm; [|done]. simpl in S4.
    apply bind_Some in S4 as (np & ? & [= <-]). rewrite list_lookup_insert_ne; [done|].
    by apply Hp. }
  rewrite E4. simpl. by rewrite Eq in *.
Qed.

Lemma final_elem A l : final None A = Some l → l ∈ A.
Proof.
  destruct (decide (A = [])) as [->|HA]; [done|].
  destruct (exists_last HA) as (A' & a & ->). rewrite final_snoc. intros [= ->]. set_solver.
Qed.

(** The call [e] and its return [m] leave the list, and [unlift] is the exact
    inverse. *)
Lemma lift_spec h A e B m C ne :
  dll h (A ++ e :: B ++ m :: C) → A ≠ [] → h !! e = Some ne → nd_match ne = Some m →
  ∃ h', lift h e = Some h' ∧ dll h' (A ++ B ++ C) ∧ unlift h' e = Some h ∧ same_core h' h.
Proof.
  intros H HA Ee Em. pose proof H as [Hnd _].
  assert ((e ∉ A) ∧ (m ∉ A) ∧ e ≠ m ∧ (m ∉ B)) as (HeA & HmA & Hem & HmB).
  { apply list.NoDup_app in Hnd as (_ & D & Hnd). apply list.NoDup_cons in Hnd as [D2 Hnd].
    apply list.NoDup_app in Hnd as (_ & D3 & _). set_solver. }
  destruct (dll_node h A e (B ++ m :: C) H) as (? & ? & Pe & Ne). simplify_eq.
  destruct (unlink_spec h A e (B ++ m :: C) H HA) as (h1 & U1 & D1 & R1 & L1 & C1).
  rewrite (assoc_L app) in D1.
  destruct (dll_node h1 (A ++ B) m C D1) as (nm & Enm & Pm & Nm).
  destruct (unlink_spec h1 (A ++ B) m C D1) as (h2 & U2 & D2 & R2 & L2 & C2).
  { intros [-> _]%app_eq_nil. done. }
  rewrite <-(assoc_L app) in D2.
  assert (∃ q : nat, nd_next ne = Some q) as [q Eq] by (rewrite Ne; destruct B; simpl; eauto).
  assert (∀ p : nat, nd_prev ne = Some p → p ≠ e) as P1.
  { intros p Ep ->. rewrite Pe in Ep. by apply final_elem in Ep. }
  assert (∀ nm (p : nat), h1 !! m = Some nm → nd_prev nm = Some p → p ≠ m) as P2.
  { intros nm' p E' Ep ->. simplify_eq. rewrite Pm in Ep. apply final_elem in Ep. set_solver. }
  assert (h1 !! e = Some ne ∧ h2 !! e = Some ne ∧ h2 !! m = h1 !! m) as (E1 & E2 & E3).
  { apply list.NoDup_app in Hnd as (_ & D & [D3 Hnd]%list.NoDup_cons).
    apply list.NoDup_app in Hnd as (_ & D4 & [? ?]%list.NoDup_cons).
    rewrite (L2 e), (L2 m), (L1 e) by set_solver. done. }
  exists h2. split_and!; [|done| |].
  - eapply lift_unlink; eauto. by rewrite E1.
  - eapply unlift_relink; eauto.
    intros nm' p E'. rewrite E3 in E'. by apply P2.
  - by eapply same_core_trans.
Qed.
End list.
End PL.
