(* ===== verification/PorcupineSearch.v ===== *)
(** The search of [checkSingle] decides linearizability of the entries it is
    given.

    [rem b] are the entries of operations the bitset [b] does not contain.  A
    configuration [(rem b, state)] is completed by a sequence of calls ([lin])
    when each call of it comes before every remaining return and takes a step of
    the model.  [search_level] shows that the loop, from the first call of a
    configuration, reaches either the empty list with such a sequence on the
    stack, or a return with the stack, the heap and the bitset restored when
    there is none: the cache only ever hides configurations without completion. *)

From S2P Require Import Prelude Bitset Porcupine PorcupineList.

#[local] Open Scope Z_scope.

Module PS.
Import PC PL.

Section search.
Context {State Input Output : Type} (model : Model State Input Output).
Context (h0 : list (node Input Output)) (R0 : list nat) (hd : nat) (n : Z).

Definition cr (x : nat) := core <$> h0 !! x.

(** Node [x] is the call of operation [k] with input [i], and [m] its return. *)
Definition is_call (x m : nat) (i : Input) (k : Z) : Prop :=
  cr x = Some (Some (inl i), Some m, k).

Definition is_ret (x : nat) (o : Output) (k : Z) : Prop :=
  cr x = Some (Some (inr o), None, k).

Definition idof (x : nat) : Z := match cr x with Some (_, k) => k | None => -1 end.

Definition returns (x : nat) : Prop := ∃ o k, is_ret x o k.

(** The list of all entries, later entries at smaller locations. *)
Record wf : Prop := mkWf {
  wf_sorted : StronglySorted (λ x y, (y < x)%nat) R0;
  wf_head : (hd ∉ R0);
  wf_node : ∀ x, x ∈ R0 →
    (∃ m i k o, is_call x m i k ∧ is_ret m o k ∧ m ∈ R0 ∧ (m < x)%nat ∧ 0 ≤ k < n) ∨
    (∃ o k e i, is_ret x o k ∧ e ∈ R0 ∧ is_call e x i k ∧ 0 ≤ k < n);
  wf_call_id : ∀ x y m m' i j k, x ∈ R0 → y ∈ R0 →
    is_call x m i k → is_call y m' j k → x = y;
  wf_ret_id : ∀ x y o o' k, x ∈ R0 → y ∈ R0 → is_ret x o k → is_ret y o' k → x = y;
  wf_width : n < 2 ^ 64
}.

Definition rem (b : list Z) : list nat := filter (λ x, BS.get b (idof x) = Some false) R0.

Definition without (e m : nat) (R : list nat) : list nat := filter (λ y, y ≠ e ∧ y ≠ m) R.

(** The calls [p] complete the configuration [(R, s)]. *)
Fixpoint lin (R : list nat) (s : State) (p : list nat) : Prop :=
  match p with
  | [] => R = []
  | e :: p => ∃ m i k o s', e ∈ R ∧ is_call e m i k ∧ is_ret m o k ∧
      (∀ y, y ∈ R → returns y → (y < e)%nat) ∧
      Step model s i o = (true, s') ∧ lin (without e m R) s' p
  end.

Definition dead (R : list nat) (s : State) : Prop := ¬ ∃ p, lin R s p.

(** ** The variables of the loop *)

Definition heap_ok (h : list (node Input Output)) (R : list nat) : Prop :=
  dll h (hd :: R) ∧ same_core h h0.

Definition bits_wf (b : list Z) : Prop :=
  BS.bits_ok b ∧ len b = len (BS.newBitset n).

Definition calls_ok (calls : list (callsEntry State)) : Prop :=
  Forall (λ c, ca_entry c ∈ R0 ∧ 0 ≤ idof (ca_entry c) < n) calls.

Definition in_cache (cache : gmap Z (list (cacheEntry State))) (c : cacheEntry State) : Prop :=
  ∃ hsh bucket, cache !! hsh = Some bucket ∧ c ∈ bucket.

(** Configurations in the cache with fewer than [N] entries are dead. *)
Definition cache_ok (N : nat) (cache : gmap Z (list (cacheEntry State))) : Prop :=
  ∀ c, in_cache cache c → (length (rem (linearized c)) < N)%nat →
       dead (rem (linearized c)) (ce_state c).

Definition cache_grows (N : nat) (cache cache' : gmap Z (list (cacheEntry State))) : Prop :=
  ∀ c, in_cache cache' c → in_cache cache c ∨ (length (rem (linearized c)) < N)%nat.

(** One iteration without [kill]. *)
Definition iter (cp : bool) (st st' : search State Input Output) : Prop :=
  (∃ nd q, se_heap st !! hd = Some nd ∧ nd_next nd = Some q) ∧
  check_step model cp hd false st = Some (Continue st').

(** ** Entries and ids *)

Section facts.
Hypothesis Hwf : wf.
Implicit Types (x y e m : nat) (R : list nat) (b : list Z).

Lemma is_call_id x m i k : is_call x m i k → idof x = k.
Proof. unfold is_call, idof. by intros ->. Qed.

Lemma is_ret_id x o k : is_ret x o k → idof x = k.
Proof. unfold is_ret, idof. by intros ->. Qed.

Lemma call_not_ret x m i k : is_call x m i k → ¬ returns x.
Proof. unfold is_call, returns, is_ret. intros -> (? & ? & ?). done. Qed.

Lemma rem_elem b x : x ∈ rem b ↔ x ∈ R0 ∧ BS.get b (idof x) = Some false.
Proof. unfold rem. rewrite list_elem_of_filter. naive_solver. Qed.

Lemma R0_NoDup : NoDup R0.
Proof.
  destruct Hwf as [Hs _ _ _ _ _]. clear Hwf. induction Hs as [|x l _ IH Hx]; constructor.
  - intros Hin. rewrite Forall_forall in Hx.
    assert (x < x)%nat by (apply Hx; by apply list_elem_of_In). lia.
  - done.
Qed.

Lemma rem_NoDup b : NoDup (rem b).
Proof. apply list.NoDup_filter, R0_NoDup. Qed.

Lemma id_range x : x ∈ R0 → 0 ≤ idof x < n.
Proof.
  intros [(?&?&?&?&Hc&_&_&_&?)|(?&?&?&?&Hr&_&_&?)]%(wf_node Hwf).
  - by rewrite (is_call_id _ _ _ _ Hc).
  - by rewrite (is_ret_id _ _ _ Hr).
Qed.

(** The only entries with the id of a call are the call and its return. *)
Lemma same_id x e m i k o :
  x ∈ R0 → e ∈ R0 → is_call e m i k → is_ret m o k → m ∈ R0 →
  idof x = k ↔ x = e ∨ x = m.
Proof.
  intros Hx He Hc Hr Hm. split; cycle 1.
  { intros [->| ->]; [by eapply is_call_id|by eapply is_ret_id]. }
  intros Hk. destruct (wf_node Hwf x Hx) as [(?&?&?&?&Hc'&_)|(?&?&?&?&Hr'&_)].
  - left. rewrite (is_call_id _ _ _ _ Hc') in Hk. subst. by eapply (wf_call_id Hwf).
  - right. rewrite (is_ret_id _ _ _ Hr') in Hk. subst. by eapply (wf_ret_id Hwf).
Qed.

Lemma bits_range b x : bits_wf b → x ∈ R0 → BS.in_range b (idof x).
Proof.
  intros [_ Hl] Hx%id_range. unfold BS.in_range. rewrite Hl.
  pose proof (BS.newBitset_len n ltac:(lia)). lia.
Qed.

Lemma u64_id x : x ∈ R0 → u64 (idof x) = idof x.
Proof. intros H%id_range. pose proof (wf_width Hwf). apply Z.mod_small. lia. Qed.

(** Setting the bit of a call removes the call and its return. *)
Lemma set_rem b e m i k o :
  bits_wf b → e ∈ rem b → is_call e m i k → is_ret m o k → m ∈ R0 →
  ∃ b', BS.set b k = Some b' ∧ bits_wf b' ∧ rem b' = without e m (rem b) ∧
        BS.clear b' k = Some b.
Proof.
  intros Hb [He Hf]%rem_elem Hc Hr Hm.
  pose proof (is_call_id _ _ _ _ Hc) as Hk. pose proof (bits_range b e Hb He) as Hrg.
  rewrite Hk in *. destruct Hb as [Hok Hl].
  destruct (BS.set_spec b k Hrg Hok) as (b' & Es & Hok' & Hl' & Hg).
  assert (BS.in_range b' k) as Hrg' by (unfold BS.in_range in *; by rewrite Hl').
  destruct (BS.clear_spec b' k Hrg' Hok') as (b2 & Ec & Hok2 & Hl2 & Hg2).
  exists b'. split_and!; [done|split; [done|congruence]| |].
  - unfold rem, without. rewrite list_filter_filter. apply filter_ext_elem. intros x HxR.
    rewrite Hg by (apply bits_range; [by split|done]).
    pose proof (same_id x e m i k o HxR He Hc Hr Hm). case_decide; naive_solver.
  - rewrite Ec. f_equal. apply BS.bits_ext; [done|done|congruence|].
    intros q Hq. assert (BS.in_range b' q ∧ BS.in_range b q) as [Hq1 Hq2]
      by (unfold BS.in_range in *; rewrite Hl2, Hl' in Hq; rewrite Hl'; done).
    rewrite Hg2, Hg by done. case_decide; [by subst|done].
Qed.

(** ** The position of a call *)

(** A call that is still there, with its return behind it. *)
Lemma call_split b e :
  e ∈ rem b → ¬ returns e → ∃ m i k o, is_call e m i k ∧ is_ret m o k ∧ m ∈ R0 ∧ m ∈ rem b ∧ e ≠ m.
Proof.
  intros [He Hf]%rem_elem Hn.
  destruct (wf_node Hwf e He) as [(m&i&k&o&Hc&Hr&Hm&Hlt&_)|(?&?&?&?&Hr&_)]; cycle 1.
  { exfalso. apply Hn. unfold returns. eauto. }
  exists m, i, k, o. split_and!; try done; [|lia]. apply rem_elem. split; [done|].
  by rewrite (is_ret_id _ _ _ Hr), <-(is_call_id _ _ _ _ Hc).
Qed.

Lemma rem_sorted b : StronglySorted (λ x y, (y < x)%nat) (rem b).
Proof. apply StronglySorted_filter, (wf_sorted Hwf). Qed.

(** Among the remaining entries the return comes behind the call. *)
Lemma match_behind b pre e suf m i k o :
  rem b = pre ++ e :: suf → is_call e m i k → is_ret m o k →
  ∃ B C, suf = B ++ m :: C ∧ without e m (pre ++ e :: suf) = pre ++ B ++ C.
Proof.
  intros E Hc Hr.
  assert (e ∈ rem b) as He by (rewrite E; set_solver).
  destruct (call_split b e He (call_not_ret _ _ _ _ Hc)) as (m' & i' & k' & o' & Hc' & Hr' & Hm & Hmr & _).
  assert (m' = m) as -> by (unfold is_call in *; congruence). apply rem_elem in He as [He _].
  assert (m < e)%nat as Hlt.
  { destruct (wf_node Hwf e He) as [(?&?&?&?&Hc2&_&_&?&_)|(?&?&?&?&Hr2&_)];
      unfold is_call, is_ret in *; congruence. }
  pose proof (rem_sorted b) as Hs. pose proof (rem_NoDup b) as Hnd. rewrite E in *.
  assert (m ∈ suf) as Hms.
  { apply elem_of_app in Hmr as [Hmp|[->|]%elem_of_cons]; [|lia|done].
    apply list_elem_of_lookup_1 in Hmp as [a Ha].
    rewrite StronglySorted_lookup_iff in Hs.
    specialize (Hs a (length pre) m e). rewrite lookup_app_l in Hs by (by eapply lookup_lt_Some).
    rewrite list_lookup_middle in Hs by done.
    pose proof (Hs ltac:(by eapply lookup_lt_Some) Ha eq_refl). lia. }
  apply list_elem_of_split in Hms as (B & C & ->). exists B, C. split; [done|].
  apply list.NoDup_app in Hnd as (_ & D1 & [D2 Hnd]%list.NoDup_cons).
  apply list.NoDup_app in Hnd as (_ & D3 & [D4 _]%list.NoDup_cons).
  unfold without. rewrite list.filter_app, filter_cons_False, list.filter_app, filter_cons_False by naive_solver.
  assert (∀ l : list nat, (e ∉ l) → (m ∉ l) → filter (λ y, y ≠ e ∧ y ≠ m) l = l) as Hid.
  { intros l Hel Hml. apply filter_all. set_solver. }
  rewrite !Hid; set_solver.
Qed.

(** A completion starts with a call in front of the first return. *)
Lemma lin_front R s p pre x suf :
  lin R s p → R = pre ++ x :: suf → StronglySorted (λ x y, (y < x)%nat) R → returns x →
  ∃ e m i k o s' p', p = e :: p' ∧ e ∈ pre ∧ is_call e m i k ∧ is_ret m o k ∧
    Step model s i o = (true, s') ∧ lin (without e m R) s' p'.
Proof.
  intros Hl -> Hs Hx. destruct p as [|e p]; [by destruct pre|].
  destruct Hl as (m & i & k & o & s' & He & Hc & Hr & Hb & Hst & Hl).
  exists e, m, i, k, o, s', p. split_and!; try done.
  assert (x < e)%nat by (apply Hb; [set_solver|done]).
  apply elem_of_app in He as [He|[->|He]%elem_of_cons]; [done|lia|exfalso].
  apply list_elem_of_lookup_1 in He as [a Ha].
  rewrite StronglySorted_lookup_iff in Hs.
  specialize (Hs (length pre) (S (length pre) + a)%nat x e).
  rewrite list_lookup_middle in Hs by done.
  rewrite (cons_middle x), (assoc_L app), lookup_app_r in Hs by (rewrite length_app; simpl; lia).
  rewrite length_app in Hs. simpl in Hs.
  replace (S (length pre + a) - (length pre + 1))%nat with a in Hs by lia.
  specialize (Hs ltac:(lia) eq_refl Ha). lia.
Qed.

(** ** Completions as orders *)

(** With an operation, both of its entries are in [R]. *)
Definition closed R : Prop :=
  (∀ x, x ∈ R → x ∈ R0) ∧
  ∀ e m i k, e ∈ R0 → is_call e m i k → e ∈ R ↔ m ∈ R.

Fixpoint takes (s : State) (p : list nat) : Prop :=
  match p with
  | [] => True
  | e :: p => ∃ m i k o s', is_call e m i k ∧ is_ret m o k ∧ Step model s i o = (true, s') ∧ takes s' p
  end.

(** A later operation has not returned when an earlier one is called. *)
Definition ordered (p : list nat) : Prop :=
  ∀ (x y : nat) e e' m' i k, (x < y)%nat → p !! x = Some e → p !! y = Some e' →
    is_call e' m' i k → (m' < e)%nat.

Lemma closed_without R e m i k o :
  closed R → e ∈ R → is_call e m i k → is_ret m o k → closed (without e m R).
Proof.
  intros [Hsub Hcl] He Hc Hr. split.
  - intros x. unfold without. rewrite list_elem_of_filter. naive_solver.
  - intros e' m' i' k' He' Hc'. unfold without. rewrite !list_elem_of_filter, (Hcl e' m' i' k') by done.
    assert (m ∈ R0) as Hm by (apply Hsub; by apply (Hcl e m i k); [apply Hsub|..]).
    assert (e' = e ↔ m' = m) as Heq'.
    { split; [intros ->; unfold is_call in *; congruence|intros ->].
      destruct (wf_node Hwf e' He') as [(?&?&?&?&Hc2&Hr2&_)|(?&?&?&?&Hr2&_)];
        [|unfold is_call, is_ret in *; congruence].
      eapply (wf_call_id Hwf); [done|by apply Hsub|exact Hc'|].
      unfold is_call, is_ret in *. simplify_eq. done. }
    assert (e' ≠ m) by (intros ->; unfold is_call, is_ret in *; congruence).
    assert (m' ∈ R → m' ≠ e).
    { intros Hm' ->. destruct (wf_node Hwf e' He') as [(?&?&?&?&Hc2&Hr2&_)|(?&?&?&?&Hr2&_)];
        unfold is_call, is_ret in *; congruence. }
    naive_solver.
Qed.

Lemma ordered_cons e p :
  ordered (e :: p) ↔
  (∀ e' m' i k, e' ∈ p → is_call e' m' i k → (m' < e)%nat) ∧ ordered p.
Proof.
  split.
  - intros Ho. split.
    + intros e' m' i k [y Hy]%list_elem_of_lookup_1 Hc. apply (Ho O (S y) e e' m' i k); [lia|done..].
    + intros x y a b m' i k Hxy Hx Hy. apply (Ho (S x) (S y)); [lia|done..].
  - intros [H1 H2] [|x] [|y] a b m' i k Hxy Hx Hy Hc; simplify_eq/=; try lia.
    + eapply H1; [by eapply list_elem_of_lookup_2|done].
    + apply (H2 x y a b m' i k); [lia|done..].
Qed.

(** [p] is an order of the calls of [R] in which the model takes them. *)
Definition orders R (s : State) (p : list nat) : Prop :=
  NoDup p ∧ (∀ e, e ∈ p ↔ e ∈ R ∧ ¬ returns e) ∧ takes s p ∧ ordered p.

Lemma lin_orders R s p : closed R → lin R s p → orders R s p.
Proof.
  revert R s. induction p as [|e p IH]; intros R s Hcl; simpl.
  { intros ->. split_and!; [constructor|set_solver|done|]. intros ????????? Hx. by rewrite lookup_nil in Hx. }
  intros (m & i & k & o & s' & He & Hc & Hr & Hb & Hst & Hl).
  apply IH in Hl as (Hnd & Hin & Ht & Ho); [|by eapply closed_without].
  assert (∀ e', e' ∈ p → e' ∈ R ∧ e' ≠ e ∧ ¬ returns e') as Hp.
  { intros e' [Hw ?]%Hin. unfold without in Hw. rewrite list_elem_of_filter in Hw. naive_solver. }
  split_and!.
  - apply list.NoDup_cons. split; [|done]. intros Hx%Hp. naive_solver.
  - intros e'. rewrite elem_of_cons, Hin. unfold without. rewrite list_elem_of_filter.
    pose proof (call_not_ret _ _ _ _ Hc). assert (returns m) by (unfold returns; eauto).
    destruct (decide (e' = e)), (decide (e' = m)); naive_solver.
  - simpl. naive_solver.
  - apply ordered_cons. split; [|done]. intros e' m' i' k' (He' & _ & _)%Hp Hc'.
    pose proof (proj1 Hcl _ He') as He0.
    destruct (wf_node Hwf e' He0) as [(?&?&?&o2&Hc2&Hr2&_)|(?&?&?&?&Hr2&_)];
      [|unfold is_call, is_ret in *; congruence].
    apply Hb; [by apply (proj2 Hcl e' m' i' k')|]. unfold is_call, returns in *. simplify_eq. eauto.
Qed.

Lemma orders_lin R s p : closed R → orders R s p → lin R s p.
Proof.
  revert R s. induction p as [|e p IH]; intros R s Hcl; simpl.
  { intros (_ & Hin & _). destruct R as [|x R]; [done|exfalso].
    assert (x ∈ R0) as Hx by (apply Hcl; set_solver).
    destruct (wf_node Hwf x Hx) as [(?&?&?&?&Hc&_)|(?&?&e&?&Hr&He&Hc&_)].
    - apply (not_elem_of_nil x), Hin. split; [set_solver|by eapply call_not_ret].
    - apply (not_elem_of_nil e), Hin. split; [|by eapply call_not_ret].
      eapply (proj2 Hcl); [done|done|set_solver]. }
  intros (Hnd & Hin & (m & i & k & o & s' & Hc & Hr & Hst & Ht) & Ho).
  apply list.NoDup_cons in Hnd as [Hne Hnd]. apply ordered_cons in Ho as [Hoe Ho].
  assert (e ∈ R) as He by (apply Hin; set_solver).
  exists m, i, k, o, s'. split_and!; try done.
  - intros y Hy (oy & ky & Hry). pose proof (proj1 Hcl _ Hy) as Hy0.
    destruct (wf_node Hwf y Hy0) as [(?&?&?&?&Hc2&_)|(?&?&ey&iy&Hry2&Hey&Hcy&_)];
      [unfold is_call, is_ret in *; congruence|].
    assert (ey ∈ e :: p) as Hep.
    { apply Hin. split; [by eapply (proj2 Hcl)|by eapply call_not_ret]. }
    apply elem_of_cons in Hep as [->|Hep]; [|by eapply Hoe].
    destruct (wf_node Hwf e (proj1 Hcl _ He)) as [(?&?&?&?&Hc2&_&_&?&_)|(?&?&?&?&Hr2&_)];
      unfold is_call, is_ret in *; congruence.
  - apply IH; [by eapply closed_without|]. split_and!; try done.
    intros e'. unfold without. rewrite list_elem_of_filter.
    specialize (Hin e'). rewrite elem_of_cons in Hin.
    assert (returns m) by (unfold returns; eauto).
    destruct (decide (e' = e)), (decide (e' = m)); naive_solver.
Qed.

Lemma closed_all : closed R0.
Proof.
  split; [done|]. intros e m i k He Hc. split; [intros _|done].
  destruct (wf_node Hwf e He) as [(?&?&?&?&Hc2&_&?&_)|(?&?&?&?&Hr2&_)];
    unfold is_call, is_ret in *; congruence.
Qed.

(** ** One iteration *)

Lemma core_node (h : list (node Input Output)) x v mt k :
  same_core h h0 → cr x = Some (v, mt, k) →
  ∃ nd, h !! x = Some nd ∧ nd_value nd = v ∧ nd_match nd = mt ∧ nd_id nd = k.
Proof.
  intros Hc Hx. unfold cr in Hx. rewrite <-(Hc x) in Hx.
  apply fmap_Some in Hx as (nd & ? & [= -> -> ->]). eauto.
Qed.

Lemma heap_next (h : list (node Input Output)) pre x suf nd :
  heap_ok h (pre ++ x :: suf) → h !! x = Some nd → nd_next nd = first suf None.
Proof.
  intros [Hd _] E. rewrite app_comm_cons in Hd.
  destruct (dll_node _ _ _ _ Hd) as (? & ? & _ & ?). by simplify_eq.
Qed.

Lemma heap_head (h : list (node Input Output)) R :
  heap_ok h R → ∃ nd, h !! hd = Some nd ∧ nd_next nd = first R None.
Proof.
  intros [Hd _]. destruct (dll_node _ [] _ _ Hd) as (nd & ? & _ & ?). eauto.
Qed.

Lemma heap_running (h : list (node Input Output)) R x :
  heap_ok h R → x ∈ R → ∃ nd q, h !! hd = Some nd ∧ nd_next nd = Some q.
Proof.
  intros (nd & ? & Hn)%heap_head Hx. destruct R as [|y R]; [set_solver|]. eauto.
Qed.

Hypothesis Heq : ∃ f, Equal model = Some f ∧ ∀ s1 s2, f s1 s2 = true → s1 = s2.

Lemma cacheContains_spec cache c :
  ∃ r, cacheContains model cache c = Some r ∧ (r = true → in_cache cache c).
Proof.
  destruct Heq as (f & Ef & Hf). unfold cacheContains.
  assert (∀ bucket, ∃ r, bucketContains model bucket c = Some r ∧ (r = true → c ∈ bucket)) as Hb.
  { induction bucket as [|c' bucket (r & E & IH)]; cbn [bucketContains]; [by exists false|].
    destruct (BS.equals _ _) eqn:Eb; [|exists r; set_solver].
    unfold call_Equal. rewrite Ef. simpl. destruct (f _ _) eqn:Es; [|exists r; set_solver].
    exists true. split; [done|]. intros _. apply BS.equals_spec in Eb. apply Hf in Es.
    destruct c, c'; simpl in *; subst. set_solver. }
  destruct (Hb (default [] (cache !! BS.hash (linearized c)))) as (r & E & Hr).
  exists r. split; [done|]. intros Hc%Hr. unfold in_cache.
  destruct (cache !! _) as [bucket|] eqn:Ec; simpl in Hc; [eauto|set_solver].
Qed.

Lemma add_cache cache c' c :
  in_cache (<[BS.hash (linearized c') := default [] (cache !! BS.hash (linearized c')) ++ [c']]> cache) c →
  in_cache cache c ∨ c = c'.
Proof.
  intros (hsh & bucket & E & Hin). destruct (decide (hsh = BS.hash (linearized c'))) as [->|Hne].
  - rewrite lookup_insert_eq in E. simplify_eq. apply elem_of_app in Hin as [Hin|Hin].
    + destruct (cache !! _) as [bucket|] eqn:Eb; simpl in Hin; [|set_solver].
      left. unfold in_cache. eauto.
    + right. set_solver.
  - rewrite lookup_insert_ne in E by done. left. unfold in_cache. eauto.
Qed.

Implicit Types (cache : gmap Z (list (cacheEntry State))) (calls : list (callsEntry State)).
Implicit Types (longest : list (option (nat * list Z))) (st : search State Input Output).

(** The call is not taken: [entry = entry.next]. *)
Lemma iter_advance cp h b cache calls longest s a pre x suf m i k o ok s' :
  heap_ok h (pre ++ x :: suf) → x ∈ R0 → is_call x m i k → is_ret m o k →
  Step model s i o = (ok, s') →
  (ok = true → ∃ b', BS.set b k = Some b' ∧ cacheContains model cache (mkCache b' s') = Some true) →
  iter cp (mkSearch h (Some x) b cache calls longest s a)
          (mkSearch h (first suf None) b cache calls longest s a).
Proof.
  intros Hh Hx Hc Hr Hst Hok. split; [apply (heap_running _ _ x Hh); set_solver|].
  destruct (core_node h x _ _ _ (proj2 Hh) Hc) as (nd & E & Ev & Em & Ek).
  destruct (core_node h m _ _ _ (proj2 Hh) Hr) as (nm & E' & Ev' & _ & _).
  simpl. rewrite E. simpl. rewrite Em. simpl. rewrite E'. simpl.
  unfold call_Step. rewrite Ev, Ev'. simpl. rewrite Hst.
  rewrite (heap_next _ _ _ _ _ Hh E). destruct ok; [|done].
  destruct (Hok eq_refl) as (b' & Eb & Ec).
  rewrite BS.clone_id, Ek, <-(is_call_id _ _ _ _ Hc), u64_id, (is_call_id _ _ _ _ Hc), Eb by done.
  simpl. rewrite Ec. done.
Qed.

(** The call is taken. *)
Lemma iter_lift cp h b cache calls longest s a pre x B m C i k o s' b' :
  heap_ok h (pre ++ x :: B ++ m :: C) → x ∈ R0 → is_call x m i k → is_ret m o k →
  Step model s i o = (true, s') → BS.set b k = Some b' →
  cacheContains model cache (mkCache b' s') = Some false →
  ∃ h', heap_ok h' (pre ++ B ++ C) ∧ unlift h' x = Some h ∧
  iter cp (mkSearch h (Some x) b cache calls longest s a)
    (mkSearch h' (first (pre ++ B ++ C) None) b'
       (<[BS.hash b' := default [] (cache !! BS.hash b') ++ [mkCache b' s']]> cache)
       (calls ++ [mkCall x s]) longest s' a).
Proof.
  intros Hh Hx Hc Hr Hst Eb Ec. pose proof Hh as [Hd Hcore].
  destruct (core_node h x _ _ _ Hcore Hc) as (nd & E & Ev & Em & Ek).
  destruct (core_node h m _ _ _ Hcore Hr) as (nm & E' & Ev' & _ & _).
  destruct (lift_spec h (hd :: pre) x B m C nd Hd ltac:(done) E Em) as (h' & El & Hd' & Eu & Hc').
  assert (heap_ok h' (pre ++ B ++ C)) as Hh'.
  { split; [done|]. by eapply same_core_trans. }
  exists h'. split_and!; [done|done|]. split; [apply (heap_running _ _ x Hh); set_solver|].
  destruct (heap_head h' _ Hh') as (nh & Eh & Hn).
  simpl. rewrite E. simpl. rewrite Em. simpl. rewrite E'. simpl.
  unfold call_Step. rewrite Ev, Ev'. simpl. rewrite Hst.
  rewrite BS.clone_id, Ek, <-(is_call_id _ _ _ _ Hc), u64_id, (is_call_id _ _ _ _ Hc), Eb by done.
  simpl. rewrite Ec. simpl. rewrite El. simpl. rewrite Eh. simpl. by rewrite Hn.
Qed.

Lemma calls_seq_ok (h : list (node Input Output)) calls :
  same_core h h0 → calls_ok calls →
  calls_seq h calls = Some (idof ∘ ca_entry <$> calls).
Proof.
  intros Hc. induction 1 as [|c calls [Hin Hk] _ IH]; [done|].
  unfold calls_seq in *. cbn [mapM]. rewrite IH.
  assert (∃ nd, h !! ca_entry c = Some nd ∧ nd_id nd = idof (ca_entry c)) as (nd & E & Ek).
  { unfold idof, cr in *. rewrite <-(Hc (ca_entry c)) in *.
    destruct (h !! ca_entry c) as [nd|]; [by exists nd|simpl in Hk; lia]. }
  rewrite E. simpl. by rewrite Ek.
Qed.

Lemma record_longest_ok (h : list (node Input Output)) calls a longest :
  same_core h h0 → calls_ok calls → len longest = n →
  ∃ longest', record_longest h calls a longest = Some longest' ∧ len longest' = n.
Proof.
  intros Hc Hok Hl. unfold record_longest. rewrite calls_seq_ok by done. simpl.
  generalize (a, idof ∘ ca_entry <$> calls); intros sq. generalize (len calls); intros cl.
  revert longest Hl. induction Hok as [|c calls [Hin Hk] _ IH]; intros longest Hl; [eauto|].
  cbn [fmap list_fmap foldl mbind option_bind]. unfold longest_step at 2.
  destruct (proj2 (slice_get_is_Some longest (idof (ca_entry c)))) as [cur Ecur]; [lia|].
  simpl. rewrite Ecur. simpl.
  destruct (match cur with None => true | Some (_, q) => bool_decide (len q < cl) end).
  - destruct (proj2 (slice_set_is_Some longest (idof (ca_entry c)) (Some sq))) as [lg' Elg]; [lia|].
    rewrite Elg. apply IH. by erewrite slice_set_len.
  - by apply IH.
Qed.

(** Backtracking over the call [x]. *)
Lemma iter_back cp h h' R' b b' cache calls longest s s' a pre x suf y m i k :
  heap_ok h (pre ++ x :: suf) → heap_ok h' R' → y ∈ R' → returns y →
  x ∈ R0 → is_call x m i k → unlift h' x = Some h → BS.clear b' k = Some b →
  calls_ok (calls ++ [mkCall x s]) → len longest = n →
  ∃ longest', len longest' = n ∧
  iter cp (mkSearch h' (Some y) b' cache (calls ++ [mkCall x s]) longest s' a)
          (mkSearch h (first suf None) b cache calls longest' s (S a)).
Proof.
  intros Hh Hh' Hy (oy & ky & Hry) Hx Hc Hu Hb Hok Hl.
  destruct (core_node h' y _ _ _ (proj2 Hh') Hry) as (ny & Ey & _ & Emy & _).
  destruct (core_node h' x _ _ _ (proj2 Hh') Hc) as (nx' & Ex' & _ & _ & Ek).
  destruct (core_node h x _ _ _ (proj2 Hh) Hc) as (nx & Ex & _ & _ & _).
  assert (∃ longest', (if cp then record_longest h' (calls ++ [mkCall x s]) a longest
                       else Some longest) = Some longest' ∧ len longest' = n) as (lg & Elg & Hlg).
  { destruct cp; [apply record_longest_ok; [apply Hh'|done|done]|eauto]. }
  exists lg. split; [done|]. split; [eapply heap_running; [apply Hh'|done]|].
  unfold check_step. cbn [deref mbind option_bind]. rewrite Ey. cbn [mbind option_bind].
  rewrite Emy. rewrite decide_False by (rewrite len_app; unfold len; simpl; lia).
  rewrite Elg. cbn [mbind option_bind].
  assert (slice_get (calls ++ [mkCall x s]) (len (calls ++ [mkCall x s]) - 1)
            = Some (mkCall x s)) as ->.
  { apply slice_get_Some. rewrite len_app. unfold len. simpl. split; [lia|].
    apply list_lookup_middle. lia. }
  cbn [mbind option_bind ca_entry ca_state]. rewrite Ex'. cbn [mbind option_bind].
  rewrite Ek, <-(is_call_id _ _ _ _ Hc), u64_id, (is_call_id _ _ _ _ Hc), Hb by done.
  cbn [mbind option_bind]. rewrite Hu. cbn [mbind option_bind]. rewrite Ex.
  cbn [mbind option_bind]. rewrite (heap_next _ _ _ _ _ Hh Ex).
  rewrite length_app. simpl. rewrite Nat.add_sub, take_app_length. done.
Qed.

(** ** A level of the search *)

(** The loop has emptied the list: the calls [p] are on the stack. *)
Definition found R s calls st : Prop :=
  ∃ p, lin R s p ∧ heap_ok (se_heap st) [] ∧ len (se_longest st) = n ∧
    calls_ok (se_calls st) ∧ ca_entry <$> se_calls st = (ca_entry <$> calls) ++ p.

(** The level is exhausted: [entry] is a return, everything is as before and
    the cache has grown by smaller configurations only. *)
Definition exhausted R s h b cache calls st : Prop :=
  dead R s ∧ ∃ y cache' longest' a',
    st = mkSearch h (Some y) b cache' calls longest' s a' ∧ y ∈ R ∧ returns y ∧
    cache_ok (length R) cache' ∧ cache_grows (length R) cache cache' ∧ len longest' = n.

(** Every call of [pre] was tried in vain. *)
Definition tried R (s : State) (pre : list nat) : Prop :=
  ∀ e, e ∈ pre → ¬ returns e ∧ ∀ m i k o s', is_call e m i k → is_ret m o k →
    Step model s i o = (true, s') → dead (without e m R) s'.

Lemma tried_dead R s pre x suf :
  R = pre ++ x :: suf → StronglySorted (λ x y, (y < x)%nat) R → tried R s pre → returns x →
  dead R s.
Proof.
  intros E Hs Ht Hx [p Hp].
  destruct (lin_front R s p pre x suf Hp E Hs Hx)
    as (e & m & i & k & o & s' & p' & _ & He & Hc & Hr & Hst & Hl).
  destruct (Ht e He) as [_ Hd]. eapply Hd; eauto.
Qed.

Lemma tried_snoc R s pre x m i k o ok s' :
  tried R s pre → is_call x m i k → is_ret m o k → Step model s i o = (ok, s') →
  (ok = true → dead (without x m R) s') → tried R s (pre ++ [x]).
Proof.
  intros Ht Hc Hr Hst Hd e [He|He]%elem_of_app; [by apply Ht|].
  apply list_elem_of_singleton in He as ->. split; [by eapply call_not_ret|].
  intros m2 i2 k2 o2 s2 Hc2 Hr2 Hst2. unfold is_call, is_ret in *. simplify_eq.
  rewrite Hst in Hst2. simplify_eq. by apply Hd.
Qed.

Lemma found_step R s x m i k o s' calls st :
  x ∈ R → is_call x m i k → is_ret m o k → (∀ y, y ∈ R → returns y → (y < x)%nat) →
  Step model s i o = (true, s') →
  found (without x m R) s' (calls ++ [mkCall x s]) st → found R s calls st.
Proof.
  intros Hx Hc Hr Hb Hst (p & Hl & ? & ? & ? & E). exists (x :: p). split_and!; try done.
  - exists m, i, k, o, s'. done.
  - rewrite E, fmap_app, <-(assoc_L app). done.
Qed.

(** In front of the first return. *)
Lemma front_before b pre x suf s :
  rem b = pre ++ x :: suf → tried (rem b) s pre → ¬ returns x →
  ∀ y, y ∈ rem b → returns y → (y < x)%nat.
Proof.
  intros E Ht Hx y Hy Hr. pose proof (rem_sorted b) as Hs. rewrite E in *.
  apply elem_of_app in Hy as [Hy|[->|Hy]%elem_of_cons]; [by destruct (Ht y Hy)|done|].
  apply list_elem_of_lookup_1 in Hy as [a Ha]. rewrite StronglySorted_lookup_iff in Hs.
  apply (Hs (length pre) (length pre + S a)%nat); [lia|by apply list_lookup_middle|].
  rewrite lookup_app_r by lia. by replace (length pre + S a - length pre)%nat with (S a) by lia.
Qed.

(** What the level below leaves in the cache. *)
Lemma cache_back N N' cache cache1 c' :
  (N' < N)%nat → cache_ok N cache → length (rem (linearized c')) = N' →
  dead (rem (linearized c')) (ce_state c') → cache_ok N' cache1 →
  cache_grows N' (<[BS.hash (linearized c') :=
      default [] (cache !! BS.hash (linearized c')) ++ [c']]> cache) cache1 →
  cache_ok N cache1 ∧ cache_grows N cache cache1.
Proof.
  intros HN Hc El Hd Hc1 Hg. split; intros c Hin.
  - intros Hlt. destruct (Hg c Hin) as [[Ho| ->]%add_cache|]; [by apply Hc|done|by apply Hc1].
  - destruct (Hg c Hin) as [[Ho| ->]%add_cache|]; [by left|right; lia|right; lia].
Qed.

Lemma cache_push N N' cache c' :
  (N' ≤ N)%nat → cache_ok N cache → length (rem (linearized c')) = N' →
  cache_ok N' (<[BS.hash (linearized c') :=
    default [] (cache !! BS.hash (linearized c')) ++ [c']]> cache).
Proof.
  intros HN Hc El c [Ho| ->]%add_cache Hlt; [apply Hc; [done|lia]|lia].
Qed.

(** From [entry = q], with [calls] on the stack, the loop decides the level of
    [rem b] and [s]. *)
Definition decides cp h q b cache cache0 calls longest s a : Prop :=
  ∃ st, rtc (iter cp) (mkSearch h q b cache calls longest s a) st ∧
    (found (rem b) s calls st ∨ exhausted (rem b) s h b cache0 calls st).

Lemma decides_iter cp h h' q q' b b' cache cache' cache0 calls calls' longest longest' s s' a a' st :
  iter cp (mkSearch h q b cache calls longest s a) (mkSearch h' q' b' cache' calls' longest' s' a') →
  rtc (iter cp) (mkSearch h' q' b' cache' calls' longest' s' a') st →
  (found (rem b) s calls st ∨ exhausted (rem b) s h b cache0 calls st) →
  decides cp h q b cache cache0 calls longest s a.
Proof. intros Hi Hr Hres. exists st. split; [by eapply rtc_l|done]. Qed.

(** The loop decides the level from its first entry. *)
Definition level cp b : Prop :=
  ∀ h s cache calls longest a, heap_ok h (rem b) → cache_ok (length (rem b)) cache →
    calls_ok calls → len longest = n →
    decides cp h (first (rem b) None) b cache cache calls longest s a.

(** At a call: skip it, or take it and decide the level below.  [rest] is what
    happens once the call was tried in vain. *)
Lemma decides_call cp b h s cache calls longest a pre x m i k o ok s' B C :
  (∀ b', (length (rem b') < length (rem b))%nat → bits_wf b' → level cp b') → bits_wf b →
  rem b = pre ++ x :: B ++ m :: C → without x m (rem b) = pre ++ B ++ C →
  is_call x m i k → is_ret m o k → m ∈ R0 → Step model s i o = (ok, s') →
  heap_ok h (rem b) → tried (rem b) s pre → cache_ok (length (rem b)) cache →
  calls_ok calls → len longest = n →
  (∀ cache1 longest1 a1, (ok = true → dead (without x m (rem b)) s') →
     cache_ok (length (rem b)) cache1 → cache_grows (length (rem b)) cache cache1 →
     len longest1 = n →
     decides cp h (first (B ++ m :: C) None) b cache1 cache calls longest1 s a1) →
  decides cp h (Some x) b cache cache calls longest s a.
Proof.
  intros Hbelow Hb E Ew Hc Hr Hm Hst Hh Ht Hcache Hcalls Hlong rest.
  assert (x ∈ rem b) as Hx by (rewrite E; set_solver).
  pose proof (proj1 (proj1 (rem_elem _ _) Hx)) as HxR.
  destruct (set_rem b x m i k o Hb Hx Hc Hr Hm) as (b' & Es & Hb' & Er & Ecl).
  destruct (cacheContains_spec cache (mkCache b' s')) as (seen & Esn & Hseen).
  rewrite Ew in Er. assert (length (rem b') < length (rem b))%nat as Hlt.
  { rewrite Er, E, !length_app. simpl. rewrite length_app. simpl. lia. }
  assert (heap_ok h (pre ++ x :: B ++ m :: C)) as Hh2 by (by rewrite <-E).
  destruct (decide (ok = true ∧ seen = false)) as [[-> ->]|Hnot]; cycle 1.
  { assert (ok = true → seen = true) as Hs by (destruct ok, seen; naive_solver).
    destruct (rest cache longest a) as (st & Hrtc & Hres); [|done|by left|done|].
    - intros Hok. specialize (Hs Hok). subst seen. rewrite Ew, <-Er.
      by apply (Hcache _ (Hseen eq_refl)).
    - eapply decides_iter; [|done|done].
      eapply iter_advance; [done..|]. intros Hok. specialize (Hs Hok). subst seen. eauto. }
  destruct (iter_lift cp h b cache calls longest s a pre x B m C i k o s' b')
    as (h' & Hh' & Hu & Hit); try done.
  assert (Hcalls' : calls_ok (calls ++ [mkCall x s])).
  { apply Forall_app. split; [done|]. apply Forall_singleton. split; [done|by apply id_range]. }
  rewrite <-Er in Hh', Hit.
  destruct (Hbelow b' Hlt Hb' h' s' (<[BS.hash b' := default [] (cache !! BS.hash b') ++ [mkCache b' s']]> cache)
     (calls ++ [mkCall x s]) longest a) as (st1 & Hrtc1 & [Hf|Hex]); try done.
  { apply (cache_push (length (rem b)) _ cache (mkCache b' s')); [lia|done|done]. }
  { eapply decides_iter; [done|done|left]. rewrite Er, <-Ew in Hf.
    eapply found_step; eauto. eapply front_before; eauto. by eapply call_not_ret. }
  destruct Hex as (Hd & y & cache1 & longest1 & a1 & -> & Hy & Hyr & Hc1 & Hg1 & Hl1).
  destruct (cache_back (length (rem b)) (length (rem b')) cache cache1 (mkCache b' s'))
    as [Hc2 Hg2]; try done.
  destruct (iter_back cp h h' (rem b') b b' cache1 calls longest1 s s' a1 pre x (B ++ m :: C) y m i k)
    as (longest2 & Hl2 & Hit2); try done.
  destruct (rest cache1 longest2 (S a1)) as (st & Hrtc & Hres); try done.
  { intros _. by rewrite Ew, <-Er. }
  eapply decides_iter; [done| |done]. etrans; [done|]. by eapply rtc_l.
Qed.

(** From any entry whose predecessors were tried in vain. *)
Lemma decides_suffix cp b :
  (∀ b', (length (rem b') < length (rem b))%nat → bits_wf b' → level cp b') → bits_wf b →
  ∀ suf pre h s cache calls longest a, rem b = pre ++ suf → suf ≠ [] →
  heap_ok h (rem b) → tried (rem b) s pre →
  cache_ok (length (rem b)) cache → calls_ok calls → len longest = n →
  decides cp h (first suf None) b cache cache calls longest s a.
Proof.
  intros Hbelow Hb suf. induction suf as [|x suf IH]; [done|].
  intros pre h s cache calls longest a E _ Hh Ht Hcache Hcalls Hlong.
  assert (x ∈ rem b) as Hx by (rewrite E; set_solver).
  destruct (wf_node Hwf x (proj1 (proj1 (rem_elem _ _) Hx)))
    as [(m & i & k & o & Hc & Hr & Hm & _)|(o & k & e & i & Hr & _)]; cycle 1.
  { eexists. split; [apply rtc_refl|right]. split.
    - eapply tried_dead; [done|apply rem_sorted|done|]. unfold returns. eauto.
    - do 4 eexists. split_and!; [done|done|unfold returns; eauto|done| |done]. intros c. by left. }
  destruct (match_behind b pre x suf m i k o E Hc Hr) as (B & C & -> & Ew).
  destruct (Step model s i o) as [ok s'] eqn:Hst. rewrite <-E in Ew.
  eapply decides_call; eauto. intros cache1 longest1 a1 Hd Hc1 Hg Hl1.
  destruct (IH (pre ++ [x]) h s cache1 calls longest1 a1) as (st & Hrtc & Hres); try done.
  - by rewrite <-(assoc_L app).
  - by destruct B.
  - by eapply tried_snoc.
  - exists st. split; [done|]. destruct Hres as [|(? & y & c2 & l2 & a2 & ? & ? & ? & ? & Hg2 & ?)];
      [by left|right]. split; [done|]. exists y, c2, l2, a2. split_and!; try done.
    intros c Hin. destruct (Hg2 c Hin) as [Hin2|]; [by apply Hg|by right].
Qed.

Lemma search_level cp b : bits_wf b → level cp b.
Proof.
  remember (length (rem b)) as N eqn:HN. revert b HN.
  induction (lt_wf N) as [N _ IH]. intros b -> Hb h s cache calls longest a Hh Hc Hcl Hl.
  destruct (rem b) as [|x R] eqn:E.
  - eexists. split; [apply rtc_refl|left]. rewrite E. exists [].
    split_and!; try done. by rewrite app_nil_r.
  - rewrite <-E in *. apply (decides_suffix cp b) with (pre := []); try done.
    + intros b' Hlt Hb'. by eapply IH.
    + by rewrite E.
    + intros e He. set_solver.
Qed.

(** ** The whole loop *)

Abbreviation loop cp := (check_loop model cp hd n (λ _, false)).

Lemma loop_rtc cp st st' :
  rtc (iter cp) st st' → ∃ k, ∀ fuel, loop cp (k + fuel)%nat st = loop cp fuel st'.
Proof.
  induction 1 as [st|st st1 st' [(nd & q & E & Eq) Hs] _ (k & IH)]; [by exists O|].
  exists (S k). intros fuel. cbn [Nat.add check_loop]. by rewrite E, Eq, Hs.
Qed.

Lemma fill_longest (v : option (nat * list Z)) longest :
  len longest = n → 0 ≤ n →
  ∃ lg, for_range n (λ i lg, slice_set lg i v) longest = Some lg ∧ lg = replicate (Z.to_nat n) v.
Proof.
  intros Hl Hn.
  destruct (for_range_inv n (λ i lg, slice_set lg i v)
    (λ i lg, lg = replicate (Z.to_nat i) v ++ drop (Z.to_nat i) longest) longest Hn)
    as (lg & E & ->).
  - by rewrite drop_0.
  - intros i lg Hi ->. unfold slice_set. rewrite decide_True; cycle 1.
    { rewrite len_app. unfold len in *. rewrite length_replicate, length_drop. lia. }
    eexists. split; [done|]. rewrite Z2Nat.inj_add, Nat.add_1_r by lia.
    rewrite insert_app_r_alt, length_replicate by (rewrite length_replicate; lia).
    rewrite Nat.sub_diag, replicate_S_end, <-(assoc_L app). f_equal.
    destruct (drop (Z.to_nat i) longest) as [|y rest] eqn:Ed.
    { apply (f_equal length) in Ed. rewrite length_drop in Ed. unfold len in Hl. simpl in Ed. lia. }
    rewrite <-Nat.add_1_r, <-drop_drop, Ed. done.
  - exists (replicate (Z.to_nat n) v). split; [|done]. rewrite E. f_equal.
    rewrite drop_ge, app_nil_r by (unfold len in Hl; lia). done.
Qed.

(** The verdict of the loop from the initial values of the variables. *)
Theorem loop_verdict cp h longest :
  heap_ok h R0 → len longest = n → 0 ≤ n →
  ∃ k, (∃ p a, lin R0 (Init model) p ∧
          ∀ fuel, (k ≤ fuel)%nat →
            loop cp fuel (mkSearch h (first R0 None) (BS.newBitset n) ∅ [] longest (Init model) O)
            = Returned true (replicate (Z.to_nat n) (Some (a, idof <$> p)))) ∨
       (dead R0 (Init model) ∧ ∃ lg,
          ∀ fuel, (k ≤ fuel)%nat →
            loop cp fuel (mkSearch h (first R0 None) (BS.newBitset n) ∅ [] longest (Init model) O)
            = Returned false lg).
Proof.
  intros Hh Hl Hn.
  assert (Hrem : rem (BS.newBitset n) = R0).
  { apply filter_all. intros x Hx. apply BS.newBitset_get; [done|].
    apply bits_range; [|done]. split; [apply BS.newBitset_ok|done]. }
  destruct (search_level cp (BS.newBitset n)) with (h := h) (s := Init model)
    (cache := (∅ : gmap Z (list (cacheEntry State)))) (calls := ([] : list (callsEntry State)))
    (longest := longest) (a := O)
    as (st & Hrtc & Hres); try done.
  - split; [apply BS.newBitset_ok|done].
  - by rewrite Hrem.
  - intros c (hsh & bucket & E & _). by rewrite lookup_empty in E.
  - by apply Forall_nil.
  - rewrite Hrem in Hrtc, Hres. apply loop_rtc in Hrtc as [k Hk]. exists (k + 1)%nat.
    destruct Hres as [(p & Hp & Hh' & Hl' & Hc' & Ec)|(Hd & y & c' & lg & a & -> & Hy & (o & ky & Hr) & _)].
    + left. exists p, (se_allocs st). split; [done|]. intros fuel Hf.
      replace fuel with (k + S (fuel - k - 1))%nat by lia. rewrite Hk. cbn [check_loop].
      destruct (heap_head _ _ Hh') as (nd & -> & ->). simpl. unfold check_done.
      rewrite calls_seq_ok by (try done; apply Hh').
      destruct (fill_longest (Some (se_allocs st, idof ∘ ca_entry <$> se_calls st)) (se_longest st))
        as (lg & -> & ->); [done|done|].
      rewrite list_fmap_compose, Ec. done.
    + right. split; [done|]. exists lg. intros fuel Hf.
      replace fuel with (k + S (fuel - k - 1))%nat by lia. rewrite Hk. cbn [check_loop se_heap].
      destruct (heap_running _ _ y Hh Hy) as (nd & q & -> & ->).
      destruct (core_node h y _ _ _ (proj2 Hh) Hr) as (ny & Ey & _ & Em & _).
      unfold check_step. cbn [deref mbind option_bind]. rewrite Ey. cbn [mbind option_bind].
      rewrite Em. done.
Qed.

End facts.
End search.
End PS.
