(* ===== verification/PorcupineFacts.v ===== *)
(** What the checker decides.

    [checkSingle] on well-formed entries terminates and returns [true] exactly
    when the entries have a linearization ([linearization]); with [makeEntries]
    this is linearizability of the operations in real time ([linearizable]), for
    every way [sort.Sort] may order entries it does not distinguish; and
    [CheckOperations] returns the conjunction over the partitions in whatever
    order the goroutines finish. *)

From S2P Require Import Prelude Bitset Porcupine PorcupineList PorcupineSearch.

#[local] Open Scope Z_scope.

Module PF.
Import PC PL PS.

(** ** Building the list *)

Section build.
#[local] Arguments set_prev : simpl never.
#[local] Arguments set_next : simpl never.
Context {Input Output : Type}.
Implicit Types (es : list (entry Input Output)) (e : entry Input Output).
Implicit Types (h : list (node Input Output)).

(** Locations of the entries: the last entry is allocated first. *)
Fixpoint locs es : list nat :=
  match es with [] => [] | _ :: es => length es :: locs es end.

(** The first return of operation [k]. *)
Fixpoint ret_loc es (k : Z) : option nat :=
  match es with
  | [] => None
  | e :: es => if decide (en_kind e = returnEntry ∧ en_id e = k) then Some (length es)
               else ret_loc es k
  end.

Definition entry_core e es : option (Input + Output) * option nat * Z :=
  (Some (en_value e),
   match en_kind e with callEntry => ret_loc es (en_id e) | returnEntry => None end,
   en_id e).

Fixpoint cores_ok h es : Prop :=
  match es with
  | [] => True
  | e :: es => core <$> h !! length es = Some (entry_core e es) ∧ cores_ok h es
  end.

Lemma locs_lt es x : x ∈ locs es → (x < length es)%nat.
Proof.
  induction es as [|e es IH]; simpl; [by intros ?%not_elem_of_nil|].
  intros [->|?%IH]%elem_of_cons; lia.
Qed.

Lemma locs_lookup es i x : locs es !! i = Some x ↔ (i < length es)%nat ∧ x = (length es - 1 - i)%nat.
Proof.
  revert i. induction es as [|e es IH]; intros [|i]; simpl;
    try (split; [done|lia]).
  - split; [intros [= <-]; lia|intros [_ ->]; f_equal; lia].
  - rewrite IH. lia.
Qed.

Lemma locs_length es : length (locs es) = length es.
Proof. induction es; simpl; congruence. Qed.

Lemma same_core_length h h' : same_core h h' → length h = length h'.
Proof.
  intros Hc. assert (∀ x, (x < length h)%nat ↔ (x < length h')%nat) as Hx.
  { intros x. rewrite <-!lookup_lt_is_Some, <-!(fmap_is_Some core). by rewrite Hc. }
  pose proof (Hx (length h)). pose proof (Hx (length h')). lia.
Qed.

(** [insertBefore] of a new node in front of the list. *)
Lemma insert_front h ls (nd : node Input Output) :
  dll h ls → (∀ x, x ∈ ls → (x < length h)%nat) → nd_next nd = None → nd_prev nd = None →
  ∃ h', insertBefore (h ++ [nd]) (length h) (first ls None) = Some h' ∧
    dll h' (length h :: ls) ∧ same_core h' (h ++ [nd]).
Proof.
  intros [Hnd Hs] Hlt Hn Hp.
  assert (Hself : (h ++ [nd]) !! length h = Some nd) by (by apply list_lookup_middle).
  assert (HsnD : NoDup (length h :: ls)).
  { apply list.NoDup_cons. split; [|done]. intros ?%Hlt. lia. }
  destruct ls as [|m ls]; simpl.
  { eexists. split; [done|]. split; [|done]. split; [done|]. exists nd. done. }
  destruct Hs as (nm & Em & Pm & Nm & Hs).
  assert (m < length h)%nat as Hm by (by eapply lookup_lt_Some).
  assert ((h ++ [nd]) !! m = Some nm) as Em' by (by rewrite lookup_app_l).
  rewrite Em'. simpl. rewrite (set_prev_Some _ _ nm) by done. simpl.
  rewrite (set_next_Some _ _ nd) by (rewrite list_lookup_insert_ne by lia; done). simpl.
  rewrite Pm. eexists. split; [done|].
  apply list.NoDup_cons in Hnd as [Dm Hnd]. split; [split; [done|]|].
  - eexists. rewrite list_lookup_insert_eq
      by (rewrite length_insert, length_app; simpl; lia). split_and!; [done..|].
    eexists. rewrite list_lookup_insert_ne, list_lookup_insert_eq
      by (rewrite ?length_app; simpl; lia). split_and!; [done..|].
    apply seg_insert; [intros Hin; specialize (Hlt (length h)); set_solver by lia|].
    apply seg_insert; [done|]. clear -Hs.
    revert Hs. generalize (Some m). induction ls as [|x ls IH]; intros p; [done|].
    intros (nx & Ex & ? & ? & ?). exists nx. rewrite lookup_app_l by (by eapply lookup_lt_Some).
    eauto.
  - eapply same_core_trans.
    + eapply (same_core_insert _ _ nd); [by rewrite list_lookup_insert_ne by lia|done].
    + by eapply (same_core_insert _ _ nm).
Qed.

Lemma cores_ok_same h h' es : same_core h h' → cores_ok h' es → cores_ok h es.
Proof. intros Hc. induction es as [|e es IH]; simpl; [done|]. rewrite (Hc (length es)). naive_solver. Qed.

Lemma cores_ok_app h h' es : cores_ok h es → cores_ok (h ++ h') es.
Proof.
  induction es as [|e es IH]; simpl; [done|]. intros [E ?]. split; [|by apply IH].
  destruct (h !! length es) eqn:El; [|done]. by rewrite (lookup_app_l_Some _ _ _ _ El).
Qed.

Lemma link_entries_spec es :
  ∃ h mp, link_entries es = Some (h, mp, first (locs es) None) ∧ length h = length es ∧
    dll h (locs es) ∧ (∀ k, mp !! k = ret_loc es k) ∧ cores_ok h es.
Proof.
  induction es as [|e es (h & mp & E & Hl & Hd & Hmp & Hc)].
  { exists [], ∅. split_and!; try done. split; [constructor|done]. }
  change (link_entries (e :: es)) with (link_entries es ≫= link_step e). rewrite E. cbn [mbind option_bind].
  assert (∀ x, x ∈ locs es → (x < length h)%nat) as Hlt by (rewrite Hl; apply locs_lt).
  destruct (insert_front h (locs es) (mkNode (Some (en_value e))
     (match en_kind e with callEntry => mp !! en_id e | returnEntry => None end) (en_id e) None None)
     Hd Hlt eq_refl eq_refl) as (h' & Ei & Hd' & Hc').
  exists h', (match en_kind e with callEntry => mp | returnEntry => <[en_id e := length h]> mp end).
  pose proof (same_core_length _ _ Hc') as Hlen. rewrite length_app in Hlen. simpl in Hlen.
  split_and!.
  - unfold link_step, new_node. destruct (en_kind e); rewrite Ei; simpl; by rewrite Hl.
  - simpl. lia.
  - simpl. by rewrite <-Hl.
  - intros k. cbn [ret_loc]. destruct (en_kind e).
    + rewrite decide_False by naive_solver. apply Hmp.
    + case_decide as Hk; [destruct Hk as [_ <-]; by rewrite lookup_insert_eq, Hl|].
      rewrite lookup_insert_ne by naive_solver. apply Hmp.
  - simpl. split.
    + rewrite Hc', <-Hl, list_lookup_middle by done. simpl. unfold core, entry_core. simpl.
      by rewrite Hmp.
    + eapply cores_ok_same; [done|]. by apply cores_ok_app.
Qed.

Lemma length_loop_spec h fuel p ls l :
  seg h p ls None → (length ls ≤ fuel)%nat →
  length_loop fuel h (first ls None) l = Some (l + len ls).
Proof.
  revert p ls l. induction fuel as [|fuel IH]; intros p [|x ls] l Hs Hf; simpl in *; try lia.
  - unfold len. simpl. by rewrite Z.add_0_r.
  - unfold len. simpl. by rewrite Z.add_0_r.
  - destruct Hs as (nd & -> & _ & Hn & Hs). simpl. rewrite Hn.
    rewrite (IH (Some x)) by (try done; lia). f_equal. unfold len. simpl. lia.
Qed.

End build.
(** ** Linearizations of entries *)

Section entries.
Context {State Input Output : Type} (model : Model State Input Output).
Implicit Types (es : list (entry Input Output)) (k : Z).

Definition calls_at es (p : nat) k (i : Input) : Prop :=
  ∃ e, es !! p = Some e ∧ en_kind e = callEntry ∧ en_id e = k ∧ en_value e = inl i.

Definition returns_at es (p : nat) k (o : Output) : Prop :=
  ∃ e, es !! p = Some e ∧ en_kind e = returnEntry ∧ en_id e = k ∧ en_value e = inr o.

(** The number of operations. *)
Definition ops_count es : Z := Z.quot (len es) 2.

(** Every operation is called once, and returns once after that. *)
Record wf_entries es : Prop := mkWfEntries {
  we_count : len es = 2 * ops_count es;
  we_width : len es < 2 ^ 63;
  we_id : ∀ p e, es !! p = Some e → 0 ≤ en_id e < ops_count es;
  we_unique : ∀ p q e f, es !! p = Some e → es !! q = Some f →
    en_kind e = en_kind f → en_id e = en_id f → p = q;
  we_pair : ∀ k, 0 ≤ k < ops_count es →
    ∃ p q i o, (p < q)%nat ∧ calls_at es p k i ∧ returns_at es q k o
}.

(** The model takes the operations of [path] one after the other. *)
Fixpoint legal es (s : State) (path : list Z) : Prop :=
  match path with
  | [] => True
  | k :: path => ∃ p q i o s', calls_at es p k i ∧ returns_at es q k o ∧
      Step model s i o = (true, s') ∧ legal es s' path
  end.

(** [path] orders all operations, legally for the model, and an operation that
    returned before another was called comes before it. *)
Definition linearization es (path : list Z) : Prop :=
  path ≡ₚ seqZ 0 (ops_count es) ∧ legal es (Init model) path ∧
  ∀ x y a b p q i o, (x < y)%nat → path !! x = Some a → path !! y = Some b →
    calls_at es p a i → returns_at es q b o → (p < q)%nat.

(** ** From entries to nodes *)

Lemma ret_loc_spec es q k o :
  returns_at es q k o →
  (∀ p e, es !! p = Some e → en_kind e = returnEntry → en_id e = k → p = q) →
  ret_loc es k = Some (length es - 1 - q)%nat.
Proof.
  intros (f & Ef & Hf & Hk & _). revert q Ef.
  induction es as [|e es IH]; intros [|q] Ef Hu; simplify_eq/=.
  - rewrite decide_True by done. f_equal. lia.
  - case_decide as Hd.
    + destruct Hd as [H1 H2]. by pose proof (Hu O e eq_refl H1 H2).
    + rewrite (IH q); [f_equal; lia|done|]. intros p e' ? ? ?.
      specialize (Hu (S p) e'). naive_solver.
Qed.

Lemma cores_ok_lookup (h : list (node Input Output)) es p e :
  cores_ok h es → es !! p = Some e →
  core <$> h !! (length es - 1 - p)%nat = Some (entry_core e (drop (S p) es)).
Proof.
  revert p. induction es as [|e' es IH]; intros [|p] Hc E; simplify_eq/=.
  - destruct Hc as [Hc _]. rewrite drop_0. rewrite <-Hc. do 2 f_equal. lia.
  - destruct Hc as [_ Hc]. rewrite <-(IH p) by done. do 2 f_equal. lia.
Qed.

Lemma locs_sorted es : StronglySorted (λ x y, (y < x)%nat) (locs es).
Proof.
  induction es as [|e es IH]; simpl; constructor; [done|].
  apply Forall_lookup. intros i x Hx%list_elem_of_lookup_2. by apply locs_lt.
Qed.

Section nodes.
Context (es : list (entry Input Output)) (Hwf : wf_entries es).
Context (h : list (node Input Output)) (Hc : cores_ok h es).

Abbreviation loc p := (length es - 1 - p)%nat.

Lemma call_node p q k i o :
  calls_at es p k i → returns_at es q k o → is_call h (loc p) (loc q) i k.
Proof.
  intros (e & Ee & Hk & Hid & Hv) Hr. pose proof Hr as (f & Ef & Hkf & Hidf & _).
  assert (p < q)%nat as Hpq.
  { destruct (we_pair es Hwf k) as (p' & q' & i' & o' & Hlt & (e' & Ee' & ? & ? & _) & (f' & Ef' & ? & ? & _)).
    { rewrite <-Hid. by eapply we_id. }
    rewrite (we_unique es Hwf p p' e e'), (we_unique es Hwf q q' f f'); congruence. }
  unfold is_call, cr. rewrite (cores_ok_lookup h es p e) by done.
  unfold entry_core. rewrite Hk, Hv, Hid. f_equal. do 2 f_equal.
  assert (returns_at (drop (S p) es) (q - S p) k o) as Hr'.
  { destruct Hr as (f' & ? & ?). exists f'. rewrite lookup_drop.
    by replace (S p + (q - S p))%nat with q by lia. }
  rewrite (ret_loc_spec _ _ _ _ Hr').
  - rewrite length_drop. f_equal. apply lookup_lt_Some in Ef. lia.
  - intros p' e' Ep' Hk' Hid'. rewrite lookup_drop in Ep'.
    enough (S p + p' = q)%nat by lia. eapply (we_unique es Hwf); [done|done|congruence|congruence].
Qed.

Lemma ret_node q k o : returns_at es q k o → is_ret h (loc q) o k.
Proof.
  intros (f & Ef & Hkf & Hidf & Hv). unfold is_ret, cr.
  rewrite (cores_ok_lookup h es q f) by done. unfold entry_core. by rewrite Hkf, Hv, Hidf.
Qed.

Lemma node_entry x : x ∈ locs es → ∃ p e, es !! p = Some e ∧ x = loc p ∧ (p < length es)%nat.
Proof.
  intros [p Hp]%list_elem_of_lookup_1. apply locs_lookup in Hp as [Hlt ->].
  destruct (lookup_lt_is_Some_2 es p Hlt) as [e E]. eauto.
Qed.

Lemma loc_elem p e : es !! p = Some e → loc p ∈ locs es.
Proof.
  intros E. apply (list_elem_of_lookup_2 _ p). apply locs_lookup.
  split; [by eapply lookup_lt_Some|done].
Qed.

(** Every node is the call or the return of an operation. *)
Lemma node_cases x :
  x ∈ locs es → ∃ p q i o k, (p < q)%nat ∧ (q < length es)%nat ∧ calls_at es p k i ∧
    returns_at es q k o ∧ 0 ≤ k < ops_count es ∧ (x = loc p ∨ x = loc q).
Proof.
  intros (p0 & e & E & -> & _)%node_entry. pose proof (we_id es Hwf p0 e E) as Hid.
  destruct (we_pair es Hwf (en_id e) Hid) as (p & q & i & o & Hlt & Hca & Hre).
  exists p, q, i, o, (en_id e). pose proof Hca as (e1 & E1 & K1 & I1 & _).
  pose proof Hre as (e2 & E2 & K2 & I2 & _).
  split_and!; try done; [by eapply lookup_lt_Some|lia|lia|].
  destruct (en_kind e) eqn:Ek.
  - left. by rewrite (we_unique es Hwf p0 p e e1) by congruence.
  - right. by rewrite (we_unique es Hwf p0 q e e2) by congruence.
Qed.

Lemma call_entry x m i k : x ∈ locs es → is_call h x m i k →
  ∃ p q o, x = loc p ∧ m = loc q ∧ calls_at es p k i ∧ returns_at es q k o ∧ (p < q < length es)%nat.
Proof.
  intros (p & q & i' & o & k' & Hlt & Hq & Hca & Hre & _ & Hx)%node_cases Hcx.
  pose proof (call_node _ _ _ _ _ Hca Hre) as Hn. pose proof (ret_node _ _ _ Hre) as Hr.
  destruct Hx as [->| ->]; unfold is_call, is_ret in *; simplify_eq.
  exists p, q, o. split_and!; done || lia.
Qed.

Lemma ret_entry x o k : x ∈ locs es → is_ret h x o k → ∃ q, x = loc q ∧ returns_at es q k o.
Proof.
  intros (p & q & i' & o' & k' & Hlt & Hq & Hca & Hre & _ & Hx)%node_cases Hcx.
  pose proof (call_node _ _ _ _ _ Hca Hre) as Hn. pose proof (ret_node _ _ _ Hre) as Hr.
  destruct Hx as [->| ->]; unfold is_call, is_ret in *; simplify_eq. eauto.
Qed.

Lemma entries_wf : wf h (locs es) (length es) (ops_count es).
Proof.
  split.
  - apply locs_sorted.
  - intros ?%locs_lt. lia.
  - intros x Hx. destruct (node_cases x Hx) as (p & q & i & o & k & Hlt & Hq & Hca & Hre & Hk & Hxx).
    pose proof Hca as (e1 & E1 & _). pose proof Hre as (e2 & E2 & _).
    destruct Hxx as [->| ->]; [left|right].
    + exists (loc q), i, k, o. split_and!; [by eapply call_node|by apply ret_node|
        by eapply loc_elem|lia|lia|lia].
    + exists o, k, (loc p), i. split_and!; [by apply ret_node|by eapply loc_elem|
        by eapply call_node|lia|lia].
  - intros x y m m' i j k Hx Hy Hcx Hcy.
    destruct (call_entry _ _ _ _ Hx Hcx) as (p & _ & _ & -> & _ & (e1 & E1 & ? & ? & _) & _).
    destruct (call_entry _ _ _ _ Hy Hcy) as (p' & _ & _ & -> & _ & (e2 & E2 & ? & ? & _) & _).
    by rewrite (we_unique es Hwf p p' e1 e2) by congruence.
  - intros x y o o' k Hx Hy Hrx Hry.
    destruct (ret_entry _ _ _ Hx Hrx) as (p & -> & (e1 & E1 & ? & ? & _)).
    destruct (ret_entry _ _ _ Hy Hry) as (p' & -> & (e2 & E2 & ? & ? & _)).
    by rewrite (we_unique es Hwf p p' e1 e2) by congruence.
  - pose proof (we_width es Hwf). pose proof (we_count es Hwf). lia.
Qed.

(** A call location is determined by its id. *)
Lemma call_loc_unique x y :
  x ∈ locs es → y ∈ locs es → ¬ returns h x → ¬ returns h y → idof h x = idof h y → x = y.
Proof.
  intros Hx Hy Nx Ny E. pose proof entries_wf as Hw.
  destruct (wf_node _ _ _ _ Hw x Hx) as [(m&i&k&o&Cx&_)|(o&k&_&_&Hr&_)];
    [|exfalso; apply Nx; unfold returns; eauto].
  destruct (wf_node _ _ _ _ Hw y Hy) as [(m'&i'&k'&o'&Cy&_)|(o'&k'&_&_&Hr&_)];
    [|exfalso; apply Ny; unfold returns; eauto].
  rewrite (is_call_id _ _ _ _ _ Cx), (is_call_id _ _ _ _ _ Cy) in E. subst k'.
  by eapply (wf_call_id _ _ _ _ Hw).
Qed.

Lemma takes_legal s p :
  (∀ e, e ∈ p → e ∈ locs es) → takes model h s p → legal es s (idof h <$> p).
Proof.
  revert s. induction p as [|e p IH]; intros s Hin; simpl; [done|].
  intros (m & i & k & o & s' & Hca & Hre & Hst & Ht).
  destruct (call_entry e m i k) as (a & b & o' & -> & -> & Ha & Hb & _); [apply Hin; set_solver|done|].
  pose proof (ret_node _ _ _ Hb) as Hr2. assert (o' = o) as -> by (unfold is_ret in *; congruence).
  exists a, b, i, o, s'. rewrite (is_call_id _ _ _ _ _ Hca). split_and!; try done.
  apply IH; [set_solver|done].
Qed.

Lemma legal_takes s p :
  (∀ e, e ∈ p → e ∈ locs es ∧ ¬ returns h e) → legal es s (idof h <$> p) → takes model h s p.
Proof.
  revert s. induction p as [|e p IH]; intros s Hin; simpl; [done|].
  intros (a & b & i & o & s' & Ha & Hb & Hst & Hl). destruct (Hin e) as [He Hn]; [set_solver|].
  pose proof (call_node _ _ _ _ _ Ha Hb) as Hca. pose proof (ret_node _ _ _ Hb) as Hre.
  assert (e = loc a) as ->.
  { pose proof Ha as (ea & Ea & _). apply call_loc_unique; [done|by eapply loc_elem|done| |].
    - by eapply call_not_ret.
    - by rewrite (is_call_id _ _ _ _ _ Hca). }
  exists (loc b), i, (idof h (loc a)), o, s'. split_and!; try done.
  apply IH; [set_solver|done].
Qed.

(** Completions of the whole list are the linearizations of the entries. *)
Lemma orders_linearization p :
  orders model h (locs es) (Init model) p → linearization es (idof h <$> p).
Proof.
  intros (Hnd & Hin & Ht & Ho). pose proof entries_wf as Hw. split_and!.
  - apply NoDup_Permutation.
    + apply NoDup_fmap_2_strong; [|done]. intros x y Hx Hy E.
      apply Hin in Hx as [? ?], Hy as [? ?]. by apply call_loc_unique.
    + apply NoDup_seqZ.
    + intros k. rewrite list_elem_of_fmap, elem_of_seqZ. split.
      * intros (e & -> & [He _]%Hin). pose proof (id_range _ _ _ _ Hw e He). lia.
      * intros Hk. destruct (we_pair es Hwf k ltac:(lia)) as (a & b & i & o & _ & Ha & Hb).
        pose proof (call_node _ _ _ _ _ Ha Hb) as Hca. exists (loc a).
        split; [by rewrite (is_call_id _ _ _ _ _ Hca)|]. apply Hin.
        split; [|by eapply call_not_ret]. destruct Ha as (? & ? & _). by eapply loc_elem.
  - apply takes_legal; [|done]. intros e [? _]%Hin. done.
  - intros x y a b pa qb i o Hxy Hx Hy Ha Hb. rewrite list_lookup_fmap in Hx, Hy.
    apply fmap_Some in Hx as (e & Ee & ->), Hy as (e' & Ee' & ->).
    assert (e ∈ p ∧ e' ∈ p) as [He%Hin He'%Hin] by (split; by eapply list_elem_of_lookup_2).
    destruct He as [He Hne], He' as [He' Hne'].
    destruct (wf_node _ _ _ _ Hw e' He') as [(m'&i'&k'&o'&Ce'&Re'&Hm'&_)|(o'&k'&_&_&Hr&_)];
      [|exfalso; apply Hne'; unfold returns; eauto].
    pose proof (Ho x y e e' m' i' k' Hxy Ee Ee' Ce') as Hlt.
    rewrite (is_call_id _ _ _ _ _ Ce') in Hb. pose proof (ret_node _ _ _ Hb) as Rb.
    assert (loc qb = m') as <-.
    { pose proof Hb as (? & ? & _). eapply (wf_ret_id _ _ _ _ Hw); eauto. by eapply loc_elem. }
    destruct (wf_node _ _ _ _ Hw e He) as [(m&i2&k&o2&Ce&Re&_)|(o2&k&_&_&Hr&_)];
      [|exfalso; apply Hne; unfold returns; eauto].
    destruct (call_entry e m i2 k He Ce) as (p2 & q2 & o3 & -> & -> & Hp2 & _).
    rewrite (is_call_id _ _ _ _ _ Ce) in Ha. destruct Ha as (ea & Ea & Ka & Ia & _), Hp2 as (eb & Eb & Kb & Ib & _).
    rewrite (we_unique es Hwf pa p2 ea eb) by congruence. lia.
Qed.

Lemma linearization_orders path :
  linearization es path →
  ∃ p, orders model h (locs es) (Init model) p ∧ path = idof h <$> p.
Proof.
  intros (Hperm & Hl & Ho). pose proof entries_wf as Hw.
  assert (∃ p, path = idof h <$> p ∧ ∀ e, e ∈ p → e ∈ locs es ∧ ¬ returns h e) as (p & -> & Hp).
  { assert (∀ k, k ∈ path → 0 ≤ k < ops_count es) as Hk.
    { intros k. rewrite Hperm, elem_of_seqZ. lia. }
    clear Hperm Hl Ho. induction path as [|k path IH]; [exists []; set_solver|].
    destruct IH as (p & -> & Hp); [set_solver|].
    destruct (we_pair es Hwf k) as (a & b & i & o & _ & Ha & Hb); [apply Hk; set_solver|].
    pose proof (call_node _ _ _ _ _ Ha Hb) as Hca. exists (loc a :: p). split.
    - simpl. by rewrite (is_call_id _ _ _ _ _ Hca).
    - intros e [->|]%elem_of_cons; [|by apply Hp]. split; [|by eapply call_not_ret].
      destruct Ha as (? & ? & _). by eapply loc_elem. }
  exists p. split; [|done]. split_and!.
  - apply (NoDup_fmap_1 (idof h)). rewrite Hperm. apply NoDup_seqZ.
  - intros e. split; [apply Hp|]. intros [He Hn].
    assert (idof h e ∈ idof h <$> p) as (e' & E & He')%list_elem_of_fmap.
    { rewrite Hperm, elem_of_seqZ. pose proof (id_range _ _ _ _ Hw e He). lia. }
    destruct (Hp e' He'). by rewrite (call_loc_unique e e').
  - apply legal_takes; [by apply Hp|done].
  - intros x y e e' m' i k Hxy Ee Ee' Ce'.
    destruct (Hp e) as [He Hne]; [by eapply list_elem_of_lookup_2|].
    destruct (Hp e') as [He' Hne']; [by eapply list_elem_of_lookup_2|].
    destruct (wf_node _ _ _ _ Hw e He) as [(m&i2&k2&o2&Ce&_)|(o2&k2&_&_&Hr&_)];
      [|exfalso; apply Hne; unfold returns; eauto].
    destruct (call_entry e m i2 k2 He Ce) as (p2 & q2 & o3 & -> & -> & Hp2 & _ & Hlen).
    destruct (call_entry e' m' i k He' Ce') as (p3 & q3 & o4 & -> & -> & _ & Hq3 & Hlen').
    enough (p2 < q3)%nat by lia.
    apply (Ho x y k2 k p2 q3 i2 o4); [done| | |done|done]; rewrite list_lookup_fmap, ?Ee, ?Ee'; simpl;
      [by rewrite (is_call_id _ _ _ _ _ Ce)|by rewrite (is_call_id _ _ _ _ _ Ce')].
Qed.

End nodes.

(** [Equal] holds only of equal states. *)
Definition equal_sound : Prop :=
  ∃ f, Equal model = Some f ∧ ∀ s1 s2, f s1 s2 = true → s1 = s2.

(** The initial values of [checkSingle]'s variables. *)
Lemma check_init_spec es :
  wf_entries es →
  ∃ h, cores_ok h es ∧ heap_ok h (length es) h (locs es) ∧
    (∀ x nd, h !! x = Some nd → nd_match nd ≠ None → (x < length es)%nat) ∧
    check_init model es = Some (length es, ops_count es,
      mkSearch h (first (locs es) None) (BS.newBitset (ops_count es)) ∅ []
        (replicate (Z.to_nat (ops_count es)) None) (Init model) O).
Proof.
  intros Hwf. destruct (link_entries_spec es) as (h & mp & E & Hl & Hd & Hmp & Hc).
  destruct (insert_front h (locs es) (mkNode None None (-1) None None) Hd) as (h' & Ei & Hd' & Hc');
    [intros x Hx; rewrite Hl; by apply locs_lt|done|done|].
  exists h'. rewrite Hl in *. split_and!.
  - eapply cores_ok_same; [done|]. by apply cores_ok_app.
  - split; [done|]. by intros x.
  - intros x nd Hx Hm. pose proof (Hc' x) as Hcx. rewrite Hx in Hcx.
    destruct (decide (x < length es)%nat) as [|Hge]; [done|]. rewrite lookup_app_r in Hcx by lia.
    rewrite Hl in Hcx. destruct (x - length es)%nat as [|j]; simpl in Hcx; [|by destruct j].
    unfold core in Hcx. simpl in Hcx. congruence.
  - unfold check_init, makeLinkedEntries. rewrite E. cbn [mbind option_bind].
    unfold length_. rewrite (length_loop_spec h _ None (locs es))
      by (try apply Hd; rewrite locs_length, Hl; lia).
    cbn [mbind option_bind]. unfold new_node. rewrite Hl, Ei. cbn [mbind option_bind].
    assert (len (locs es) = len es) as -> by (unfold len; by rewrite locs_length).
    rewrite Z.add_0_l. fold (ops_count es).
    assert (u64 (ops_count es) = ops_count es) as ->; [|done].
    pose proof (we_width es Hwf). pose proof (we_count es Hwf). pose proof (len_nonneg es).
    apply Z.mod_small. lia.
Qed.

(** The verdict on well-formed entries: termination, and which it is. *)
Lemma checkSingle_verdict es cp :
  wf_entries es → equal_sound →
  ∃ k : nat, (∃ path a, linearization es path ∧ ∀ fuel, (k ≤ fuel)%nat →
          checkSingle model es cp (λ _, false) fuel
          = Returned true (replicate (Z.to_nat (ops_count es)) (Some (a, path)))) ∨
       ((¬ ∃ path, linearization es path) ∧ ∃ lg, ∀ fuel, (k ≤ fuel)%nat →
          checkSingle model es cp (λ _, false) fuel = Returned false lg).
Proof.
  intros Hwf Heq. destruct (check_init_spec es Hwf) as (h & Hc & Hh & _ & Ei).
  pose proof (entries_wf es Hwf h Hc) as Hw.
  pose proof (we_count es Hwf). pose proof (len_nonneg es).
  destruct (loop_verdict model h (locs es) (length es) (ops_count es) Hw Heq cp h
    (replicate (Z.to_nat (ops_count es)) None)) as (k & Hk); [done| |lia|].
  { unfold len. rewrite length_replicate. lia. }
  exists k. unfold checkSingle. rewrite Ei.
  pose proof (closed_all h (locs es) (length es) (ops_count es) Hw) as Hcl.
  destruct Hk as [(p & a & Hp & Hf)|(Hd & lg & Hf)]; [left|right].
  - exists (idof h <$> p), a. split; [|done]. apply orders_linearization; [done..|].
    by eapply lin_orders.
  - split; [|by exists lg]. intros [path Hpath]. apply Hd.
    destruct (linearization_orders es Hwf h Hc path Hpath) as (p & Hp & _).
    exists p. by eapply orders_lin.
Qed.

(** C8: [checkSingle] decides linearizability. On entries in which every
    operation is called once and returns once afterwards, and for a model whose
    [Equal] holds only of equal states, the search terminates without a panic; it
    returns [true] exactly when the operations have a linearization, and then
    every element of [longest] is one. *)
Theorem checkSingle_decides es cp :
  wf_entries es → equal_sound →
  ∃ (k : nat) ok longest, (∀ fuel, (k ≤ fuel)%nat →
      checkSingle model es cp (λ _, false) fuel = Returned ok longest) ∧
    (ok = true ↔ ∃ path, linearization es path) ∧
    (ok = true → len longest = ops_count es ∧
       ∀ x, x ∈ longest → ∃ a path, x = Some (a, path) ∧ linearization es path).
Proof.
  intros Hwf Heq. destruct (checkSingle_verdict es cp Hwf Heq) as (k & [(path & a & Hp & Hf)|(Hn & lg & Hf)]).
  - exists k, true, (replicate (Z.to_nat (ops_count es)) (Some (a, path))). split_and!; [done|naive_solver|].
    intros _. pose proof (we_count es Hwf). pose proof (len_nonneg es). split.
    + unfold len. rewrite length_replicate. lia.
    + intros x [-> _]%elem_of_replicate. eauto.
  - exists k, false, lg. split_and!; [done|naive_solver|done].
Qed.

End entries.
(** ** Operations *)

Section operations.
Context {State Input Output : Type} (model : Model State Input Output).
Context {so : Sorter Input Output}.
Implicit Types (history : list (Operation Input Output)).

(** The model takes the operations of [path] one after the other. *)
Fixpoint ops_legal history (s : State) (path : list nat) : Prop :=
  match path with
  | [] => True
  | k :: path => ∃ op s', history !! k = Some op ∧
      Step model s (op_Input op) (op_Output op) = (true, s') ∧ ops_legal history s' path
  end.

(** Linearizability: the operations can be ordered so that the model takes them
    with their outputs, and an operation that returned before another was called
    comes first. *)
Definition linearizable history : Prop :=
  ∃ path, path ≡ₚ seq 0 (length history) ∧ ops_legal history (Init model) path ∧
    ∀ x y a b oa ob, (x < y)%nat → path !! x = Some a → path !! y = Some b →
      history !! a = Some oa → history !! b = Some ob → ¬ op_Return ob < op_Call oa.

Definition call_entry_of (k : nat) (op : Operation Input Output) : entry Input Output :=
  mkEntry callEntry (inl (op_Input op)) (Z.of_nat k) (op_Call op) (op_ClientId op).

Definition ret_entry_of (k : nat) (op : Operation Input Output) : entry Input Output :=
  mkEntry returnEntry (inr (op_Output op)) (Z.of_nat k) (op_Return op) (op_ClientId op).

Lemma unsorted_elem history e :
  e ∈ unsortedEntries history ↔
  ∃ k op, history !! k = Some op ∧ (e = call_entry_of k op ∨ e = ret_entry_of k op).
Proof.
  unfold unsortedEntries. rewrite list_elem_of_join. split.
  - intros (l & He & (k & op & -> & Hop)%elem_of_lookup_imap). exists k, op.
    unfold op_entries in He. rewrite !elem_of_cons, elem_of_nil in He.
    unfold call_entry_of, ret_entry_of. naive_solver.
  - intros (k & op & Hop & He). exists (op_entries k op). split.
    + unfold op_entries, call_entry_of, ret_entry_of in *. set_solver.
    + apply elem_of_lookup_imap. eauto.
Qed.

Lemma unsorted_length history : length (unsortedEntries history) = (2 * length history)%nat.
Proof.
  unfold unsortedEntries.
  assert (∀ f : nat → Operation Input Output → list (entry Input Output),
    (∀ k op, length (f k op) = 2%nat) → length (mjoin (imap f history)) = (2 * length history)%nat) as Hf.
  { induction history as [|op history IH]; intros f Hf; [done|].
    rewrite imap_cons. simpl. rewrite length_app, Hf, IH by (intros; apply Hf). lia. }
  by apply Hf.
Qed.

Lemma entries_elem history e :
  e ∈ makeEntries history ↔
  ∃ k op, history !! k = Some op ∧ (e = call_entry_of k op ∨ e = ret_entry_of k op).
Proof. unfold makeEntries. rewrite sort_Sort_perm. apply unsorted_elem. Qed.

Lemma entries_length history : len (makeEntries history) = 2 * len history.
Proof. unfold makeEntries, len. rewrite sort_Sort_perm, unsorted_length. lia. Qed.

Lemma entries_count history : ops_count (makeEntries history) = len history.
Proof. unfold ops_count. rewrite entries_length, Z.mul_comm. by apply Z.quot_mul. Qed.

(** Kind and id determine the position. *)
Lemma entries_NoDup history :
  NoDup ((λ e, (en_kind e, en_id e)) <$> makeEntries history).
Proof.
  unfold makeEntries. rewrite sort_Sort_perm. unfold unsortedEntries.
  assert (∀ d, NoDup ((λ e : entry Input Output, (en_kind e, en_id e)) <$>
                 mjoin (imap (λ k, op_entries (d + k)) history)) ∧
               ∀ x, x ∈ (λ e : entry Input Output, (en_kind e, en_id e)) <$>
                 mjoin (imap (λ k, op_entries (d + k)) history) → Z.of_nat d ≤ x.2) as H.
  { induction history as [|op history IH]; intros d; [split; [constructor|set_solver]|].
    destruct (IH (S d)) as [Hnd Hx]. rewrite imap_cons. simpl. rewrite Nat.add_0_r.
    rewrite (imap_ext ((λ k, op_entries (d + k)) ∘ S) (λ k, op_entries (S d + k)))
      by (intros; simpl; f_equal; lia).
    split.
    - repeat (apply list.NoDup_cons; split); [| |done].
      + rewrite elem_of_cons. intros [?|Hin%Hx]; [done|]. simpl in Hin. lia.
      + intros Hin%Hx. simpl in Hin. lia.
    - intros x. rewrite !elem_of_cons. intros [->|[->|Hin%Hx]]; simpl; lia. }
  destruct (H O) as [Hnd _]. done.
Qed.

Lemma entries_unique history p q e f :
  makeEntries history !! p = Some e → makeEntries history !! q = Some f →
  en_kind e = en_kind f → en_id e = en_id f → p = q.
Proof.
  intros Hp Hq Hk Hi. eapply (NoDup_lookup _ _ _ _ (entries_NoDup history));
    rewrite list_lookup_fmap, ?Hp, ?Hq; simpl; [done|]. by rewrite Hk, Hi.
Qed.

Lemma op_calls_at history k op :
  history !! k = Some op → ∃ p, makeEntries history !! p = Some (call_entry_of k op).
Proof. intros E. apply list_elem_of_lookup_1, entries_elem. eauto. Qed.

Lemma op_returns_at history k op :
  history !! k = Some op → ∃ p, makeEntries history !! p = Some (ret_entry_of k op).
Proof. intros E. apply list_elem_of_lookup_1, entries_elem. eauto. Qed.

(** The sorted entries tell which operation returned before another was called. *)
Lemma entries_order history p q a b oa ob :
  makeEntries history !! p = Some (call_entry_of a oa) →
  makeEntries history !! q = Some (ret_entry_of b ob) →
  (p < q)%nat ↔ ¬ op_Return ob < op_Call oa.
Proof.
  intros Hp Hq. assert (p ≠ q) by (intros ->; unfold call_entry_of, ret_entry_of in *; congruence). split.
  - intros Hlt Hr. pose proof (sort_Sort_sorted _ _ _ _ _ Hlt Hp Hq) as Hs.
    unfold Less, call_entry_of, ret_entry_of in Hs. simpl in Hs.
    rewrite decide_True in Hs by lia. apply bool_decide_eq_false in Hs. lia.
  - intros Hr. destruct (decide (p < q)%nat) as [|Hge]; [done|exfalso].
    pose proof (sort_Sort_sorted _ _ _ _ _ (ltac:(lia) : (q < p)%nat) Hq Hp) as Hs.
    unfold Less, call_entry_of, ret_entry_of in Hs. simpl in Hs.
    case_decide; simplify_eq/=. apply bool_decide_eq_false in Hs. lia.
Qed.

Lemma calls_at_op history p k i :
  calls_at (makeEntries history) p k i →
  ∃ a op, k = Z.of_nat a ∧ history !! a = Some op ∧ i = op_Input op ∧
    makeEntries history !! p = Some (call_entry_of a op).
Proof.
  intros (e & Ee & Hk & Hid & Hv). pose proof (list_elem_of_lookup_2 _ _ _ Ee) as He.
  apply entries_elem in He as (a & op & Ha & [->| ->]); [|done]. simpl in *. naive_solver.
Qed.

Lemma returns_at_op history p k o :
  returns_at (makeEntries history) p k o →
  ∃ a op, k = Z.of_nat a ∧ history !! a = Some op ∧ o = op_Output op ∧
    makeEntries history !! p = Some (ret_entry_of a op).
Proof.
  intros (e & Ee & Hk & Hid & Hv). pose proof (list_elem_of_lookup_2 _ _ _ Ee) as He.
  apply entries_elem in He as (a & op & Ha & [->| ->]); [done|]. simpl in *. naive_solver.
Qed.

(** Operations that return no earlier than they are called. *)
Definition timed history : Prop := ∀ op, op ∈ history → op_Call op ≤ op_Return op.

Lemma makeEntries_wf history :
  timed history → len history < 2 ^ 62 → wf_entries (makeEntries history).
Proof.
  intros Ht Hw. split.
  - by rewrite entries_count, entries_length.
  - rewrite entries_length. lia.
  - intros p e He. pose proof (list_elem_of_lookup_2 _ _ _ He) as Hin.
    apply entries_elem in Hin as (k & op & Hk & Hor). apply lookup_lt_Some in Hk.
    rewrite entries_count. unfold len. destruct Hor as [->| ->]; simpl; lia.
  - apply entries_unique.
  - intros k Hk. rewrite entries_count in Hk. unfold len in Hk.
    destruct (lookup_lt_is_Some_2 history (Z.to_nat k) ltac:(lia)) as [op Hop].
    destruct (op_calls_at _ _ _ Hop) as [p Hp]. destruct (op_returns_at _ _ _ Hop) as [q Hq].
    exists p, q, (op_Input op), (op_Output op). split_and!.
    + rewrite (entries_order _ _ _ _ _ _ _ Hp Hq).
      pose proof (Ht op (list_elem_of_lookup_2 _ _ _ Hop)). lia.
    + eexists. split; [done|]. simpl. split_and!; [done|lia|done].
    + eexists. split; [done|]. simpl. split_and!; [done|lia|done].
Qed.

Lemma legal_ops history s path :
  legal model (makeEntries history) s (Z.of_nat <$> path) ↔ ops_legal history s path.
Proof.
  revert s. induction path as [|k path IH]; intros s; simpl; [done|]. split.
  - intros (p & q & i & o & s' & Hp & Hq & Hst & Hl).
    apply calls_at_op in Hp as (a & op & Ea%Nat2Z.inj & Hop & -> & _).
    apply returns_at_op in Hq as (b & op' & Eb%Nat2Z.inj & Hop' & -> & _). subst.
    simplify_eq. exists op, s'. by rewrite <-IH.
  - intros (op & s' & Hop & Hst & Hl).
    destruct (op_calls_at _ _ _ Hop) as [p Hp]. destruct (op_returns_at _ _ _ Hop) as [q Hq].
    exists p, q, (op_Input op), (op_Output op), s'. rewrite IH.
    split_and!; [by eexists|by eexists|done|done].
Qed.

(** Linearizations of the entries are linearizations of the operations. *)
Lemma linearization_linearizable history :
  (∃ path, linearization model (makeEntries history) path) ↔ linearizable history.
Proof.
  split.
  - intros (path & Hperm & Hl & Ho).
    assert (path = Z.of_nat <$> (Z.to_nat <$> path)) as Ep.
    { rewrite <-list_fmap_compose. symmetry. apply fmap_id_elem. intros k Hk.
      rewrite Hperm, elem_of_seqZ in Hk. simpl. lia. }
    exists (Z.to_nat <$> path). split_and!.
    + rewrite Hperm, entries_count. unfold seqZ, len. rewrite Nat2Z.id, <-list_fmap_compose.
      apply Permutation_refl'. apply fmap_id_elem. intros k _. simpl. lia.
    + apply legal_ops. by rewrite <-Ep.
    + intros x y a b oa ob Hxy Hx Hy Ha Hb.
      destruct (op_calls_at _ _ _ Ha) as [p Hp]. destruct (op_returns_at _ _ _ Hb) as [q Hq].
      rewrite <-(entries_order history p q a b oa ob) by done. rewrite Ep in Ho.
      apply (Ho x y (Z.of_nat a) (Z.of_nat b) p q (op_Input oa) (op_Output ob)); [done| | |by eexists|by eexists];
        rewrite list_lookup_fmap, ?Hx, ?Hy; done.
  - intros (path & Hperm & Hl & Ho). exists (Z.of_nat <$> path). split_and!.
    + rewrite Hperm, entries_count. unfold seqZ, len. rewrite Nat2Z.id.
      apply Permutation_refl', list_fmap_ext. intros; simpl; lia.
    + by apply legal_ops.
    + intros x y a b p q i o Hxy Hx Hy Hp Hq. rewrite list_lookup_fmap in Hx, Hy.
      apply fmap_Some in Hx as (a' & Hx & ->), Hy as (b' & Hy & ->).
      apply calls_at_op in Hp as (a2 & oa & Ea%Nat2Z.inj & Hoa & -> & Hp).
      apply returns_at_op in Hq as (b2 & ob & Eb%Nat2Z.inj & Hob & -> & Hq). subst.
      rewrite (entries_order history p q a2 b2 oa ob) by done. by eapply Ho.
Qed.

End operations.
End PF.
