(* ===== verification/PorcupineCheck.v ===== *)
(** The checks of [porcupine.go] as a whole: partitions searched in parallel,
    their results combined in the order in which they arrive, and concrete
    histories of the key/value model. *)

From stdpp Require Import strings.
From S2P Require Import Prelude Bitset Porcupine PorcupineList PorcupineSearch PorcupineFacts.

#[local] Open Scope Z_scope.

Module PK.
Import PC PF.

Section collect.

(** All results arrive: the conjunction, whatever the order. *)
Lemma collect_all ci total (rs : list bool) ok count :
  rs ≠ [] → count + len rs = total → (ok = true ∨ ci = true) →
  ∃ ok' c, collect ci total (Result <$> rs) ok count = Some (ok', false, c) ∧
    (ok' = true ↔ ok = true ∧ ∀ r, r ∈ rs → r = true).
Proof.
  revert ok count. induction rs as [|r rs IH]; intros ok count Hne Hc Hok; [done|].
  unfold len in *. cbn [fmap list_fmap collect]. simpl in Hc.
  destruct (decide (negb (ok && r) && negb ci = true)) as [E|E].
  { rewrite E. exists (ok && r), (count + 1). split; [done|].
    apply andb_true_iff in E as [E _]. split; [by destruct (ok && r)|]. intros [-> Hr].
    rewrite (Hr r) by apply list_elem_of_here. done. }
  apply not_true_is_false in E. rewrite E. case_decide as Hd.
  - assert (rs = []) as -> by (destruct rs; [done|simpl in *; lia]).
    exists (ok && r), (count + 1). split; [done|]. rewrite andb_true_iff. set_solver.
  - destruct (IH (ok && r) (count + 1)) as (ok' & c & -> & Hiff).
    + intros ->. simpl in *. lia.
    + lia.
    + destruct (ok && r), ci; naive_solver.
    + exists ok', c. split; [done|]. rewrite Hiff, andb_true_iff. set_solver.
Qed.
End collect.

Section checks.
Context {State Input Output : Type} `{EqDecision State} (model : Model State Input Output).
Context {so : Sorter Input Output}.
Implicit Types (history : list (Operation Input Output)) (order : list (option nat)).

(** The partitions [checkOperations] searches. *)
Definition parts history : list (list (Operation Input Output)) :=
  default NoPartition (Partition model) history.

(** [Equal], if the model has one, holds only of equal states. *)
Definition model_ok : Prop :=
  ∀ f, Equal model = Some f → ∀ s1 s2, f s1 s2 = true → s1 = s2.

Lemma fillDefault_equal : model_ok → equal_sound (fillDefault model).
Proof.
  intros Hm. unfold equal_sound, fillDefault. simpl. eexists. split; [done|].
  destruct (Equal model) as [f|] eqn:E; simpl; [by apply Hm|].
  intros s1 s2. unfold ShallowEqual. apply bool_decide_eq_true.
Qed.

Lemma fillDefault_linearizable history :
  linearizable (fillDefault model) history ↔ linearizable model history.
Proof.
  unfold linearizable.
  assert (∀ path s, ops_legal (fillDefault model) history s path ↔ ops_legal model history s path) as Hl.
  { induction path as [|k path IH]; intros s; simpl; [done|]. setoid_rewrite IH. done. }
  setoid_rewrite Hl. done.
Qed.

(** One partition, run to its end. *)
Lemma goroutine_spec sub ci i :
  model_ok → timed sub → len sub < 2 ^ 62 →
  ∃ k : nat, ∀ fuel, (k ≤ fuel)%nat →
    ∃ ok lg, goroutine (fillDefault model) ci (λ _ _, false) fuel i (makeEntries sub) = Some (ok, lg) ∧
      (ok = true ↔ linearizable model sub).
Proof.
  intros Hm Ht Hw.
  destruct (checkSingle_verdict (fillDefault model) (makeEntries sub) ci) as (k & Hk);
    [by apply makeEntries_wf|by apply fillDefault_equal|].
  exists k. intros fuel Hf. unfold goroutine.
  pose proof (fillDefault_linearizable sub) as Hd.
  pose proof (linearization_linearizable (fillDefault model) sub) as Hl.
  destruct Hk as [(path & a & Hp & Hr)|(Hn & lg & Hr)]; rewrite Hr by done.
  - do 2 eexists. split; [done|]. split; [|done]. intros _. apply Hd, Hl. by exists path.
  - do 2 eexists. split; [done|]. split; [done|]. intros Hp. destruct Hn. by apply Hl, Hd.
Qed.

(** The results the goroutines of the given partitions deliver. *)
Lemma receive_all history fuel order :
  (∀ i sub, parts history !! i = Some sub → ∃ ok lg,
     goroutine (fillDefault model) false (λ _ _, false) fuel i (makeEntries sub) = Some (ok, lg) ∧
     (ok = true ↔ linearizable model sub)) →
  (∀ c, c ∈ order → ∃ i sub, c = Some i ∧ parts history !! i = Some sub) →
  ∃ rs, mapM (receive (fillDefault model) (map makeEntries (parts history)) false
                (λ _ _, false) fuel) order = Some (Result <$> rs) ∧ len rs = len order ∧
    ((∀ r, r ∈ rs → r = true) ↔
     ∀ i sub, Some i ∈ order → parts history !! i = Some sub → linearizable model sub).
Proof.
  intros Hg. induction order as [|c order IH]; intros Hc; [exists []; set_solver|].
  destruct IH as (rs & E & Hl & Hrs); [set_solver|].
  destruct (Hc c) as (i & sub & -> & Ei); [set_solver|].
  destruct (Hg i sub Ei) as (ok & lg & Eg & Hok). exists (ok :: rs). split_and!.
  - cbn [mapM]. rewrite E. unfold receive at 1. change (@map ?A ?B ?f ?l) with (f <$> l).
    rewrite list_lookup_fmap, Ei. cbn [fmap option_fmap option_map mbind option_bind].
    rewrite Eg. done.
  - unfold len in *. simpl. lia.
  - split.
    + intros Hall j sub' [[= <-]|Hj]%elem_of_cons Ej.
      * simplify_eq. apply Hok, Hall. set_solver.
      * apply (proj1 Hrs) with j; [set_solver|done|done].
    + intros Hall r [->|Hr]%elem_of_cons; [apply Hok, (Hall i); [set_solver|done]|].
      apply (proj2 Hrs); [|done]. intros j sub' Hj. apply Hall. set_solver.
Qed.

(** C13: [CheckOperations] decides linearizability partition by partition. For
    operations that return no earlier than they are called, and a model whose
    [Equal] holds only of equal states, there is a number of iterations after
    which every search has ended; then, in whatever order the goroutines deliver
    their results and whatever order [sort.Sort] gives to simultaneous entries,
    the check returns, and returns [true] exactly when every partition is
    linearizable. *)
Theorem CheckOperations_spec history :
  model_ok → parts history ≠ [] →
  (∀ sub, sub ∈ parts history → timed sub ∧ len sub < 2 ^ 62) →
  ∃ k : nat, ∀ fuel order, (k ≤ fuel)%nat →
    order ≡ₚ Some <$> seq 0 (length (parts history)) →
    ∃ r, CheckOperations model history (λ _ _, false) fuel order = Some r ∧
      (r = true ↔ ∀ sub, sub ∈ parts history → linearizable model sub).
Proof.
  intros Hm Hne Hsub.
  destruct (bound_all (λ i fuel, ∀ sub, parts history !! i = Some sub →
      ∃ ok lg, goroutine (fillDefault model) false (λ _ _, false) fuel i (makeEntries sub) = Some (ok, lg) ∧
        (ok = true ↔ linearizable model sub)) (seq 0 (length (parts history)))) as (k & Hk).
  { intros i _. destruct (parts history !! i) as [sub|] eqn:E; [|exists O; intros; congruence].
    destruct (Hsub sub) as [Ht Hw]; [by eapply list_elem_of_lookup_2|].
    destruct (goroutine_spec sub false i Hm Ht Hw) as (k & Hk). exists k. naive_solver. }
  exists k. intros fuel order Hf Hord.
  destruct (receive_all history fuel order) as (rs & Ers & Hlen & Hrs).
  { intros i sub Ei. apply Hk; [|done|done]. apply elem_of_seq. apply lookup_lt_Some in Ei. lia. }
  { intros c. rewrite Hord. intros (i & -> & Hi%elem_of_seq)%list_elem_of_fmap.
    destruct (lookup_lt_is_Some_2 (parts history) i ltac:(lia)) as [sub ?]. eauto. }
  assert (length order = length (parts history)) as Hlo by (by rewrite Hord, length_fmap, length_seq).
  destruct (collect_all false (len (map makeEntries (parts history))) rs true 0) as (ok & c & Ec & Hok).
  { intros ->. unfold len in Hlen. simpl in Hlen. destruct (parts history); [done|]. simpl in *. lia. }
  { unfold len in *. rewrite length_map. lia. }
  { by left. }
  exists ok. unfold CheckOperations, checkOperations. cbn [fillDefault Partition]. fold (parts history).
  unfold checkParallel. rewrite Ers. cbn [mbind option_bind]. rewrite Ec. cbn [mbind option_bind].
  split; [by destruct ok|]. rewrite Hok, Hrs. split.
  - intros [_ Hall] sub [i Hi]%list_elem_of_lookup_1. apply (Hall i); [|done].
    rewrite Hord. apply list_elem_of_fmap. exists i. split; [done|].
    apply elem_of_seq. apply lookup_lt_Some in Hi. lia.
  - intros Hall. split; [done|]. intros i sub _ Hi. apply Hall. by eapply list_elem_of_lookup_2.
Qed.

End checks.

(** ** A sort *)

Section sort.
Context {Input Output : Type}.
Implicit Types (a b c x y : entry Input Output) (l : list (entry Input Output)).

Definition not_after a b : Prop := Less b a = false.

Lemma not_after_spec a b :
  not_after a b ↔ en_time a < en_time b ∨
    (en_time a = en_time b ∧ (en_kind a = callEntry ∨ en_kind b = returnEntry)).
Proof.
  unfold not_after, Less. case_decide as Hd.
  - rewrite bool_decide_eq_false. lia.
  - assert (en_time b = en_time a) by (destruct (decide (en_time b = en_time a)); tauto).
    rewrite andb_false_iff, !bool_decide_eq_false.
    destruct (en_kind a), (en_kind b); naive_solver lia.
Qed.

Lemma not_after_trans a b c : not_after a b → not_after b c → not_after a c.
Proof.
  rewrite !not_after_spec. destruct (en_kind a), (en_kind b), (en_kind c); naive_solver lia.
Qed.

Lemma insert_by_perm x l : insert_by x l ≡ₚ x :: l.
Proof.
  induction l as [|y l IH]; simpl; [done|]. destruct (Less y x); [|done]. rewrite IH. apply perm_swap.
Qed.

Lemma insert_by_sorted x l : StronglySorted not_after l → StronglySorted not_after (insert_by x l).
Proof.
  induction 1 as [|y l Hs IH Hy]; simpl; [constructor; constructor|].
  destruct (Less y x) eqn:E.
  - constructor; [done|]. rewrite insert_by_perm. constructor; [|done].
    apply not_after_spec. unfold Less in E. case_decide; [apply bool_decide_eq_true in E; lia|].
    apply andb_true_iff in E as [Ey%bool_decide_eq_true _].
    right. destruct (decide (en_time y = en_time x)); tauto.
  - constructor; [by constructor|]. constructor; [done|].
    rewrite Forall_lookup in *. intros i z Hz. eapply not_after_trans; [exact E|eauto].
Qed.

Lemma insertion_sort_sorted l : StronglySorted not_after (insertion_sort l).
Proof. induction l; simpl; [constructor|by apply insert_by_sorted]. Qed.

Lemma insertion_sort_perm l : insertion_sort l ≡ₚ l.
Proof. induction l; simpl; [done|]. rewrite insert_by_perm. by constructor. Qed.

(** [sort.Sort] may be an insertion sort, as it is for short slices. *)
Definition insertion_sorter : Sorter Input Output.
Proof.
  refine {| sort_Sort := insertion_sort |}; [apply insertion_sort_perm|].
  intros l i j a b Hij Ha Hb. pose proof (insertion_sort_sorted l) as Hs.
  rewrite StronglySorted_lookup_iff in Hs. by apply (Hs i j).
Defined.
End sort.

(** ** Histories of one key *)

Module Example.
Import Kv.

Definition so : Sorter KvInput KvOutput := insertion_sorter.

Definition put (v : string) (call ret : Z) : operation :=
  mkOperation 0 (mkInput 1 "x" v) call (mkOutput "") ret.

Definition get (v : string) (call ret : Z) : operation :=
  mkOperation 1 (mkInput 0 "x" "") call (mkOutput v) ret.

(** Two overlapping writes, and a read of the one that was called first. *)
Definition good : list operation := [put "a" 0 10; put "b" 5 8; get "a" 12 15].

(** A read of a value that was overwritten before the read was called. *)
Definition stale : list operation := [put "a" 0 3; put "b" 5 8; get "a" 12 15].

Definition never : nat → nat → bool := λ _ _, false.

Lemma good_accepted : @CheckOperations _ _ _ _ so KvModel good never 20 [Some 0%nat] = Some true.
Proof. vm_compute. reflexivity. Qed.

Lemma stale_rejected : @CheckOperations _ _ _ _ so KvModel stale never 20 [Some 0%nat] = Some false.
Proof. vm_compute. reflexivity. Qed.

Lemma kv_ok : model_ok KvModel.
Proof. intros f. done. Qed.

Lemma good_timed : timed good.
Proof. intros op. unfold good. rewrite !elem_of_cons, elem_of_nil. intros [->|[->|[->|[]]]]; simpl; lia. Qed.

Lemma decides_witness :
  ∃ (k : nat) ok longest, (∀ fuel, (k ≤ fuel)%nat →
      checkSingle (fillDefault KvModel) (@makeEntries _ _ so good) true (λ _, false) fuel
      = Returned ok longest) ∧
    (ok = true ↔ ∃ path, linearization (fillDefault KvModel) (@makeEntries _ _ so good) path) ∧
    (ok = true → len longest = ops_count (@makeEntries _ _ so good) ∧
       ∀ x, x ∈ longest → ∃ a path, x = Some (a, path) ∧
         linearization (fillDefault KvModel) (@makeEntries _ _ so good) path).
Proof.
  apply checkSingle_decides; [|apply fillDefault_equal, kv_ok].
  apply (@makeEntries_wf _ _ so); [apply good_timed|vm_compute; reflexivity].
Defined.

Lemma CheckOperations_witness :
  ∃ k : nat, ∀ fuel order, (k ≤ fuel)%nat →
    order ≡ₚ Some <$> seq 0 (length (parts KvModel good)) →
    ∃ r, @CheckOperations _ _ _ _ so KvModel good (λ _ _, false) fuel order = Some r ∧
      (r = true ↔ ∀ sub, sub ∈ parts KvModel good → linearizable KvModel sub).
Proof.
  apply CheckOperations_spec; [apply kv_ok|done|]. intros sub.
  change (parts KvModel good) with [good]. intros ->%list_elem_of_singleton.
  split; [apply good_timed|vm_compute; reflexivity].
Defined.

(** [CheckOperations] of the key/value model never returns on the empty
    history: it has no partitions, so no goroutine sends a result, and without
    a timeout the loop of [checkParallel] waits for one forever. *)
Theorem CheckOperations_empty_blocks kill fuel (order : list nat) :
  @CheckOperations _ _ _ _ so KvModel [] kill fuel (Some <$> order) = None.
Proof. by destruct order. Qed.

End Example.
End PK.
