(* ===== verification/PorcupineVisual.v ===== *)
(** The data of the visualization: [computeVisualizationData] of
    [src/src/porcupine/visualization.go].

    It replays the partial linearizations the checker recorded and panics when the
    model does not take one of their steps.  The first part shows that whatever
    [checkSingle] returns, also after it was killed, the sequences in [longest] are
    legal and respect the order of time; the second that the replay therefore succeeds, and what it computes. *)

From stdpp Require Import strings.
From S2P Require Import Prelude Bitset Porcupine PorcupineList PorcupineSearch PorcupineFacts PorcupineCheck.

#[local] Open Scope Z_scope.

Module PV.
Import PC PL PS PF.

(** ** The code *)

Section visual.
Context {State Input Output : Type} (model : Model State Input Output).

(** The two fields of [Model] that describe operations and states. *)
Record Describer := mkDescriber {
  DescribeOperation : option (Input → Output → string);
  DescribeState : option (State → string)
}.

(** [fmt.Sprintf] with "%v -> %v" and "%v". *)
Class Sprint := {
  DefaultDescribeOperation : Input → Output → string;
  DefaultDescribeState : State → string
}.

Context {sp : Sprint} (d : Describer).

(** The descriptions after [fillDefault]. *)
Definition describe_op : Input → Output → string :=
  default DefaultDescribeOperation (DescribeOperation d).
Definition describe_state : State → string :=
  default DefaultDescribeState (DescribeState d).

Record historyElement := mkHE {
  ClientId : Z;
  Start : Z;
  End_ : Z;
  Description : string
}.

Record linearizationStep := mkLS {
  Index : Z;
  StateDescription : string
}.

Record partitionVisualizationData := mkPVD {
  History : list historyElement;
  PartialLinearizations : list (list linearizationStep);
  Largest : gmap Z Z
}.

(** [sort.Slice] by decreasing length: some permutation without inversions. *)
Class SliceSorter := {
  sort_Slice : list (list Z) → list (list Z);
  sort_Slice_perm : ∀ l, sort_Slice l ≡ₚ l;
  sort_Slice_sorted : ∀ l i j a b, (i < j)%nat →
    sort_Slice l !! i = Some a → sort_Slice l !! j = Some b → (length b ≤ length a)%nat
}.
Context {ss : SliceSorter}.

(** A loop whose body can panic. *)
Fixpoint foldM {A B : Type} (f : B → A → option B) (b : B) (l : list A) : option B :=
  match l with
  | [] => Some b
  | x :: l => b ← f b x; foldM f b l
  end.

(** The type assertions of the model's functions; a missing key is [nil]. *)
Definition typed (a b : option (Input + Output)) : option (Input * Output) :=
  match a, b with
  | Some (inl input), Some (inr output) => Some (input, output)
  | _, _ => None
  end.

Abbreviation values := (gmap Z (Input + Output)).

(** The loop over the entries: [history], [callValue], [returnValue]. *)
Definition history_step (acc : list historyElement * values * values) (elem : entry Input Output)
  : option (list historyElement * values * values) :=
  let '(history, callValue, returnValue) := acc in
  let id := en_id elem in
  he ← slice_get history id;
  match en_kind elem with
  | callEntry =>
      history ← slice_set history id (mkHE (en_clientId elem) (en_time elem) (End_ he) (Description he));
      Some (history, <[id := en_value elem]> callValue, returnValue)
  | returnEntry =>
      '(input, output) ← typed (callValue !! id) (Some (en_value elem));
      history ← slice_set history id (mkHE (ClientId he) (Start he) (en_time elem) (describe_op input output));
      Some (history, callValue, <[id := en_value elem]> returnValue)
  end.

(** The inner loop: [state], [linearization], [largestSize], [largestIndex]. *)
Definition replay_step (callValue returnValue : values) (i size : Z)
    (acc : State * list linearizationStep * gmap Z Z * gmap Z Z) (histId : Z)
  : option (State * list linearizationStep * gmap Z Z * gmap Z Z) :=
  let '(state, linearization, largestSize, largestIndex) := acc in
  '(input, output) ← typed (callValue !! histId) (returnValue !! histId);
  let '(ok, state) := Step model state input output in
  if negb ok then None
  else
    let linearization := linearization ++ [mkLS histId (describe_state state)] in
    if default 0 (largestSize !! histId) <? size
    then Some (state, linearization, <[histId := size]> largestSize, <[histId := i]> largestIndex)
    else Some (state, linearization, largestSize, largestIndex).

Definition partial_step (callValue returnValue : values)
    (acc : list (list linearizationStep) * gmap Z Z * gmap Z Z) (x : nat * list Z)
  : option (list (list linearizationStep) * gmap Z Z * gmap Z Z) :=
  let '(linearizations, largestSize, largestIndex) := acc in
  let '(i, partial) := x in
  '(_, linearization, largestSize, largestIndex) ←
    foldM (replay_step callValue returnValue (Z.of_nat i) (len partial))
      (Init model, [], largestSize, largestIndex) partial;
  Some (linearizations ++ [linearization], largestSize, largestIndex).

(** The body of the loop over the partitions. *)
Definition partition_data (entries : list (entry Input Output)) (partials : list (list Z))
  : option partitionVisualizationData :=
  let n := Z.quot (len entries) 2 in
  '(history, callValue, returnValue) ←
    foldM history_step (replicate (Z.to_nat n) (mkHE 0 0 0 ""), ∅, ∅) entries;
  '(linearizations, _, largestIndex) ←
    foldM (partial_step callValue returnValue) ([], ∅, ∅) (imap pair (sort_Slice partials));
  Some (mkPVD history linearizations largestIndex).

Definition computeVisualizationData (history : list (list (entry Input Output)))
    (partialLinearizations : list (list (list Z))) : option (list partitionVisualizationData) :=
  mapM (λ '(i, entries), partials ← partialLinearizations !! i; partition_data entries partials)
    (imap pair history).
End visual.

Arguments Describer : clear implicits.
Arguments Sprint : clear implicits.

(** [DescribeOperation] of [models/kv.go]. *)
Definition kv_DescribeOperation (inp : Kv.KvInput) (out : Kv.KvOutput) : string :=
  if decide (Kv.Op inp = 0) then "get('" +:+ Kv.Key inp +:+ "') -> '" +:+ Kv.out_Value out +:+ "'"
  else if decide (Kv.Op inp = 1) then "put('" +:+ Kv.Key inp +:+ "', '" +:+ Kv.Value inp +:+ "')"
  else if decide (Kv.Op inp = 2) then "append('" +:+ Kv.Key inp +:+ "', '" +:+ Kv.Value inp +:+ "')"
  else "<invalid>".

Definition KvDescriber : Describer string Kv.KvInput Kv.KvOutput := mkDescriber (Some kv_DescribeOperation) None.

(** ** What the search records *)

Section partials.
Context {State Input Output : Type} (model : Model State Input Output).
Context (es : list (entry Input Output)) (Hwf : wf_entries es).
Context (h0 : list (node Input Output)) (Hc : cores_ok h0 es).
Context (Hlt : ∀ x nd, h0 !! x = Some nd → nd_match nd ≠ None → (x < length es)%nat).

Abbreviation heap_has := (heap_ok h0 (length es)).
Abbreviation path_of calls := (idof h0 ∘ ca_entry <$> calls).
Abbreviation Hw := (entries_wf es Hwf h0 Hc).

(** The stack of calls has taken the model from its initial state to [s] and the list
    of entries to [R]; each call was taken when no return was in front of it, and
    [unlift] undoes the last one. *)
Inductive chain : list (callsEntry State) → State → list (node Input Output) → list nat → Prop :=
  | chain_nil h : heap_has h (locs es) → chain [] (Init model) h (locs es)
  | chain_snoc calls s h pre x B m C i k o s' h' :
      chain calls s h (pre ++ x :: B ++ m :: C) → Forall (λ y, ¬ returns h0 y) pre →
      is_call h0 x m i k → is_ret h0 m o k → Step model s i o = (true, s') →
      unlift h' x = Some h → heap_has h' (pre ++ B ++ C) →
      chain (calls ++ [mkCall x s]) s' h' (pre ++ B ++ C).

Lemma chain_heap calls s h R : chain calls s h R → heap_has h R.
Proof. by destruct 1. Qed.

Lemma chain_same calls s h R : chain calls s h R → same_core h h0.
Proof. by intros [_ ?]%chain_heap. Qed.

(** [R] are the entries of the operations that are not on the stack, in order. *)
Lemma chain_rest calls s h R :
  chain calls s h R →
  (∀ x, x ∈ R ↔ x ∈ locs es ∧ idof h0 x ∉ path_of calls) ∧ StronglySorted (λ x y, (y < x)%nat) R.
Proof.
  induction 1 as [h|calls s h pre x B m C i k o s' h' H [IH IHs] _ Hca Hre _ _ _].
  { split; [|apply locs_sorted]. intros x. split; [|by intros [? _]]. intros ?. split; [done|]. by intros ?%not_elem_of_nil. }
  destruct (proj1 (IH x)) as [Hx Hk]; [set_solver|]. destruct (proj1 (IH m)) as [Hm _]; [set_solver|].
  pose proof (chain_heap _ _ _ _ H) as [[Hnd _] _]. apply list.NoDup_cons in Hnd as [_ Hnd].
  assert (Hin : ∀ y, y ∈ pre ++ B ++ C ↔ y ∈ pre ++ x :: B ++ m :: C ∧ y ≠ x ∧ y ≠ m).
  { intros y. rewrite !elem_of_app, !elem_of_cons, !elem_of_app, !elem_of_cons. split; [|naive_solver].
    apply list.NoDup_app in Hnd as (_ & Hd & Hnd). apply list.NoDup_cons in Hnd as [Hxn Hnd].
    apply list.NoDup_app in Hnd as (_ & Hd' & Hnd). apply list.NoDup_cons in Hnd as [Hmn _].
    intros Hy. split; [naive_solver|]. split; intros ->; set_solver. }
  split.
  - intros y. rewrite Hin, IH, fmap_app. simpl. rewrite not_elem_of_app, not_elem_of_cons, (is_call_id _ _ _ _ _ Hca). split.
    + intros ([Hy ?] & Hyx & Hym). pose proof (same_id _ _ _ _ Hw y x m i k o Hy Hx Hca Hre Hm) as E.
      split_and!; [done|done| |by apply not_elem_of_nil]. rewrite E. tauto.
    + intros (Hy & ? & Hne & _). pose proof (same_id _ _ _ _ Hw y x m i k o Hy Hx Hca Hre Hm) as E. rewrite E in Hne. tauto.
  - rewrite StronglySorted_app in IHs |- *. destruct IHs as (Hpx & Hp & Hxs). apply StronglySorted_inv in Hxs as [Hbm _].
    rewrite StronglySorted_app in Hbm |- *. destruct Hbm as (Hbc & Hb & Hmc). apply StronglySorted_inv in Hmc as [HC _].
    split_and!; [|done| |done|done]; set_solver.
Qed.

Lemma chain_calls calls s h R : chain calls s h R → calls_ok h0 (locs es) (ops_count es) calls.
Proof.
  induction 1 as [|calls s h pre x B m C i k o s' h' H IH _ Hca _ _ _ _]; [constructor|].
  destruct (proj1 (proj1 (chain_rest _ _ _ _ H) x)) as [Hx _]; [set_solver|].
  apply Forall_app. split; [done|]. constructor; [|constructor]. split; [done|]. by apply (id_range _ _ _ _ Hw).
Qed.

Lemma chain_legal calls s h R path :
  chain calls s h R → legal model es s path → legal model es (Init model) (path_of calls ++ path).
Proof.
  intros H. revert path. induction H as [|calls s h pre x B m C i k o s' h' H IH _ Hca Hre Hst _ _]; intros path Hp; [done|].
  rewrite fmap_app, <-(assoc_L (++)). apply IH. simpl.
  destruct (proj1 (proj1 (chain_rest _ _ _ _ H) x)) as [Hx _]; [set_solver|].
  destruct (call_entry es Hwf h0 Hc x m i k Hx Hca) as (p & q & o' & -> & -> & Ha & Hb & _).
  pose proof (ret_node es h0 Hc _ _ _ Hb) as Hre'.
  unfold is_ret in Hre, Hre'. rewrite Hre' in Hre. simplify_eq.
  rewrite (is_call_id _ _ _ _ _ Hca). naive_solver.
Qed.

(** No operation is repeated, and none is put before one that had already returned
    when it was called. *)
Definition respects (path : list Z) : Prop :=
  NoDup path ∧ ∀ j a b p q i o, path !! j = Some a → b ∉ take j path →
    calls_at es p a i → returns_at es q b o → (p < q)%nat.

(** A call that no return precedes was made before the operations of [R] returned. *)
Lemma front_called calls s h pre x suf m i k b p q i' o :
  chain calls s h (pre ++ x :: suf) → Forall (λ y, ¬ returns h0 y) pre → is_call h0 x m i k →
  b ∉ path_of calls → calls_at es p k i' → returns_at es q b o → (p < q)%nat.
Proof.
  intros H Hpre Hca Hb Hp Hq. destruct (chain_rest _ _ _ _ H) as [HR Hs].
  destruct (proj1 (HR x)) as [Hx _]; [set_solver|].
  destruct (call_entry es Hwf h0 Hc x m i k Hx Hca) as (p' & q' & o' & Ex & _ & Ha & _ & Hlen).
  assert (p' = p) as ->.
  { destruct Ha as (e & Ee & Hke & Hide & _), Hp as (f & Ef & Hkf & Hidf & _). by eapply (we_unique es Hwf); [done..|congruence|congruence]. }
  pose proof (ret_node es h0 Hc _ _ _ Hq) as Hr. pose proof Hq as (f & Ef & _). apply lookup_lt_Some in Ef.
  assert (length es - 1 - q ∈ pre ++ x :: suf)%nat as Hin.
  { apply HR. split; [apply (list_elem_of_lookup_2 _ q), locs_lookup; lia|]. by rewrite (is_ret_id _ _ _ _ Hr). }
  apply elem_of_app in Hin as [Hin|[E|Hin]%elem_of_cons].
  - rewrite list.Forall_forall in Hpre. destruct (Hpre _ Hin). by exists o, b.
  - exfalso. rewrite E in Hr. by apply (call_not_ret _ _ _ _ _ Hca); exists o, b.
  - apply StronglySorted_app in Hs as (_ & _ & Hs). apply StronglySorted_inv in Hs as [_ Hs].
    rewrite list.Forall_forall in Hs. specialize (Hs _ Hin). lia.
Qed.

Lemma chain_respects calls s h R : chain calls s h R → respects (path_of calls).
Proof.
  induction 1 as [|calls s h pre x B m C i k o s' h' H [IHn IH] Hpre Hca _ _ _ _].
  { split; [constructor|]. by intros j a b p q i o Hj%lookup_lt_Some; apply Nat.nlt_0_r in Hj. }
  rewrite fmap_app. simpl. rewrite (is_call_id _ _ _ _ _ Hca). split.
  - apply list.NoDup_app. split_and!; [done| |apply NoDup_singleton]. intros y Hy ->%list_elem_of_singleton.
    destruct (proj1 (proj1 (chain_rest _ _ _ _ H) x)) as [_ Hk]; [set_solver|]. rewrite (is_call_id _ _ _ _ _ Hca) in Hk. done.
  - intros j a b p q i' o' [Hj|[Hge Hj]]%lookup_app_Some Hb Hp Hq.
    + eapply IH; [done| |done|done]. pose proof (lookup_lt_Some _ _ _ Hj). by rewrite take_app_le in Hb by lia.
    + apply list_lookup_singleton_Some in Hj as [Hz <-]. assert (j = length (path_of calls)) as -> by lia.
      rewrite take_app_length in Hb. by eapply front_called.
Qed.

(** What is recorded is a legal sequence that respects the order of time. *)
Definition recorded (o : option (nat * list Z)) : Prop :=
  match o with
  | Some (_, path) => path ≠ [] ∧ legal model es (Init model) path ∧ respects path
  | None => True
  end.

Lemma chain_recorded calls s h R a : chain calls s h R → calls ≠ [] → recorded (Some (a, path_of calls)).
Proof.
  intros H Hne. split_and!; [by destruct calls| |by eapply chain_respects].
  rewrite <-(app_nil_r (path_of calls)). by eapply chain_legal.
Qed.

(** The entry under inspection is in the list, and only calls are before it. *)
Definition entry_ok (en : option nat) (R : list nat) : Prop :=
  ∀ p, en = Some p → ∃ pre suf, R = pre ++ p :: suf ∧ Forall (λ y, ¬ returns h0 y) pre.

Lemma entry_ok_first pre suf : Forall (λ y, ¬ returns h0 y) pre → entry_ok (first suf None) (pre ++ suf).
Proof. intros HF p. destruct suf as [|x suf]; [done|]. intros [= <-]. eauto. Qed.

(** The invariant of the loop of [checkSingle]. *)
Definition search_ok (st : search State Input Output) : Prop :=
  ∃ R, chain (se_calls st) (se_state st) (se_heap st) R ∧ entry_ok (se_entry st) R ∧ Forall recorded (se_longest st).

Lemma slice_set_Forall {A} (P : A → Prop) (l l' : list A) i x :
  slice_set l i x = Some l' → Forall P l → P x → Forall P l'.
Proof.
  unfold slice_set. intros E HF Hx. case_decide; [|done]. simplify_eq. by apply Forall_insert.
Qed.

Lemma record_longest_recorded h calls s R a longest longest' :
  chain calls s h R → calls ≠ [] → Forall recorded longest →
  record_longest h calls a longest = Some longest' → Forall recorded longest'.
Proof.
  intros Hch Hne HF E. unfold record_longest in E.
  rewrite (calls_seq_ok h0 (locs es) (ops_count es)) in E by (eauto using chain_calls, chain_same).
  cbn [mbind option_bind] in E.
  pose proof (chain_recorded calls s h R a Hch Hne) as HP.
  revert E. generalize (idof h0 ∘ ca_entry <$> calls) at 2. intros ids.
  generalize dependent (idof h0 ∘ ca_entry <$> calls). intros path HP.
  revert longest HF. induction ids as [|id ids IH]; intros longest HF E; [by simplify_eq/=|].
  cbn [foldl mbind option_bind] in E.
  destruct (longest_step (len calls) (a, path) longest id) as [lg|] eqn:El; cycle 1.
  { rewrite foldl_bind_None in E. done. }
  apply (IH lg); [|done]. unfold longest_step in El.
  apply bind_Some in El as (cur & _ & El). case_match; simplify_eq; [|done].
  by eapply slice_set_Forall.
Qed.

(** A node with a match is a call among the entries. *)
Lemma node_call h p e mt :
  same_core h h0 → h !! p = Some e → nd_match e = Some mt →
  p ∈ locs es ∧ ∃ i k o, is_call h0 p mt i k ∧ is_ret h0 mt o k ∧
    nd_value e = Some (inl i) ∧ nd_id e = k ∧ ∃ m, h !! mt = Some m ∧ nd_value m = Some (inr o).
Proof.
  intros Hh He Hm. pose proof (Hh p) as Hp. rewrite He in Hp. simpl in Hp.
  destruct (h0 !! p) as [e0|] eqn:E0; [|done]. simpl in Hp. unfold core in Hp. simplify_eq.
  assert (p < length es)%nat by (eapply Hlt; [done|congruence]).
  assert (Hin : p ∈ locs es).
  { apply (list_elem_of_lookup_2 _ (length es - 1 - p)). apply locs_lookup. lia. }
  split; [done|]. pose proof (entries_wf es Hwf h0 Hc) as Hw.
  destruct (wf_node _ _ _ _ Hw p Hin) as [(m&i&k&o&Hca&Hre&Hmin&_)|(o&k&_&_&Hr&_)].
  - assert (m = mt ∧ nd_value e = Some (inl i) ∧ nd_id e = k) as (-> & ? & ?).
    { unfold is_call, cr in Hca. rewrite E0 in Hca. simpl in Hca. unfold core in Hca. simplify_eq. split_and!; congruence. }
    exists i, k, o. split_and!; try done.
    pose proof (Hh mt) as Hmt. unfold is_ret, cr in Hre. rewrite Hre in Hmt.
    destruct (h !! mt) as [m|] eqn:Em; [|done]. exists m. split; [done|].
    simpl in Hmt. unfold core in Hmt. by simplify_eq.
  - exfalso. unfold is_ret, cr in Hr. rewrite E0 in Hr. simpl in Hr. unfold core in Hr. simplify_eq. congruence.
Qed.

Lemma chain_pop calls s h R top :
  chain calls s h R → slice_get calls (len calls - 1) = Some top →
  ∃ h1 pre suf m i k, unlift h (ca_entry top) = Some h1 ∧ is_call h0 (ca_entry top) m i k ∧
    Forall (λ y, ¬ returns h0 y) pre ∧
    chain (take (length calls - 1) calls) (ca_state top) h1 (pre ++ ca_entry top :: suf).
Proof.
  intros H E. destruct H as [|calls s h pre x B m C i k o s' h' H Hpre Hca _ _ Hu _].
  - unfold slice_get in E. case_decide; [|done]. by rewrite lookup_nil in E.
  - assert (len (calls ++ [mkCall x s]) - 1 = len calls) as El by (rewrite len_app; unfold len; simpl; lia).
    rewrite El in E. unfold slice_get in E. case_decide; [|unfold len in *; lia].
    unfold len in E. rewrite Nat2Z.id, list_lookup_middle in E by done. simplify_eq/=.
    rewrite length_app, Nat.add_sub, take_app_length by done. exists h, pre, (B ++ m :: C), m, i, k. done.
Qed.

(** The call under inspection is taken. *)
Lemma chain_lift calls s h pre x suf m i k o s' h' :
  chain calls s h (pre ++ x :: suf) → Forall (λ y, ¬ returns h0 y) pre → is_call h0 x m i k → is_ret h0 m o k →
  Step model s i o = (true, s') → lift h x = Some h' → ∃ R, chain (calls ++ [mkCall x s]) s' h' R.
Proof.
  intros H Hpre Hca Hre Hst Hl. destruct (chain_rest _ _ _ _ H) as [HR _]. pose proof (chain_heap _ _ _ _ H) as [Hd Hh].
  destruct (proj1 (HR x)) as [Hx Hk]; [set_solver|].
  destruct (wf_node _ _ _ _ Hw x Hx) as [(m' & i' & k' & o' & Hca' & _ & Hm & _)|(o' & k' & _ & _ & Hr & _)];
    [|by destruct (call_not_ret _ _ _ _ _ Hca); exists o', k'].
  assert (m' = m) as -> by (unfold is_call in *; congruence).
  assert (m ∈ pre ++ x :: suf) as Hin.
  { apply HR. split; [done|]. by rewrite (is_ret_id _ _ _ _ Hre), <-(is_call_id _ _ _ _ _ Hca). }
  apply elem_of_app in Hin as [Hin|[->|Hin]%elem_of_cons].
  - rewrite list.Forall_forall in Hpre. destruct (Hpre m Hin). by exists o, k.
  - destruct (call_not_ret _ _ _ _ _ Hca). by exists o, k.
  - apply list_elem_of_split in Hin as (B & C & ->). destruct (core_node h0 h x _ _ _ Hh Hca) as (nd & E & _ & Em & _).
    destruct (lift_spec h (length es :: pre) x B m C nd Hd ltac:(done) E Em) as (h1 & El & Hd1 & Eu & Hc1). simplify_eq.
    exists (pre ++ B ++ C). eapply (chain_snoc calls s h pre x B m C i k o); [done..|]. split; [done|]. by eapply same_core_trans.
Qed.

Lemma check_step_ok cp killed st r :
  check_step model cp (length es) killed st = Some r → search_ok st →
  match r with
  | Continue st' => search_ok st'
  | Return _ longest => Forall recorded longest
  end.
Proof.
  intros E (R & Hch & Hen & HF). pose proof (chain_same _ _ _ _ Hch) as Hh. destruct st as [h en lin cache calls longest state allocs]; simpl in *.
  destruct killed; [by simplify_eq|].
  apply bind_Some in E as (e & Ee & E). destruct en as [p|]; [|done]. cbn in Ee.
  destruct (Hen p eq_refl) as (pre & suf & -> & Hpre).
  destruct (nd_match e) as [mt|] eqn:Em.
  - destruct (node_call h p e mt Hh Ee Em) as (Hin & i & k & o & Hca & Hre & Hv & Hid & m & Hm & Hmv).
    cbn in E. rewrite Hm in E. cbn [mbind option_bind] in E.
    unfold call_Step in E. rewrite Hv, Hmv in E. cbn [mbind option_bind] in E.
    destruct (Step model state i o) as [ok newState] eqn:Est.
    assert (Hnext : search_ok (mkSearch h (nd_next e) lin cache calls longest state allocs)).
    { exists (pre ++ p :: suf). split_and!; [done| |done]. simpl.
      rewrite (heap_next _ _ _ _ _ _ _ (chain_heap _ _ _ _ Hch) Ee), cons_middle, (assoc_L (++)).
      apply entry_ok_first, Forall_app. split; [done|]. constructor; [|constructor]. by eapply call_not_ret. }
    destruct ok; [|by simplify_eq].
    apply bind_Some in E as (nl & _ & E). apply bind_Some in E as (seen & _ & E).
    destruct seen; cbn [negb] in E; [by simplify_eq|].
    apply bind_Some in E as (lin' & _ & E). apply bind_Some in E as (h' & Hl & E).
    apply bind_Some in E as (hdn & Hhd & E). simplify_eq.
    destruct (chain_lift _ _ _ _ _ _ _ _ _ _ _ _ Hch Hpre Hca Hre Est Hl) as [R HR].
    exists R. split_and!; [done| |done]. simpl.
    destruct (heap_head _ _ _ _ (chain_heap _ _ _ _ HR)) as (nh & Hnh & Hn). simplify_eq. rewrite Hn. apply (entry_ok_first []). constructor.
  - case_decide; [by simplify_eq|].
    apply bind_Some in E as (lg & Hlg & E). apply bind_Some in E as (top & Ht & E).
    apply bind_Some in E as (e' & _ & E). apply bind_Some in E as (lin' & _ & E).
    apply bind_Some in E as (h' & Hu & E). apply bind_Some in E as (e'' & He'' & E). simplify_eq.
    destruct (chain_pop _ _ _ _ _ Hch Ht) as (h1 & pre1 & suf1 & m1 & i1 & k1 & Hu1 & Hca1 & Hpre1 & Hch1). simplify_eq.
    exists (pre1 ++ ca_entry top :: suf1). split_and!; simpl; [done| |].
    + rewrite (heap_next _ _ _ _ _ _ _ (chain_heap _ _ _ _ Hch1) He''), cons_middle, (assoc_L (++)).
      apply entry_ok_first, Forall_app. split; [done|]. constructor; [|constructor]. by eapply call_not_ret.
    + destruct cp; [|by simplify_eq]. eapply record_longest_recorded; [exact Hch| |exact HF|exact Hlg]. by intros ->.
Qed.

Lemma check_loop_recorded cp kill fuel st ok longest :
  check_loop model cp (length es) (ops_count es) kill fuel st = Returned ok longest → search_ok st → Forall recorded longest.
Proof.
  revert kill st. induction fuel as [|fuel IH]; intros kill st E Hok; simpl in E; [done|].
  destruct (se_heap st !! length es) as [nd|] eqn:Ehd; [|done]. destruct (nd_next nd) eqn:End.
  - destruct (check_step model cp (length es) (kill 0%nat) st) as [[st'|ok' lg]|] eqn:Es; [| |done];
      pose proof (check_step_ok _ _ _ _ Es Hok); [by eapply IH|by simplify_eq].
  - destruct Hok as (R & Hch & _ & HF). unfold check_done in E.
    rewrite (calls_seq_ok h0 (locs es) (ops_count es)) in E by (eauto using chain_calls, chain_same).
    case_match eqn:Ef; simplify_eq.
    eapply (for_range_post _ _ (λ _ lg, Forall recorded lg)); [exact Ef|done|].
    intros i lg lg' Hi HF' Es. eapply slice_set_Forall; [exact Es|done|]. eapply chain_recorded; [exact Hch|].
    intros Hnil. destruct (heap_head _ _ _ _ (chain_heap _ _ _ _ Hch)) as (nh & Hnh & Hn).
    rewrite Ehd in Hnh. injection Hnh as <-. rewrite End in Hn. destruct R as [|x R]; [|done]. rewrite Hnil in Hch.
    inversion Hch as [h Hh HE| ]; [|by destruct calls]. pose proof (we_count es Hwf) as Hcnt.
    destruct es; [unfold len in Hcnt; simpl in Hcnt; lia|done].
Qed.
End partials.

(** What [checkSingle] returns in [longest] is legal and respects time, whether it
    found a linearization or not and whether it was killed or not. *)
Lemma checkSingle_recorded {State Input Output} (model : Model State Input Output) es cp kill fuel ok longest :
  wf_entries es → checkSingle model es cp kill fuel = Returned ok longest →
  Forall (recorded model es) longest.
Proof.
  intros Hwf E. destruct (check_init_spec model es Hwf) as (h & Hc & Hh & Hlt & Ei).
  unfold checkSingle in E. rewrite Ei in E. eapply (check_loop_recorded model es Hwf h Hc Hlt); [exact E|].
  exists (locs es). split_and!; simpl; [by constructor|apply (entry_ok_first h []); constructor|]. by apply Forall_replicate.
Qed.

Lemma unique_partials_recorded {State Input Output} (model : Model State Input Output) es seen longest path :
  Forall (recorded model es) longest → path ∈ unique_partials seen longest →
  path ≠ [] ∧ legal model es (Init model) path ∧ respects es path.
Proof.
  intros HF. revert seen. induction HF as [|o longest Ho HF IH]; intros seen Hin; [by apply not_elem_of_nil in Hin|].
  destruct o as [[a q]|]; simpl in *; [|by eapply IH]. case_decide; [by eapply IH|].
  apply elem_of_cons in Hin as [->|Hin]; [done|by eapply IH].
Qed.

(** The [partialLinearizations] of the info, partition by partition. *)
Lemma checkParallel_info {State Input Output} (model : Model State Input Output) history kill fuel order res info :
  Forall wf_entries history → checkParallel model history true kill fuel order = Some (res, info) →
  Forall2 (λ es partials, ∀ path, path ∈ partials →
    path ≠ [] ∧ legal model es (Init model) path ∧ respects es path) history info.
Proof.
  intros HF E. unfold checkParallel in E. apply bind_Some in E as (sg & _ & E).
  apply bind_Some in E as ([[ok to] c] & _ & E). apply bind_Some in E as (inf & Ei & E). simplify_eq.
  unfold partialLinearizations in Ei. apply mapM_Some in Ei.
  apply Forall2_lookup. intros i.
  rewrite Forall2_lookup in Ei. specialize (Ei i). rewrite list_lookup_imap in Ei.
  destruct (history !! i) as [es|] eqn:Eh; simpl in Ei; inversion Ei as [x y Hxy Hx Hy|Hx Hy]; constructor.
  apply bind_Some in Hxy as ([ok' lg] & Hg & Hu). simplify_eq. intros path Hin.
  unfold goroutine in Hg. destruct (checkSingle model es true (kill i) fuel) as [| |ok1 l1] eqn:Es; simplify_eq.
  eapply unique_partials_recorded; [|done]. eapply checkSingle_recorded; [|done]. by eapply Forall_lookup_1.
Qed.

(** ** The replay *)

Section replay.
Context {State Input Output : Type} (model : Model State Input Output).
Context {sp : Sprint State Input Output} (d : Describer State Input Output).
Implicit Types es : list (entry Input Output).

Lemma foldM_app {A B} (f : B → A → option B) b l1 l2 :
  foldM f b (l1 ++ l2) = foldM f b l1 ≫= λ b', foldM f b' l2.
Proof.
  revert b. induction l1 as [|x l1 IH]; intros b; simpl; [done|].
  destruct (f b x); simpl; [apply IH|done].
Qed.

(** What the loop over the entries has recorded after [pos] of them. *)
Record entries_read es (pos : nat) (acc : list historyElement * gmap Z (Input + Output) * gmap Z (Input + Output)) : Prop := {
  er_len : len acc.1.1 = ops_count es;
  er_call : ∀ p e, (p < pos)%nat → es !! p = Some e → en_kind e = callEntry →
    acc.1.2 !! en_id e = Some (en_value e) ∧
    ∃ he, slice_get acc.1.1 (en_id e) = Some he ∧ ClientId he = en_clientId e ∧ Start he = en_time e;
  er_return : ∀ p e, (p < pos)%nat → es !! p = Some e → en_kind e = returnEntry →
    acc.2 !! en_id e = Some (en_value e) ∧
    ∃ he, slice_get acc.1.1 (en_id e) = Some he ∧ End_ he = en_time e ∧
      ∀ q i o, calls_at es q (en_id e) i → en_value e = inr o → Description he = describe_op d i o
}.

Lemma read_entry es pos acc e :
  wf_entries es → es !! pos = Some e → entries_read es pos acc →
  ∃ acc', history_step d acc e = Some acc' ∧ entries_read es (S pos) acc'.
Proof.
  intros Hwf He [Hl Hca Hre]. destruct acc as [[hist cv] rv]; simpl in *.
  pose proof (we_id es Hwf pos e He) as Hid.
  destruct (proj2 (slice_get_is_Some hist (en_id e))) as [he0 Eh]; [lia|].
  assert (Hset : ∀ v, ∃ l, slice_set hist (en_id e) v = Some l ∧ len l = ops_count es ∧
            ∀ j, slice_get l j = if decide (en_id e = j) then Some v else slice_get hist j).
  { intros v. destruct (proj2 (slice_set_is_Some hist (en_id e) v)) as [l El]; [lia|]. exists l.
    split_and!; [done|by erewrite slice_set_len|]. intros j. by apply slice_get_set. }
  assert (Hold : ∀ p f, (p < S pos)%nat → es !! p = Some f → (p < pos)%nat ∨ p = pos ∧ f = e).
  { intros p f Hp Ef. destruct (decide (p = pos)) as [->|]; [right; by simplify_eq|left; lia]. }
  assert (Hsame : ∀ p f, (p < pos)%nat → es !! p = Some f → en_kind f = en_kind e → en_id e ≠ en_id f).
  { intros p f Hp Ef Hk Hi. pose proof (we_unique es Hwf p pos f e Ef He Hk (eq_sym Hi)). lia. }
  unfold history_step. rewrite Eh. cbn [mbind option_bind]. destruct (en_kind e) eqn:Hk.
  - destruct (Hset (mkHE (en_clientId e) (en_time e) (End_ he0) (Description he0))) as (l & -> & Hll & Hget).
    cbn [mbind option_bind]. eexists. split; [done|]. split; simpl; [done| |].
    + intros p f Hp Ef Hkf. destruct (Hold p f Hp Ef) as [Hp'|[-> ->]].
      * pose proof (Hsame p f Hp' Ef Hkf). rewrite lookup_insert_ne, Hget, decide_False by done. by apply (Hca p).
      * rewrite lookup_insert_eq, Hget, decide_True by done. split; [done|]. by eexists.
    + intros p f Hp Ef Hkf. destruct (Hold p f Hp Ef) as [Hp'|[-> ->]]; [|congruence].
      destruct (Hre p f Hp' Ef Hkf) as (? & he & Ehe & ? & ?). split; [done|]. rewrite Hget.
      case_decide as Hi; [rewrite Hi in Eh|]; simplify_eq; by eexists.
  - destruct (we_pair es Hwf (en_id e) Hid) as (p0 & q0 & i & o & Hlt & Hcall & (e' & Ee' & Hk' & Hid' & Hv')).
    assert (q0 = pos) as -> by (apply (we_unique es Hwf q0 pos e' e); congruence). simplify_eq.
    pose proof Hcall as (f0 & Ef0 & Hkf0 & Hidf0 & Hvf0).
    destruct (Hca p0 f0 Hlt Ef0 Hkf0) as [Hcv _]. rewrite Hidf0, Hvf0 in Hcv. rewrite Hcv, Hv'. cbn [typed mbind option_bind].
    destruct (Hset (mkHE (ClientId he0) (Start he0) (en_time e) (describe_op d i o))) as (l & -> & Hll & Hget).
    cbn [mbind option_bind]. eexists. split; [done|]. split; simpl; [done| |].
    + intros p f Hp Ef Hkf. destruct (Hold p f Hp Ef) as [Hp'|[-> ->]]; [|congruence].
      destruct (Hca p f Hp' Ef Hkf) as (? & he & Ehe & ? & ?). split; [done|]. rewrite Hget.
      case_decide as Hi; [rewrite Hi in Eh|]; simplify_eq; by eexists.
    + intros p f Hp Ef Hkf. destruct (Hold p f Hp Ef) as [Hp'|[-> ->]].
      * pose proof (Hsame p f Hp' Ef Hkf). rewrite lookup_insert_ne, Hget, decide_False by done. by apply (Hre p).
      * rewrite lookup_insert_eq, Hget, decide_True by done. split; [by rewrite Hv'|]. eexists. split_and!; [done|done|].
        intros q i' o' (f1 & Ef1 & Hkf1 & Hidf1 & Hvf1) Hvo. simpl.
        assert (q = p0) as -> by (apply (we_unique es Hwf q p0 f1 f0); congruence). congruence.
Qed.

Lemma read_entries es :
  wf_entries es →
  ∃ acc, foldM (history_step d) (replicate (Z.to_nat (ops_count es)) (mkHE 0 0 0 ""), ∅, ∅) es = Some acc ∧
    entries_read es (length es) acc.
Proof.
  intros Hwf.
  assert (H : ∀ pos, (pos ≤ length es)%nat → ∃ acc,
    foldM (history_step d) (replicate (Z.to_nat (ops_count es)) (mkHE 0 0 0 ""), ∅, ∅) (take pos es) = Some acc ∧
    entries_read es pos acc); [|specialize (H (length es) (le_n _)); by rewrite firstn_all in H].
  induction pos as [|pos IH]; intros Hp.
  - eexists. split; [done|]. split; simpl; [|lia|lia].
    unfold len. rewrite length_replicate. pose proof (we_count es Hwf). pose proof (len_nonneg es). lia.
  - destruct IH as (acc & E & Hr); [lia|]. destruct (lookup_lt_is_Some_2 es pos) as [e He]; [lia|].
    destruct (read_entry es pos acc e Hwf He Hr) as (acc' & E' & Hr'). exists acc'. split; [|done].
    rewrite (take_S_r _ _ _ He), foldM_app, E. simpl. by rewrite E'.
Qed.
Section values.
Context (es : list (entry Input Output)) (cv rv : gmap Z (Input + Output)).
Context (Hcv : ∀ p k i, calls_at es p k i → cv !! k = Some (inl i)).
Context (Hrv : ∀ p k o, returns_at es p k o → rv !! k = Some (inr o)).
Implicit Types (ls li : gmap Z Z) (path : list Z) (k i size : Z).

(** The operations of a drawn linearization. *)
Definition indices (lin : list linearizationStep) : list Z := Index <$> lin.

(** One legal sequence: it is replayed, and [largestSize] and [largestIndex]
    change exactly for the ids that were in shorter sequences only. *)
Lemma replay_legal i size path state lin ls li :
  legal model es state path →
  ∃ state' lin' ls' li',
    foldM (replay_step model d cv rv i size) (state, lin, ls, li) path = Some (state', lin', ls', li') ∧
    (Index <$> lin') = (Index <$> lin) ++ path ∧
    (∀ k, k ∈ path → default 0 (ls !! k) < size → ls' !! k = Some size ∧ li' !! k = Some i) ∧
    (∀ k, k ∉ path ∨ size ≤ default 0 (ls !! k) → ls' !! k = ls !! k ∧ li' !! k = li !! k).
Proof.
  revert state lin ls li. induction path as [|k0 path IH]; intros state lin ls li Hl.
  { exists state, lin, ls, li. rewrite app_nil_r. set_solver. }
  destruct Hl as (p & q & inp & out & s' & Hp & Hq & Hst & Hl). cbn [foldM]. unfold replay_step at 2.
  rewrite (Hcv _ _ _ Hp), (Hrv _ _ _ Hq). cbn [typed mbind option_bind]. rewrite Hst. cbn [negb].
  destruct (default 0 (ls !! k0) <? size) eqn:Hb.
  - apply Z.ltb_lt in Hb.
    destruct (IH s' (lin ++ [mkLS k0 (describe_state d s')]) (<[k0 := size]> ls) (<[k0 := i]> li) Hl)
      as (st & lin' & ls' & li' & E & Hlin & Hnew & Hold).
    exists st, lin', ls', li'. split_and!; [done|by rewrite Hlin, fmap_app, <-(assoc_L (++))| |].
    + intros k Hk Hs. destruct (decide (k = k0)) as [->|Hne].
      * destruct (Hold k0) as [-> ->]; [right; rewrite lookup_insert_eq; simpl; lia|].
        by rewrite !lookup_insert_eq.
      * apply Hnew; [set_solver|]. by rewrite lookup_insert_ne.
    + intros k Hk. assert (k ≠ k0) by (intros ->; destruct Hk; [set_solver|lia]).
      destruct (Hold k) as [-> ->]; [|by rewrite !lookup_insert_ne].
      rewrite lookup_insert_ne by done. set_solver.
  - apply Z.ltb_ge in Hb.
    destruct (IH s' (lin ++ [mkLS k0 (describe_state d s')]) ls li Hl)
      as (st & lin' & ls' & li' & E & Hlin & Hnew & Hold).
    exists st, lin', ls', li'. split_and!; [done|by rewrite Hlin, fmap_app, <-(assoc_L (++))| |].
    + intros k Hk Hs. apply Hnew; [|done]. apply elem_of_cons in Hk as [->|]; [lia|done].
    + intros k Hk. apply Hold. set_solver.
Qed.

(** [li] names, for every id, a longest of the sequences [l] that contain it. *)
Definition largest_ok (l : list (list Z)) ls li : Prop :=
  ∀ k, (∃ j path, li !! k = Some (Z.of_nat j) ∧ l !! j = Some path ∧ k ∈ path ∧ ls !! k = Some (len path) ∧
          ∀ path', path' ∈ l → k ∈ path' → len path' ≤ len path) ∨
       (ls !! k = None ∧ li !! k = None ∧ ∀ path', path' ∈ l → k ∉ path').

Lemma largest_snoc l path ls li ls' li' :
  largest_ok l ls li →
  (∀ k, k ∈ path → default 0 (ls !! k) < len path → ls' !! k = Some (len path) ∧ li' !! k = Some (Z.of_nat (length l))) →
  (∀ k, k ∉ path ∨ len path ≤ default 0 (ls !! k) → ls' !! k = ls !! k ∧ li' !! k = li !! k) →
  largest_ok (l ++ [path]) ls' li'.
Proof.
  intros HL Hnew Hold k.
  destruct (decide (k ∈ path ∧ default 0 (ls !! k) < len path)) as [[Hk Hs]|Hn].
  - left. destruct (Hnew k Hk Hs) as [Els Eli]. exists (length l), path.
    split_and!; [done|by apply list_lookup_middle|done|done|].
    intros path' [Hp|Hp%list_elem_of_singleton]%elem_of_app Hkp; [|by subst].
    destruct (HL k) as [(j & q & _ & _ & _ & Eq & Hmax)|(_ & _ & Hno)]; [|by destruct (Hno path' Hp)].
    rewrite Eq in Hs. simpl in Hs. specialize (Hmax path' Hp Hkp). lia.
  - assert (k ∉ path ∨ len path ≤ default 0 (ls !! k)) as Ho.
    { destruct (decide (k ∈ path)); [right|by left]. destruct (decide (default 0 (ls !! k) < len path)); [tauto|lia]. }
    destruct (Hold k Ho) as [-> ->]. destruct (HL k) as [(j & q & Ej & Elj & Hkq & Eq & Hmax)|(E1 & E2 & Hno)].
    + left. exists j, q. split_and!; [done|by apply lookup_app_l_Some|done|done|].
      intros path' [Hp|Hp%list_elem_of_singleton]%elem_of_app Hkp; [by apply Hmax|]. subst path'.
      rewrite Eq in Ho. destruct Ho; [done|]. simpl in *. lia.
    + right. split_and!; [done..|]. intros path' [Hp|Hp%list_elem_of_singleton]%elem_of_app; [by apply Hno|].
      subst path'. intros Hk. destruct Ho as [|Ho]; [done|]. rewrite E1 in Ho. simpl in Ho.
      destruct path; [by apply not_elem_of_nil in Hk|]. unfold len in Ho. simpl in Ho. lia.
Qed.

(** All sequences of a partition. *)
Lemma replay_all l :
  (∀ path, path ∈ l → legal model es (Init model) path) →
  ∃ lins ls li, foldM (partial_step model d cv rv) ([], ∅, ∅) (imap pair l) = Some (lins, ls, li) ∧
    indices <$> lins = l ∧ largest_ok l ls li.
Proof.
  induction l as [|path l IH] using rev_ind; intros Hl.
  { exists [], ∅, ∅. split_and!; [done|done|]. intros k. right. set_solver. }
  destruct IH as (lins & ls & li & E & Hlins & HL); [set_solver|].
  destruct (replay_legal (Z.of_nat (length l)) (len path) path (Init model) [] ls li) as (st & lin & ls' & li' & E' & Hlin & Hnew & Hold);
    [set_solver|].
  exists (lins ++ [lin]), ls', li'. split_and!.
  - rewrite imap_app, foldM_app, E. cbn [mbind option_bind imap foldM]. simpl imap.
    cbn [foldM]. unfold partial_step. simpl. rewrite Nat.add_0_r, E'. done.
  - rewrite fmap_app, Hlins. cbn [fmap list_fmap]. unfold indices at 1. by rewrite Hlin.
  - by eapply largest_snoc.
Qed.
End values.

Lemma Forall2_choice {A B} (P : A → B → Prop) (l : list A) :
  Forall (λ x, ∃ y, P x y) l → ∃ l', Forall2 P l l'.
Proof.
  induction 1 as [|x l [y Hy] _ [l' Hl']]; [by exists []|]. exists (y :: l'). by constructor.
Qed.

(** What is drawn of the operations of one partition. *)
Definition history_drawn es (hist : list historyElement) : Prop :=
  len hist = ops_count es ∧
  ∀ p q e f i o, es !! p = Some e → en_kind e = callEntry → en_value e = inl i →
    es !! q = Some f → en_kind f = returnEntry → en_value f = inr o → en_id e = en_id f →
    slice_get hist (en_id e) = Some (mkHE (en_clientId e) (en_time e) (en_time f) (describe_op d i o)).

Lemma read_drawn es acc :
  entries_read es (length es) acc → history_drawn es acc.1.1.
Proof.
  intros [Hl Hca Hre]. split; [done|]. intros p q e f i o Ep Hk Hv Eq Hkf Hvf Hid.
  destruct (Hca p e) as (_ & he & Ehe & H1 & H2); [by eapply lookup_lt_Some|done..|].
  destruct (Hre q f) as (_ & hf & Ehf & H3 & H4); [by eapply lookup_lt_Some|done..|].
  rewrite Hid in *. assert (he = hf) as -> by congruence. rewrite Ehf. f_equal.
  rewrite <-(H4 p i o); [by destruct hf; simpl in *; subst|by exists e|done].
Qed.

(** The drawing of one partition shows its operations, its sequences by decreasing
    length, and for every operation a longest of the sequences it is in. *)
Record drawn {ss : SliceSorter} es (partials : list (list Z)) (v : partitionVisualizationData) : Prop := {
  dr_history : history_drawn es (History v);
  dr_partials : indices <$> PartialLinearizations v = sort_Slice partials;
  dr_largest : ∀ k, match Largest v !! k with
    | Some j => ∃ n lin, j = Z.of_nat n ∧ PartialLinearizations v !! n = Some lin ∧ k ∈ indices lin ∧
        ∀ path, path ∈ partials → k ∈ path → len path ≤ len (indices lin)
    | None => ∀ path, path ∈ partials → k ∉ path
    end
}.

Lemma partition_drawn {ss : SliceSorter} es partials :
  wf_entries es → (∀ path, path ∈ partials → legal model es (Init model) path) →
  ∃ v, partition_data model d es partials = Some v ∧ drawn es partials v.
Proof.
  intros Hwf Hp. destruct (read_entries es Hwf) as ([[hist cv] rv] & E & Hr).
  assert (Hcv : ∀ p k i, calls_at es p k i → cv !! k = Some (inl i)).
  { intros p k i (e & Ee & Hk & <- & <-). apply (er_call _ _ _ Hr p e); [by eapply lookup_lt_Some|done..]. }
  assert (Hrv : ∀ p k o, returns_at es p k o → rv !! k = Some (inr o)).
  { intros p k o (e & Ee & Hk & <- & <-). apply (er_return _ _ _ Hr p e); [by eapply lookup_lt_Some|done..]. }
  pose proof (sort_Slice_perm partials) as Hperm.
  destruct (replay_all es cv rv Hcv Hrv (sort_Slice partials)) as (lins & ls & li & E' & Hlins & HL).
  { intros path. rewrite Hperm. apply Hp. }
  exists (mkPVD hist lins li). unfold partition_data. fold (ops_count es).
  rewrite E. cbn [mbind option_bind]. rewrite E'. split; [done|]. split; simpl.
  - apply (read_drawn _ _ Hr).
  - done.
  - intros k. destruct (HL k) as [(j & path & -> & Ej & Hk & _ & Hmax)|(_ & -> & Hno)].
    + rewrite <-Hlins, list_lookup_fmap in Ej. destruct (lins !! j) as [lin|] eqn:El; simplify_eq/=.
      exists j, lin. split_and!; [done..|]. intros path Hin. apply Hmax. by rewrite Hperm.
    + intros path Hin. apply Hno. by rewrite Hperm.
Qed.

(** What a verbose check records can be shown. *)
Lemma visualization_data {ss : SliceSorter} history kill fuel order res info :
  Forall wf_entries history →
  checkParallel model history true kill fuel order = Some (res, info) →
  ∃ data, computeVisualizationData model d history info = Some data ∧
    ∀ i es partials, history !! i = Some es → info !! i = Some partials →
      (∀ path, path ∈ partials → path ≠ [] ∧ legal model es (Init model) path ∧ respects es path) ∧
      ∃ v, data !! i = Some v ∧ drawn es partials v.
Proof.
  intros HF E. pose proof (checkParallel_info _ _ _ _ _ _ _ HF E) as HI.
  assert (∃ data, Forall2 (λ '(i, es) v, ∃ partials, info !! i = Some partials ∧
      partition_data model d es partials = Some v ∧ drawn es partials v) (imap pair history) data) as [data HD].
  { apply Forall2_choice. apply Forall_lookup. intros i x Hx. rewrite list_lookup_imap in Hx.
    destruct (history !! i) as [es|] eqn:Eh; simplify_eq/=.
    destruct (Forall2_lookup_l _ _ _ _ _ HI Eh) as (partials & Ep & Hl).
    destruct (partition_drawn es partials) as (v & Ev & Hv); [by eapply Forall_lookup_1|by intros path (_ & ? & _)%Hl|]. eauto. }
  exists data. split.
  - unfold computeVisualizationData. apply mapM_Some. eapply list.Forall2_impl; [exact HD|].
    intros [i es] v (partials & -> & Ev & _). done.
  - intros i es partials Eh Ep. pose proof (Forall2_lookup_lr _ _ _ _ _ _ HI Eh Ep) as Hl. split; [done|].
    destruct (Forall2_lookup_l _ _ _ i (i, es) HD) as (v & Ev & partials' & Ep' & _ & Hv);
      [by rewrite list_lookup_imap, Eh|]. simplify_eq. eauto.
Qed.

(** C14: the visualization of a verbose check never panics. Whatever the verdict,
    and also when the search was cut short by the timeout, the model takes every
    step of every partial linearization the checker recorded, and none of them puts an
    operation before one that had already returned; so
    [computeVisualizationData] returns; it shows every operation with its client,
    its times and its description, the recorded linearizations, longest first, and
    for every operation a longest of those that contain it. *)
Theorem visualization_total {ss : SliceSorter} history kill fuel order res info :
  Forall wf_entries history →
  checkParallel model history true kill fuel order = Some (res, info) →
  ∃ data, computeVisualizationData model d history info = Some data ∧
    ∀ i es partials, history !! i = Some es → info !! i = Some partials →
      (∀ path, path ∈ partials → path ≠ [] ∧ legal model es (Init model) path ∧ respects es path) ∧
      ∃ v, data !! i = Some v ∧ drawn es partials v.
Proof. apply visualization_data. Qed.
End replay.

(** ** A drawn history *)

Module Drawn.
Import Kv PK.Example.

Definition longer (a b : list Z) : Prop := (length b ≤ length a)%nat.
#[local] Instance longer_dec a b : Decision (longer a b) := decide (length b ≤ length a)%nat.

Lemma longer_total : Total longer.
Proof. intros a b. unfold longer. lia. Qed.
Lemma longer_trans : Transitive longer.
Proof. intros a b c. unfold longer. lia. Qed.

(** [sort.Slice] may be a merge sort. *)
Definition merge_slices : SliceSorter.
Proof.
  refine {| sort_Slice := merge_sort longer |}; [apply merge_sort_Permutation|].
  intros l i j a b Hij Ha Hb.
  pose proof (@StronglySorted_merge_sort _ longer _ longer_trans longer_total l) as Hs.
  rewrite StronglySorted_lookup_iff in Hs. by apply (Hs i j).
Defined.

Definition printer : Sprint string KvInput KvOutput :=
  {| DefaultDescribeOperation := λ _ _, ""; DefaultDescribeState := λ s, s |}.

(** The history with a stale read: no linearization, one partial one. *)
Definition stale_entries : list (list (entry KvInput KvOutput)) := [@makeEntries _ _ so stale].
Definition model : Model string KvInput KvOutput := fillDefault KvModel.

Lemma stale_wf : Forall wf_entries stale_entries.
Proof.
  constructor; [|constructor]. apply (@makeEntries_wf _ _ so); [|vm_compute; reflexivity].
  intros op. unfold stale. rewrite !elem_of_cons, elem_of_nil. intros [->|[->|[->|[]]]]; simpl; lia.
Qed.

Definition stale_info : list (list (list Z)) :=
  default [] (snd <$> checkParallel model stale_entries true never 20 [Some 0%nat]).

Lemma visualization_witness :
  stale_info = [[[0; 1]]] ∧
  ∃ data, @computeVisualizationData _ _ _ model printer KvDescriber merge_slices stale_entries stale_info = Some data ∧
    ∀ i es partials, stale_entries !! i = Some es → stale_info !! i = Some partials →
      (∀ path, path ∈ partials → path ≠ [] ∧ legal model es (Init model) path ∧ respects es path) ∧
      ∃ v, data !! i = Some v ∧ @drawn _ _ _ printer KvDescriber merge_slices es partials v.
Proof.
  split; [vm_compute; reflexivity|].
  apply (@visualization_total _ _ _ model printer KvDescriber merge_slices stale_entries never 20 [Some 0%nat] Illegal).
  - apply stale_wf.
  - vm_compute. reflexivity.
Defined.
End Drawn.

End PV.
