(* ===== verification/PorcupineLayout.v ===== *)
(** The layout of the visualization: the first half of the script that [Visualize]
    writes into its page, [render] in [src/src/porcupine/visualization.go].

    [render] maps the timestamps of a history to x-positions.  Its comment states what
    the mapping owes the reader: unequal timestamps are some distance apart, the text
    fits into the box of every operation, and the points of every linearization fit
    into the boxes of their operations and are some distance apart; and that the
    left-to-right scan finds the least such mapping.  [feasible] is this program of
    inequalities, and the theorems say that the scan solves it and finds the least
    solution.

    JavaScript numbers are exact here.  Timestamps are counted in halves, so that the
    mean of two of them is whole, and lengths in [px]-ths of a pixel, so that the
    widths of texts are whole; a sum of two such numbers is exact for doubles up to
    [2^53].  [None] in a position is [undefined] or [NaN]; a [None] instead of a result
    is an exception. *)

From stdpp Require Import strings.
From S2P Require Import Prelude Bitset Porcupine PorcupineList PorcupineSearch PorcupineFacts PorcupineCheck PorcupineVisual.

#[local] Open Scope Z_scope.

(** ** Sorting with [(a, b) => key(a) - key(b)], which is stable *)

Section sort_by.
Context {A : Type} (key : A → Z).

Fixpoint insert_by (x : A) (l : list A) : list A :=
  match l with
  | [] => [x]
  | y :: l' => if key x <=? key y then x :: l else y :: insert_by x l'
  end.

Definition sort_by (l : list A) : list A := foldr insert_by [] l.

Lemma insert_key_perm x l : insert_by x l ≡ₚ x :: l.
Proof.
  induction l as [|y l IH]; simpl; [done|]. destruct (key x <=? key y); [done|]. rewrite IH. constructor.
Qed.

Lemma sort_by_perm l : sort_by l ≡ₚ l.
Proof. induction l as [|x l IH]; simpl; [done|]. by rewrite insert_key_perm, IH. Qed.

Lemma sort_by_sorted l : StronglySorted (λ a b, key a ≤ key b) (sort_by l).
Proof.
  induction l as [|x l IH]; simpl; [constructor|]. revert IH. generalize (sort_by l). clear l.
  induction 1 as [|y l Hs IH Hy]; simpl; [by repeat constructor|]. destruct (Z.leb_spec (key x) (key y)).
  - constructor; [by constructor|]. constructor; [done|]. eapply list.Forall_impl; [exact Hy|]. simpl. lia.
  - constructor; [done|]. rewrite insert_key_perm. constructor; [lia|done].
Qed.
End sort_by.

Module VL.
Import PV.

(** ** Numbers *)

Abbreviation num := (option Z).
Definition add (a b : num) : num := x ← a; y ← b; Some (x + y).
Definition max_ (a b : num) : num := x ← a; y ← b; Some (x `max` y).

Section layout.
(** The units in a pixel, and the width of a text as [getBBox] measures it. *)
Context (px : Z) (measure : string → Z).

Definition EPSILON : Z := 20 * px.
Definition BOX_GAP : Z := 20 * px.
Definition BOX_TEXT_PADDING : Z := 10 * px.

(** ** Preparation *)

(** An element of [History] with the fields that [render] adds. *)
Record element := mkElement {
  el_ClientId : Z;
  el_Start : Z;
  el_End : Z;
  el_OriginalEnd : Z;
  el_Description : string;
  el_Gid : Z
}.

Definition number_partition (gid : Z) (h : list historyElement) : list element :=
  imap (λ i he, mkElement (ClientId he) (2 * Start he) (2 * End_ he) (2 * End_ he) (Description he) (gid + Z.of_nat i)) h.

Fixpoint number (gid : Z) (data : list partitionVisualizationData) : list (list element) :=
  match data with
  | [] => []
  | partition :: data => number_partition gid (History partition) :: number (gid + len (History partition)) data
  end.

Definition startTimestamps (els : list element) : gset Z := list_to_set (el_Start <$> els).
Definition endTimestamps (els : list element) : gset Z := list_to_set (el_End <$> els).

(** [Array.from(set).sort((a, b) => a - b)] *)
Definition sorted (s : gset Z) : list Z := sort_by id (elements s).

Definition nextTs (sortedTimestamps : list Z) : gmap Z Z :=
  list_to_map (zip sortedTimestamps (tail sortedTimestamps)).

(** An end that is also a start moves halfway to the next timestamp. *)
Definition tweak (starts : gset Z) (next : gmap Z Z) (el : element) : element :=
  let end_ := el_End el in
  if decide (end_ ∈ starts) then
    match next !! end_ with
    | Some n => mkElement (el_ClientId el) (el_Start el) ((end_ + n) / 2) end_ (el_Description el) (el_Gid el)
    | None => el
    end
  else el.

(** The elements with their tweaked ends and the sorted timestamps. *)
Definition prepare (data : list partitionVisualizationData) : list (list element) * list Z :=
  let els := number 0 data in
  let starts := startTimestamps (mjoin els) in
  let allTimestamps := starts ∪ endTimestamps (mjoin els) in
  let tweaked := fmap (tweak starts (nextTs (sorted allTimestamps))) <$> els in
  (tweaked, sorted (allTimestamps ∪ endTimestamps (mjoin tweaked))).

(** What the scan needs of an element. *)
Record box := mkBox { b_start : Z; b_end : Z; b_width : Z; b_gid : Z }.

Definition box_of (el : element) : box :=
  mkBox (el_Start el) (el_End el) (measure (el_Description el) + 2 * BOX_TEXT_PADDING) (el_Gid el).

Definition byEnd (els : list element) : list box := sort_by b_end (box_of <$> els).

(** ** Linearizations *)

(** A linearization with the ids of the events instead of their indices. *)
Definition globalized (els : list element) (lin : list Z) : option (list Z) :=
  mapM (λ index, el ← slice_get els index; Some (el_Gid el)) lin.

(** The least end of an element that is not in [lin]; [None] is [Infinity]. *)
Definition minEnd (els : list element) (lin : list Z) : option Z :=
  foldr (λ '(i, el) m, if decide (i ∈ lin) then m else
           Some match m with Some e => el_End el `min` e | None => el_End el end)
    None (imap (λ i el, (Z.of_nat i, el)) els).

(** The indices of the elements that may come next. *)
Definition illegal_next (els : list element) (lin : list Z) : list Z :=
  match minEnd els lin with
  | None => []
  | Some m =>
      omap (λ '(i, el), if decide (i ∈ lin) then None else if el_Start el <? m then Some i else None)
        (imap (λ i el, (Z.of_nat i, el)) els)
  end.

(** [allLinearizations] with, for each, the events for which it is in
    [eventIllegalLast]. *)
Definition partition_lins (els : list element) (lins : list (list Z)) : option (list (list Z * list Z)) :=
  mapM (λ lin, g ← globalized els lin; b ← globalized els (illegal_next els lin); Some (g, b)) lins.

Definition linearizations (els : list (list element)) (data : list partitionVisualizationData)
    : option (list (list Z * list Z)) :=
  mjoin <$> mapM (λ '(els, v), partition_lins els (indices <$> PartialLinearizations v)) (zip els data).

(** ** The scan *)

Section scan.
Context (byGid : list element) (lins : list (list Z * list Z)).
Implicit Types (xPos : gmap Z Z) (pts : list num) (lps : list (list num)) (pos : num) (ev : box).

Definition eventToLinearizations (gid : Z) : list (nat * Z) :=
  mjoin (imap (λ index '(lin, _),
    (λ p, (index, Z.of_nat p)) <$> filter (λ p, lin !! p = Some gid) (seq 0 (length lin))) lins).

Definition eventIllegalLast (gid : Z) : list nat :=
  mjoin (imap (λ index '(_, illegal), if decide (gid ∈ illegal) then [index] else []) lins).

(** One iteration of the loop that determines past points. *)
Definition push_point xPos (lin : list Z) pts : option (list num) :=
  nextGid ← lin !! length pts;
  el ← slice_get byGid nextGid;
  let here := xPos !! el_Start el in
  Some (pts ++ [match list.last pts with None => here | Some prev => max_ here (add prev (Some EPSILON)) end]).

Fixpoint push_points (k : nat) xPos (lin : list Z) pts : option (list num) :=
  match k with
  | O => Some pts
  | S k => pts ← push_point xPos lin pts; push_points k xPos lin pts
  end.

(** The function given to [forEach]; [li] is [{index, position}]. *)
Definition fit_point xPos (st : num * list (list num)) (li : nat * Z) : option (num * list (list num)) :=
  let '(pos, lps) := st in
  let '(index, position) := li in
  '(lin, _) ← lins !! index;
  pts ← lps !! index;
  pts ← push_points (Z.to_nat (position + 1 - len pts)) xPos lin pts;
  Some (max_ pos (mjoin (slice_get pts position)), <[index := pts]> lps).

Definition illegal_points (gid : Z) : option (list (nat * Z)) :=
  mapM (λ index, '(lin, _) ← lins !! index; Some (index, len lin - 1)) (eventIllegalLast gid).

Definition fit_next (st : num * list (list num)) (index : nat) : option (num * list (list num)) :=
  let '(pos, lps) := st in
  pts ← lps !! index;
  Some (max_ pos (add (mjoin (list.last pts)) (Some EPSILON)), lps).

(** The body of the [while] loop. *)
Definition place_event xPos ev (st : num * list (list num)) : option (num * list (list num)) :=
  let '(pos, lps) := st in
  let pos := max_ pos (add (xPos !! b_start ev) (Some (b_width ev))) in
  more ← illegal_points (b_gid ev);
  st ← foldM (fit_point xPos) (pos, lps) (eventToLinearizations (b_gid ev) ++ more);
  foldM fit_next st (eventIllegalLast (b_gid ev)).

Fixpoint place_ends xPos (ts : Z) (evs : list box) (st : num * list (list num))
    : option (list box * (num * list (list num))) :=
  match evs with
  | [] => Some ([], st)
  | ev :: evs' =>
      if b_end ev <=? ts then st ← place_event xPos ev st; place_ends xPos ts evs' st
      else Some (evs, st)
  end.

(** The loop over [sortedTimestamps] after [prev]; assigning [NaN] leaves the position
    undefined. *)
Fixpoint scan (prev : Z) (tss : list Z) (evs : list box) xPos lps : option (gmap Z Z * list (list num)) :=
  match tss with
  | [] => Some (xPos, lps)
  | ts :: tss =>
      '(evs, (pos, lps)) ← place_ends xPos ts evs (add (xPos !! prev) (Some BOX_GAP), lps);
      scan ts tss evs (partial_alter (λ _, pos) ts xPos) lps
  end.
End scan.

(** [xPos] and [linearizationPositions]; without timestamps nothing is placed. *)
Definition layout (data : list partitionVisualizationData) : option (gmap Z Z * list (list num)) :=
  let '(els, sortedTimestamps) := prepare data in
  lins ← linearizations els data;
  match sortedTimestamps with
  | [] => Some (∅, replicate (length lins) [])
  | t0 :: tss => scan (mjoin els) lins t0 tss (byEnd (mjoin els)) {[t0 := 0]} (replicate (length lins) [])
  end.

(** ** The points of a linearization *)

(** The positions of the points when timestamps are mapped by [f]: each as far left as
    its box and the previous point allow. *)
Fixpoint points (f : Z → Z) (prev : option Z) (starts : list Z) : list Z :=
  match starts with
  | [] => []
  | s :: starts =>
      let v := match prev with None => f s | Some p => f s `max` (p + EPSILON) end in
      v :: points f (Some v) starts
  end.

Lemma points_length f prev l : length (points f prev l) = length l.
Proof. revert prev. induction l as [|s l IH]; intros prev; simpl; [done|]. by rewrite IH. Qed.

Lemma points_take f prev l m : points f prev (take m l) = take m (points f prev l).
Proof.
  revert prev m. induction l as [|s l IH]; intros prev [|m]; simpl; [done..|]. by rewrite IH.
Qed.

Lemma points_ext f g prev l : (∀ s, s ∈ l → f s = g s) → points f prev l = points g prev l.
Proof.
  revert prev. induction l as [|s l IH]; intros prev H; simpl; [done|].
  rewrite (H s) by set_solver. f_equal. apply IH. set_solver.
Qed.

Lemma points_step f prev l j s :
  l !! j = Some s →
  points f prev l !! j = Some match (if j is S i then points f prev l !! i else prev) with
                              | None => f s | Some p => f s `max` (p + EPSILON) end.
Proof.
  revert prev j. induction l as [|s0 l IH]; intros prev [|j] Hj; simplify_eq/=; [done|].
  rewrite (IH _ _ Hj). destruct j; done.
Qed.

(** ** What the scan computes *)

Section solve.
Context (byGid : list element) (lins : list (list Z * list Z)).
Implicit Types (xPos : gmap Z Z) (pts : list num) (lps : list (list num)) (ev : box) (f : Z → Z).

Definition start_of (g : Z) : Z := from_option el_Start 0 (slice_get byGid g).
Definition xat xPos (t : Z) : Z := default 0 (xPos !! t).
Definition starts_of (lin : list Z) : list Z := start_of <$> lin.
Definition points_of f (lin : list Z) : list Z := points f None (starts_of lin).

(** [pts] are the first points of [lin], and the events they belong to have started. *)
Definition placed xPos (lin : list Z) pts : Prop :=
  (length pts ≤ length lin)%nat ∧ pts = Some <$> take (length pts) (points_of (xat xPos) lin) ∧
  ∀ g, g ∈ take (length pts) lin → is_Some (xPos !! start_of g).

Definition all_placed xPos lps : Prop := Forall2 (λ l pts, placed xPos l.1 pts) lins lps.

Section known.
(** Linearizations consist of known events. *)
Context (Hknown : ∀ index lin ill g, lins !! index = Some (lin, ill) → g ∈ lin → is_Some (slice_get byGid g)).

Lemma push_point_spec index lin ill xPos pts g :
  lins !! index = Some (lin, ill) → placed xPos lin pts → lin !! length pts = Some g → is_Some (xPos !! start_of g) →
  ∃ pts', push_point byGid xPos lin pts = Some pts' ∧ length pts' = S (length pts) ∧ placed xPos lin pts'.
Proof.
  intros Hl (Hlen & Hp & Hs) Hg [x Hx]. unfold push_point. rewrite Hg. cbn [mbind option_bind].
  destruct (Hknown index lin ill g Hl) as [el Hel]; [by eapply list_elem_of_lookup_2|]. rewrite Hel. cbn [mbind option_bind].
  assert (start_of g = el_Start el) as Hst by (unfold start_of; by rewrite Hel). rewrite <-Hst, Hx.
  eexists. split; [done|]. rewrite length_app. simpl. rewrite Nat.add_1_r. split; [done|].
  split; [rewrite length_app; simpl; apply lookup_lt_Some in Hg; lia|].
  assert (starts_of lin !! length pts = Some (start_of g)) as Hsg by (unfold starts_of; by rewrite list_lookup_fmap, Hg).
  pose proof (points_step (xat xPos) None _ _ _ Hsg) as Hstep. fold (points_of (xat xPos) lin) in Hstep.
  rewrite length_app. simpl. rewrite Nat.add_1_r. split.
  - rewrite (take_S_r _ _ _ Hstep), fmap_app, <-Hp. do 2 f_equal. simpl. f_equal.
    assert (xat xPos (start_of g) = x) as -> by (unfold xat; by rewrite Hx).
    destruct (length pts) as [|m] eqn:Hm; [by destruct pts|]. rewrite last_lookup, Hm. simpl.
    assert (pts !! m = Some <$> points_of (xat xPos) lin !! m) as ->.
    { rewrite Hp at 1. rewrite list_lookup_fmap, lookup_take_lt; [done|lia]. }
    destruct (points_of (xat xPos) lin !! m) as [v|] eqn:Hv; [done|].
    apply lookup_ge_None in Hv. unfold points_of, starts_of in Hv. rewrite points_length, length_fmap in Hv.
    apply lookup_lt_Some in Hg. lia.
  - rewrite (take_S_r _ _ _ Hg). intros g' [?| ->%list_elem_of_singleton]%elem_of_app; [by apply Hs|by eexists].
Qed.

Lemma push_points_spec index lin ill xPos k pts :
  lins !! index = Some (lin, ill) → placed xPos lin pts → (length pts + k ≤ length lin)%nat →
  (∀ g, g ∈ take (length pts + k) lin → is_Some (xPos !! start_of g)) →
  ∃ pts', push_points byGid k xPos lin pts = Some pts' ∧ length pts' = (length pts + k)%nat ∧ placed xPos lin pts'.
Proof.
  intros Hl. revert pts. induction k as [|k IH]; intros pts Hp Hk Hs; simpl.
  { exists pts. by rewrite Nat.add_0_r. }
  destruct (lookup_lt_is_Some_2 lin (length pts)) as [g Hg]; [lia|].
  destruct (push_point_spec index lin ill xPos pts g Hl Hp Hg) as (pts1 & -> & H1 & Hp1).
  { apply Hs. apply list_elem_of_lookup. exists (length pts). by rewrite lookup_take_lt by lia. }
  cbn [mbind option_bind]. destruct (IH pts1 Hp1) as (pts2 & -> & H2 & Hp2); [lia| |].
  - intros g'. rewrite H1, Nat.add_succ_comm. apply Hs.
  - exists pts2. split_and!; [done|lia|done].
Qed.
(** [y] is the greatest of [x] and the numbers in [P]. *)
Definition is_max (x : Z) (P : Z → Prop) (y : Z) : Prop := x ≤ y ∧ (∀ v, P v → v ≤ y) ∧ (y = x ∨ P y).

Lemma is_max_refl x : is_max x (λ _, False) x.
Proof. unfold is_max. naive_solver lia. Qed.

Lemma is_max_one x v : is_max x (λ w, w = v) (x `max` v).
Proof. unfold is_max. split_and!; [lia|intros; lia|lia]. Qed.

Lemma is_max_or x P y Q z : is_max x P y → is_max y Q z → is_max x (λ v, P v ∨ Q v) z.
Proof. intros (? & HP & Hy) (? & HQ & Hz). split_and!; [lia|intros v [?%HP|?%HQ]; lia|naive_solver]. Qed.

Lemma is_max_iff x P Q y : (∀ v, P v ↔ Q v) → is_max x P y → is_max x Q y.
Proof. intros E (? & HP & Hy). split_and!; [done|intros v ?%E; eauto|naive_solver]. Qed.

(** The point [li] asks for. *)
Definition point_at f (li : nat * Z) (v : Z) : Prop :=
  ∃ lin ill, lins !! li.1 = Some (lin, ill) ∧ slice_get (points_of f lin) li.2 = Some v.

(** The point exists, and the events up to it have started. *)
Definition reachable xPos (li : nat * Z) : Prop :=
  ∃ lin ill, lins !! li.1 = Some (lin, ill) ∧ 0 ≤ li.2 < len lin ∧
    ∀ g, g ∈ take (Z.to_nat (li.2 + 1)) lin → is_Some (xPos !! start_of g).

Definition grown lps lps' : Prop :=
  ∀ i pts, lps !! i = Some pts → ∃ pts', lps' !! i = Some pts' ∧ (length pts ≤ length pts')%nat.

Lemma placed_get xPos lin pts p :
  placed xPos lin pts → 0 ≤ p < len pts →
  ∃ v, slice_get pts p = Some (Some v) ∧ slice_get (points_of (xat xPos) lin) p = Some v.
Proof.
  intros (Hl & Hp & _) Hr. destruct (proj2 (slice_get_is_Some pts p) Hr) as [o Ho].
  apply slice_get_Some in Ho as [H0 Ho]. pose proof Ho as Hlt%lookup_lt_Some.
  rewrite Hp, list_lookup_fmap, lookup_take_lt in Ho by done. apply fmap_Some in Ho as (v & Hv & ->).
  exists v. split; apply slice_get_Some; (split; [done|]); [|done].
  by rewrite Hp, list_lookup_fmap, lookup_take_lt, Hv by done.
Qed.

Lemma fit_point_spec xPos li x lps :
  reachable xPos li → all_placed xPos lps →
  ∃ v lps', point_at (xat xPos) li v ∧ fit_point byGid lins xPos (Some x, lps) li = Some (Some (x `max` v), lps') ∧
    all_placed xPos lps' ∧ grown lps lps' ∧ ∃ pts, lps' !! li.1 = Some pts ∧ li.2 < len pts.
Proof.
  destruct li as [index p]. intros (lin & ill & Hl & Hp & Hs) HA. simpl in *.
  destruct (Forall2_lookup_l _ _ _ _ _ HA Hl) as (pts & Hpts & Hpl). simpl in Hpl.
  unfold fit_point. rewrite Hl. cbn [mbind option_bind]. rewrite Hpts. cbn [mbind option_bind].
  pose proof (proj1 Hpl) as Hle. unfold len in *.
  destruct (push_points_spec index lin ill xPos (Z.to_nat (p + 1 - Z.of_nat (length pts))) pts Hl Hpl)
    as (pts' & -> & Hl' & Hpl'); [lia| |].
  { intros g Hg. destruct (decide (p + 1 ≤ Z.of_nat (length pts))).
    - apply (proj2 (proj2 Hpl)). replace (length pts + _)%nat with (length pts) in Hg by lia. done.
    - apply Hs. replace (Z.to_nat (p + 1)) with (length pts + Z.to_nat (p + 1 - Z.of_nat (length pts)))%nat by lia. done. }
  cbn [mbind option_bind]. destruct (placed_get xPos lin pts' p Hpl') as (v & Hv & Hv'); [unfold len; lia|].
  rewrite Hv. simpl. exists v, (<[index := pts']> lps). split_and!.
  - by exists lin, ill.
  - done.
  - apply Forall2_lookup. intros i. pose proof (proj1 (Forall2_lookup _ _ _) HA i) as Hi.
    destruct (decide (i = index)) as [->|]; [|by rewrite list_lookup_insert_ne].
    rewrite Hl, list_lookup_insert_eq by (by eapply lookup_lt_Some). by constructor.
  - intros i q Hi. destruct (decide (i = index)) as [->|]; [|rewrite list_lookup_insert_ne by done; eauto].
    rewrite list_lookup_insert_eq by (by eapply lookup_lt_Some). exists pts'. split; [done|]. simplify_eq. lia.
  - exists pts'. rewrite list_lookup_insert_eq by (by eapply lookup_lt_Some). split; [done|lia].
Qed.

Lemma grown_trans lps1 lps2 lps3 : grown lps1 lps2 → grown lps2 lps3 → grown lps1 lps3.
Proof. intros H1 H2 i pts Hi. destruct (H1 i pts Hi) as (p1 & E1 & ?). destruct (H2 i p1 E1) as (p2 & ? & ?). exists p2. split; [done|lia]. Qed.

Lemma fit_points_spec xPos l x lps :
  Forall (reachable xPos) l → all_placed xPos lps →
  ∃ y lps', foldM (fit_point byGid lins xPos) (Some x, lps) l = Some (Some y, lps') ∧
    is_max x (λ v, ∃ li, li ∈ l ∧ point_at (xat xPos) li v) y ∧ all_placed xPos lps' ∧ grown lps lps' ∧
    ∀ li, li ∈ l → ∃ pts, lps' !! li.1 = Some pts ∧ li.2 < len pts.
Proof.
  intros HF. revert x lps. induction HF as [|li l Hli HF IH]; intros x lps HA.
  { exists x, lps. split_and!; [done| |done|intros i pts ?; eauto|intros li Hin; by apply not_elem_of_nil in Hin].
    eapply is_max_iff; [|apply is_max_refl]. intros v. split; [done|]. by intros (li & ?%not_elem_of_nil & _). }
  destruct (fit_point_spec xPos li x lps Hli HA) as (v & lps1 & Hv & E1 & HA1 & Hg1 & pts1 & Hp1 & Hlt1).
  destruct (IH (x `max` v) lps1 HA1) as (y & lps2 & E2 & Hy & HA2 & Hg2 & Hd2).
  exists y, lps2. split_and!; [|eapply is_max_iff; [|eapply is_max_or; [apply is_max_one|exact Hy]]|done|by eapply grown_trans|].
  - cbn [foldM]. rewrite E1. exact E2.
  - intros w. split.
    + intros [->|(li' & ? & ?)]; [exists li|exists li']; (split; [set_solver|done]).
    + intros (li' & [->|?]%elem_of_cons & Hw); [left|right; eauto]. destruct Hv as (? & ? & H1 & H2).
      destruct Hw as (? & ? & H3 & H4). simplify_eq. done.
  - intros li' [->|Hin]%elem_of_cons; [|by apply Hd2]. destruct (Hg2 _ _ Hp1) as (pts2 & ? & Hle).
    exists pts2. split; [done|]. unfold len in *. lia.
Qed.
Lemma uses_elem g index p :
  (index, p) ∈ eventToLinearizations lins g ↔
  ∃ lin ill n, lins !! index = Some (lin, ill) ∧ lin !! n = Some g ∧ p = Z.of_nat n.
Proof.
  unfold eventToLinearizations. rewrite list_elem_of_join. split.
  - intros (l & Hin & (i & [lin ill] & -> & Hl)%elem_of_lookup_imap).
    apply list_elem_of_fmap in Hin as (n & [= -> ->] & [Hn _]%list_elem_of_filter). eauto 6.
  - intros (lin & ill & n & Hl & Hn & ->). eexists. split; [|apply elem_of_lookup_imap; by exists index, (lin, ill)].
    simpl. apply list_elem_of_fmap. exists n. split; [done|]. apply list_elem_of_filter. split; [done|].
    apply elem_of_seq. apply lookup_lt_Some in Hn. lia.
Qed.

Lemma illegal_elem g index :
  index ∈ eventIllegalLast lins g ↔ ∃ lin ill, lins !! index = Some (lin, ill) ∧ g ∈ ill.
Proof.
  unfold eventIllegalLast. rewrite list_elem_of_join. split.
  - intros (l & Hin & (i & [lin ill] & -> & Hl)%elem_of_lookup_imap). case_decide; [|by apply not_elem_of_nil in Hin].
    apply list_elem_of_singleton in Hin as ->. eauto.
  - intros (lin & ill & Hl & Hg). eexists. split; [|apply elem_of_lookup_imap; by exists index, (lin, ill)].
    simpl. rewrite decide_True by done. by apply list_elem_of_singleton.
Qed.

(** What an event that ends at a timestamp demands of its position. *)
Definition need f ev (v : Z) : Prop :=
  v = f (b_start ev) + b_width ev ∨
  (∃ index lin ill p, lins !! index = Some (lin, ill) ∧ lin !! p = Some (b_gid ev) ∧ points_of f lin !! p = Some v) ∨
  (∃ index lin ill w, lins !! index = Some (lin, ill) ∧ b_gid ev ∈ ill ∧ list.last (points_of f lin) = Some w ∧
     (v = w ∨ v = w + EPSILON)).

(** What an event waits for: its own start and those of the events whose points it may
    push satisfy [P]. *)
Record waits (P : Z → Prop) ev : Prop := {
  wt_start : P (b_start ev);
  wt_uses : ∀ index lin ill p g, lins !! index = Some (lin, ill) → lin !! p = Some (b_gid ev) →
    g ∈ take (S p) lin → P (start_of g);
  wt_illegal : ∀ index lin ill, lins !! index = Some (lin, ill) → b_gid ev ∈ ill →
    lin ≠ [] ∧ ∀ g, g ∈ lin → P (start_of g)
}.

Lemma waits_mono (P Q : Z → Prop) ev : (∀ t, P t → Q t) → waits P ev → waits Q ev.
Proof. intros H [? ? Hi]. split; [eauto..|]. intros index lin ill Hl Hg. destruct (Hi index lin ill Hl Hg). eauto. Qed.

(** All of them are placed. *)
Definition ready xPos : box → Prop := waits (λ t, is_Some (xPos !! t)).

Lemma illegal_points_spec g :
  ∃ more, illegal_points lins g = Some more ∧
    ∀ li, li ∈ more ↔ ∃ lin ill, lins !! li.1 = Some (lin, ill) ∧ g ∈ ill ∧ li.2 = len lin - 1.
Proof.
  unfold illegal_points.
  assert (∀ l, (∀ i, i ∈ l → is_Some (lins !! i)) → ∃ more,
    mapM (λ index, '(lin, _) ← lins !! index; Some (index, len lin - 1)) l = Some more ∧
    ∀ li, li ∈ more ↔ ∃ lin ill, lins !! li.1 = Some (lin, ill) ∧ li.1 ∈ l ∧ li.2 = len lin - 1) as H.
  { induction l as [|i l IH]; intros Hl; [exists []; split; [done|]; intros li; split; [intros ?%not_elem_of_nil; done|]; by intros (? & ? & _ & ?%not_elem_of_nil & _)|].
    destruct (Hl i) as [[lin ill] Hi]; [set_solver|]. destruct IH as (more & E & Hm); [set_solver|].
    exists ((i, len lin - 1) :: more). split; [simpl; rewrite Hi; simpl; by rewrite E|].
    intros [j q]. rewrite elem_of_cons, Hm. simpl. split.
    - intros [[= -> ->]|(lin' & ill' & ? & ? & ?)]; [exists lin, ill|exists lin', ill']; (split_and!; [done|set_solver|done]).
    - intros (lin' & ill' & Hj & [->|?]%elem_of_cons & ->); [left; by simplify_eq|right; eauto 6]. }
  destruct (H (eventIllegalLast lins g)) as (more & E & Hm).
  { intros i (lin & ill & ? & _)%illegal_elem. eauto. }
  exists more. split; [done|]. intros li. rewrite Hm. split.
  - intros (lin & ill & Hl & (lin' & ill' & ? & ?)%illegal_elem & ?). simplify_eq. eauto.
  - intros (lin & ill & Hl & Hg & ?). exists lin, ill. split_and!; [done| |done]. apply illegal_elem. eauto.
Qed.

Lemma fit_nexts_spec xPos l x lps :
  all_placed xPos lps →
  (∀ index, index ∈ l → ∃ lin ill pts, lins !! index = Some (lin, ill) ∧ lps !! index = Some pts ∧
     lin ≠ [] ∧ length pts = length lin) →
  ∃ y, foldM fit_next (Some x, lps) l = Some (Some y, lps) ∧
    is_max x (λ v, ∃ index lin ill w, index ∈ l ∧ lins !! index = Some (lin, ill) ∧
      list.last (points_of (xat xPos) lin) = Some w ∧ v = w + EPSILON) y.
Proof.
  intros HA. revert x. induction l as [|i l IH]; intros x Hl.
  { exists x. split; [done|]. eapply is_max_iff; [|apply is_max_refl]. intros v. split; [done|].
    by intros (? & ? & ? & ? & ?%not_elem_of_nil & _). }
  destruct (Hl i) as (lin & ill & pts & Hi & Hp & Hne & Hlen); [set_solver|].
  pose proof (Forall2_lookup_lr _ _ _ _ _ _ HA Hi Hp) as (_ & Hpts & _). simpl in Hpts.
  assert (length (points_of (xat xPos) lin) = length lin) as Hpl
    by (unfold points_of, starts_of; by rewrite points_length, length_fmap).
  assert (∃ w, list.last (points_of (xat xPos) lin) = Some w) as [w Hw].
  { rewrite last_lookup, Hpl. apply lookup_lt_is_Some_2. rewrite Hpl. destruct lin; [done|simpl; lia]. }
  assert (list.last pts = Some (Some w)) as Hlast.
  { rewrite Hpts, Hlen, take_ge by lia. by rewrite fmap_last, Hw. }
  destruct (IH (x `max` (w + EPSILON))) as (y & E & Hy); [intros j ?; apply Hl; set_solver|].
  exists y. split.
  - cbn [foldM fit_next]. rewrite Hp. cbn [mbind option_bind]. rewrite Hlast. exact E.
  - eapply is_max_iff; [|eapply is_max_or; [apply is_max_one|exact Hy]]. intros v. split.
    + intros [->|(j & lin' & ill' & w' & ? & ? & ? & ?)]; [exists i, lin, ill, w|exists j, lin', ill', w'];
        (split_and!; [set_solver|done..]).
    + intros (j & lin' & ill' & w' & [->|?]%elem_of_cons & ? & ? & ->); [left; congruence|right; eauto 10].
Qed.

(** The demands in the order in which [place_event] looks at them. *)
Lemma need_split xPos ev more s v :
  xPos !! b_start ev = Some s → ready xPos ev →
  (∀ li, li ∈ more ↔ ∃ lin ill, lins !! li.1 = Some (lin, ill) ∧ b_gid ev ∈ ill ∧ li.2 = len lin - 1) →
  ((v = s + b_width ev ∨ ∃ li, li ∈ eventToLinearizations lins (b_gid ev) ++ more ∧ point_at (xat xPos) li v) ∨
   ∃ index lin ill w, index ∈ eventIllegalLast lins (b_gid ev) ∧ lins !! index = Some (lin, ill) ∧
     list.last (points_of (xat xPos) lin) = Some w ∧ v = w + EPSILON) ↔ need (xat xPos) ev v.
Proof.
  intros Hs [_ _ Hi] Hm. unfold need. assert (xat xPos (b_start ev) = s) as -> by (unfold xat; by rewrite Hs). split.
  - intros [[->|(li & [Hin|Hin]%elem_of_app & lin & ill & Hl & Hv)]|(index & lin & ill & w & (lin' & ill' & ? & Hg)%illegal_elem & Hl & Hw & ->)].
    + by left.
    + destruct li as [index p]. apply uses_elem in Hin as (lin' & ill' & n & Hl' & Hn & ->). simpl in *.
      rewrite Hl' in Hl. injection Hl as -> ->. right. left. exists index, lin, ill, n. split_and!; [done..|]. apply slice_get_Some in Hv as [_ Hv]. by rewrite Nat2Z.id in Hv.
    + apply Hm in Hin as (lin' & ill' & Hl' & Hg & Hp). pose proof Hl' as Hl2. rewrite Hl in Hl2. injection Hl2 as -> ->. right. right.
      exists li.1, lin', ill', v. split_and!; [done..| |by left]. rewrite last_lookup. unfold points_of, starts_of.
      rewrite points_length, length_fmap. apply slice_get_Some in Hv as [? Hv]. rewrite Hp in Hv. unfold len in Hv.
      by replace (Z.to_nat (Z.of_nat (length lin') - 1)) with (pred (length lin')) in Hv by lia.
    + right. right. exists index, lin, ill, w. split_and!; [done|congruence|done|by right].
  - intros [->|[(index & lin & ill & p & Hl & Hp & Hv)|(index & lin & ill & w & Hl & Hg & Hw & [->| ->])]].
    + left. by left.
    + left. right. exists (index, Z.of_nat p). split; [apply elem_of_app; left; apply uses_elem; eauto 8|].
      exists lin, ill. split; [done|]. simpl. apply slice_get_Some. split; [lia|]. by rewrite Nat2Z.id.
    + left. right. exists (index, len lin - 1). split; [apply elem_of_app; right; apply Hm; eauto|].
      exists lin, ill. split; [done|]. simpl. rewrite last_lookup in Hw. unfold points_of, starts_of in Hw.
      rewrite points_length, length_fmap in Hw. destruct (Hi _ _ _ Hl Hg) as [Hne _]. unfold len.
      assert (0 < length lin)%nat by (destruct lin; [done|simpl; lia]). apply slice_get_Some. split; [lia|].
      by replace (Z.to_nat (Z.of_nat (length lin) - 1)) with (pred (length lin)) by lia.
    + right. exists index, lin, ill, w. split_and!; [apply illegal_elem; eauto|done..].
Qed.

Lemma place_event_spec xPos ev x lps :
  ready xPos ev → all_placed xPos lps →
  ∃ y lps', place_event byGid lins xPos ev (Some x, lps) = Some (Some y, lps') ∧
    is_max x (need (xat xPos) ev) y ∧ all_placed xPos lps' ∧ grown lps lps' ∧
    (∀ index lin ill p, lins !! index = Some (lin, ill) → lin !! p = Some (b_gid ev) →
       ∃ pts, lps' !! index = Some pts ∧ (p < length pts)%nat).
Proof.
  intros [[s Hs] Hu Hi] HA. unfold place_event. rewrite Hs.
  destruct (illegal_points_spec (b_gid ev)) as (more & -> & Hm). cbn [mbind option_bind].
  change (max_ _ (add _ _)) with (Some (x `max` (s + b_width ev))).
  destruct (fit_points_spec xPos (eventToLinearizations lins (b_gid ev) ++ more) (x `max` (s + b_width ev)) lps)
    as (y1 & lps1 & E1 & Hy1 & HA1 & Hg1 & Hd1); [|done|].
  { apply Forall_app. split; apply list.Forall_forall.
    - intros [index p] (lin & ill & n & Hl & Hn & ->)%uses_elem. exists lin, ill. simpl. split; [done|].
      pose proof (lookup_lt_Some _ _ _ Hn). unfold len. split; [lia|]. intros g Hg. eapply Hu; [done..|].
      by replace (Z.to_nat (Z.of_nat n + 1)) with (S n) in Hg by lia.
    - intros li (lin & ill & Hl & Hg & Hp)%Hm. exists lin, ill. destruct (Hi _ _ _ Hl Hg) as [Hne Hst].
      unfold len in *. split; [done|]. assert (0 < length lin)%nat by (destruct lin; [done|simpl; lia]). split; [lia|].
      intros g' Hg'. apply Hst. by apply elem_of_take in Hg' as (? & ? & _); eapply list_elem_of_lookup_2. }
  rewrite E1. cbn [mbind option_bind].
  destruct (fit_nexts_spec xPos (eventIllegalLast lins (b_gid ev)) y1 lps1 HA1) as (y2 & E2 & Hy2).
  { intros index (lin & ill & Hl & Hg)%illegal_elem. destruct (Hi _ _ _ Hl Hg) as [Hne _].
    destruct (Forall2_lookup_l _ _ _ _ _ HA1 Hl) as (pts & Hpts & Hle & _). simpl in Hle.
    destruct (Hd1 (index, len lin - 1)) as (pts' & Hp' & Hlt); [apply elem_of_app; right; apply Hm; eauto|].
    simpl in *. simplify_eq. exists lin, ill, pts. unfold len in Hlt. split_and!; [done..|lia]. }
  exists y2, lps1. split_and!; [done| |done|done|].
  - eapply is_max_iff; [|eapply is_max_or; [eapply is_max_or; [apply is_max_one|exact Hy1]|exact Hy2]]. intros v.
    apply (need_split xPos ev more s); [done|by split; [eexists|..]|done].
  - intros index lin ill p Hl Hp. destruct (Hd1 (index, Z.of_nat p)) as (pts & ? & Hlt).
    { apply elem_of_app. left. apply uses_elem. eauto 8. }
    exists pts. simpl in *. unfold len in Hlt. split; [done|lia].
Qed.
Lemma place_ends_spec xPos ts now rest x lps :
  Forall (λ ev, b_end ev ≤ ts ∧ ready xPos ev) now → Forall (λ ev, ts < b_end ev) rest → all_placed xPos lps →
  ∃ y lps', place_ends byGid lins xPos ts (now ++ rest) (Some x, lps) = Some (rest, (Some y, lps')) ∧
    is_max x (λ v, ∃ ev, ev ∈ now ∧ need (xat xPos) ev v) y ∧ all_placed xPos lps' ∧ grown lps lps' ∧
    (∀ ev index lin ill p, ev ∈ now → lins !! index = Some (lin, ill) → lin !! p = Some (b_gid ev) →
       ∃ pts, lps' !! index = Some pts ∧ (p < length pts)%nat).
Proof.
  intros Hnow Hrest. revert x lps. induction Hnow as [|ev now [He Hr] Hnow IH]; intros x lps HA.
  { exists x, lps. split_and!; [| |done|intros i pts ?; eauto|by intros ev ? ? ? ? ?%not_elem_of_nil].
    - destruct Hrest as [|ev rest Hev _]; simpl; [done|]. by rewrite (proj2 (Z.leb_gt _ _)).
    - eapply is_max_iff; [|apply is_max_refl]. intros v. split; [done|]. by intros (? & ?%not_elem_of_nil & _). }
  destruct (place_event_spec xPos ev x lps Hr HA) as (y1 & lps1 & E1 & Hy1 & HA1 & Hg1 & Hd1).
  destruct (IH y1 lps1 HA1) as (y & lps2 & E2 & Hy & HA2 & Hg2 & Hd2). exists y, lps2. split_and!.
  - cbn [app place_ends]. rewrite (proj2 (Z.leb_le _ _)) by done. rewrite E1. exact E2.
  - eapply is_max_iff; [|eapply is_max_or; [exact Hy1|exact Hy]]. intros v. split.
    + intros [?|(ev' & ? & ?)]; [exists ev|exists ev']; (split; [set_solver|done]).
    + intros (ev' & [->|?]%elem_of_cons & ?); [by left|right; eauto].
  - done.
  - by eapply grown_trans.
  - intros ev' index lin ill p [->|Hin]%elem_of_cons Hl Hp; [|by eapply Hd2].
    destruct (Hd1 index lin ill p Hl Hp) as (pts & Hpts & Hlt). destruct (Hg2 _ _ Hpts) as (pts' & ? & ?).
    exists pts'. split; [done|lia].
Qed.

(** The positions on which [xPos] is defined are kept. *)
Definition kept xPos xPos' : Prop := ∀ t x, xPos !! t = Some x → xPos' !! t = Some x.

Lemma kept_xat xPos xPos' t : kept xPos xPos' → is_Some (xPos !! t) → xat xPos' t = xat xPos t.
Proof. intros H [x Hx]. unfold xat. by rewrite Hx, (H t x Hx). Qed.

Lemma points_of_take f lin m : take m (points_of f lin) = points f None (starts_of (take m lin)).
Proof. unfold points_of, starts_of. by rewrite fmap_take, points_take. Qed.

Lemma points_of_ext f g lin : (∀ x, x ∈ lin → f (start_of x) = g (start_of x)) → points_of f lin = points_of g lin.
Proof. intros H. apply points_ext. unfold starts_of. intros s (x & -> & ?)%list_elem_of_fmap. by apply H. Qed.

Lemma placed_kept xPos xPos' lin pts : kept xPos xPos' → placed xPos lin pts → placed xPos' lin pts.
Proof.
  intros HK (Hl & Hp & Hs). split; [done|]. split.
  - rewrite Hp at 1. f_equal. rewrite !points_of_take. symmetry. apply points_of_ext.
    intros x Hx. apply kept_xat; [done|]. by apply Hs.
  - intros g Hg. destruct (Hs g Hg) as [x Hx]. exists x. by apply HK.
Qed.

Lemma need_ext (P : Z → Prop) ev f g v : waits P ev → (∀ t, P t → f t = g t) → need f ev v → need g ev v.
Proof.
  intros [Hs Hu Hi] E [->|[(index & lin & ill & p & Hl & Hp & Hv)|(index & lin & ill & w & Hl & Hg & Hw & Hv)]].
  - left. by rewrite (E _ Hs).
  - right. left. exists index, lin, ill, p. split_and!; [done..|]. rewrite <-Hv.
    rewrite <-(lookup_take_lt _ (S p) p), <-(lookup_take_lt (points_of f lin) (S p) p), !points_of_take by lia.
    f_equal. symmetry. apply points_of_ext. intros x Hx. apply E. by eapply Hu.
  - right. right. exists index, lin, ill, w. split_and!; [done..| |done]. rewrite <-Hw. f_equal. symmetry.
    apply points_of_ext. intros x Hx. apply E. by apply (Hi index lin ill).
Qed.

(** Every timestamp is as far left as the one before and the events that end at it
    allow. *)
Fixpoint solved f (evs : list box) (prev : Z) (tss : list Z) : Prop :=
  match tss with
  | [] => True
  | ts :: tss =>
      is_max (f prev + BOX_GAP) (λ v, ∃ ev, ev ∈ evs ∧ b_end ev = ts ∧ need f ev v) (f ts) ∧ solved f evs ts tss
  end.

Lemma solved_same f evs evs' prev tss :
  (∀ ev, b_end ev ∈ tss → ev ∈ evs ↔ ev ∈ evs') → solved f evs prev tss → solved f evs' prev tss.
Proof.
  revert prev. induction tss as [|ts tss IH]; intros prev H; simpl; [done|]. intros [HM HS]. split.
  - eapply is_max_iff; [|exact HM]. intros v. split; intros (ev & Hin & <- & Hv); exists ev; (split; [|done]).
    + apply H; [set_solver|done].
    + apply H; [set_solver|done].
  - apply IH; [|done]. intros ev Hev. apply H. set_solver.
Qed.

Lemma split_ends ts evs :
  StronglySorted (λ a b, b_end a ≤ b_end b) evs →
  ∃ now rest, evs = now ++ rest ∧ Forall (λ ev, b_end ev ≤ ts) now ∧ Forall (λ ev, ts < b_end ev) rest ∧
    StronglySorted (λ a b, b_end a ≤ b_end b) rest.
Proof.
  induction 1 as [|ev evs Hs IH Hev]; [exists [], []; by repeat constructor|].
  destruct (decide (b_end ev ≤ ts)).
  - destruct IH as (now & rest & -> & ? & ? & ?). exists (ev :: now), rest. by repeat constructor.
  - exists [], (ev :: evs). split_and!; [done|constructor| |by constructor].
    constructor; [lia|]. eapply list.Forall_impl; [exact Hev|]. simpl. intros. lia.
Qed.

(** Everything an event waits for starts before it ends; [T] are all timestamps. *)
Definition in_time (T : Z → Prop) ev : Prop := waits (λ t, T t ∧ t < b_end ev) ev.

(** Before the iteration for the first of [tss]: all timestamps up to [prev] are placed
    and the remaining events end later. *)
Record scanning (T : Z → Prop) (prev : Z) (tss : list Z) (evs : list box) xPos lps : Prop := {
  sc_sorted : StronglySorted Z.lt (prev :: tss);
  sc_all : ∀ t, T t → t ≤ prev ∨ t ∈ tss;
  sc_defined : ∀ t, T t → t ≤ prev → is_Some (xPos !! t);
  sc_past : ∀ t, is_Some (xPos !! t) → t ≤ prev;
  sc_prev : is_Some (xPos !! prev);
  sc_evs : StronglySorted (λ a b, b_end a ≤ b_end b) evs;
  sc_ends : ∀ ev, ev ∈ evs → b_end ev ∈ tss ∧ in_time T ev;
  sc_points : all_placed xPos lps
}.

(** The points of all linearizations up to those of [evs] are placed. *)
Definition drawn_up_to (evs : list box) lps : Prop :=
  ∀ ev index lin ill p, ev ∈ evs → lins !! index = Some (lin, ill) → lin !! p = Some (b_gid ev) →
    ∃ pts, lps !! index = Some pts ∧ (p < length pts)%nat.

Lemma drawn_grown evs lps lps' : drawn_up_to evs lps → grown lps lps' → drawn_up_to evs lps'.
Proof.
  intros HD HG ev index lin ill p He Hl Hp. destruct (HD ev index lin ill p He Hl Hp) as (pts & Hpts & ?).
  destruct (HG _ _ Hpts) as (pts' & ? & ?). exists pts'. split; [done|lia].
Qed.

Lemma scan_step T prev ts tss evs xPos lps :
  scanning T prev (ts :: tss) evs xPos lps →
  ∃ now rest y lps1, evs = now ++ rest ∧ (∀ ev, ev ∈ now → b_end ev = ts ∧ ready xPos ev) ∧
    place_ends byGid lins xPos ts evs (Some (xat xPos prev + BOX_GAP), lps) = Some (rest, (Some y, lps1)) ∧
    is_max (xat xPos prev + BOX_GAP) (λ v, ∃ ev, ev ∈ now ∧ need (xat xPos) ev v) y ∧
    kept xPos (<[ts := y]> xPos) ∧ scanning T ts tss rest (<[ts := y]> xPos) lps1 ∧
    grown lps lps1 ∧ drawn_up_to now lps1.
Proof.
  intros [Hs HT Hdef Hle _ Hev Hin HA]. apply StronglySorted_inv in Hs as [Hs Hlt]. pose proof (Forall_inv Hlt) as Hpt.
  pose proof (StronglySorted_inv Hs) as [_ Hts]. rewrite list.Forall_forall in Hlt, Hts.
  destruct (split_ends ts evs Hev) as (now & rest & -> & Hnow & Hrest & Hsr).
  assert (Hend : ∀ ev, ev ∈ now → b_end ev = ts).
  { intros ev He. rewrite list.Forall_forall in Hnow. specialize (Hnow ev He).
    destruct (Hin ev) as [[->|Ht%Hts]%elem_of_cons _]; [set_solver|done|lia]. }
  assert (Hready : ∀ ev, ev ∈ now → ready xPos ev).
  { intros ev He. destruct (Hin ev) as [_ Hw]; [set_solver|]. eapply waits_mono; [|exact Hw]. intros t [Ht Hb].
    rewrite (Hend ev He) in Hb. apply Hdef; [done|]. destruct (HT t Ht) as [?|[->|?%Hts]%elem_of_cons]; [done|lia|lia]. }
  destruct (place_ends_spec xPos ts now rest (xat xPos prev + BOX_GAP) lps) as (y & lps1 & E1 & Hy & HA1 & Hg1 & Hd1); [|done|done|].
  { apply list.Forall_forall. intros ev He. split; [rewrite (Hend ev He); lia|by apply Hready]. }
  assert (HK1 : kept xPos (<[ts := y]> xPos)).
  { intros t x Hx. rewrite lookup_insert_ne; [done|]. intros ->. specialize (Hle t (mk_is_Some _ _ Hx)). lia. }
  exists now, rest, y, lps1. split_and!; [done|by eauto|done|done|done| |done|done]. split; [done|..].
  - intros t [?|[->|?]%elem_of_cons]%HT; [left; lia|left; lia|by right].
  - intros t Ht Hb. destruct (decide (ts = t)) as [->|]; [rewrite lookup_insert_eq; by eexists|].
    rewrite lookup_insert_ne by done. apply Hdef; [done|].
    destruct (HT t Ht) as [?|[->|?%Hts]%elem_of_cons]; [done|done|lia].
  - intros t. destruct (decide (ts = t)) as [->|]; [lia|]. rewrite lookup_insert_ne by done. intros ?%Hle. lia.
  - rewrite lookup_insert_eq. by eexists.
  - done.
  - intros ev He. rewrite list.Forall_forall in Hrest. specialize (Hrest ev He).
    destruct (Hin ev) as [[?|?]%elem_of_cons ?]; [set_solver|lia|done].
  - eapply list.Forall2_impl; [exact HA1|]. intros l pts. by apply placed_kept.
Qed.

Lemma scan_spec T tss prev evs xPos lps :
  scanning T prev tss evs xPos lps →
  ∃ xPos' lps', scan byGid lins prev tss evs xPos lps = Some (xPos', lps') ∧ kept xPos xPos' ∧
    (∀ t, t ∈ tss → is_Some (xPos' !! t)) ∧ solved (xat xPos') evs prev tss ∧ all_placed xPos' lps' ∧
    grown lps lps' ∧ drawn_up_to evs lps'.
Proof.
  revert prev evs xPos lps. induction tss as [|ts tss IH]; intros prev evs xPos lps HS.
  { exists xPos, lps. split_and!; [done|by intros t|by intros t ?%not_elem_of_nil|done|apply HS|intros i pts ?; eauto|].
    intros ev ? ? ? ? [?%not_elem_of_nil _]%(sc_ends _ _ _ _ _ _ HS). done. }
  destruct (scan_step _ _ _ _ _ _ _ HS) as (now & rest & y & lps1 & -> & Hnow & E1 & Hy & HK1 & HS1 & Hg1 & Hd1).
  destruct (IH _ _ _ _ HS1) as (xPos2 & lps2 & E2 & HK2 & Hdef2 & Hsol & HA2 & Hg2 & Hd2).
  assert (kept xPos xPos2) as HK by (intros t x ?%HK1; by apply HK2).
  pose proof (sc_ends _ _ _ _ _ _ HS1) as Hrest. pose proof (StronglySorted_inv (sc_sorted _ _ _ _ _ _ HS1)) as [_ Hts].
  rewrite list.Forall_forall in Hts. destruct (sc_prev _ _ _ _ _ _ HS) as [xp Hp].
  exists xPos2, lps2. split_and!; [|done|..].
  - cbn [scan]. rewrite Hp. change (add (Some xp) (Some BOX_GAP)) with (Some (xp + BOX_GAP)).
    unfold xat in E1. rewrite Hp in E1. simpl in E1. rewrite E1. exact E2.
  - intros t [->|?]%elem_of_cons; [|by apply Hdef2]. exists y. apply HK2. apply lookup_insert_eq.
  - assert (xat xPos2 ts = y) as Hx by (unfold xat; by rewrite (HK2 ts y) by apply lookup_insert_eq).
    split; [|eapply solved_same; [|exact Hsol]; intros ev Hev; rewrite elem_of_app; split; [by right|]].
    + rewrite Hx, (kept_xat _ _ _ HK (sc_prev _ _ _ _ _ _ HS)). eapply is_max_iff; [|exact Hy]. intros v. split.
      * intros (ev & He & Hv). destruct (Hnow ev He) as [? Hr]. exists ev. split; [set_solver|]. split; [done|].
        eapply need_ext; [exact Hr| |exact Hv]. intros t Ht. symmetry. by apply kept_xat.
      * intros (ev & [He|[Hin _]%Hrest]%elem_of_app & Hb & Hv); [|specialize (Hts _ Hin); lia].
        exists ev. split; [done|]. eapply need_ext; [by apply Hnow| |exact Hv]. intros t Ht. by apply kept_xat.
    + intros [[Hb _]%Hnow|?]; [|done]. rewrite Hb in Hev. specialize (Hts _ Hev). lia.
  - done.
  - by eapply grown_trans.
  - intros ev index lin ill p [He|He]%elem_of_app; [|by apply Hd2]. by apply (drawn_grown now lps1).
Qed.
End known.

(** ** The program of inequalities *)

(** The events of the linearizations are boxes. *)
Definition boxed (evs : list box) : Prop :=
  (∀ ev, ev ∈ evs → b_start ev = start_of (b_gid ev)) ∧
  ∀ index lin ill g, lins !! index = Some (lin, ill) → g ∈ lin → ∃ ev, ev ∈ evs ∧ b_gid ev = g.

(** [f] places the timestamps [ts], [g index p] the point [p] of a linearization:
    unequal timestamps are some distance apart, texts fit into their boxes, points lie
    in their boxes and some distance apart, and so does a point that would come next. *)
Record feasible (ts : list Z) (evs : list box) f (g : nat → nat → Z) : Prop := {
  fe_nonneg : ∀ t, t ∈ ts → 0 ≤ f t;
  fe_gap : ∀ t t', t ∈ ts → t' ∈ ts → t < t' → f t + BOX_GAP ≤ f t';
  fe_text : ∀ ev, ev ∈ evs → f (b_start ev) + b_width ev ≤ f (b_end ev);
  fe_inside : ∀ ev index lin ill p, ev ∈ evs → lins !! index = Some (lin, ill) → lin !! p = Some (b_gid ev) →
    f (b_start ev) ≤ g index p ≤ f (b_end ev);
  fe_apart : ∀ index lin ill p, lins !! index = Some (lin, ill) → (S p < length lin)%nat →
    g index p + EPSILON ≤ g index (S p);
  fe_next : ∀ ev index lin ill p, ev ∈ evs → lins !! index = Some (lin, ill) → b_gid ev ∈ ill → S p = length lin →
    g index p + EPSILON ≤ f (b_end ev)
}.

(** The points that go with [f]. *)
Definition points_at f (index p : nat) : Z :=
  match lins !! index with Some (lin, _) => default 0 (points_of f lin !! p) | None => 0 end.

Lemma points_at_Some f index lin ill p v :
  lins !! index = Some (lin, ill) → points_of f lin !! p = Some v → points_at f index p = v.
Proof. intros Hl Hp. unfold points_at. by rewrite Hl, Hp. Qed.

Lemma points_of_step f lin p g :
  lin !! p = Some g →
  points_of f lin !! p = Some match (if p is S q then points_of f lin !! q else None) with
                              | None => f (start_of g) | Some w => f (start_of g) `max` (w + EPSILON) end.
Proof. intros Hp. apply points_step. unfold starts_of. by rewrite list_lookup_fmap, Hp. Qed.

Lemma solved_gap f evs prev tss t t' :
  0 ≤ px → StronglySorted Z.lt (prev :: tss) → solved f evs prev tss →
  t ∈ prev :: tss → t' ∈ prev :: tss → t < t' → f t + BOX_GAP ≤ f t'.
Proof.
  intros Hpx. revert prev t. induction tss as [|ts tss IH]; intros prev t Hs Hsol Ht Ht' Hlt.
  { apply list_elem_of_singleton in Ht, Ht'. lia. }
  apply StronglySorted_inv in Hs as [Hs Hp]. rewrite list.Forall_forall in Hp. destruct Hsol as [(Hge & _) Hsol].
  apply elem_of_cons in Ht as [->|Ht], Ht' as [->|Ht']; [lia| |specialize (Hp t Ht); lia|by eapply IH].
  destruct (decide (t' = ts)) as [->|]; [done|]. pose proof (StronglySorted_inv Hs) as [_ Hts]. rewrite list.Forall_forall in Hts.
  assert (ts < t') as Hlt' by (apply elem_of_cons in Ht' as [?|?]; [lia|by apply Hts]).
  specialize (IH ts ts Hs Hsol ltac:(set_solver) Ht' Hlt'). unfold BOX_GAP in *. lia.
Qed.

Lemma solved_need f evs prev tss ev v :
  solved f evs prev tss → ev ∈ evs → b_end ev ∈ tss → need f ev v → v ≤ f (b_end ev).
Proof.
  revert prev. induction tss as [|ts tss IH]; intros prev; [by intros _ _ ?%not_elem_of_nil|].
  intros [(_ & Hm & _) Hsol] He [Hb|?]%elem_of_cons Hv; [rewrite Hb; apply Hm; eauto|by eapply IH].
Qed.

(** The scan solves the program. *)
Lemma solved_feasible f evs t0 tss :
  0 ≤ px → StronglySorted Z.lt (t0 :: tss) → solved f evs t0 tss → f t0 = 0 → boxed evs →
  (∀ ev, ev ∈ evs → b_end ev ∈ tss) → feasible (t0 :: tss) evs f (points_at f).
Proof.
  intros Hpx Hs Hsol H0 [Hst Hbx] Hend. split.
  - intros t Ht. destruct (decide (t = t0)) as [->|]; [lia|]. apply StronglySorted_inv in Hs as Hs'. destruct Hs' as [_ Hlt].
    rewrite list.Forall_forall in Hlt. assert (t0 < t) by (apply Hlt; set_solver).
    pose proof (solved_gap f evs t0 tss t0 t Hpx Hs Hsol ltac:(set_solver) Ht ltac:(done)). unfold BOX_GAP in *. lia.
  - intros t t' Ht Ht' Hlt. by eapply solved_gap.
  - intros ev He. eapply (solved_need f evs t0 tss); eauto. by left.
  - intros ev index lin ill p He Hl Hp. pose proof (points_of_step f lin p (b_gid ev) Hp) as Hv.
    rewrite (points_at_Some _ _ _ _ _ _ Hl Hv), (Hst ev He). split; [repeat case_match; lia|].
    eapply (solved_need f evs t0 tss); [done|done|by apply Hend|]. right. left. eauto 8.
  - intros index lin ill p Hl Hp. destruct (lookup_lt_is_Some_2 lin (S p)) as [g Hg]; [done|].
    pose proof (points_of_step f lin (S p) g Hg) as Hv. rewrite (points_at_Some _ _ _ _ _ _ Hl Hv). simpl.
    destruct (lookup_lt_is_Some_2 (points_of f lin) p) as [w Hw].
    { unfold points_of, starts_of. rewrite points_length, length_fmap. lia. }
    rewrite (points_at_Some _ _ _ _ _ _ Hl Hw), Hw. lia.
  - intros ev index lin ill p He Hl Hg Hp. destruct (lookup_lt_is_Some_2 (points_of f lin) p) as [w Hw].
    { unfold points_of, starts_of. rewrite points_length, length_fmap. lia. }
    rewrite (points_at_Some _ _ _ _ _ _ Hl Hw). eapply (solved_need f evs t0 tss); [done|done|by apply Hend|]. right. right.
    exists index, lin, ill, w. split_and!; [done..| |by right]. rewrite last_lookup. unfold points_of, starts_of in *.
    rewrite points_length, length_fmap. by rewrite <-Hp.
Qed.

(** ** The least solution *)

Section least.
Context (ts : list Z) (evs : list box) (F : Z → Z) (G : nat → nat → Z).
Context (HF : feasible ts evs F G) (Hbox : boxed evs) (Hpx : 0 ≤ px).

Lemma points_least f index lin ill p v :
  lins !! index = Some (lin, ill) → (∀ g, g ∈ take (S p) lin → f (start_of g) ≤ F (start_of g)) →
  points_of f lin !! p = Some v → v ≤ G index p.
Proof.
  intros Hl. revert v. induction p as [|p IH]; intros v Hle Hv.
  all: pose proof Hv as Hlt%lookup_lt_Some; unfold points_of, starts_of in Hlt; rewrite points_length, length_fmap in Hlt.
  all: destruct (lookup_lt_is_Some_2 lin _ Hlt) as [g Hg]; rewrite (points_of_step f lin _ g Hg) in Hv; injection Hv as <-.
  all: destruct (proj2 Hbox index lin ill g Hl) as (ev & He & <-); [by eapply list_elem_of_lookup_2|].
  all: pose proof (fe_inside _ _ _ _ HF ev index lin ill _ He Hl Hg) as [Hin _]; rewrite (proj1 Hbox ev He) in Hin.
  all: assert (f (start_of (b_gid ev)) ≤ F (start_of (b_gid ev))) by (apply Hle; rewrite (take_S_r _ _ _ Hg); set_solver).
  - lia.
  - simpl. destruct (points_of f lin !! p) as [w|] eqn:Hw; [|lia].
    assert (w ≤ G index p) by (apply IH; [intros g' Hg'; apply Hle; rewrite (take_S_r _ _ _ Hg); set_solver|done]).
    pose proof (fe_apart _ _ _ _ HF index lin ill p Hl Hlt). lia.
Qed.

Lemma need_least f ev v :
  waits (λ t, f t ≤ F t) ev → ev ∈ evs → need f ev v → v ≤ F (b_end ev).
Proof.
  intros [Hs Hu Hi] He [->|[(index & lin & ill & p & Hl & Hp & Hv)|(index & lin & ill & w & Hl & Hg & Hw & Hv)]].
  - pose proof (fe_text _ _ _ _ HF ev He). lia.
  - pose proof (fe_inside _ _ _ _ HF ev index lin ill p He Hl Hp). transitivity (G index p); [|lia].
    eapply points_least; [done| |done]. intros g Hg. by eapply Hu.
  - destruct (Hi _ _ _ Hl Hg) as [Hne Hst]. destruct (length lin) as [|p] eqn:Hlen; [by destruct lin|].
    rewrite last_lookup in Hw. unfold points_of, starts_of in Hw. rewrite points_length, length_fmap, Hlen in Hw. simpl in Hw.
    assert (w ≤ G index p) by (eapply points_least; [done| |exact Hw]; intros g Hg'; apply Hst; eapply elem_of_take in Hg' as (? & ? & _); by eapply list_elem_of_lookup_2).
    pose proof (fe_next _ _ _ _ HF ev index lin ill p He Hl Hg (eq_sym Hlen)). unfold EPSILON in *. lia.
Qed.

Lemma solved_least f prev tss t :
  StronglySorted Z.lt (prev :: tss) → solved f evs prev tss → prev ∈ ts →
  (∀ t, t ∈ ts → t ≤ prev ∨ t ∈ tss) → (∀ t, t ∈ ts → t ≤ prev → f t ≤ F t) →
  (∀ ev, ev ∈ evs → in_time (λ t, t ∈ ts) ev) → (∀ t, t ∈ tss → t ∈ ts) → t ∈ ts → f t ≤ F t.
Proof.
  intros Hs Hsol Hprev Hall Hle Hin Hsub Ht. revert prev Hs Hsol Hprev Hall Hle.
  induction tss as [|u tss IH]; intros prev Hs Hsol Hprev Hall Hle.
  { destruct (Hall t Ht) as [?|?%not_elem_of_nil]; [by apply Hle|done]. }
  apply StronglySorted_inv in Hs as [Hs Hlt]. pose proof (Forall_inv Hlt) as Hpu.
  pose proof (StronglySorted_inv Hs) as [_ Hu]. rewrite list.Forall_forall in Hu.
  destruct Hsol as [(_ & _ & Hmax) Hsol]. assert (u ∈ ts) as Hut by (apply Hsub; set_solver).
  assert (Hbefore : ∀ t, t ∈ ts → t < u → t ≤ prev).
  { intros x Hx Hxu. destruct (Hall x Hx) as [?|[->|?%Hu]%elem_of_cons]; [done|lia|lia]. }
  apply (IH ltac:(set_solver) u); [done..| |].
  - intros x [?|[->|?]%elem_of_cons]%Hall; [left; lia|left; lia|by right].
  - intros x Hx Hxu. destruct (decide (x = u)) as [->|]; [|apply Hle; [done|]; apply Hbefore; [done|lia]].
    destruct Hmax as [->|(ev & He & <- & Hv)].
    + pose proof (fe_gap _ _ _ _ HF prev u Hprev Hut Hpu). specialize (Hle prev Hprev ltac:(lia)). lia.
    + eapply need_least; [|done|exact Hv]. eapply waits_mono; [|by apply Hin]. intros x [? ?]. apply Hle; [done|]. by apply Hbefore.
Qed.
End least.
End solve.

(** ** From the data to the scan *)

Lemma join_fmap {A B} (f : A → B) (l : list (list A)) :
  mjoin ((fmap f : list A → list B) <$> l) = f <$> mjoin l.
Proof.
  induction l as [|x l IH]; [done|].
  change ((f <$> x) ++ mjoin ((fmap f : list A → list B) <$> l) = f <$> (x ++ mjoin l)). by rewrite IH, fmap_app.
Qed.

Lemma sorted_spec (s : gset Z) : StronglySorted Z.lt (sorted s) ∧ ∀ t, t ∈ sorted s ↔ t ∈ s.
Proof.
  assert (Hin : ∀ t, t ∈ sorted s ↔ t ∈ s).
  { intros t. unfold sorted. rewrite sort_by_perm. apply elem_of_elements. }
  split; [|done]. assert (NoDup (sorted s)) as Hnd by (unfold sorted; rewrite sort_by_perm; apply NoDup_elements).
  pose proof (sort_by_sorted (@id Z) (elements s)) as Hs. fold (sorted s) in Hs.
  rewrite StronglySorted_lookup_iff in Hs |- *. intros i j x y Hij Hx Hy. specialize (Hs i j x y Hij Hx Hy). simpl in Hs.
  destruct (decide (x = y)) as [->|]; [|lia]. pose proof (NoDup_lookup _ _ _ _ Hnd Hx Hy). lia.
Qed.

Lemma nextTs_spec ts t :
  StronglySorted Z.lt ts →
  match nextTs ts !! t with
  | Some n => t ∈ ts ∧ n ∈ ts ∧ t < n
  | None => t ∈ ts → ∀ t', t' ∈ ts → t' ≤ t
  end.
Proof.
  unfold nextTs. induction 1 as [|u ts Hs IH Hu]; [simpl; rewrite lookup_empty; by intros ?%not_elem_of_nil|].
  destruct ts as [|u' ts]; simpl; [rewrite lookup_empty; intros ->%list_elem_of_singleton t' ->%list_elem_of_singleton; lia|].
  pose proof (Forall_inv Hu) as Huu. rewrite list.Forall_forall in Hu. simpl in IH.
  destruct (decide (u = t)) as [->|Hne].
  - rewrite lookup_insert_eq. set_solver.
  - rewrite lookup_insert_ne by done. destruct (list_to_map _ !! t) as [n|]; [set_solver|].
    intros [?|Ht]%elem_of_cons t' [->|Ht']%elem_of_cons; [done|done|specialize (Hu t Ht); lia|by apply IH].
Qed.

Lemma number_gid gid data k el : mjoin (number gid data) !! k = Some el → el_Gid el = gid + Z.of_nat k.
Proof.
  revert gid k. induction data as [|v data IH]; intros gid k; simpl; [done|].
  intros [Hk|[Hle Hk]]%lookup_app_Some.
  - unfold number_partition in Hk. rewrite list_lookup_imap in Hk. apply fmap_Some in Hk as (he & _ & ->). done.
  - apply IH in Hk. unfold number_partition, len in *. rewrite length_imap in *. lia.
Qed.

(** An element of the page and the element of the history it shows. *)
Definition shows (he : historyElement) (el : element) : Prop :=
  el_ClientId el = ClientId he ∧ el_Start el = 2 * Start he ∧ el_End el = 2 * End_ he ∧ el_Description el = Description he.

Lemma number_shows gid data : Forall2 (λ v els, Forall2 shows (History v) els) data (number gid data).
Proof.
  revert gid. induction data as [|v data IH]; intros gid; simpl; constructor; [|done].
  apply Forall2_lookup. intros i. unfold number_partition. rewrite list_lookup_imap.
  destruct (History v !! i); simpl; constructor. done.
Qed.

(** A history that can be drawn: operations end after they start, and a recorded
    linearization is not empty, repeats nothing, and never puts an operation before one
    that had already returned; [Largest] points to linearizations. *)
Record wf_partition (v : partitionVisualizationData) : Prop := {
  wp_order : ∀ he, he ∈ History v → Start he ≤ End_ he;
  wp_lin : ∀ lin, lin ∈ indices <$> PartialLinearizations v →
    lin ≠ [] ∧ NoDup lin ∧ (∀ i, i ∈ lin → 0 ≤ i < len (History v)) ∧
    ∀ j a b ha hb, lin !! j = Some a → b ∉ take j lin →
      slice_get (History v) a = Some ha → slice_get (History v) b = Some hb → Start ha ≤ End_ hb;
  wp_largest : ∀ i k, Largest v !! i = Some k → is_Some (slice_get (PartialLinearizations v) k)
}.

(** No operation starts at the last timestamp. *)
Definition wf_data (data : list partitionVisualizationData) : Prop :=
  Forall wf_partition data ∧
  ∀ v he, v ∈ data → he ∈ History v → ∃ v' he', v' ∈ data ∧ he' ∈ History v' ∧ Start he < End_ he'.

Section data.
Context (data : list partitionVisualizationData) (Hwf : wf_data data).

Abbreviation flat := (mjoin (number 0 data) : list element).
Abbreviation starts := (startTimestamps flat).
Abbreviation stamps := (starts ∪ endTimestamps flat).
Abbreviation tw := (tweak starts (nextTs (sorted stamps))).
Abbreviation els := ((prepare data).1).
Abbreviation tss := ((prepare data).2).

Lemma els_tweaked : els = (fmap tw : list element → list element) <$> number 0 data.
Proof. done. Qed.

Lemma flat_shown el : el ∈ flat ↔ ∃ i v k he, data !! i = Some v ∧ History v !! k = Some he ∧
  ∃ l, number 0 data !! i = Some l ∧ l !! k = Some el ∧ shows he el.
Proof.
  rewrite list_elem_of_join. pose proof (number_shows 0 data) as HS. split.
  - intros (l & Hel & [i Hi]%list_elem_of_lookup). apply list_elem_of_lookup in Hel as [k Hk].
    destruct (Forall2_lookup_r _ _ _ _ _ HS Hi) as (v & Hv & HF). destruct (Forall2_lookup_r _ _ _ _ _ HF Hk) as (he & Hhe & Hsh).
    exists i, v, k, he. split_and!; [done..|]. by exists l.
  - intros (i & v & k & he & _ & _ & l & Hl & Hk & _). exists l. split; by eapply list_elem_of_lookup_2.
Qed.

Lemma starts_elem t : t ∈ starts ↔ ∃ el, el ∈ flat ∧ el_Start el = t.
Proof. unfold startTimestamps. rewrite elem_of_list_to_set, list_elem_of_fmap. naive_solver. Qed.

Lemma stamps_elem t : t ∈ stamps ↔ ∃ el, el ∈ flat ∧ (el_Start el = t ∨ el_End el = t).
Proof. unfold startTimestamps, endTimestamps. rewrite elem_of_union, !elem_of_list_to_set, !list_elem_of_fmap. naive_solver. Qed.

(** Timestamps are counted in halves. *)
Lemma stamps_even t : t ∈ stamps → ∃ u, t = 2 * u.
Proof.
  intros (el & (i & v & k & he & _ & _ & l & _ & _ & _ & H1 & H2 & _)%flat_shown & [<-|<-])%stamps_elem; eauto.
Qed.

(** The tweak separates every end from the starts that are not after it. *)
Lemma tweak_after x y : x ∈ flat → y ∈ flat → el_Start x ≤ el_End y → el_Start x < el_End (tw y).
Proof.
  intros Hx Hy Hle. destruct (sorted_spec stamps) as [Hs Hin]. unfold tweak. case_decide as Hst; [|].
  - pose proof (nextTs_spec (sorted stamps) (el_End y) Hs) as Hn. destruct (nextTs (sorted stamps) !! el_End y) as [n|].
    + destruct Hn as ((u & Hu)%Hin%stamps_even & (w & Hw)%Hin%stamps_even & Hlt). simpl. rewrite Hu, Hw in *.
      rewrite <-Z.mul_add_distr_l, Z.mul_comm, Z.div_mul by done. lia.
    + exfalso. apply starts_elem in Hst as (z & Hz & Ez). apply flat_shown in Hz as (i & v & k & he & Hv & Hk & l & Hl & Hlk & _ & H1 & _).
      destruct (proj2 Hwf v he) as (v' & he' & Hv' & Hhe' & Hlt); [by eapply list_elem_of_lookup_2..|].
      apply list_elem_of_lookup in Hv' as [i' Hi']. apply list_elem_of_lookup in Hhe' as [k' Hk'].
      destruct (Forall2_lookup_l _ _ _ _ _ (number_shows 0 data) Hi') as (l' & Hl' & HF).
      destruct (Forall2_lookup_l _ _ _ _ _ HF Hk') as (el' & Hel' & Hsh'). pose proof Hsh' as (_ & _ & H3 & _).
      assert (el_End el' ∈ sorted stamps).
      { apply Hin, stamps_elem. exists el'. split; [|by right]. apply flat_shown. exists i', v', k', he'. split_and!; eauto 6. }
      assert (el_End y ∈ sorted stamps) by (apply Hin, stamps_elem; eauto).
      specialize (Hn ltac:(done) (el_End el') ltac:(done)). lia.
  - destruct (decide (el_Start x = el_End y)) as [E|]; [|lia]. exfalso. apply Hst, starts_elem. eauto.
Qed.
Lemma flat_els : mjoin els = tw <$> flat.
Proof. rewrite els_tweaked. apply join_fmap. Qed.

Lemma tweak_same el : el_Start (tw el) = el_Start el ∧ el_Gid (tw el) = el_Gid el.
Proof. unfold tweak. by repeat case_match. Qed.

Lemma tweak_end el : el ∈ flat → el_End (tw el) ∈ tss.
Proof.
  intros Hel. apply sorted_spec. change (el_End (tw el) ∈ stamps ∪ endTimestamps (mjoin els)).
  apply elem_of_union_r. unfold endTimestamps. apply elem_of_list_to_set, list_elem_of_fmap. exists (tw el). split; [done|].
  rewrite flat_els. by apply list_elem_of_fmap_2.
Qed.

Lemma tweak_start el : el ∈ flat → el_Start (tw el) ∈ tss.
Proof.
  intros Hel. apply sorted_spec. change (el_Start (tw el) ∈ stamps ∪ endTimestamps (mjoin els)).
  apply elem_of_union_l, stamps_elem. exists el. split; [done|]. left. symmetry. apply tweak_same.
Qed.

(** [byGid[el['Gid']]] is [el]. *)
Lemma by_gid el : el ∈ mjoin els → slice_get (mjoin els) (el_Gid el) = Some el.
Proof.
  intros [k Hk]%list_elem_of_lookup. apply slice_get_Some. rewrite flat_els, list_lookup_fmap in Hk.
  apply fmap_Some in Hk as (y & Hy & ->). rewrite (proj2 (tweak_same y)), (number_gid 0 data k y Hy).
  split; [lia|]. by rewrite Z.add_0_l, Nat2Z.id, flat_els, list_lookup_fmap, Hy.
Qed.

(** The elements of a partition. *)
Lemma els_lookup i l a el :
  els !! i = Some l → slice_get l a = Some el →
  el ∈ mjoin els ∧ ∃ y v he, el = tw y ∧ y ∈ flat ∧ data !! i = Some v ∧ slice_get (History v) a = Some he ∧ shows he y.
Proof.
  intros Hi [Ha Hel]%slice_get_Some. split.
  { apply list_elem_of_join. exists l. split; by eapply list_elem_of_lookup_2. }
  rewrite els_tweaked, list_lookup_fmap in Hi. apply fmap_Some in Hi as (l0 & Hl0 & ->).
  rewrite list_lookup_fmap in Hel. apply fmap_Some in Hel as (y & Hy & ->).
  destruct (Forall2_lookup_r _ _ _ _ _ (number_shows 0 data) Hl0) as (v & Hv & HF).
  destruct (Forall2_lookup_r _ _ _ _ _ HF Hy) as (he & Hhe & Hsh). exists y, v, he. split_and!; [done| |done| |done].
  - apply list_elem_of_join. exists l0. split; by eapply list_elem_of_lookup_2.
  - by apply slice_get_Some.
Qed.

Lemma els_partition i l : els !! i = Some l → ∃ v, data !! i = Some v ∧ wf_partition v ∧ len l = len (History v).
Proof.
  rewrite els_tweaked, list_lookup_fmap. intros (l0 & Hl0 & ->)%fmap_Some.
  destruct (Forall2_lookup_r _ _ _ _ _ (number_shows 0 data) Hl0) as (v & Hv & HF). exists v. split_and!; [done| |].
  - eapply Forall_lookup_1; [apply Hwf|done].
  - unfold len. rewrite length_fmap. by rewrite (Forall2_length HF).
Qed.

(** A linearization puts [a] before [b], or lets [b] come next: [a] starts before [b]
    ends. *)
Lemma lin_before i v l lin j a b ela elb :
  els !! i = Some l → data !! i = Some v → lin ∈ indices <$> PartialLinearizations v →
  lin !! j = Some a → b ∉ take j lin → slice_get l a = Some ela → slice_get l b = Some elb → el_Start ela < el_End elb.
Proof.
  intros Hi Hv Hlin Ha Hb Hela Helb. destruct (els_lookup i l a ela Hi Hela) as (_ & x & v1 & ha & -> & Hx & Hv1 & Hha & _ & H1 & _).
  destruct (els_lookup i l b elb Hi Helb) as (_ & y & v2 & hb & -> & Hy & Hv2 & Hhb & _ & _ & H2 & _). simplify_eq.
  rewrite (proj1 (tweak_same x)). apply tweak_after; [done..|]. rewrite H1, H2.
  pose proof (Forall_lookup_1 _ _ _ _ (proj1 Hwf) Hv) as Hp. destruct (wp_lin _ Hp lin Hlin) as (_ & _ & _ & Hord).
  specialize (Hord j a b ha hb Ha Hb Hha Hhb). lia.
Qed.

Lemma globalized_Some l ix : (∀ a, a ∈ ix → 0 ≤ a < len l) → is_Some (globalized l ix).
Proof.
  intros H. apply mapM_is_Some, list.Forall_forall. intros a Ha. simpl.
  destruct (proj2 (slice_get_is_Some l a)) as [el ->]; [by apply H|]. by eexists.
Qed.

Lemma globalized_lookup l ix gs p g :
  globalized l ix = Some gs → gs !! p = Some g → ∃ a el, ix !! p = Some a ∧ slice_get l a = Some el ∧ el_Gid el = g.
Proof.
  intros E%mapM_Some Hg. destruct (Forall2_lookup_r _ _ _ _ _ E Hg) as (a & Ha & (el & Hel & [= <-])%bind_Some). eauto.
Qed.

Lemma illegal_next_elem l lin a : a ∈ illegal_next l lin → 0 ≤ a < len l ∧ (a ∉ lin).
Proof.
  unfold illegal_next. destruct (minEnd l lin) as [m|]; [|by intros ?%not_elem_of_nil].
  intros ([i el] & Hin & Hx)%list_elem_of_omap. apply elem_of_lookup_imap in Hin as (k & el' & [= -> ->] & Hk).
  case_decide as Hd; [done|]. destruct (el_Start el' <? m); simplify_eq. apply lookup_lt_Some in Hk. unfold len. split; [lia|done].
Qed.

(** [lin] and [ill] come from a linearization of a partition. *)
Definition comes_from (lin ill : list Z) (i : nat) v l (lin0 : list Z) : Prop :=
  data !! i = Some v ∧ els !! i = Some l ∧ lin0 ∈ indices <$> PartialLinearizations v ∧
  globalized l lin0 = Some lin ∧ globalized l (illegal_next l lin0) = Some ill.

Lemma lins_spec :
  ∃ lins, linearizations els data = Some lins ∧
    ∀ index lin ill, lins !! index = Some (lin, ill) → ∃ i v l lin0, comes_from lin ill i v l lin0.
Proof.
  unfold linearizations.
  assert (is_Some (mapM (λ '(l, v), partition_lins l (indices <$> PartialLinearizations v)) (zip els data))) as [ll E].
  { apply mapM_is_Some, list.Forall_forall. intros [l v] [i Hi]%list_elem_of_lookup.
    apply lookup_zip_Some in Hi as [Hl Hv]. destruct (els_partition i l Hl) as (v' & Hv' & Hp & Hlen). simplify_eq.
    simpl. apply mapM_is_Some, list.Forall_forall. intros lin Hlin. simpl. destruct (wp_lin _ Hp lin Hlin) as (_ & _ & Hr & _).
    destruct (globalized_Some l lin) as [g ->]; [intros a Ha; rewrite Hlen; by apply Hr|].
    destruct (globalized_Some l (illegal_next l lin)) as [b ->]; [intros a Ha; apply (illegal_next_elem _ _ _ Ha)|]. by eexists. }
  rewrite E. exists (mjoin ll). split; [done|]. intros index lin ill Hx%list_elem_of_lookup_2.
  apply list_elem_of_join in Hx as (ps & Hin & Hps). apply list_elem_of_lookup in Hps as [i Hi]. apply mapM_Some in E.
  destruct (Forall2_lookup_r _ _ _ _ _ E Hi) as ([l v] & Hz & Hpl). apply lookup_zip_Some in Hz as [Hl Hv].
  apply mapM_Some in Hpl. apply list_elem_of_lookup in Hin as [k Hk].
  destruct (Forall2_lookup_r _ _ _ _ _ Hpl Hk) as (lin0 & Hlin0 & (g & Hg & (b & Hb & [= -> ->])%bind_Some)%bind_Some).
  exists i, v, l, lin0. split_and!; [done|done| |done|done]. by eapply list_elem_of_lookup_2.
Qed.
Abbreviation boxes := (byEnd (mjoin els)).

Lemma boxes_elem ev : ev ∈ boxes ↔ ∃ el, el ∈ mjoin els ∧ ev = box_of el.
Proof. unfold byEnd. rewrite sort_by_perm, list_elem_of_fmap. naive_solver. Qed.

Lemma els_elem el : el ∈ mjoin els → ∃ y, el = tw y ∧ y ∈ flat.
Proof. rewrite flat_els. by intros (y & -> & ?)%list_elem_of_fmap; eauto. Qed.

Lemma start_of_gid el : el ∈ mjoin els → start_of (mjoin els) (el_Gid el) = el_Start el.
Proof. intros Hel. unfold start_of. by rewrite (by_gid el Hel). Qed.

Lemma gid_inj el el' : el ∈ mjoin els → el' ∈ mjoin els → el_Gid el = el_Gid el' → el = el'.
Proof. intros H1%by_gid H2%by_gid E. rewrite E in H1. congruence. Qed.

Lemma box_times ev : ev ∈ boxes → b_start ev ∈ tss ∧ b_end ev ∈ tss ∧ b_start ev < b_end ev.
Proof.
  intros (el & (y & -> & Hy)%els_elem & ->)%boxes_elem. simpl. split_and!; [by apply tweak_start|by apply tweak_end|].
  rewrite (proj1 (tweak_same y)). apply tweak_after; [done..|].
  apply flat_shown in Hy as (i & v & k & he & Hv & Hk & l & _ & _ & _ & -> & -> & _).
  pose proof (wp_order _ (Forall_lookup_1 _ _ _ _ (proj1 Hwf) Hv) he ltac:(by eapply list_elem_of_lookup_2)). lia.
Qed.

Section with_lins.
Context (lins : list (list Z * list Z)).
Context (Hlins : ∀ index lin ill, lins !! index = Some (lin, ill) → ∃ i v l lin0, comes_from lin ill i v l lin0).

(** The event at a position of a linearization. *)
Lemma lin_event index lin ill p g :
  lins !! index = Some (lin, ill) → lin !! p = Some g → ∃ el, el ∈ mjoin els ∧ el_Gid el = g.
Proof.
  intros Hl Hg. destruct (Hlins _ _ _ Hl) as (i & v & l & lin0 & Hv & Hi & _ & HG & _).
  destruct (globalized_lookup _ _ _ _ _ HG Hg) as (a & el & _ & Hel & <-). exists el. split; [|done].
  by apply (els_lookup i l a el).
Qed.

Lemma data_known index lin ill g :
  lins !! index = Some (lin, ill) → g ∈ lin → is_Some (slice_get (mjoin els) g).
Proof.
  intros Hl [p Hp]%list_elem_of_lookup. destruct (lin_event _ _ _ _ _ Hl Hp) as (el & Hel & <-).
  rewrite (by_gid el Hel). by eexists.
Qed.

Lemma data_boxed : boxed (mjoin els) lins boxes.
Proof.
  split.
  - intros ev (el & Hel & ->)%boxes_elem. simpl. by rewrite start_of_gid.
  - intros index lin ill g Hl [p Hp]%list_elem_of_lookup. destruct (lin_event _ _ _ _ _ Hl Hp) as (el & Hel & <-).
    exists (box_of el). split; [|done]. apply boxes_elem. eauto.
Qed.

Lemma lin_start lin ill i v l lin0 p g b elb :
  comes_from lin ill i v l lin0 → lin !! p = Some g → b ∉ take p lin0 → slice_get l b = Some elb →
  start_of (mjoin els) g ∈ tss ∧ start_of (mjoin els) g < el_End elb.
Proof.
  intros (Hv & Hi & Hin & HG & _) Hp Hb Helb. destruct (globalized_lookup _ _ _ _ _ HG Hp) as (a & ela & Ha & Hela & <-).
  destruct (els_lookup i l a ela Hi Hela) as [Hm _]. rewrite (start_of_gid _ Hm). split.
  - apply els_elem in Hm as (y & -> & Hy). by apply tweak_start.
  - by eapply (lin_before i v l lin0 p a b).
Qed.

Lemma data_in_time ev : ev ∈ boxes → in_time (mjoin els) lins (λ t, t ∈ tss) ev.
Proof.
  intros Hev. pose proof (box_times ev Hev) as (Hs & _ & Hlt). apply boxes_elem in Hev as (elb & Helb & ->).
  split; [done|..]; intros index lin ill.
  - intros p g Hl Hp (q & Hq & Hle)%elem_of_take. destruct (Hlins _ _ _ Hl) as (i & v & l & lin0 & HC).
    pose proof HC as (Hv & Hi & Hin & HG & _). destruct (globalized_lookup _ _ _ _ _ HG Hp) as (b & el & Hb & Hel & Hg).
    rewrite (gid_inj el elb) in Hel; [|by apply (els_lookup i l b)|done|done].
    eapply lin_start; [done..| |done]. intros (k & Hk & Hkq)%elem_of_take.
    destruct (wp_lin _ (Forall_lookup_1 _ _ _ _ (proj1 Hwf) Hv) lin0 Hin) as (_ & Hnd & _).
    pose proof (NoDup_lookup _ _ _ _ Hnd Hk Hb). lia.
  - intros Hl [r Hr]%list_elem_of_lookup. destruct (Hlins _ _ _ Hl) as (i & v & l & lin0 & HC).
    pose proof HC as (Hv & Hi & Hin & HG & HI). destruct (globalized_lookup _ _ _ _ _ HI Hr) as (b & el & Hb & Hel & Hg).
    apply list_elem_of_lookup_2, illegal_next_elem in Hb as [_ Hb].
    rewrite (gid_inj el elb) in Hel; [|by apply (els_lookup i l b)|done|done]. split.
    + destruct (wp_lin _ (Forall_lookup_1 _ _ _ _ (proj1 Hwf) Hv) lin0 Hin) as (Hne & _). intros ->.
      apply mapM_Some, Forall2_length in HG. by destruct lin0.
    + intros g [q Hq]%list_elem_of_lookup. eapply lin_start; [done..| |done].
      intros (k & Hk & _)%elem_of_take. apply Hb. by eapply list_elem_of_lookup_2.
Qed.
Lemma lin_nonempty index lin ill : lins !! index = Some (lin, ill) → lin ≠ [].
Proof.
  intros Hl ->. destruct (Hlins _ _ _ Hl) as (i & v & l & lin0 & Hv & _ & Hin & HG & _).
  destruct (wp_lin _ (Forall_lookup_1 _ _ _ _ (proj1 Hwf) Hv) lin0 Hin) as (Hne & _).
  apply mapM_Some, Forall2_length in HG. by destruct lin0.
Qed.

Lemma scanning_start t0 ts :
  tss = t0 :: ts →
  scanning (mjoin els) lins (λ t, t ∈ tss) t0 ts boxes {[t0 := 0]} (replicate (length lins) []).
Proof.
  intros E. destruct (sorted_spec (stamps ∪ endTimestamps (mjoin els))) as [Hsort _]. change (sorted _) with tss in Hsort.
  rewrite E in Hsort. pose proof (StronglySorted_inv Hsort) as [_ Hlt]. rewrite list.Forall_forall in Hlt.
  assert (Hge : ∀ t, t ∈ tss → t = t0 ∨ t ∈ ts ∧ t0 < t) by (intros t; rewrite E; intros [?|?]%elem_of_cons; auto).
  split; [done|..].
  - intros t [->|[? _]]%Hge; [left; lia|by right].
  - intros t [->|[_ ?]]%Hge ?; [|lia]. rewrite lookup_singleton_eq. by eexists.
  - intros t [x [-> _]%lookup_singleton_Some]. lia.
  - rewrite lookup_singleton_eq. by eexists.
  - apply sort_by_sorted.
  - intros ev Hev. split; [|by apply data_in_time]. destruct (box_times ev Hev) as ([Hs|[_ Hs]]%Hge & [He|[? _]]%Hge & ?); [lia|done|lia|done].
  - apply Forall2_same_length_lookup. rewrite length_replicate. split; [done|].
    intros i x pts _ [-> _]%lookup_replicate. split_and!; simpl; [lia|done|by intros g ?%not_elem_of_nil].
Qed.
End with_lins.

(** The point [p] of the linearization [index] on the page. *)
Definition point (lps : list (list num)) (index p : nat) : Z :=
  default 0 (pts ← lps !! index; v ← pts !! p; v).

Section solution.
Context (lins : list (list Z * list Z)).
Context (Hlins : ∀ index lin ill, lins !! index = Some (lin, ill) → ∃ i v l lin0, comes_from lin ill i v l lin0).

Lemma nothing_drawn : tss = [] → (∀ ev, ev ∉ boxes) ∧ ∀ index lin ill, lins !! index ≠ Some (lin, ill).
Proof.
  intros Et. assert (Hno : ∀ ev, ev ∉ boxes) by (intros ev (Hs & _)%box_times; rewrite Et in Hs; by apply not_elem_of_nil in Hs).
  split; [done|]. intros index [|g lin] ill Hl; [by apply (lin_nonempty lins Hlins _ _ _ Hl)|].
  destruct (proj2 (data_boxed lins Hlins) _ _ _ g Hl) as (ev & Hev & _); [set_solver|]. by apply (Hno ev).
Qed.

(** When all boxes are placed, so are all points. *)
Lemma points_complete xPos lps index lin ill :
  all_placed (mjoin els) lins xPos lps → drawn_up_to lins boxes lps → lins !! index = Some (lin, ill) →
  lps !! index = Some (Some <$> points_of (mjoin els) (xat xPos) lin).
Proof.
  intros HA Hd Hl. destruct (Forall2_lookup_l _ _ _ _ _ HA Hl) as (pts & Hpts & Hle & Hp & _). simpl in *.
  assert (length lin ≤ length pts)%nat as Hge.
  { destruct (decide (length pts < length lin)%nat) as [Hlt|]; [|lia]. destruct (lookup_lt_is_Some_2 lin _ Hlt) as [g Hg].
    destruct (proj2 (data_boxed lins Hlins) _ _ _ g Hl) as (ev & Hev & <-); [by eapply list_elem_of_lookup_2|].
    destruct (Hd ev _ _ _ _ Hev Hl Hg) as (pts' & ? & ?). simplify_eq. lia. }
  rewrite Hpts, Hp, take_ge; [done|]. unfold points_of, starts_of. by rewrite points_length, length_fmap.
Qed.

(** The layout is what [solved] describes. *)
Lemma layout_solved :
  linearizations els data = Some lins →
  ∃ xPos lps, layout data = Some (xPos, lps) ∧ (∀ t, t ∈ tss → is_Some (xPos !! t)) ∧
    (∀ index lin ill, lins !! index = Some (lin, ill) →
       lps !! index = Some (Some <$> points_of (mjoin els) (xat xPos) lin)) ∧
    match tss with [] => True | t0 :: ts => xat xPos t0 = 0 ∧ solved (mjoin els) lins (xat xPos) boxes t0 ts end.
Proof.
  intros EL. unfold layout. rewrite (surjective_pairing (prepare data)), EL. cbn [mbind option_bind].
  destruct tss as [|t0 ts] eqn:Et.
  - exists ∅, (replicate (length lins) []). split_and!; [done|by intros t ?%not_elem_of_nil| |done].
    intros index lin ill Hl. by destruct (proj2 (nothing_drawn Et) _ _ _ Hl).
  - pose proof (scanning_start lins Hlins t0 ts Et) as HS.
    destruct (scan_spec _ _ (data_known lins Hlins) _ _ _ _ _ _ HS) as (xPos & lps & E & HK & Hdef & Hsol & HA & _ & Hd).
    assert (H0 : xPos !! t0 = Some 0) by (apply HK, lookup_singleton_eq).
    exists xPos, lps. split_and!; [done|..].
    + intros t [->|?]%elem_of_cons; [by eexists|by apply Hdef].
    + intros index lin ill. by apply points_complete.
    + split; [unfold xat; by rewrite H0|done].
Qed.

Lemma tss_sorted : StronglySorted Z.lt tss.
Proof. apply sorted_spec. Qed.

Lemma boxes_end t0 ts ev : tss = t0 :: ts → ev ∈ boxes → b_end ev ∈ ts.
Proof. intros Et Hev. by apply (sc_ends _ _ _ _ _ _ _ _ (scanning_start lins Hlins t0 ts Et)). Qed.

Lemma data_feasible xPos :
  0 ≤ px →
  match tss with [] => True | t0 :: ts => xat xPos t0 = 0 ∧ solved (mjoin els) lins (xat xPos) boxes t0 ts end →
  feasible lins tss boxes (xat xPos) (points_at (mjoin els) lins (xat xPos)).
Proof.
  intros Hpx. destruct tss as [|t0 ts] eqn:Et.
  - intros _. destruct (nothing_drawn Et) as [Hno Hnl]. split; try (by intros ? ?%not_elem_of_nil); try (by intros ? ?%Hno).
    + by intros ? ? ?%not_elem_of_nil.
    + by intros ? ? ? ? ? ?%Hno.
    + intros ? ? ? ? Hl. by destruct (Hnl _ _ _ Hl).
    + by intros ? ? ? ? ? ?%Hno.
  - intros [H0 Hsol]. pose proof tss_sorted as Hs. rewrite Et in Hs.
    eapply solved_feasible; [done..|by apply data_boxed|]. intros ev. by apply (boxes_end t0).
Qed.

Lemma data_least xPos F G :
  0 ≤ px →
  match tss with [] => True | t0 :: ts => xat xPos t0 = 0 ∧ solved (mjoin els) lins (xat xPos) boxes t0 ts end →
  feasible lins tss boxes F G →
  (∀ t, t ∈ tss → xat xPos t ≤ F t) ∧
  ∀ index lin ill p v, lins !! index = Some (lin, ill) → points_of (mjoin els) (xat xPos) lin !! p = Some v → v ≤ G index p.
Proof.
  intros Hpx HX HF. pose proof (data_boxed lins Hlins) as Hbox.
  assert (Hle : ∀ t, t ∈ tss → xat xPos t ≤ F t).
  { destruct tss as [|t0 ts] eqn:Et; [by intros t ?%not_elem_of_nil|]. destruct HX as [H0 Hsol].
    pose proof tss_sorted as Hs. rewrite Et in Hs. intros t Ht.
    eapply (solved_least (mjoin els) lins (t0 :: ts) boxes F G HF Hbox Hpx _ t0 ts); [done..| | | | | |done].
    - set_solver.
    - intros u [->|?]%elem_of_cons; [left; lia|by right].
    - intros u Hu Hle. assert (u = t0) as ->; [|rewrite H0; apply (fe_nonneg _ _ _ _ _ HF); set_solver].
      apply elem_of_cons in Hu as [?|Hu]; [done|]. apply StronglySorted_inv in Hs as [_ Hlt].
      rewrite list.Forall_forall in Hlt. specialize (Hlt u Hu). lia.
    - intros ev Hev. rewrite <-Et. by apply data_in_time.
    - intros u Hu. set_solver. }
  split; [done|]. intros index lin ill p v Hl Hv. eapply points_least; [done..| |exact Hv].
  intros g (q & Hq & _)%elem_of_take. apply Hle. destruct (proj2 Hbox _ _ _ g Hl) as (ev & Hev & <-); [by eapply list_elem_of_lookup_2|].
  rewrite <-(proj1 Hbox ev Hev). by apply box_times.
Qed.

Lemma point_points xPos lps index lin ill p :
  (∀ index lin ill, lins !! index = Some (lin, ill) →
     lps !! index = Some (Some <$> points_of (mjoin els) (xat xPos) lin)) →
  lins !! index = Some (lin, ill) → point lps index p = points_at (mjoin els) lins (xat xPos) index p.
Proof.
  intros HP Hl. unfold point, points_at. rewrite (HP _ _ _ Hl), Hl. simpl. rewrite list_lookup_fmap. by destruct (_ !! p).
Qed.
End solution.

(** The layout of well-formed data solves the program. *)
Lemma layout_feasible :
  0 ≤ px → ∃ lins xPos lps, linearizations els data = Some lins ∧ layout data = Some (xPos, lps) ∧
    (∀ t, t ∈ tss → is_Some (xPos !! t)) ∧
    (∀ index lin ill p, lins !! index = Some (lin, ill) → (p < length lin)%nat →
       ∃ pts v, lps !! index = Some pts ∧ pts !! p = Some (Some v)) ∧
    feasible lins tss boxes (xat xPos) (point lps).
Proof.
  intros Hpx. destruct lins_spec as (lins & EL & Hlins). destruct (layout_solved lins Hlins EL) as (xPos & lps & E & Hdef & HP & HX).
  exists lins, xPos, lps. split_and!; [done..| |].
  - intros index lin ill p Hl Hp. exists (Some <$> points_of (mjoin els) (xat xPos) lin).
    destruct (lookup_lt_is_Some_2 (points_of (mjoin els) (xat xPos) lin) p) as [v Hv].
    { unfold points_of, starts_of. by rewrite points_length, length_fmap. }
    exists v. split; [by eapply HP|]. by rewrite list_lookup_fmap, Hv.
  - destruct (data_feasible lins Hlins xPos Hpx HX) as [H1 H2 H3 H4 H5 H6]. split; [done..| | |]; intros *.
    + intros Hev Hl. rewrite (point_points _ _ _ _ _ _ _ HP Hl). by eapply H4.
    + intros Hl. rewrite !(point_points _ _ _ _ _ _ _ HP Hl). by eapply H5.
    + intros Hev Hl. rewrite (point_points _ _ _ _ _ _ _ HP Hl). by eapply H6.
Qed.

(** the greedy scan is optimal, as its comment claims: of all ways to satisfy the
    program it puts every timestamp and every point as far left as possible, so that it
    minimises any sum of them. *)
Theorem layout_least lins xPos lps F G :
  0 ≤ px → linearizations els data = Some lins → layout data = Some (xPos, lps) → feasible lins tss boxes F G →
  (∀ t, t ∈ tss → xat xPos t ≤ F t) ∧
  ∀ index lin ill p, lins !! index = Some (lin, ill) → (p < length lin)%nat → point lps index p ≤ G index p.
Proof.
  intros Hpx EL E HF. destruct lins_spec as (lins' & EL' & Hlins). simplify_eq.
  destruct (layout_solved lins Hlins EL) as (xPos' & lps' & E' & _ & HP & HX). simplify_eq.
  destruct (data_least lins Hlins xPos F G Hpx HX HF) as [H1 H2]. split; [done|]. intros index lin ill p Hl Hp.
  rewrite (point_points _ _ _ _ _ _ _ HP Hl). destruct (lookup_lt_is_Some_2 (points_of (mjoin els) (xat xPos) lin) p) as [v Hv].
  { unfold points_of, starts_of. by rewrite points_length, length_fmap. }
  rewrite (points_at_Some _ _ _ _ _ _ _ _ Hl Hv). by eapply H2.
Qed.
End data.
End layout.

(** ** From the checker to the page *)

Section checked.
Import PC PF.
Context {State Input Output : Type} (model : Model State Input Output).
Context {sp : Sprint State Input Output} (d : Describer State Input Output) {ss : SliceSorter}.
Implicit Types (es : list (entry Input Output)) (history : list (list (entry Input Output))).

Definition time_sorted es : Prop :=
  ∀ p q e f, (p < q)%nat → es !! p = Some e → es !! q = Some f → en_time e ≤ en_time f.

(** No operation is called at the last timestamp. *)
Definition ends_late history : Prop :=
  ∀ es e, es ∈ history → e ∈ es → en_kind e = callEntry →
    ∃ es' f, es' ∈ history ∧ f ∈ es' ∧ en_kind f = returnEntry ∧ en_time e < en_time f.

Lemma makeEntries_sorted {so : Sorter Input Output} ops : time_sorted (makeEntries ops).
Proof.
  intros p q e f Hlt He Hf. pose proof (sort_Sort_sorted _ _ _ _ _ Hlt He Hf) as HL. unfold Less in HL.
  case_decide; [apply bool_decide_eq_false in HL; lia|lia].
Qed.

Lemma legal_called es s path k : legal model es s path → k ∈ path → ∃ p i, calls_at es p k i.
Proof.
  revert s. induction path as [|a path IH]; intros s; [by intros _ ?%not_elem_of_nil|].
  intros (p & q & i & o & s' & Hca & _ & _ & Hl) [->|Hin]%elem_of_cons; eauto.
Qed.

(** The element of an operation. *)
Lemma drawn_element es partials v p q k i o :
  drawn d es partials v → calls_at es p k i → returns_at es q k o →
  ∃ e f he, es !! p = Some e ∧ es !! q = Some f ∧ en_kind e = callEntry ∧ en_kind f = returnEntry ∧
    slice_get (History v) k = Some he ∧ Start he = en_time e ∧ End_ he = en_time f.
Proof.
  intros HD (e & He & Hk & <- & Hv) (f & Hf & Hkf & Hid & Hvf).
  pose proof (proj2 (dr_history _ _ _ _ HD) p q e f i o He Hk Hv Hf Hkf Hvf (eq_sym Hid)) as Hel.
  exists e, f. eexists. split_and!; [done..|exact Hel|done|done].
Qed.

Lemma drawn_start es partials v k he :
  wf_entries es → drawn d es partials v → History v !! k = Some he →
  ∃ e, e ∈ es ∧ en_kind e = callEntry ∧ Start he = en_time e.
Proof.
  intros Hwf HD Hk. pose proof (proj1 (dr_history _ _ _ _ HD)) as Hlen. pose proof (lookup_lt_Some _ _ _ Hk).
  destruct (we_pair es Hwf (Z.of_nat k)) as (p & q & i & o & Hlt & Hca & Hre); [unfold len in Hlen; lia|].
  destruct (drawn_element es partials v p q _ i o HD Hca Hre) as (e & f & he' & He & Hf & Hke & _ & Hhe & Hs & _).
  apply slice_get_Some in Hhe as [_ Hhe]. rewrite Nat2Z.id in Hhe. simplify_eq. exists e. split_and!; [by eapply list_elem_of_lookup_2|done..].
Qed.

Lemma drawn_end es partials v f :
  wf_entries es → drawn d es partials v → f ∈ es → en_kind f = returnEntry → ∃ he, he ∈ History v ∧ End_ he = en_time f.
Proof.
  intros Hwf HD [q Hq]%list_elem_of_lookup Hk.
  destruct (we_pair es Hwf (en_id f) (we_id es Hwf q f Hq)) as (p & q' & i & o & Hlt & Hca & Hre).
  destruct (drawn_element es partials v p q' _ i o HD Hca Hre) as (e & f' & he & He & Hf & _ & Hkf & Hhe & _ & Hn).
  destruct Hre as (f2 & Hf2 & _ & Hid & _). simplify_eq.
  assert (q' = q) as -> by (eapply (we_unique es Hwf); [done..|congruence|done]). simplify_eq.
  exists he. split; [|done]. apply slice_get_Some in Hhe as [_ Hhe]. by eapply list_elem_of_lookup_2.
Qed.

Lemma drawn_wf es partials v :
  wf_entries es → time_sorted es →
  (∀ path, path ∈ partials → path ≠ [] ∧ legal model es (Init model) path ∧ respects es path) →
  drawn d es partials v → wf_partition v.
Proof.
  intros Hwf Hts Hp HD. pose proof (proj1 (dr_history _ _ _ _ HD)) as Hlen. split.
  - intros he [k Hk]%list_elem_of_lookup. pose proof (lookup_lt_Some _ _ _ Hk).
    destruct (we_pair es Hwf (Z.of_nat k)) as (p & q & i & o & Hlt & Hca & Hre); [unfold len in Hlen; lia|].
    destruct (drawn_element es partials v p q _ i o HD Hca Hre) as (e & f & he' & He & Hf & _ & _ & Hhe & Hs & Hn).
    apply slice_get_Some in Hhe as [_ Hhe]. rewrite Nat2Z.id in Hhe. simplify_eq. rewrite Hs, Hn. by eapply Hts.
  - intros lin Hlin. rewrite (dr_partials _ _ _ _ HD), sort_Slice_perm in Hlin.
    destruct (Hp lin Hlin) as (Hne & Hleg & Hnd & Hresp). rewrite Hlen. split_and!; [done|done| |].
    + intros k Hk. destruct (legal_called _ _ _ _ Hleg Hk) as (p & i & e & He & _ & <- & _). by eapply we_id.
    + intros j a b ha hb Ha Hb Hha Hhb.
      assert (Hr : ∀ k h, slice_get (History v) k = Some h → 0 ≤ k < ops_count es) by (intros k h Hk; rewrite <-Hlen; apply slice_get_is_Some; eauto).
      destruct (we_pair es Hwf a (Hr _ _ Hha)) as (p & q & i & o & _ & Hca & Hre).
      destruct (we_pair es Hwf b (Hr _ _ Hhb)) as (p' & q' & i' & o' & _ & Hca' & Hre').
      destruct (drawn_element es partials v p q _ i o HD Hca Hre) as (e & _ & ha' & He & _ & _ & _ & Hha' & Hs & _).
      destruct (drawn_element es partials v p' q' _ i' o' HD Hca' Hre') as (_ & f & hb' & _ & Hf & _ & _ & Hhb' & _ & Hn).
      simplify_eq. rewrite Hs, Hn. eapply Hts; [|done|done]. by eapply (Hresp j a b).
  - intros i k Hk. pose proof (dr_largest _ _ _ _ HD i) as HL. rewrite Hk in HL. destruct HL as (n & lin & -> & Hn & _).
    exists lin. apply slice_get_Some. split; [lia|]. by rewrite Nat2Z.id.
Qed.

(** What a verbose check shows can be laid out. *)
Lemma checked_wf history kill fuel order res info :
  Forall wf_entries history → Forall time_sorted history → ends_late history →
  checkParallel model history true kill fuel order = Some (res, info) →
  ∃ data, computeVisualizationData model d history info = Some data ∧ wf_data data.
Proof.
  intros HW HT HE E. destruct (visualization_data model d history kill fuel order res info HW E) as (data & Ed & HD).
  exists data. split; [done|]. unfold computeVisualizationData in Ed. apply mapM_Some in Ed.
  assert (Hi : ∀ i v, data !! i = Some v → ∃ es partials, history !! i = Some es ∧ drawn d es partials v ∧
    ∀ path, path ∈ partials → path ≠ [] ∧ legal model es (Init model) path ∧ respects es path).
  { intros i v Hv. destruct (Forall2_lookup_r _ _ _ _ _ Ed Hv) as ([i' es] & Hx & (partials & Hpt & _)%bind_Some).
    rewrite list_lookup_imap in Hx. apply fmap_Some in Hx as (es' & Hes & [= -> ->]).
    destruct (HD i es' partials Hes Hpt) as (Hp & v' & Hv' & HDr). simplify_eq. eauto. }
  split.
  - apply Forall_lookup. intros i v (es & partials & Hes & HDr & Hp)%Hi.
    eapply (drawn_wf es partials); [by eapply Forall_lookup_1|by eapply Forall_lookup_1|done|done].
  - intros v he [i Hv]%list_elem_of_lookup [k Hk]%list_elem_of_lookup.
    destruct (Hi i v Hv) as (es & partials & Hes & HDr & _).
    destruct (drawn_start es partials v k he) as (e & He & Hke & ->); [by eapply Forall_lookup_1|done|done|].
    destruct (HE es e) as (es' & f & [i' Hi']%list_elem_of_lookup & Hf & Hkf & Hlt); [by eapply list_elem_of_lookup_2|done|done|].
    destruct (Forall2_lookup_l _ _ _ i' (i', es') Ed) as (v' & Hv' & _); [by rewrite list_lookup_imap, Hi'|].
    destruct (Hi i' v' Hv') as (es2 & partials' & Hes' & HDr' & _). simplify_eq.
    destruct (drawn_end es' partials' v' f) as (he' & ? & Hend); [by eapply Forall_lookup_1|done..|].
    exists v', he'. split_and!; [by eapply list_elem_of_lookup_2|done|lia].
Qed.

(** C30: the page of a verbose check is readable, as the comment of [render] promises.
    Whatever the checker found, in a history in which no operation is called at the
    last timestamp: [render] throws no exception and places every timestamp and every
    point of every linearization, and the placement satisfies the whole program:
    unequal timestamps are [BOX_GAP] apart, the text of every operation fits into its
    box, every point of a linearization lies within the box of its operation and at
    least [EPSILON] behind the previous one, and the box of every operation that could
    come next leaves room for one more point. *)
Theorem layout_readable px measure history kill fuel order res info :
  0 ≤ px → Forall wf_entries history → Forall time_sorted history → ends_late history →
  checkParallel model history true kill fuel order = Some (res, info) →
  ∃ data lins xPos lps, computeVisualizationData model d history info = Some data ∧
    linearizations (prepare data).1 data = Some lins ∧ layout px measure data = Some (xPos, lps) ∧
    (∀ t, t ∈ (prepare data).2 → is_Some (xPos !! t)) ∧
    (∀ index lin ill p, lins !! index = Some (lin, ill) → (p < length lin)%nat →
       ∃ pts v, lps !! index = Some pts ∧ pts !! p = Some (Some v)) ∧
    feasible px lins (prepare data).2 (byEnd px measure (mjoin (prepare data).1)) (xat xPos) (point lps).
Proof.
  intros Hpx HW HT HE E. destruct (checked_wf history kill fuel order res info HW HT HE E) as (data & Ed & Hwf).
  destruct (layout_feasible px measure data Hwf Hpx) as (lins & xPos & lps & H). by exists data, lins, xPos, lps.
Qed.
End checked.
End VL.

(** ** Pages *)

Module LayoutRuns.
Import PC PF PV PV.Drawn PK.Example VL.

(** Every character takes eight pixels. *)
Definition text_width (s : string) : Z := 8 * Z.of_nat (String.length s).

Definition page : list partitionVisualizationData :=
  default [] (@computeVisualizationData _ _ _ model printer KvDescriber merge_slices stale_entries stale_info).

Lemma stale_late : ends_late stale_entries.
Proof.
  intros es e ->%list_elem_of_singleton He Hk. exists (@makeEntries _ _ so stale).
  assert (H : forallb (λ e, bool_decide (en_time e < 15) || bool_decide (en_kind e = returnEntry)) (@makeEntries _ _ so stale) = true)
    by (vm_compute; reflexivity).
  assert (Hf : ∃ f, @makeEntries _ _ so stale !! 5%nat = Some f ∧ en_kind f = returnEntry ∧ en_time f = 15) by (eexists; vm_compute; done).
  destruct Hf as (f & Hf & Hkf & Ht). exists f. split; [by apply list_elem_of_singleton|]. split; [by eapply list_elem_of_lookup_2|].
  split; [done|]. rewrite Ht. rewrite forallb_forall in H. specialize (H e (proj1 (list_elem_of_In _ _) He)).
  apply orb_prop in H as [H|H]; apply bool_decide_eq_true in H; [done|congruence].
Qed.

Lemma stale_sorted : Forall time_sorted stale_entries.
Proof. constructor; [apply (@makeEntries_sorted _ _ so)|constructor]. Qed.

Lemma layout_readable_witness :
  ∃ data lins xPos lps, @computeVisualizationData _ _ _ model printer KvDescriber merge_slices stale_entries stale_info = Some data ∧
    linearizations (prepare data).1 data = Some lins ∧ layout 1 text_width data = Some (xPos, lps) ∧
    (∀ t, t ∈ (prepare data).2 → is_Some (xPos !! t)) ∧
    (∀ index lin ill p, lins !! index = Some (lin, ill) → (p < length lin)%nat →
       ∃ pts v, lps !! index = Some pts ∧ pts !! p = Some (Some v)) ∧
    feasible 1 lins (prepare data).2 (byEnd 1 text_width (mjoin (prepare data).1)) (xat xPos) (point lps).
Proof.
  apply (@layout_readable _ _ _ model printer KvDescriber merge_slices 1 text_width stale_entries never 20 [Some 0%nat] Illegal stale_info).
  - lia.
  - exact stale_wf.
  - exact stale_sorted.
  - exact stale_late.
  - vm_compute. reflexivity.
Defined.

Lemma page_wf : wf_data page.
Proof.
  destruct (@checked_wf _ _ _ model printer KvDescriber merge_slices stale_entries never 20 [Some 0%nat] Illegal stale_info) as (data & E & H).
  - exact stale_wf.
  - exact stale_sorted.
  - exact stale_late.
  - vm_compute. reflexivity.
  - unfold page. by rewrite E.
Qed.

(** The layout of the page, in pixels, by half timestamps. *)
Example page_layout :
  (prepare page).2 = [0; 6; 10; 16; 24; 30] ∧
  ∃ xPos, layout 1 text_width page = Some (xPos, [[Some 0; Some 144]]) ∧
    (λ t, xPos !! t) <$> (prepare page).2 = [Some 0; Some 124; Some 144; Some 268; Some 288; Some 428].
Proof. split; [vm_compute; reflexivity|]. eexists. split; vm_compute; reflexivity. Qed.

Lemma layout_least_witness :
  ∃ lins xPos lps, linearizations (prepare page).1 page = Some lins ∧ layout 1 text_width page = Some (xPos, lps) ∧
    (∀ t, t ∈ (prepare page).2 → xat xPos t ≤ xat xPos t + 1) ∧
    ∀ index lin ill p, lins !! index = Some (lin, ill) → (p < length lin)%nat → point lps index p ≤ point lps index p + 1.
Proof.
  destruct (layout_feasible 1 text_width page page_wf ltac:(lia)) as (lins & xPos & lps & EL & E & _ & _ & [H1 H2 H3 H4 H5 H6]).
  exists lins, xPos, lps. split; [exact EL|]. split; [exact E|].
  apply (layout_least 1 text_width page page_wf lins xPos lps (λ t, xat xPos t + 1) (λ i p, point lps i p + 1) ltac:(lia) EL E).
  split.
  - intros t Ht. specialize (H1 t Ht). lia.
  - intros t t' Ht Ht' Hlt. specialize (H2 t t' Ht Ht' Hlt). lia.
  - intros ev Hev. specialize (H3 ev Hev). lia.
  - intros ev index lin ill p Hev Hl Hp. specialize (H4 ev index lin ill p Hev Hl Hp). lia.
  - intros index lin ill p Hl Hp. specialize (H5 index lin ill p Hl Hp). lia.
  - intros ev index lin ill p Hev Hl Hg Hp. specialize (H6 ev index lin ill p Hev Hl Hg Hp). lia.
Defined.

(** An operation that starts and ends at the last timestamp has no next timestamp to
    move its end to: its box starts where it ends, so that the position of the last
    timestamp is [NaN]. *)
Example last_start_undefined :
  ∃ xPos, layout 1 text_width [mkPVD [mkHE 0 0 10 "a"; mkHE 1 10 10 "b"] [] ∅] = Some (xPos, []) ∧
    xPos !! 0 = Some 0 ∧ xPos !! 20 = None.
Proof. eexists. split; [vm_compute; reflexivity|]. split; vm_compute; reflexivity. Qed.
End LayoutRuns.
