(* ===== verification/PorcupineView.v ===== *)
(** What the page shows and how it reacts: the second half of [render] in
    [src/src/porcupine/visualization.go].

    The first part draws the boxes of the operations, the linearizations and the
    operations that could come next but are illegal; the second is the state that the
    handlers of mouse events share: which operation is selected, which layers are
    hidden, the tooltip and the link to the first error.  Elements of the page are
    numbers: a layer of the history is a partition, a layer of a linearization is a
    partition and an index, a box is a partition and an index.  [None] instead of a
    result is an exception. *)

From stdpp Require Import strings.
From S2P Require Import Prelude Bitset Porcupine PorcupineList PorcupineSearch PorcupineFacts PorcupineCheck PorcupineVisual PorcupineLayout.

#[local] Open Scope Z_scope.

Module VW.
Import PV VL.

(** ** Drawing *)

Section draw.
Context (px : Z).

Definition PADDING : Z := 10 * px.
Definition BOX_HEIGHT : Z := 30 * px.
Definition BOX_SPACE : Z := 15 * px.
Definition XOFF : Z := 20 * px.
Definition LINE_BLEED : Z := 5 * px.

Definition maxClient (els : list element) : Z := foldl (λ m el, m `max` el_ClientId el) (-1) els.
Definition nClient (els : list element) : Z := maxClient els + 1.

Definition canvas_height (els : list element) : Z :=
  2 * PADDING + BOX_HEIGHT * nClient els + BOX_SPACE * (nClient els - 1).

Definition canvas_width (xPos : gmap Z Z) (sortedTimestamps : list Z) : num :=
  t ← list.last sortedTimestamps; add (Some (2 * PADDING + XOFF)) (xPos !! t).

Record rect := mkRect { r_x : num; r_y : Z; r_width : num; r_height : Z }.

Definition history_rect (xPos : gmap Z Z) (el : element) : rect :=
  let rx := xPos !! el_Start el in
  mkRect (add rx (Some (XOFF + PADDING))) (PADDING + el_ClientId el * (BOX_HEIGHT + BOX_SPACE))
    (add (xPos !! el_End el) (Z.opp <$> rx)) BOX_HEIGHT.

(** A line of a linearization: [linearization] or [linearization-invalid], the mark of
    a point or the line from the previous one. *)
Record segment := mkSegment { x1 : num; x2 : num; y1 : Z; y2 : Z; valid : bool; point_mark : bool }.

(** [prevX], [prevY] and the client of [prevEl]. *)
Abbreviation cursor := (num * Z * Z)%type.

Definition here (xPos : gmap Z Z) (prev : option cursor) (el : element) : num :=
  let hereX := add (Some (PADDING + XOFF)) (xPos !! el_Start el) in
  match prev with Some (prevX, _, _) => max_ hereX (add prevX (Some (EPSILON px))) | None => hereX end.

Definition top (el : element) : Z := PADDING + el_ClientId el * (BOX_HEIGHT + BOX_SPACE) - LINE_BLEED.

Definition connector (prev : cursor) (el : element) (x : num) (ok : bool) : segment :=
  let '(prevX, prevY, client) := prev in
  let y := top el in
  mkSegment prevX x (if el_ClientId el <=? client then prevY else prevY + BOX_HEIGHT + 2 * LINE_BLEED)
    (if client <=? el_ClientId el then y else y + BOX_HEIGHT + 2 * LINE_BLEED) ok false.

Definition mark (el : element) (x : num) (ok : bool) : segment :=
  mkSegment x x (top el) (top el + BOX_HEIGHT + 2 * LINE_BLEED) ok true.

(** The loop over the steps of a linearization, each line with the index of its
    element. *)
Fixpoint draw_valid (xPos : gmap Z Z) (els : list element) (prev : option cursor) (lin : list Z)
    : option (option cursor * list (Z * segment)) :=
  match lin with
  | [] => Some (prev, [])
  | index :: lin =>
      el ← slice_get els index;
      let x := here xPos prev el in
      let segs := match prev with Some c => [(index, connector c el x true)] | None => [] end ++ [(index, mark el x true)] in
      '(prev, rest) ← draw_valid xPos els (Some (x, top el, el_ClientId el)) lin;
      Some (prev, segs ++ rest)
  end.

(** The elements that could come next; without a previous point [prevEl] is null. *)
Definition draw_illegal (xPos : gmap Z Z) (els : list element) (prev : option cursor) (index : Z)
    : option (list (Z * segment)) :=
  el ← slice_get els index;
  c ← prev;
  let x := here xPos prev el in
  Some [(index, connector c el x false); (index, mark el x false)].

Definition draw_lin (xPos : gmap Z Z) (els : list element) (lin : list Z) : option (list (Z * segment)) :=
  '(prev, segs) ← draw_valid xPos els None lin;
  more ← mapM (draw_illegal xPos els prev) (illegal_next els lin);
  Some (segs ++ mjoin more).

(** ** Drawing stays within the boxes *)

(** The mark of an operation is between the sides of its box. *)
Definition in_box (xPos : gmap Z Z) (el : element) (s : segment) : Prop :=
  ∃ x l w, x1 s = Some x ∧ x2 s = Some x ∧ r_x (history_rect xPos el) = Some l ∧
    r_width (history_rect xPos el) = Some w ∧ l ≤ x ≤ l + w.

(** Every mark of [els] is in its box. *)
Definition marks_inside (xPos : gmap Z Z) (els : list element) (segs : list (Z * segment)) : Prop :=
  ∀ index s el, (index, s) ∈ segs → point_mark s = true → slice_get els index = Some el → in_box xPos el s.

Lemma marks_app xPos els l1 l2 : marks_inside xPos els (l1 ++ l2) ↔ marks_inside xPos els l1 ∧ marks_inside xPos els l2.
Proof. unfold marks_inside. setoid_rewrite elem_of_app. naive_solver. Qed.

Lemma mark_inside xPos els index el x v l r ok :
  slice_get els index = Some el → x = Some v → xPos !! el_Start el = Some l → xPos !! el_End el = Some r →
  PADDING + XOFF + l ≤ v ≤ PADDING + XOFF + r → marks_inside xPos els [(index, mark el x ok)].
Proof.
  intros He -> Hl Hr Hv i s el' Hin _ He'. apply list_elem_of_singleton in Hin as [= -> ->]. simplify_eq.
  exists v, (l + (XOFF + PADDING)), (r + - l). unfold history_rect. simpl. rewrite Hl, Hr. simpl. split_and!; [done..|lia|lia].
Qed.

Lemma connector_inside xPos els index c el x ok : marks_inside xPos els [(index, connector c el x ok)].
Proof.
  intros i s el' Hin Hm. apply list_elem_of_singleton in Hin as [= -> ->]. by destruct c as [[??]?].
Qed.

(** The positions of the points, as in the scan. *)
Lemma draw_valid_spec xPos els prev c lin elts :
  Forall2 (λ i el, slice_get els i = Some el) lin elts →
  prev = None ∧ c = None ∨ (∃ v y cl, prev = Some (Some (PADDING + XOFF + v), y, cl) ∧ c = Some v) →
  (∀ el, el ∈ elts → is_Some (xPos !! el_Start el)) →
  (∀ j el v, elts !! j = Some el → points px (xat xPos) c (el_Start <$> elts) !! j = Some v →
     ∃ r, xPos !! el_End el = Some r ∧ v ≤ r) →
  ∃ prev' segs, draw_valid xPos els prev lin = Some (prev', segs) ∧ marks_inside xPos els segs ∧
    match list.last (points px (xat xPos) c (el_Start <$> elts)) with
    | Some v => ∃ y cl, prev' = Some (Some (PADDING + XOFF + v), y, cl)
    | None => prev' = prev
    end.
Proof.
  intros HF. revert prev c. induction HF as [|i el lin elts Hi HF IH]; intros prev c Hpc Hdef Hle.
  { exists prev, []. split_and!; [done|by intros ? ? ? ?%not_elem_of_nil|done]. }
  destruct (Hdef el) as [l Hl]; [set_solver|]. cbn [draw_valid]. rewrite Hi. cbn [mbind option_bind].
  set (v := match c with None => xat xPos (el_Start el) | Some p => xat xPos (el_Start el) `max` (p + EPSILON px) end).
  assert (Hxl : xat xPos (el_Start el) = l) by (unfold xat; by rewrite Hl).
  assert (Hx : here xPos prev el = Some (PADDING + XOFF + v)).
  { unfold here, v. rewrite Hl, Hxl. destruct Hpc as [[-> ->]|(w & y & cl & -> & ->)]; simpl; [done|]. f_equal. lia. }
  destruct (IH (Some (here xPos prev el, top el, el_ClientId el)) (Some v)) as (prev' & segs & E & Hin & Hlast).
  - right. rewrite Hx. eauto.
  - intros el' ?. apply Hdef. set_solver.
  - intros j el' v' Hj Hv'. by apply (Hle (S j)).
  - rewrite E. cbn [mbind option_bind]. eexists prev', _. split; [done|]. split.
    + rewrite !marks_app. split_and!; [destruct prev; [apply connector_inside|by intros ? ? ? ?%not_elem_of_nil]| |done].
      destruct (Hle O el v) as (r & Hr & Hvr); [done|done|]. eapply mark_inside; [done|exact Hx|done|done|].
      split; [|lia]. assert (l ≤ v) by (unfold v; rewrite Hxl; destruct c; lia). lia.
    + cbn [fmap list_fmap points]. fold v. destruct (points px (xat xPos) (Some v) (el_Start <$> elts)) as [|w ws] eqn:Ep.
      * simpl in Hlast |- *. rewrite Hlast, Hx. eauto.
      * rewrite last_cons_cons. destruct (list.last (w :: ws)) eqn:El; [exact Hlast|]. by rewrite last_None in El.
Qed.

Lemma draw_illegals_spec xPos l w y cl ix elts :
  Forall2 (λ a el, slice_get l a = Some el) ix elts →
  (∀ el, el ∈ elts → ∃ s r, xPos !! el_Start el = Some s ∧ xPos !! el_End el = Some r ∧ s ≤ r ∧ w + EPSILON px ≤ r) →
  ∃ more, mapM (draw_illegal xPos l (Some (Some (PADDING + XOFF + w), y, cl))) ix = Some more ∧
    marks_inside xPos l (mjoin more).
Proof.
  induction 1 as [|a el ix elts Ha _ IH]; intros Hel; [exists []; split; [done|]; by intros ? ? ? ?%not_elem_of_nil|].
  destruct IH as (more & E & Hm); [intros x ?; apply Hel; set_solver|].
  destruct (Hel el) as (s & r & Hs & Hr & Hsr & Hwr); [set_solver|].
  set (c := Some (Some (PADDING + XOFF + w), y, cl)) in *.
  assert (Hx : here xPos c el = Some ((PADDING + XOFF + s) `max` (PADDING + XOFF + w + EPSILON px))) by (unfold here; rewrite Hs; done).
  exists ([(a, connector (Some (PADDING + XOFF + w), y, cl) el (here xPos c el) false); (a, mark el (here xPos c el) false)] :: more). split.
  - assert (Hd : draw_illegal xPos l c a = Some [(a, connector (Some (PADDING + XOFF + w), y, cl) el (here xPos c el) false);
      (a, mark el (here xPos c el) false)]) by (unfold draw_illegal; by rewrite Ha).
    cbn [mapM]. rewrite Hd. cbn [mbind option_bind]. by rewrite E.
  - change (marks_inside xPos l ([(a, connector (Some (PADDING + XOFF + w), y, cl) el (here xPos c el) false)] ++
      [(a, mark el (here xPos c el) false)] ++ mjoin more)). rewrite !marks_app. split; [apply connector_inside|]. split; [|done].
    eapply mark_inside; [done|exact Hx|done|done|]. lia.
Qed.

Section page.
Context (measure : string → Z) (data : list partitionVisualizationData) (Hwf : wf_data data) (Hpx : 0 ≤ px).
Context (xPos : gmap Z Z) (lps : list (list num)) (Hlay : layout px measure data = Some (xPos, lps)).

Abbreviation els := ((prepare data).1).
Abbreviation tss := ((prepare data).2).
Abbreviation boxes := (byEnd px measure (mjoin els)).

Lemma lins_complete lins i v l lin0 :
  linearizations els data = Some lins → data !! i = Some v → els !! i = Some l → lin0 ∈ indices <$> PartialLinearizations v →
  ∃ index lin ill, lins !! index = Some (lin, ill) ∧ globalized l lin0 = Some lin ∧
    globalized l (illegal_next l lin0) = Some ill.
Proof.
  unfold linearizations. intros (ll & E & ->)%fmap_Some Hv Hl [k Hk]%list_elem_of_lookup. apply mapM_Some in E.
  destruct (Forall2_lookup_l _ _ _ i (l, v) E) as (ps & Hps & Hp%mapM_Some); [by apply lookup_zip_Some|].
  destruct (Forall2_lookup_l _ _ _ _ _ Hp Hk) as ([lin ill] & Hli & (g & Hg & (b & Hb & [= -> ->])%bind_Some)%bind_Some).
  assert ((lin, ill) ∈ mjoin ll) as [index Hx]%list_elem_of_lookup; [|by eauto 6].
  apply list_elem_of_join. exists ps. split; by eapply list_elem_of_lookup_2.
Qed.

(** The events of a linearization. *)
Lemma globalized_events i l ix gs :
  els !! i = Some l → globalized l ix = Some gs →
  ∃ elts, Forall2 (λ a el, slice_get l a = Some el) ix elts ∧ gs = el_Gid <$> elts ∧ ∀ el, el ∈ elts → el ∈ mjoin els.
Proof.
  intros Hi E%mapM_Some. induction E as [|a g ix gs (el & Ha & [= <-])%bind_Some E (elts & IH1 & -> & IH3)]; [exists []; split_and!; [constructor|done|set_solver]|].
  exists (el :: elts). split_and!; [by constructor|done|]. intros x [->|?]%elem_of_cons; [|by apply IH3].
  by apply (els_lookup data i l a el).
Qed.

Lemma page_facts :
  ∃ lins, linearizations els data = Some lins ∧ (∀ t, t ∈ tss → is_Some (xPos !! t)) ∧
    feasible px lins tss boxes (xat xPos) (points_at px (mjoin els) lins (xat xPos)).
Proof.
  destruct (lins_spec data Hwf) as (lins & EL & Hlins).
  destruct (layout_solved px measure data Hwf lins Hlins EL) as (xPos' & lps' & E' & Hdef & _ & HX). simplify_eq.
  exists lins. split_and!; [done|done|]. by apply data_feasible.
Qed.

Lemma element_times el :
  el ∈ mjoin els → ∃ l r, xPos !! el_Start el = Some l ∧ xPos !! el_End el = Some r ∧ el_Start el ∈ tss ∧ el_End el ∈ tss ∧ l ≤ r.
Proof.
  intros Hel. destruct page_facts as (lins & _ & Hdef & HF).
  assert (box_of px measure el ∈ boxes) as Hb by (apply boxes_elem; eauto).
  destruct (box_times px measure data Hwf _ Hb) as (Hs & He & Hlt). simpl in *.
  destruct (Hdef _ Hs) as [l Hl], (Hdef _ He) as [r Hr]. exists l, r. split_and!; [done..|].
  pose proof (fe_gap _ _ _ _ _ _ HF _ _ Hs He Hlt) as Hg. unfold xat, BOX_GAP in Hg. rewrite Hl, Hr in Hg. simpl in Hg. lia.
Qed.

Lemma starts_events elts :
  (∀ el, el ∈ elts → el ∈ mjoin els) → starts_of (mjoin els) (el_Gid <$> elts) = el_Start <$> elts.
Proof.
  induction elts as [|el elts IH]; intros H; [done|]. unfold starts_of in *. rewrite !fmap_cons, IH by set_solver.
  by rewrite start_of_gid by (apply H; set_solver).
Qed.

(** The drawing of one linearization. *)
Lemma draw_lin_inside i v l lin0 :
  data !! i = Some v → els !! i = Some l → lin0 ∈ indices <$> PartialLinearizations v →
  ∃ segs, draw_lin xPos l lin0 = Some segs ∧ marks_inside xPos l segs.
Proof.
  intros Hv Hl Hlin. destruct page_facts as (lins & EL & Hdef & HF).
  destruct (lins_complete lins i v l lin0 EL Hv Hl Hlin) as (index & lin & ill & Hx & HG & HI).
  destruct (globalized_events i l lin0 lin Hl HG) as (elts & HE & -> & Hin).
  pose proof (starts_events elts Hin) as Hst.
  assert (Hpts : ∀ p w, points px (xat xPos) None (el_Start <$> elts) !! p = Some w → points_at px (mjoin els) lins (xat xPos) index p = w).
  { intros p w Hw. eapply points_at_Some; [exact Hx|]. unfold points_of. by rewrite Hst. }
  destruct (draw_valid_spec xPos l None None lin0 elts HE) as (prev & segs & E & Hm & Hlast); [by left| | |].
  { intros el Hel. destruct (element_times el (Hin el Hel)) as (? & _ & -> & _). by eexists. }
  { intros j el w Hj Hw. destruct (element_times el) as (? & r & _ & Hr & _); [by apply Hin; eapply list_elem_of_lookup_2|].
    exists r. split; [done|]. rewrite <-(Hpts j w Hw).
    assert (box_of px measure el ∈ boxes) as Hb by (apply boxes_elem; exists el; split; [apply Hin; by eapply list_elem_of_lookup_2|done]).
    pose proof (fe_inside _ _ _ _ _ _ HF _ index _ ill j Hb Hx) as [_ Hle]; [simpl; by rewrite list_lookup_fmap, Hj|].
    simpl in Hle. unfold xat at 2 in Hle. by rewrite Hr in Hle. }
  unfold draw_lin. rewrite E. cbn [mbind option_bind].
  assert (Hlin0 : lin0 ≠ []) by (by apply (wp_lin _ (Forall_lookup_1 _ _ _ _ (proj1 Hwf) Hv) lin0 Hlin)).
  destruct (list.last (points px (xat xPos) None (el_Start <$> elts))) as [w|] eqn:Hw.
  2:{ apply last_None in Hw. apply (f_equal length) in Hw. rewrite points_length, length_fmap, <-(Forall2_length HE) in Hw. by destruct lin0. }
  destruct Hlast as (y & cl & ->).
  destruct (globalized_events i l _ ill Hl HI) as (ills & HEI & -> & Hini).
  destruct (draw_illegals_spec xPos l w y cl _ _ HEI) as (more & -> & Hmm); [|eexists; split; [done|]; by apply marks_app].
  intros el Hel. destruct (element_times el (Hini el Hel)) as (s & r & Hs & Hr & _ & _ & Hsr). exists s, r. split_and!; [done..|].
  assert (box_of px measure el ∈ boxes) as Hb by (apply boxes_elem; eauto). rewrite last_lookup, points_length, length_fmap in Hw.
  pose proof (fe_next _ _ _ _ _ _ HF _ index _ _ (pred (length elts)) Hb Hx) as Hn. cbn [box_of b_end b_gid] in Hn. rewrite (Hpts _ _ Hw) in Hn.
  unfold xat in Hn. rewrite Hr in Hn. simpl in Hn. apply Hn; [by apply list_elem_of_fmap_2|].
  rewrite length_fmap, <-(Forall2_length HE). by destruct lin0.
Qed.

Lemma maxClient_ge (l : list element) el : el ∈ l → el_ClientId el ≤ maxClient l.
Proof.
  unfold maxClient. generalize (-1). induction l as [|x l IH]; intros m; [by intros ?%not_elem_of_nil|].
  intros [->|Hin]%elem_of_cons; simpl; [|by apply IH]. clear IH. revert m.
  assert (Hmono : ∀ l m, m ≤ foldl (λ m el, m `max` el_ClientId el) m l).
  { induction l0 as [|z l0 IH]; intros m; simpl; [lia|]. specialize (IH (m `max` el_ClientId z)). lia. }
  intros m. specialize (Hmono l (m `max` el_ClientId x)). lia.
Qed.

(** The boxes lie on the canvas. *)
Lemma rect_on_canvas el :
  el ∈ mjoin els → 0 ≤ el_ClientId el →
  ∃ x w W, r_x (history_rect xPos el) = Some x ∧ r_width (history_rect xPos el) = Some w ∧ canvas_width xPos tss = Some W ∧
    0 ≤ x ∧ 0 ≤ w ∧ x + w ≤ W ∧ 0 ≤ r_y (history_rect xPos el) ∧
    r_y (history_rect xPos el) + r_height (history_rect xPos el) ≤ canvas_height (mjoin els).
Proof.
  intros Hel Hc. destruct (element_times el Hel) as (l & r & Hl & Hr & Hs & He & Hle). destruct page_facts as (lins & _ & Hdef & HF).
  destruct (list.last tss) as [t|] eqn:Ht; [|apply last_None in Ht; rewrite Ht in Hs; by apply not_elem_of_nil in Hs].
  assert (t ∈ tss) as Htin by (rewrite last_lookup in Ht; by eapply list_elem_of_lookup_2).
  destruct (Hdef t Htin) as [z Hz]. pose proof (fe_nonneg _ _ _ _ _ _ HF _ Hs) as H0.
  assert (r ≤ z).
  { pose proof (tss_sorted data) as Hsort. destruct (decide (el_End el = t)) as [E|Hne]; [rewrite E in Hr; by simplify_eq|].
    apply list_elem_of_lookup in He as [k Hk]. rewrite last_lookup in Ht. rewrite StronglySorted_lookup_iff in Hsort.
    assert (el_End el < t).
    { eapply (Hsort k (pred (length tss))); [|done|done]. pose proof (lookup_lt_Some _ _ _ Hk).
      destruct (decide (k = pred (length tss))) as [->|]; [congruence|lia]. }
    pose proof (fe_gap _ _ _ _ _ _ HF (el_End el) t ltac:(by eapply list_elem_of_lookup_2) Htin ltac:(done)) as Hg.
    unfold xat, BOX_GAP in Hg. rewrite Hr, Hz in Hg. simpl in Hg. lia. }
  unfold xat in H0. rewrite Hl in H0. simpl in H0. 
  assert (canvas_width xPos tss = Some (2 * PADDING + XOFF + z)) as -> by (unfold canvas_width; rewrite Ht; cbn [mbind option_bind]; by rewrite Hz).
  unfold history_rect. cbn [r_x r_y r_width r_height]. rewrite Hl, Hr. cbn [add mbind option_bind fmap option_fmap option_map].
  pose proof (maxClient_ge (mjoin els) el Hel) as Hm. unfold canvas_height, nClient, PADDING, XOFF, BOX_HEIGHT, BOX_SPACE in *.
  eexists _, _, _. split_and!; [reflexivity..|lia|lia|lia|nia|nia].
Qed.

(** the drawing is true to the layout. On data that can be drawn, every mark of a
    linearization, of a step or of an operation that could come next, is between the
    sides of the box of its operation, and every box lies on the canvas. *)
Theorem drawing_inside :
  (∀ i v l lin, data !! i = Some v → els !! i = Some l → lin ∈ indices <$> PartialLinearizations v →
     ∃ segs, draw_lin xPos l lin = Some segs ∧ marks_inside xPos l segs) ∧
  ∀ el, el ∈ mjoin els → 0 ≤ el_ClientId el →
    ∃ x w W, r_x (history_rect xPos el) = Some x ∧ r_width (history_rect xPos el) = Some w ∧ canvas_width xPos tss = Some W ∧
      0 ≤ x ∧ 0 ≤ w ∧ x + w ≤ W ∧ 0 ≤ r_y (history_rect xPos el) ∧
      r_y (history_rect xPos el) + r_height (history_rect xPos el) ≤ canvas_height (mjoin els).
Proof. split; [apply draw_lin_inside|apply rect_on_canvas]. Qed.
End page.
End draw.

(** ** Error points *)

Section view.
Context (px : Z) (xPos : gmap Z Z) (data : list partitionVisualizationData).
Abbreviation els := ((prepare data).1).

(** [illegalLast[partition][linIndex]] *)
Definition illegalLast (p k : Z) : option (list Z) :=
  v ← slice_get data p; l ← slice_get els p; lin ← slice_get (PartialLinearizations v) k;
  Some (illegal_next l (indices lin)).

(** The inner loop that fills [largestIllegal] and [largestIllegalLength]. *)
Definition largest_step (k size : Z) (acc : gmap Z Z * gmap Z Z) (index : Z) : gmap Z Z * gmap Z Z :=
  let '(largest, lengths) := acc in
  if match lengths !! index with None => true | Some n => n <? size end
  then (<[index := k]> largest, <[index := size]> lengths)
  else acc.

Definition largestIllegal (v : partitionVisualizationData) (l : list element) : gmap Z Z :=
  (foldl (λ acc '(k, lin), foldl (largest_step k (len lin)) acc (illegal_next l lin)) (∅, ∅)
     (imap (λ k lin, (Z.of_nat k, indices lin)) (PartialLinearizations v))).1.

Record errorPoint := mkError { e_x : num; e_partition : Z; e_index : Z; e_layer : Z }.

(** The error points of one linearization: the marks that are not valid. *)
Definition lin_errors (p : Z) (l : list element) (k : Z) (lin : list Z) : option (list errorPoint) :=
  segs ← draw_lin px xPos l lin;
  mapM (λ s, index ← list.last lin; Some (mkError (x1 s) p index k))
    (filter (λ s, valid s = false ∧ point_mark s = true) (snd <$> segs)).

Definition partition_errors (p : Z) (v : partitionVisualizationData) (l : list element) : option (list errorPoint) :=
  mjoin <$> mapM (λ '(k, lin), lin_errors p l k lin) (imap (λ k lin, (Z.of_nat k, indices lin)) (PartialLinearizations v)).

Definition errorPoints : option (list errorPoint) :=
  errs ← mapM (λ '(p, (v, l)), partition_errors p v l) (imap (λ p x, (Z.of_nat p, x)) (zip data els));
  Some (sort_by (λ e, default 0 (e_x e)) (mjoin errs)).

(** ** The state of the page *)

(** The texts of the tooltip; the state description comes from the model. *)
Inductive tip :=
  | OtherPartition
  | NotInAny
  | SelectedNotInAny
  | NewState (previous : option string) (new : string) (call ret : Z)
  | InvalidOp (previous : string) (call ret : Z)
  | NotInSelected.

(** Classes of elements are functions of the element: the layer of a partition, the
    layer of a linearization, the box of an operation. *)
Record view := mkView {
  selected : bool;
  selectedIndex : Z * Z;
  historyHidden : Z → bool;
  partialHidden : Z → Z → bool;
  rectSelected : Z → Z → bool;
  tooltip : option tip;
  tooltipShown : bool;
  lastTooltip : option (Z * Z * bool * Z * Z);
  jump : option (Z * Z);
  jumpActive : bool
}.
Implicit Types vw : view.

Definition set_selection s i vw := mkView s i (historyHidden vw) (partialHidden vw) (rectSelected vw) (tooltip vw) (tooltipShown vw) (lastTooltip vw) (jump vw) (jumpActive vw).
Definition set_layers h q vw := mkView (selected vw) (selectedIndex vw) h q (rectSelected vw) (tooltip vw) (tooltipShown vw) (lastTooltip vw) (jump vw) (jumpActive vw).
Definition set_rects r vw := mkView (selected vw) (selectedIndex vw) (historyHidden vw) (partialHidden vw) r (tooltip vw) (tooltipShown vw) (lastTooltip vw) (jump vw) (jumpActive vw).
Definition set_tooltip t b l vw := mkView (selected vw) (selectedIndex vw) (historyHidden vw) (partialHidden vw) (rectSelected vw) t b l (jump vw) (jumpActive vw).
Definition set_jump j b vw := mkView (selected vw) (selectedIndex vw) (historyHidden vw) (partialHidden vw) (rectSelected vw) (tooltip vw) (tooltipShown vw) (lastTooltip vw) j b.

Definition get_box (p i : Z) : option historyElement := v ← slice_get data p; slice_get (History v) i.
Definition get_lin (p k : Z) : option (list linearizationStep) := v ← slice_get data p; slice_get (PartialLinearizations v) k.

(** [linearizationIndex(partition, index)]; [null] is [Some None]. *)
Definition linearizationIndex (p i : Z) : option (option Z) :=
  v ← slice_get data p; l ← slice_get els p;
  Some match Largest v !! i with Some k => Some k | None => largestIllegal v l !! i end.

Section errs.
Context (errs : list errorPoint).

Definition visible vw (e : errorPoint) : bool := negb (partialHidden vw (e_partition e) (e_layer e)).

Definition updateJump vw : view :=
  match List.find (visible vw) errs with
  | Some e => set_jump (Some (e_partition e, e_index e)) true vw
  | None => set_jump (jump vw) false vw
  end.

(** Hide everything but the partition and the linearization [m]. *)
Definition only (p : Z) (m : option Z) (q k : Z) : bool := negb (bool_decide (q = p ∧ m = Some k)).

Definition highlight (p i : Z) vw : option view :=
  maxIndex ← linearizationIndex p i;
  _ ← match maxIndex with Some k => _ ← get_lin p k; Some tt | None => Some tt end;
  Some (updateJump (set_layers (λ q, negb (q =? p)) (only p maxIndex) vw)).

Definition resetHighlight vw : view := updateJump (set_layers (λ _, false) (λ _ k, negb (k =? 0)) vw).

Definition set_rect (p i : Z) (b : bool) vw : option view :=
  _ ← get_box p i;
  Some (set_rects (λ q j, if decide (q = p ∧ j = i) then b else rectSelected vw q j) vw).

Definition select (p i : Z) vw : option view :=
  vw ← highlight p i (set_selection true (p, i) vw);
  set_rect p i true vw.

Definition deselect vw : option view :=
  if selected vw then
    let vw := resetHighlight (set_selection false (selectedIndex vw) vw) in
    set_rect (selectedIndex vw).1 (selectedIndex vw).2 false vw
  else Some vw.

Definition handleMouseOver (p i : Z) vw : option view :=
  vw ← (if selected vw then Some vw else highlight p i vw);
  Some (set_tooltip (tooltip vw) true (lastTooltip vw) vw).

(** The step with the given index and the one before it. *)
Fixpoint find_step (i : Z) (prev : option linearizationStep) (lin : list linearizationStep)
    : option (option linearizationStep * linearizationStep) :=
  match lin with
  | [] => None
  | curr :: lin => if Index curr =? i then Some (prev, curr) else find_step i (Some curr) lin
  end.

(** What the tooltip says about [(p, i)] when [sel] and [(sp, si)] are the selection. *)
Definition message (p i : Z) (sel : bool) (sp si : Z) : option tip :=
  maxIndex ← (if sel then linearizationIndex sp si else linearizationIndex p i);
  if sel && negb (sp =? p) then Some OtherPartition
  else match maxIndex with
       | None => Some (if sel then SelectedNotInAny else NotInAny)
       | Some k =>
           lin ← get_lin p k;
           he ← get_box p i;
           match find_step i None lin with
           | Some (prev, curr) =>
               Some (NewState (StateDescription <$> prev) (StateDescription curr) (Start he) (End_ he))
           | None =>
               illegal ← illegalLast p k;
               if decide (i ∈ illegal) then
                 s ← list.last lin; Some (InvalidOp (StateDescription s) (Start he) (End_ he))
               else Some NotInSelected
           end
       end.

Definition handleMouseMove (p i : Z) vw : option view :=
  let '(sp, si) := selectedIndex vw in
  let thisTooltip := (p, i, selected vw, sp, si) in
  if decide (lastTooltip vw = Some thisTooltip) then Some vw
  else
    m ← message p i (selected vw) sp si;
    Some (set_tooltip (Some m) (tooltipShown vw) (Some thisTooltip) vw).

Definition handleMouseOut vw : view :=
  let vw := if selected vw then vw else resetHighlight vw in
  set_tooltip (tooltip vw) false None vw.

Definition handleClick (p i : Z) vw : option view :=
  if selected vw then
    let '(sp, si) := selectedIndex vw in
    if (p =? sp) && (i =? si) then deselect vw
    else vw ← set_rect sp si false vw; select p i vw
  else select p i vw.

Definition handleBgClick vw : option view := deselect vw.

(** A click on the link, which is not displayed when it is inactive. *)
Definition handleJump vw : option view :=
  match jump vw with
  | Some (p, i) => if selected vw then Some vw else select p i vw
  | None => Some vw
  end.

(** The page when [render] ends. *)
Definition fresh_view : view :=
  handleMouseOut (mkView false (-1, -1) (λ _, false) (λ _ _, false) (λ _ _, false) None false None None false).

(** ** Consistency of the page *)

(** Every linearization has a step, and [Largest] points to linearizations. *)
Record showable : Prop := {
  sh_lin : ∀ p k lin, get_lin p k = Some lin → lin ≠ [];
  sh_largest : ∀ p v i k, slice_get data p = Some v → Largest v !! i = Some k → is_Some (get_lin p k);
  sh_errs : ∀ e, e ∈ errs → is_Some (get_box (e_partition e) (e_index e))
}.
Context (Hs : showable).

Lemma els_same p v : slice_get data p = Some v → ∃ l, slice_get els p = Some l.
Proof.
  intros [H0 Hv]%slice_get_Some. destruct (Forall2_lookup_l _ _ _ _ _ (number_shows 0 data) Hv) as (l & Hl & _).
  eexists. apply slice_get_Some. split; [done|]. by rewrite els_tweaked, list_lookup_fmap, Hl.
Qed.

Lemma largestIllegal_range v l i k :
  largestIllegal v l !! i = Some k → is_Some (slice_get (PartialLinearizations v) k).
Proof.
  unfold largestIllegal.
  assert (H : ∀ ps acc, (∀ k lin, (k, lin) ∈ ps → is_Some (slice_get (PartialLinearizations v) k)) →
    (∀ i k, acc.1 !! i = Some k → is_Some (slice_get (PartialLinearizations v) k)) →
    ∀ i k, (foldl (λ acc '(k, lin), foldl (largest_step k (len lin)) acc (illegal_next l lin)) acc ps).1 !! i = Some k →
      is_Some (slice_get (PartialLinearizations v) k)).
  { induction ps as [|[k0 lin] ps IH]; intros acc Hps Hacc; [done|]. simpl. apply IH; [intros k1 lin1 ?; apply (Hps k1 lin1); by apply elem_of_cons; right|].
    assert (Hk0 : is_Some (slice_get (PartialLinearizations v) k0)) by (apply (Hps k0 lin), elem_of_cons; by left).
    revert acc Hacc. generalize (len lin). generalize (illegal_next l lin). clear -Hk0. intros ix size.
    induction ix as [|a ix IH]; intros acc Hacc; [done|]. simpl. apply IH. destruct acc as [largest lengths]. unfold largest_step.
    case_match; [|done]. simpl. intros i k. destruct (decide (a = i)) as [->|]; [rewrite lookup_insert_eq; by intros [= <-]|].
    rewrite lookup_insert_ne by done. apply Hacc. }
  apply H; [|done]. intros k' lin (n & lin' & [= -> ->] & Hn)%elem_of_lookup_imap. exists lin'. apply slice_get_Some. split; [lia|]. by rewrite Nat2Z.id.
Qed.

Lemma linearizationIndex_ok p i :
  is_Some (get_box p i) → ∃ m, linearizationIndex p i = Some m ∧ ∀ k, m = Some k → is_Some (get_lin p k).
Proof.
  intros [he (v & Hv & _)%bind_Some]. destruct (els_same p v Hv) as [l Hl]. unfold linearizationIndex. rewrite Hv, Hl. simpl.
  eexists. split; [done|]. intros k Hk. destruct (Largest v !! i) as [k'|] eqn:E.
  - simplify_eq. by eapply sh_largest.
  - unfold get_lin. rewrite Hv. simpl. by eapply largestIllegal_range.
Qed.

Lemma illegalLast_ok p k lin : get_lin p k = Some lin → is_Some (illegalLast p k).
Proof.
  intros (v & Hv & Hk)%bind_Some. destruct (els_same p v Hv) as [l Hl]. unfold illegalLast. rewrite Hv, Hl. simpl. rewrite Hk. by eexists.
Qed.

Lemma message_ok p i sel sp si :
  is_Some (get_box p i) → (sel = true → is_Some (get_box sp si)) → is_Some (message p i sel sp si).
Proof.
  intros Hb Hsel. pose proof Hb as [he Hhe]. unfold message.
  assert (∃ m, (if sel then linearizationIndex sp si else linearizationIndex p i) = Some m ∧
    ∀ k, m = Some k → is_Some (get_lin (if sel then sp else p) k)) as (m & -> & Hm).
  { destruct sel; apply linearizationIndex_ok; [by apply Hsel|done]. }
  cbn [mbind option_bind]. destruct (sel && negb (sp =? p)) eqn:Eo; [by eexists|]. destruct m as [k|]; [|by eexists].
  assert ((if sel then sp else p) = p) as Ep by (destruct sel; [|done]; destruct (Z.eqb_spec sp p); done).
  destruct (Hm k eq_refl) as [lin Hlin]. rewrite Ep in Hlin. rewrite Hlin. cbn [mbind option_bind]. rewrite Hhe. cbn [mbind option_bind].
  destruct (find_step i None lin) as [[prev curr]|]; [by eexists|].
  destruct (illegalLast_ok p k lin Hlin) as [ill ->]. cbn [mbind option_bind]. case_decide; [|by eexists].
  destruct (list.last lin) as [s|] eqn:El; [by eexists|]. apply last_None in El. by apply (sh_lin Hs p k lin) in Hlin.
Qed.

(** What is hidden: everything but the partition [p] and its linearization [m], or
    everything but the longest linearizations. *)
Definition focused (p : Z) (m : option Z) vw : Prop :=
  (∀ q, historyHidden vw q = negb (q =? p)) ∧ ∀ q k, partialHidden vw q k = only p m q k.

Definition overview vw : Prop :=
  (∀ q, historyHidden vw q = false) ∧ ∀ q k, partialHidden vw q k = negb (k =? 0).

(** The link leads to the first error that is not hidden, and is inactive when there is
    none. *)
Definition link_ok vw : Prop :=
  match List.find (visible vw) errs with
  | Some e => jumpActive vw = true ∧ jump vw = Some (e_partition e, e_index e)
  | None => jumpActive vw = false
  end.

Definition targets_ok vw : Prop := ∀ p i, jump vw = Some (p, i) → is_Some (get_box p i).

(** The tooltip says what [lastTooltip] stands for. *)
Definition cache_ok vw : Prop :=
  ∀ p i sel sp si, lastTooltip vw = Some (p, i, sel, sp, si) →
    ∃ t, tooltip vw = Some t ∧ message p i sel sp si = Some t.

Record view_ok vw : Prop := {
  vo_selected : selected vw = true → is_Some (get_box (selectedIndex vw).1 (selectedIndex vw).2) ∧
    ∃ m, linearizationIndex (selectedIndex vw).1 (selectedIndex vw).2 = Some m ∧ focused (selectedIndex vw).1 m vw;
  vo_unselected : selected vw = false →
    overview vw ∨ ∃ p i m, is_Some (get_box p i) ∧ linearizationIndex p i = Some m ∧ focused p m vw;
  vo_rects : ∀ p i, rectSelected vw p i = selected vw && bool_decide ((p, i) = selectedIndex vw);
  vo_link : link_ok vw;
  vo_targets : targets_ok vw;
  vo_cache : cache_ok vw
}.

Lemma find_update vw : List.find (visible (updateJump vw)) errs = List.find (visible vw) errs.
Proof.
  assert (visible (updateJump vw) = visible vw) as ->; [|done]. unfold updateJump. by destruct (List.find (visible vw) errs).
Qed.

(** The fields that highlighting leaves alone. *)
Definition same_frame vw vw' : Prop :=
  selected vw' = selected vw ∧ selectedIndex vw' = selectedIndex vw ∧ rectSelected vw' = rectSelected vw ∧
  tooltip vw' = tooltip vw ∧ lastTooltip vw' = lastTooltip vw.

Lemma update_frame vw h q :
  let vw' := updateJump (set_layers h q vw) in
  same_frame vw vw' ∧ historyHidden vw' = h ∧ partialHidden vw' = q.
Proof. unfold updateJump. by destruct (List.find _ errs). Qed.

Lemma update_link vw : targets_ok vw → link_ok (updateJump vw) ∧ targets_ok (updateJump vw).
Proof.
  intros Hj. unfold link_ok, targets_ok. rewrite find_update. unfold updateJump.
  destruct (List.find (visible vw) errs) as [e|] eqn:E; [|done].
  split; [done|]. intros p i [= <- <-]. apply (sh_errs Hs). apply find_some in E as [E _]. by apply list_elem_of_In.
Qed.

Lemma highlight_ok p i vw :
  is_Some (get_box p i) → targets_ok vw →
  ∃ vw' m, highlight p i vw = Some vw' ∧ linearizationIndex p i = Some m ∧ focused p m vw' ∧
    same_frame vw vw' ∧ link_ok vw' ∧ targets_ok vw'.
Proof.
  intros Hb Ht. destruct (linearizationIndex_ok p i Hb) as (m & Hm & Hk). unfold highlight. rewrite Hm. cbn [mbind option_bind].
  assert (∃ u : unit, match m with Some k => get_lin p k ≫= (λ _, Some tt) | None => Some tt end = Some u) as [u Hu].
  { destruct m as [k|]; [|by eexists]. destruct (Hk k eq_refl) as [lin ->]. by eexists. }
  unfold mbind, option_bind in *. rewrite Hu.
  destruct (update_frame vw (λ q, negb (q =? p)) (only p m)) as (Hf & Hh & Hq).
  eexists _, m. split_and!; [done|done|split; intros; by rewrite ?Hh, ?Hq|apply Hf..|apply update_link|apply update_link]; done.
Qed.

Lemma reset_ok vw :
  targets_ok vw → overview (resetHighlight vw) ∧ same_frame vw (resetHighlight vw) ∧
    link_ok (resetHighlight vw) ∧ targets_ok (resetHighlight vw).
Proof.
  intros Ht. destruct (update_frame vw (λ _, false) (λ _ k, negb (k =? 0))) as (Hf & Hh & Hq).
  split_and!; [split; intros; unfold resetHighlight; by rewrite ?Hh, ?Hq|apply Hf..|apply update_link|apply update_link]; done.
Qed.

Lemma cache_frame vw vw' : same_frame vw vw' → cache_ok vw → cache_ok vw'.
Proof. intros (_ & _ & _ & Ht & Hl) Hc. unfold cache_ok. rewrite Ht, Hl. apply Hc. Qed.

Lemma select_ok p i vw :
  is_Some (get_box p i) → (∀ q j, rectSelected vw q j = false) → targets_ok vw → cache_ok vw →
  ∃ vw', select p i vw = Some vw' ∧ view_ok vw'.
Proof.
  intros Hb Hr Ht Hc. destruct (highlight_ok p i (set_selection true (p, i) vw) Hb Ht) as (vw' & m & E & Hm & Hf & Hfr & Hl & Ht').
  pose proof (cache_frame _ _ Hfr Hc) as Hc'. destruct Hfr as (Es & Ei & Er & _). simpl in *.
  unfold select, set_rect. rewrite E. cbn [mbind option_bind]. destruct Hb as [he Hhe]. rewrite Hhe. cbn [mbind option_bind].
  eexists. split; [done|]. split; cbn [set_rects selected selectedIndex rectSelected]; rewrite ?Es, ?Ei; [|done| |done..].
  - intros _. simpl. split; [by rewrite Hhe|]. by exists m.
  - intros q j. rewrite Er, Hr. simpl. case_decide as Hd; case_bool_decide as Hd'; [done| | |done].
    { destruct Hd as [-> ->]. by destruct Hd'. }
    destruct Hd. by simplify_eq.
Qed.

Lemma deselect_ok vw : view_ok vw → ∃ vw', deselect vw = Some vw' ∧ view_ok vw' ∧ selected vw' = false.
Proof.
  intros Hok. pose proof Hok as [Hsel Huns Hr Hl Ht Hc]. unfold deselect. destruct (selected vw) eqn:Es; [|by exists vw].
  destruct (Hsel eq_refl) as [[he Hhe] _].
  destruct (reset_ok (set_selection false (selectedIndex vw) vw) Ht) as (Ho & Hfr & Hl' & Ht').
  pose proof (cache_frame _ _ Hfr Hc) as Hc'. destruct Hfr as (Es' & Ei' & Er' & _). simpl in Es', Ei', Er'.
  set (vw' := resetHighlight _) in *. unfold set_rect. rewrite Ei', Hhe. cbn [mbind option_bind].
  eexists. split; [done|]. split; [|by cbn]. split; cbn [set_rects selected selectedIndex rectSelected]; rewrite ?Es'; [done|by left| |done..].
  intros p i. rewrite Er', Hr. case_decide as Hd; [done|]. simpl. apply bool_decide_eq_false. intros E. apply Hd. by rewrite <-E.
Qed.

(** ** Events *)

Inductive event :=
  | MouseOver (p i : Z)
  | MouseMove (p i : Z)
  | MouseOut
  | Click (p i : Z)
  | BgClick
  | JumpClick.

Definition handle (ev : event) vw : option view :=
  match ev with
  | MouseOver p i => handleMouseOver p i vw
  | MouseMove p i => handleMouseMove p i vw
  | MouseOut => Some (handleMouseOut vw)
  | Click p i => handleClick p i vw
  | BgClick => handleBgClick vw
  | JumpClick => handleJump vw
  end.

(** Events of an operation come from its box. *)
Definition on_box (ev : event) : Prop :=
  match ev with MouseOver p i | MouseMove p i | Click p i => is_Some (get_box p i) | _ => True end.

Lemma mouse_over_ok p i vw : is_Some (get_box p i) → view_ok vw → ∃ vw', handleMouseOver p i vw = Some vw' ∧ view_ok vw'.
Proof.
  intros Hb [Hsel Huns Hr Hl Ht Hc]. unfold handleMouseOver. destruct (selected vw) eqn:Es; [by eexists; split; [done|]; split; cbn [set_tooltip selected selectedIndex rectSelected]; rewrite ?Es|].
  destruct (highlight_ok p i vw Hb Ht) as (vw' & m & E & Hm & Hf & Hfr & Hl' & Ht'). rewrite E. cbn [mbind option_bind].
  pose proof (cache_frame _ _ Hfr Hc) as Hc'. destruct Hfr as (Es' & Ei' & Er' & _). eexists. split; [done|].
  split; cbn [set_tooltip selected selectedIndex rectSelected]; rewrite ?Es', ?Ei', ?Er', ?Es; [done| |done..].
  intros _. right. by exists p, i, m.
Qed.

Lemma mouse_move_ok p i vw :
  is_Some (get_box p i) → view_ok vw →
  ∃ vw', handleMouseMove p i vw = Some vw' ∧ view_ok vw' ∧
    ∃ t, tooltip vw' = Some t ∧ message p i (selected vw) (selectedIndex vw).1 (selectedIndex vw).2 = Some t.
Proof.
  intros Hb Hok. pose proof Hok as [Hsel Huns Hr Hl Ht Hc]. unfold handleMouseMove. destruct (selectedIndex vw) as [sp si] eqn:Ei. simpl.
  case_decide as Hd; [exists vw; split_and!; [done|done|]; by apply Hc|].
  destruct (message_ok p i (selected vw) sp si Hb) as [t Et]; [intros E; by destruct (Hsel E) as [? _]|].
  rewrite Et. cbn [mbind option_bind]. eexists. split_and!; [done| |by exists t].
  split; cbn [set_tooltip selected selectedIndex rectSelected]; rewrite ?Ei; [done..|].
  intros ????? [= <- <- <- <- <-]. by exists t.
Qed.

Lemma mouse_out_ok vw : view_ok vw → view_ok (handleMouseOut vw).
Proof.
  intros [Hsel Huns Hr Hl Ht Hc]. unfold handleMouseOut. destruct (selected vw) eqn:Es; [by split; cbn [set_tooltip selected selectedIndex rectSelected]; rewrite ?Es|].
  destruct (reset_ok vw Ht) as (Ho & Hfr & Hl' & Ht'). destruct Hfr as (Es' & Ei' & Er' & _).
  split; cbn [set_tooltip selected selectedIndex rectSelected]; rewrite ?Es', ?Ei', ?Er', ?Es; [done|by left|done..].
Qed.

Lemma click_ok p i vw : is_Some (get_box p i) → view_ok vw → ∃ vw', handleClick p i vw = Some vw' ∧ view_ok vw'.
Proof.
  intros Hb Hok. pose proof Hok as [Hsel Huns Hr Hl Ht Hc]. unfold handleClick. destruct (selected vw) eqn:Es.
  - destruct (selectedIndex vw) as [sp si] eqn:Ei. destruct ((p =? sp) && (i =? si)); [destruct (deselect_ok vw Hok) as (vw' & ? & ? & _); eauto|].
    destruct (Hsel eq_refl) as [[he Hhe] _]. unfold set_rect. simpl in Hhe. rewrite Hhe. cbn [mbind option_bind].
    apply select_ok; [done| |done..]. intros q j. cbn. case_decide as Hd; [done|]. rewrite Hr. simpl.
    apply bool_decide_eq_false. naive_solver.
  - apply select_ok; [done| |done..]. intros q j. by rewrite Hr.
Qed.

Lemma jump_ok vw : view_ok vw → ∃ vw', handleJump vw = Some vw' ∧ view_ok vw'.
Proof.
  intros Hok. pose proof Hok as [Hsel Huns Hr Hl Ht Hc]. unfold handleJump. destruct (jump vw) as [[p i]|] eqn:Ej; [|by exists vw].
  destruct (selected vw); [by exists vw|]. apply select_ok; [by apply Ht|intros; by rewrite Hr|done..].
Qed.

Lemma handle_ok ev vw : on_box ev → view_ok vw → ∃ vw', handle ev vw = Some vw' ∧ view_ok vw'.
Proof.
  destruct ev; simpl; intros Hb Hok.
  - by apply mouse_over_ok.
  - destruct (mouse_move_ok p i vw Hb Hok) as (vw' & ? & ? & _). eauto.
  - eexists. split; [done|]. by apply mouse_out_ok.
  - by apply click_ok.
  - destruct (deselect_ok vw Hok) as (vw' & ? & ? & _). eauto.
  - by apply jump_ok.
Qed.

Lemma fresh_view_ok : view_ok fresh_view.
Proof.
  unfold fresh_view, handleMouseOut. cbn [selected].
  set (vw0 := mkView _ _ _ _ _ _ _ _ _ _). assert (Ht : targets_ok vw0) by done.
  destruct (reset_ok vw0 Ht) as (Ho & Hfr & Hl' & Ht'). destruct Hfr as (Es' & Ei' & Er' & _).
  split; cbn [set_tooltip selected selectedIndex rectSelected]; rewrite ?Es', ?Ei', ?Er'; [done|by left|done..].
Qed.

(** Every sequence of events, from the page as it opens. *)
Definition react (evs : list event) : option view := foldl (λ r ev, vw ← r; handle ev vw) (Some fresh_view) evs.

Lemma react_ok evs : Forall on_box evs → ∃ vw, react evs = Some vw ∧ view_ok vw.
Proof.
  induction evs as [|ev evs IH] using rev_ind; intros Hev; [exists fresh_view; split; [done|apply fresh_view_ok]|].
  apply Forall_app in Hev as [Hev H1%Forall_inv]. destruct (IH Hev) as (vw & E & Hok).
  unfold react in *. rewrite foldl_app, E. simpl. by apply handle_ok.
Qed.
End errs.
End view.

(** ** The page of a check *)

Section opened.
Context (px : Z) (measure : string → Z) (data : list partitionVisualizationData) (Hwf : wf_data data) (Hpx : 0 ≤ px).
Context (xPos : gmap Z Z) (lps : list (list num)) (Hlay : layout px measure data = Some (xPos, lps)).

Lemma wf_get p v : slice_get data p = Some v → wf_partition v.
Proof. intros [_ Hv]%slice_get_Some. destruct Hwf as [HF _]. by eapply Forall_lookup_1. Qed.

Lemma shown_lin_nonempty v k lin : wf_partition v → PartialLinearizations v !! k = Some lin → lin ≠ [].
Proof.
  intros Hv Hk ->. destruct (wp_lin v Hv []) as [? _]; [|done]. apply list_elem_of_fmap. exists []. split; [done|]. by eapply list_elem_of_lookup_2.
Qed.

Lemma mapM_choice {A B} (f : A → option B) (P : B → Prop) (l : list A) :
  (∀ x, x ∈ l → ∃ y, f x = Some y ∧ P y) → ∃ ys, mapM f l = Some ys ∧ Forall P ys.
Proof.
  induction l as [|x l IH]; intros H; [by exists []|]. destruct (H x) as (y & Ey & Hy); [by left|].
  destruct IH as (ys & E & HP); [intros; apply H; by right|]. exists (y :: ys). simpl. rewrite Ey. simpl. rewrite E. simpl.
  split; [done|]. by constructor.
Qed.

(** The errors of a linearization belong to its last operation. *)
Lemma lin_errors_ok p v l k lin :
  data !! p = Some v → (prepare data).1 !! p = Some l → lin ∈ indices <$> PartialLinearizations v →
  ∃ es, lin_errors px xPos (Z.of_nat p) l k lin = Some es ∧
    ∀ e, e ∈ es → e_partition e = Z.of_nat p ∧ 0 ≤ e_index e < len (History v).
Proof.
  intros Hv Hl Hlin. destruct (draw_lin_inside px measure data Hwf Hpx xPos lps Hlay p v l lin Hv Hl Hlin) as (segs & Hsegs & _).
  assert (Hw : wf_partition v) by (destruct Hwf as [HF _]; by eapply Forall_lookup_1).
  destruct (wp_lin v Hw lin Hlin) as (Hne & _ & Hrange & _).
  destruct (list.last lin) as [a|] eqn:Ea; [|by apply last_None in Ea]. unfold lin_errors. rewrite Hsegs. cbn [mbind option_bind]. rewrite Ea.
  set (bad := filter _ _). exists ((λ s, mkError (x1 s) (Z.of_nat p) a k) <$> bad). split.
  - apply mapM_Some. apply Forall2_fmap_r, Forall_Forall2_diag, Forall_forall. done.
  - intros e (s & -> & _)%list_elem_of_fmap. simpl. split; [done|]. apply Hrange. rewrite last_lookup in Ea. by eapply list_elem_of_lookup_2.
Qed.

Lemma partition_errors_ok p v l :
  data !! p = Some v → (prepare data).1 !! p = Some l →
  ∃ es, partition_errors px xPos (Z.of_nat p) v l = Some es ∧
    ∀ e, e ∈ es → e_partition e = Z.of_nat p ∧ 0 ≤ e_index e < len (History v).
Proof.
  intros Hv Hl. unfold partition_errors.
  destruct (mapM_choice (λ '(k, lin), lin_errors px xPos (Z.of_nat p) l k lin)
    (λ es, ∀ e, e ∈ es → e_partition e = Z.of_nat p ∧ 0 ≤ e_index e < len (History v))
    (imap (λ k lin, (Z.of_nat k, indices lin)) (PartialLinearizations v))) as (ys & -> & HP).
  { intros x (k & lin & -> & Hk)%elem_of_lookup_imap. apply lin_errors_ok; [done..|]. apply list_elem_of_fmap. exists lin.
    split; [done|]. by eapply list_elem_of_lookup_2. }
  exists (mjoin ys). split; [done|]. intros e (es & He & Hes)%list_elem_of_join. rewrite list.Forall_forall in HP. by apply (HP es).
Qed.

Lemma errorPoints_ok :
  ∃ errs, errorPoints px xPos data = Some errs ∧ ∀ e, e ∈ errs → is_Some (get_box data (e_partition e) (e_index e)).
Proof.
  unfold errorPoints.
  destruct (mapM_choice (λ '(p, (v, l)), partition_errors px xPos p v l)
    (λ es, ∀ e, e ∈ es → is_Some (get_box data (e_partition e) (e_index e)))
    (imap (λ p x, (Z.of_nat p, x)) (zip data (prepare data).1))) as (ys & -> & HP).
  { intros x (p & [v l] & -> & (Hv & Hl)%lookup_zip_Some)%elem_of_lookup_imap.
    destruct (partition_errors_ok p v l Hv Hl) as (es & E & Hes). exists es. split; [done|]. intros e [-> Hr]%Hes.
    unfold get_box. assert (slice_get data (Z.of_nat p) = Some v) as -> by (apply slice_get_Some; split; [lia|by rewrite Nat2Z.id]).
    simpl. by apply slice_get_is_Some. }
  eexists. split; [done|]. intros e. rewrite sort_by_perm. intros (es & He & Hes)%list_elem_of_join.
  rewrite list.Forall_forall in HP. by apply (HP es).
Qed.

Lemma data_showable errs :
  (∀ e, e ∈ errs → is_Some (get_box data (e_partition e) (e_index e))) → showable data errs.
Proof.
  intros He. split; [| |done].
  - intros p k lin (v & Hv & [_ Hk]%slice_get_Some)%bind_Some. eapply shown_lin_nonempty; [by eapply wf_get|done].
  - intros p v i k Hv Hk. unfold get_lin. rewrite Hv. simpl. eapply wp_largest; [by eapply wf_get|done].
Qed.
End opened.

Section checked.
Import PC PF.
Context {State Input Output : Type} (model : Model State Input Output).
Context {sp : Sprint State Input Output} (d : Describer State Input Output) {ss : SliceSorter}.

(** C31: the page of a verbose check stays consistent. Whatever the checker found, in a
    history in which no operation is called at the last timestamp: drawing the page
    throws no exception, and neither does any sequence of mouse events on the boxes,
    on the background and on the link. After each sequence: exactly the selected
    operation is marked; what is not hidden is the partition and the linearization of
    the selected operation, or of the one under the pointer, or the overview; the link
    leads to the first visible error, and is inactive when there is none; and the
    tooltip of the next move of the mouse is the one computed from the current
    selection, although [handleMouseMove] computes it only when its cache misses. *)
Theorem page_consistent px measure history kill fuel order res info :
  0 ≤ px → Forall wf_entries history → Forall time_sorted history → ends_late history →
  checkParallel model history true kill fuel order = Some (res, info) →
  ∃ data xPos lps errs, computeVisualizationData model d history info = Some data ∧
    layout px measure data = Some (xPos, lps) ∧ errorPoints px xPos data = Some errs ∧
    ∀ evs, Forall (on_box data) evs →
      ∃ vw, react data errs evs = Some vw ∧ view_ok data errs vw ∧
        ∀ p i, is_Some (get_box data p i) →
          ∃ vw' t, handle data errs (MouseMove p i) vw = Some vw' ∧ tooltip vw' = Some t ∧
            message data p i (selected vw) (selectedIndex vw).1 (selectedIndex vw).2 = Some t.
Proof.
  intros Hpx HW HT HE E. destruct (checked_wf model d history kill fuel order res info HW HT HE E) as (data & Ed & Hwf).
  destruct (layout_feasible px measure data Hwf Hpx) as (lins & xPos & lps & _ & Hlay & _).
  destruct (errorPoints_ok px measure data Hwf Hpx xPos lps Hlay) as (errs & Ee & Herr).
  exists data, xPos, lps, errs. split_and!; [done..|]. pose proof (data_showable data Hwf errs Herr) as Hs.
  intros evs Hev. destruct (react_ok data errs Hs evs Hev) as (vw & Er & Hok). exists vw. split_and!; [done..|].
  intros p i Hb. destruct (mouse_move_ok data errs Hs p i vw Hb Hok) as (vw' & E' & _ & t & Ht). by exists vw', t.
Qed.
End checked.
End VW.

(** ** The page of the stale read *)

Module ViewRuns.
Import PC PF PV PV.Drawn PK.Example VL LayoutRuns VW.

Lemma drawing_inside_witness :
  ∃ xPos lps, layout 1 text_width page = Some (xPos, lps) ∧
    (∀ i v l lin, page !! i = Some v → (prepare page).1 !! i = Some l → lin ∈ indices <$> PartialLinearizations v →
       ∃ segs, draw_lin 1 xPos l lin = Some segs ∧ marks_inside 1 xPos l segs) ∧
    ∀ el, el ∈ mjoin (prepare page).1 → 0 ≤ el_ClientId el →
      ∃ x w W, r_x (history_rect 1 xPos el) = Some x ∧ r_width (history_rect 1 xPos el) = Some w ∧
        canvas_width 1 xPos (prepare page).2 = Some W ∧ 0 ≤ x ∧ 0 ≤ w ∧ x + w ≤ W ∧ 0 ≤ r_y (history_rect 1 xPos el) ∧
        r_y (history_rect 1 xPos el) + r_height (history_rect 1 xPos el) ≤ canvas_height 1 (mjoin (prepare page).1).
Proof.
  destruct (layout_feasible 1 text_width page page_wf ltac:(lia)) as (lins & xPos & lps & _ & E & _).
  exists xPos, lps. split; [exact E|]. apply (drawing_inside 1 text_width page page_wf ltac:(lia) xPos lps E).
Defined.

Lemma page_consistent_witness :
  ∃ data xPos lps errs, @computeVisualizationData _ _ _ model printer KvDescriber merge_slices stale_entries stale_info = Some data ∧
    layout 1 text_width data = Some (xPos, lps) ∧ errorPoints 1 xPos data = Some errs ∧
    ∀ evs, Forall (on_box data) evs →
      ∃ vw, react data errs evs = Some vw ∧ view_ok data errs vw ∧
        ∀ p i, is_Some (get_box data p i) →
          ∃ vw' t, handle data errs (MouseMove p i) vw = Some vw' ∧ tooltip vw' = Some t ∧
            message data p i (selected vw) (selectedIndex vw).1 (selectedIndex vw).2 = Some t.
Proof.
  apply (@page_consistent _ _ _ model printer KvDescriber merge_slices 1 text_width stale_entries never 20 [Some 0%nat] Illegal stale_info).
  - lia.
  - exact stale_wf.
  - exact stale_sorted.
  - exact stale_late.
  - vm_compute. reflexivity.
Defined.

(** The stale read is an error of the first linearization: the link leads to it, and
    selecting it hides nothing of the only partition. *)
Example stale_page_errors :
  ∃ xPos lps errs, layout 1 text_width page = Some (xPos, lps) ∧ errorPoints 1 xPos page = Some errs ∧
    (e_partition <$> errs) = [0] ∧ (e_index <$> errs) = [1] ∧
    (selectedIndex <$> react page errs [JumpClick]) = Some (0, 1) ∧
    (selected <$> react page errs [Click 0 1; Click 0 1]) = Some false.
Proof. eexists _, _, _. split_and!; vm_compute; reflexivity. Qed.
End ViewRuns.
