(* ===== verification/Storage.v ===== *)
(** Durable storage of [node.go]: [src/src/raft/storage.go],
    [storage_memory.go] and [storage_badger.go].

    [KVStore] is the interface [Storage] and [RaftStorage] the interface of the
    same name; both come with the laws their users rely on, and the memory and
    the Badger implementations are instances.  Badger is third-party code: the
    class [Badger] has the calls the program makes, with what its documentation
    promises of transactions as laws: it refuses empty, reserved and long keys and
    transactions that are too big.  The bytes of a gob value are given by
    [GobBytes], with the promise that a value decodes to itself. *)

From Stdlib Require Import Strings.Byte.
From stdpp Require Import strings.
From S2P Require Import Prelude.

#[local] Open Scope Z_scope.

Module ST.

Abbreviation bytes := (list Byte.byte).

(** [StorageError], and an error of the database underneath. *)
Inductive StorageError := ErrNotFound | ErrCorrupted | ErrClosed | ErrDB (code : Z).

#[export] Instance StorageError_eq_dec : EqDecision StorageError.
Proof. solve_decision. Defined.

(** A value or an error. *)
Abbreviation result A := (A + StorageError)%type.

Record Write := mkWrite {
  w_Key : string;
  w_Value : bytes;
  w_Delete : bool
}.

(** [encoding/gob] for one Go type. *)
Class GobBytes (A : Type) := {
  gob_encode : A → bytes;
  gob_decode : bytes → option A;
  gob_decode_encode : ∀ a, gob_decode (gob_encode a) = Some a;
  gob_encode_nonempty : ∀ a, gob_encode a ≠ []
}.

(** ** [Storage] *)

(** What a batch of writes does to a map. *)
Definition write_map (m : gmap string bytes) (w : Write) : gmap string bytes :=
  if w_Delete w then delete (w_Key w) m else <[w_Key w := w_Value w]> m.

(** [contents s] is the map an open store stands for. *)
Class KVStore (S : Type) := {
  kv_Get : string → S → result bytes;
  kv_Set : string → bytes → S → S * option StorageError;
  kv_Delete : string → S → S * option StorageError;
  kv_Has : string → S → result bool;
  kv_BatchWrite : list Write → S → S * option StorageError;
  kv_Sync : S → option StorageError;
  kv_Close : S → S * option StorageError
}.

(** An open store answers like a map for the keys and the batches it accepts. *)
Class KVStoreLaws (S : Type) `{KVStore S} := {
  contents : S → gmap string bytes;
  healthy : S → Prop;
  key_ok : string → Prop;
  batch_ok : list Write → Prop;
  law_Get : ∀ k s, key_ok k → healthy s →
    kv_Get k s = match contents s !! k with Some v => inl v | None => inr ErrNotFound end;
  law_Has : ∀ k s, key_ok k → healthy s → kv_Has k s = inl (bool_decide (is_Some (contents s !! k)));
  law_Sync : ∀ s, healthy s → kv_Sync s = None;
  law_BatchWrite : ∀ ws s, batch_ok ws → healthy s →
    ∃ s', kv_BatchWrite ws s = (s', None) ∧ healthy s' ∧
      contents s' = foldl write_map (contents s) ws;
  law_Set : ∀ k v s, healthy s → kv_Set k v s = kv_BatchWrite [mkWrite k v false] s;
  law_Delete : ∀ k s, healthy s → kv_Delete k s = kv_BatchWrite [mkWrite k [] true] s
}.

Lemma kv_get_set {T} `{KVStoreLaws T} k v (s : T) :
  key_ok k → batch_ok [mkWrite k v false] → healthy s →
  ∃ s', kv_Set k v s = (s', None) ∧ healthy s' ∧
    kv_Get k s' = inl v ∧ ∀ k', key_ok k' → k' ≠ k → kv_Get k' s' = kv_Get k' s.
Proof.
  intros Hk Hb Hs. destruct (law_BatchWrite [mkWrite k v false] s Hb Hs) as (s' & E & Hs' & Hc).
  exists s'. rewrite law_Set by done. split_and!; [done|done|..].
  - rewrite law_Get, Hc by done. simpl. unfold write_map. simpl. by rewrite lookup_insert_eq.
  - intros k' Hk' Hne. rewrite !law_Get, Hc by done. simpl. unfold write_map. simpl.
    by rewrite lookup_insert_ne.
Qed.

(** ** [MemoryStorage] *)

Record MemoryStorage := mkMemory {
  data : gmap string bytes;
  closed : bool
}.
Implicit Types ms : MemoryStorage.

Definition NewMemoryStorage : MemoryStorage := mkMemory ∅ false.

Definition mem_Get (key : string) ms : result bytes :=
  if closed ms then inr ErrClosed
  else match data ms !! key with
       | None => inr ErrNotFound
       | Some val => inl val
       end.

Definition mem_Set (key : string) (value : bytes) ms : MemoryStorage * option StorageError :=
  if closed ms then (ms, Some ErrClosed)
  else (mkMemory (<[key := value]> (data ms)) (closed ms), None).

Definition mem_Delete (key : string) ms : MemoryStorage * option StorageError :=
  if closed ms then (ms, Some ErrClosed)
  else (mkMemory (delete key (data ms)) (closed ms), None).

Definition mem_Has (key : string) ms : result bool :=
  if closed ms then inr ErrClosed
  else match data ms !! key with Some _ => inl true | None => inl false end.

Definition mem_BatchWrite (writes : list Write) ms : MemoryStorage * option StorageError :=
  if closed ms then (ms, Some ErrClosed)
  else (mkMemory (foldl (λ m w, if w_Delete w then delete (w_Key w) m
                                else <[w_Key w := w_Value w]> m) (data ms) writes) (closed ms),
        None).

Definition mem_Sync ms : option StorageError := None.

(** [s.closed = true; s.data = nil] *)
Definition mem_Close ms : MemoryStorage * option StorageError := (mkMemory ∅ true, None).

#[export] Instance MemoryStorage_store : KVStore MemoryStorage := {
  kv_Get := mem_Get; kv_Set := mem_Set; kv_Delete := mem_Delete; kv_Has := mem_Has;
  kv_BatchWrite := mem_BatchWrite; kv_Sync := mem_Sync; kv_Close := mem_Close
}.

#[export] Program Instance MemoryStorage_laws : KVStoreLaws MemoryStorage := {
  contents := data; healthy ms := closed ms = false; key_ok _ := True; batch_ok _ := True
}.
Next Obligation. intros k s _ Hs. simpl. unfold mem_Get. rewrite Hs. by destruct (data s !! k). Qed.
Next Obligation.
  intros k s _ Hs. simpl. unfold mem_Has. rewrite Hs. by destruct (data s !! k).
Qed.
Next Obligation. done. Qed.
Next Obligation. intros ws s _ Hs. simpl. unfold mem_BatchWrite. rewrite Hs. eauto. Qed.
Next Obligation. intros k v s Hs. simpl. unfold mem_Set, mem_BatchWrite. by rewrite Hs. Qed.
Next Obligation. intros k s Hs. simpl. unfold mem_Delete, mem_BatchWrite. by rewrite Hs. Qed.

(** ** Badger *)

(** Errors of Badger: the sentinel for a missing key, and the others. *)
Inductive BadgerError := ErrKeyNotFound | OtherError (code : Z).

#[export] Instance BadgerError_eq_dec : EqDecision BadgerError.
Proof. solve_decision. Defined.

(** The calls of the library.  [NewTransaction] takes a snapshot of the
    database, [Commit] makes the writes of a transaction visible. *)
Class Badger (DB Txn : Type) := {
  NewTransaction : DB → Txn;
  txn_Get : string → Txn → bytes + BadgerError;
  txn_Set : string → bytes → Txn → Txn * option BadgerError;
  txn_Delete : string → Txn → Txn * option BadgerError;
  Commit : Txn → DB → DB * option BadgerError;
  db_Sync : DB → option BadgerError;
  db_Close : DB → option BadgerError
}.

(** The keys Badger accepts: not empty ([ErrEmptyKey]), not one of its own
    ([ErrInvalidKey]), and of at most 65000 bytes. *)
Definition good_key (k : string) : bool :=
  negb (String.eqb k "") && negb (String.prefix "!badger!" k) && (Z.of_nat (String.length k) <=? 65000).

(** What a transaction sees: its own writes on top of the database; [usable]
    says that the database works.  A transaction has room for writes of total cost
    [capacity]; beyond that, or for a value that is too big, the library answers with
    an error ([ErrTxnTooBig]). *)
Class BadgerLaws (DB Txn : Type) `{Badger DB Txn} := {
  view : Txn → gmap string bytes;
  usable : DB → Prop;
  writable : Txn → Prop;
  room : Txn → Z;
  capacity : Z;
  cost : Write → Z;
  usable_txn : ∀ db, usable db → writable (NewTransaction db) ∧ room (NewTransaction db) = capacity;
  get_view : ∀ k t, good_key k = true → writable t →
    txn_Get k t = match view t !! k with Some v => inl v | None => inr ErrKeyNotFound end;
  set_view : ∀ k v t, good_key k = true → writable t → cost (mkWrite k v false) ≤ room t →
    ∃ t', txn_Set k v t = (t', None) ∧ writable t' ∧ view t' = <[k := v]> (view t) ∧
      room t' = room t - cost (mkWrite k v false);
  delete_view : ∀ k t, good_key k = true → writable t → cost (mkWrite k [] true) ≤ room t →
    ∃ t', txn_Delete k t = (t', None) ∧ writable t' ∧ view t' = delete k (view t) ∧
      room t' = room t - cost (mkWrite k [] true);
  cost_delete : ∀ w, w_Delete w = true → cost w = cost (mkWrite (w_Key w) [] true);
  cost_nonneg : ∀ w, 0 ≤ cost w;
  sync_usable : ∀ db, usable db → db_Sync db = None;
  commit_view : ∀ t db, usable db → writable t →
    ∃ db', Commit t db = (db', None) ∧ usable db' ∧ view (NewTransaction db') = view t
}.

Section badger.
Context {DB Txn : Type} `{Badger DB Txn}.

(** The database and whether the store was closed. *)
Record BadgerStorage := mkBadger {
  db : DB;
  bclosed : bool
}.
Implicit Types bs : BadgerStorage.

(** [badger.ErrKeyNotFound] is translated, other errors are passed on. *)
Definition of_badger (e : BadgerError) : StorageError :=
  match e with ErrKeyNotFound => ErrNotFound | OtherError c => ErrDB c end.

(** An error of the library that the caller returns unchanged. *)
Definition raw_badger (e : BadgerError) : StorageError :=
  match e with ErrKeyNotFound => ErrDB 0 | OtherError c => ErrDB c end.

(** [db.Update(fn)]: the function runs in a new transaction, which is committed
    when it returns no error and discarded otherwise. *)
Definition Update (fn : Txn → Txn * option BadgerError) (d : DB) : DB * option BadgerError :=
  let '(txn, err) := fn (NewTransaction d) in
  match err with
  | Some e => (d, Some e)
  | None => Commit txn d
  end.

Definition badger_Get (key : string) bs : result bytes :=
  if bclosed bs then inr ErrClosed
  else match txn_Get key (NewTransaction (db bs)) with
       | inl val => inl val
       | inr e => inr (of_badger e)
       end.

Definition update_store (fn : Txn → Txn * option BadgerError) bs
  : BadgerStorage * option StorageError :=
  if bclosed bs then (bs, Some ErrClosed)
  else let '(d, err) := Update fn (db bs) in
       (mkBadger d (bclosed bs), raw_badger <$> err).

Definition badger_Set (key : string) (value : bytes) bs :=
  update_store (txn_Set key value) bs.

Definition badger_Delete (key : string) bs := update_store (txn_Delete key) bs.

Definition badger_Has (key : string) bs : result bool :=
  if bclosed bs then inr ErrClosed
  else match txn_Get key (NewTransaction (db bs)) with
       | inl _ => inl true
       | inr ErrKeyNotFound => inl false
       | inr e => inr (raw_badger e)
       end.

(** The loop stops at the first error. *)
Fixpoint batch_loop (writes : list Write) (txn : Txn) : Txn * option BadgerError :=
  match writes with
  | [] => (txn, None)
  | w :: writes =>
      let '(txn, err) := if w_Delete w then txn_Delete (w_Key w) txn
                         else txn_Set (w_Key w) (w_Value w) txn in
      match err with
      | Some e => (txn, Some e)
      | None => batch_loop writes txn
      end
  end.

Definition badger_BatchWrite (writes : list Write) bs := update_store (batch_loop writes) bs.

Definition badger_Sync bs : option StorageError :=
  if bclosed bs then Some ErrClosed else raw_badger <$> db_Sync (db bs).

Definition badger_Close bs : BadgerStorage * option StorageError :=
  if bclosed bs then (bs, None)
  else (mkBadger (db bs) true, raw_badger <$> db_Close (db bs)).

#[export] Instance BadgerStorage_store : KVStore BadgerStorage := {
  kv_Get := badger_Get; kv_Set := badger_Set; kv_Delete := badger_Delete; kv_Has := badger_Has;
  kv_BatchWrite := badger_BatchWrite; kv_Sync := badger_Sync; kv_Close := badger_Close
}.

Context `{!BadgerLaws DB Txn}.

Definition batch_cost (ws : list Write) : Z := foldr (λ w c, cost w + c) 0 ws.

Lemma batch_cost_nonneg ws : 0 ≤ batch_cost ws.
Proof. induction ws as [|w ws IH]; simpl; [done|]. pose proof (cost_nonneg w). lia. Qed.

Lemma batch_loop_view ws t :
  writable t → Forall (λ w, good_key (w_Key w) = true) ws → batch_cost ws ≤ room t →
  ∃ t', batch_loop ws t = (t', None) ∧ writable t' ∧ view t' = foldl write_map (view t) ws.
Proof.
  intros Ht Hk. revert t Ht. induction Hk as [|w ws Hg _ IH]; intros t Ht Hr; [by exists t|].
  simpl in *. pose proof (batch_cost_nonneg ws). unfold write_map at 2. destruct (w_Delete w) eqn:Ed.
  - rewrite (cost_delete w Ed) in Hr.
    destruct (delete_view (w_Key w) t Hg Ht) as (t1 & -> & Ht1 & <- & E1); [lia|]. apply IH; [done|lia].
  - replace (mkWrite (w_Key w) (w_Value w) false) with w in * by (destruct w; by simpl in *; subst).
    assert (w = mkWrite (w_Key w) (w_Value w) false) as Ew by (destruct w; by simpl in *; subst).
    destruct (set_view (w_Key w) (w_Value w) t Hg Ht) as (t1 & -> & Ht1 & <- & E1); rewrite <-Ew in *; [lia|].
    apply IH; [done|lia].
Qed.

#[export] Program Instance BadgerStorage_laws : KVStoreLaws BadgerStorage := {
  contents bs := view (NewTransaction (db bs));
  healthy bs := bclosed bs = false ∧ usable (db bs);
  key_ok k := good_key k = true;
  batch_ok ws := Forall (λ w, good_key (w_Key w) = true) ws ∧ batch_cost ws ≤ capacity
}.
Next Obligation.
  intros k s Hk [Hc Hu]. simpl. unfold badger_Get. rewrite Hc, get_view by (done || by apply usable_txn).
  by destruct (view _ !! k).
Qed.
Next Obligation.
  intros k s Hk [Hc Hu]. simpl. unfold badger_Has. rewrite Hc, get_view by (done || by apply usable_txn).
  by destruct (view _ !! k).
Qed.
Next Obligation. intros s [Hc Hu]. simpl. unfold badger_Sync. by rewrite Hc, sync_usable. Qed.
Next Obligation.
  intros ws s [Hk Hr] [Hc Hu]. simpl. unfold badger_BatchWrite, update_store, Update. rewrite Hc.
  destruct (usable_txn _ Hu) as [Hw Hcap].
  destruct (batch_loop_view ws _ Hw Hk) as (t' & -> & Ht & Hv); [by rewrite Hcap|].
  destruct (commit_view t' (db s) Hu Ht) as (d' & -> & Hu' & Hv').
  eexists. split; [done|]. simpl. split; [done|]. by rewrite Hv', Hv.
Qed.
Next Obligation.
  intros k v s [Hc Hu]. simpl. unfold badger_Set, badger_BatchWrite, update_store, Update.
  rewrite Hc. simpl. by destruct (txn_Set k v _) as [t [e|]].
Qed.
Next Obligation.
  intros k s [Hc Hu]. simpl. unfold badger_Delete, badger_BatchWrite, update_store, Update.
  rewrite Hc. simpl. by destruct (txn_Delete k _) as [t [e|]].
Qed.
End badger.
Arguments BadgerStorage : clear implicits.

(** ** [RaftStorage] *)

(** The encoded log and the snapshot are opaque to the storage. *)
Record RaftState (L : Type) := mkRaftState {
  rs_CurrentTerm : Z;
  rs_VotedFor : Z;
  rs_Log : L
}.
Arguments mkRaftState {L} _ _ _.
Arguments rs_CurrentTerm {L} _.
Arguments rs_VotedFor {L} _.
Arguments rs_Log {L} _.

Record Snapshot (D : Type) := mkSnapshot {
  sn_Index : Z;
  sn_Term : Z;
  sn_Data : D
}.
Arguments mkSnapshot {D} _ _ _.
Arguments sn_Index {D} _.
Arguments sn_Term {D} _.
Arguments sn_Data {D} _.

Definition raftStateKey : string := "raft_state".
Definition snapshotKey : string := "snapshot".

Class RaftStorage (T L D : Type) := {
  SaveRaftState : RaftState L → T → T * option StorageError;
  LoadRaftState : T → result (RaftState L);
  SaveSnapshot : Snapshot D → T → T * option StorageError;
  LoadSnapshot : T → result (Snapshot D);
  RaftStateSize : T → Z;
  SnapshotSize : T → Z
}.
#[global] Hint Mode RaftStorage ! - - : typeclass_instances.

(** What [node.go] relies on: in a working storage, saving succeeds, loading
    returns what was saved last, and the two records do not disturb each other. *)
Class RaftStorageLaws (T L D : Type) `{RaftStorage T L D} := {
  works : T → Prop;
  save_state : ∀ st s, works s → ∃ s', SaveRaftState st s = (s', None) ∧ works s' ∧
    LoadRaftState s' = inl st ∧ LoadSnapshot s' = LoadSnapshot s;
  save_snapshot : ∀ sn s, works s → ∃ s', SaveSnapshot sn s = (s', None) ∧ works s' ∧
    LoadSnapshot s' = inl sn ∧ LoadRaftState s' = LoadRaftState s
}.
#[global] Hint Mode RaftStorageLaws ! - - - : typeclass_instances.

Section raft_storages.
Context {L D : Type} `{GobBytes (RaftState L), GobBytes (Snapshot D)}.

(** Decode, or report corruption. *)
Definition decode_or_corrupted {A} `{GobBytes A} (b : bytes) : result A :=
  match gob_decode b with Some a => inl a | None => inr ErrCorrupted end.

(** *** In memory *)

Record MemoryRaftStorage := mkMemRaft {
  storage : MemoryStorage;
  raftState : bytes;
  snapshot : bytes
}.
Implicit Types mr : MemoryRaftStorage.

Definition NewMemoryRaftStorage : MemoryRaftStorage := mkMemRaft NewMemoryStorage [] [].

Definition memraft_SaveRaftState (state : RaftState L) mr : MemoryRaftStorage * option StorageError :=
  (mkMemRaft (storage mr) (gob_encode state) (snapshot mr), None).

Definition memraft_LoadRaftState mr : result (RaftState L) :=
  if decide (len (raftState mr) = 0) then inr ErrNotFound
  else decode_or_corrupted (raftState mr).

Definition memraft_SaveSnapshot (sn : Snapshot D) mr : MemoryRaftStorage * option StorageError :=
  (mkMemRaft (storage mr) (raftState mr) (gob_encode sn), None).

Definition memraft_LoadSnapshot mr : result (Snapshot D) :=
  if decide (len (snapshot mr) = 0) then inr ErrNotFound
  else decode_or_corrupted (snapshot mr).

Definition memraft_RaftStateSize mr : Z := len (raftState mr).
Definition memraft_SnapshotSize mr : Z := len (snapshot mr).

Definition memraft_Close mr : MemoryRaftStorage * option StorageError :=
  let '(st, err) := mem_Close (storage mr) in
  (mkMemRaft st (raftState mr) (snapshot mr), err).

#[export] Instance MemoryRaftStorage_storage : RaftStorage MemoryRaftStorage L D := {
  SaveRaftState := memraft_SaveRaftState; LoadRaftState := memraft_LoadRaftState;
  SaveSnapshot := memraft_SaveSnapshot; LoadSnapshot := memraft_LoadSnapshot;
  RaftStateSize := memraft_RaftStateSize; SnapshotSize := memraft_SnapshotSize
}.

Lemma decode_encode {A} `{GobBytes A} (a : A) :
  decode_or_corrupted (gob_encode a) = inl a ∧ len (gob_encode a) ≠ 0.
Proof.
  unfold decode_or_corrupted. rewrite gob_decode_encode. split; [done|].
  pose proof (gob_encode_nonempty a). unfold len. by destruct (gob_encode a).
Qed.

#[export] Program Instance MemoryRaftStorage_laws : RaftStorageLaws MemoryRaftStorage L D := {
  works _ := True
}.
Next Obligation.
  intros st s _. eexists. split_and!; [done|done| |done]. simpl. unfold memraft_LoadRaftState. simpl.
  destruct (decode_encode st) as [E Hne]. by rewrite decide_False.
Qed.
Next Obligation.
  intros sn s _. eexists. split_and!; [done|done| |done]. simpl. unfold memraft_LoadSnapshot. simpl.
  destruct (decode_encode sn) as [E Hne]. by rewrite decide_False.
Qed.

(** *** On a key/value store *)

(** [BadgerRaftStorage] is written against the methods of its store, so it is
    modelled on any [KVStore]. *)
Context {T : Type} `{KVStore T}.

Record BadgerRaftStorage := mkBadgerRaft { bstorage : T }.
Implicit Types br : BadgerRaftStorage.

Definition badraft_SaveRaftState (state : RaftState L) br : BadgerRaftStorage * option StorageError :=
  let '(st, err) := kv_Set raftStateKey (gob_encode state) (bstorage br) in
  (mkBadgerRaft st, err).

Definition badraft_LoadRaftState br : result (RaftState L) :=
  match kv_Get raftStateKey (bstorage br) with
  | inr err => inr err
  | inl b => decode_or_corrupted b
  end.

Definition badraft_SaveSnapshot (sn : Snapshot D) br : BadgerRaftStorage * option StorageError :=
  let '(st, err) := kv_Set snapshotKey (gob_encode sn) (bstorage br) in
  (mkBadgerRaft st, err).

Definition badraft_LoadSnapshot br : result (Snapshot D) :=
  match kv_Get snapshotKey (bstorage br) with
  | inr err => inr err
  | inl b => decode_or_corrupted b
  end.

Definition badraft_RaftStateSize br : Z :=
  match kv_Get raftStateKey (bstorage br) with inr _ => 0 | inl b => len b end.

Definition badraft_SnapshotSize br : Z :=
  match kv_Get snapshotKey (bstorage br) with inr _ => 0 | inl b => len b end.

Definition badraft_Close br : BadgerRaftStorage * option StorageError :=
  let '(st, err) := kv_Close (bstorage br) in (mkBadgerRaft st, err).

#[export] Instance BadgerRaftStorage_storage : RaftStorage BadgerRaftStorage L D := {
  SaveRaftState := badraft_SaveRaftState; LoadRaftState := badraft_LoadRaftState;
  SaveSnapshot := badraft_SaveSnapshot; LoadSnapshot := badraft_LoadSnapshot;
  RaftStateSize := badraft_RaftStateSize; SnapshotSize := badraft_SnapshotSize
}.

Context `{!KVStoreLaws T}.

Context (state_key : key_ok raftStateKey) (snapshot_key : key_ok snapshotKey).

(** The store has room for a record. *)
Definition state_fits (st : RaftState L) : Prop := batch_ok [mkWrite raftStateKey (gob_encode st) false].
Definition snapshot_fits (sn : Snapshot D) : Prop := batch_ok [mkWrite snapshotKey (gob_encode sn) false].

Lemma badraft_save_state st br :
  state_fits st → healthy (bstorage br) →
  ∃ br', badraft_SaveRaftState st br = (br', None) ∧ healthy (bstorage br') ∧
    badraft_LoadRaftState br' = inl st ∧ badraft_LoadSnapshot br' = badraft_LoadSnapshot br.
Proof.
  intros Hf Hs. destruct (kv_get_set raftStateKey (gob_encode st) (bstorage br) state_key Hf Hs) as (s' & E & Hs' & Hg & Ho).
  exists (mkBadgerRaft s'). unfold badraft_SaveRaftState, badraft_LoadRaftState, badraft_LoadSnapshot.
  rewrite E. simpl. rewrite Hg, Ho by done. destruct (decode_encode st) as [-> _]. done.
Qed.

Lemma badraft_save_snapshot sn br :
  snapshot_fits sn → healthy (bstorage br) →
  ∃ br', badraft_SaveSnapshot sn br = (br', None) ∧ healthy (bstorage br') ∧
    badraft_LoadSnapshot br' = inl sn ∧ badraft_LoadRaftState br' = badraft_LoadRaftState br.
Proof.
  intros Hf Hs. destruct (kv_get_set snapshotKey (gob_encode sn) (bstorage br) snapshot_key Hf Hs) as (s' & E & Hs' & Hg & Ho).
  exists (mkBadgerRaft s'). unfold badraft_SaveSnapshot, badraft_LoadRaftState, badraft_LoadSnapshot.
  rewrite E. simpl. rewrite Hg, Ho by done. destruct (decode_encode sn) as [-> _]. done.
Qed.

(** The laws of [RaftStorage] hold of a store with room for every record; of Badger,
    for records that stay below the size of a transaction. *)
Program Definition BadgerRaftStorage_laws (all_states : ∀ st, state_fits st) (all_snapshots : ∀ sn, snapshot_fits sn)
    : RaftStorageLaws BadgerRaftStorage L D := {|
  works br := healthy (bstorage br)
|}.
Next Obligation. intros Hf _ st br. by apply badraft_save_state. Qed.
Next Obligation. intros _ Hf sn br. by apply badraft_save_snapshot. Qed.
End raft_storages.
Arguments BadgerRaftStorage : clear implicits.

(** ** Programs of storage operations *)

Inductive storage_op :=
  | OGet (k : string)
  | OHas (k : string)
  | OSet (k : string) (v : bytes)
  | ODelete (k : string)
  | OBatch (ws : list Write)
  | OSync
  | OClose.

(** What the caller sees of an operation. *)
Inductive answer :=
  | AGet (r : result bytes)
  | AHas (r : result bool)
  | AErr (e : option StorageError).

Section programs.
Context {T : Type} `{KVStore T}.

Definition run_op (o : storage_op) (s : T) : T * answer :=
  match o with
  | OGet k => (s, AGet (kv_Get k s))
  | OHas k => (s, AHas (kv_Has k s))
  | OSet k v => let '(s, e) := kv_Set k v s in (s, AErr e)
  | ODelete k => let '(s, e) := kv_Delete k s in (s, AErr e)
  | OBatch ws => let '(s, e) := kv_BatchWrite ws s in (s, AErr e)
  | OSync => (s, AErr (kv_Sync s))
  | OClose => let '(s, e) := kv_Close s in (s, AErr e)
  end.

Fixpoint run_ops (os : list storage_op) (s : T) : list answer :=
  match os with
  | [] => []
  | o :: os => let '(s, a) := run_op o s in a :: run_ops os s
  end.
End programs.

(** The reference: a map. *)
Definition map_op (o : storage_op) (m : gmap string bytes) : gmap string bytes * answer :=
  match o with
  | OGet k => (m, AGet (match m !! k with Some v => inl v | None => inr ErrNotFound end))
  | OHas k => (m, AHas (inl (bool_decide (is_Some (m !! k)))))
  | OSet k v => (<[k := v]> m, AErr None)
  | ODelete k => (delete k m, AErr None)
  | OBatch ws => (foldl write_map m ws, AErr None)
  | OSync | OClose => (m, AErr None)
  end.

Fixpoint map_ops (os : list storage_op) (m : gmap string bytes) : list answer :=
  match os with
  | [] => []
  | o :: os => let '(m, a) := map_op o m in a :: map_ops os m
  end.

(** The keys and the batches of an operation are accepted. *)
Definition op_ok {T} `{KVStoreLaws T} (o : storage_op) : Prop :=
  match o with
  | OGet k | OHas k => key_ok k
  | OSet k v => batch_ok [mkWrite k v false]
  | ODelete k => batch_ok [mkWrite k [] true]
  | OBatch ws => batch_ok ws
  | OSync | OClose => True
  end.

Lemma mem_op_ok o : op_ok (T := MemoryStorage) o.
Proof. by destruct o. Qed.

Lemma run_op_refines {T} `{KVStoreLaws T} o (s : T) :
  healthy s → op_ok (T := T) o → o ≠ OClose →
  ∃ s', run_op o s = (s', (map_op o (contents s)).2) ∧ healthy s' ∧
    contents s' = (map_op o (contents s)).1.
Proof.
  intros Hs Hk Ho. destruct o as [k|k|k v|k|ws| |]; simpl in *; [..|done].
  - rewrite law_Get by done. eauto.
  - rewrite law_Has by done. eauto.
  - rewrite law_Set by done. destruct (law_BatchWrite [mkWrite k v false] s Hk Hs) as (s' & -> & ? & Hc).
    eauto.
  - rewrite law_Delete by done. destruct (law_BatchWrite [mkWrite k [] true] s Hk Hs) as (s' & -> & ? & Hc).
    eauto.
  - destruct (law_BatchWrite ws s Hk Hs) as (s' & -> & ? & Hc). eauto.
  - rewrite law_Sync by done. eauto.
Qed.

Lemma run_ops_refines {T} `{KVStoreLaws T} os (s : T) :
  healthy s → Forall (op_ok (T := T)) os → OClose ∉ os → run_ops os s = map_ops os (contents s).
Proof.
  intros Hs Hk. revert s Hs. induction Hk as [|o os Hk _ IH]; intros s Hs Ho; [done|].
  apply not_elem_of_cons in Ho as [Ho1 Ho2]. simpl.
  destruct (run_op_refines o s Hs Hk) as (s' & -> & Hs' & Hc); [done|].
  destruct (map_op o (contents s)) as [m a]. simpl in *. subst m. f_equal. by apply IH.
Qed.

(** A closed store answers with [ErrClosed]. *)
Definition refuses (o : storage_op) : answer :=
  match o with
  | OGet _ => AGet (inr ErrClosed)
  | OHas _ => AHas (inr ErrClosed)
  | OClose => AErr None
  | _ => AErr (Some ErrClosed)
  end.

(** [MemoryStorage.Sync] does not look whether the store is closed. *)
Definition mem_refuses (o : storage_op) : answer :=
  match o with OSync => AErr None | _ => refuses o end.

Lemma mem_closed_refuses os ms : closed ms = true → run_ops os ms = mem_refuses <$> os.
Proof.
  revert ms. induction os as [|o os IH]; intros ms Hc; [done|]. simpl.
  destruct o; simpl; unfold mem_Get, mem_Has, mem_Set, mem_Delete, mem_BatchWrite;
    rewrite ?Hc; simpl; f_equal; by apply IH.
Qed.

Lemma badger_closed_refuses {DB Txn} `{Badger DB Txn} os (bs : BadgerStorage DB) :
  bclosed bs = true → run_ops os bs = refuses <$> os.
Proof.
  revert bs. induction os as [|o os IH]; intros bs Hc; [done|]. simpl.
  destruct o; simpl;
    unfold badger_Get, badger_Has, badger_Set, badger_Delete, badger_BatchWrite, badger_Sync, badger_Close, update_store;
    rewrite ?Hc; simpl; f_equal; by apply IH.
Qed.

(** C18: the two stores are interchangeable. Any program of reads, writes, batches and
    [Sync] whose keys and batches Badger accepts gets the same answers from
    [MemoryStorage] and from [BadgerStorage] when they start with the same contents;
    after [Close] both refuse everything with [ErrClosed], except that the [Sync] of
    [MemoryStorage] still succeeds and that [Close] may be repeated. *)
Theorem stores_agree {DB Txn} `{BadgerLaws DB Txn} os os' (ms : MemoryStorage) (bs : BadgerStorage DB) :
  healthy ms → healthy bs → contents ms = contents bs → OClose ∉ os → Forall (op_ok (T := BadgerStorage DB)) os →
  run_ops os ms = run_ops os bs ∧
  run_ops os' (kv_Close ms).1 = mem_refuses <$> os' ∧ run_ops os' (kv_Close bs).1 = refuses <$> os'.
Proof.
  intros Hm Hb Hc Ho Hk. split_and!.
  - rewrite (run_ops_refines os ms), (run_ops_refines os bs), Hc; try done. apply Forall_true, mem_op_ok.
  - by apply mem_closed_refuses.
  - apply badger_closed_refuses. destruct Hb as [Hb _]. simpl. unfold badger_Close. by rewrite Hb.
Qed.

(** What was saved survives a restart. After [SaveRaftState] and
    [SaveSnapshot] of records that fit on an open Badger storage, a storage opened on the
    same database loads exactly the saved state and the saved snapshot. *)
Theorem badger_restart {DB Txn L D} `{BadgerLaws DB Txn, GobBytes (RaftState L), GobBytes (Snapshot D)}
    (st : RaftState L) (sn : Snapshot D) (br : BadgerRaftStorage (BadgerStorage DB)) :
  healthy (bstorage br) → state_fits (T := BadgerStorage DB) st → snapshot_fits (T := BadgerStorage DB) sn →
  ∃ b1 b2, SaveRaftState st br = (b1, None) ∧ SaveSnapshot sn b1 = (b2, None) ∧
    let reopened := mkBadgerRaft (mkBadger (db (bstorage b2)) false) in
    LoadRaftState reopened = inl st ∧ LoadSnapshot reopened = inl sn.
Proof.
  intros Hw Hst Hsn. assert (key_ok (S := BadgerStorage DB) raftStateKey ∧ key_ok (S := BadgerStorage DB) snapshotKey) as [Hk Hk'] by done.
  destruct (badraft_save_state (T := BadgerStorage DB) (D := D) Hk Hk' st br Hst Hw) as (b1 & E1 & W1 & L1 & _).
  destruct (badraft_save_snapshot (T := BadgerStorage DB) (L := L) Hk Hk' sn b1 Hsn W1) as (b2 & E2 & W2 & L2 & K2).
  exists b1, b2. split_and!; [done|done|]. destruct b2 as [[d c]]. destruct W2 as [Hc _].
  simpl in Hc. subst c. split; [by rewrite <-L1|done].
Qed.

(** ** A database that is a map *)

Module MapDB.

(** A transaction is a copy of the map and the room that is left in it. *)
Definition txn : Type := gmap string bytes * Z.
Definition limit : Z := 2 ^ 20.
Definition price (w : Write) : Z := Z.of_nat (String.length (w_Key w)) + (if w_Delete w then 0 else len (w_Value w)) + 12.

(** A write, with the errors for a bad key and for a transaction that is too big. *)
Definition put (w : Write) (t : txn) : txn * option BadgerError :=
  if negb (good_key (w_Key w)) then (t, Some (OtherError 1))
  else if t.2 <? price w then (t, Some (OtherError 2))
  else ((write_map t.1 w, t.2 - price w), None).

#[export] Instance map_badger : Badger (gmap string bytes) txn := {
  NewTransaction d := (d, limit);
  txn_Get k t :=
    if negb (good_key k) then inr (OtherError 1)
    else match t.1 !! k with Some v => inl v | None => inr ErrKeyNotFound end;
  txn_Set k v t := put (mkWrite k v false) t;
  txn_Delete k t := put (mkWrite k [] true) t;
  Commit t _ := (t.1, None);
  db_Sync _ := None;
  db_Close _ := None
}.

Lemma put_ok w t :
  good_key (w_Key w) = true → price w ≤ t.2 → put w t = ((write_map t.1 w, t.2 - price w), None).
Proof. intros Hk Hp. unfold put. rewrite Hk. simpl. by rewrite (proj2 (Z.ltb_ge _ _) Hp). Qed.

#[export] Program Instance map_badger_laws : BadgerLaws (gmap string bytes) txn := {
  view := fst; usable _ := True; writable _ := True; room := snd; capacity := limit; cost := price
}.
Next Obligation. done. Qed.
Next Obligation. intros k t Hk _. simpl. by rewrite Hk. Qed.
Next Obligation. intros k v t Hk _ Hc. simpl. rewrite put_ok by done. eauto. Qed.
Next Obligation. intros k t Hk _ Hc. simpl. rewrite put_ok by done. eauto. Qed.
Next Obligation. intros [k v d] E. simpl in *. by subst d. Qed.
Next Obligation. intros [k v d]. unfold price, len. simpl. destruct d; lia. Qed.
Next Obligation. done. Qed.
Next Obligation. intros t d _ _. simpl. eauto. Qed.

(** A format for the records whose log and data are bytes: the two numbers in
    unary, each ended by a zero byte, then the bytes. *)
Definition put_nat (n : nat) : bytes := replicate n x01 ++ [x00].

Fixpoint get_nat (b : bytes) : option (nat * bytes) :=
  match b with
  | x00 :: b => Some (O, b)
  | x01 :: b => '(n, b) ← get_nat b; Some (S n, b)
  | _ => None
  end.

Lemma get_put_nat n b : get_nat (put_nat n ++ b) = Some (n, b).
Proof. unfold put_nat. induction n as [|n IH]; simpl; [done|]. by rewrite IH. Qed.

Definition put_Z (z : Z) : bytes := put_nat (encode_nat z).

Definition get_Z (b : bytes) : option (Z * bytes) :=
  '(n, b) ← get_nat b; z ← decode_nat n; Some (z, b).

Lemma get_put_Z z b : get_Z (put_Z z ++ b) = Some (z, b).
Proof. unfold get_Z, put_Z. rewrite get_put_nat. cbn [mbind option_bind]. by rewrite decode_encode_nat. Qed.

Lemma put_Z_nonempty z b : put_Z z ++ b ≠ [].
Proof. unfold put_Z, put_nat. by destruct (encode_nat z). Qed.

#[export] Program Instance state_gob : GobBytes (RaftState bytes) := {
  gob_encode st := put_Z (rs_CurrentTerm st) ++ put_Z (rs_VotedFor st) ++ rs_Log st;
  gob_decode b := '(t, b) ← get_Z b; '(v, b) ← get_Z b; Some (mkRaftState t v b)
}.
Next Obligation. intros [t v l]. cbn -[get_Z put_Z]. by rewrite get_put_Z; cbn -[get_Z put_Z]; rewrite get_put_Z. Qed.
Next Obligation. intros st. apply put_Z_nonempty. Qed.

#[export] Program Instance snapshot_gob : GobBytes (Snapshot bytes) := {
  gob_encode sn := put_Z (sn_Index sn) ++ put_Z (sn_Term sn) ++ sn_Data sn;
  gob_decode b := '(i, b) ← get_Z b; '(t, b) ← get_Z b; Some (mkSnapshot i t b)
}.
Next Obligation. intros [i t d]. cbn -[get_Z put_Z]. by rewrite get_put_Z; cbn -[get_Z put_Z]; rewrite get_put_Z. Qed.
Next Obligation. intros sn. apply put_Z_nonempty. Qed.

Definition fresh : BadgerStorage (gmap string bytes) := mkBadger ∅ false.

Lemma stores_agree_witness :
  run_ops [OSet "k" [x01]; OGet "k"; OSync; ODelete "k"; OHas "k"] NewMemoryStorage
  = run_ops [OSet "k" [x01]; OGet "k"; OSync; ODelete "k"; OHas "k"] fresh ∧
  run_ops [OGet "k"; OSync] (kv_Close NewMemoryStorage).1 = mem_refuses <$> [OGet "k"; OSync] ∧
  run_ops [OGet "k"; OSync] (kv_Close fresh).1 = refuses <$> [OGet "k"; OSync].
Proof.
  apply stores_agree; [done|split; done|done| |].
  - rewrite !not_elem_of_cons. repeat split; try done. apply not_elem_of_nil.
  - repeat constructor; vm_compute; done.
Defined.

(** An empty key tells the stores apart. *)
Example empty_key_differs : run_ops [OGet ""] NewMemoryStorage ≠ run_ops [OGet ""] fresh.
Proof. by vm_compute. Qed.

Lemma badger_restart_witness :
  ∃ b1 b2, SaveRaftState (mkRaftState 5 3 [x02]) (mkBadgerRaft fresh) = (b1, None) ∧
    SaveSnapshot (mkSnapshot 100 5 [x07]) b1 = (b2, None) ∧
    let reopened := mkBadgerRaft (mkBadger (db (bstorage b2)) false) in
    LoadRaftState reopened = inl (mkRaftState 5 3 [x02]) ∧
    LoadSnapshot reopened = inl (mkSnapshot 100 5 [x07]).
Proof.
  apply (badger_restart (mkRaftState 5 3 [x02]) (mkSnapshot 100 5 [x07]));
    [split; done|repeat constructor; vm_compute; done..].
Defined.

End MapDB.

End ST.
