(* ===== verification/Transport.v ===== *)
(** The transports of [node.go]: [src/src/raft/transport.go],
    [transport_inmem.go] and [transport_grpc.go].

    A transport is an object of a heap and a [*InmemTransport] its address, so
    that the interface value [GetEndpoint] returns can be told from [nil] the way
    Go does: an interface that holds a nil pointer is not nil.  Over gRPC the
    integers of a message travel as [int32] and commands as bytes; the generated
    stubs and the network between them deliver a message or report an error. *)

From Stdlib Require Import Strings.Byte.
From stdpp Require Import strings.
From S2P Require Import Prelude RaftLog Raft.

#[local] Open Scope Z_scope.

Module TR.

(** ** [transport.go] *)

Record RequestVoteRequest := mkRVReq {
  rvq_Term : Z;
  rvq_CandidateId : Z;
  rvq_LastLogIndex : Z;
  rvq_LastLogTerm : Z
}.

Record RequestVoteResponse := mkRVResp {
  rvp_Term : Z;
  rvp_VoteGranted : bool
}.

Record AppendEntriesRequest (Cmd : Type) := mkAEReq {
  aeq_Term : Z;
  aeq_LeaderId : Z;
  aeq_PrevLogIndex : Z;
  aeq_PrevLogTerm : Z;
  aeq_Entries : list (LogEntry Cmd);
  aeq_LeaderCommit : Z
}.
Arguments mkAEReq {Cmd} _ _ _ _ _ _.
Arguments aeq_Term {Cmd} _.
Arguments aeq_LeaderId {Cmd} _.
Arguments aeq_PrevLogIndex {Cmd} _.
Arguments aeq_PrevLogTerm {Cmd} _.
Arguments aeq_Entries {Cmd} _.
Arguments aeq_LeaderCommit {Cmd} _.

Record AppendEntriesResponse := mkAEResp {
  aep_Term : Z;
  aep_Success : bool;
  aep_ConflictIdx : Z;
  aep_ConflictTerm : Z
}.

Record InstallSnapshotRequest (SB : Type) := mkISReq {
  isq_Term : Z;
  isq_LeaderId : Z;
  isq_LastIncludedIndex : Z;
  isq_LastIncludedTerm : Z;
  isq_Snapshot : list SB
}.
Arguments mkISReq {SB} _ _ _ _ _.
Arguments isq_Term {SB} _.
Arguments isq_LeaderId {SB} _.
Arguments isq_LastIncludedIndex {SB} _.
Arguments isq_LastIncludedTerm {SB} _.
Arguments isq_Snapshot {SB} _.

Record InstallSnapshotResponse := mkISResp { isp_Term : Z }.

(** The interface [RPCHandler]; a handler may panic. *)
Class RPCHandler (H Cmd SB : Type) := {
  HandleRequestVote : Env → RequestVoteRequest → H → option (H * RequestVoteResponse);
  HandleAppendEntries : Env → AppendEntriesRequest Cmd → H → option (H * AppendEntriesResponse);
  HandleInstallSnapshot : Env → InstallSnapshotRequest SB → H → option (H * InstallSnapshotResponse)
}.
#[global] Hint Mode RPCHandler ! - - : typeclass_instances.

(** An [RPCEndpoint]: the nil interface, or a pointer to a transport, which may
    itself be nil. *)
Inductive Endpoint := EpNil | EpPtr (t : option nat).

(** [endpoint == nil] *)
Definition ep_is_nil (e : Endpoint) : bool := match e with EpNil => true | EpPtr _ => false end.

(** ** [transport_inmem.go] *)

(** [peers] holds addresses of transports, [handler] the address of a handler. *)
Record InmemTransport := mkInmem {
  it_peers : gmap Z nat;
  it_me : Z;
  it_peerCount : Z;
  it_handler : option nat;
  it_closed : bool
}.

Definition NewInmemTransport (peerID peerCount : Z) : InmemTransport :=
  mkInmem ∅ peerID peerCount None false.

Definition Connect (peerID : Z) (peer : nat) (t : InmemTransport) : InmemTransport :=
  mkInmem (<[peerID := peer]> (it_peers t)) (it_me t) (it_peerCount t) (it_handler t) (it_closed t).

(** [self] is the address of the transport. *)
Definition GetEndpoint (self : nat) (peerID : Z) (t : InmemTransport) : Endpoint :=
  if decide (peerID = it_me t) then EpPtr (Some self) else EpPtr (it_peers t !! peerID).

Definition RegisterHandler (handler : nat) (t : InmemTransport) : InmemTransport :=
  mkInmem (it_peers t) (it_me t) (it_peerCount t) (Some handler) (it_closed t).

Definition Stop (t : InmemTransport) : InmemTransport :=
  if it_closed t then t
  else mkInmem (it_peers t) (it_me t) (it_peerCount t) (it_handler t) true.

(** [InmemNetwork], with the heap its transports live in. *)
Record InmemNetwork := mkNetwork {
  heap : list InmemTransport;
  trans : gmap Z nat;
  handlers : gmap Z nat;
  peerCount : Z
}.

Definition NewInmemNetwork (n : Z) : InmemNetwork := mkNetwork [] ∅ ∅ n.

Definition update_transport (p : nat) (f : InmemTransport → InmemTransport)
    (h : list InmemTransport) : list InmemTransport := alter f p h.

Section network.
Context {ro : RangeOrder}.

(** The loop of [CreateTransport]; [t] is the address of the new transport. *)
Definition connect_all (peerID : Z) (t : nat) (others : list (Z * nat)) (h : list InmemTransport)
  : list InmemTransport :=
  foldl (λ h '(id, other),
           if decide (id ≠ peerID)
           then update_transport other (Connect peerID t) (update_transport t (Connect id other) h)
           else h) h others.

Definition CreateTransport (peerID : Z) (n : InmemNetwork) : InmemNetwork * nat :=
  let t := length (heap n) in
  let h := heap n ++ [NewInmemTransport peerID (peerCount n)] in
  let tr := <[peerID := t]> (trans n) in
  (mkNetwork (connect_all peerID t (map_range tr) h) tr (handlers n) (peerCount n), t).
End network.

Definition net_RegisterHandler (peerID : Z) (handler : nat) (n : InmemNetwork) : InmemNetwork :=
  let h := match trans n !! peerID with
           | Some t => update_transport t (RegisterHandler handler) (heap n)
           | None => heap n
           end in
  mkNetwork h (trans n) (<[peerID := handler]> (handlers n)) (peerCount n).

Definition GetTransport (peerID : Z) (n : InmemNetwork) : option nat := trans n !! peerID.

(** The handler behind an endpoint: [None] is the panic of a nil pointer,
    [Some None] the error [context.DeadlineExceeded]. *)
Definition endpoint_handler (e : Endpoint) (h : list InmemTransport) : option (option nat) :=
  match e with
  | EpPtr (Some p) => t ← h !! p; Some (it_handler t)
  | _ => None
  end.

(** ** Sending *)

Section sending.
Context {H Cmd SB : Type} `{RPCHandler H Cmd SB}.
Implicit Types hs : gmap nat H.

(** The three [Send] methods look up the handler and call it; [inr ()] is an
    error of the transport. *)
Definition deliver {Resp : Type} (call : H → option (H * Resp)) (e : Endpoint)
    (h : list InmemTransport) hs : option (gmap nat H * (Resp + unit)) :=
  oh ← endpoint_handler e h;
  match oh with
  | None => Some (hs, inr ())
  | Some a => n ← hs !! a; '(n, resp) ← call n; Some (<[a := n]> hs, inl resp)
  end.

Definition SendRequestVote (env : Env) (req : RequestVoteRequest) :=
  deliver (HandleRequestVote env req).
Definition SendAppendEntries (env : Env) (req : AppendEntriesRequest Cmd) :=
  deliver (HandleAppendEntries env req).
Definition SendInstallSnapshot (env : Env) (req : InstallSnapshotRequest SB) :=
  deliver (HandleInstallSnapshot env req).
End sending.

(** ** Facts about the network *)

Section connectivity.
Implicit Types (n : InmemNetwork) (h : list InmemTransport).

(** Everybody created so far is connected to everybody else. *)
Definition connected n : Prop :=
  ∀ p t, trans n !! p = Some t → ∃ x, heap n !! t = Some x ∧ it_me x = p ∧
    ∀ q u, trans n !! q = Some u → q ≠ p → it_peers x !! q = Some u.

Lemma Connect_twice p (t : nat) x : Connect p t (Connect p t x) = Connect p t x.
Proof. unfold Connect. simpl. by rewrite insert_insert_eq. Qed.

(** What the loop does to a transport that is not the new one. *)
Lemma connect_all_other peerID t others h u :
  u ≠ t → (∀ id o, (id, o) ∈ others → id ≠ peerID → o ≠ t) →
  connect_all peerID t others h !! u =
    (λ x, if decide (Exists (λ io, io.1 ≠ peerID ∧ io.2 = u) others)
          then Connect peerID t x else x) <$> h !! u.
Proof.
  intros Hu. revert h. induction others as [|[id o] others IH]; intros h Hot.
  { simpl. destruct (h !! u); simpl; [|done]. by rewrite ?decide_False by (by intros ?%Exists_nil). }
  change (connect_all peerID t ((id, o) :: others) h) with
    (connect_all peerID t others (if decide (id ≠ peerID)
       then update_transport o (Connect peerID t) (update_transport t (Connect id o) h) else h)).
  rewrite IH by (intros id' o' Hin; apply (Hot id' o'); by apply list_elem_of_further).
  unfold update_transport. destruct (decide (id ≠ peerID)) as [Hid|Hid].
  - destruct (decide (o = u)) as [->|Hne].
    + rewrite list_lookup_alter_eq, list_lookup_alter_ne by done.
      destruct (h !! u); cbn [fmap option_fmap option_map]; [|done]. f_equal.
      rewrite (decide_True (P := Exists _ ((id, u) :: others))) by (by apply Exists_cons; left).
      case_decide; [apply Connect_twice|done].
    + rewrite !list_lookup_alter_ne by done.
      destruct (h !! u); cbn [fmap option_fmap option_map]; [|done]. f_equal.
      apply decide_ext. rewrite Exists_cons. simpl. naive_solver.
  - destruct (h !! u); cbn [fmap option_fmap option_map]; [|done]. f_equal.
    apply decide_ext. rewrite Exists_cons. simpl. naive_solver.
Qed.

(** What it leaves in the new one. *)
Lemma connect_all_new peerID t others h x :
  (∀ id o, (id, o) ∈ others → id ≠ peerID → o ≠ t) → NoDup others.*1 → h !! t = Some x →
  ∃ x', connect_all peerID t others h !! t = Some x' ∧ it_me x' = it_me x ∧
    (∀ q u, (q, u) ∈ others → q ≠ peerID → it_peers x' !! q = Some u) ∧
    ∀ q, (q ∉ others.*1) → it_peers x' !! q = it_peers x !! q.
Proof.
  revert h x. induction others as [|[id o] others IH]; intros h x Hot Hnd Hx; simpl.
  { exists x. split_and!; try done. intros q u Hin. by apply not_elem_of_nil in Hin. }
  apply list.NoDup_cons in Hnd as [Hid Hnd].
  assert (∀ id' o', (id', o') ∈ others → id' ≠ peerID → o' ≠ t) as Hot'.
  { intros id' o' Hin. apply (Hot id' o'). by apply list_elem_of_further. }
  destruct (decide (id ≠ peerID)) as [Hne|He].
  - assert (o ≠ t) as Ho by (apply (Hot id o); [apply list_elem_of_here|done]).
    destruct (IH (update_transport o (Connect peerID t) (update_transport t (Connect id o) h))
                (Connect id o x) Hot' Hnd) as (x' & E & M & C & P).
    { unfold update_transport. rewrite list_lookup_alter_ne, list_lookup_alter_eq, Hx by done. done. }
    exists x'. split_and!; [done|done| |].
    + intros q u [[= -> ->]|Hin]%elem_of_cons Hq; [|by apply C].
      rewrite P by done. simpl. by rewrite lookup_insert_eq.
    + intros q Hq. apply not_elem_of_cons in Hq as [Hq1 Hq2]. rewrite P by done. simpl.
      by rewrite lookup_insert_ne.
  - destruct (IH h x Hot' Hnd Hx) as (x' & E & M & C & P). exists x'. split_and!; [done|done| |].
    + intros q u [[= -> ->]|Hin]%elem_of_cons Hq; [done|by apply C].
    + intros q Hq. apply not_elem_of_cons in Hq as [Hq1 Hq2]. by apply P.
Qed.

(** Addresses of the registered transports are distinct and allocated. *)
Definition addresses_ok n : Prop :=
  (∀ p t, trans n !! p = Some t → (t < length (heap n))%nat) ∧
  ∀ p q t, trans n !! p = Some t → trans n !! q = Some t → p = q.

Lemma CreateTransport_connected {ro : RangeOrder} p n :
  connected n → addresses_ok n → trans n !! p = None →
  connected (CreateTransport p n).1 ∧ addresses_ok (CreateTransport p n).1.
Proof.
  intros Hc [Ha Hinj] Hnew. set (t := length (heap n)). set (tr := <[p := t]> (trans n)).
  set (h := heap n ++ [NewInmemTransport p (peerCount n)]).
  assert (∀ id o, (id, o) ∈ map_range tr → id ≠ p → o ≠ t ∧ trans n !! id = Some o) as Hot.
  { intros id o Hin Hid. apply map_range_elem in Hin. unfold tr in Hin.
    rewrite lookup_insert_ne in Hin by done. pose proof (Ha id o Hin). split; [unfold t; lia|done]. }
  assert (Hlen : length (connect_all p t (map_range tr) h) = S t).
  { assert (∀ others h, length (connect_all p t others h) = length h) as Hl.
    { induction others as [|[id o] others IH]; intros h1; [done|]. simpl. rewrite IH.
      case_decide; [|done]. unfold update_transport. by rewrite !length_alter. }
    rewrite Hl. unfold h. rewrite length_app. simpl. unfold t. lia. }
  simpl. fold t tr h. split.
  - intros q u Hq. simpl in *. unfold tr in Hq. destruct (decide (p = q)) as [<-|Hne].
    + rewrite lookup_insert_eq in Hq. injection Hq as <-.
      destruct (connect_all_new p t (map_range tr) h (NewInmemTransport p (peerCount n)))
        as (x & E & M & C & _).
      { intros id o Hin Hid. by apply (Hot id o). }
      { apply map_range_NoDup. }
      { unfold h. by apply list_lookup_middle. }
      exists x. split_and!; [done|done|]. intros q u' Hu' Hne. apply C; [|done]. by apply map_range_elem.
    + rewrite lookup_insert_ne in Hq by done. destruct (Hc q u Hq) as (x & Ex & Mx & Px).
      pose proof (Ha q u Hq) as Hlt.
      assert (h !! u = Some x) as Ehx by (unfold h; rewrite lookup_app_l by done; done).
      assert (connect_all p t (map_range tr) h !! u = Some (Connect p t x)) as Er.
      { rewrite connect_all_other; [|unfold t; lia|intros id o Hin Hid; by apply (Hot id o)].
        rewrite Ehx. simpl. rewrite decide_True; [done|]. apply list.Exists_exists. exists (q, u).
        simpl. split; [|done]. apply map_range_elem. unfold tr. by rewrite lookup_insert_ne. }
      rewrite Er. eexists. split_and!; [done|done|]. intros q' u' Hu' Hne'. simpl. unfold tr in Hu'.
      destruct (decide (p = q')) as [<-|Hne2].
      * rewrite lookup_insert_eq in *. done.
      * rewrite lookup_insert_ne in * by done. by apply Px.
  - split.
    + intros q u Hq. simpl in *. rewrite Hlen. unfold tr in Hq. destruct (decide (p = q)) as [<-|Hne].
      * rewrite lookup_insert_eq in Hq. injection Hq as <-. lia.
      * rewrite lookup_insert_ne in Hq by done. pose proof (Ha q u Hq). unfold t. lia.
    + intros q q' u Hq Hq'. simpl in *. unfold tr in *.
      destruct (decide (p = q)) as [<-|Hne], (decide (p = q')) as [<-|Hne']; [done|..];
        rewrite ?lookup_insert_eq, ?lookup_insert_ne in * by done.
      * injection Hq as <-. pose proof (Ha q' _ Hq'). unfold t in *. lia.
      * injection Hq' as <-. pose proof (Ha q _ Hq). unfold t in *. lia.
      * by eapply Hinj.
Qed.

(** A network in which the given peers were created one after the other. *)
Definition create_all {ro : RangeOrder} (ids : list Z) n : InmemNetwork :=
  foldl (λ n p, (CreateTransport p n).1) n ids.

Lemma create_all_connected {ro : RangeOrder} ids n :
  connected n → addresses_ok n → NoDup ids → (∀ p, p ∈ ids → trans n !! p = None) →
  connected (create_all ids n) ∧
  ∀ p, p ∈ ids ∨ is_Some (trans n !! p) → is_Some (trans (create_all ids n) !! p).
Proof.
  revert n. induction ids as [|p ids IH]; intros n Hc Ha Hnd Hnew; simpl.
  { split; [done|]. intros p [[]%not_elem_of_nil|]; done. }
  apply list.NoDup_cons in Hnd as [Hp Hnd].
  destruct (CreateTransport_connected p n Hc Ha) as [Hc' Ha']; [apply Hnew; set_solver|].
  destruct (IH (CreateTransport p n).1 Hc' Ha' Hnd) as [Hc2 Hd].
  { intros q Hq. simpl. rewrite lookup_insert_ne by set_solver. apply Hnew. set_solver. }
  split; [done|]. intros q Hq. apply Hd. simpl. destruct (decide (p = q)) as [->|Hne].
  - right. rewrite lookup_insert_eq. eauto.
  - rewrite lookup_insert_ne by done. destruct Hq as [[->|?]%elem_of_cons|?]; [done|by left|by right].
Qed.

(** An in-memory network connects everybody. Once the transports of some
    peers were created, in any order, the endpoint any of them gets for any other
    is the transport of that peer. *)
Theorem inmem_full_mesh {ro : RangeOrder} ids count p q :
  NoDup ids → p ∈ ids → q ∈ ids →
  let n := create_all ids (NewInmemNetwork count) in
  ∃ tp tq x, GetTransport p n = Some tp ∧ GetTransport q n = Some tq ∧
    heap n !! tp = Some x ∧ it_me x = p ∧ GetEndpoint tp q x = EpPtr (Some tq).
Proof.
  intros Hnd Hp Hq. destruct (create_all_connected ids (NewInmemNetwork count)) as [Hc Hd]; [..|done|done|].
  { intros p' t' E. simpl in E. by rewrite lookup_empty in E. }
  { split; intros p' t'; [intros E|intros ? E]; simpl in E;
      by rewrite lookup_empty in E. }
  destruct (Hd p (or_introl Hp)) as [tp Etp]. destruct (Hd q (or_introl Hq)) as [tq Etq].
  destruct (Hc p tp Etp) as (x & Ex & Mx & Px). exists tp, tq, x. split_and!; try done.
  unfold GetEndpoint. case_decide as E; [congruence|]. rewrite (Px q tq Etq) by congruence. done.
Qed.

Lemma full_mesh_witness :
  let n := @create_all some_order [2; 0; 1] (NewInmemNetwork 3) in
  ∃ tp tq x, GetTransport 0 n = Some tp ∧ GetTransport 1 n = Some tq ∧
    heap n !! tp = Some x ∧ it_me x = 0 ∧ GetEndpoint tp 1 x = EpPtr (Some tq).
Proof. apply inmem_full_mesh; [apply (bool_decide_unpack _); vm_compute; exact I|set_solver..]. Defined.

End connectivity.

(** A peer that was not created yet is not reported as [nil]. [GetEndpoint]
    returns an interface that holds a nil [*InmemTransport], so the test
    [endpoint == nil] of [node.go] does not hold, and the call that follows
    dereferences the nil pointer and panics. *)
Theorem inmem_unknown_peer_panics :
  let '(n, t) := @CreateTransport some_order 0 (NewInmemNetwork 3) in
  ∃ x, heap n !! t = Some x ∧ ep_is_nil (GetEndpoint t 1 x) = false ∧
    endpoint_handler (GetEndpoint t 1 x) (heap n) = None.
Proof. eexists. split; [reflexivity|]. split; reflexivity. Qed.

(** ** [transport_grpc.go] *)

(** The conversions [int32(z)] and back. *)
Definition int32 (z : Z) : Z := (z + 2 ^ 31) mod 2 ^ 32 - 2 ^ 31.

(** The values a command may have at run time. *)
Inductive Value := VBytes (b : list Byte.byte) | VString (s : string) | VOther (code : Z).

(** A nil command is [None]; a nil slice is empty. *)
Definition marshalCommand (cmd : option Value) : list Byte.byte :=
  match cmd with
  | None => []
  | Some (VBytes v) => v
  | Some (VString v) => String.list_byte_of_string v
  | Some (VOther _) => []
  end.

Definition unmarshalCommand (data : list Byte.byte) : option Value :=
  if decide (len data = 0) then None else Some (VBytes data).

(** The messages of the generated package, whose integers are [int32]. *)
Record pb_LogEntry := mkPbEntry {
  pe_Term : Z;
  pe_CommandValid : bool;
  pe_Command : list Byte.byte
}.

Record pb_AppendEntriesRequest := mkPbAE {
  pa_Term : Z;
  pa_LeaderId : Z;
  pa_PrevLogIndex : Z;
  pa_PrevLogTerm : Z;
  pa_Entries : list pb_LogEntry;
  pa_LeaderCommit : Z
}.

(** What the endpoint puts on the wire. *)
Definition vote_to_pb (req : RequestVoteRequest) : RequestVoteRequest :=
  mkRVReq (int32 (rvq_Term req)) (int32 (rvq_CandidateId req))
    (int32 (rvq_LastLogIndex req)) (int32 (rvq_LastLogTerm req)).

Definition entry_to_pb (e : LogEntry Value) : pb_LogEntry :=
  mkPbEntry (int32 (le_Term e)) (le_CommandValid e) (marshalCommand (le_Command e)).

Definition append_to_pb (req : AppendEntriesRequest Value) : pb_AppendEntriesRequest :=
  mkPbAE (int32 (aeq_Term req)) (int32 (aeq_LeaderId req)) (int32 (aeq_PrevLogIndex req))
    (int32 (aeq_PrevLogTerm req)) (entry_to_pb <$> aeq_Entries req) (int32 (aeq_LeaderCommit req)).

Definition install_to_pb {SB} (req : InstallSnapshotRequest SB) : InstallSnapshotRequest SB :=
  mkISReq (int32 (isq_Term req)) (int32 (isq_LeaderId req)) (int32 (isq_LastIncludedIndex req))
    (int32 (isq_LastIncludedTerm req)) (isq_Snapshot req).

(** What the server hands to the handler. *)
Definition entry_of_pb (e : pb_LogEntry) : LogEntry Value :=
  mkEntry (pe_Term e) (pe_CommandValid e) (unmarshalCommand (pe_Command e)).

Definition append_of_pb (req : pb_AppendEntriesRequest) : AppendEntriesRequest Value :=
  mkAEReq (pa_Term req) (pa_LeaderId req) (pa_PrevLogIndex req) (pa_PrevLogTerm req)
    (entry_of_pb <$> pa_Entries req) (pa_LeaderCommit req).

(** The responses on their way back. *)
Definition vote_resp_to_pb (r : RequestVoteResponse) : RequestVoteResponse :=
  mkRVResp (int32 (rvp_Term r)) (rvp_VoteGranted r).

Definition append_resp_to_pb (r : AppendEntriesResponse) : AppendEntriesResponse :=
  mkAEResp (int32 (aep_Term r)) (aep_Success r) (int32 (aep_ConflictIdx r)) (int32 (aep_ConflictTerm r)).

Definition install_resp_to_pb (r : InstallSnapshotResponse) : InstallSnapshotResponse :=
  mkISResp (int32 (isp_Term r)).

(** The transport object; [clients] are the peers a connection exists to. *)
Record GrpcTransport := mkGrpc {
  gt_me : Z;
  gt_peers : gmap Z string;
  gt_listenAddr : string;
  gt_handler : option nat;
  gt_clients : gset Z;
  gt_closed : bool
}.

Record TransportConfig := mkTConfig {
  tc_Peers : list string;
  tc_PeerID : Z;
  tc_ListenAddr : string
}.

Definition NewGrpcTransport (config : TransportConfig) : GrpcTransport :=
  mkGrpc (tc_PeerID config)
    (foldl (λ m '(i, addr), <[Z.of_nat i := addr]> m) ∅ (imap pair (tc_Peers config)))
    (tc_ListenAddr config) None ∅ false.

Definition grpc_GetPeerCount (t : GrpcTransport) : Z := Z.of_nat (size (gt_peers t)).
Definition grpc_GetPeerID (t : GrpcTransport) : Z := gt_me t.

(** [true]: an endpoint; [false]: the nil interface. *)
Definition grpc_GetEndpoint (peerID : Z) (t : GrpcTransport) : bool :=
  bool_decide (peerID ∈ gt_clients t).

Definition grpc_RegisterHandler (handler : nat) (t : GrpcTransport) : GrpcTransport :=
  mkGrpc (gt_me t) (gt_peers t) (gt_listenAddr t) (Some handler) (gt_clients t) (gt_closed t).

(** [Start]: the connections it begins to establish, unless listening fails. *)
Definition grpc_Start (listen_ok : bool) (t : GrpcTransport) : option (list Z) :=
  if listen_ok then Some (filter (λ id, id ≠ gt_me t) (map_to_list (gt_peers t)).*1) else None.

(** One attempt of [connectToPeer]; the boolean is "try again". *)
Definition connectToPeer (id : Z) (dial_ok : bool) (t : GrpcTransport) : GrpcTransport * bool :=
  if gt_closed t then (t, false)
  else if negb dial_ok then (t, true)
  else (mkGrpc (gt_me t) (gt_peers t) (gt_listenAddr t) (gt_handler t) ({[id]} ∪ gt_clients t)
          (gt_closed t), false).

Definition grpc_Stop (t : GrpcTransport) : GrpcTransport :=
  if gt_closed t then t
  else mkGrpc (gt_me t) (gt_peers t) (gt_listenAddr t) (gt_handler t) (gt_clients t) true.

Definition getHandler (t : GrpcTransport) : option nat := gt_handler t.

Section grpc_rpc.
Context {H SB : Type} `{RPCHandler H Value SB}.
Implicit Types (hs : gmap nat H) (t : GrpcTransport).

(** A method of [raftServiceServer]: [inr ()] is [context.Canceled]. *)
Definition serve {Resp : Type} (call : H → option (H * Resp)) (to_pb : Resp → Resp) t hs
  : option (gmap nat H * (Resp + unit)) :=
  match getHandler t with
  | None => Some (hs, inr ())
  | Some a => n ← hs !! a; '(n, resp) ← call n; Some (<[a := n]> hs, inl (to_pb resp))
  end.

(** An RPC that the network delivers: the request as the client's endpoint
    encodes it, decoded and handled by the server, the response encoded. *)
Definition grpc_RequestVote (env : Env) (req : RequestVoteRequest) :=
  serve (HandleRequestVote env (vote_to_pb req)) vote_resp_to_pb.
Definition grpc_AppendEntries (env : Env) (req : AppendEntriesRequest Value) :=
  serve (HandleAppendEntries env (append_of_pb (append_to_pb req))) append_resp_to_pb.
Definition grpc_InstallSnapshot (env : Env) (req : InstallSnapshotRequest SB) :=
  serve (HandleInstallSnapshot env (install_to_pb req)) install_resp_to_pb.
End grpc_rpc.

(** ** What survives the wire *)

Definition is_int32 (z : Z) : Prop := - 2 ^ 31 ≤ z < 2 ^ 31.

Lemma int32_id z : is_int32 z → int32 z = z.
Proof. unfold is_int32, int32. intros Hz. rewrite Z.mod_small; lia. Qed.

Lemma int32_range z : is_int32 (int32 z).
Proof. unfold is_int32, int32. pose proof (Z.mod_pos_bound (z + 2 ^ 31) (2 ^ 32) ltac:(lia)). lia. Qed.

(** Commands that come out as they went in. *)
Definition portable (cmd : option Value) : Prop :=
  match cmd with
  | None => True
  | Some (VBytes b) => b ≠ []
  | _ => False
  end.

Lemma command_portable cmd : unmarshalCommand (marshalCommand cmd) = cmd ↔ portable cmd.
Proof.
  unfold unmarshalCommand. destruct cmd as [[b|s|c]|]; simpl.
  - destruct b as [|x b]; simpl; [split; [done|by intros []]|].
    split; done.
  - split; [|done]. case_decide; done.
  - split; [|done]. done.
  - done.
Qed.

Record append_fits (req : AppendEntriesRequest Value) : Prop := {
  af_term : is_int32 (aeq_Term req);
  af_leader : is_int32 (aeq_LeaderId req);
  af_index : is_int32 (aeq_PrevLogIndex req);
  af_prev : is_int32 (aeq_PrevLogTerm req);
  af_commit : is_int32 (aeq_LeaderCommit req);
  af_entries : ∀ e, e ∈ aeq_Entries req → is_int32 (le_Term e) ∧ portable (le_Command e)
}.

(** C33: an [AppendEntries] request crosses gRPC unchanged exactly when it fits:
    its numbers are 32-bit integers, and every command is nil or a non-empty byte
    slice. *)
Theorem grpc_append_faithful req :
  append_of_pb (append_to_pb req) = req ↔ append_fits req.
Proof.
  destruct req as [t l i pt es c]. unfold append_of_pb, append_to_pb. simpl. split.
  - intros [= Et El Ei Ep Ee Ec].
    split; simpl; [rewrite <-Et|rewrite <-El|rewrite <-Ei|rewrite <-Ep|rewrite <-Ec|];
      try apply int32_range.
    intros e He. rewrite <-list_fmap_compose in Ee.
    assert (entry_of_pb (entry_to_pb e) = e) as E.
    { apply list_elem_of_lookup_1 in He as [k Hk]. pose proof (f_equal (lookup k) Ee) as Hl.
      rewrite list_lookup_fmap, Hk in Hl. simpl in Hl. congruence. }
    destruct e as [et ev ec]. unfold entry_of_pb, entry_to_pb in E. simpl in *.
    injection E as E1 E2. split; [rewrite <-E1; apply int32_range|by apply command_portable].
  - intros []; simpl in *. rewrite !int32_id by done. f_equal.
    rewrite <-list_fmap_compose. apply fmap_id_elem. intros [et ev ec] He.
    destruct (af_entries0 _ He) as [Ht Hp]. simpl in *. unfold entry_of_pb, entry_to_pb. simpl.
    rewrite int32_id by done. f_equal. by apply command_portable.
Qed.

(** Past 32 bits a term changes its meaning: the request of a candidate in
    term 2^31 arrives as a request of the negative term -2^31, older than any. *)
Theorem grpc_term_wraps c i t :
  rvq_Term (vote_to_pb (mkRVReq (2 ^ 31) c i t)) = - 2 ^ 31.
Proof. reflexivity. Qed.

End TR.
