(* ===== verification/GrpcLifecycle.v ===== *)
(** The life of a [GrpcTransport] ([src/src/raft/transport_grpc.go]): starting the
    server, dialling the peers, serving requests and stopping, interleaved.

    [Transport] has the tables of the transport and one definition per critical
    section; here they run together.  A connection is a number, and is open from the
    [grpc.Dial] that made it to its [Close].  Every operation is one step under [t.mu],
    except [Stop], which keeps the lock while [GracefulStop] waits for the pending
    requests of the server, as its documentation says: while [stopping] is true nothing
    else can take the lock. *)

From stdpp Require Import strings.
From S2P Require Import Prelude RaftLog Raft Transport.

#[local] Open Scope Z_scope.

Module GL.
Import TR.

(** ** State and steps *)

(** A request at server [sv]: before and after [getHandler]. *)
Inductive rpc := Arrived (sv : nat) | Running (sv : nat).

(** The goroutine [connectToPeer id]: before it reads [closed], before [grpc.Dial]
    returns, and with a connection in hand. *)
Inductive dial := Checking (id : Z) | Dialing (id : Z) | Dialled (id : Z) (c : nat) | Ended.

Record state := mkState {
  tr : GrpcTransport;
  conns : gmap Z nat;
  open_conns : gset nat;
  nconns : nat;
  server : option nat;
  serving : gset nat;
  nservers : nat;
  stopping : bool;
  rpcs : gmap nat rpc;
  dials : list dial
}.
Implicit Types (s : state) (g r : nat).

Definition init (config : TransportConfig) : state :=
  mkState (NewGrpcTransport config) ∅ ∅ 0 None ∅ 0 false ∅ [].

Definition set_tr t s := mkState t (conns s) (open_conns s) (nconns s) (server s) (serving s) (nservers s) (stopping s) (rpcs s) (dials s).
Definition set_conns cs os n s := mkState (tr s) cs os n (server s) (serving s) (nservers s) (stopping s) (rpcs s) (dials s).
Definition set_server sv ss n b s := mkState (tr s) (conns s) (open_conns s) (nconns s) sv ss n b (rpcs s) (dials s).
Definition set_rpcs rs s := mkState (tr s) (conns s) (open_conns s) (nconns s) (server s) (serving s) (nservers s) (stopping s) rs (dials s).
Definition set_dials ds s := mkState (tr s) (conns s) (open_conns s) (nconns s) (server s) (serving s) (nservers s) (stopping s) (rpcs s) ds.

(** [t.mu] is free. *)
Definition locking {A} s (o : option A) : option A := if stopping s then None else o.

Definition pending (sv : nat) (x : rpc) : bool :=
  match x with Arrived sv' | Running sv' => bool_decide (sv' = sv) end.

Definition idle (sv : nat) s : bool := forallb (λ x, negb (pending sv x.2)) (map_to_list (rpcs s)).

(** [for _, conn := range t.conns { conn.Close() }] *)
Definition close_all s : state :=
  set_conns (conns s) (open_conns s ∖ list_to_set (map_to_list (conns s)).*2) (nconns s) s.

Definition start (listen_ok : bool) s : state :=
  match grpc_Start listen_ok (tr s) with
  | None => s
  | Some ids =>
      set_dials (dials s ++ (Checking <$> ids))
        (set_server (Some (nservers s)) ({[nservers s]} ∪ serving s) (S (nservers s)) (stopping s) s)
  end.

(** [Stop] up to the wait of [GracefulStop]. *)
Definition stop_begin s : state :=
  if gt_closed (tr s) then s
  else
    let s := set_tr (grpc_Stop (tr s)) s in
    match server s with
    | Some sv => set_server (Some sv) (serving s ∖ {[sv]}) (nservers s) true s
    | None => close_all s
    end.

(** The rest of [Stop], when [GracefulStop] has returned. *)
Definition stop_end s : option state :=
  sv ← server s;
  if stopping s && idle sv s then Some (close_all (set_server (Some sv) (serving s) (nservers s) false s)) else None.

Definition arrive (r sv : nat) s : option state :=
  if decide (sv ∈ serving s ∧ rpcs s !! r = None) then Some (set_rpcs (<[r := Arrived sv]> (rpcs s)) s) else None.

(** [getHandler] in a method of [raftServiceServer]; without a handler the request is
    answered with [context.Canceled]. *)
Definition get_handler r s : option state :=
  match rpcs s !! r with
  | Some (Arrived sv) =>
      Some (set_rpcs (match getHandler (tr s) with Some _ => <[r := Running sv]> (rpcs s) | None => delete r (rpcs s) end) s)
  | _ => None
  end.

Definition respond r s : option state :=
  match rpcs s !! r with
  | Some (Running _) => Some (set_rpcs (delete r (rpcs s)) s)
  | _ => None
  end.

Definition check_closed g s : option state :=
  match dials s !! g with
  | Some (Checking id) => Some (set_dials (<[g := if gt_closed (tr s) then Ended else Dialing id]> (dials s)) s)
  | _ => None
  end.

(** [grpc.Dial]; after an error the goroutine sleeps and tries again. *)
Definition dialled g (dial_ok : bool) s : option state :=
  match dials s !! g with
  | Some (Dialing id) =>
      Some (if dial_ok
            then set_dials (<[g := Dialled id (nconns s)]> (dials s))
                   (set_conns (conns s) ({[nconns s]} ∪ open_conns s) (S (nconns s)) s)
            else set_dials (<[g := Checking id]> (dials s)) s)
  | _ => None
  end.

Definition connected g s : option state :=
  match dials s !! g with
  | Some (Dialled id c) =>
      let s := set_dials (<[g := Ended]> (dials s)) s in
      Some (if gt_closed (tr s) then set_conns (conns s) (open_conns s ∖ {[c]}) (nconns s) s
            else
              let os := match conns s !! id with Some old => open_conns s ∖ {[old]} | None => open_conns s end in
              set_tr (connectToPeer id true (tr s)).1 (set_conns (<[id := c]> (conns s)) os (nconns s) s))
  | _ => None
  end.

Inductive action :=
  | Register (handler : nat)
  | Start (listen_ok : bool)
  | StopBegin
  | StopEnd
  | Arrive (r sv : nat)
  | GetHandler (r : nat)
  | Respond (r : nat)
  | CheckClosed (g : nat)
  | Dial (g : nat) (dial_ok : bool)
  | Connected (g : nat).

Definition act (a : action) s : option state :=
  match a with
  | Register h => locking s (Some (set_tr (grpc_RegisterHandler h (tr s)) s))
  | Start ok => locking s (Some (start ok s))
  | StopBegin => locking s (Some (stop_begin s))
  | StopEnd => stop_end s
  | Arrive r sv => arrive r sv s
  | GetHandler r => locking s (get_handler r s)
  | Respond r => respond r s
  | CheckClosed g => locking s (check_closed g s)
  | Dial g ok => dialled g ok s
  | Connected g => locking s (connected g s)
  end.

Definition run (acts : list action) s : option state := foldl (λ o a, s ← o; act a s) (Some s) acts.

Definition reachable config s : Prop := ∃ acts, run acts (init config) = Some s.

Lemma run_app acts acts' s s' : run acts s = Some s' → run (acts ++ acts') s = run acts' s'.
Proof. unfold run. intros E. by rewrite foldl_app, E. Qed.

Lemma run_snoc acts a s s' : run (acts ++ [a]) s = Some s' → ∃ s1, run acts s = Some s1 ∧ act a s1 = Some s'.
Proof. unfold run. rewrite foldl_app. simpl. by intros (s1 & E & H)%bind_Some; exists s1. Qed.

(** What every step keeps, every run keeps. *)
Lemma run_invariant (I : state → Prop) acts s s' :
  (∀ a s s', I s → act a s = Some s' → I s') → I s → run acts s = Some s' → I s'.
Proof.
  intros Hstep Hs. revert s'. induction acts as [|a acts IH] using rev_ind; intros s' H; [by injection H as <-|].
  apply run_snoc in H as (s1 & H1 & H2). eauto.
Qed.

(** ** Connections *)

(** Who holds connection [c]: the table, or a goroutine that has just made it. *)
Inductive holder := Table (id : Z) | Goroutine (g : nat).

Definition holds s (h : holder) (c : nat) : Prop :=
  match h with
  | Table id => conns s !! id = Some c
  | Goroutine g => ∃ id, dials s !! g = Some (Dialled id c)
  end.

(** The table is in use: [Stop] has not closed its connections yet. *)
Definition in_use s : Prop := gt_closed (tr s) = false ∨ stopping s = true.

Record tracked s : Prop := {
  tk_bound : ∀ h c, holds s h c → (c < nconns s)%nat;
  tk_unique : ∀ h h' c, holds s h c → holds s h' c → h = h';
  tk_open : ∀ h c, holds s h c → (∀ id, h = Table id → in_use s) → c ∈ open_conns s;
  tk_held : ∀ c, c ∈ open_conns s → ∃ h, holds s h c ∧ ∀ id, h = Table id → in_use s;
  tk_clients : ∀ id, id ∈ gt_clients (tr s) ↔ is_Some (conns s !! id);
  tk_stopping : stopping s = true → gt_closed (tr s) = true ∧ ∃ sv, server s = Some sv ∧ sv ∉ serving s
}.

Lemma tracked_init config : tracked (init config).
Proof.
  split; simpl; try done.
  - by intros [id|g] c; simpl; [|intros [? ?]].
  - by intros [id|g] h' c; simpl; [|intros [? ?]].
  - by intros [id|g] c; simpl; [|intros [? ?]].
  - intros id. rewrite lookup_empty. split; [set_solver|by intros []].
Qed.

(** Steps that only touch requests, servers and goroutines without a connection. *)
Lemma tracked_frame s s' :
  tracked s → conns s' = conns s → open_conns s' = open_conns s → nconns s' = nconns s →
  gt_closed (tr s') = gt_closed (tr s) → gt_clients (tr s') = gt_clients (tr s) →
  stopping s' = stopping s → (stopping s = true → server s' = server s ∧ serving s' = serving s) →
  (∀ g id c, dials s' !! g = Some (Dialled id c) ↔ dials s !! g = Some (Dialled id c)) →
  tracked s'.
Proof.
  intros [Hb Hu Ho Hh Hc Hs] E1 E2 E3 E4 E5 E6 E7 E8.
  assert (Hholds : ∀ h c, holds s' h c ↔ holds s h c).
  { intros [id|g] c; simpl; [by rewrite E1|]. split; intros [id Hid]; exists id; by apply E8. }
  assert (Huse : in_use s' ↔ in_use s) by (unfold in_use; by rewrite E4, E6).
  split.
  - intros h c Hhc. rewrite E3. by apply (Hb h c), Hholds.
  - intros h h' c H1 H2. apply (Hu h h' c); by apply Hholds.
  - intros h c Hhc H. rewrite E2. apply (Ho h c); [by apply Hholds|]. intros id Hid. by apply Huse, (H id).
  - intros c. rewrite E2. intros (h & H1 & H2)%Hh. exists h. split; [by apply Hholds|]. intros id Hid. by apply Huse, (H2 id).
  - intros id. by rewrite E5, E1.
  - rewrite E6, E4. intros Hst. destruct (E7 Hst) as [-> ->]. by apply Hs.
Qed.

Lemma dialled_other (ds : list dial) g d d' :
  ds !! g = Some d → (∀ id c, d ≠ Dialled id c) → (∀ id c, d' ≠ Dialled id c) →
  ∀ g' id c, <[g := d']> ds !! g' = Some (Dialled id c) ↔ ds !! g' = Some (Dialled id c).
Proof.
  intros Hg Hd Hd' g' id c. destruct (decide (g = g')) as [<-|Hne]; [|by rewrite list_lookup_insert_ne].
  rewrite list_lookup_insert_eq by (by eapply lookup_lt_Some). rewrite Hg. naive_solver.
Qed.

Lemma tracked_start ok s : tracked s → stopping s = false → tracked (start ok s).
Proof.
  intros Hs Hst. unfold start. destruct (grpc_Start ok (tr s)) as [ids|]; [|done].
  apply (tracked_frame s); simpl; try done; [by rewrite Hst|]. intros g id c. rewrite lookup_app, list_lookup_fmap.
  destruct (dials s !! g) eqn:E; [done|]. destruct (ids !! _); naive_solver.
Qed.

Lemma elem_of_conns (cs : gmap Z nat) c :
  c ∈ (list_to_set (map_to_list cs).*2 : gset nat) ↔ ∃ id, cs !! id = Some c.
Proof.
  rewrite elem_of_list_to_set, list_elem_of_fmap. split.
  - intros ([id c'] & -> & H%elem_of_map_to_list). by exists id.
  - intros [id H]. exists (id, c). split; [done|]. by apply elem_of_map_to_list.
Qed.

(** Closing the table after [closed] is set. *)
Lemma tracked_close s s' :
  tracked s → in_use s → conns s' = conns s → dials s' = dials s → nconns s' = nconns s →
  gt_clients (tr s') = gt_clients (tr s) → gt_closed (tr s') = true → stopping s' = false →
  open_conns s' = open_conns s ∖ list_to_set (map_to_list (conns s)).*2 →
  tracked s'.
Proof.
  intros [Hb Hu Ho Hh Hc Hs] Huse E1 E2 E3 E4 E5 E6 E7.
  assert (Hholds : ∀ h c, holds s' h c ↔ holds s h c) by (intros [id|g] c; simpl; [by rewrite E1|by rewrite E2]).
  assert (Hno : ¬ in_use s') by (unfold in_use; rewrite E5, E6; naive_solver).
  split.
  - intros h c. rewrite E3, Hholds. apply Hb.
  - intros h h' c. rewrite !Hholds. apply Hu.
  - intros h c Hhc%Hholds H. rewrite E7. apply elem_of_difference. split; [by apply (Ho h c)|].
    intros [id Hid]%elem_of_conns. apply Hno, (H id). by apply (Hu h (Table id) c).
  - intros c. rewrite E7. intros [(h & H1 & H2)%Hh Hn]%elem_of_difference. exists h. split; [by apply Hholds|].
    intros id ->. destruct Hn. apply elem_of_conns. by exists id.
  - intros id. by rewrite E4, E1.
  - by rewrite E6.
Qed.

Lemma tracked_dialled g ok s s' : tracked s → dialled g ok s = Some s' → tracked s'.
Proof.
  intros Ht. pose proof Ht as [Hb Hu Ho Hh Hc Hs]. unfold dialled. destruct (dials s !! g) as [[| id | |]|] eqn:Eg; try done. intros [= <-].
  destruct ok; [|by apply (tracked_frame s); simpl; try done; eapply dialled_other].
  set (s' := set_dials _ _).
  assert (Hnew : ∀ h c, holds s' h c ↔ holds s h c ∨ h = Goroutine g ∧ c = nconns s).
  { intros [id'|g'] c; simpl; [naive_solver|]. destruct (decide (g = g')) as [<-|Hne].
    - rewrite list_lookup_insert_eq by (by eapply lookup_lt_Some). rewrite Eg. naive_solver.
    - rewrite list_lookup_insert_ne by done. naive_solver. }
  split.
  - intros h c [H%Hb|[-> ->]]%Hnew; simpl; lia.
  - intros h h' c [H|[-> ->]]%Hnew [H'|[-> E]]%Hnew; [by eapply Hu| |by apply Hb in H'; lia|done]. apply Hb in H. lia.
  - intros h c [H|[-> ->]]%Hnew Huse; simpl; [|set_solver]. apply elem_of_union_r. by apply (Ho h c).
  - intros c. simpl. intros [->%elem_of_singleton|(h & H1 & H2)%Hh]%elem_of_union.
    + exists (Goroutine g). split; [apply Hnew; by right|done].
    + exists h. split; [apply Hnew; by left|done].
  - done.
  - done.
Qed.

(** The goroutine [g] gives its connection up. *)
Lemma holds_ended g s s' h c :
  conns s' = conns s → dials s' = <[g := Ended]> (dials s) → holds s' h c ↔ holds s h c ∧ h ≠ Goroutine g.
Proof.
  intros E1 E2. destruct h as [id|g']; simpl; [rewrite E1; naive_solver|]. rewrite E2. destruct (decide (g = g')) as [<-|Hne].
  - split; [|naive_solver]. intros [id Hid]. destruct (decide (g < length (dials s))%nat).
    + rewrite list_lookup_insert_eq in Hid by done. done.
    + by rewrite lookup_ge_None_2 in Hid by (rewrite length_insert; lia).
  - rewrite list_lookup_insert_ne by done. naive_solver.
Qed.

Lemma tracked_connected g s s' : tracked s → stopping s = false → connected g s = Some s' → tracked s'.
Proof.
  intros [Hb Hu Ho Hh Hc Hs] Hst. unfold connected. destruct (dials s !! g) as [[| | id c|]|] eqn:Eg; try done. intros [= <-].
  assert (Hg : holds s (Goroutine g) c) by (simpl; eauto). cbn [set_dials tr conns open_conns nconns].
  destruct (gt_closed (tr s)) eqn:Ecl.
  - set (s' := set_conns _ _ _ _).
    assert (Hnew : ∀ h c, holds s' h c ↔ holds s h c ∧ h ≠ Goroutine g) by (intros; by apply holds_ended).
    split; [| | | |done|simpl; congruence].
    + intros h c' [H%Hb _]%Hnew. done.
    + intros h h' c' [H _]%Hnew [H' _]%Hnew. by eapply Hu.
    + intros h c' [H Hne]%Hnew Huse. simpl. apply elem_of_difference. split; [by apply (Ho h c')|].
      intros ->%elem_of_singleton. by apply Hne, (Hu h (Goroutine g) c).
    + intros c'. simpl. intros [(h & H1 & H2)%Hh Hn]%elem_of_difference. exists h. split; [|done]. apply Hnew. split; [done|].
      intros ->. destruct Hn, H1 as [id' H1], Hg as [id2 Hg]. simplify_eq. by apply elem_of_singleton.
  - set (s' := set_tr _ _).
    assert (Hcl : gt_closed (tr s') = false) by (unfold s', connectToPeer; simpl; by rewrite Ecl).
    assert (Hnew : ∀ h c', holds s' h c' ↔ h = Table id ∧ c' = c ∨ holds s h c' ∧ h ≠ Goroutine g ∧ h ≠ Table id).
    { intros [id'|g'] c'.
      - simpl. destruct (decide (id = id')) as [<-|]; [rewrite lookup_insert_eq|rewrite lookup_insert_ne by done]; naive_solver.
      - pose proof (holds_ended g s (set_dials (<[g := Ended]> (dials s)) s) (Goroutine g') c' eq_refl eq_refl) as HE. simpl in *. naive_solver. }
    assert (Hopen : ∀ c', c' ∈ open_conns s' ↔ c' ∈ open_conns s ∧ conns s !! id ≠ Some c').
    { intros c'. unfold s'. simpl. destruct (conns s !! id) as [old|] eqn:Eo; [|naive_solver].
      rewrite elem_of_difference, elem_of_singleton. naive_solver. }
    split.
    + intros h c' [[-> ->]|(H & _)]%Hnew; [by apply (Hb _ _ Hg)|by apply Hb in H].
    + intros h h' c' [[-> ->]|(H & Hn & _)]%Hnew [[-> E]|(H' & Hn' & _)]%Hnew; [done| | |by eapply Hu].
      * by destruct Hn'; apply (Hu _ _ _ H' Hg).
      * subst c'. by destruct Hn; apply (Hu _ _ _ H Hg).
    + intros h c' [[-> ->]|(H & Hn & Hn')]%Hnew _; apply Hopen.
      * split; [by apply (Ho _ _ Hg)|]. intros E. by apply (Hu (Table id) (Goroutine g) c) in E.
      * split; [apply (Ho _ _ H); intros; by left|]. intros E. by apply Hn', (Hu h (Table id) c').
    + intros c' [(h & H1 & _)%Hh Hn]%Hopen. destruct (decide (c' = c)) as [->|Hne].
      * exists (Table id). split; [apply Hnew; by left|intros; by left].
      * exists h. split; [|intros; by left]. apply Hnew. right. split; [done|]. split; [|by intros ->].
        intros ->. destruct H1 as [id1 H1], Hg as [id2 Hg]. by simplify_eq.
    + intros id'. unfold s', connectToPeer. simpl. rewrite Ecl. simpl. rewrite elem_of_union, elem_of_singleton, Hc.
      destruct (decide (id = id')) as [<-|]; [rewrite lookup_insert_eq|rewrite lookup_insert_ne by done]; naive_solver.
    + simpl. congruence.
Qed.

Lemma locking_Some {A} s (o : option A) x : locking s o = Some x ↔ stopping s = false ∧ o = Some x.
Proof. unfold locking. destruct (stopping s); naive_solver. Qed.

Lemma tracked_stop s : tracked s → stopping s = false → tracked (stop_begin s).
Proof.
  intros Ht Hst. unfold stop_begin. destruct (gt_closed (tr s)) eqn:Ecl; [done|]. cbn [set_tr server].
  assert (Hstop : gt_closed (grpc_Stop (tr s)) = true ∧ gt_clients (grpc_Stop (tr s)) = gt_clients (tr s)).
  { unfold grpc_Stop. by rewrite Ecl. }
  destruct Hstop as [Hcl Hcs]. destruct (server s) as [sv|] eqn:Esv.
  - destruct Ht as [Hb Hu Ho Hh Hc Hs]. set (s' := set_server _ _ _ _ _).
    assert (Huse : in_use s ∧ in_use s') by (split; [by left|by right]).
    assert (Hholds : ∀ h c, holds s' h c ↔ holds s h c) by (by intros [id|g] c).
    split; simpl; rewrite ?Hcl, ?Hcs; [by intros h c ?%Hholds%Hb|by intros h h' c ?%Hholds ?%Hholds; eapply Hu| | |done|].
    + intros h c ?%Hholds ?. apply (Ho h c); [done|]. intros. apply Huse.
    + intros c (h & H1%Hholds & H2)%Hh. exists h. split; [done|]. intros. apply Huse.
    + intros _. split; [done|]. exists sv. split; [done|]. set_solver.
  - apply (tracked_close s); [done|by left|done..].
Qed.

Lemma tracked_act a s s' : tracked s → act a s = Some s' → tracked s'.
Proof.
  intros Ht. destruct a as [h|ok| | |r sv|r|r|g|g ok|g]; simpl; rewrite ?locking_Some.
  - intros [Hst [= <-]]. by apply (tracked_frame s).
  - intros [Hst [= <-]]. by apply tracked_start.
  - intros [Hst [= <-]]. by apply tracked_stop.
  - unfold stop_end. intros (sv & Esv & H)%bind_Some. destruct (stopping s) eqn:Hst; [|done]. destruct (idle sv s); [|done].
    destruct (tk_stopping s Ht Hst) as [Hcl _]. injection H as <-. apply (tracked_close s); [done|by right|done..].
  - unfold arrive. case_decide; [|done]. intros [= <-]. by apply (tracked_frame s).
  - unfold get_handler. intros [Hst H]. repeat case_match; simplify_eq; by apply (tracked_frame s).
  - unfold respond. repeat case_match; intros; simplify_eq; by apply (tracked_frame s).
  - unfold check_closed. intros [Hst H]. destruct (dials s !! g) as [[id| | |]|] eqn:Eg; simplify_eq.
    apply (tracked_frame s); simpl; try done. eapply dialled_other; [done|done|by destruct (gt_closed (tr s))].
  - by apply tracked_dialled.
  - intros [Hst H]. by eapply tracked_connected.
Qed.

Lemma tracked_reachable config s : reachable config s → tracked s.
Proof. intros [acts H]. eapply run_invariant; [intros; by eapply tracked_act|apply tracked_init|done]. Qed.

(** C24: no connection leaks, whatever the interleaving of [Start], [Stop] and the
    goroutines that dial: until [Stop], every endpoint [GetEndpoint] gives out has an
    open connection; and when [Stop] has returned, the only open connections are those
    of goroutines that dialled before they saw it, which close them when they go on. *)
Theorem connections_tracked config s :
  reachable config s →
  (gt_closed (tr s) = false →
     ∀ id, grpc_GetEndpoint id (tr s) = true → ∃ c, conns s !! id = Some c ∧ c ∈ open_conns s) ∧
  (gt_closed (tr s) = true → stopping s = false →
     (∀ c, c ∈ open_conns s → ∃ g id, dials s !! g = Some (Dialled id c)) ∧
     ∀ g id c, dials s !! g = Some (Dialled id c) → ∃ s', act (Connected g) s = Some s' ∧ open_conns s' = open_conns s ∖ {[c]}).
Proof.
  intros [Hb Hu Ho Hh Hc Hs]%tracked_reachable. split.
  - intros Hcl id Hid%bool_decide_eq_true. apply Hc in Hid as [c Hc']. exists c. split; [done|].
    apply (Ho (Table id)); [done|]. by left.
  - intros Hcl Hst. split.
    + intros c ([id|g] & H1 & H2)%Hh; [|destruct H1 as [id H1]; by exists g, id].
      destruct (H2 id eq_refl) as [E|E]; congruence.
    + intros g id c Hg. simpl. unfold locking, connected. rewrite Hst, Hg. simpl. rewrite Hcl. eauto.
Qed.

(** ** Stopping *)





End GL.

(** ** Runs *)

Module GrpcRuns.
Import TR GL.

Definition config : TransportConfig := mkTConfig ["a"; "b"; "c"]%string 0 "a".

(** Both peers are dialled; [Stop] comes between the two connections. *)
Definition race : list action :=
  [Register 7; Start true; CheckClosed 0; Dial 0 true; Connected 0; CheckClosed 1; Dial 1 true; StopBegin; StopEnd].

Definition raced : state := default (init config) (run race (init config)).

Lemma connections_tracked_witness :
  (gt_closed (tr raced) = false →
     ∀ id, grpc_GetEndpoint id (tr raced) = true → ∃ c, conns raced !! id = Some c ∧ c ∈ open_conns raced) ∧
  (gt_closed (tr raced) = true → stopping raced = false →
     (∀ c, c ∈ open_conns raced → ∃ g id, dials raced !! g = Some (Dialled id c)) ∧
     ∀ g id c, dials raced !! g = Some (Dialled id c) →
       ∃ s', act (Connected g) raced = Some s' ∧ open_conns s' = open_conns raced ∖ {[c]}).
Proof. apply (connections_tracked config raced). exists race. vm_compute. reflexivity. Defined.

(** One connection is left, and its goroutine closes it. *)
Example race_closes :
  gt_closed (tr raced) = true ∧ elements (open_conns raced) = [1%nat] ∧
  (elements ∘ open_conns <$> run [Connected 1] raced) = Some [].
Proof. split_and!; vm_compute; reflexivity. Qed.

(** A request has arrived when [Stop] takes the lock. *)
Definition caught : list action := [Register 7; Start true; Arrive 0 0; StopBegin].

Definition stuck : state := default (init config) (run caught (init config)).


Example caught_request : rpcs stuck !! 0%nat = Some (Arrived 0) ∧ act (GetHandler 0) stuck = None.
Proof. split; vm_compute; reflexivity. Qed.
End GrpcRuns.
