(* ===== verification/Node.v ===== *)
(** The library node: [src/src/raft/node.go].

    A [Node] does what a [raft.go] peer does on exchangeable storage and
    transport.  As in [Raft], there is one definition per critical section under
    [n.mu], the part of a call after its reply is a definition of its own, and
    [None] is a Go panic; [rand.Int63n] panics on a range that is not positive, so
    whatever resets the election timer can panic.  Storage is any [RaftStorage];
    the errors of its methods are ignored where the source ignores them. *)

From S2P Require Import Prelude Gob RaftLog Raft Storage Transport.

#[local] Open Scope Z_scope.

Module ND.

(** ** Configuration *)

Definition DefaultElectionTimeoutMin : Z := 250 * millisecond.
Definition DefaultElectionTimeoutMax : Z := 400 * millisecond.
Definition DefaultReplicateInterval : Z := 30 * millisecond.

Record Config := mkConfig {
  ElectionTimeoutMin : Z;
  ElectionTimeoutMax : Z;
  ReplicateInterval : Z
}.

Definition DefaultConfig : Config :=
  mkConfig DefaultElectionTimeoutMin DefaultElectionTimeoutMax DefaultReplicateInterval.

Definition Validate (c : Config) : Config :=
  let min := if ElectionTimeoutMin c <=? 0 then DefaultElectionTimeoutMin else ElectionTimeoutMin c in
  let max := if ElectionTimeoutMax c <=? min then DefaultElectionTimeoutMax else ElectionTimeoutMax c in
  let interval := if ReplicateInterval c <=? 0 then DefaultReplicateInterval else ReplicateInterval c in
  mkConfig min max interval.

Section node.
Context {Cmd SB T : Type} `{ST.RaftStorage T (list (rgob Cmd)) (list SB)}.
Abbreviation LogEntry := (LogEntry Cmd).
Abbreviation RaftLog := (RL.RaftLog Cmd SB).

(** [peerCount] is [transport.GetPeerCount()]; [applyCond] is the state of the
    application ticker with respect to [n.applyCond]. *)
Record Node := mkNode {
  peerCount : Z;
  storage : T;
  config : Config;
  me : Z;
  dead : Z;
  role : Role;
  currentTerm : Z;
  votedFor : Z;
  log : RaftLog;
  nextIndex : list Z;
  matchIndex : list Z;
  commitIndex : Z;
  lastApplied : Z;
  snapPending : bool;
  applyCond : Cond;
  electionStart : Z;
  electionTimeout : Z
}.
Implicit Types n : Node.

Definition set_storage v n := mkNode (peerCount n) v (config n) (me n) (dead n) (role n) (currentTerm n) (votedFor n) (log n) (nextIndex n) (matchIndex n) (commitIndex n) (lastApplied n) (snapPending n) (applyCond n) (electionStart n) (electionTimeout n).
Definition set_dead v n := mkNode (peerCount n) (storage n) (config n) (me n) v (role n) (currentTerm n) (votedFor n) (log n) (nextIndex n) (matchIndex n) (commitIndex n) (lastApplied n) (snapPending n) (applyCond n) (electionStart n) (electionTimeout n).
Definition set_role v n := mkNode (peerCount n) (storage n) (config n) (me n) (dead n) v (currentTerm n) (votedFor n) (log n) (nextIndex n) (matchIndex n) (commitIndex n) (lastApplied n) (snapPending n) (applyCond n) (electionStart n) (electionTimeout n).
Definition set_currentTerm v n := mkNode (peerCount n) (storage n) (config n) (me n) (dead n) (role n) v (votedFor n) (log n) (nextIndex n) (matchIndex n) (commitIndex n) (lastApplied n) (snapPending n) (applyCond n) (electionStart n) (electionTimeout n).
Definition set_votedFor v n := mkNode (peerCount n) (storage n) (config n) (me n) (dead n) (role n) (currentTerm n) v (log n) (nextIndex n) (matchIndex n) (commitIndex n) (lastApplied n) (snapPending n) (applyCond n) (electionStart n) (electionTimeout n).
Definition set_log v n := mkNode (peerCount n) (storage n) (config n) (me n) (dead n) (role n) (currentTerm n) (votedFor n) v (nextIndex n) (matchIndex n) (commitIndex n) (lastApplied n) (snapPending n) (applyCond n) (electionStart n) (electionTimeout n).
Definition set_nextIndex v n := mkNode (peerCount n) (storage n) (config n) (me n) (dead n) (role n) (currentTerm n) (votedFor n) (log n) v (matchIndex n) (commitIndex n) (lastApplied n) (snapPending n) (applyCond n) (electionStart n) (electionTimeout n).
Definition set_matchIndex v n := mkNode (peerCount n) (storage n) (config n) (me n) (dead n) (role n) (currentTerm n) (votedFor n) (log n) (nextIndex n) v (commitIndex n) (lastApplied n) (snapPending n) (applyCond n) (electionStart n) (electionTimeout n).
Definition set_commitIndex v n := mkNode (peerCount n) (storage n) (config n) (me n) (dead n) (role n) (currentTerm n) (votedFor n) (log n) (nextIndex n) (matchIndex n) v (lastApplied n) (snapPending n) (applyCond n) (electionStart n) (electionTimeout n).
Definition set_lastApplied v n := mkNode (peerCount n) (storage n) (config n) (me n) (dead n) (role n) (currentTerm n) (votedFor n) (log n) (nextIndex n) (matchIndex n) (commitIndex n) v (snapPending n) (applyCond n) (electionStart n) (electionTimeout n).
Definition set_snapPending v n := mkNode (peerCount n) (storage n) (config n) (me n) (dead n) (role n) (currentTerm n) (votedFor n) (log n) (nextIndex n) (matchIndex n) (commitIndex n) (lastApplied n) v (applyCond n) (electionStart n) (electionTimeout n).
Definition set_applyCond v n := mkNode (peerCount n) (storage n) (config n) (me n) (dead n) (role n) (currentTerm n) (votedFor n) (log n) (nextIndex n) (matchIndex n) (commitIndex n) (lastApplied n) (snapPending n) v (electionStart n) (electionTimeout n).
Definition set_electionTimer v0 v1 n := mkNode (peerCount n) (storage n) (config n) (me n) (dead n) (role n) (currentTerm n) (votedFor n) (log n) (nextIndex n) (matchIndex n) (commitIndex n) (lastApplied n) (snapPending n) (applyCond n) v0 v1.

(** [n.applyCond.Signal()] *)
Definition signalApply n : Node := set_applyCond (Signal (applyCond n)) n.

(** ** Persistence *)

Definition serializeLog n : list (rgob Cmd) :=
  let enc := Encode (A:=Z) [] (RL.snapLastIdx (log n)) in
  let enc := Encode (A:=Z) enc (RL.snapLastTerm (log n)) in
  Encode (A:=list LogEntry) enc (RL.tailLog (log n)).

(** The log is replaced only when all three values were decoded. *)
Definition deserializeLog (data : list (rgob Cmd)) n : Node :=
  if decide (len data = 0) then n
  else
    match Decode (A:=Z) data with
    | None => n
    | Some (snapLastIdx, data) =>
      match Decode (A:=Z) data with
      | None => n
      | Some (snapLastTerm, data) =>
        match Decode (A:=list LogEntry) data with
        | None => n
        | Some (tailLog, _) => set_log (RL.mkLog snapLastIdx snapLastTerm [] tailLog) n
        end
      end
    end.

(** The errors of both calls are ignored. *)
Definition persistLocked n : Node :=
  let logData := serializeLog n in
  let '(s, _) := ST.SaveRaftState (ST.mkRaftState (currentTerm n) (votedFor n) logData) (storage n) in
  let '(s, _) := ST.SaveSnapshot (ST.mkSnapshot (RL.snapLastIdx (log n)) (RL.snapLastTerm (log n))
                                    (RL.snapshot (log n))) s in
  set_storage s n.

Definition loadFromStorage n : Node :=
  let n :=
    match ST.LoadRaftState (storage n) with
    | inl state =>
        let n := set_currentTerm (ST.rs_CurrentTerm state) n in
        let n := set_votedFor (ST.rs_VotedFor state) n in
        if decide (0 < len (ST.rs_Log state)) then deserializeLog (ST.rs_Log state) n else n
    | inr _ => n
    end in
  match ST.LoadSnapshot (storage n) with
  | inl snapshot =>
      let n := set_log (RL.NewLog (ST.sn_Index snapshot) (ST.sn_Term snapshot)
                          (ST.sn_Data snapshot) []) n in
      if commitIndex n <? ST.sn_Index snapshot
      then set_lastApplied (ST.sn_Index snapshot) (set_commitIndex (ST.sn_Index snapshot) n)
      else n
  | inr _ => n
  end.

(** ** Timers *)

(** [rand.Int63n(k)]: panics when [k <= 0]. *)
Definition Int63n (e : Env) (k : Z) : option Z :=
  if decide (k ≤ 0) then None else Some (rnd e mod k).

Definition resetElectionTimerLocked (e : Env) n : option Node :=
  let timeout := ElectionTimeoutMax (config n) - ElectionTimeoutMin (config n) in
  r ← Int63n e timeout;
  Some (set_electionTimer (now e) (ElectionTimeoutMin (config n) + r) n).

Definition isElectionTimeoutLocked (e : Env) n : bool :=
  electionTimeout n <? now e - electionStart n.

(** [NewNode]; [None] is the nil configuration.  The two tickers it starts are
    separate steps. *)
Definition NewNode (e : Env) (c : option Config) (peerCount me : Z) (storage : T) : option Node :=
  let c := Validate (default DefaultConfig c) in
  let n := mkNode peerCount storage c me 0 Follower 1 (-1)
             (RL.NewLog InvalidIndex InvalidTerm [] [])
             (replicate (Z.to_nat peerCount) 0) (replicate (Z.to_nat peerCount) 0)
             0 0 false CIdle 0 0 in
  let n := loadFromStorage n in
  resetElectionTimerLocked e n.

(** ** Roles *)

Definition becomeFollowerLocked (term : Z) n : Node :=
  if term <? currentTerm n then n
  else
    let n := set_role Follower n in
    let shouldPersist := negb (currentTerm n =? term) in
    let n := if currentTerm n <? term then set_votedFor (-1) n else n in
    let n := set_currentTerm term n in
    if shouldPersist then persistLocked n else n.

Definition becomeCandidateLocked (e : Env) n : option Node :=
  if decide (role n = Leader) then Some n
  else
    let n := set_currentTerm (currentTerm n + 1) n in
    let n := set_role Candidate n in
    let n := set_votedFor (me n) n in
    n ← resetElectionTimerLocked e n;
    Some (persistLocked n).

Definition becomeLeaderLocked n : option Node :=
  if decide (role n ≠ Candidate) then Some n
  else
    for_range (peerCount n) (λ peer n,
      ni ← slice_set (nextIndex n) peer (RL.size (log n));
      mi ← slice_set (matchIndex n) peer 0;
      Some (set_matchIndex mi (set_nextIndex ni n))) (set_role Leader n).

Definition isMoreUpToDateLocked (candidateIndex candidateTerm : Z) n : bool :=
  let '(lastIndex, lastTerm) := RL.last (log n) in
  if negb (lastTerm =? candidateTerm) then candidateTerm <? lastTerm
  else candidateIndex <? lastIndex.

Definition contextLostLocked (r : Role) (term : Z) n : bool :=
  negb ((currentTerm n =? term) && bool_decide (role n = r)).

(** ** Client calls *)

Definition GetState n : Z * bool := (currentTerm n, bool_decide (role n = Leader)).

Definition Start (command : option Cmd) n : Node * (Z * Z * bool) :=
  if decide (role n ≠ Leader) then (n, (0, 0, false))
  else
    let n := set_log (RL.append (log n) (mkEntry (currentTerm n) true command)) n in
    let n := persistLocked n in
    (n, (RL.size (log n) - 1, currentTerm n, true)).

Definition Kill n : Node := set_dead 1 n.
Definition killed n : bool := dead n =? 1.

(** [Stop] up to the wait for the tickers. *)
Definition Stop n : Node := signalApply (Kill n).

Definition Snapshot (index : Z) (snap : list SB) n : option Node :=
  if commitIndex n <? index then Some n
  else if index <=? RL.snapLastIdx (log n) then Some n
  else
    l ← RL.doSnapshot (log n) index snap;
    Some (persistLocked (set_log l n)).

(** ** Handlers *)

Definition HandleRequestVote (e : Env) (req : TR.RequestVoteRequest) n
  : option (Node * TR.RequestVoteResponse) :=
  let rterm := currentTerm n in
  if TR.rvq_Term req <? currentTerm n then Some (n, TR.mkRVResp rterm false)
  else
    let '(n, rterm) :=
      if currentTerm n <? TR.rvq_Term req
      then let n := becomeFollowerLocked (TR.rvq_Term req) n in (n, currentTerm n)
      else (n, rterm) in
    if negb (votedFor n =? -1) && negb (votedFor n =? TR.rvq_CandidateId req)
    then Some (n, TR.mkRVResp rterm false)
    else if isMoreUpToDateLocked (TR.rvq_LastLogIndex req) (TR.rvq_LastLogTerm req) n
    then Some (n, TR.mkRVResp rterm false)
    else
      let n := set_votedFor (TR.rvq_CandidateId req) n in
      let n := persistLocked n in
      n ← resetElectionTimerLocked e n;
      Some (n, TR.mkRVResp rterm true).

(** The deferred [resetElectionTimerLocked] runs on every return after the term
    was aligned. *)
Definition HandleAppendEntries (e : Env) (req : TR.AppendEntriesRequest Cmd) n
  : option (Node * TR.AppendEntriesResponse) :=
  let rterm := currentTerm n in
  if TR.aeq_Term req <? currentTerm n then Some (n, TR.mkAEResp rterm false 0 0)
  else
    let n := if currentTerm n <=? TR.aeq_Term req
             then becomeFollowerLocked (TR.aeq_Term req) n else n in
    '(n, resp) ←
      (if RL.size (log n) <=? TR.aeq_PrevLogIndex req then
         Some (n, TR.mkAEResp rterm false (RL.size (log n)) InvalidTerm)
       else if TR.aeq_PrevLogIndex req <? RL.snapLastIdx (log n) then
         Some (n, TR.mkAEResp rterm false (RL.snapLastIdx (log n)) (RL.snapLastTerm (log n)))
       else
         prev ← RL.at_ (log n) (TR.aeq_PrevLogIndex req);
         if negb (le_Term prev =? TR.aeq_PrevLogTerm req) then
           Some (n, TR.mkAEResp rterm false (RL.firstFor (log n) (le_Term prev)) (le_Term prev))
         else
           let entries := (λ x, mkEntry (le_Term x) (le_CommandValid x) (le_Command x))
                            <$> TR.aeq_Entries req in
           l ← RL.appendFrom (log n) (TR.aeq_PrevLogIndex req) entries;
           let n := persistLocked (set_log l n) in
           let n := if commitIndex n <? TR.aeq_LeaderCommit req then
                      let '(lastIdx, _) := RL.last (log n) in
                      signalApply
                        (if lastIdx <? TR.aeq_LeaderCommit req then set_commitIndex lastIdx n
                         else set_commitIndex (TR.aeq_LeaderCommit req) n)
                    else n in
           Some (n, TR.mkAEResp rterm true 0 0));
    n ← resetElectionTimerLocked e n;
    Some (n, resp).

Definition HandleInstallSnapshot (e : Env) (req : TR.InstallSnapshotRequest SB) n
  : option (Node * TR.InstallSnapshotResponse) :=
  if TR.isq_Term req <? currentTerm n then Some (n, TR.mkISResp (currentTerm n))
  else
    let n := if currentTerm n <=? TR.isq_Term req
             then becomeFollowerLocked (TR.isq_Term req) n else n in
    n ←
      (if TR.isq_LastIncludedIndex req <=? RL.snapLastIdx (log n) then Some n
       else
         l ← RL.installSnapshot (log n) (TR.isq_LastIncludedIndex req)
               (TR.isq_LastIncludedTerm req) (TR.isq_Snapshot req);
         let n := persistLocked (set_log l n) in
         let n := set_snapPending true n in
         let n := if commitIndex n <? TR.isq_LastIncludedIndex req
                  then set_commitIndex (TR.isq_LastIncludedIndex req) n else n in
         Some (signalApply n));
    let resp := TR.mkISResp (currentTerm n) in
    n ← resetElectionTimerLocked e n;
    Some (n, resp).

(** ** Elections *)

(** One iteration of [electionTicker]: the term of the election it starts. *)
Definition electionTicker (e : Env) n : option (Node * option Z) :=
  if bool_decide (role n ≠ Leader) && isElectionTimeoutLocked e n then
    n ← becomeCandidateLocked e n;
    Some (n, Some (currentTerm n))
  else Some (n, None).

(** [startElection] up to the calls: whom it asks, and what; [None] in the
    second component when the context is lost. *)
Definition startElection (e : Env) (term : Z) n
  : option (Node * option (list (Z * TR.RequestVoteRequest))) :=
  if contextLostLocked Candidate term n then Some (n, None)
  else
    let '(lastIdx, lastTerm) := RL.last (log n) in
    n ← resetElectionTimerLocked e n;
    let req := TR.mkRVReq term (me n) lastIdx lastTerm in
    Some (n, Some ((λ peer, (peer, req)) <$> filter (λ peer, peer ≠ me n) (seqZ 0 (peerCount n)))).

(** After the reply, under the lock; [true]: go on and count the vote. *)
Definition vote_check (term : Z) (resp : TR.RequestVoteResponse) n : Node * bool :=
  if currentTerm n <? TR.rvp_Term resp then (becomeFollowerLocked (TR.rvp_Term resp) n, false)
  else if contextLostLocked Candidate term n then (n, false)
  else (n, TR.rvp_VoteGranted resp).

(** Under [votesMu]: the new count and [won]. *)
Definition vote_count (votes peerCount : Z) : Z * bool :=
  let votes := votes + 1 in (votes, Z.quot peerCount 2 <? votes).

(** Under the lock again; the boolean: a replication ticker was started. *)
Definition vote_won (term : Z) n : option (Node * bool) :=
  if bool_decide (role n = Candidate) && (currentTerm n =? term) then
    n ← becomeLeaderLocked n; Some (n, true)
  else Some (n, false).

(** ** Replication *)

Inductive Call :=
  | CallAppend (peer : Z) (req : TR.AppendEntriesRequest Cmd)
  | CallInstall (peer : Z) (req : TR.InstallSnapshotRequest SB).

(** The head of the loop of [replicationTicker]: whether it goes on to
    [startReplication]. *)
Definition replicationTicker (term : Z) n : bool :=
  negb (killed n) && negb (contextLostLocked Leader term n).

(** The calls are made with the arguments [startReplication] computed. *)
Definition startReplication (term : Z) n : option (Node * list Call) :=
  if contextLostLocked Leader term n then Some (n, [])
  else
    for_range (peerCount n) (λ peer '(n, calls),
      if peer =? me n then
        mi ← slice_set (matchIndex n) peer (RL.size (log n) - 1);
        let n := set_matchIndex mi n in
        ni ← slice_set (nextIndex n) peer (RL.size (log n));
        Some (set_nextIndex ni n, calls)
      else
        next ← slice_get (nextIndex n) peer;
        let prevIdx := next - 1 in
        if prevIdx <? RL.snapLastIdx (log n) then
          let req := TR.mkISReq term (me n) (RL.snapLastIdx (log n)) (RL.snapLastTerm (log n))
                       (RL.snapshot (log n)) in
          Some (n, calls ++ [CallInstall peer req])
        else
          prev ← RL.at_ (log n) prevIdx;
          entries ← RL.tail (log n) (prevIdx + 1);
          let req := TR.mkAEReq term (me n) prevIdx (le_Term prev) entries (commitIndex n) in
          Some (n, calls ++ [CallAppend peer req])) (n, []).

(** The exchange sort of [updateCommitIndexLocked]. *)
Definition exchange (i j : Z) (l : list Z) : option (list Z) :=
  a ← slice_get l i; b ← slice_get l j;
  if b <? a then l ← slice_set l i b; slice_set l j a else Some l.

Definition exchange_sort (l : list Z) (k : Z) : option (list Z) :=
  for_range (k - 1) (λ i l,
    for_range (k - (i + 1)) (λ d l, exchange i (i + 1 + d) l) l) l.

Definition updateCommitIndexLocked n : option Node :=
  let tmpIndexes := make_copy (Z.to_nat (peerCount n)) (matchIndex n) in
  tmpIndexes ← exchange_sort tmpIndexes (peerCount n);
  majorityIdx ← slice_get tmpIndexes (Z.quot (peerCount n - 1) 2);
  if commitIndex n <? majorityIdx then
    if RL.snapLastIdx (log n) <=? majorityIdx then
      entry ← RL.at_ (log n) majorityIdx;
      if le_Term entry =? currentTerm n
      then Some (signalApply (set_commitIndex majorityIdx n))
      else Some n
    else Some n
  else Some n.

(** [sendAppendEntries] after the reply. *)
Definition sendAppendEntries (peer term : Z) (req : TR.AppendEntriesRequest Cmd)
    (resp : TR.AppendEntriesResponse) n : option Node :=
  if currentTerm n <? TR.aep_Term resp
  then Some (becomeFollowerLocked (TR.aep_Term resp) n)
  else if contextLostLocked Leader term n then Some n
  else if negb (TR.aep_Success resp) then
    let next :=
      if TR.aep_ConflictTerm resp =? InvalidTerm then TR.aep_ConflictIdx resp
      else
        let firstIdx := RL.firstFor (log n) (TR.aep_ConflictTerm resp) in
        if negb (firstIdx =? InvalidIndex) then firstIdx else TR.aep_ConflictIdx resp in
    ni ← slice_set (nextIndex n) peer next;
    let n := set_nextIndex ni n in
    next ← slice_get (nextIndex n) peer;
    let prevIdx := TR.aeq_PrevLogIndex req in
    ni ← (if prevIdx + 1 <? next then slice_set (nextIndex n) peer (prevIdx + 1)
          else Some (nextIndex n));
    let n := set_nextIndex ni n in
    let minIdx := RL.snapLastIdx (log n) + 1 in
    next ← slice_get (nextIndex n) peer;
    ni ← (if next <? minIdx then slice_set (nextIndex n) peer minIdx else Some (nextIndex n));
    Some (set_nextIndex ni n)
  else
    mi ← slice_set (matchIndex n) peer (TR.aeq_PrevLogIndex req + len (TR.aeq_Entries req));
    let n := set_matchIndex mi n in
    m ← slice_get (matchIndex n) peer;
    ni ← slice_set (nextIndex n) peer (m + 1);
    updateCommitIndexLocked (set_nextIndex ni n).

(** [sendInstallSnapshot] after the reply. *)
Definition sendInstallSnapshot (peer term : Z) (resp : TR.InstallSnapshotResponse) n : option Node :=
  if currentTerm n <? TR.isp_Term resp
  then Some (becomeFollowerLocked (TR.isp_Term resp) n)
  else if contextLostLocked Leader term n then Some n
  else
    mi ← slice_set (matchIndex n) peer (RL.snapLastIdx (log n));
    let n := set_matchIndex mi n in
    ni ← slice_set (nextIndex n) peer (RL.snapLastIdx (log n) + 1);
    Some (set_nextIndex ni n).

(** ** Application *)

(** The condition under which [applicationTicker] does not wait. *)
Definition app_ready n : bool := (lastApplied n <? commitIndex n) || snapPending n.

(** [n.applyCond.Wait()], from the inner loop. *)
Definition app_wait n : Node := set_applyCond CWaiting n.

(** The loop that collects the committed entries; one iteration per index. *)
Fixpoint app_loop (fuel : nat) n (msgs : list (ApplyMsg Cmd SB)) : option (Node * list (ApplyMsg Cmd SB)) :=
  match fuel with
  | O => Some (n, msgs)
  | S fuel =>
      if lastApplied n <? commitIndex n then
        let n := set_lastApplied (lastApplied n + 1) n in
        entry ← RL.at_ (log n) (lastApplied n);
        app_loop fuel n (msgs ++ [mkApplyMsg true (le_Command entry) (lastApplied n) false [] 0 0])
      else Some (n, msgs)
  end.

(** The messages of one round, collected under the lock. *)
Definition app_round n : option (Node * list (ApplyMsg Cmd SB)) :=
  let n := set_applyCond CIdle n in
  let '(n, msgs) :=
    if snapPending n then
      let n := set_snapPending false n in
      (set_lastApplied (RL.snapLastIdx (log n)) n,
       [mkApplyMsg false None 0 true (RL.snapshot (log n)) (RL.snapLastTerm (log n))
          (RL.snapLastIdx (log n))])
    else (n, []) in
  app_loop (Z.to_nat (commitIndex n - lastApplied n)) n msgs.

End node.
Arguments Node : clear implicits.

(** The [select] with a [default] that sends one message on a channel with [cap]
    places: a message that finds the channel full is dropped. *)
Definition app_send {M : Type} (cap : Z) (buf : list M) (msg : M) : list M :=
  if len buf <? cap then buf ++ [msg] else buf.

(** A [Node] is an [RPCHandler]. *)
#[export] Instance Node_handler {Cmd SB T} `{ST.RaftStorage T (list (rgob Cmd)) (list SB)}
  : TR.RPCHandler (Node Cmd SB T) Cmd SB := {
  HandleRequestVote := HandleRequestVote;
  HandleAppendEntries := HandleAppendEntries;
  HandleInstallSnapshot := HandleInstallSnapshot
}.

End ND.
