(* ===== verification/NodeFacts.v ===== *)
(** One [Node] on its own: its invariant, and for every critical section that it
    does not panic, keeps the invariant and what it does to term, vote and role.

    All of this is proved against the laws of [RaftStorage], so it holds on
    either storage. *)

From S2P Require Import Prelude Gob RaftLog Raft Voting Ballot Storage Transport Node.
Import ND.

#[local] Open Scope Z_scope.

(** ** Configurations *)

Record cfg_ok (c : Config) : Prop := {
  co_min : 0 < ElectionTimeoutMin c;
  co_max : ElectionTimeoutMin c < ElectionTimeoutMax c;
  co_interval : 0 < ReplicateInterval c
}.

Lemma Validate_ok c : cfg_ok c → Validate c = c.
Proof.
  intros [H1 H2 H3]. unfold Validate. destruct c as [mn mx iv]. simpl in *.
  destruct (Z.leb_spec mn 0); [lia|]. destruct (Z.leb_spec mx mn); [lia|].
  by destruct (Z.leb_spec iv 0); [lia|].
Qed.

Lemma cfg_ok_Validate c :
  cfg_ok (Validate c) ↔
  ElectionTimeoutMin c < DefaultElectionTimeoutMax ∨ ElectionTimeoutMin c < ElectionTimeoutMax c.
Proof.
  unfold Validate. destruct c as [mn mx iv]. simpl.
  assert (0 < DefaultElectionTimeoutMin < DefaultElectionTimeoutMax) by (unfold DefaultElectionTimeoutMin, DefaultElectionTimeoutMax, millisecond; lia).
  assert (0 < DefaultReplicateInterval) by (unfold DefaultReplicateInterval, millisecond; lia).
  split.
  - intros [_ H1 _]. simpl in H1. destruct (Z.leb_spec mn 0); [lia|].
    destruct (Z.leb_spec mx mn) in H1; lia.
  - intros Hc. split; simpl; destruct (Z.leb_spec mn 0), (Z.leb_spec iv 0); try lia;
      match goal with |- context [if ?a <=? ?b then _ else _] => destruct (Z.leb_spec a b) end; lia.
Qed.

Section facts.
Context {Cmd SB T : Type} {RS : ST.RaftStorage T (list (rgob Cmd)) (list SB)}
  {RSL : ST.RaftStorageLaws T (list (rgob Cmd)) (list SB)}.
Abbreviation Node := (ND.Node Cmd SB T).
Implicit Types (n : Node) (e : Env) (t : Z).

(** ** Persistence *)

Definition state_of n := ST.mkRaftState (currentTerm n) (votedFor n) (serializeLog n).
Definition snap_of n : ST.Snapshot (list SB) :=
  ST.mkSnapshot (RL.snapLastIdx (log n)) (RL.snapLastTerm (log n)) (RL.snapshot (log n)).

Definition persisted n : T :=
  (ST.SaveSnapshot (snap_of n) (ST.SaveRaftState (state_of n) (storage n)).1).1.

Lemma persist_eq n : persistLocked n = set_storage (persisted n) n.
Proof.
  unfold persistLocked, persisted, state_of, snap_of.
  destruct (ST.SaveRaftState _ (storage n)) as [s1 e1]. simpl.
  by destruct (ST.SaveSnapshot _ s1) as [s2 e2].
Qed.

(** The storage works and would give back the term, the vote and the snapshot
    after a restart; nothing was saved yet only in a node that has just started. *)
Definition durable n : Prop :=
  ST.works (storage n) ∧
  match ST.LoadRaftState (storage n), ST.LoadSnapshot (storage n) with
  | inl st, inl sn =>
      ST.rs_CurrentTerm st = currentTerm n ∧ ST.rs_VotedFor st = votedFor n ∧ sn = snap_of n
  | inr _, inr _ => currentTerm n = 1 ∧ votedFor n = -1 ∧ log n = RL.NewLog 0 0 [] []
  | _, _ => False
  end.

Lemma durable_persist n : ST.works (storage n) → durable (set_storage (persisted n) n).
Proof.
  intros Hw. destruct (ST.save_state (state_of n) (storage n) Hw) as (s1 & E1 & W1 & L1 & _).
  destruct (ST.save_snapshot (snap_of n) s1 W1) as (s2 & E2 & W2 & L2 & K2).
  unfold durable, persisted. rewrite E1. simpl. rewrite E2. simpl.
  by rewrite L2, K2, L1.
Qed.

(** ** The invariant *)

(** A leader's indices stay within its log. *)
Definition indices_ok n : Prop :=
  (∀ i x, slice_get (nextIndex n) i = Some x → x ≤ RL.size (log n)) ∧
  (∀ i x, slice_get (matchIndex n) i = Some x → x < RL.size (log n)).

Record node_inv n : Prop := {
  ni_cfg : cfg_ok (config n);
  ni_count : 0 ≤ peerCount n;
  ni_wf : RL.wf (log n);
  ni_next : len (nextIndex n) = peerCount n;
  ni_match : len (matchIndex n) = peerCount n;
  ni_durable : durable n;
  ni_leader : role n = Leader → indices_ok n
}.

(** Identity and configuration do not change. *)
Definition same_node n n' : Prop :=
  me n' = me n ∧ peerCount n' = peerCount n ∧ config n' = config n.

Definition proj n : BL.bpeer := BL.mkB (currentTerm n) (votedFor n) (role n).

(** A step that takes no part in an election. *)
Definition calm n n' : Prop := same_node n n' ∧ BL.bquiet (proj n) (proj n').

Lemma same_node_refl n : same_node n n.
Proof. done. Qed.

Lemma same_node_trans n1 n2 n3 : same_node n1 n2 → same_node n2 n3 → same_node n1 n3.
Proof. unfold same_node. intuition congruence. Qed.

Lemma calm_refl n : calm n n.
Proof. split; [done|]. left. auto. Qed.

Lemma calm_trans n1 n2 n3 : calm n1 n2 → calm n2 n3 → calm n1 n3.
Proof.
  intros [S1 Q1] [S2 Q2]. split; [by eapply same_node_trans|].
  unfold BL.bquiet, proj in *. simpl in *.
  destruct Q1 as [(?&?&[?|?])|(?&?&?)], Q2 as [(?&?&[?|?])|(?&?&?)];
    first [left; split_and!; [congruence|congruence|first [left; congruence|right; congruence]]
          |right; split_and!; [lia|congruence|congruence]].
Qed.

(** Same identity, term, vote and role. *)
Lemma calm_same n n' :
  same_node n n' → currentTerm n' = currentTerm n → votedFor n' = votedFor n → role n' = role n →
  calm n n'.
Proof. intros ? ? ? ?. split; [done|]. left. simpl. auto. Qed.

(** The invariant survives changes of other fields, and of the log when it is
    persisted. *)
Lemma ni_same_log n n' :
  node_inv n → same_node n n' → storage n' = storage n → currentTerm n' = currentTerm n →
  votedFor n' = votedFor n → log n' = log n → len (nextIndex n') = len (nextIndex n) →
  len (matchIndex n') = len (matchIndex n) → (role n' = Leader → indices_ok n') → node_inv n'.
Proof.
  intros [] (Em & Ep & Ec) Es Et Ev El En Ei Hr. split; [by rewrite Ec|lia|by rewrite El|lia|lia| |done].
  unfold durable, snap_of in *. by rewrite Es, Et, Ev, El.
Qed.

Lemma ni_persist n :
  cfg_ok (config n) → 0 ≤ peerCount n → RL.wf (log n) → len (nextIndex n) = peerCount n →
  len (matchIndex n) = peerCount n → ST.works (storage n) → (role n = Leader → indices_ok n) →
  node_inv (persistLocked n).
Proof. intros. rewrite persist_eq. split; try done. by apply durable_persist. Qed.

Lemma calm_persist n : calm n (persistLocked n).
Proof. rewrite persist_eq. by apply calm_same. Qed.

Lemma ni_works n : node_inv n → ST.works (storage n).
Proof. intros []. by destruct ni_durable0. Qed.

(** A new log, persisted, in a node that does not lead. *)
Lemma ni_new_log n l :
  node_inv n → RL.wf l → (role n = Leader → indices_ok (set_log l n)) →
  node_inv (persistLocked (set_log l n)).
Proof. intros Hi Hl Hr. pose proof (ni_works _ Hi). destruct Hi. by apply ni_persist. Qed.

Lemma calm_new_log n l : calm n (persistLocked (set_log l n)).
Proof. eapply calm_trans; [|apply calm_persist]. by apply calm_same. Qed.

Lemma log_persist n : log (persistLocked n) = log n.
Proof. by rewrite persist_eq. Qed.

Lemma ni_signal n : node_inv n → node_inv (signalApply n).
Proof. intros Hi. apply (ni_same_log n); try done. apply Hi. Qed.

Lemma ni_cond c n : node_inv n → node_inv (set_applyCond c n).
Proof. intros Hi. apply (ni_same_log n); try done. apply Hi. Qed.

Lemma ni_commit v n : node_inv n → node_inv (set_commitIndex v n).
Proof. intros Hi. apply (ni_same_log n); try done. apply Hi. Qed.

Lemma ni_snapPending v n : node_inv n → node_inv (set_snapPending v n).
Proof. intros Hi. apply (ni_same_log n); try done. apply Hi. Qed.

Lemma ni_applied v n : node_inv n → node_inv (set_lastApplied v n).
Proof. intros Hi. apply (ni_same_log n); try done. apply Hi. Qed.

(** ** Timers and roles *)

Lemma reset_Some e n :
  cfg_ok (config n) →
  ∃ v, resetElectionTimerLocked e n = Some (set_electionTimer (now e) v n) ∧
    ElectionTimeoutMin (config n) ≤ v < ElectionTimeoutMax (config n).
Proof.
  intros []. unfold resetElectionTimerLocked, Int63n. rewrite decide_False by lia. simpl.
  eexists. split; [done|].
  pose proof (Z.mod_pos_bound (rnd e) (ElectionTimeoutMax (config n) - ElectionTimeoutMin (config n))).
  lia.
Qed.

Lemma reset_inv e n :
  node_inv n → ∃ n', resetElectionTimerLocked e n = Some n' ∧ node_inv n' ∧ calm n n' ∧
    log n' = log n ∧ commitIndex n' = commitIndex n ∧ proj n' = proj n.
Proof.
  intros Hi. destruct (reset_Some e n (ni_cfg _ Hi)) as (v & E & _). eexists. split; [done|].
  split_and!; try done.
  - apply (ni_same_log n); try done. apply Hi.
  - by apply calm_same.
Qed.

Lemma node_follower t n :
  node_inv n →
  let n' := becomeFollowerLocked t n in
  node_inv n' ∧ calm n n' ∧ log n' = log n ∧ commitIndex n' = commitIndex n ∧
  (t < currentTerm n ∧ n' = n ∨
   currentTerm n ≤ t ∧ currentTerm n' = t ∧ role n' = Follower ∧
   votedFor n' = (if decide (currentTerm n = t) then votedFor n else -1)).
Proof.
  intros Hi. pose proof (ni_works _ Hi) as Hw. unfold becomeFollowerLocked.
  destruct (Z.ltb_spec t (currentTerm n)).
  { split_and!; try done; [apply calm_refl|by left]. }
  cbn -[persistLocked Z.ltb Z.eqb].
  destruct (Z.eqb_spec (currentTerm n) t) as [<-|Hne]; cbn -[persistLocked Z.ltb].
  - rewrite Z.ltb_irrefl. cbn. split_and!; try done.
    + apply (ni_same_log n); done.
    + split; [done|]. left. simpl. auto.
    + right. by rewrite decide_True.
  - destruct (Z.ltb_spec (currentTerm n) t); [|lia]. rewrite persist_eq. split_and!; try done.
    + rewrite <-persist_eq. destruct Hi. by apply ni_persist.
    + split; [done|]. right. done.
    + right. by rewrite decide_False.
Qed.

Lemma node_candidate e n :
  node_inv n → role n ≠ Leader →
  ∃ n', becomeCandidateLocked e n = Some n' ∧ node_inv n' ∧ same_node n n' ∧ log n' = log n ∧
    proj n' = BL.mkB (currentTerm n + 1) (me n) Candidate.
Proof.
  intros Hi Hr. pose proof (ni_works _ Hi) as Hw. unfold becomeCandidateLocked.
  rewrite decide_False by done.
  destruct (reset_Some e (set_votedFor (me n) (set_role Candidate
    (set_currentTerm (currentTerm n + 1) n))) (ni_cfg _ Hi)) as (v & E & _).
  cbn -[resetElectionTimerLocked persistLocked]. rewrite E. eexists. split; [done|].
  rewrite persist_eq. split_and!; try done. rewrite <-persist_eq. destruct Hi. by apply ni_persist.
Qed.

(** Writing one slot of the two index slices. *)
Definition reindexed_node n n' : Prop :=
  ∃ ni mi, n' = set_matchIndex mi (set_nextIndex ni n) ∧
    len ni = len (nextIndex n) ∧ len mi = len (matchIndex n).

Lemma renode_refl n : reindexed_node n n.
Proof. exists (nextIndex n), (matchIndex n). by destruct n. Qed.

Lemma renode_inv n n' : node_inv n → reindexed_node n n' → indices_ok n' → node_inv n'.
Proof. intros Hi (ni & mi & -> & ? & ?) Hx. apply (ni_same_log n); done. Qed.

Lemma renode_calm n n' : reindexed_node n n' → calm n n' ∧ log n' = log n ∧ commitIndex n' = commitIndex n.
Proof. intros (ni & mi & -> & ? & ?). split_and!; try done. by apply calm_same. Qed.

Lemma renode_trans n1 n2 n3 : reindexed_node n1 n2 → reindexed_node n2 n3 → reindexed_node n1 n3.
Proof.
  intros (ni & mi & -> & ? & ?) (ni' & mi' & -> & ? & ?). exists ni', mi'. simpl in *.
  split_and!; [done|congruence|congruence].
Qed.

Lemma set_next_spec n i v :
  0 ≤ i < len (nextIndex n) →
  ∃ ni, slice_set (nextIndex n) i v = Some ni ∧ reindexed_node n (set_nextIndex ni n) ∧
    (v ≤ RL.size (log n) → indices_ok n → indices_ok (set_nextIndex ni n)).
Proof.
  intros Hi. destruct (proj2 (slice_set_is_Some (nextIndex n) i v) Hi) as [ni E]. exists ni.
  split; [done|]. split.
  - exists ni, (matchIndex n). split_and!; [by destruct n|by eapply slice_set_len|done].
  - intros Hv [H1 H2]. split; simpl; [|done]. intros j x. rewrite (slice_get_set _ _ _ _ _ E).
    case_decide; naive_solver.
Qed.

Lemma set_match_spec n i v :
  0 ≤ i < len (matchIndex n) →
  ∃ mi, slice_set (matchIndex n) i v = Some mi ∧ reindexed_node n (set_matchIndex mi n) ∧
    (v < RL.size (log n) → indices_ok n → indices_ok (set_matchIndex mi n)).
Proof.
  intros Hi. destruct (proj2 (slice_set_is_Some (matchIndex n) i v) Hi) as [mi E]. exists mi.
  split; [done|]. split.
  - exists (nextIndex n), mi. split_and!; [by destruct n|done|by eapply slice_set_len].
  - intros Hv [H1 H2]. split; simpl; [done|]. intros j x. rewrite (slice_get_set _ _ _ _ _ E).
    case_decide; naive_solver.
Qed.
End facts.

Section handlers.
Context {Cmd SB T : Type} {RS : ST.RaftStorage T (list (rgob Cmd)) (list SB)}
  {RSL : ST.RaftStorageLaws T (list (rgob Cmd)) (list SB)}.
Abbreviation Node := (ND.Node Cmd SB T).
Implicit Types (n : Node) (e : Env) (t : Z).

(** ** The handlers *)

(** The candidate's log is at least as up to date as the node's. *)
Definition up_to_date (req : TR.RequestVoteRequest) n : Prop :=
  let '(li, lt) := RL.last (log n) in
  lt < TR.rvq_LastLogTerm req ∨ lt = TR.rvq_LastLogTerm req ∧ li ≤ TR.rvq_LastLogIndex req.

Lemma node_up_to_date req n :
  isMoreUpToDateLocked (TR.rvq_LastLogIndex req) (TR.rvq_LastLogTerm req) n = false ↔ up_to_date req n.
Proof.
  unfold isMoreUpToDateLocked, up_to_date. destruct (RL.last (log n)) as [li lt].
  destruct (Z.eqb_spec lt (TR.rvq_LastLogTerm req)); simpl; lia.
Qed.

(** The vote is free for the candidate, in the term of the request. *)
Definition may_vote (req : TR.RequestVoteRequest) n : Prop :=
  currentTerm n ≤ TR.rvq_Term req ∧
  (currentTerm n = TR.rvq_Term req → votedFor n = -1 ∨ votedFor n = TR.rvq_CandidateId req).

Lemma handle_vote e req n :
  node_inv n →
  ∃ n' resp, HandleRequestVote e req n = Some (n', resp) ∧ node_inv n' ∧ same_node n n' ∧
    log n' = log n ∧
    (TR.rvp_VoteGranted resp = true ↔ may_vote req n ∧ up_to_date req n) ∧
    (TR.rvp_VoteGranted resp = false → calm n n') ∧
    (TR.rvp_VoteGranted resp = true → proj n' =
       BL.mkB (TR.rvq_Term req) (TR.rvq_CandidateId req)
         (if decide (currentTerm n = TR.rvq_Term req) then role n else Follower)).
Proof.
  intros Hi. unfold HandleRequestVote, may_vote.
  destruct (Z.ltb_spec (TR.rvq_Term req) (currentTerm n)) as [Hlt|Hge].
  { eexists n, _. split_and!; try done; [|intros _; apply calm_refl]. simpl. split; [done|lia]. }
  set (x := if currentTerm n <? TR.rvq_Term req then _ else _).
  assert (∃ n1 r, x = (n1, r) ∧ node_inv n1 ∧ calm n n1 ∧ log n1 = log n ∧
    currentTerm n1 = TR.rvq_Term req ∧
    role n1 = (if decide (currentTerm n = TR.rvq_Term req) then role n else Follower) ∧
    votedFor n1 = (if decide (currentTerm n = TR.rvq_Term req) then votedFor n else -1))
    as (n1 & r & -> & Hi1 & Hc1 & Hl1 & Ht1 & Hr1 & Hv1).
  { unfold x. destruct (Z.ltb_spec (currentTerm n) (TR.rvq_Term req)).
    - destruct (node_follower (TR.rvq_Term req) n Hi) as (? & ? & ? & _ & [[? _]|(_ & ? & ? & ?)]); [lia|].
      eexists _, _. rewrite decide_False in * by lia. done.
    - eexists n, _. rewrite !decide_True by lia. split_and!; try done; [apply calm_refl|lia]. }
  assert (up_to_date req n1 ↔ up_to_date req n) as Hup by (unfold up_to_date; by rewrite Hl1).
  destruct (negb (votedFor n1 =? -1) && negb (votedFor n1 =? TR.rvq_CandidateId req)) eqn:Ev.
  { eexists n1, _. split_and!; try done; [apply Hc1|]. simpl. split; [done|].
    intros [[_ H] _]. rewrite Hv1 in Ev. case_decide; lia. }
  assert (currentTerm n = TR.rvq_Term req → votedFor n = -1 ∨ votedFor n = TR.rvq_CandidateId req)
    as Hfree by (intros E; rewrite Hv1, decide_True in Ev by done; lia).
  destruct (isMoreUpToDateLocked _ _ n1) eqn:Em.
  { eexists n1, _. split_and!; try done; [apply Hc1|]. simpl. split; [done|].
    intros [_ H]. apply Hup, node_up_to_date in H. congruence. }
  apply node_up_to_date, Hup in Em. pose proof (ni_works _ Hi1) as Hw.
  destruct (reset_inv e (persistLocked (set_votedFor (TR.rvq_CandidateId req) n1)))
    as (n2 & E2 & Hi2 & Hc2 & Hl2 & _ & Hp2).
  { destruct Hi1. by apply ni_persist. }
  rewrite E2. eexists n2, _. split_and!; try done.
  - eapply same_node_trans; [apply Hc1|]. eapply same_node_trans; [|apply Hc2]. by rewrite persist_eq.
  - rewrite Hl2, log_persist. done.
  - intros _. rewrite Hp2, persist_eq. unfold proj. simpl. by rewrite Ht1, Hr1.
Qed.

Lemma becomeFollower_guarded t n :
  node_inv n → currentTerm n ≤ t →
  let n1 := if currentTerm n <=? t then becomeFollowerLocked t n else n in
  node_inv n1 ∧ calm n n1 ∧ log n1 = log n ∧ commitIndex n1 = commitIndex n ∧
  role n1 = Follower ∧ currentTerm n1 = t.
Proof.
  intros Hi Ht. destruct (Z.leb_spec (currentTerm n) t); [|lia].
  destruct (node_follower t n Hi) as (? & ? & ? & ? & [[? _]|(_ & ? & ? & _)]); [lia|done].
Qed.

(** Whether the node's log has the entry the leader's entries follow. *)
Definition has_prev (req : TR.AppendEntriesRequest Cmd) n : Prop :=
  RL.termAt (log n) (TR.aeq_PrevLogIndex req) = Some (TR.aeq_PrevLogTerm req).

Lemma entries_copy (es : list (LogEntry Cmd)) :
  (λ x, mkEntry (le_Term x) (le_CommandValid x) (le_Command x)) <$> es = es.
Proof. apply fmap_id_elem. by intros [] _. Qed.

(** The answer, the log and the commit index. *)
Definition append_post (req : TR.AppendEntriesRequest Cmd) n n' (resp : TR.AppendEntriesResponse) : Prop :=
  (TR.aep_Success resp = true ↔ currentTerm n ≤ TR.aeq_Term req ∧ has_prev req n) ∧
  (TR.aep_Success resp = false → log n' = log n ∧ commitIndex n' = commitIndex n) ∧
  (TR.aep_Success resp = true →
     RL.appendFrom (log n) (TR.aeq_PrevLogIndex req) (TR.aeq_Entries req) = Some (log n') ∧
     commitIndex n' = if commitIndex n <? TR.aeq_LeaderCommit req
                      then Z.min (TR.aeq_LeaderCommit req) (RL.size (log n') - 1)
                      else commitIndex n).

Lemma handle_append e (req : TR.AppendEntriesRequest Cmd) n :
  node_inv n →
  ∃ n' resp, HandleAppendEntries e req n = Some (n', resp) ∧ node_inv n' ∧ calm n n' ∧
    (n' = n ∨ role n' = Follower) ∧ append_post req n n' resp.
Proof.
  intros Hi. unfold HandleAppendEntries.
  destruct (Z.ltb_spec (TR.aeq_Term req) (currentTerm n)) as [Hlt|Hge].
  { eexists n, _. split_and!; [done|done|apply calm_refl|by left|]. split_and!; try done. simpl.
    split; [done|lia]. }
  destruct (becomeFollower_guarded (TR.aeq_Term req) n Hi Hge) as (Hi1 & Hc1 & Hl1 & Hk1 & Hr1 & _).
  set (n1 := if currentTerm n <=? TR.aeq_Term req then _ else n) in *. clearbody n1. cbv zeta.
  set (body := if RL.size (log n1) <=? TR.aeq_PrevLogIndex req then _ else _).
  assert (∃ n2 resp, body = Some (n2, resp) ∧ node_inv n2 ∧ calm n n2 ∧ role n2 = Follower ∧
      append_post req n n2 resp) as (n2 & resp & -> & Hi2 & Hc2 & Hr2 & Hpost).
  { unfold body. clear body.
    assert (∀ resp, TR.aep_Success resp = false → ¬ has_prev req n →
      node_inv n1 ∧ calm n n1 ∧ role n1 = Follower ∧ append_post req n n1 resp) as Hfail.
    { intros resp Hs Hne. unfold append_post. rewrite Hs. split_and!; try done. naive_solver. }
    rewrite Hl1. destruct (Z.leb_spec (RL.size (log n)) (TR.aeq_PrevLogIndex req)) as [Hsz|Hsz].
    { eexists _, _. split; [done|]. apply Hfail; [done|]. intros E. unfold has_prev in E.
      assert (is_Some (RL.termAt (log n) (TR.aeq_PrevLogIndex req))) as H%RL.termAt_is_Some by eauto. lia. }
    destruct (Z.ltb_spec (TR.aeq_PrevLogIndex req) (RL.snapLastIdx (log n))) as [Hsn|Hsn].
    { eexists _, _. split; [done|]. apply Hfail; [done|]. intros E. unfold has_prev in E.
      assert (is_Some (RL.termAt (log n) (TR.aeq_PrevLogIndex req))) as H%RL.termAt_is_Some by eauto. lia. }
    destruct (proj2 (RL.at_is_Some (log n) (TR.aeq_PrevLogIndex req))) as [prev Ep]; [done|].
    rewrite Ep. cbn [mbind option_bind].
    assert (RL.termAt (log n) (TR.aeq_PrevLogIndex req) = Some (le_Term prev)) as Hterm
      by (unfold RL.termAt; by rewrite Ep).
    destruct (Z.eqb_spec (le_Term prev) (TR.aeq_PrevLogTerm req)) as [Heq|Hne]; cbn [negb].
    2: { eexists _, _. split; [done|]. apply Hfail; [done|]. unfold has_prev. rewrite Hterm. congruence. }
    rewrite entries_copy, RL.appendFrom_Some by done. cbn [mbind option_bind].
    set (l := RL.mkLog _ _ _ _). set (n2 := persistLocked (set_log l n1)).
    assert (RL.appendFrom (log n) (TR.aeq_PrevLogIndex req) (TR.aeq_Entries req) = Some l) as El
      by by apply RL.appendFrom_Some.
    assert (RL.wf l) as Hwf by (eapply RL.wf_appendFrom; [apply Hi|done]).
    assert (node_inv n2) as Hi2 by (apply ni_new_log; [done|done|congruence]).
    assert (calm n n2) as Hc2 by (eapply calm_trans; [exact Hc1|apply calm_new_log]).
    assert (log n2 = l) as Hl2 by (unfold n2; by rewrite log_persist).
    assert (commitIndex n2 = commitIndex n) as Hk2 by (unfold n2; by rewrite persist_eq).
    assert (role n2 = Follower) as Hr2 by (unfold n2; by rewrite persist_eq).
    clearbody n2. rewrite Hl2, Hk2, RL.last_spec by done.
    eexists _, _. split; [done|]. unfold append_post, has_prev. cbn [TR.aep_Success]. rewrite Hterm, Heq.
    destruct (Z.ltb_spec (commitIndex n) (TR.aeq_LeaderCommit req)); cbn [negb].
    - set (n3 := signalApply _).
      assert (node_inv n3 ∧ calm n2 n3 ∧ role n3 = Follower ∧ log n3 = l ∧
        commitIndex n3 = Z.min (TR.aeq_LeaderCommit req) (RL.size l - 1)) as (Hi3 & Hc3 & Hr3 & Hl3 & Hk3).
      { unfold n3. destruct (Z.ltb_spec (RL.size l - 1) (TR.aeq_LeaderCommit req)); split_and!;
          auto using ni_signal, ni_commit; try (by apply calm_same); simpl; lia. }
      clearbody n3. rewrite Hl3, Hk3. split; [done|]. split; [by eapply calm_trans|]. split; [done|]. by split_and!.
    - split; [done|]. split; [done|]. split; [done|]. rewrite Hl2. by split_and!. }
  cbn [mbind option_bind]. destruct (reset_inv e n2 Hi2) as (n3 & E3 & Hi3 & Hc3 & Hl3 & Hk3 & Hp3).
  rewrite E3. exists n3, resp. split_and!; [done|done|by eapply calm_trans|right; by injection Hp3; intros ->|].
  unfold append_post. by rewrite Hl3, Hk3.
Qed.

Lemma handle_install e (req : TR.InstallSnapshotRequest SB) n :
  node_inv n →
  ∃ n' resp, HandleInstallSnapshot e req n = Some (n', resp) ∧ node_inv n' ∧ calm n n' ∧
    (n' = n ∨ role n' = Follower) ∧
    (if decide (currentTerm n ≤ TR.isq_Term req ∧ RL.snapLastIdx (log n) < TR.isq_LastIncludedIndex req)
     then RL.installSnapshot (log n) (TR.isq_LastIncludedIndex req) (TR.isq_LastIncludedTerm req)
            (TR.isq_Snapshot req) = Some (log n') ∧ snapPending n' = true ∧
          commitIndex n' = Z.max (commitIndex n) (TR.isq_LastIncludedIndex req)
     else log n' = log n ∧ commitIndex n' = commitIndex n).
Proof.
  intros Hi. unfold HandleInstallSnapshot.
  destruct (Z.ltb_spec (TR.isq_Term req) (currentTerm n)) as [Hlt|Hge].
  { eexists n, _. case_decide; [lia|]. split_and!; try done; [apply calm_refl|by left]. }
  destruct (becomeFollower_guarded (TR.isq_Term req) n Hi Hge) as (Hi1 & Hc1 & Hl1 & Hk1 & Hr1 & _).
  set (n1 := if currentTerm n <=? TR.isq_Term req then _ else n) in *. clearbody n1. cbv zeta.
  rewrite Hl1. destruct (Z.leb_spec (TR.isq_LastIncludedIndex req) (RL.snapLastIdx (log n))) as [Hs|Hs].
  { cbn [mbind option_bind]. destruct (reset_inv e n1 Hi1) as (n3 & E3 & Hi3 & Hc3 & Hl3 & Hk3 & Hp3).
    rewrite E3. case_decide; [lia|]. eexists n3, _. rewrite Hl3, Hk3.
    split_and!; try done; [by eapply calm_trans|]. right. by injection Hp3; intros ->. }
  case_decide; [|lia]. rewrite RL.installSnapshot_Some by done. cbn [mbind option_bind].
  set (l := RL.mkLog _ _ _ _). set (n2 := persistLocked (set_log l n1)).
  assert (RL.wf l) as Hwf.
  { eapply (RL.wf_installSnapshot (log n)); [apply Hi|by apply RL.installSnapshot_Some]. }
  assert (node_inv n2) as Hi2 by (apply ni_new_log; [done|done|congruence]).
  assert (calm n n2) as Hc2 by (eapply calm_trans; [exact Hc1|apply calm_new_log]).
  assert (log n2 = l) as Hl2 by (unfold n2; by rewrite log_persist).
  assert (commitIndex n2 = commitIndex n) as Hk2 by (unfold n2; by rewrite persist_eq).
  assert (role n2 = Follower) as Hr2 by (unfold n2; by rewrite persist_eq).
  clearbody n2. set (n3 := signalApply _).
  assert (node_inv n3 ∧ calm n2 n3 ∧ role n3 = Follower ∧ log n3 = l ∧ snapPending n3 = true ∧
    commitIndex n3 = Z.max (commitIndex n) (TR.isq_LastIncludedIndex req)) as (Hi3 & Hc3 & Hr3 & Hl3 & Hp3 & Hk3).
  { unfold n3. cbn [commitIndex set_snapPending]. rewrite Hk2.
    destruct (Z.ltb_spec (commitIndex n) (TR.isq_LastIncludedIndex req)); split_and!; try done;
      auto using ni_signal, ni_commit, ni_snapPending; try (by apply calm_same); simpl; lia. }
  clearbody n3. destruct (reset_Some e n3 (ni_cfg _ Hi3)) as (v & E4 & _). rewrite E4. cbn [mbind option_bind].
  eexists _, _. split_and!; [done|..]; simpl; try done; [| |by right|by rewrite Hl3].
  - apply (ni_same_log n3); try done. apply Hi3.
  - eapply calm_trans; [exact Hc2|]. eapply calm_trans; [exact Hc3|]. by apply calm_same.
Qed.
End handlers.
