(* ===== verification/NodeSteps.v ===== *)
(** The goroutines of one [Node]: elections, replication, application, restarts.
    As in [NodeFacts], each lemma says that the code does not panic, keeps
    [node_inv] and what it computes. *)

From S2P Require Import Prelude Gob RaftLog Raft Voting Ballot Storage Transport Node NodeFacts.
Import ND.

#[local] Open Scope Z_scope.

(** ** The exchange sort *)

Section sorting.
Implicit Types (l : list Z) (i j : Z).

Lemma exchange_spec i j l :
  0 ≤ i < j → j < len l →
  ∃ l' a b, exchange i j l = Some l' ∧ l' ≡ₚ l ∧
    slice_get l i = Some a ∧ slice_get l j = Some b ∧
    slice_get l' i = Some (Z.min a b) ∧ slice_get l' j = Some (Z.max a b) ∧
    ∀ k, k ≠ i → k ≠ j → slice_get l' k = slice_get l k.
Proof.
  intros Hi Hj. destruct (proj2 (slice_get_is_Some l i)) as [a Ea]; [lia|].
  destruct (proj2 (slice_get_is_Some l j)) as [b Eb]; [lia|].
  unfold exchange. rewrite Ea, Eb. cbn [mbind option_bind]. destruct (Z.ltb_spec b a) as [Hlt|Hge].
  - destruct (proj2 (slice_set_is_Some l i b)) as [l1 E1]; [lia|]. rewrite E1. cbn [mbind option_bind].
    destruct (proj2 (slice_set_is_Some l1 j a)) as [l2 E2]; [rewrite (slice_set_len _ _ _ _ E1); lia|].
    exists l2, a, b. rewrite !(slice_get_set _ _ _ _ _ E2), !(slice_get_set _ _ _ _ _ E1).
    split_and!; try done.
    + apply slice_set_Some in E1 as [_ ->]. apply slice_set_Some in E2 as [_ ->].
      apply slice_get_Some in Ea as [_ Ea]. apply slice_get_Some in Eb as [_ Eb].
      by apply swap_Permutation.
    + rewrite decide_False, decide_True by lia. f_equal. lia.
    + rewrite decide_True by done. f_equal. lia.
    + intros k Hki Hkj. rewrite (slice_get_set _ _ _ _ _ E2), (slice_get_set _ _ _ _ _ E1).
      by rewrite !decide_False by lia.
  - exists l, a, b. rewrite Ea, Eb. split_and!; try done; f_equal; lia.
Qed.

(** Before position [i] the list is sorted and below everything after it. *)
Definition settled i l : Prop :=
  ∀ a b x y, a < i → a < b → slice_get l a = Some x → slice_get l b = Some y → x ≤ y.

Lemma inner_loop i k l :
  0 ≤ i < k → len l = k → settled i l →
  ∃ l', for_range (k - (i + 1)) (λ d l, exchange i (i + 1 + d) l) l = Some l' ∧
    l' ≡ₚ l ∧ settled (i + 1) l'.
Proof.
  intros Hi Hk Hs.
  destruct (for_range_inv (k - (i + 1)) (λ d l, exchange i (i + 1 + d) l)
    (λ d s, s ≡ₚ l ∧ settled i s ∧
       ∀ b x y, i < b < i + 1 + d → slice_get s i = Some x → slice_get s b = Some y → x ≤ y) l)
    as (l' & E & HP & Hs' & Hm); [lia|split_and!; [done|done|lia]| |].
  - intros d s Hd (HP & Hs' & Hm).
    assert (len s = k) as Hl by (unfold len in *; by rewrite HP).
    destruct (exchange_spec i (i + 1 + d) s) as (s1 & a & b & E & P1 & Ga & Gb & Gi & Gj & Go); [lia|lia|].
    exists s1. split; [done|]. split_and!; [by etrans|..].
    + intros p q x y Hp Hpq Hx Hy. rewrite Go in Hx by lia.
      destruct (decide (q = i)) as [->|]; [|destruct (decide (q = i + 1 + d)) as [->|]].
      * rewrite Gi in Hy. pose proof (Hs' p i x a Hp Hp Hx Ga).
        pose proof (Hs' p (i + 1 + d) x b Hp ltac:(lia) Hx Gb). naive_solver lia.
      * rewrite Gj in Hy. pose proof (Hs' p i x a Hp Hp Hx Ga).
        pose proof (Hs' p (i + 1 + d) x b Hp ltac:(lia) Hx Gb). naive_solver lia.
      * rewrite Go in Hy by lia. by eapply (Hs' p q).
    + intros q x y Hq Hx Hy. rewrite Gi in Hx. injection Hx as <-.
      destruct (decide (q = i + 1 + d)) as [->|].
      * rewrite Gj in Hy. injection Hy as <-. lia.
      * rewrite Go in Hy by lia. pose proof (Hm q a y ltac:(lia) Ga Hy). lia.
  - exists l'. split; [done|]. split; [done|]. intros p q x y Hp Hpq Hx Hy.
    assert (len l' = k) as Hl by (unfold len in *; by rewrite HP).
    assert (0 ≤ q < len l') by (apply slice_get_is_Some; eauto).
    destruct (decide (p = i)) as [->|]; [|by eapply (Hs' p q); [lia|..]].
    by eapply (Hm q); [lia|..].
Qed.

Lemma settled_sorted l : settled (len l - 1) l → StronglySorted Z.le l.
Proof.
  intros Hs. apply StronglySorted_lookup_iff. intros i j x y Hij Hx Hy.
  pose proof (lookup_lt_Some _ _ _ Hy).
  apply (Hs (Z.of_nat i) (Z.of_nat j)); [unfold len; lia|lia|..];
    apply slice_get_Some; (split; [lia|by rewrite Nat2Z.id]).
Qed.

(** The two loops sort. *)
Lemma exchange_sort_spec l : exchange_sort l (len l) = Some (sort_Ints l).
Proof.
  destruct (decide (len l = 0)) as [E0|Hne].
  { destruct l; [|done]. done. }
  pose proof (len_nonneg l). unfold exchange_sort.
  destruct (for_range_inv (len l - 1) (λ i l0,
      for_range (len l - (i + 1)) (λ d l1, exchange i (i + 1 + d) l1) l0)
    (λ i s, s ≡ₚ l ∧ settled i s) l) as (l' & E & HP & Hs); [lia|split; [done|]| |].
  - intros a b x y ? ? Hx _. assert (0 ≤ a < len l) by (apply slice_get_is_Some; eauto). lia.
  - intros i s Hi [HP Hs]. destruct (inner_loop i (len l) s) as (s' & E & P' & S'); [lia| |done|].
    { unfold len. by rewrite HP. }
    exists s'. split; [done|]. split; [by etrans|done].
  - rewrite E. f_equal. apply (StronglySorted_unique Z.le).
    + apply settled_sorted. by replace (len l') with (len l) by (unfold len; by rewrite HP).
    + apply sort_Ints_sorted.
    + by rewrite HP, sort_Ints_perm.
Qed.
End sorting.

Section goroutines.
Context {Cmd SB T : Type} {RS : ST.RaftStorage T (list (rgob Cmd)) (list SB)}
  {RSL : ST.RaftStorageLaws T (list (rgob Cmd)) (list SB)}.
Abbreviation Node := (ND.Node Cmd SB T).
Implicit Types (n : Node) (e : Env) (t : Z).

(** ** Elections *)

Lemma node_tick e n :
  node_inv n →
  ∃ n' ot, electionTicker e n = Some (n', ot) ∧ node_inv n' ∧ same_node n n' ∧ log n' = log n ∧
    (ot = None ∧ n' = n ∨
     ot = Some (currentTerm n + 1) ∧ proj n' = BL.mkB (currentTerm n + 1) (me n) Candidate).
Proof.
  intros Hi. unfold electionTicker. destruct (_ && _) eqn:E; [|by eexists n, _; split_and!; auto].
  apply andb_true_iff in E as [Hr%bool_decide_eq_true _].
  destruct (node_candidate e n Hi Hr) as (n' & -> & Hi' & Hs & Hl & Hp). cbn [mbind option_bind].
  eexists n', _. split_and!; try done. right. split; [|done]. f_equal. by injection Hp.
Qed.

Lemma contextLost_spec r t n : contextLostLocked r t n = false ↔ currentTerm n = t ∧ role n = r.
Proof.
  unfold contextLostLocked. rewrite negb_false_iff, andb_true_iff, Z.eqb_eq, bool_decide_eq_true.
  done.
Qed.

Lemma node_elect e t n :
  node_inv n →
  ∃ n' oc, startElection e t n = Some (n', oc) ∧ node_inv n' ∧ calm n n' ∧ log n' = log n ∧
    match oc with
    | None => True
    | Some calls =>
        currentTerm n = t ∧ role n = Candidate ∧ proj n' = proj n ∧ NoDup calls.*1 ∧
        ∀ q req, (q, req) ∈ calls →
          0 ≤ q < peerCount n ∧ q ≠ me n ∧ TR.rvq_Term req = t ∧ TR.rvq_CandidateId req = me n
    end.
Proof.
  intros Hi. unfold startElection. destruct (contextLostLocked Candidate t n) eqn:E.
  { eexists n, _. split_and!; try done. apply calm_refl. }
  apply contextLost_spec in E as [Ht Hr]. destruct (RL.last (log n)) as [li lt].
  destruct (reset_inv e n Hi) as (n' & -> & Hi' & Hc & Hl & _ & Hp). cbn [mbind option_bind].
  pose proof Hc as [(Hm & Hn & Hcf) Hq]. eexists n', _. split_and!; try done. cbv iota beta.
  split_and!; try done.
  - rewrite <-list_fmap_compose, (list_fmap_ext _ id) by done. rewrite list_fmap_id.
    apply list.NoDup_filter, NoDup_seqZ.
  - intros q req. rewrite list_elem_of_fmap. intros (q' & [= -> ->] & Hq').
    apply list_elem_of_filter in Hq' as [? ?%elem_of_seqZ]. simpl. split_and!; lia || congruence.
Qed.

Lemma node_check t resp n :
  node_inv n →
  ∃ n' b, vote_check t resp n = (n', b) ∧ node_inv n' ∧ calm n n' ∧ log n' = log n ∧
    (b = true → n' = n ∧ TR.rvp_VoteGranted resp = true ∧ currentTerm n = t ∧ role n = Candidate).
Proof.
  intros Hi. unfold vote_check. destruct (_ <? _).
  { destruct (node_follower (TR.rvp_Term resp) n Hi) as (? & ? & ? & _).
    eexists _, _. by split_and!. }
  destruct (contextLostLocked Candidate t n) eqn:E.
  { eexists n, _. split_and!; try done. apply calm_refl. }
  apply contextLost_spec in E as [Ht Hr]. eexists n, _. split_and!; try done. apply calm_refl.
Qed.

Lemma indices_ok_full n :
  (∀ i x, i < peerCount n → slice_get (nextIndex n) i = Some x → x ≤ RL.size (log n)) →
  (∀ i x, i < peerCount n → slice_get (matchIndex n) i = Some x → x < RL.size (log n)) →
  len (nextIndex n) = peerCount n → len (matchIndex n) = peerCount n → indices_ok n.
Proof.
  intros H1 H2 Hn Hm. split; intros i x Hx.
  - apply (H1 i); [|done]. assert (0 ≤ i < len (nextIndex n)); [apply slice_get_is_Some; eauto|lia].
  - apply (H2 i); [|done]. assert (0 ≤ i < len (matchIndex n)); [apply slice_get_is_Some; eauto|lia].
Qed.

Lemma node_leader n :
  node_inv n → role n = Candidate →
  ∃ n', becomeLeaderLocked n = Some n' ∧ node_inv n' ∧ reindexed_node (set_role Leader n) n'.
Proof.
  intros Hi Hr. unfold becomeLeaderLocked. rewrite decide_False by (intros []; done).
  set (m := set_role Leader n). pose proof (RL.wf_size _ (ni_wf _ Hi)). pose proof (RL.wf_idx _ (ni_wf _ Hi)).
  match goal with |- context [for_range _ ?b _] => set (body := b) end.
  destruct (for_range_inv (peerCount n) body (λ i s, reindexed_node m s ∧
    (∀ j x, j < i → slice_get (nextIndex s) j = Some x → x ≤ RL.size (log n)) ∧
    (∀ j x, j < i → slice_get (matchIndex s) j = Some x → x < RL.size (log n))) m)
    as (n' & E & Hre & H1 & H2); [apply Hi| |..| exists n'; split; [exact E|]].
  all: subst body.
  - split; [apply renode_refl|]. split; intros j x Hj Hx;
      (assert (0 ≤ j); [|lia]); unfold slice_get in Hx; by case_decide.
  - intros i s Hrange (Hre & H1 & H2). destruct Hre as (ni & mi & -> & Hl1 & Hl2). simpl in Hl1, Hl2.
    cbn [nextIndex matchIndex log set_nextIndex set_matchIndex] in H1, H2 |- *.
    destruct (proj2 (slice_set_is_Some ni i (RL.size (log n)))) as [ni' E1].
    { rewrite Hl1, (ni_next _ Hi). lia. }
    destruct (proj2 (slice_set_is_Some mi i 0)) as [mi' E2].
    { rewrite Hl2, (ni_match _ Hi). lia. }
    cbn [nextIndex matchIndex log set_nextIndex set_matchIndex set_role m].
    rewrite E1. cbn [mbind option_bind]. rewrite E2. cbn [mbind option_bind]. eexists. split; [done|].
    split; [exists ni', mi'; split_and!; [done|..]|split].
    + by rewrite (slice_set_len _ _ _ _ E1).
    + by rewrite (slice_set_len _ _ _ _ E2).
    + cbn. intros j x Hj. rewrite (slice_get_set _ _ _ _ _ E1). case_decide; [intros [= <-]; lia|].
      apply H1. lia.
    + cbn. intros j x Hj. rewrite (slice_get_set _ _ _ _ _ E2). case_decide; [intros [= <-]; lia|].
      apply H2. lia.
  - split; [|done]. destruct Hre as (ni & mi & -> & Hl1 & Hl2). simpl in Hl1, Hl2.
    eapply (ni_same_log n); try done. intros _. pose proof (ni_next _ Hi). pose proof (ni_match _ Hi).
    apply indices_ok_full; simpl in *; [done|done|lia|lia].
Qed.

Lemma node_won t n :
  node_inv n →
  ∃ n' b, vote_won t n = Some (n', b) ∧ node_inv n' ∧
    (b = false ∧ n' = n ∨
     b = true ∧ currentTerm n = t ∧ role n = Candidate ∧ reindexed_node (set_role Leader n) n').
Proof.
  intros Hi. unfold vote_won. destruct (_ && _) eqn:E; [|by eexists n, _; split_and!; auto].
  apply andb_true_iff in E as [Hr%bool_decide_eq_true Ht%Z.eqb_eq].
  destruct (node_leader n Hi Hr) as (n' & -> & Hi' & Hre). cbn [mbind option_bind].
  eexists n', _. split_and!; try done. by right.
Qed.

(** ** Replication *)

Lemma tail_rest (l : RL.RaftLog Cmd SB) prev :
  RL.snapLastIdx l ≤ prev < RL.size l →
  ∃ es, RL.tail l (prev + 1) = Some es ∧ prev + len es = RL.size l - 1 ∧
    RL.appendFrom l prev es = Some l.
Proof.
  intros H. unfold RL.tail. pose proof (RL.appendFrom_Some l prev) as Ha.
  exists (drop (Z.to_nat (prev - RL.snapLastIdx l + 1)) (RL.tailLog l)). split; [|split].
  - destruct (Z.leb_spec (RL.size l) (prev + 1)) as [Hs|Hs].
    + rewrite drop_ge; [done|]. unfold RL.size, len in *. lia.
    + destruct (Z.ltb_spec (prev + 1) (RL.snapLastIdx l)); [lia|].
      rewrite RL.idx_Some by lia. simpl. do 3 f_equal. lia.
  - unfold RL.size, len in *. rewrite length_drop. lia.
  - rewrite Ha by done. rewrite take_drop. by destruct l.
Qed.

(** What a leader of term [t] asks of [q]: the entries that follow what it
    believes [q] to have, or its snapshot when those entries are gone. *)
Definition call_for n t (c : @Call Cmd SB) : Prop :=
  match c with
  | CallAppend q req =>
      0 ≤ q < peerCount n ∧ q ≠ me n ∧
      slice_get (nextIndex n) q = Some (TR.aeq_PrevLogIndex req + 1) ∧
      TR.aeq_Term req = t ∧ TR.aeq_LeaderId req = me n ∧
      TR.aeq_LeaderCommit req = commitIndex n ∧
      RL.termAt (log n) (TR.aeq_PrevLogIndex req) = Some (TR.aeq_PrevLogTerm req) ∧
      RL.appendFrom (log n) (TR.aeq_PrevLogIndex req) (TR.aeq_Entries req) = Some (log n) ∧
      TR.aeq_PrevLogIndex req + len (TR.aeq_Entries req) = RL.size (log n) - 1
  | CallInstall q req =>
      0 ≤ q < peerCount n ∧ q ≠ me n ∧
      (∃ x, slice_get (nextIndex n) q = Some x ∧ x ≤ RL.snapLastIdx (log n)) ∧
      req = TR.mkISReq t (me n) (RL.snapLastIdx (log n)) (RL.snapLastTerm (log n)) (RL.snapshot (log n))
  end.

Definition callee (c : @Call Cmd SB) : Z :=
  match c with CallAppend q _ => q | CallInstall q _ => q end.

(** What the loop of [startReplication] has done before peer [i]. *)
Record repl_loop n t i n' (calls : list (@Call Cmd SB)) : Prop := {
  rp_re : reindexed_node n n';
  rp_ok : indices_ok n → indices_ok n';
  rp_next : ∀ q, q ≠ me n → slice_get (nextIndex n') q = slice_get (nextIndex n) q;
  rp_calls : ∀ c, c ∈ calls → call_for n t c;
  rp_peers : callee <$> calls = filter (λ q, q ≠ me n) (seqZ 0 i)
}.

Lemma repl_body n t i n' calls :
  node_inv n → indices_ok n → 0 ≤ i < peerCount n → repl_loop n t i n' calls →
  ∃ s', (if i =? me n' then
        mi ← slice_set (matchIndex n') i (RL.size (log n') - 1);
        let n' := set_matchIndex mi n' in
        ni ← slice_set (nextIndex n') i (RL.size (log n'));
        Some (set_nextIndex ni n', calls)
      else
        next ← slice_get (nextIndex n') i;
        let prevIdx := next - 1 in
        if prevIdx <? RL.snapLastIdx (log n') then
          let req := TR.mkISReq t (me n') (RL.snapLastIdx (log n')) (RL.snapLastTerm (log n'))
                       (RL.snapshot (log n')) in
          Some (n', calls ++ [CallInstall i req])
        else
          prev ← RL.at_ (log n') prevIdx;
          entries ← RL.tail (log n') (prevIdx + 1);
          let req := TR.mkAEReq t (me n') prevIdx (le_Term prev) entries (commitIndex n') in
          Some (n', calls ++ [CallAppend i req])) = Some s' ∧ repl_loop n t (i + 1) s'.1 s'.2.
Proof.
  intros Hi Hok Hr [Hre Hok' Hnx Hcs Hps].
  destruct (renode_calm _ _ Hre) as (((Em & _) & _) & El & Ek). rewrite Em, El, Ek.
  pose proof (ni_next _ Hi) as Hln. pose proof (ni_match _ Hi) as Hlm.
  assert (len (nextIndex n') = peerCount n ∧ len (matchIndex n') = peerCount n) as [Hln' Hlm'].
  { destruct Hre as (ni & mi & -> & ? & ?). simpl. lia. }
  destruct (Z.eqb_spec i (me n)) as [->|Hne].
  - destruct (set_match_spec n' (me n) (RL.size (log n) - 1)) as (mi & -> & Hre1 & Hok1); [lia|].
    cbn [mbind option_bind].
    destruct (set_next_spec (set_matchIndex mi n') (me n) (RL.size (log n))) as (ni & E & Hre2 & Hok2); [simpl; lia|].
    change (log (set_matchIndex mi n')) with (log n'). rewrite El, E. cbn [mbind option_bind]. eexists. split; [done|].
    split; simpl.
    + eapply renode_trans; [exact Hre|]. by eapply renode_trans.
    + intros _. apply Hok2; [simpl; rewrite El; lia|]. apply Hok1; [rewrite El; lia|auto].
    + intros q Hq. rewrite (slice_get_set _ _ _ _ _ E), decide_False by done. by apply Hnx.
    + done.
    + rewrite filter_seqZ_snoc, decide_True, app_nil_r by lia. done.
  - destruct (proj2 (slice_get_is_Some (nextIndex n) i)) as [x Ex]; [lia|].
    rewrite (Hnx i Hne), Ex. cbn [mbind option_bind].
    assert (∀ c, callee c = i → call_for n t c → repl_loop n t (i + 1) n' (calls ++ [c])) as Hadd.
    { intros c Hc Hcf. split; try done.
      - intros c' [?| ->%list_elem_of_singleton]%elem_of_app; auto.
      - rewrite fmap_app, Hps, filter_seqZ_snoc, decide_False by lia. simpl. by rewrite Hc. }
    destruct (Z.ltb_spec (x - 1) (RL.snapLastIdx (log n))) as [Hs|Hs].
    + eexists. split; [done|]. apply Hadd; [done|]. simpl. split_and!; try lia; [|done].
      exists x. split; [done|lia].
    + pose proof (proj1 Hok i x Ex).
      destruct (proj2 (RL.at_is_Some (log n) (x - 1))) as [prev Ep]; [lia|]. rewrite Ep.
      cbn [mbind option_bind].
      destruct (tail_rest (log n) (x - 1)) as (es & -> & Hlen & Happ); [lia|]. cbn [mbind option_bind].
      eexists. split; [done|]. apply Hadd; [done|]. simpl. split_and!; try lia; try done.
      * rewrite Ex. f_equal. lia.
      * unfold RL.termAt. by rewrite Ep.
Qed.

Lemma node_replicate t n :
  node_inv n →
  ∃ n' calls, startReplication t n = Some (n', calls) ∧ node_inv n' ∧ reindexed_node n n' ∧
    (calls ≠ [] → currentTerm n = t ∧ role n = Leader) ∧
    (∀ c, c ∈ calls → call_for n t c) ∧
    (currentTerm n = t → role n = Leader →
       callee <$> calls = filter (λ q, q ≠ me n) (seqZ 0 (peerCount n))).
Proof.
  intros Hi. unfold startReplication. destruct (contextLostLocked Leader t n) eqn:E.
  { eexists n, []. split_and!; try done; [apply renode_refl|set_solver|]. intros Ht Hr.
    assert (contextLostLocked Leader t n = false) by by apply contextLost_spec. congruence. }
  apply contextLost_spec in E as [Ht Hr]. pose proof (ni_leader _ Hi Hr) as Hok.
  match goal with |- context [for_range _ ?b _] => set (body := b) end.
  destruct (for_range_inv (peerCount n) body (λ i s, repl_loop n t i s.1 s.2) (n, []))
    as ([n' calls] & E & [Hre Hok' _ Hcs Hps]); [apply Hi| |..|exists n', calls; split; [exact E|]].
  - split; simpl; try done; [apply renode_refl|set_solver].
  - intros i [s c] Hrange Hl. unfold body. by apply repl_body.
  - split_and!; try done. eapply renode_inv; [done|done|]. by apply Hok'.
Qed.

(** ** The commit rule *)

Lemma node_commit n :
  node_inv n → indices_ok n → 1 ≤ peerCount n →
  ∃ m, majority_index (peerCount n) (matchIndex n) m ∧
    updateCommitIndexLocked n =
      Some (if decide (commitIndex n < m ∧ RL.termAt (log n) m = Some (currentTerm n))
            then signalApply (set_commitIndex m n) else n).
Proof.
  intros Hi [_ Hm] Hn. pose proof (ni_match _ Hi) as Hl. unfold updateCommitIndexLocked.
  rewrite make_copy_full by (unfold len in Hl; lia). rewrite <-Hl, exchange_sort_spec, Hl.
  cbn [mbind option_bind]. destruct (median_majority (peerCount n) (matchIndex n)) as (m & -> & Hmaj); [done..|].
  exists m. split; [done|]. cbn [mbind option_bind].
  assert (m < RL.size (log n)) as Hlt.
  { destruct Hmaj as [H1 _]. destruct (decide (m < RL.size (log n))) as [|Hge]; [done|].
    rewrite (count_none _ (matchIndex n)) in H1.
    - pose proof (Z.quot_pos (peerCount n) 2). lia.
    - intros i x Hx. assert (slice_get (matchIndex n) (Z.of_nat i) = Some x) as E.
      { apply slice_get_Some. split; [lia|by rewrite Nat2Z.id]. }
      pose proof (Hm _ _ E). lia. }
  destruct (Z.ltb_spec (commitIndex n) m); [|by rewrite decide_False by lia].
  destruct (Z.leb_spec (RL.snapLastIdx (log n)) m) as [Hs|Hs].
  - destruct (proj2 (RL.at_is_Some (log n) m)) as [en Een]; [lia|]. rewrite Een. cbn [mbind option_bind].
    unfold RL.termAt. rewrite Een. simpl. destruct (Z.eqb_spec (le_Term en) (currentTerm n)) as [E|E].
    + rewrite decide_True; [done|]. by rewrite E.
    + rewrite decide_False; [done|]. intros [_ [= ?]]. done.
  - rewrite decide_False; [done|]. intros [_ Ht].
    assert (is_Some (RL.termAt (log n) m)) as H'%RL.termAt_is_Some by eauto. lia.
Qed.

(** ** Replies to the leader *)

(** Where the conflict report of a refused append points, and the next index
    that follows from it. *)
Definition probe n (resp : TR.AppendEntriesResponse) : Z :=
  if TR.aep_ConflictTerm resp =? InvalidTerm then TR.aep_ConflictIdx resp
  else
    let firstIdx := RL.firstFor (log n) (TR.aep_ConflictTerm resp) in
    if negb (firstIdx =? InvalidIndex) then firstIdx else TR.aep_ConflictIdx resp.

Definition backed_off n (req : TR.AppendEntriesRequest Cmd) (resp : TR.AppendEntriesResponse) : Z :=
  Z.max (RL.snapLastIdx (log n) + 1) (Z.min (probe n resp) (TR.aeq_PrevLogIndex req + 1)).

Lemma clamp_next n peer v hi lo :
  0 ≤ peer < len (nextIndex n) →
  ∃ ni, (ni ← slice_set (nextIndex n) peer v;
         let n := set_nextIndex ni n in
         next ← slice_get (nextIndex n) peer;
         ni ← (if hi <? next then slice_set (nextIndex n) peer hi else Some (nextIndex n));
         let n := set_nextIndex ni n in
         next ← slice_get (nextIndex n) peer;
         ni ← (if next <? lo then slice_set (nextIndex n) peer lo else Some (nextIndex n));
         Some (set_nextIndex ni n)) = Some (set_nextIndex ni n) ∧
    len ni = len (nextIndex n) ∧ slice_get ni peer = Some (Z.max lo (Z.min v hi)) ∧
    ∀ j, j ≠ peer → slice_get ni j = slice_get (nextIndex n) j.
Proof.
  intros Hp. destruct (proj2 (slice_set_is_Some (nextIndex n) peer v) Hp) as [l1 E1].
  rewrite E1. cbn [mbind option_bind nextIndex set_nextIndex].
  assert (slice_get l1 peer = Some v) as G1 by (by rewrite (slice_get_set _ _ _ _ _ E1), decide_True).
  pose proof (slice_set_len _ _ _ _ E1) as L1. rewrite G1. cbn [mbind option_bind].
  assert (∃ l2, (if hi <? v then slice_set l1 peer hi else Some l1) = Some l2 ∧ len l2 = len l1 ∧
    slice_get l2 peer = Some (Z.min v hi) ∧ ∀ j, j ≠ peer → slice_get l2 j = slice_get l1 j)
    as (l2 & -> & L2 & G2 & O2).
  { destruct (Z.ltb_spec hi v).
    - destruct (proj2 (slice_set_is_Some l1 peer hi)) as [l2 E2]; [lia|]. exists l2.
      rewrite (slice_get_set _ _ _ _ _ E2), decide_True by done.
      split_and!; [done|by eapply slice_set_len|f_equal; lia|]. intros j Hj.
      by rewrite (slice_get_set _ _ _ _ _ E2), decide_False.
    - exists l1. split_and!; try done. rewrite G1. f_equal. lia. }
  cbn [mbind option_bind nextIndex set_nextIndex]. rewrite G2. cbn [mbind option_bind].
  assert (∃ l3, (if Z.min v hi <? lo then slice_set l2 peer lo else Some l2) = Some l3 ∧ len l3 = len l2 ∧
    slice_get l3 peer = Some (Z.max lo (Z.min v hi)) ∧ ∀ j, j ≠ peer → slice_get l3 j = slice_get l2 j)
    as (l3 & -> & L3 & G3 & O3).
  { destruct (Z.ltb_spec (Z.min v hi) lo).
    - destruct (proj2 (slice_set_is_Some l2 peer lo)) as [l3 E3]; [lia|]. exists l3.
      rewrite (slice_get_set _ _ _ _ _ E3), decide_True by done.
      split_and!; [done|by eapply slice_set_len|f_equal; lia|]. intros j Hj.
      by rewrite (slice_get_set _ _ _ _ _ E3), decide_False.
    - exists l2. split_and!; try done. rewrite G2. f_equal. lia. }
  exists l3. split_and!; [done|lia|done|]. intros j Hj. rewrite O3, O2 by done.
  by rewrite (slice_get_set _ _ _ _ _ E1), decide_False.
Qed.

(** What the answer to an append does to a leader. *)
Definition append_reply_post peer t (req : TR.AppendEntriesRequest Cmd)
    (resp : TR.AppendEntriesResponse) n n' : Prop :=
  currentTerm n = t → role n = Leader → TR.aep_Term resp ≤ t →
  log n' = log n ∧ role n' = Leader ∧
  if TR.aep_Success resp then
    slice_get (matchIndex n') peer = Some (TR.aeq_PrevLogIndex req + len (TR.aeq_Entries req)) ∧
    slice_get (nextIndex n') peer = Some (TR.aeq_PrevLogIndex req + len (TR.aeq_Entries req) + 1) ∧
    (∀ j, j ≠ peer → slice_get (matchIndex n') j = slice_get (matchIndex n) j) ∧
    (commitIndex n' = commitIndex n ∨
     commitIndex n < commitIndex n' ∧
     majority_index (peerCount n) (matchIndex n') (commitIndex n') ∧
     RL.termAt (log n) (commitIndex n') = Some t)
  else matchIndex n' = matchIndex n ∧ commitIndex n' = commitIndex n ∧
    slice_get (nextIndex n') peer = Some (backed_off n req resp).

Lemma node_append_reply peer t req resp n :
  node_inv n → 0 ≤ peer < peerCount n →
  (currentTerm n = t → role n = Leader →
     TR.aeq_PrevLogIndex req + len (TR.aeq_Entries req) < RL.size (log n)) →
  ∃ n', sendAppendEntries peer t req resp n = Some n' ∧ node_inv n' ∧ calm n n' ∧ log n' = log n ∧
    append_reply_post peer t req resp n n'.
Proof.
  intros Hi Hp Hreq. unfold sendAppendEntries, append_reply_post.
  destruct (Z.ltb_spec (currentTerm n) (TR.aep_Term resp)).
  { destruct (node_follower (TR.aep_Term resp) n Hi) as (? & ? & ? & _).
    eexists. split_and!; try done. lia. }
  destruct (contextLostLocked Leader t n) eqn:E.
  { eexists. split_and!; try done; [apply calm_refl|]. intros Ht Hr.
    assert (contextLostLocked Leader t n = false) by by apply contextLost_spec. congruence. }
  apply contextLost_spec in E as [Ht Hr]. specialize (Hreq Ht Hr).
  pose proof (ni_leader _ Hi Hr) as Hok. pose proof (ni_next _ Hi) as Hln.
  pose proof (ni_match _ Hi) as Hlm. pose proof (RL.wf_size _ (ni_wf _ Hi)).
  pose proof (len_nonneg (TR.aeq_Entries req)). destruct (TR.aep_Success resp); cbn [negb].
  - destruct (set_match_spec n peer (TR.aeq_PrevLogIndex req + len (TR.aeq_Entries req)))
      as (mi & Em & Hre1 & Hok1); [lia|]. rewrite Em. cbn [mbind option_bind].
    set (n1 := set_matchIndex mi n) in *.
    assert (slice_get (matchIndex n1) peer =
      Some (TR.aeq_PrevLogIndex req + len (TR.aeq_Entries req))) as Gm.
    { simpl. by rewrite (slice_get_set _ _ _ _ _ Em), decide_True. }
    rewrite Gm. cbn [mbind option_bind].
    destruct (set_next_spec n1 peer (TR.aeq_PrevLogIndex req + len (TR.aeq_Entries req) + 1))
      as (ni & En & Hre2 & Hok2); [simpl; lia|]. rewrite En. cbn [mbind option_bind].
    set (n2 := set_nextIndex ni n1) in *.
    assert (indices_ok n2) as Hx by (apply Hok2; [simpl; lia|by apply Hok1]).
    assert (node_inv n2) as Hi2 by (eapply renode_inv; [exact Hi|by eapply renode_trans|done]).
    destruct (node_commit n2 Hi2 Hx) as (m & Hmaj & ->); [simpl; lia|].
    assert (slice_get (nextIndex n2) peer =
      Some (TR.aeq_PrevLogIndex req + len (TR.aeq_Entries req) + 1)) as Gn.
    { simpl. by rewrite (slice_get_set _ _ _ _ _ En), decide_True. }
    assert (∀ j, j ≠ peer → slice_get (matchIndex n2) j = slice_get (matchIndex n) j) as Go.
    { intros j Hj. simpl. by rewrite (slice_get_set _ _ _ _ _ Em), decide_False. }
    eexists. split; [done|]. case_decide as Hc.
    + split_and!; [by apply ni_signal, ni_commit|by apply calm_same|done|]. intros _ _ _.
      split_and!; try done. right. destruct Hc as [? Hc]. split_and!; [done|done|]. simpl. by rewrite <-Ht.
    + split_and!; [done|by apply calm_same|done|]. intros _ _ _. split_and!; try done. by left.
  - destruct (clamp_next n peer (probe n resp) (TR.aeq_PrevLogIndex req + 1)
      (RL.snapLastIdx (log n) + 1)) as (ni & E & Hl & Hg' & Ho); [by rewrite Hln|].
    exists (set_nextIndex ni n). split; [exact E|]. fold (backed_off n req resp) in Hg'.
    split_and!; [|by apply calm_same|done|].
    + apply (ni_same_log n); try done. intros _. destruct Hok as [Hnx Hmx]. split; simpl; [|done].
      intros j x Hx. destruct (decide (j = peer)) as [->|Hne].
      * rewrite Hg' in Hx. injection Hx as <-. unfold backed_off. lia.
      * rewrite Ho in Hx by done. by eapply Hnx.
    + intros _ _ _. by split_and!.
Qed.

Lemma node_install_reply peer t resp n :
  node_inv n → 0 ≤ peer < peerCount n →
  ∃ n', sendInstallSnapshot peer t resp n = Some n' ∧ node_inv n' ∧ calm n n' ∧ log n' = log n.
Proof.
  intros Hi Hp. unfold sendInstallSnapshot. destruct (_ <? _).
  { destruct (node_follower (TR.isp_Term resp) n Hi) as (? & ? & ? & _). eexists. by split_and!. }
  destruct (contextLostLocked Leader t n) eqn:E.
  { eexists. split_and!; try done. apply calm_refl. }
  apply contextLost_spec in E as [Ht Hr]. pose proof (ni_leader _ Hi Hr) as Hok.
  pose proof (ni_next _ Hi) as Hln. pose proof (ni_match _ Hi) as Hlm.
  pose proof (RL.wf_size _ (ni_wf _ Hi)).
  destruct (set_match_spec n peer (RL.snapLastIdx (log n))) as (mi & -> & Hre1 & Hok1); [lia|].
  cbn [mbind option_bind]. set (n1 := set_matchIndex mi n) in *.
  destruct (set_next_spec n1 peer (RL.snapLastIdx (log n1) + 1)) as (ni & E & Hre2 & Hok2); [simpl; lia|].
  rewrite E. cbn [mbind option_bind]. set (n2 := set_nextIndex ni n1) in *.
  eexists. split_and!; [done|..|done].
  - eapply renode_inv; [exact Hi|by eapply renode_trans|]. apply Hok2; [simpl; lia|]. by apply Hok1.
  - by apply calm_same.
Qed.

(** ** Client calls *)

Lemma node_start cmd n :
  node_inv n →
  node_inv (Start cmd n).1 ∧ calm n (Start cmd n).1 ∧
  if decide (role n = Leader)
  then log (Start cmd n).1 = RL.append (log n) (mkEntry (currentTerm n) true cmd) ∧
       (Start cmd n).2 = (RL.size (log n), currentTerm n, true)
  else (Start cmd n).1 = n ∧ (Start cmd n).2 = (0, 0, false).
Proof.
  intros Hi. unfold Start. case_decide as Hr.
  { split_and!; [done|apply calm_refl|]. by case_decide. }
  case_decide as Hl; [|by destruct (role n)]. simpl.
  split_and!; [|apply calm_new_log|by rewrite log_persist|].
  - apply ni_new_log; [done|by apply RL.wf_append, Hi|]. intros _.
    destruct (ni_leader _ Hi Hl) as [H1 H2]. split; simpl; rewrite RL.size_append.
    + intros i x Hx. pose proof (H1 i x Hx). lia.
    + intros i x Hx. pose proof (H2 i x Hx). lia.
  - rewrite log_persist. simpl. rewrite RL.size_append, persist_eq. simpl. do 2 f_equal. lia.
Qed.

Lemma size_doSnapshot (l : RL.RaftLog Cmd SB) index snap l' :
  RL.wf l → RL.doSnapshot l index snap = Some l' → RL.size l' = RL.size l.
Proof.
  intros Hw E. destruct (decide (RL.snapLastIdx l < index < RL.size l)) as [H|H].
  - destruct (RL.doSnapshot_Some l index snap H) as (en & _ & E'). rewrite E' in E. simplify_eq.
    unfold RL.size, len in *. simpl. rewrite length_drop. lia.
  - rewrite RL.doSnapshot_id in E by lia. by simplify_eq.
Qed.

Lemma node_snapshot index snap n :
  node_inv n →
  ∃ n', Snapshot index snap n = Some n' ∧ node_inv n' ∧ calm n n' ∧ RL.size (log n') = RL.size (log n).
Proof.
  intros Hi. unfold Snapshot. destruct (_ <? _).
  { eexists. split_and!; try done. apply calm_refl. }
  destruct (_ <=? _).
  { eexists. split_and!; try done. apply calm_refl. }
  assert (∃ l, RL.doSnapshot (log n) index snap = Some l) as [l El].
  { destruct (decide (RL.snapLastIdx (log n) < index < RL.size (log n))) as [H|H].
    - destruct (RL.doSnapshot_Some (log n) index snap H) as (en & _ & E). eauto.
    - rewrite RL.doSnapshot_id by lia. eauto. }
  rewrite El. cbn [mbind option_bind].
  pose proof (size_doSnapshot _ _ _ _ (ni_wf _ Hi) El) as Hs. eexists. split_and!; [done|..].
  - apply ni_new_log; [done|eapply RL.wf_doSnapshot; [apply Hi|done]|]. intros Hl.
    destruct (ni_leader _ Hi Hl) as [H1 H2]. split; simpl; by rewrite Hs.
  - apply calm_new_log.
  - by rewrite log_persist.
Qed.

(** ** Application *)

(** The message for the entry at [i]. *)
Definition command_msg n i (en : LogEntry Cmd) : ApplyMsg Cmd SB :=
  mkApplyMsg true (le_Command en) i false [] 0 0.

Lemma app_loop_spec (k : nat) n msgs :
  commitIndex n = lastApplied n + Z.of_nat k →
  RL.snapLastIdx (log n) ≤ lastApplied n + 1 → commitIndex n < RL.size (log n) →
  ∃ es, app_loop k n msgs =
      Some (set_lastApplied (commitIndex n) n,
            msgs ++ imap (λ i, command_msg n (lastApplied n + 1 + Z.of_nat i)) es) ∧
    length es = k ∧
    ∀ i en, es !! i = Some en → RL.at_ (log n) (lastApplied n + 1 + Z.of_nat i) = Some en.
Proof.
  revert n msgs. induction k as [|k IH]; intros n msgs Hc Hs Hz; simpl.
  { exists []. simpl. rewrite app_nil_r. split_and!; [|done|done]. do 2 f_equal. destruct n. simpl in *.
    unfold set_lastApplied. simpl. f_equal. lia. }
  destruct (Z.ltb_spec (lastApplied n) (commitIndex n)); [|lia].
  destruct (proj2 (RL.at_is_Some (log n) (lastApplied n + 1))) as [en Een]; [lia|].
  cbn [log lastApplied set_lastApplied]. rewrite Een. cbn [mbind option_bind].
  destruct (IH (set_lastApplied (lastApplied n + 1) n)
    (msgs ++ [command_msg n (lastApplied n + 1) en])) as (es & E & Hl & Hes); [simpl; lia..|].
  exists (en :: es). split_and!; [|simpl; lia|].
  - unfold command_msg in E |- *. rewrite E. cbn [commitIndex set_lastApplied]. do 2 f_equal.
    rewrite <-app_assoc. simpl. rewrite Z.add_0_r. do 2 f_equal. apply imap_ext. intros i x _. simpl.
    f_equal. lia.
  - intros [|i] en' Hi; simpl in Hi; simplify_eq.
    + by rewrite Z.add_0_r.
    + rewrite <-(Hes i en' Hi). cbn [log lastApplied set_lastApplied]. f_equal. lia.
Qed.

Lemma app_loop_frame (k : nat) n msgs n' msgs' :
  app_loop k n msgs = Some (n', msgs') → ∃ v, n' = set_lastApplied v n.
Proof.
  revert n msgs. induction k as [|k IH]; intros n msgs; simpl.
  { intros [= <- <-]. exists (lastApplied n). by destruct n. }
  destruct (_ <? _).
  - rewrite bind_Some. intros (en & _ & [v ->]%IH). by exists v.
  - intros [= <- <-]. exists (lastApplied n). by destruct n.
Qed.

Lemma node_round n n' msgs :
  node_inv n → app_round n = Some (n', msgs) → node_inv n' ∧ calm n n' ∧ log n' = log n.
Proof.
  intros Hi. unfold app_round. cbn [snapPending set_applyCond].
  destruct (snapPending n); intros [v ->]%app_loop_frame.
  - split_and!; [by apply ni_applied, ni_applied, ni_snapPending, ni_cond|by apply calm_same|done].
  - split_and!; [by apply ni_applied, ni_cond|by apply calm_same|done].
Qed.

(** ** Restarts *)

Lemma deserialize_frame d n : ∃ l, deserializeLog d n = set_log l n.
Proof.
  unfold deserializeLog. repeat case_match; eauto; exists (log n); by destruct n.
Qed.

Lemma node_restart e n :
  node_inv n →
  ∃ n', NewNode e (Some (config n)) (peerCount n) (me n) (storage n) = Some n' ∧ node_inv n' ∧
    calm n n' ∧ role n' = Follower ∧ currentTerm n' = currentTerm n ∧ votedFor n' = votedFor n ∧
    log n' = RL.NewLog (RL.snapLastIdx (log n)) (RL.snapLastTerm (log n)) (RL.snapshot (log n)) [] ∧
    commitIndex n' = RL.snapLastIdx (log n) ∧ lastApplied n' = RL.snapLastIdx (log n).
Proof.
  intros Hi. unfold NewNode. simpl default. rewrite (Validate_ok _ (ni_cfg _ Hi)).
  set (n0 := mkNode _ _ _ _ _ _ _ _ _ _ _ _ _ _ _ _ _).
  pose proof (RL.wf_idx _ (ni_wf _ Hi)) as Hidx. pose proof (ni_durable _ Hi) as [Hw Hd].
  assert (∃ n1, loadFromStorage n0 = n1 ∧ same_node n n1 ∧ storage n1 = storage n ∧
    role n1 = Follower ∧ currentTerm n1 = currentTerm n ∧ votedFor n1 = votedFor n ∧
    log n1 = RL.NewLog (RL.snapLastIdx (log n)) (RL.snapLastTerm (log n)) (RL.snapshot (log n)) [] ∧
    commitIndex n1 = RL.snapLastIdx (log n) ∧ lastApplied n1 = RL.snapLastIdx (log n) ∧
    len (nextIndex n1) = peerCount n ∧ len (matchIndex n1) = peerCount n)
    as (n1 & -> & Hsm & Hst & Hr & Ht & Hv & Hl & Hc & Ha & Hn & Hm).
  { eexists. split; [done|]. pose proof (ni_count _ Hi). unfold loadFromStorage.
    change (storage n0) with (storage n).
    assert (len (nextIndex n0) = peerCount n ∧ len (matchIndex n0) = peerCount n) as [L1 L2].
    { simpl. unfold len. rewrite length_replicate. lia. }
    destruct (ST.LoadRaftState (storage n)) as [st|err], (ST.LoadSnapshot (storage n)) as [sn|err'] eqn:Es;
      try done.
    - destruct Hd as (Et & Ev & ->). set (n2 := if decide (0 < _) then _ else _).
      assert (∃ l, n2 = set_log l (set_votedFor (votedFor n) (set_currentTerm (currentTerm n) n0)))
        as [l ->].
      { unfold n2. rewrite <-Et, <-Ev. case_decide; [apply deserialize_frame|]. exists (log n0). done. }
      cbn -[RL.NewLog]. rewrite Es. cbn -[RL.NewLog].
      destruct (Z.ltb_spec 0 (RL.snapLastIdx (log n))); cbn -[RL.NewLog]; split_and!; try done; lia.
    - destruct Hd as (Et & Ev & El). change (storage n0) with (storage n). rewrite Es, El. split_and!; try done. }
  assert (node_inv n1) as Hi1.
  { destruct Hsm as (Em & Ep & Ec). split; try congruence.
    - rewrite Ec. apply Hi.
    - rewrite Ep. apply Hi.
    - rewrite Hl. by apply RL.wf_NewLog.
    - split; [by rewrite Hst|]. rewrite Hst, Ht, Hv, Hl.
      destruct (ST.LoadRaftState (storage n)) as [st|err], (ST.LoadSnapshot (storage n)) as [sn|err'];
        try done.
      + destruct Hd as (? & ? & ->). split_and!; try done. unfold snap_of. by rewrite Hl.
      + destruct Hd as (? & ? & ->). done. }
  destruct (reset_Some e n1 (ni_cfg _ Hi1)) as (v & -> & _). eexists. split; [done|].
  split_and!; try done.
  - apply (ni_same_log n1); try done. intros E. simpl in E. congruence.
  - split; [done|]. left. simpl. auto.
Qed.
End goroutines.
