(* ===== verification/NodeNet.v ===== *)
(** A cluster of [node.go] nodes.

    As in [RaftNet], the goroutines a node starts and the RPCs it has in flight
    are [task]s, and a step runs one of them, one of the ticker bodies, a client
    call or a failure.  A vote is counted in three critical sections of its
    candidate: [TVoteRep] checks the term, [TCount] adds to [votes] under
    [votesMu], [TWon] takes the lock again.  Requests and replies may be lost and
    reordered; nodes answer through [RPCHandler].  The in-memory transport delivers a
    request as it was sent; the gRPC transport converts the entries of an
    [AppendEntries] request (a command arrives as bytes or not at all, a term as a
    32-bit number), which is [EConvert].  The other fields are numbers that cross gRPC
    unchanged below 2^31 ([grpc_append_faithful]); the model has no larger ones.  A
    crash loses everything but the storage, from which [NewNode] starts again; a
    critical section is atomic with respect to crashes. *)

From S2P Require Import Prelude Gob RaftLog Raft Storage Transport Node.
Import ND.

#[local] Open Scope Z_scope.

Module NN.
Section net.
Context {Cmd SB T : Type} {RS : ST.RaftStorage T (list (rgob Cmd)) (list SB)}.
Abbreviation Node := (ND.Node Cmd SB T).

(** [cap] is the capacity of every node's [applyCh]. *)
Context (cap : Z).

Inductive task :=
  | TElect (p t : Z)
  | TVoteReq (p t q : Z) (req : TR.RequestVoteRequest) (orphan : bool)
  | TVoteRep (p t q : Z) (resp : TR.RequestVoteResponse)
  | TCount (p t q : Z)
  | TWon (p t : Z)
  | TRepl (p t : Z)
  | TReplGo (p t : Z)
  | TAppReq (p t q : Z) (req : TR.AppendEntriesRequest Cmd) (orphan : bool)
  | TAppRep (p t q : Z) (req : TR.AppendEntriesRequest Cmd) (resp : TR.AppendEntriesResponse)
  | TInsReq (p t q : Z) (req : TR.InstallSnapshotRequest SB) (orphan : bool)
  | TInsRep (p t q : Z) (resp : TR.InstallSnapshotResponse)
  | TSend (p : Z) (msgs : list (ApplyMsg Cmd SB)).

(** [chans] are the buffers of the channels, [received] what the services took
    out of them. *)
Record net := mkNet {
  nodes : gmap Z Node;
  votes : gmap (Z * Z) Z;
  tasks : list task;
  chans : gmap Z (list (ApplyMsg Cmd SB));
  received : gmap Z (list (ApplyMsg Cmd SB))
}.
Implicit Types s : net.

Definition set_node (p : Z) (n : Node) s : net :=
  mkNet (<[p := n]> (nodes s)) (votes s) (tasks s) (chans s) (received s).
Definition set_votes (p t v : Z) s : net :=
  mkNet (nodes s) (<[(p, t) := v]> (votes s)) (tasks s) (chans s) (received s).
Definition set_tasks (l : list task) s : net :=
  mkNet (nodes s) (votes s) l (chans s) (received s).
Definition spawn (l : list task) s : net := set_tasks (tasks s ++ l) s.
Definition chan s (p : Z) : list (ApplyMsg Cmd SB) := default [] (chans s !! p).
Definition set_chan (p : Z) (b : list (ApplyMsg Cmd SB)) s : net :=
  mkNet (nodes s) (votes s) (tasks s) (<[p := b]> (chans s)) (received s).

Definition call_task (p t : Z) (c : @Call Cmd SB) : task :=
  match c with
  | CallAppend q req => TAppReq p t q req false
  | CallInstall q req => TInsReq p t q req false
  end.

Definition run_task (e : Env) (tk : task) s : option net :=
  match tk with
  | TElect p t =>
      n ← nodes s !! p;
      '(n, oc) ← startElection e t n;
      let s := set_node p n s in
      Some (match oc with
            | None => s
            | Some calls => spawn ((λ '(q, req), TVoteReq p t q req false) <$> calls) (set_votes p t 1 s)
            end)
  | TVoteReq p t q req orphan =>
      n ← nodes s !! q;
      '(n, resp) ← TR.HandleRequestVote e req n;
      Some (spawn (if orphan : bool then [] else [TVoteRep p t q resp]) (set_node q n s))
  | TVoteRep p t q resp =>
      n ← nodes s !! p;
      let '(n, granted) := vote_check t resp n in
      Some (spawn (if granted : bool then [TCount p t q] else []) (set_node p n s))
  | TCount p t q =>
      n ← nodes s !! p;
      v ← votes s !! (p, t);
      let '(v, won) := vote_count v (peerCount n) in
      Some (spawn (if won : bool then [TWon p t] else []) (set_votes p t v s))
  | TWon p t =>
      n ← nodes s !! p;
      '(n, leads) ← vote_won t n;
      Some (spawn (if leads : bool then [TRepl p t] else []) (set_node p n s))
  | TRepl p t =>
      n ← nodes s !! p;
      Some (if replicationTicker t n then spawn [TReplGo p t] s else s)
  | TReplGo p t =>
      n ← nodes s !! p;
      '(n, calls) ← startReplication t n;
      Some (spawn ((call_task p t <$> calls) ++ [TRepl p t]) (set_node p n s))
  | TAppReq p t q req orphan =>
      n ← nodes s !! q;
      '(n, resp) ← TR.HandleAppendEntries e req n;
      Some (spawn (if orphan : bool then [] else [TAppRep p t q req resp]) (set_node q n s))
  | TAppRep p t q req resp =>
      n ← nodes s !! p;
      n ← sendAppendEntries q t req resp n;
      Some (set_node p n s)
  | TInsReq p t q req orphan =>
      n ← nodes s !! q;
      '(n, resp) ← TR.HandleInstallSnapshot e req n;
      Some (spawn (if orphan : bool then [] else [TInsRep p t q resp]) (set_node q n s))
  | TInsRep p t q resp =>
      n ← nodes s !! p;
      n ← sendInstallSnapshot q t resp n;
      Some (set_node p n s)
  | TSend p [] => Some s
  | TSend p (msg :: msgs) =>
      Some (spawn [TSend p msgs] (set_chan p (app_send cap (chan s p) msg) s))
  end.

Definition lossy (tk : task) : bool :=
  match tk with
  | TVoteReq _ _ _ _ _ | TVoteRep _ _ _ _ | TAppReq _ _ _ _ _ | TAppRep _ _ _ _ _
  | TInsReq _ _ _ _ _ | TInsRep _ _ _ _ => true
  | _ => false
  end.

(** What a crash of [c] does to a task. *)
Definition on_crash (c : Z) (tk : task) : option task :=
  match tk with
  | TVoteReq p t q req o => Some (TVoteReq p t q req (o || (p =? c)))
  | TAppReq p t q req o => Some (TAppReq p t q req (o || (p =? c)))
  | TInsReq p t q req o => Some (TInsReq p t q req (o || (p =? c)))
  | TElect p _ | TVoteRep p _ _ _ | TCount p _ _ | TWon p _ | TRepl p _ | TReplGo p _
  | TAppRep p _ _ _ _ | TInsRep p _ _ _ | TSend p _ => if p =? c then None else Some tk
  end.

(** The transport converts the entries of a request: any of them may arrive as another
    one, their number and the other fields stay. *)
Definition convert_task (es : list (LogEntry Cmd)) (tk : task) : option task :=
  match tk with
  | TAppReq p t q req o =>
      if decide (length es = length (TR.aeq_Entries req)) then
        Some (TAppReq p t q (TR.mkAEReq (TR.aeq_Term req) (TR.aeq_LeaderId req) (TR.aeq_PrevLogIndex req)
                               (TR.aeq_PrevLogTerm req) es (TR.aeq_LeaderCommit req)) o)
      else None
  | _ => None
  end.

(** The application ticker of [p] is sending a round's messages. *)
Definition sending (p : Z) (tk : task) : bool :=
  match tk with TSend p' _ => p' =? p | _ => false end.

Inductive event :=
  | ETick (p : Z) (e : Env)
  | ERun (k : nat) (e : Env)
  | EDrop (k : nat)
  | EConvert (k : nat) (es : list (LogEntry Cmd))
  | EStart (p : Z) (cmd : option Cmd)
  | ESnapshot (p index : Z) (snap : list SB)
  | EWait (p : Z)
  | EApply (p : Z)
  | ERecv (p : Z)
  | EStop (p : Z)
  | ECrash (p : Z) (e : Env).

Definition step (ev : event) s : option net :=
  match ev with
  | ETick p e =>
      n ← nodes s !! p;
      if killed n then None
      else
        '(n, ot) ← electionTicker e n;
        Some (spawn (match ot with Some t => [TElect p t] | None => [] end) (set_node p n s))
  | ERun k e => tk ← tasks s !! k; run_task e tk (set_tasks (delete k (tasks s)) s)
  | EDrop k =>
      tk ← tasks s !! k;
      if lossy tk then Some (set_tasks (delete k (tasks s)) s) else None
  | EConvert k es =>
      tk ← tasks s !! k;
      tk ← convert_task es tk;
      Some (spawn [tk] (set_tasks (delete k (tasks s)) s))
  | EStart p cmd => n ← nodes s !! p; Some (set_node p (Start cmd n).1 s)
  | ESnapshot p index snap =>
      n ← nodes s !! p; n ← Snapshot index snap n; Some (set_node p n s)
  | EWait p =>
      n ← nodes s !! p;
      if killed n || app_ready n || existsb (sending p) (tasks s) then None
      else Some (set_node p (app_wait n) s)
  | EApply p =>
      n ← nodes s !! p;
      if killed n || negb (app_ready n) || bool_decide (applyCond n = CWaiting)
         || existsb (sending p) (tasks s) then None
      else
        '(n, msgs) ← app_round n;
        Some (spawn [TSend p msgs] (set_node p n s))
  | ERecv p =>
      match chan s p with
      | [] => None
      | msg :: b =>
          Some (mkNet (nodes s) (votes s) (tasks s) (<[p := b]> (chans s))
                  (<[p := default [] (received s !! p) ++ [msg]]> (received s)))
      end
  | EStop p => n ← nodes s !! p; Some (set_node p (Stop n) s)
  | ECrash p e =>
      n ← nodes s !! p;
      n' ← NewNode e (Some (config n)) (peerCount n) (me n) (storage n);
      Some (mkNet (<[p := n']> (nodes s)) (filter (λ kv, kv.1.1 ≠ p) (votes s))
              (omap (on_crash p) (tasks s)) (<[p := []]> (chans s)) (received s))
  end.

Definition next s s' : Prop := ∃ ev, step ev s = Some s'.

(** [k] nodes started on empty storages with one configuration. *)
Definition init (e : Env) (c : Config) (empty : T) (k : Z) : net :=
  mkNet (list_to_map (omap (λ p, pair p <$> NewNode e (Some c) k p empty) (seqZ 0 k))) ∅ [] ∅ ∅.

Fixpoint exec (evs : list event) s : option net :=
  match evs with
  | [] => Some s
  | ev :: evs => s ← step ev s; exec evs s
  end.

Lemma node_exec_rtc evs s s' : exec evs s = Some s' → rtc next s s'.
Proof.
  revert s. induction evs as [|ev evs IH]; intros s; simpl; [intros [= ->]; constructor|].
  rewrite bind_Some. intros (s1 & E & H). econstructor; [by exists ev|]. by apply IH.
Qed.
End net.
Arguments net : clear implicits.
Arguments task : clear implicits.
Arguments event : clear implicits.
End NN.

(** ** A storage that keeps the two records as they are *)

Module Cell.
Section cell.
Context {L D : Type}.

Definition cell : Type := option (ST.RaftState L) * option (ST.Snapshot D).
Definition empty : cell := (None, None).

Definition load {A} (o : option A) : A + ST.StorageError :=
  match o with Some a => inl a | None => inr ST.ErrNotFound end.

#[export] Instance cell_storage : ST.RaftStorage cell L D := {
  SaveRaftState st c := ((Some st, c.2), None);
  LoadRaftState c := load c.1;
  SaveSnapshot sn c := ((c.1, Some sn), None);
  LoadSnapshot c := load c.2;
  RaftStateSize _ := 0;
  SnapshotSize _ := 0
}.

#[export] Program Instance cell_laws : ST.RaftStorageLaws cell L D := { works _ := True }.
Solve All Obligations with eauto.
End cell.
End Cell.
