(* ===== verification/NodeElection.v ===== *)
(** The cluster of [node.go] nodes: it implements the voting contract, and no
    critical section panics, with one exception.

    [nsim] is the invariant of the network: it shows a state of [Ballot], every
    node satisfies [node_inv] and every task is one its node can run.
    [run_progress] runs any task from such a state: it returns, and the invariant
    holds again.  The exception is the application ticker. *)

From S2P Require Import Prelude Gob RaftLog Raft Voting Ballot Storage Transport Node NodeFacts NodeSteps NodeNet.
Import ND NN.

#[local] Open Scope Z_scope.

Section election.
Context {Cmd SB T : Type} {RS : ST.RaftStorage T (list (rgob Cmd)) (list SB)}
  {RSL : ST.RaftStorageLaws T (list (rgob Cmd)) (list SB)}.
Abbreviation Node := (ND.Node Cmd SB T).
Abbreviation net := (NN.net Cmd SB T).
Abbreviation task := (NN.task Cmd SB).
Context (cap N : Z).
Implicit Types (n : Node) (s : net) (tk : task) (b : BL.ballot) (p q t : Z) (l : list task).

(** ** How a node evolves *)

(** Terms grow; within a term nobody becomes a candidate again, and while a node
    leads its log does not get shorter. *)
Definition evolves n n' : Prop :=
  same_node n n' ∧ currentTerm n ≤ currentTerm n' ∧
  (currentTerm n' = currentTerm n → role n ≠ Candidate →
     role n' ≠ Candidate ∧
     (role n' = Leader → role n = Leader ∧ RL.size (log n) ≤ RL.size (log n'))).

Lemma evolves_refl n : evolves n n.
Proof. split_and!; [done|lia|]. intros _ ?. split; [done|]. intros ?. split; [done|lia]. Qed.

Lemma calm_evolves n n' :
  calm n n' → (role n' = Leader → RL.size (log n) ≤ RL.size (log n')) → evolves n n'.
Proof.
  intros [Hs Hq] Hg. unfold BL.bquiet, proj in Hq. simpl in Hq. split_and!; [done|destruct Hq; lia|].
  intros Et Hr. destruct Hq as [(_ & _ & [E|E])|[? _]]; [| |lia].
  - rewrite E in *. split; [done|auto].
  - rewrite E. done.
Qed.

(** ** The simulation relation *)

Definition ncall tk : option BL.bcall :=
  match tk with
  | TElect p t => Some (BL.BElect p t)
  | TVoteReq p t q _ _ => Some (BL.BReq p t q)
  | TVoteRep p t q resp => if TR.rvp_VoteGranted resp then Some (BL.BRep p t q) else None
  | TCount p t q => Some (BL.BRep p t q)
  | _ => None
  end.

Definition ncalls l : list BL.bcall := omap ncall l.

(** The request belongs to the leadership of [p] in term [t]. *)
Definition led s p t (req : TR.AppendEntriesRequest Cmd) : Prop :=
  ∀ n, nodes s !! p = Some n →
    t ≤ currentTerm n ∧
    (currentTerm n = t → role n ≠ Candidate ∧
       (role n = Leader → TR.aeq_PrevLogIndex req + len (TR.aeq_Entries req) < RL.size (log n))).

Definition peer p : Prop := 0 ≤ p < N.

Definition ntask_ok s tk : Prop :=
  match tk with
  | TElect p _ | TRepl p _ | TReplGo p _ => peer p
  | TVoteReq p t q req o =>
      peer p ∧ peer q ∧ TR.rvq_Term req = t ∧ TR.rvq_CandidateId req = p ∧
      (o = false → is_Some (votes s !! (p, t)))
  | TVoteRep p t q _ | TCount p t q => peer p ∧ is_Some (votes s !! (p, t))
  | TWon p t => peer p ∧ ∃ v, votes s !! (p, t) = Some v ∧ N < 2 * v
  | TAppReq p t q req o => peer p ∧ peer q ∧ (o = false → led s p t req)
  | TAppRep p t q req _ => peer p ∧ peer q ∧ led s p t req
  | TInsReq p _ q _ _ | TInsRep p _ q _ => peer p ∧ peer q
  | TSend _ _ => True
  end.

Record node_ok p n : Prop := {
  no_me : me n = p;
  no_count : peerCount n = N;
  no_range : peer p;
  no_inv : node_inv n
}.

Record nsim s b : Prop := {
  ns_shows : BL.shows b (proj <$> nodes s) (votes s) (ncalls (tasks s));
  ns_binv : BL.binv N b;
  ns_dom : ∀ p, peer p → is_Some (nodes s !! p);
  ns_node : ∀ p n, nodes s !! p = Some n → node_ok p n;
  ns_task : ∀ tk, tk ∈ tasks s → ntask_ok s tk
}.

Definition votes_grow (v v' : gmap (Z * Z) Z) : Prop :=
  ∀ k x, v !! k = Some x → ∃ x', v' !! k = Some x' ∧ x ≤ x'.

Lemma votes_grow_refl v : votes_grow v v.
Proof. intros k x Hk. exists x. split; [done|lia]. Qed.

Lemma votes_grow_insert v k x :
  (∀ y, v !! k = Some y → y ≤ x) → votes_grow v (<[k := x]> v).
Proof.
  intros Hx k' y Hy. destruct (decide (k = k')) as [->|Hne].
  - exists x. rewrite lookup_insert_eq. auto.
  - exists y. rewrite lookup_insert_ne by done. split; [done|lia].
Qed.

Lemma led_mono s s' p t req :
  (∀ q n', nodes s' !! q = Some n' → ∃ n, nodes s !! q = Some n ∧ evolves n n') →
  led s p t req → led s' p t req.
Proof.
  intros Hn Hl n' Hp. destruct (Hn p n' Hp) as (n & Hp' & _ & Ht & Hev).
  destruct (Hl n Hp') as [Hle Hs]. split; [lia|]. intros Et.
  assert (currentTerm n = t) as Et' by lia. destruct (Hs Et') as [Hr Hsz].
  destruct (Hev ltac:(lia) Hr) as [Hr' Hsz']. split; [done|]. intros HL.
  destruct (Hsz' HL) as [HL' ?]. specialize (Hsz HL'). lia.
Qed.

Lemma ntask_ok_mono s s' tk :
  (∀ q n', nodes s' !! q = Some n' → ∃ n, nodes s !! q = Some n ∧ evolves n n') →
  votes_grow (votes s) (votes s') → ntask_ok s tk → ntask_ok s' tk.
Proof.
  intros Hn Hv. pose proof (led_mono s s') as Hl.
  assert (∀ k, is_Some (votes s !! k) → is_Some (votes s' !! k)) as Hsome.
  { intros k [v Hk]. destruct (Hv k v Hk) as (v' & ? & _). eauto. }
  destruct tk; simpl; try naive_solver.
  intros (? & v & Hk & ?). destruct (Hv _ v Hk) as (v' & ? & ?). split; [done|]. exists v'.
  split; [done|lia].
Qed.

Lemma ncalls_app l1 l2 : ncalls (l1 ++ l2) = ncalls l1 ++ ncalls l2.
Proof. apply omap_app. Qed.

Lemma ncalls_delete l k tk :
  l !! k = Some tk → ncalls l ≡ₚ option_list (ncall tk) ++ ncalls (delete k l).
Proof.
  intros H. unfold ncalls. rewrite (delete_Permutation l k tk H) at 1. simpl.
  by destruct (ncall tk).
Qed.

Lemma ncalls_delete_sub l k tk : l !! k = Some tk → ncalls (delete k l) ⊆+ ncalls l.
Proof. intros E. rewrite (ncalls_delete _ _ _ E). by apply submseteq_inserts_l. Qed.

Lemma ncalls_none l : (∀ tk, tk ∈ l → ncall tk = None) → ncalls l = [].
Proof.
  intros H. apply elem_of_nil_inv. intros c. unfold ncalls. rewrite list_elem_of_omap.
  intros (tk & ? & E). by rewrite H in E.
Qed.

Lemma nproj_lookup s p n : nodes s !! p = Some n → (proj <$> nodes s) !! p = Some (proj n).
Proof. intros H. by rewrite lookup_fmap, H. Qed.

Lemma node_ok_evolves p n n' : node_ok p n → evolves n n' → node_inv n' → node_ok p n'.
Proof. intros [] ((? & ? & ?) & _) ?. split; congruence || done. Qed.

(** The network after node [p] moved from [n] to [n'] and the ballot to [b']. *)
Lemma nsim_update s b b' p n n' vs l ch rc :
  nsim s b → rtc (BL.bstep N) b b' → nodes s !! p = Some n → evolves n n' → node_inv n' →
  votes_grow (votes s) vs →
  BL.shows b' (<[p := proj n']> (proj <$> nodes s)) vs (ncalls l) →
  (∀ tk, tk ∈ l → tk ∈ tasks s ∨ ntask_ok (mkNet (<[p := n']> (nodes s)) vs l ch rc) tk) →
  nsim (mkNet (<[p := n']> (nodes s)) vs l ch rc) b'.
Proof.
  intros R Hb Hp Hev Hi Hv Hs Hl.
  assert (∀ q m', <[p := n']> (nodes s) !! q = Some m' → ∃ m, nodes s !! q = Some m ∧ evolves m m') as Hn.
  { intros q m' [[<- <-]|[_ ?]]%lookup_insert_Some; [by exists n|]. exists m'. auto using evolves_refl. }
  split; simpl.
  - by rewrite fmap_insert.
  - by apply (BL.bsteps_refine N b b' (ns_binv _ _ R)).
  - intros q Hq. destruct (ns_dom _ _ R q Hq) as [m Hm]. apply lookup_insert_is_Some'. eauto.
  - intros q m' [[<- <-]|[_ ?]]%lookup_insert_Some; [|by apply (ns_node _ _ R)].
    eapply node_ok_evolves; [by apply (ns_node _ _ R)|done|done].
  - intros tk [Hin|?]%Hl; [|done]. eapply (ntask_ok_mono s); [done|done|]. by apply (ns_task _ _ R).
Qed.

(** A step of node [p] that takes no part in an election. *)
Lemma nsim_quiet s b p n n' l new ch rc :
  nsim s b → nodes s !! p = Some n → calm n n' → node_inv n' →
  (role n' = Leader → RL.size (log n) ≤ RL.size (log n')) →
  ncalls l ⊆+ ncalls (tasks s) → (∀ tk, tk ∈ l → tk ∈ tasks s) →
  (∀ tk, tk ∈ new → ncall tk = None ∧
     ntask_ok (mkNet (<[p := n']> (nodes s)) (votes s) (l ++ new) ch rc) tk) →
  ∃ b', rtc (BL.bstep N) b b' ∧
    nsim (mkNet (<[p := n']> (nodes s)) (votes s) (l ++ new) ch rc) b'.
Proof.
  intros R Hp Hc Hi Hg Hk Hl Hn.
  destruct (BL.show_quiet N b _ _ _ p (proj n) (proj n') (ncalls l) (ns_shows _ _ R))
    as (b' & [Hb _] & Hs); [by apply nproj_lookup|apply Hc|done|].
  exists b'. split; [done|]. eapply nsim_update; try done.
  - by apply calm_evolves.
  - apply votes_grow_refl.
  - rewrite ncalls_app, (ncalls_none new), app_nil_r; [done|]. intros tk ?. by apply Hn.
  - intros tk [?|?]%elem_of_app; [left; auto|right; by apply Hn].
Qed.

(** The same for a step that touches no node. *)
Lemma nsim_drop s b l new ch rc :
  nsim s b → ncalls l ⊆+ ncalls (tasks s) → (∀ tk, tk ∈ l → tk ∈ tasks s) →
  (∀ tk, tk ∈ new → ncall tk = None ∧ ntask_ok s tk) →
  ∃ b', rtc (BL.bstep N) b b' ∧ nsim (mkNet (nodes s) (votes s) (l ++ new) ch rc) b'.
Proof.
  intros R Hk Hl Hn.
  destruct (BL.show_drop N b _ _ _ (ncalls l) (ns_shows _ _ R) Hk) as (b' & [Hb _] & Hs).
  assert (∀ tk, ntask_ok s tk → ntask_ok (mkNet (nodes s) (votes s) (l ++ new) ch rc) tk) as Hm.
  { intros tk. apply ntask_ok_mono; [|apply votes_grow_refl]. simpl. eauto using evolves_refl. }
  exists b'. split; [done|]. destruct R. split; simpl; try done.
  - rewrite ncalls_app, (ncalls_none new), app_nil_r; [done|]. intros tk ?. by apply Hn.
  - by apply (BL.bsteps_refine N b b').
  - intros tk [?|?]%elem_of_app; apply Hm; [auto|by apply Hn].
Qed.

(** The step returns, and the ballot follows. *)
Definition runs b (o : option net) : Prop :=
  ∃ s' b', o = Some s' ∧ rtc (BL.bstep N) b b' ∧ nsim s' b'.

Lemma runs_intro b s' : (∃ b', rtc (BL.bstep N) b b' ∧ nsim s' b') → runs b (Some s').
Proof. intros (b' & ? & ?). by exists s', b'. Qed.

(** ** Elections *)

Lemma tick_progress s b p e n :
  nsim s b → nodes s !! p = Some n → killed n = false → runs b (step cap (ETick p e) s).
Proof.
  intros R Hp Hk. simpl. rewrite Hp. cbn [mbind option_bind]. rewrite Hk.
  pose proof (ns_node _ _ R p n Hp) as Hok.
  destruct (node_tick e n (no_inv _ _ Hok)) as (n' & ot & -> & Hi & Hs & Hl & Hc).
  cbn [mbind option_bind]. apply runs_intro. unfold spawn, set_tasks, set_node. simpl.
  destruct Hc as [[-> ->]|[-> Hpr]].
  { eapply nsim_quiet; try done; [apply calm_refl|set_solver]. }
  destruct (BL.show_candidate N b _ _ _ p (proj n) (ns_shows _ _ R)) as (b' & [Hb _] & Hsh);
    [by apply nproj_lookup|].
  exists b'. split; [done|]. injection Hpr as Ht Hv Hr. eapply nsim_update; try done.
  - split_and!; [done|lia|lia].
  - apply votes_grow_refl.
  - rewrite ncalls_app. unfold proj at 1. rewrite Ht, Hv, Hr, (no_me _ _ Hok).
    destruct Hsh as (? & ? & Hcs). split_and!; [done..|]. rewrite Hcs. simpl.
    by rewrite Permutation_app_comm.
  - intros tk [?| ->%list_elem_of_singleton]%elem_of_app; [by left|right]. apply (no_range _ _ Hok).
Qed.

Lemma ncalls_requests (p t : Z) (cs : list (Z * TR.RequestVoteRequest)) :
  ncalls ((λ '(q, req), TVoteReq p t q req false) <$> cs) = BL.BReq p t <$> cs.*1.
Proof. induction cs as [|[q a] cs IH]; [done|]. unfold ncalls in *. simpl. by f_equal. Qed.

Lemma elect_progress s b k p t e :
  nsim s b → tasks s !! k = Some (TElect p t) →
  runs b (run_task cap e (TElect p t) (set_tasks (delete k (tasks s)) s)).
Proof.
  intros R Hk. pose proof (ns_task _ _ R _ (list_elem_of_lookup_2 _ _ _ Hk)) as Hrange.
  destruct (ns_dom _ _ R p Hrange) as [n Hp]. pose proof (ns_node _ _ R p n Hp) as Hok.
  simpl. rewrite Hp. cbn [mbind option_bind].
  destruct (node_elect e t n (no_inv _ _ Hok)) as (n' & oc & -> & Hi & Hc & Hl & Hcs).
  cbn [mbind option_bind]. apply runs_intro. unfold spawn, set_tasks, set_node, set_votes. simpl.
  assert (role n' = Leader → RL.size (log n) ≤ RL.size (log n')) as Hg by (rewrite Hl; lia).
  destruct oc as [cs|]; last first.
  { rewrite <-(app_nil_r (delete k (tasks s))).
    eapply nsim_quiet; eauto using ncalls_delete_sub, list_elem_of_delete_inv. set_solver. }
  destruct Hcs as (<- & Hro & Hpr & Hnd & Hcs). destruct (ns_shows _ _ R) as (E1 & E2 & E3).
  pose proof (BL.bi_elect N b (ns_binv _ _ R) p (currentTerm n) 0) as [Hnone _].
  { rewrite E3. apply list_elem_of_fmap. exists (BL.BElect p (currentTerm n)). split; [done|].
    apply list_elem_of_omap. eexists. split; [by eapply list_elem_of_lookup_2|done]. }
  rewrite E2 in Hnone. rewrite (ncalls_delete _ _ _ Hk) in E3. rewrite (no_count _ _ Hok) in Hcs.
  destruct (BL.show_start N b _ _ (ncalls (delete k (tasks s))) p (proj n) cs.*1
    (conj E1 (conj E2 E3))) as (b' & [Hb _] & Hs); [by apply nproj_lookup|done|done|..].
  { intros q ([q' a] & -> & Ha)%list_elem_of_fmap. destruct (Hcs _ _ Ha) as (? & ? & _).
    by rewrite <-(no_me _ _ Hok). }
  exists b'. split; [done|]. eapply nsim_update; try done.
  - by apply calm_evolves.
  - apply votes_grow_insert. intros y Hy. congruence.
  - rewrite ncalls_app, ncalls_requests, Hpr, insert_id by by apply nproj_lookup.
    destruct Hs as (? & ? & Hc'). split_and!; [done..|]. rewrite Hc'. by rewrite Permutation_app_comm.
  - intros tk [?%list_elem_of_delete_inv|Htk]%elem_of_app; [by left|right].
    apply list_elem_of_fmap in Htk as ([q req] & -> & Ha).
    destruct (Hcs _ _ Ha) as (? & ? & ? & E). simpl. rewrite (no_me _ _ Hok) in E.
    split_and!; try done. intros _. rewrite lookup_insert_eq. eauto.
Qed.

Lemma votereq_progress s b k p t q req o e :
  nsim s b → tasks s !! k = Some (TVoteReq p t q req o) →
  runs b (run_task cap e (TVoteReq p t q req o) (set_tasks (delete k (tasks s)) s)).
Proof.
  intros R Hk. destruct (ns_task _ _ R _ (list_elem_of_lookup_2 _ _ _ Hk))
    as (Hpr & Hqr & Ht & Hc & Hvs).
  destruct (ns_dom _ _ R q Hqr) as [n Hq]. pose proof (ns_node _ _ R q n Hq) as Hok.
  simpl. rewrite Hq. cbn [mbind option_bind].
  destruct (handle_vote e req n (no_inv _ _ Hok))
    as (n' & resp & -> & Hi & Hs & Hl & Hg & Hno & Hyes).
  cbn [mbind option_bind]. apply runs_intro. unfold spawn, set_tasks, set_node. simpl.
  assert (∀ s' : net, votes s' = votes s → ∀ tk, tk ∈ (if o then [] else [TVoteRep p t q resp]) →
    ntask_ok s' tk) as Hnew.
  { intros s' Hs' tk. destruct o; [set_solver|]. intros ->%list_elem_of_singleton. simpl. rewrite Hs'.
    split; [done|]. by apply Hvs. }
  destruct (TR.rvp_VoteGranted resp) eqn:Er; last first.
  { eapply nsim_quiet; eauto using ncalls_delete_sub, list_elem_of_delete_inv.
    - rewrite Hl. lia.
    - intros tk Htk. split; [|by apply Hnew]. destruct o; [set_solver|].
      apply list_elem_of_singleton in Htk as ->. simpl. by rewrite Er. }
  destruct (proj1 Hg eq_refl) as [[Hle Hfree] _]. specialize (Hyes eq_refl).
  destruct (ns_shows _ _ R) as (E1 & E2 & E3). rewrite (ncalls_delete _ _ _ Hk) in E3.
  destruct (BL.show_grant N b _ _ (ncalls (delete k (tasks s))) p t q (proj n) (proj n')
    (conj E1 (conj E2 E3))) as (b1 & [Hb1 _] & Hs1); [by apply nproj_lookup|simpl; lia|..].
  { simpl. rewrite <-Ht, <-Hc. done. }
  { by rewrite Hyes, Ht, Hc. }
  destruct (BL.show_drop N b1 _ _ _ (ncalls (delete k (tasks s) ++
    (if o then [] else [TVoteRep p t q resp]))) Hs1) as (b2 & [Hb2 _] & Hs2).
  { rewrite ncalls_app. destruct o; simpl.
    - rewrite app_nil_r. by apply submseteq_cons.
    - rewrite Er. simpl. by rewrite Permutation_app_comm. }
  exists b2. assert (rtc (BL.bstep N) b b2) as Hb by by etrans. split; [done|].
  injection Hyes as Et _ Ero. eapply nsim_update; try done.
  - split_and!; [done|lia|]. intros Ete Hr. rewrite Ero. case_decide as Ed.
    + split; [done|]. intros ?. split; [done|]. rewrite Hl. lia.
    + done.
  - apply votes_grow_refl.
  - intros tk [?%list_elem_of_delete_inv|?]%elem_of_app; [by left|right]. by apply Hnew.
Qed.

Lemma voterep_progress s b k p t q resp e :
  nsim s b → tasks s !! k = Some (TVoteRep p t q resp) →
  runs b (run_task cap e (TVoteRep p t q resp) (set_tasks (delete k (tasks s)) s)).
Proof.
  intros R Hk. destruct (ns_task _ _ R _ (list_elem_of_lookup_2 _ _ _ Hk)) as (Hpr & Hv).
  destruct (ns_dom _ _ R p Hpr) as [n Hp]. pose proof (ns_node _ _ R p n Hp) as Hok.
  simpl. rewrite Hp. cbn [mbind option_bind].
  destruct (node_check t resp n (no_inv _ _ Hok)) as (n' & g & -> & Hi & Hc & Hl & Hg).
  cbn [mbind option_bind]. apply runs_intro. unfold spawn, set_tasks, set_node. simpl.
  destruct g; last first.
  { eapply nsim_quiet; eauto using ncalls_delete_sub, list_elem_of_delete_inv;
      [rewrite Hl; lia|set_solver]. }
  destruct (Hg eq_refl) as (-> & Hgr & _). exists b. split; [done|].
  eapply (nsim_update s b b p n n); auto using evolves_refl, votes_grow_refl, rtc_refl.
  - rewrite insert_id by by apply nproj_lookup. destruct (ns_shows _ _ R) as (E1 & E2 & E3).
    split_and!; [done..|]. rewrite E3, ncalls_app, (ncalls_delete _ _ _ Hk). simpl. rewrite Hgr. simpl.
    by rewrite Permutation_app_comm.
  - intros tk [?%list_elem_of_delete_inv| ->%list_elem_of_singleton]%elem_of_app; [by left|by right].
Qed.

Lemma count_progress s b k p t q e :
  nsim s b → tasks s !! k = Some (TCount p t q) →
  runs b (run_task cap e (TCount p t q) (set_tasks (delete k (tasks s)) s)).
Proof.
  intros R Hk. destruct (ns_task _ _ R _ (list_elem_of_lookup_2 _ _ _ Hk)) as (Hpr & v & Hv).
  destruct (ns_dom _ _ R p Hpr) as [n Hp]. pose proof (ns_node _ _ R p n Hp) as Hok.
  simpl. rewrite Hp. cbn [mbind option_bind]. rewrite Hv. cbn [mbind option_bind].
  rewrite (no_count _ _ Hok). apply runs_intro. unfold spawn, set_tasks, set_votes. simpl.
  destruct (ns_shows _ _ R) as (E1 & E2 & E3). rewrite (ncalls_delete _ _ _ Hk) in E3.
  destruct (BL.show_count N b _ _ (ncalls (delete k (tasks s))) p t q v (conj E1 (conj E2 E3)) Hv)
    as (b' & [Hb _] & Hs).
  exists b'. split; [done|]. set (new := if _ : bool then _ else _).
  assert (∀ tk, tk ∈ new → tk = TWon p t ∧ N < 2 * (v + 1)) as Hnew.
  { unfold new. intros tk. destruct (Z.ltb_spec (Z.quot N 2) (v + 1)) as [Hlt|]; [|set_solver].
    intros ->%list_elem_of_singleton. split; [done|]. unfold peer in Hpr.
    rewrite Z.quot_div_nonneg in Hlt by lia. pose proof (Z.div_mod N 2 ltac:(lia)).
    pose proof (Z.mod_pos_bound N 2 ltac:(lia)). lia. }
  clearbody new. rewrite <-(insert_id (nodes s) p n) by done.
  eapply (nsim_update s b b' p n n); auto using evolves_refl.
  - apply Hok.
  - apply votes_grow_insert. intros y Hy. rewrite Hv in Hy. injection Hy as <-. lia.
  - rewrite insert_id by by apply nproj_lookup. rewrite ncalls_app, (ncalls_none new), app_nil_r; [done|].
    intros tk [-> _]%Hnew. done.
  - intros tk [?%list_elem_of_delete_inv|[-> ?]%Hnew]%elem_of_app; [by left|right]. simpl.
    split; [done|]. exists (v + 1). by rewrite lookup_insert_eq.
Qed.

Lemma won_progress s b k p t e :
  nsim s b → tasks s !! k = Some (TWon p t) →
  runs b (run_task cap e (TWon p t) (set_tasks (delete k (tasks s)) s)).
Proof.
  intros R Hk. destruct (ns_task _ _ R _ (list_elem_of_lookup_2 _ _ _ Hk)) as (Hpr & v & Hv & Hm).
  destruct (ns_dom _ _ R p Hpr) as [n Hp]. pose proof (ns_node _ _ R p n Hp) as Hok.
  simpl. rewrite Hp. cbn [mbind option_bind].
  destruct (node_won t n (no_inv _ _ Hok)) as (n' & g & -> & Hi & Hc).
  cbn [mbind option_bind]. apply runs_intro. unfold spawn, set_tasks, set_node. simpl.
  destruct Hc as [[-> ->]|(-> & <- & Hr & Hre)].
  { eapply nsim_quiet; eauto using ncalls_delete_sub, list_elem_of_delete_inv, calm_refl;
      [lia|set_solver]. }
  destruct (ns_shows _ _ R) as (E1 & E2 & E3). rewrite (ncalls_delete _ _ _ Hk) in E3.
  destruct Hre as (ni & mi & -> & _ & _).
  destruct (BL.show_lead N b _ _ (ncalls (delete k (tasks s))) p (proj n)
    (proj (set_matchIndex mi (set_nextIndex ni (set_role Leader n)))) v (conj E1 (conj E2 E3)))
    as (b' & [Hb _] & Hs); [by apply nproj_lookup|done..|].
  exists b'. split; [done|]. eapply nsim_update; try done.
  - apply votes_grow_refl.
  - by rewrite ncalls_app, (ncalls_none [TRepl _ _]), app_nil_r by set_solver.
  - intros tk [?%list_elem_of_delete_inv| ->%list_elem_of_singleton]%elem_of_app; [by left|by right].
Qed.

(** ** Replication *)

Lemma repl_progress s b k p t e :
  nsim s b → tasks s !! k = Some (TReplGo p t) →
  runs b (run_task cap e (TReplGo p t) (set_tasks (delete k (tasks s)) s)).
Proof.
  intros R Hk. pose proof (ns_task _ _ R _ (list_elem_of_lookup_2 _ _ _ Hk)) as Hpr.
  destruct (ns_dom _ _ R p Hpr) as [n Hp]. pose proof (ns_node _ _ R p n Hp) as Hok.
  simpl. rewrite Hp. cbn [mbind option_bind].
  destruct (node_replicate t n (no_inv _ _ Hok)) as (n' & calls & -> & Hi & Hre & Hld & Hcs & _).
  destruct (renode_calm _ _ Hre) as (Hc & Hl & _).
  assert (currentTerm n' = currentTerm n ∧ role n' = role n) as [Et Er].
  { by destruct Hre as (ni & mi & -> & _). }
  cbn [mbind option_bind]. apply runs_intro. unfold spawn, set_tasks, set_node. simpl.
  eapply nsim_quiet; eauto using ncalls_delete_sub, list_elem_of_delete_inv; [rewrite Hl; lia|].
  intros tk [(c & -> & Hin)%list_elem_of_fmap| ->%list_elem_of_singleton]%elem_of_app; [|done].
  specialize (Hcs c Hin). destruct Hld as [Ht Hr]; [by intros ->; apply not_elem_of_nil in Hin|].
  pose proof (no_count _ _ Hok) as HN. destruct c as [q req|q req]; simpl in *; (split; [done|]).
  - destruct Hcs as (? & ? & _ & _ & _ & _ & _ & _ & Hlen).
    split_and!; [done|unfold peer; lia|]. intros _ m. simpl. rewrite lookup_insert_eq. intros [= <-].
    rewrite Et, Er, Hl, Ht. split; [lia|]. intros _. split; [by rewrite Hr|]. intros _. simpl. lia.
  - destruct Hcs as (? & _). split; [done|unfold peer; lia].
Qed.

Lemma appreq_progress s b k p t q req o e :
  nsim s b → tasks s !! k = Some (TAppReq p t q req o) →
  runs b (run_task cap e (TAppReq p t q req o) (set_tasks (delete k (tasks s)) s)).
Proof.
  intros R Hk. destruct (ns_task _ _ R _ (list_elem_of_lookup_2 _ _ _ Hk)) as (Hpr & Hqr & Hled).
  destruct (ns_dom _ _ R q Hqr) as [n Hq]. pose proof (ns_node _ _ R q n Hq) as Hok.
  simpl. rewrite Hq. cbn [mbind option_bind].
  destruct (handle_append e req n (no_inv _ _ Hok)) as (n' & resp & -> & Hi & Hc & Hf & _).
  cbn [mbind option_bind]. apply runs_intro. unfold spawn, set_tasks, set_node. simpl.
  assert (role n' = Leader → RL.size (log n) ≤ RL.size (log n')) as Hg.
  { intros HL. destruct Hf as [->|Hf]; [lia|congruence]. }
  eapply nsim_quiet; eauto using ncalls_delete_sub, list_elem_of_delete_inv.
  intros tk. destruct o; [set_solver|]. intros ->%list_elem_of_singleton. split; [done|].
  split_and!; [done..|]. eapply led_mono; [|by apply Hled]. simpl.
  intros r m' [[<- <-]|[_ ?]]%lookup_insert_Some; [exists n; by auto using calm_evolves|].
  eauto using evolves_refl.
Qed.

Lemma insreq_progress s b k p t q req o e :
  nsim s b → tasks s !! k = Some (TInsReq p t q req o) →
  runs b (run_task cap e (TInsReq p t q req o) (set_tasks (delete k (tasks s)) s)).
Proof.
  intros R Hk. destruct (ns_task _ _ R _ (list_elem_of_lookup_2 _ _ _ Hk)) as (Hpr & Hqr).
  destruct (ns_dom _ _ R q Hqr) as [n Hq]. pose proof (ns_node _ _ R q n Hq) as Hok.
  simpl. rewrite Hq. cbn [mbind option_bind].
  destruct (handle_install e req n (no_inv _ _ Hok)) as (n' & resp & -> & Hi & Hc & Hf & _).
  cbn [mbind option_bind]. apply runs_intro. unfold spawn, set_tasks, set_node. simpl.
  eapply nsim_quiet; eauto using ncalls_delete_sub, list_elem_of_delete_inv.
  - intros HL. destruct Hf as [->|Hf]; [lia|congruence].
  - intros tk. destruct o; [set_solver|]. by intros ->%list_elem_of_singleton.
Qed.

(** Any task that is there can be run, whatever the clock and the random number. *)
Lemma run_progress s b k tk e :
  nsim s b → tasks s !! k = Some tk →
  runs b (run_task cap e tk (set_tasks (delete k (tasks s)) s)).
Proof.
  intros R Hk. pose proof (ns_task _ _ R _ (list_elem_of_lookup_2 _ _ _ Hk)) as Htk.
  assert (∀ p, peer p → ∃ n, nodes s !! p = Some n ∧ node_ok p n) as Hn.
  { intros p Hp. destruct (ns_dom _ _ R p Hp) as [n E]. eauto using ns_node. }
  assert (∀ p n n', nodes s !! p = Some n → calm n n' → node_inv n' → log n' = log n →
    runs b (Some (set_node p n' (set_tasks (delete k (tasks s)) s)))) as Q.
  { intros p n n' Hp Hc Hi Hl. apply runs_intro. unfold set_node, set_tasks. simpl.
    rewrite <-(app_nil_r (delete k (tasks s))).
    eapply nsim_quiet; eauto using ncalls_delete_sub, list_elem_of_delete_inv;
      [rewrite Hl; lia|set_solver]. }
  assert (∀ new ch rc, (∀ tk, tk ∈ new → ncall tk = None ∧ ntask_ok s tk) →
    runs b (Some (mkNet (nodes s) (votes s) (delete k (tasks s) ++ new) ch rc))) as D.
  { intros new ch rc Hnew. apply runs_intro.
    apply nsim_drop; eauto using ncalls_delete_sub, list_elem_of_delete_inv. }
  assert (runs b (Some (set_tasks (delete k (tasks s)) s))) as D0.
  { unfold set_tasks. rewrite <-(app_nil_r (delete k (tasks s))). apply D. set_solver. }
  destruct tk as [p t|p t q req o|p t q resp|p t q|p t|p t|p t|p t q req o|p t q req resp
                 |p t q req o|p t q resp|p msgs];
    [by apply elect_progress|by apply votereq_progress|by apply voterep_progress
    |by apply count_progress|by apply won_progress| |by apply repl_progress
    |by apply appreq_progress| |by apply insreq_progress| |].
  - destruct (Hn p Htk) as (n & Hp & Hok). simpl. rewrite Hp. cbn [mbind option_bind].
    destruct (replicationTicker t n); [|exact D0]. apply D. by intros tk ->%list_elem_of_singleton.
  - destruct Htk as (Hpr & Hqr & Hled). destruct (Hn p Hpr) as (n & Hp & Hok). simpl. rewrite Hp.
    cbn [mbind option_bind].
    destruct (node_append_reply q t req resp n (no_inv _ _ Hok)) as (n' & -> & Hi & Hc & Hl & _).
    { by rewrite (no_count _ _ Hok). }
    { intros Ht Hr. destruct (Hled n Hp) as [_ Hs]. by apply Hs. }
    by eapply Q.
  - destruct Htk as (Hpr & Hqr). destruct (Hn p Hpr) as (n & Hp & Hok). simpl. rewrite Hp.
    cbn [mbind option_bind].
    destruct (node_install_reply q t resp n (no_inv _ _ Hok)) as (n' & -> & Hi & Hc & Hl).
    { by rewrite (no_count _ _ Hok). }
    by eapply Q.
  - destruct msgs as [|msg msgs]; [exact D0|]. simpl. apply D. by intros tk ->%list_elem_of_singleton.
Qed.

(** ** Restarts *)

Lemma on_crash_ncall c tk tk' : NN.on_crash c tk = Some tk' → ncall tk' = ncall tk.
Proof. intros E. destruct tk; simpl in E; try destruct (_ =? _); by simplify_eq. Qed.

Lemma on_crash_nsub c l : ncalls (omap (NN.on_crash c) l) ⊆+ ncalls l.
Proof.
  induction l as [|tk l IH]; [done|]. unfold ncalls in *. simpl.
  destruct (NN.on_crash c tk) as [tk'|] eqn:E; simpl.
  - rewrite (on_crash_ncall _ _ _ E). destruct (ncall tk); [by apply submseteq_skip|done].
  - destruct (ncall tk); [by apply submseteq_cons|done].
Qed.

(** A task that survives the crash of [c]: it is another node's, or an orphan. *)
Lemma on_crash_ok s c n' tk tk' ch rc l :
  NN.on_crash c tk = Some tk' → ntask_ok s tk →
  ntask_ok (mkNet (<[c := n']> (nodes s)) (filter (λ kv, kv.1.1 ≠ c) (votes s)) l ch rc) tk'.
Proof.
  intros E. set (s' := mkNet _ _ _ _ _).
  assert (∀ p t v, p ≠ c → votes s !! (p, t) = Some v → votes s' !! (p, t) = Some v) as Hv.
  { intros p t v Hp Hv. simpl. by apply map_lookup_filter_Some. }
  assert (∀ p t req, p ≠ c → led s p t req → led s' p t req) as Hl.
  { intros p t req Hp Hl m. simpl. rewrite lookup_insert_ne by done. apply Hl. }
  destruct tk; simpl in E; try destruct (Z.eqb_spec p c) as [->|Hne]; simplify_eq/=; try done;
    rewrite ?orb_true_r, ?orb_false_r.
  all: unfold is_Some; naive_solver.
Qed.

Lemma crash_progress s b p e n :
  nsim s b → nodes s !! p = Some n → runs b (step cap (ECrash p e) s).
Proof.
  intros R Hp. simpl. rewrite Hp. cbn [mbind option_bind].
  pose proof (ns_node _ _ R p n Hp) as Hok.
  destruct (node_restart e n (no_inv _ _ Hok)) as (n' & -> & Hi & Hc & Hr & _).
  cbn [mbind option_bind]. apply runs_intro.
  destruct (BL.show_restart N b _ _ _ p (proj n) (proj n')
    (ncalls (omap (NN.on_crash p) (tasks s))) (ns_shows _ _ R)) as (b' & [Hb _] & Hs).
  { by apply nproj_lookup. } { apply Hc. } { apply on_crash_nsub. }
  exists b'. split; [done|]. split; simpl.
  - by rewrite fmap_insert.
  - by apply (BL.bsteps_refine N b b' (ns_binv _ _ R)).
  - intros q Hq. apply lookup_insert_is_Some'. right. by apply (ns_dom _ _ R).
  - intros q m [[<- <-]|[_ ?]]%lookup_insert_Some; [|by apply (ns_node _ _ R)].
    eapply node_ok_evolves; [exact Hok| |done]. apply calm_evolves; [done|]. congruence.
  - intros tk' (tk & Htk & E)%list_elem_of_omap. eapply on_crash_ok; [done|].
    by apply (ns_task _ _ R).
Qed.

(** ** All steps *)

Lemma convert_ok s es tk tk' :
  convert_task es tk = Some tk' → ntask_ok s tk → ncall tk' = None ∧ ntask_ok s tk'.
Proof.
  unfold convert_task. intros E H. repeat case_match; simplify_eq. split; [done|].
  unfold ntask_ok, led, len in *. simpl. by match goal with E : length _ = length _ |- _ => rewrite E end.
Qed.

Lemma node_step_refines s b ev s' :
  nsim s b → step cap ev s = Some s' → ∃ b', rtc (BL.bstep N) b b' ∧ nsim s' b'.
Proof.
  intros R E.
  assert (runs b (step cap ev s) → ∃ b', rtc (BL.bstep N) b b' ∧ nsim s' b') as P.
  { rewrite E. intros (s1 & b' & [= <-] & ? & ?). eauto. }
  assert (∀ p n n' new, nodes s !! p = Some n → calm n n' → node_inv n' →
    RL.size (log n) ≤ RL.size (log n') →
    (∀ tk, tk ∈ new → ncall tk = None ∧ ∀ s, ntask_ok s tk) →
    ∃ b', rtc (BL.bstep N) b b' ∧ nsim (spawn new (set_node p n' s)) b') as Q.
  { intros p n n' new Hp Hc Hi Hl Hnew. unfold spawn, set_node, set_tasks. simpl.
    eapply nsim_quiet; eauto. intros tk ?. split; by apply Hnew. }
  assert (∀ p n n', nodes s !! p = Some n → calm n n' → node_inv n' →
    RL.size (log n) ≤ RL.size (log n') →
    ∃ b', rtc (BL.bstep N) b b' ∧ nsim (set_node p n' s) b') as Q0.
  { intros p n n' Hp Hc Hi Hl. destruct (Q p n n' [] Hp Hc Hi Hl) as (b' & Hb & R'); [set_solver|].
    exists b'. split; [done|]. unfold spawn, set_tasks in R'. rewrite app_nil_r in R'. exact R'. }
  assert (∀ p n, nodes s !! p = Some n → node_inv n) as I.
  { intros p n Hp. eapply no_inv, ns_node; done. }
  destruct ev as [p e|k e|k|k es|p cmd|p i snap|p|p|p|p|p e].
  - apply P. simpl in E. apply bind_Some in E as (n & Hp & E). destruct (killed n) eqn:Ek; [done|].
    by eapply tick_progress.
  - apply P. simpl in *. apply bind_Some in E as (tk & Hk & _). rewrite Hk. by apply run_progress.
  - simpl in E. apply bind_Some in E as (tk & Hk & E). destruct (lossy tk); simplify_eq.
    unfold set_tasks. rewrite <-(app_nil_r (delete k (tasks s))).
    apply nsim_drop; eauto using ncalls_delete_sub, list_elem_of_delete_inv. set_solver.
  - simpl in E. apply bind_Some in E as (tk & Hk & E). apply bind_Some in E as (tk' & Hc & E). simplify_eq.
    unfold spawn, set_tasks. simpl. apply nsim_drop; eauto using ncalls_delete_sub, list_elem_of_delete_inv.
    intros x ->%list_elem_of_singleton. eapply convert_ok; [done|]. by eapply ns_task, list_elem_of_lookup_2.
  - simpl in E. apply bind_Some in E as (n & Hp & E). simplify_eq.
    destruct (node_start cmd n (I p n Hp)) as (Hi & Hc & Hl). eapply Q0; try done.
    case_decide; destruct Hl as [-> _]; [rewrite RL.size_append|]; lia.
  - simpl in E. apply bind_Some in E as (n & Hp & E).
    destruct (node_snapshot i snap n (I p n Hp)) as (n' & En & Hi & Hc & Hl). rewrite En in E.
    simplify_eq/=. eapply Q0; try done. lia.
  - simpl in E. apply bind_Some in E as (n & Hp & E). destruct (_ || _ || _); simplify_eq.
    eapply Q0; [done|by apply calm_same|by eapply ni_cond, I|done].
  - simpl in E. apply bind_Some in E as (n & Hp & E). destruct (_ || _ || _ || _); simplify_eq.
    apply bind_Some in E as ([n' msgs] & Er & E). simplify_eq.
    destruct (node_round n n' msgs (I p n Hp) Er) as (Hi & Hc & Hl).
    eapply Q; try done; [rewrite Hl; lia|]. by intros tk ->%list_elem_of_singleton.
  - simpl in E. destruct (chan s p) as [|msg buf]; simplify_eq. rewrite <-(app_nil_r (tasks s)).
    apply nsim_drop; try done. set_solver.
  - simpl in E. apply bind_Some in E as (n & Hp & E). simplify_eq.
    eapply Q0; [done|by apply calm_same| |done].
    apply ni_signal. apply (ni_same_log n (Kill n) (I p n Hp)); try done. apply (ni_leader _ (I p n Hp)).
  - apply P. simpl in E. apply bind_Some in E as (n & Hp & _). by eapply crash_progress.
Qed.

Lemma node_runs_refine s b s' :
  nsim s b → rtc (next cap) s s' → ∃ b', rtc (BL.bstep N) b b' ∧ nsim s' b'.
Proof.
  intros R H. revert b R. induction H as [s|s s1 s2 Hn _ IH]; intros b R.
  { by exists b. }
  destruct Hn as [ev E]. destruct (node_step_refines s b ev s1 R E) as (b1 & H1 & R1).
  destruct (IH b1 R1) as (b2 & H2 & R2). exists b2. split; [by etrans|done].
Qed.

(** ** The start *)

(** A storage nothing was saved in. *)
Record blank (empty : T) : Prop := {
  bl_works : ST.works empty;
  bl_state : ∃ err, ST.LoadRaftState empty = inr err;
  bl_snapshot : ∃ err, ST.LoadSnapshot empty = inr err
}.

Lemma boot_node e c empty p :
  blank empty → cfg_ok (Validate c) → peer p →
  ∃ n, NewNode e (Some c) N p empty = Some n ∧ node_ok p n ∧ proj n = BL.mkB 1 (-1) Follower.
Proof.
  intros [Hw [e1 E1] [e2 E2]] Hc Hp. unfold NewNode, loadFromStorage. simpl default.
  cbn [storage]. rewrite E1. cbn [storage]. rewrite E2. set (n := mkNode _ _ _ _ _ _ _ _ _ _ _ _ _ _ _ _ _).
  destruct (reset_Some e n Hc) as (v & -> & _). eexists. split; [done|]. split; [|done].
  unfold peer in Hp.
  split; try done. split; simpl; try done; try lia.
  - unfold len. rewrite length_replicate. lia.
  - unfold len. rewrite length_replicate. lia.
  - split; simpl; [done|]. by rewrite E1, E2.
Qed.

Definition fresh_terms : gmap Z Z := list_to_map ((λ p, (p, 1)) <$> seqZ 0 N).

Lemma boot_lookup e c empty p :
  blank empty → cfg_ok (Validate c) →
  nodes (init e c empty N) !! p = (if decide (peer p) then NewNode e (Some c) N p empty else None).
Proof.
  intros Hb Hc. simpl. case_decide as Hp.
  - destruct (boot_node e c empty p Hb Hc Hp) as (n & E & _). rewrite E.
    apply elem_of_list_to_map_1'.
    + intros n' (q & Hq & E')%list_elem_of_omap. destruct (NewNode e (Some c) N q empty) eqn:Eq; [|done].
      simplify_eq/=. congruence.
    + apply list_elem_of_omap. exists p. rewrite E. split; [|done]. apply elem_of_seqZ. unfold peer in Hp. lia.
  - apply not_elem_of_list_to_map_1. intros ([q n] & -> & Hq)%list_elem_of_fmap.
    apply list_elem_of_omap in Hq as (q' & Hq' & E). destruct (NewNode e (Some c) N q' empty); [|done].
    simplify_eq/=. apply elem_of_seqZ in Hq'. unfold peer in Hp. lia.
Qed.

Lemma fresh_lookup p : fresh_terms !! p = if decide (peer p) then Some 1 else None.
Proof.
  unfold fresh_terms. case_decide as Hp.
  - apply elem_of_list_to_map_1'.
    + by intros y (q & [= -> ->] & _)%list_elem_of_fmap.
    + apply list_elem_of_fmap. exists p. split; [done|]. apply elem_of_seqZ. unfold peer in Hp. lia.
  - apply not_elem_of_list_to_map_1. rewrite <-list_fmap_compose. intros (q & -> & Hq)%list_elem_of_fmap.
    apply elem_of_seqZ in Hq. unfold peer in Hp. simpl in Hp. lia.
Qed.

Lemma fresh_dom : dom fresh_terms ⊆ cluster N.
Proof.
  intros p [t Ht]%elem_of_dom. rewrite fresh_lookup in Ht. apply elem_of_cluster. by case_decide.
Qed.

Lemma boot_sim e c empty :
  blank empty → cfg_ok (Validate c) → nsim (init e c empty N) (BL.bfresh fresh_terms).
Proof.
  intros Hb Hc. pose proof (boot_lookup e c empty) as Hl.
  assert (∀ p n, nodes (init e c empty N) !! p = Some n → node_ok p n ∧ proj n = BL.mkB 1 (-1) Follower)
    as Hn.
  { intros p n. rewrite Hl by done. case_decide as Hp; [|done].
    destruct (boot_node e c empty p Hb Hc Hp) as (n' & E & ? & ?). rewrite E. by intros [= <-]. }
  split.
  - split_and!; [|done|done]. apply map_eq. intros p. unfold BL.bfresh. cbn [BL.b_peers].
    rewrite !lookup_fmap, fresh_lookup. destruct (nodes (init e c empty N) !! p) as [n|] eqn:En.
    + destruct (Hn p n En) as [Hok Hpr]. rewrite decide_True by apply Hok. cbn. by rewrite Hpr.
    + rewrite Hl in En by done. case_decide as Hp; [|done].
      destruct (boot_node e c empty p Hb Hc Hp) as (n' & E & _). congruence.
  - apply BL.bfresh_inv, fresh_dom.
  - intros p Hp. rewrite Hl, decide_True by done.
    destruct (boot_node e c empty p Hb Hc Hp) as (n & -> & _). eauto.
  - intros p n Hp. by apply Hn.
  - simpl. set_solver.
Qed.

Lemma nsim_node s b p n :
  nsim s b → nodes s !! p = Some n → BL.b_peers b !! p = Some (proj n).
Proof. intros R Hp. destruct (ns_shows _ _ R) as (-> & _). by apply nproj_lookup. Qed.

Lemma reach_sim e c empty s :
  blank empty → cfg_ok (Validate c) → rtc (next cap) (init e c empty N) s →
  ∃ b, rtc (BL.bstep N) (BL.bfresh fresh_terms) b ∧ nsim s b.
Proof. intros Hb Hc. apply node_runs_refine. by apply boot_sim. Qed.

(** ** The theorems *)

Section theorems.
Context (e : Env) (c : Config) (empty : T).
Context (Hblank : blank empty) (Hcfg : cfg_ok (Validate c)).

(** C6: Election Safety of the library node, on any storage that satisfies the
    [RaftStorage] laws. If [p] leads a term at some point of a run and [q] leads
    the same term at the same or any later point, they are the same node: with
    votes counted across three critical sections, with messages lost and
    reordered, and with restarts from the storage. *)
Theorem node_election_safety (s1 s2 : net) p q np nq :
  rtc (next cap) (init e c empty N) s1 → rtc (next cap) s1 s2 →
  nodes s1 !! p = Some np → role np = Leader →
  nodes s2 !! q = Some nq → role nq = Leader →
  currentTerm np = currentTerm nq → p = q.
Proof.
  intros H1 H2 Hp Hlp Hq Hlq Ht.
  destruct (reach_sim e c empty s1 Hblank Hcfg H1) as (b1 & Hb1 & R1).
  destruct (node_runs_refine s1 b1 s2 R1 H2) as (b2 & Hb2 & R2).
  by eapply (BL.ballot_safe N fresh_terms b1 b2 p q (proj np) (proj nq));
    eauto using fresh_dom, nsim_node.
Qed.

(** C10: no panic outside the application ticker. When the nodes start on blank storages
    with a configuration in which, after [Validate], the minimum of the election timeout
    is below its maximum, then in every reachable state every pending task (an election, a request at its handler, a
    reply at its sender, a vote being counted, a replication round, the delivery of
    messages that were read) runs to its end, and so do the election ticker, [Snapshot]
    and a restart, whatever the clock and the random numbers are. The round in which the
    application ticker reads the log is not among them. *)
Theorem node_never_panics (s : net) :
  rtc (next cap) (init e c empty N) s →
  (∀ k e', (k < length (tasks s))%nat → is_Some (step cap (ERun k e') s)) ∧
  ∀ p n, nodes s !! p = Some n →
    (∀ e', killed n = false → is_Some (step cap (ETick p e') s)) ∧
    (∀ index snap, is_Some (step cap (ESnapshot p index snap) s)) ∧
    ∀ e', is_Some (step cap (ECrash p e') s).
Proof.
  intros H. destruct (reach_sim e c empty s Hblank Hcfg H) as (b & _ & R).
  assert (∀ o, runs b o → is_Some o) as Hr by (intros o (s' & b' & -> & _); eauto). split.
  - intros k e' [tk Hk]%lookup_lt_is_Some. apply Hr. simpl. rewrite Hk. by apply run_progress.
  - intros p n Hp. split_and!.
    + intros e' Hk. by eapply Hr, tick_progress.
    + intros index snap. simpl. rewrite Hp. cbn [mbind option_bind].
      destruct (node_snapshot index snap n) as (n' & -> & _); [by eapply no_inv, ns_node|]. eauto.
    + intros e'. by eapply Hr, crash_progress.
Qed.

(** what a restart keeps. In every reachable state, restarting a node from
    its storage gives back its term and its vote, but of the log only the
    snapshot: [loadFromStorage] decodes the stored entries and then replaces the
    log by an empty one, so every entry after the snapshot is lost. *)
Theorem node_restart_forgets_log (s : net) p n :
  rtc (next cap) (init e c empty N) s → nodes s !! p = Some n →
  ∃ n', NewNode e (Some (config n)) (peerCount n) (me n) (storage n) = Some n' ∧
    currentTerm n' = currentTerm n ∧ votedFor n' = votedFor n ∧
    RL.snapLastIdx (log n') = RL.snapLastIdx (log n) ∧
    RL.snapshot (log n') = RL.snapshot (log n) ∧
    commitIndex n' = RL.snapLastIdx (log n) ∧ lastApplied n' = RL.snapLastIdx (log n) ∧
    ∀ i, RL.snapLastIdx (log n) < i → RL.at_ (log n') i = None.
Proof.
  intros H Hp. destruct (reach_sim e c empty s Hblank Hcfg H) as (b & _ & R).
  destruct (node_restart e n) as (n' & E & _ & _ & _ & Ht & Hv & Hl & Hc & Ha);
    [by eapply no_inv, ns_node|].
  exists n'. rewrite Hl, Hc, Ha. split_and!; try done. intros i Hi. apply RL.at_None.
  rewrite RL.size_NewLog. unfold len. simpl. lia.
Qed.
End theorems.
End election.
