(* ===== verification/NodeMatching.v ===== *)
(** Log Matching for the cluster of [node.go] nodes.

    The network layer of [Matching], as in [RaftMatching], on the lemmas of
    [NodeFacts] and [NodeSteps] about one node.  A restart of a node loses every
    entry behind its snapshot; what is left is still a prefix of what the node had,
    so logs go on matching. *)

From S2P Require Import Prelude Gob RaftLog Raft Matching Voting Ballot Storage Transport Node NodeFacts NodeSteps NodeNet NodeElection.
Import ND NN LM.

#[local] Open Scope Z_scope.

Section matching.
Context {Cmd SB T : Type} {RS : ST.RaftStorage T (list (rgob Cmd)) (list SB)}
  {RSL : ST.RaftStorageLaws T (list (rgob Cmd)) (list SB)}.
Abbreviation Node := (ND.Node Cmd SB T).
Abbreviation net := (NN.net Cmd SB T).
Abbreviation task := (NN.task Cmd SB).
Context (cap N : Z).
Implicit Types (n : Node) (s : net) (tk : task) (b : BL.ballot) (p q t : Z) (l : list task).
Implicit Types (G : gmap Z (list (LogEntry Cmd))).

(** A [HandleInstallSnapshot] that is about to run does not keep foreign entries. *)
Definition node_benign_install (req : TR.InstallSnapshotRequest SB) n : Prop :=
  TR.isq_Term req < currentTerm n ∨ TR.isq_LastIncludedIndex req ≤ RL.snapLastIdx (log n) ∨
  fits (log n) (TR.isq_LastIncludedIndex req) (TR.isq_LastIncludedTerm req).

(** The transport delivers the entries of a request as they were sent. *)
Definition arrives (ev : NN.event Cmd SB) s : Prop :=
  ∀ k es p t q req o, ev = EConvert k es → tasks s !! k = Some (TAppReq p t q req o) → es = TR.aeq_Entries req.

Definition node_benign (ev : NN.event Cmd SB) s : Prop :=
  (∀ k e p t q req o n, ev = ERun k e → tasks s !! k = Some (TInsReq p t q req o) →
    nodes s !! q = Some n → node_benign_install req n) ∧
  arrives ev s.

Lemma arrives_same k es s tk tk' :
  arrives (EConvert k es) s → tasks s !! k = Some tk → convert_task es tk = Some tk' → tk' = tk.
Proof.
  unfold convert_task. intros HI Hk E. destruct tk as [| | | | | | |p t q req o| | | |]; try done.
  case_decide; simplify_eq. rewrite (HI k es p t q req o eq_refl Hk). by destruct req.
Qed.

Definition node_benign_next s s' : Prop := ∃ ev, step cap ev s = Some s' ∧ node_benign ev s.

(** ** What [Matching] sees *)

Definition node_view n : view Cmd SB := mkView (currentTerm n) (role n) (log n).

Definition node_msg tk : option (msg Cmd) :=
  match tk with
  | TAppReq _ _ _ req _ =>
      Some (MAppend (TR.aeq_Term req) (TR.aeq_PrevLogIndex req) (TR.aeq_PrevLogTerm req) (TR.aeq_Entries req))
  | TInsReq _ _ _ req _ =>
      Some (MInstall (TR.isq_Term req) (TR.isq_LastIncludedIndex req) (TR.isq_LastIncludedTerm req))
  | _ => None
  end.

Definition node_lm s b G : Prop :=
  lm (node_view <$> nodes s) (omap node_msg (tasks s)) (BL.b_leaders b) G.

Definition ntask_log G tk : Prop := ∀ m, node_msg tk = Some m → msg_log G m.

Lemma ntasks_none G l : omap node_msg l = [] → ∀ tk, tk ∈ l → ntask_log G tk.
Proof.
  intros E tk Htk m Hm. assert (m ∈ omap node_msg l) as Hin by (apply list_elem_of_omap; eauto).
  rewrite E in Hin. set_solver.
Qed.

Lemma nlm_task s b G tk : node_lm s b G → tk ∈ tasks s → ntask_log G tk.
Proof. intros H Htk m Hm. apply (lm_msg _ _ _ _ H). apply list_elem_of_omap. eauto. Qed.

Lemma nlm_view s b G p n : node_lm s b G → nodes s !! p = Some n → peer_log G (node_view n).
Proof. intros H Hp. apply (lm_peer _ _ _ _ H p). by rewrite lookup_fmap, Hp. Qed.

Lemma ntasks_log s G l :
  (∀ tk, tk ∈ l → tk ∈ tasks s ∨ ntask_log G tk) →
  ∀ m, m ∈ omap node_msg l → m ∈ omap node_msg (tasks s) ∨ msg_log G m.
Proof.
  intros H m (tk & Htk & Hm)%list_elem_of_omap. destruct (H tk Htk) as [?|Hl]; [left|right; by apply Hl].
  apply list_elem_of_omap. eauto.
Qed.

(** A step of [p] that leaves the logs of the leaders as they are. *)
Lemma nlm_node_step s b G b' p n' vs l ch rc :
  node_lm s b G → BL.b_leaders b ⊆ BL.b_leaders b' → peer_log G (node_view n') →
  (∀ tk, tk ∈ l → tk ∈ tasks s ∨ ntask_log G tk) →
  node_lm (mkNet (<[p := n']> (nodes s)) vs l ch rc) b' G.
Proof.
  intros H Hb Hp Hl. eapply lm_quiet; [exact H|done| |by apply ntasks_log].
  simpl. intros q v. rewrite fmap_insert. intros [[<- <-]|[_ ?]]%lookup_insert_Some; [by right|by left].
Qed.

(** A step that touches no node. *)
Lemma nlm_net_step s b G b' vs l ch rc :
  node_lm s b G → BL.b_leaders b ⊆ BL.b_leaders b' →
  (∀ tk, tk ∈ l → tk ∈ tasks s ∨ ntask_log G tk) → node_lm (mkNet (nodes s) vs l ch rc) b' G.
Proof. intros H Hb Hl. eapply lm_quiet; [exact H|done|by left|by apply ntasks_log]. Qed.

Lemma keeps_calm n n' : calm n n' → log n' = log n → keeps (node_view n) (node_view n').
Proof.
  intros [_ Hq] Hl. unfold BL.bquiet, proj in Hq. simpl in Hq.
  destruct Hq as [(Ht & _ & Hr)|(Ht & _ & Hr)]; split_and!; simpl; [done|lia| |done|lia|congruence].
  destruct Hr as [Hr|Hr]; rewrite Hr; done.
Qed.

(** ** The handlers *)

Lemma reset_term e n n' : resetElectionTimerLocked e n = Some n' → currentTerm n' = currentTerm n.
Proof. unfold resetElectionTimerLocked. rewrite bind_Some. by intros (r & _ & [= <-]). Qed.

Lemma append_term e req n n' resp :
  node_inv n → HandleAppendEntries e req n = Some (n', resp) → currentTerm n ≤ TR.aeq_Term req →
  currentTerm n' = TR.aeq_Term req.
Proof.
  intros Hi E Hle. unfold HandleAppendEntries in E. destruct (Z.ltb_spec (TR.aeq_Term req) (currentTerm n)); [lia|].
  destruct (becomeFollower_guarded (TR.aeq_Term req) n Hi Hle) as (_ & _ & _ & _ & _ & Ht).
  set (n1 := if currentTerm n <=? TR.aeq_Term req then _ else n) in *. clearbody n1. cbv zeta in E.
  apply bind_Some in E as ([n2 r2] & E2 & E). apply bind_Some in E as (n3 & E3%reset_term & E). simplify_eq.
  rewrite E3, <-Ht. case_match; [by simplify_eq|]. case_match; [by simplify_eq|].
  apply bind_Some in E2 as (prev & _ & E2). case_match; [by simplify_eq|].
  apply bind_Some in E2 as (l & _ & E2). rewrite persist_eq in E2. simplify_eq.
  case_match; [|done]. destruct (RL.last _) as [li lt]. by case_match.
Qed.

Lemma install_term e req n n' resp :
  node_inv n → HandleInstallSnapshot e req n = Some (n', resp) → currentTerm n ≤ TR.isq_Term req →
  currentTerm n' = TR.isq_Term req.
Proof.
  intros Hi E Hle. unfold HandleInstallSnapshot in E. destruct (Z.ltb_spec (TR.isq_Term req) (currentTerm n)); [lia|].
  destruct (becomeFollower_guarded (TR.isq_Term req) n Hi Hle) as (_ & _ & _ & _ & _ & Ht).
  set (n1 := if currentTerm n <=? TR.isq_Term req then _ else n) in *. clearbody n1. cbv zeta in E.
  apply bind_Some in E as (n2 & E2 & E). apply bind_Some in E as (n3 & E3%reset_term & E). simplify_eq.
  rewrite E3, <-Ht. case_match; [by simplify_eq|].
  apply bind_Some in E2 as (l & _ & E2). rewrite persist_eq in E2. simplify_eq. by case_match.
Qed.

Lemma node_vote_keeps e req n n' resp :
  node_inv n → HandleRequestVote e req n = Some (n', resp) → keeps (node_view n) (node_view n').
Proof.
  intros Hi E. destruct (handle_vote e req n Hi) as (n1 & r1 & E1 & _ & _ & Hl & Hg & Hf & Ht).
  rewrite E1 in E. simplify_eq. destruct (TR.rvp_VoteGranted resp); [|by apply keeps_calm; auto].
  destruct (proj1 Hg eq_refl) as [[Hle _] _]. specialize (Ht eq_refl). injection Ht as Et _ Er.
  split_and!; simpl; [done|lia|]. rewrite Er. case_decide; [|done]. intros ?. split; [done|lia].
Qed.

Lemma node_append_view G e p t q req o n n' resp :
  node_inv n → HandleAppendEntries e req n = Some (n', resp) → wf_grow G → peer_log G (node_view n) →
  ntask_log G (TAppReq p t q req o) → peer_log G (node_view n').
Proof.
  intros Hi E HG HP HQ. destruct (handle_append e req n Hi) as (n1 & r1 & E1 & _ & Hc & Hf & Hs & Hn & Hy).
  rewrite E1 in E. simplify_eq. destruct (TR.aep_Success resp).
  - destruct (proj1 Hs eq_refl) as [Hle Hprev]. destruct (Hy eq_refl) as [El _].
    pose proof (append_term _ _ _ _ _ Hi E1 Hle) as Ht. destruct Hf as [->|Hr].
    { done. }
    by eapply (append_log G (node_view n)); [done|done|by apply HQ|..].
  - eapply peer_log_keeps; [|done]. apply keeps_calm; [done|]. by apply Hn.
Qed.

Lemma node_install_view G e p t q req o n n' resp :
  node_inv n → HandleInstallSnapshot e req n = Some (n', resp) → wf_grow G → peer_log G (node_view n) →
  node_benign_install req n → ntask_log G (TInsReq p t q req o) → peer_log G (node_view n').
Proof.
  intros Hi E HG HP HB HQ. destruct (handle_install e req n Hi) as (n1 & r1 & E1 & _ & Hc & Hf & Hd).
  rewrite E1 in E. simplify_eq. case_decide as Hc'.
  - destruct Hc' as [Hle Hlt], Hd as (El & _). pose proof (install_term _ _ _ _ _ Hi E1 Hle) as Ht.
    destruct HB as [?|[?|Hfit]]; [lia|lia|]. destruct Hf as [->|Hr]; [done|].
    by eapply (install_log G (node_view n)); [done|done|by apply HQ|..].
  - eapply peer_log_keeps; [|done]. apply keeps_calm; [done|]. by apply Hd.
Qed.

(** ** The calls of a leader *)

Lemma appended_tail (rl : RL.RaftLog Cmd SB) prev es :
  RL.snapLastIdx rl ≤ prev < RL.size rl → RL.appendFrom rl prev es = Some rl → RL.tail rl (prev + 1) = Some es.
Proof.
  intros Hr E. destruct (tail_rest rl prev Hr) as (es' & Et & _ & E'). rewrite Et. f_equal.
  rewrite RL.appendFrom_Some in E, E' by done. injection E as E; injection E' as E'.
  apply (f_equal RL.tailLog) in E, E'. pose proof (eq_trans E (eq_sym E')) as H. simpl in H.
  by apply app_inv_head in H.
Qed.

Lemma node_call_log G n t p c :
  node_inv n → peer_log G (node_view n) → role n = Leader → currentTerm n = t → call_for n t c →
  ntask_log G (call_task p t c).
Proof.
  intros Hi HP Hr Ht Hc m Hm. destruct c as [q req|q req]; simpl in *; simplify_eq.
  - destruct Hc as (_ & _ & _ & -> & _ & _ & Htm & Ha & _). unfold RL.termAt in Htm.
    apply fmap_Some in Htm as (e & He & ->).
    pose proof (proj1 (RL.at_is_Some _ _) (mk_is_Some _ _ He)) as Hrange.
    apply (append_request G (node_view n)); [done|done|simpl; lia|done|]. by apply appended_tail.
  - destruct Hc as (_ & _ & _ & ->). by apply (install_request G (node_view n)).
Qed.

(** ** Every step *)

Abbreviation reached b := (rtc (BL.bstep N) (BL.bfresh (fresh_terms N)) b).

Lemma node_leader_recorded s b p n :
  nsim N s b → nodes s !! p = Some n → role n = Leader → (currentTerm n, p) ∈ BL.b_leaders b.
Proof.
  intros R Hp Hr. apply (BL.bp_lead _ _ _ _ _ (BL.bi_peer N b (ns_binv _ _ _ R) p _ (nsim_node N s b p n R Hp))).
  done.
Qed.

(** A candidate has not led its term before. *)
Lemma node_candidate_fresh s b G b' p n :
  reached b → rtc (BL.bstep N) b b' → nsim N s b → node_lm s b G → nodes s !! p = Some n →
  role n = Candidate → (currentTerm n, p) ∈ BL.b_leaders b' → G !! currentTerm n = None.
Proof.
  intros Hb Hbb R H Hp Hr Hin. apply eq_None_not_Some. intros [L HL].
  destruct (lm_led _ _ _ _ H _ _ HL) as [q Hq].
  assert (p = q) as <-.
  { apply (BL.bleaders_unique N (fresh_terms N) b' (currentTerm n)); [apply fresh_dom|by etrans|done|].
    by apply (BL.bleaders_mono N b b' Hbb). }
  destruct (BL.once_steps N _ _ (BL.bfresh_once _) Hb p _ (nsim_node N s b p n R Hp)) as [_ Hc].
  by apply Hc.
Qed.

Lemma node_lead_lm s b G b' p n n' vs l ch rc :
  node_lm s b G → BL.b_leaders b ⊆ BL.b_leaders b' → nodes s !! p = Some n →
  node_view n' = mkView (currentTerm n) Leader (log n) → G !! currentTerm n = None →
  (currentTerm n, p) ∈ BL.b_leaders b' → (∀ tk, tk ∈ l → tk ∈ tasks s ∨ ntask_log G tk) →
  ∃ G', node_lm (mkNet (<[p := n']> (nodes s)) vs l ch rc) b' G'.
Proof.
  intros H Hm Hp Hv Hn Hin Hl. unfold node_lm. cbn [nodes tasks]. rewrite fmap_insert, Hv.
  eapply (lm_lead (node_view <$> nodes s) _ (BL.b_leaders b) G _ p (node_view n)); [exact H|done| |done|done|].
  - by rewrite lookup_fmap, Hp.
  - by apply ntasks_log.
Qed.

Lemma node_start_lm s b G b' p cmd n :
  reached b → nsim N s b → node_lm s b G → BL.b_leaders b ⊆ BL.b_leaders b' → nodes s !! p = Some n →
  ∃ G', node_lm (set_node p (Start cmd n).1 s) b' G'.
Proof.
  intros Hb R H Hm Hp. destruct (node_start cmd n) as (_ & Hc & Hl); [by eapply no_inv, ns_node|].
  case_decide as Hr; destruct Hl as [Hl _].
  2:{ rewrite Hl. exists G. apply nlm_node_step with b; [done|done|by eapply nlm_view|by left]. }
  assert (node_view (Start cmd n).1 = mkView (currentTerm n) Leader (RL.append (log n) (mkEntry (currentTerm n) true cmd)))
    as Hv.
  { unfold node_view. rewrite Hl. unfold Start. rewrite decide_False by (intros []; done). simpl.
    rewrite persist_eq. simpl. by rewrite Hr. }
  unfold node_lm, set_node. cbn [nodes tasks]. rewrite fmap_insert, Hv.
  eapply (lm_start _ _ (BL.b_leaders b) G _ p (node_view n)); [done|done| |done|].
  - by rewrite lookup_fmap, Hp.
  - intros q w Hne Hq Hw Ht. rewrite lookup_fmap in Hq. apply fmap_Some in Hq as (m & Hq & ->).
    apply Hne. apply (BL.bleaders_unique N (fresh_terms N) b (currentTerm n)); [apply fresh_dom|done|..].
    + simpl in Ht. rewrite <-Ht. by eapply node_leader_recorded.
    + by eapply node_leader_recorded.
Qed.

(** What the step of task [k] may leave behind. *)
Section running.
Context s b G (b' : BL.ballot) (k : nat).
Context (Hm : BL.b_leaders b ⊆ BL.b_leaders b') (H : node_lm s b G).

Lemma rest_log new tk : (∀ tk, tk ∈ new → ntask_log G tk) → tk ∈ delete k (tasks s) ++ new → tk ∈ tasks s ∨ ntask_log G tk.
Proof. intros Hn [?%list_elem_of_delete_inv|?]%elem_of_app; eauto. Qed.

Lemma rest_node p n' new vs ch rc :
  peer_log G (node_view n') → (∀ tk, tk ∈ new → ntask_log G tk) →
  ∃ G', node_lm (mkNet (<[p := n']> (nodes s)) vs (delete k (tasks s) ++ new) ch rc) b' G'.
Proof. intros Hp Hn. exists G. eapply nlm_node_step; [done..|]. intros x. by apply rest_log. Qed.

Lemma rest_net new vs ch rc :
  omap node_msg new = [] → ∃ G', node_lm (mkNet (nodes s) vs (delete k (tasks s) ++ new) ch rc) b' G'.
Proof. intros Hn. exists G. eapply nlm_net_step; [done..|]. intros x. apply rest_log. by apply ntasks_none. Qed.

Lemma rest_only : ∃ G', node_lm (set_tasks (delete k (tasks s)) s) b' G'.
Proof. unfold set_tasks. rewrite <-(app_nil_r (delete k (tasks s))). by apply rest_net. Qed.

Lemma calm_log p n n' : nodes s !! p = Some n → calm n n' → log n' = log n → peer_log G (node_view n').
Proof. intros Hp Hc Hl. eapply peer_log_keeps; [by apply keeps_calm|]. by eapply nlm_view. Qed.

Lemma rest_calm p n n' :
  nodes s !! p = Some n → calm n n' → log n' = log n →
  ∃ G', node_lm (set_node p n' (set_tasks (delete k (tasks s)) s)) b' G'.
Proof.
  intros Hp Hc Hl. unfold set_node. simpl. rewrite <-(app_nil_r (delete k (tasks s))).
  apply rest_node; [by eapply calm_log|set_solver].
Qed.
End running.

Lemma node_run_lm s b G b' k tk e s' :
  reached b → rtc (BL.bstep N) b b' → nsim N s b → nsim N s' b' → node_lm s b G →
  tasks s !! k = Some tk → node_benign (ERun k e) s →
  run_task cap e tk (set_tasks (delete k (tasks s)) s) = Some s' → ∃ G', node_lm s' b' G'.
Proof.
  intros Hb Hbb R R' H Hk HB E. pose proof (BL.bleaders_mono N b b' Hbb) as Hm.
  pose proof (list_elem_of_lookup_2 _ _ _ Hk) as Hin.
  pose proof (nlm_task _ _ _ _ H Hin) as Htk. pose proof (ns_task _ _ _ R _ Hin) as Hok.
  assert (I : ∀ p n, nodes s !! p = Some n → node_inv n) by exact (λ p n Hp, no_inv N p n (ns_node N s b R p n Hp)).
  pose proof (rest_node s b G b' k Hm H) as Q. pose proof (rest_net s b G b' k Hm H) as T'. pose proof (rest_only s b G b' k Hm H) as T0.
  pose proof (calm_log s b G H) as P. pose proof (rest_calm s b G b' k Hm H) as Q0.
  destruct tk as [p t|p t q req o|p t q resp|p t q|p t|p t|p t|p t q req o|p t q req resp
                 |p t q req o|p t q resp|p msgs]; simpl in E.
  all: try (apply bind_Some in E as (n & Hp & E)).
  - destruct (node_elect e t n (I p n Hp)) as (n' & oc & En & _ & Hc & Hl & _). rewrite En in E. simplify_eq/=.
    destruct oc as [calls|]; [|by eapply Q0]. apply Q; [by eapply P|].
    by intros x ([q a] & -> & _)%list_elem_of_fmap.
  - apply bind_Some in E as ([n' resp] & Er & E). simplify_eq. apply Q.
    + eapply peer_log_keeps; [by eapply node_vote_keeps; [eapply I|]|]. by eapply nlm_view.
    + apply ntasks_none. by destruct o.
  - destruct (node_check t resp n (I p n Hp)) as (n' & g & Ec & _ & Hc & Hl & _). rewrite Ec in E. simplify_eq.
    apply Q; [by eapply P|]. apply ntasks_none. by destruct g.
  - apply bind_Some in E as (v & Hv & E). simplify_eq. apply T'. by case_match.
  - destruct (node_won t n (I p n Hp)) as (n' & g & En & _ & Hc). rewrite En in E. simplify_eq/=.
    destruct Hc as [[-> ->]|(-> & <- & Hr & ni & mi & -> & _)].
    { apply Q; [by eapply nlm_view|set_solver]. }
    assert (Hl : (currentTerm n, p) ∈ BL.b_leaders b').
    { change (currentTerm n) with (currentTerm (set_matchIndex mi (set_nextIndex ni (set_role Leader n)))).
      eapply node_leader_recorded; [exact R'|simpl; by rewrite lookup_insert_eq|done]. }
    eapply (node_lead_lm s b G); [exact H|done|exact Hp|done|by eapply node_candidate_fresh|done|].
    intros x. apply rest_log. by apply ntasks_none.
  - destruct (replicationTicker t n); simplify_eq; [by apply T'|exact T0].
  - destruct (node_replicate t n (I p n Hp)) as (n' & calls & En & _ & Hre & Hld & Hcs & _). rewrite En in E. simplify_eq/=.
    destruct (renode_calm _ _ Hre) as (Hc & Hl & _). apply Q; [by eapply P|].
    intros x [(c & -> & Hcin)%list_elem_of_fmap|Hx]%elem_of_app; [|by revert x Hx; apply ntasks_none].
    destruct Hld as [Ht Hr]; [by intros ->; apply not_elem_of_nil in Hcin|].
    eapply node_call_log; [by eapply I|by eapply nlm_view|done|done|by apply Hcs].
  - apply bind_Some in E as ([n' resp] & Er & E). simplify_eq. apply Q.
    + by eapply node_append_view; [eapply I|exact Er|apply H|eapply nlm_view|exact Htk].
    + apply ntasks_none. by destruct o.
  - destruct Hok as (Hpr & Hqr & Hled). pose proof (ns_node _ _ _ R p n Hp) as Hn.
    destruct (node_append_reply q t req resp n (no_inv _ _ _ Hn)) as (n' & En & _ & Hc & Hl & _).
    { by rewrite (no_count _ _ _ Hn). }
    { intros Ht Hr. destruct (Hled n Hp) as [_ Hs]. by apply Hs. }
    rewrite En in E. simplify_eq/=. by eapply Q0.
  - apply bind_Some in E as ([n' resp] & Er & E). simplify_eq. apply Q.
    + eapply node_install_view; [by eapply I|exact Er|apply H|by eapply nlm_view| |exact Htk]. by eapply HB.
    + apply ntasks_none. by destruct o.
  - destruct Hok as (Hpr & Hqr). pose proof (ns_node _ _ _ R p n Hp) as Hn.
    destruct (node_install_reply q t resp n (no_inv _ _ _ Hn)) as (n' & En & _ & Hc & Hl).
    { by rewrite (no_count _ _ _ Hn). }
    rewrite En in E. simplify_eq/=. by eapply Q0.
  - destruct msgs as [|msg msgs]; simplify_eq; [exact T0|]. by apply T'.
Qed.

Lemma node_snapshot_view G index snap n n' :
  Snapshot index snap n = Some n' → peer_log G (node_view n) → peer_log G (node_view n').
Proof.
  intros E HP. unfold Snapshot in E. case_match; [by simplify_eq|]. case_match; [by simplify_eq|].
  apply bind_Some in E as (l & El & E). rewrite persist_eq in E. simplify_eq. by eapply compact_log.
Qed.

Lemma node_crash_log G c tk tk' : NN.on_crash c tk = Some tk' → ntask_log G tk → ntask_log G tk'.
Proof. intros E H m Hm. apply H. destruct tk; simpl in E; try destruct (_ =? _); by simplify_eq. Qed.

Lemma node_step_lm s b G ev s' :
  reached b → nsim N s b → node_lm s b G → step cap ev s = Some s' → node_benign ev s →
  ∃ b' G', reached b' ∧ nsim N s' b' ∧ node_lm s' b' G'.
Proof.
  intros Hb R H E HB. destruct (node_step_refines cap N s b ev s' R E) as (b' & Hbb & R').
  pose proof (BL.bleaders_mono N b b' Hbb) as Hm.
  exists b'. cut (∃ G', node_lm s' b' G'); [intros [G' ?]; exists G'; split_and!; [by etrans|done|done]|].
  assert (I : ∀ p n, nodes s !! p = Some n → node_inv n) by exact (λ p n Hp, no_inv N p n (ns_node N s b R p n Hp)).
  assert (Q : ∀ p n' l ch rc vs, peer_log G (node_view n') → (∀ tk, tk ∈ l → tk ∈ tasks s ∨ ntask_log G tk) →
    ∃ G', node_lm (mkNet (<[p := n']> (nodes s)) vs l ch rc) b' G').
  { intros p n' l ch rc vs Hv Hl. exists G. by eapply nlm_node_step. }
  assert (A : ∀ new, omap node_msg new = [] → ∀ tk, tk ∈ tasks s ++ new → tk ∈ tasks s ∨ ntask_log G tk).
  { intros new Hn x [?|Hx]%elem_of_app; [by left|right]. by revert x Hx; apply ntasks_none. }
  assert (P : ∀ p n n', nodes s !! p = Some n → calm n n' → log n' = log n → peer_log G (node_view n')).
  { intros p n n' Hp Hc Hl. eapply peer_log_keeps; [by apply keeps_calm|]. by eapply nlm_view. }
  destruct ev as [p e|k e|k|k es|p cmd|p i snap|p|p|p|p|p e]; simpl in E.
  all: try (apply bind_Some in E as (n & Hp & E)).
  - destruct (killed n); [done|]. destruct (node_tick e n (I p n Hp)) as (n' & ot & En & _ & _ & Hl & Hc).
    rewrite En in E. simplify_eq/=. apply Q; [|by apply A; destruct ot].
    destruct Hc as [[_ ->]|[_ Hpr]]; [by eapply nlm_view|].
    eapply peer_log_keeps; [|by eapply nlm_view]. injection Hpr as Ht _ Hr. split_and!; simpl; [done|lia|congruence].
  - by eapply node_run_lm.
  - destruct (lossy n); simplify_eq. exists G. eapply nlm_net_step; [done..|].
    intros x Hx%list_elem_of_delete_inv. by left.
  - apply bind_Some in E as (tk & Hc & E). simplify_eq. apply (arrives_same _ _ _ _ _ (proj2 HB) Hp) in Hc as ->.
    unfold spawn, set_tasks. simpl. exists G. eapply nlm_net_step; [done..|].
    intros x [Hx%list_elem_of_delete_inv| ->%list_elem_of_singleton]%elem_of_app; left; [done|by eapply list_elem_of_lookup_2].
  - simplify_eq. by eapply node_start_lm.
  - apply bind_Some in E as (n' & En & E). simplify_eq. apply Q; [|by left].
    eapply node_snapshot_view; [done|]. by eapply nlm_view.
  - destruct (_ || _ || _); simplify_eq. apply Q; [|by left]. eapply P; [done|by apply calm_same|done].
  - destruct (_ || _ || _ || _); simplify_eq. apply bind_Some in E as ([n' msgs] & Er & E). simplify_eq.
    destruct (node_round n n' msgs (I p n Hp) Er) as (_ & Hc & Hl). apply Q; [by eapply P|by apply A].
  - destruct (chan s p); simplify_eq. exists G. by eapply nlm_net_step; [..|by left].
  - simplify_eq. apply Q; [|by left]. eapply P; [done|by apply calm_same|done].
  - apply bind_Some in E as (n' & En & E). simplify_eq.
    destruct (node_restart e n (I p n Hp)) as (n1 & En' & _ & _ & Hr & Ht & _ & Hl & _).
    rewrite En' in En. simplify_eq. apply Q; [by eapply (forget_log G (node_view n)); [eapply nlm_view|..]|].
    intros tk' (tk & Htk & Eo)%list_elem_of_omap. right. eapply node_crash_log; [done|]. by eapply nlm_task.
Qed.

(** ** The theorem *)

Lemma boot_view e c empty p n :
  blank empty → nodes (init e c empty N) !! p = Some n → node_view n = fresh_view.
Proof.
  intros [_ [e1 E1] [e2 E2]] Hp. simpl in Hp. apply elem_of_list_to_map_2, list_elem_of_omap in Hp as (q & _ & Hn).
  apply fmap_Some in Hn as (m & Hn & [= -> ->]). unfold NewNode, loadFromStorage in Hn. cbn [storage] in Hn.
  rewrite E1 in Hn. cbn [storage] in Hn. rewrite E2 in Hn. unfold resetElectionTimerLocked in Hn.
  apply bind_Some in Hn as (r & _ & [= <-]). done.
Qed.

Section theorems.
Context (e : Env) (c : Config) (empty : T).
Context (Hblank : blank empty) (Hcfg : cfg_ok (Validate c)).

Lemma node_reach_lm s :
  rtc node_benign_next (init e c empty N) s → ∃ b G, nsim N s b ∧ node_lm s b G.
Proof.
  cut (∀ s0 b G, rtc node_benign_next s0 s → reached b → nsim N s0 b → node_lm s0 b G →
    ∃ b G, nsim N s b ∧ node_lm s b G).
  { intros H Hs. eapply H; [done|apply rtc_refl|by apply boot_sim|]. apply lm_init.
    intros p v. rewrite lookup_fmap. intros (n & Hp & ->)%fmap_Some. by eapply boot_view. }
  intros s0 b G Hs. revert b G. induction Hs as [s0|s0 s1 s2 (ev & E & HB) _ IH]; intros b G Hb R H; [by eauto|].
  destruct (node_step_lm s0 b G ev s1 Hb R H E HB) as (b1 & G1 & Hb1 & R1 & H1). eauto.
Qed.

(** C7: Log Matching of the library node, on any storage that satisfies the
    [RaftStorage] laws, with restarts that lose the log behind the snapshot. In
    every state a cluster reaches without a [HandleInstallSnapshot] that keeps
    entries behind a snapshot of another term, over a transport that delivers the
    entries of requests as they were sent (in memory always, over gRPC exactly when
    [grpc_append_faithful] says so): two nodes that have an entry of the
    same term at the same index have the same entries up to there, as far as
    neither has compacted them; and along every log terms never decrease and never
    exceed the node's current term. *)
Theorem node_log_matching (s : net) p q np nq :
  rtc node_benign_next (init e c empty N) s → nodes s !! p = Some np → nodes s !! q = Some nq →
  logs_match (log np) (log nq) ∧
  RL.terms_sorted (log np) ∧ ∀ i t, RL.termAt (log np) i = Some t → t ≤ currentTerm np.
Proof.
  intros H Hp Hq. destruct (node_reach_lm s H) as (b & G & _ & HL).
  apply (lm_match _ _ _ _ p q (node_view np) (node_view nq) HL); by rewrite lookup_fmap, ?Hp, ?Hq.
Qed.
End theorems.
End matching.
