(* ===== verification/NodeTraces.v ===== *)
(** Runs of a cluster of three [node.go] nodes: an election, which witnesses the
    theorems of [NodeElection] and [NodeMatching], and three runs in which the code does not do what
    it means to. *)

From S2P Require Import Prelude Gob RaftLog Raft Voting Ballot Storage Transport Node NodeFacts NodeSteps NodeNet NodeElection Matching NodeMatching.
Import ND NN Cell.

#[local] Open Scope Z_scope.

Module NodeRuns.

Abbreviation store := (@Cell.cell (list (rgob Z)) (list unit)).
Abbreviation network := (NN.net Z unit store).

Definition boot_time : Env := mkEnv 0 7.
Definition env : Env := mkEnv (10 ^ 12) 7.
Definition later : Env := mkEnv (10 ^ 13) 7.

Definition booted : network := init boot_time DefaultConfig empty 3.

(** Node 0 times out, asks both others, node 1 votes for it, and node 0 counts
    the vote and becomes the leader of term 2. *)
Definition election : list (event Z unit) :=
  [ETick 0 env; ERun 0 env; ERun 0 env; ERun 1 env; ERun 1 env; ERun 1 env].

(** Two commands; the replication round after the first one is delayed, the
    round after the second one reaches node 1, and its answer commits both. *)
Definition two_commands : list (event Z unit) :=
  election ++ [EStart 0 (Some 10); ERun 1 env; ERun 1 env;
               EStart 0 (Some 20); ERun 3 env; ERun 3 env; ERun 3 env; ERun 5 env].

Definition after (cap : Z) (evs : list (event Z unit)) : network := default booted (exec cap evs booted).

Definition elected : network := after 100 election.
Definition leader0 : ND.Node Z unit store :=
  default (mkNode 3 empty DefaultConfig 0 0 Follower 1 (-1) (RL.NewLog 0 0 [] []) [] [] 0 0 false CIdle 0 0)
    (nodes elected !! 0).

Lemma reached cap evs : is_Some (exec cap evs booted) → rtc (next cap) booted (after cap evs).
Proof. intros [s E]. apply (node_exec_rtc cap evs). unfold after. by rewrite E. Qed.

Lemma elected_reach : rtc (next 100) booted elected.
Proof. apply reached. eexists. vm_compute. reflexivity. Qed.

Lemma empty_blank : blank (empty : store).
Proof. split; [done|by eexists..]. Qed.

Lemma default_cfg : cfg_ok (Validate DefaultConfig).
Proof. apply cfg_ok_Validate. left. vm_compute. reflexivity. Qed.

Lemma node_safety_witness :
  role leader0 = Leader ∧ currentTerm leader0 = 2 ∧ (0 : Z) = 0.
Proof.
  split; [vm_compute; reflexivity|]. split; [vm_compute; reflexivity|].
  apply (node_election_safety 100 3 boot_time DefaultConfig empty empty_blank default_cfg
           elected elected 0 0 leader0 leader0).
  - apply elected_reach.
  - apply rtc_refl.
  - vm_compute. reflexivity.
  - vm_compute. reflexivity.
  - vm_compute. reflexivity.
  - vm_compute. reflexivity.
  - reflexivity.
Defined.

Lemma never_panics_witness :
  (∀ k e', (k < length (tasks elected))%nat → is_Some (step 100 (ERun k e') elected)) ∧
  ∀ p n, nodes elected !! p = Some n →
    (∀ e', killed n = false → is_Some (step 100 (ETick p e') elected)) ∧
    (∀ index snap, is_Some (step 100 (ESnapshot p index snap) elected)) ∧
    ∀ e', is_Some (step 100 (ECrash p e') elected).
Proof.
  apply (node_never_panics 100 3 boot_time DefaultConfig empty empty_blank default_cfg elected).
  apply elected_reach.
Defined.

(** Node 1 has both commands when it restarts. *)
Definition follower1 : ND.Node Z unit store := default leader0 (nodes (after 100 two_commands) !! 1).

Lemma restart_witness :
  RL.size (log follower1) = 3 ∧
  ∃ n', NewNode boot_time (Some (config follower1)) (peerCount follower1) (me follower1)
          (storage follower1) = Some n' ∧
    currentTerm n' = currentTerm follower1 ∧ votedFor n' = votedFor follower1 ∧
    RL.snapLastIdx (log n') = RL.snapLastIdx (log follower1) ∧
    RL.snapshot (log n') = RL.snapshot (log follower1) ∧
    commitIndex n' = RL.snapLastIdx (log follower1) ∧ lastApplied n' = RL.snapLastIdx (log follower1) ∧
    ∀ i, RL.snapLastIdx (log follower1) < i → RL.at_ (log n') i = None.
Proof.
  split; [vm_compute; reflexivity|].
  apply (node_restart_forgets_log 100 3 boot_time DefaultConfig empty empty_blank default_cfg
           (after 100 two_commands) 1 follower1).
  - apply reached. eexists. vm_compute. reflexivity.
  - vm_compute. reflexivity.
Defined.

(** No [HandleInstallSnapshot] runs, and no request is converted. *)
Definition no_install (ev : event Z unit) (s : network) : bool :=
  match ev with
  | EConvert _ _ => false
  | ERun k _ => match tasks s !! k with Some (TInsReq _ _ _ _ _) => false | _ => true end
  | _ => true
  end.

Fixpoint quiet_run (cap : Z) (evs : list (event Z unit)) (s : network) : option network :=
  match evs with
  | [] => Some s
  | ev :: evs => if no_install ev s then s ← step cap ev s; quiet_run cap evs s else None
  end.

Lemma quiet_node_run cap evs s s' : quiet_run cap evs s = Some s' → rtc (node_benign_next cap) s s'.
Proof.
  revert s. induction evs as [|ev evs IH]; intros s E; simpl in E; [by simplify_eq|].
  destruct (no_install ev s) eqn:Hn; [|done]. apply bind_Some in E as (s1 & E1 & E).
  eapply rtc_l; [|by apply IH]. exists ev. split; [done|].
  split; [|by intros k es p t q req o ->].
  intros k e p t q req o n -> Hk _. simpl in Hn. by rewrite Hk in Hn.
Qed.

(** Node 2 restarts after the two commands. *)
Definition restarted : network := after 100 (two_commands ++ [ECrash 2 env]).
Definition node_at (p : Z) : ND.Node Z unit store := default leader0 (nodes restarted !! p).

Lemma node_log_matching_witness :
  RL.termAt (log (node_at 0)) 2 = Some 2 ∧ RL.termAt (log (node_at 1)) 2 = Some 2 ∧
  RL.at_ (log (node_at 0)) 1 = RL.at_ (log (node_at 1)) 1.
Proof.
  destruct (node_log_matching 100 3 boot_time DefaultConfig empty empty_blank default_cfg
    restarted 0 1 (node_at 0) (node_at 1)) as (HM & _ & _).
  - apply (quiet_node_run 100 (two_commands ++ [ECrash 2 env])). vm_compute. reflexivity.
  - vm_compute. reflexivity.
  - vm_compute. reflexivity.
  - split; [vm_compute; reflexivity|]. split; [vm_compute; reflexivity|].
    apply (HM 2 2); vm_compute; done.
Defined.

(** ** A committed command is lost *)

(** The service of node 0 gets both commands; nodes 0 and 1 restart; node 1 is
    elected by node 0 and commits another command. *)
Definition lost_commit : list (event Z unit) :=
  two_commands ++
  [EApply 0; ERun 5 env; ERun 5 env; ERun 5 env; ERecv 0; ERecv 0; ECrash 0 env; ECrash 1 env;
   ETick 1 later; ERun 4 later; ERun 4 later; ERun 5 later; ERun 5 later; ERun 5 later;
   EStart 1 (Some 99); ERun 5 later; ERun 5 later; ERun 5 later; ERun 7 later;
   EApply 1; ERun 7 later; ERecv 1].

(** State Machine Safety fails across restarts. There is a run without lost
    messages in which a majority restarts and then the services of two nodes have
    received different commands for the same log index: the restarted nodes came
    back with empty logs, and elected each other. *)
Theorem restarts_break_state_machine_safety :
  ∃ (s : network) m0 m1, rtc (next 100) booted s ∧
    m0 ∈ default [] (received s !! 0) ∧ m1 ∈ default [] (received s !! 1) ∧
    am_CommandValid m0 = true ∧ am_CommandValid m1 = true ∧
    am_CommandIndex m0 = am_CommandIndex m1 ∧ am_Command m0 ≠ am_Command m1.
Proof.
  exists (after 100 lost_commit), (mkApplyMsg true (Some 10) 1 false [] 0 0),
    (mkApplyMsg true (Some 99) 1 false [] 0 0).
  split; [apply reached; eexists; vm_compute; reflexivity|].
  split_and!; [| |reflexivity..|discriminate].
  - vm_compute. apply list_elem_of_here.
  - vm_compute. apply list_elem_of_here.
Qed.

(** ** A stale request makes the application ticker panic *)

(** Node 1 learns that both commands are committed, then receives the delayed
    request of the first round. *)
Definition stale_append : list (event Z unit) :=
  two_commands ++ [ERun 4 env; ERun 4 env; ERun 4 env; ERun 1 env].

(** the one goroutine that can panic. In a reachable state the application
    ticker of a node is about to run, and panics: a delayed [AppendEntries] has
    cut the log below the commit index, and [applicationTicker] reads the entries
    up to the commit index without looking at the log's size. *)
Theorem stale_append_panics_applier :
  ∃ (s : network) n, rtc (next 100) booted s ∧ nodes s !! 1 = Some n ∧
    killed n = false ∧ app_ready n = true ∧ applyCond n ≠ CWaiting ∧
    RL.size (log n) ≤ commitIndex n ∧ app_round n = None.
Proof.
  exists (after 100 stale_append), (default leader0 (nodes (after 100 stale_append) !! 1)).
  split; [apply reached; eexists; vm_compute; reflexivity|].
  split_and!; try (vm_compute; reflexivity); vm_compute; discriminate.
Qed.

(** ** A full channel *)

(** With room for one message, node 0 sends both commands before the service
    looks at its channel. *)
Definition full_channel : list (event Z unit) :=
  two_commands ++ [EApply 0; ERun 5 env; ERun 5 env; ERun 5 env; ERecv 0].

(** [applicationTicker] drops committed commands. With an [applyCh] of
    capacity one there is a reachable state in which node 0 counts command 2 as
    applied and has nothing left to send, and its service has received command 1
    only. *)
Theorem full_channel_drops_command :
  ∃ (s : network) n, rtc (next 1) booted s ∧ nodes s !! 0 = Some n ∧
    lastApplied n = 2 ∧ (∀ tk, tk ∈ tasks s → NN.sending 0 tk = false) ∧ chan s 0 = [] ∧
    (am_CommandIndex <$> default [] (received s !! 0)) = [1].
Proof.
  exists (after 1 full_channel), (default leader0 (nodes (after 1 full_channel) !! 0)).
  split; [apply reached; eexists; vm_compute; reflexivity|].
  split_and!; try (vm_compute; reflexivity).
  apply list.Forall_forall. vm_compute. repeat constructor.
Qed.

End NodeRuns.

(** ** Configurations that make [NewNode] panic *)

Section configurations.
Context {Cmd SB T : Type} {RS : ST.RaftStorage T (list (rgob Cmd)) (list SB)}.
Implicit Types (n : ND.Node Cmd SB T).

Lemma load_config n : config (loadFromStorage n) = config n.
Proof.
  unfold loadFromStorage. set (n1 := match ST.LoadRaftState (storage n) with inl _ => _ | inr _ => _ end).
  assert (config n1 = config n) as <-.
  { unfold n1. destruct (ST.LoadRaftState (storage n)) as [st|]; [|done]. case_decide; [|done].
    by destruct (deserialize_frame (ST.rs_Log st)
      (set_votedFor (ST.rs_VotedFor st) (set_currentTerm (ST.rs_CurrentTerm st) n))) as [l ->]. }
  clearbody n1. destruct (ST.LoadSnapshot (storage n1)); [|done]. by case_match.
Qed.

(** [Validate] is too weak. [NewNode] panics (in [rand.Int63n]) exactly for
    the configurations whose minimum is at least the default maximum of 400 ms and
    whose maximum does not exceed the minimum: [Validate] replaces the maximum by
    the default, which is then not above the minimum. *)
Theorem NewNode_panics_iff e (c : Config) k p (st : T) :
  NewNode (Cmd:=Cmd) (SB:=SB) e (Some c) k p st = None ↔
  DefaultElectionTimeoutMax ≤ ElectionTimeoutMin c ∧ ElectionTimeoutMax c ≤ ElectionTimeoutMin c.
Proof.
  unfold NewNode. simpl default. set (n0 := mkNode _ _ _ _ _ _ _ _ _ _ _ _ _ _ _ _ _).
  unfold resetElectionTimerLocked, Int63n. rewrite load_config. simpl.
  assert (0 < DefaultElectionTimeoutMin < DefaultElectionTimeoutMax)
    by (unfold DefaultElectionTimeoutMin, DefaultElectionTimeoutMax, millisecond; lia).
  destruct (Z.leb_spec (ElectionTimeoutMin c) 0);
    match goal with |- context [if ?a <=? ?b then _ else _] => destruct (Z.leb_spec a b) end;
    case_decide; simpl; (split; [try done; lia|try done; lia]).
Qed.
End configurations.
