(* ===== verification/NodeApply.v ===== *)
(** The application ticker of [node.go]: what one round hands to the service, and
    that the ticker is never asleep while there is something to apply.

    [nap] is what a step may do behind the ticker's back; [wakes] says that every
    step of the network is one. *)

From S2P Require Import Prelude Gob RaftLog Raft Voting Ballot Storage Transport Node NodeFacts NodeSteps NodeNet NodeElection NodeTraces.
Import ND NN.

#[local] Open Scope Z_scope.

Section apply.
Context {Cmd SB T : Type} {RS : ST.RaftStorage T (list (rgob Cmd)) (list SB)}.
Abbreviation Node := (ND.Node Cmd SB T).
Abbreviation net := (NN.net Cmd SB T).
Implicit Types (n : Node) (s : net) (e : Env) (t p q : Z).

(** ** What the ticker looks at *)

Definition view n : Cond * Z * bool * Z := (applyCond n, commitIndex n, snapPending n, lastApplied n).

(** Nothing changed for the ticker, or it is not asleep. *)
Definition nap n n' : Prop := view n' = view n ∨ applyCond n' ≠ CWaiting.

Definition awake n : Prop := applyCond n = CWaiting → app_ready n = false.

Lemma nap_refl n : nap n n.
Proof. by left. Qed.

Lemma nap_trans n1 n2 n3 : nap n1 n2 → nap n2 n3 → nap n1 n3.
Proof.
  unfold nap, view. intros [E1|H1] [E2|H2]; [left; congruence|by right| |by right].
  right. injection E2 as -> _ _ _. done.
Qed.

Lemma awake_nap n n' : awake n → nap n n' → awake n'.
Proof.
  intros Ha [E|H] Hw; [|done]. injection E as E1 E2 E3 E4. unfold app_ready. rewrite E2, E3, E4.
  apply Ha. congruence.
Qed.

(** A signal wakes it. *)
Lemma nap_signal n n' : nap n (signalApply n').
Proof. right. simpl. by destruct (applyCond n'). Qed.

Lemma view_persist n : view (persistLocked n) = view n.
Proof. by rewrite persist_eq. Qed.

Lemma view_follower t n : view (becomeFollowerLocked t n) = view n.
Proof. unfold becomeFollowerLocked. repeat case_match; rewrite ?view_persist; done. Qed.

Lemma nap_follower t n : nap n (becomeFollowerLocked t n).
Proof. left. apply view_follower. Qed.

Lemma nap_reset e n n' : resetElectionTimerLocked e n = Some n' → nap n n'.
Proof. unfold resetElectionTimerLocked. rewrite bind_Some. intros (r & _ & [= <-]). by left. Qed.

Lemma nap_log l n : nap n (persistLocked (set_log l n)).
Proof. left. by rewrite view_persist. Qed.

(** A loop over the peers that moves indices only. *)
Lemma nap_loop {X} (k : Z) (body : Z → Node * X → option (Node * X)) n x n' x' :
  (∀ i n1 x1 n2 x2, body i (n1, x1) = Some (n2, x2) → view n2 = view n1) →
  for_range k body (n, x) = Some (n', x') → view n' = view n.
Proof.
  intros Hb E. apply (for_range_post k body (λ _ r, view r.1 = view n) (n, x) (n', x') E); [done|].
  intros i [n1 x1] [n2 x2] _ H1 H2%Hb. simpl in *. congruence.
Qed.

(** ** The steps of one node *)

Lemma nap_vote e req n n' resp : HandleRequestVote e req n = Some (n', resp) → nap n n'.
Proof.
  unfold HandleRequestVote. case_match; [intros [= <- _]; apply nap_refl|].
  set (x := if currentTerm n <? _ then _ else _). assert (nap n x.1) as Hx.
  { unfold x. case_match; [apply nap_follower|apply nap_refl]. }
  destruct x as [n1 r]. simpl in Hx. repeat case_match; try (intros [= <- _]; exact Hx).
  rewrite bind_Some. intros (n2 & E & [= <- _]). eapply nap_trans; [exact Hx|].
  eapply nap_trans; [|by eapply nap_reset]. left. by rewrite view_persist.
Qed.

Lemma nap_append e req n n' resp : HandleAppendEntries e req n = Some (n', resp) → nap n n'.
Proof.
  unfold HandleAppendEntries. case_match; [intros [= <- _]; apply nap_refl|].
  set (n1 := if currentTerm n <=? _ then _ else n).
  assert (nap n n1) as H1 by (unfold n1; case_match; [apply nap_follower|apply nap_refl]).
  clearbody n1. rewrite bind_Some. intros ([n2 r] & E & E2).
  apply bind_Some in E2 as (n3 & E3 & [= <- _]). apply nap_reset in E3.
  eapply nap_trans; [exact H1|]. eapply nap_trans; [|exact E3]. clear E3.
  destruct (RL.size (log n1) <=? _); [simplify_eq; apply nap_refl|].
  destruct (TR.aeq_PrevLogIndex req <? _); [simplify_eq; apply nap_refl|].
  apply bind_Some in E as (prev & _ & E). destruct (negb _) in E; [simplify_eq; apply nap_refl|].
  apply bind_Some in E as (l & _ & E). cbv zeta in E.
  destruct (_ <? TR.aeq_LeaderCommit req); [|injection E as <- _; apply nap_log].
  destruct (RL.last _) as [li lt]. injection E as <- _. apply nap_signal.
Qed.

Lemma nap_install e req n n' resp : HandleInstallSnapshot e req n = Some (n', resp) → nap n n'.
Proof.
  unfold HandleInstallSnapshot. case_match; [intros [= <- _]; apply nap_refl|].
  set (n1 := if currentTerm n <=? _ then _ else n).
  assert (nap n n1) as H1 by (unfold n1; case_match; [apply nap_follower|apply nap_refl]).
  clearbody n1. rewrite bind_Some. intros (n2 & E & E2).
  apply bind_Some in E2 as (n3 & E3 & [= <- _]). apply nap_reset in E3.
  eapply nap_trans; [exact H1|]. eapply nap_trans; [|exact E3]. clear E3.
  destruct (_ <=? _); [simplify_eq; apply nap_refl|].
  apply bind_Some in E as (l & _ & E). cbv zeta in E. injection E as <-. apply nap_signal.
Qed.

Lemma nap_tick e n n' ot : electionTicker e n = Some (n', ot) → nap n n'.
Proof.
  unfold electionTicker. case_match; [|intros [= <- _]; apply nap_refl].
  rewrite bind_Some. intros (n1 & E & [= <- _]). unfold becomeCandidateLocked in E.
  case_decide; [simplify_eq; apply nap_refl|]. apply bind_Some in E as (n2 & E2 & [= <-]).
  apply nap_reset in E2. eapply nap_trans; [exact E2|]. left. apply view_persist.
Qed.

Lemma nap_elect e t n n' oc : startElection e t n = Some (n', oc) → nap n n'.
Proof.
  unfold startElection. case_match; [intros [= <- _]; apply nap_refl|].
  destruct (RL.last (log n)). rewrite bind_Some. intros (n1 & E & [= <- _]). by eapply nap_reset.
Qed.

Lemma nap_check t resp n n' g : vote_check t resp n = (n', g) → nap n n'.
Proof.
  unfold vote_check. repeat case_match; intros [= <- _]; auto using nap_follower, nap_refl.
Qed.

Lemma nap_won t n n' g : vote_won t n = Some (n', g) → nap n n'.
Proof.
  unfold vote_won. case_match; [|intros [= <- _]; apply nap_refl].
  rewrite bind_Some. intros (n1 & E & [= <- _]). unfold becomeLeaderLocked in E.
  case_decide; [simplify_eq; apply nap_refl|]. left.
  apply (for_range_post _ _ (λ _ r, view r = view n) _ _ E); [done|].
  intros i n2 n3 _ H2 H3. apply bind_Some in H3 as (ni & _ & H3).
  apply bind_Some in H3 as (mi & _ & [= <-]). exact H2.
Qed.

Lemma nap_replicate t n n' calls : startReplication t n = Some (n', calls) → nap n n'.
Proof.
  unfold startReplication. case_match; [intros [= <- _]; apply nap_refl|].
  intros E. left. eapply nap_loop; [|exact E]. intros i n1 x1 n2 x2 E2.
  cbn beta iota in E2. destruct (i =? me n1).
  - apply bind_Some in E2 as (mi & _ & E2). apply bind_Some in E2 as (ni & _ & [= <- _]). done.
  - apply bind_Some in E2 as (nx & _ & E2). cbv zeta in E2.
    destruct (nx - 1 <? _); [by injection E2 as <- _|].
    apply bind_Some in E2 as (pv & _ & E2). by apply bind_Some in E2 as (es & _ & [= <- _]).
Qed.

Lemma nap_update_commit n n' : updateCommitIndexLocked n = Some n' → nap n n'.
Proof.
  unfold updateCommitIndexLocked. rewrite bind_Some. intros (l & _ & E).
  apply bind_Some in E as (m & _ & E).
  repeat (case_match; simplify_option_eq; try apply nap_refl; try apply nap_signal).
Qed.

Lemma nap_append_reply q t req resp n n' : sendAppendEntries q t req resp n = Some n' → nap n n'.
Proof.
  unfold sendAppendEntries. case_match; [intros [= <-]; apply nap_follower|].
  case_match; [intros [= <-]; apply nap_refl|]. case_match.
  - intros E. repeat (apply bind_Some in E as (? & _ & E)). injection E as <-. by left.
  - intros E. do 3 apply bind_Some in E as (? & _ & E). eapply nap_trans; [|by apply nap_update_commit].
    by left.
Qed.

Lemma nap_install_reply q t resp n n' : sendInstallSnapshot q t resp n = Some n' → nap n n'.
Proof.
  unfold sendInstallSnapshot. case_match; [intros [= <-]; apply nap_follower|].
  case_match; [intros [= <-]; apply nap_refl|].
  intros E. repeat (apply bind_Some in E as (? & _ & E)). injection E as <-. by left.
Qed.

Lemma nap_start cmd n : nap n (Start cmd n).1.
Proof. unfold Start. case_decide; [apply nap_refl|apply nap_log]. Qed.

Lemma nap_snapshot index snap n n' : Snapshot index snap n = Some n' → nap n n'.
Proof.
  unfold Snapshot. case_match; [intros [= <-]; apply nap_refl|].
  case_match; [intros [= <-]; apply nap_refl|]. rewrite bind_Some. intros (l & _ & [= <-]). apply nap_log.
Qed.

(** A round leaves the ticker running, and so does a restart. *)
Lemma round_idle n n' msgs : app_round n = Some (n', msgs) → applyCond n' = CIdle.
Proof.
  unfold app_round. cbn [snapPending set_applyCond]. destruct (snapPending n); by intros [v ->]%app_loop_frame.
Qed.

Lemma restart_idle e c k p (st : T) n : NewNode e c k p st = Some n → applyCond n = CIdle.
Proof.
  unfold NewNode. set (n0 := mkNode _ _ _ _ _ _ _ _ _ _ _ _ _ _ _ _ _).
  intros E. assert (applyCond (loadFromStorage n0) = CIdle) as <-.
  { unfold loadFromStorage. set (n1 := match ST.LoadRaftState (storage n0) with inl _ => _ | inr _ => _ end).
    assert (applyCond n1 = CIdle) as <-.
    { unfold n1. destruct (ST.LoadRaftState (storage n0)) as [sta|]; [|done]. case_decide; [|done].
      by destruct (deserialize_frame (ST.rs_Log sta)
        (set_votedFor (ST.rs_VotedFor sta) (set_currentTerm (ST.rs_CurrentTerm sta) n0))) as [l ->]. }
    clearbody n1. destruct (ST.LoadSnapshot (storage n1)); [|done]. by case_match. }
  unfold resetElectionTimerLocked in E. by apply bind_Some in E as (r & _ & [= <-]).
Qed.

(** ** The network *)

Context (cap : Z).

Lemma insert_nap s p n n' :
  nodes s !! p = Some n → nap n n' →
  ∀ q m, <[p := n']> (nodes s) !! q = Some m →
    (∃ m0, nodes s !! q = Some m0 ∧ nap m0 m) ∨ awake m.
Proof.
  intros Hp Hn q m [[<- <-]|[_ ?]]%lookup_insert_Some; left; eauto using nap_refl.
Qed.

Lemma insert_awake s p n' :
  awake n' → ∀ q m, <[p := n']> (nodes s) !! q = Some m →
    (∃ m0, nodes s !! q = Some m0 ∧ nap m0 m) ∨ awake m.
Proof.
  intros Hn q m [[<- <-]|[_ ?]]%lookup_insert_Some; [by right|left]. eauto using nap_refl.
Qed.

Lemma task_nap e tk s s' :
  run_task cap e tk s = Some s' →
  ∀ q m, nodes s' !! q = Some m → (∃ m0, nodes s !! q = Some m0 ∧ nap m0 m) ∨ awake m.
Proof.
  assert (∀ q m, nodes s !! q = Some m → (∃ m0, nodes s !! q = Some m0 ∧ nap m0 m) ∨ awake m) as Hid
    by (left; eauto using nap_refl).
  intros E. destruct tk as [p t|p t q req o|p t q resp|p t q|p t|p t|p t|p t q req o|p t q req resp
                 |p t q req o|p t q resp|p [|msg msgs]]; simpl in E;
    [..|by simplify_eq|by simplify_eq]; apply bind_Some in E as (n & Hp & E).
  - apply bind_Some in E as ([n' oc] & Es & E). apply nap_elect in Es.
    destruct oc; simplify_eq; by eapply insert_nap.
  - apply bind_Some in E as ([n' resp] & Es & E). apply nap_vote in Es. simplify_eq. by eapply insert_nap.
  - destruct (vote_check t resp n) as [n' g] eqn:Es. apply nap_check in Es. simplify_eq.
    by eapply insert_nap.
  - apply bind_Some in E as (v & _ & E). by simplify_eq.
  - apply bind_Some in E as ([n' g] & Es & E). apply nap_won in Es. simplify_eq. by eapply insert_nap.
  - destruct (replicationTicker t n); by simplify_eq.
  - apply bind_Some in E as ([n' cs] & Es & E). apply nap_replicate in Es. simplify_eq.
    by eapply insert_nap.
  - apply bind_Some in E as ([n' resp] & Es & E). apply nap_append in Es. simplify_eq. by eapply insert_nap.
  - apply bind_Some in E as (n' & Es & E). apply nap_append_reply in Es. simplify_eq. by eapply insert_nap.
  - apply bind_Some in E as ([n' resp] & Es & E). apply nap_install in Es. simplify_eq. by eapply insert_nap.
  - apply bind_Some in E as (n' & Es & E). apply nap_install_reply in Es. simplify_eq. by eapply insert_nap.
Qed.

Lemma step_nap ev s s' :
  step cap ev s = Some s' →
  ∀ q m, nodes s' !! q = Some m → (∃ m0, nodes s !! q = Some m0 ∧ nap m0 m) ∨ awake m.
Proof.
  intros E. destruct ev as [p e|k e|k|k es|p cmd|p i snap|p|p|p|p|p e]; simpl in E;
    [..|destruct (chan s p); simplify_eq; left; eauto using nap_refl| |];
    apply bind_Some in E as (n & Hp & E).
  - destruct (killed n); [done|]. apply bind_Some in E as ([n' ot] & Es & E). apply nap_tick in Es.
    simplify_eq. by eapply insert_nap.
  - exact (task_nap _ _ _ _ E).
  - destruct (lossy n); simplify_eq. left. eauto using nap_refl.
  - apply bind_Some in E as (tk & _ & E). simplify_eq. left. eauto using nap_refl.
  - simplify_eq. eapply insert_nap; [done|apply nap_start].
  - apply bind_Some in E as (n' & Es & E). apply nap_snapshot in Es. simplify_eq. by eapply insert_nap.
  - destruct (_ || _ || _) eqn:Er; simplify_eq. apply insert_awake. intros _.
    apply orb_false_iff in Er as [[_ ?]%orb_false_iff _]. done.
  - destruct (_ || _ || _ || _); simplify_eq. apply bind_Some in E as ([n' msgs] & Es & E).
    apply round_idle in Es. simplify_eq. apply insert_awake. intros ?. congruence.
  - simplify_eq. eapply insert_nap; [done|apply nap_signal].
  - apply bind_Some in E as (n' & Es & E). apply restart_idle in Es. simplify_eq.
    apply insert_awake. intros ?. congruence.
Qed.

Lemma init_idle e c (st : T) k p n : nodes (init e c st k) !! p = Some n → applyCond n = CIdle.
Proof.
  simpl. intros H%elem_of_list_to_map_2. apply list_elem_of_omap in H as (q & _ & E).
  destruct (NewNode e (Some c) k q st) eqn:En; [|done]. simplify_eq/=. by eapply restart_idle.
Qed.

(** C17: no lost wake-up. In every reachable state, a node whose application
    ticker waits on [applyCond] has nothing to apply: whenever the commit index
    passes [lastApplied] or a snapshot becomes pending, the ticker is running or
    has been woken. *)
Theorem applier_never_sleeps_on_work e c (st : T) k s p n :
  rtc (next cap) (init e c st k) s → nodes s !! p = Some n →
  app_ready n = true → applyCond n ≠ CWaiting.
Proof.
  intros H. assert (∀ q m, nodes s !! q = Some m → awake m) as Ha.
  { apply rtc_ind_r with (P := λ s, ∀ q m, nodes s !! q = Some m → awake m) in H; [done|..].
    - intros q m Hq%init_idle Hw. congruence.
    - intros s1 s2 _ [ev E] IH q m Hm.
      destruct (step_nap ev s1 s2 E q m Hm) as [(m0 & H0 & Hn)|?]; [|done].
      eapply awake_nap; [by eapply IH|done]. }
  intros Hp Hr Hw. rewrite (Ha p n Hp Hw) in Hr. done.
Qed.

(** one round of the application ticker. When the log reaches from the
    snapshot past the commit index, the round does not panic, and its messages
    are the pending snapshot, if there is one, followed by the commands at the
    consecutive indices up to the commit index; [lastApplied] is then the commit
    index. *)
Theorem node_round_spec n :
  let from := if snapPending n then RL.snapLastIdx (log n) else lastApplied n in
  RL.snapLastIdx (log n) ≤ from ≤ commitIndex n → commitIndex n < RL.size (log n) →
  ∃ n' msgs, app_round n =
      Some (n', (if snapPending n
                 then [mkApplyMsg false None 0 true (RL.snapshot (log n)) (RL.snapLastTerm (log n))
                         (RL.snapLastIdx (log n))]
                 else []) ++ msgs) ∧
    lastApplied n' = commitIndex n ∧ snapPending n' = false ∧
    len msgs = commitIndex n - from ∧
    ∀ (i : nat) m, msgs !! i = Some m →
      am_CommandValid m = true ∧ am_CommandIndex m = from + 1 + Z.of_nat i ∧
      ∃ en, RL.at_ (log n) (from + 1 + Z.of_nat i) = Some en ∧ am_Command m = le_Command en.
Proof.
  intros from Hf Hc. unfold app_round. cbn [snapPending set_applyCond].
  set (x := if snapPending n then _ else _). set (hd := if snapPending n then [_] else []).
  assert (∃ n1, x = (n1, hd) ∧ lastApplied n1 = from ∧ commitIndex n1 = commitIndex n ∧
    log n1 = log n ∧ snapPending n1 = false) as (n1 & -> & Ha & Hk & Hl & Hs).
  { unfold x, hd, from. destruct (snapPending n) eqn:Es; by eexists. }
  destruct (app_loop_spec (Z.to_nat (commitIndex n1 - lastApplied n1)) n1 hd) as (es & -> & Hlen & Hes);
    [lia|rewrite Hl; lia|rewrite Hl; lia|].
  eexists _, _. split; [done|]. simpl. rewrite Hk. split_and!; [done|done|..].
  - unfold len. rewrite length_imap. lia.
  - intros i m Hm. rewrite list_lookup_imap in Hm. apply fmap_Some in Hm as (en & Hen & ->).
    split_and!; [done|simpl; lia|]. exists en. split; [|done]. rewrite <-(Hes i en Hen), Hl, Ha. done.
Qed.
End apply.

(** ** A leader that has two commands to apply *)

Module ApplyRun.
Import Cell.

Definition committed : ND.Node Z unit (@Cell.cell (list (rgob Z)) (list unit)) :=
  mkNode 3 Cell.empty DefaultConfig 0 0 Leader 2 0
    (RL.NewLog 0 0 [] [mkEntry 2 true (Some 10); mkEntry 2 true (Some 20)]) [3; 3; 1] [2; 2; 0]
    2 0 false CIdle 0 0.

Lemma round_witness :
  let from := if snapPending committed then RL.snapLastIdx (log committed) else lastApplied committed in
  ∃ n' msgs, app_round committed =
      Some (n', (if snapPending committed
                 then [mkApplyMsg false None 0 true (RL.snapshot (log committed))
                         (RL.snapLastTerm (log committed)) (RL.snapLastIdx (log committed))]
                 else []) ++ msgs) ∧
    lastApplied n' = commitIndex committed ∧ snapPending n' = false ∧
    len msgs = commitIndex committed - from ∧
    ∀ (i : nat) m, msgs !! i = Some m →
      am_CommandValid m = true ∧ am_CommandIndex m = from + 1 + Z.of_nat i ∧
      ∃ en, RL.at_ (log committed) (from + 1 + Z.of_nat i) = Some en ∧ am_Command m = le_Command en.
Proof.
  apply (node_round_spec committed).
  - simpl. lia.
  - vm_compute. reflexivity.
Defined.

(** The ticker of node 0 goes to sleep, and then both commands are committed. *)
Definition slept : list (event Z unit) := EWait 0 :: NodeRuns.two_commands.

Lemma sleeps_witness :
  let n := default committed (nodes (NodeRuns.after 100 slept) !! 0) in
  commitIndex n = 2 ∧ lastApplied n = 0 ∧ applyCond n ≠ CWaiting.
Proof.
  split; [vm_compute; reflexivity|]. split; [vm_compute; reflexivity|].
  apply (applier_never_sleeps_on_work 100 NodeRuns.boot_time DefaultConfig Cell.empty 3
           (NodeRuns.after 100 slept) 0).
  - apply NodeRuns.reached. eexists. vm_compute. reflexivity.
  - vm_compute. reflexivity.
  - vm_compute. reflexivity.
Defined.

End ApplyRun.
