(* ===== verification/ExampleProgram.v ===== *)
(** The example program [src/src/raft/example/main.go]: one node of a cluster of three
    on Badger and gRPC, which proposes a command every two seconds while it leads.

    [boot] is [main] up to its loop, [main_step] one round of the loop, [applied_line]
    what the goroutine that reads [applyCh] prints.  What the command line, the network
    and the opening of the database answer are arguments.  The directories of the machine
    are a map; a database opens with what its directory holds, and a directory that does
    not exist opens as the argument [empty], a database without records. *)

From stdpp Require Import strings pretty.
From Stdlib Require Import Strings.Byte Ascii.
From S2P Require Import Prelude Gob RaftLog Raft Storage Transport Node NodeNet.
Import ND.

#[local] Open Scope Z_scope.

Module EX.
Section example.
Context {SB T : Type} {RS : ST.RaftStorage T (list (rgob TR.Value)) (list SB)} (empty : T).
Abbreviation Node := (ND.Node TR.Value SB T).

(** [fmt.Sscanf] sets [peerID] only when it can read a number. *)
Definition peerID (arg : option (option Z)) : Z :=
  match arg with Some (Some k) => k | _ => 0 end.

Definition peers : list string := ["127.0.0.1:50051"; "127.0.0.1:50052"; "127.0.0.1:50053"]%string.

Definition dataDir (id : Z) : string := String.append "/tmp/raft-node-" (pretty id).

(** A running program, and the directories of the machine. *)
Record proc := mkProc {
  p_id : Z;
  p_node : Node;
  p_transport : TR.GrpcTransport;
  p_dials : list Z
}.
Definition disk : Type := gmap string T.

(** [os.RemoveAll] *)
Definition RemoveAll (dir : string) (d : disk) : disk := delete dir d.

(** [raft.NewBadgerRaftStorage] on a directory that can be opened: [badger.Open] creates
    the directory when it does not exist. *)
Definition NewBadgerRaftStorage (dir : string) (d : disk) : disk * T :=
  let storage := default empty (d !! dir) in (<[dir := storage]> d, storage).

(** [main] up to its loop: the program, or the message of [log.Fatalf]; [None] is a
    panic. *)
Definition boot (e : Env) (arg : option (option Z)) (open_ok listen_ok : bool) (d : disk)
    : option (disk * (string + proc)) :=
  let id := peerID arg in
  let d := RemoveAll (dataDir id) d in
  if negb open_ok then Some (d, inl "Failed to create storage: "%string)
  else
    let '(d, storage) := NewBadgerRaftStorage (dataDir id) d in
    addr ← slice_get peers id;
    let transport := TR.NewGrpcTransport (TR.mkTConfig peers id addr) in
    let config := DefaultConfig in
    node ← NewNode e (Some config) (TR.grpc_GetPeerCount transport) (TR.grpc_GetPeerID transport) storage;
    let transport := TR.grpc_RegisterHandler 0 transport in
    match TR.grpc_Start listen_ok transport with
    | None => Some (d, inl "Failed to start transport: "%string)
    | Some dials => Some (d, inr (mkProc id node transport dials))
    end.

(** The program ends, or is killed: what the node saved is in its directory. *)
Definition leave (p : proc) (d : disk) : disk := <[dataDir (p_id p) := storage (p_node p)]> d.

(** [%v] of a command; [other] prints the types the program does not use. *)
Fixpoint join (l : list string) : string :=
  match l with
  | [] => ""
  | [x] => x
  | x :: l => String.append x (String.append " " (join l))
  end.

Definition print_v (other : Z → string) (cmd : option TR.Value) : string :=
  match cmd with
  | None => "<nil>"
  | Some (TR.VString s) => s
  | Some (TR.VBytes b) => String.append "[" (String.append (join ((λ x, pretty (Byte.to_N x)) <$> b)) "]")
  | Some (TR.VOther c) => other c
  end.

Definition tag (id : Z) : string := String.append "[Node " (String.append (pretty id) "] ").

(** What is printed for a message from [applyCh]. *)
Definition applied_line (other : Z → string) (id : Z) (msg : ApplyMsg TR.Value SB) : option string :=
  if am_CommandValid msg then
    Some (String.append (tag id) (String.append "Applied command at index "
           (String.append (pretty (am_CommandIndex msg)) (String.append ": " (print_v other (am_Command msg))))))
  else if am_SnapshotValid msg then
    Some (String.append (tag id) (String.append "Applied snapshot at index " (pretty (am_SnapshotIndex msg))))
  else None.

Definition command (id : Z) : TR.Value := TR.VString (String.append "command-from-node-" (pretty id)).

(** What the [select] of the loop receives. *)
Inductive input := ISignal | ITick.

Definition set_pnode (n : Node) (p : proc) : proc := mkProc (p_id p) n (p_transport p) (p_dials p).

(** One round of the loop: the program, the lines it prints, and whether it goes on. *)
Definition main_step (i : input) (p : proc) : proc * list string * bool :=
  match i with
  | ISignal =>
      (mkProc (p_id p) (Stop (p_node p)) (TR.grpc_Stop (p_transport p)) (p_dials p),
       [String.append (tag (p_id p)) "Shutting down..."], false)
  | ITick =>
      let '(term, isLeader) := GetState (p_node p) in
      if isLeader then
        let '(n, (index, term, ok)) := Start (Some (command (p_id p))) (p_node p) in
        (set_pnode n p,
         if ok then [String.append (tag (p_id p)) (String.append "Leader proposed command at index "
                       (String.append (pretty index) (String.append ", term " (pretty term))))] else [], true)
      else
        (p, [String.append (tag (p_id p)) (String.append "Follower in term " (pretty term))], true)
  end.

(** ** What it does *)

Context (Hstate : ∃ err, ST.LoadRaftState empty = inr err) (Hsnap : ∃ err, ST.LoadSnapshot empty = inr err).

Lemma removed_lookup dir (d : disk) : RemoveAll dir d !! dir = None.
Proof. apply lookup_delete_eq. Qed.

(** The node a start gives. *)
Lemma example_boots e arg d :
  0 ≤ peerID arg < 3 →
  ∃ p, boot e arg true true d = Some (<[dataDir (peerID arg) := empty]> (delete (dataDir (peerID arg)) d), inr p) ∧
    p_id p = peerID arg ∧ currentTerm (p_node p) = 1 ∧ votedFor (p_node p) = -1 ∧ role (p_node p) = Follower ∧
    log (p_node p) = RL.NewLog InvalidIndex InvalidTerm [] [] ∧ config (p_node p) = DefaultConfig.
Proof.
  intros Hid. unfold boot, NewBadgerRaftStorage. cbn [negb]. cbv zeta.
  rewrite removed_lookup. cbn [default]. destruct (proj2 (slice_get_is_Some peers (peerID arg))) as [addr Ha]; [done|].
  rewrite Ha. cbn [mbind option_bind]. destruct Hstate as [err1 E1], Hsnap as [err2 E2].
  unfold NewNode, loadFromStorage. cbn [storage]. rewrite E1. cbn [storage]. rewrite E2.
  unfold resetElectionTimerLocked, Int63n. cbn. eexists. split; [reflexivity|]. done.
Qed.

(** A node with an empty log that has not voted grants any request of a term. *)
Lemma fresh_grants (e : Env) (req : TR.RequestVoteRequest) (n : Node) :
  currentTerm n = 1 → votedFor n = -1 → log n = RL.NewLog InvalidIndex InvalidTerm [] [] → config n = DefaultConfig →
  1 ≤ TR.rvq_Term req → 0 ≤ TR.rvq_LastLogIndex req → 0 ≤ TR.rvq_LastLogTerm req →
  ∃ n' r, HandleRequestVote e req n = Some (n', r) ∧ TR.rvp_VoteGranted r = true.
Proof.
  intros Ht Hv Hl Hc H1 Hi Hlt. unfold HandleRequestVote. rewrite Ht. destruct (_ <? 1) eqn:E1; [lia|].
  set (x := if 1 <? TR.rvq_Term req then _ else _).
  assert (votedFor x.1 = -1 ∧ log x.1 = log n ∧ config x.1 = config n) as (Hv' & Hl' & Hc').
  { unfold x, becomeFollowerLocked. destruct (1 <? TR.rvq_Term req) eqn:E2; [|done]. rewrite Ht.
    destruct (TR.rvq_Term req <? 1) eqn:E3; [lia|]. cbn -[persistLocked]. rewrite Ht, E2.
    destruct (negb (1 =? TR.rvq_Term req)); [|done]. unfold persistLocked.
    by destruct (ST.SaveRaftState _ _) as [s1 ?], (ST.SaveSnapshot _ s1) as [s2 ?]. }
  destruct x as [n1 rt]. simpl in Hv', Hl', Hc'. rewrite Hv'. change (negb (-1 =? -1)) with false. cbn [andb].
  assert (isMoreUpToDateLocked (TR.rvq_LastLogIndex req) (TR.rvq_LastLogTerm req) n1 = false) as ->.
  { unfold isMoreUpToDateLocked. rewrite Hl', Hl. change (RL.last _) with (0, 0).
    cbv beta iota. case_match; apply Z.ltb_ge; lia. }
  unfold resetElectionTimerLocked, Int63n.
  assert (config (persistLocked (set_votedFor (TR.rvq_CandidateId req) n1)) = DefaultConfig) as ->.
  { unfold persistLocked. destruct (ST.SaveRaftState _ _) as [s1 ?], (ST.SaveSnapshot _ s1) as [s2 ?]. simpl. congruence. }
  cbn. eexists _, _. split; [reflexivity|done].
Qed.

(** C39: the example program forgets its vote. [main] removes the directory of the
    database before it opens it: a node that has voted for one candidate of a term
    and is started again votes for another candidate of the same term. *)
Theorem example_votes_twice e1 e2 arg d req1 req2 :
  0 ≤ peerID arg < 3 → 1 ≤ TR.rvq_Term req1 → TR.rvq_Term req2 = TR.rvq_Term req1 →
  0 ≤ TR.rvq_LastLogIndex req1 → 0 ≤ TR.rvq_LastLogTerm req1 →
  0 ≤ TR.rvq_LastLogIndex req2 → 0 ≤ TR.rvq_LastLogTerm req2 →
  ∃ d1 p1 n1 r1 d2 p2 n2 r2,
    boot e1 arg true true d = Some (d1, inr p1) ∧
    HandleRequestVote e1 req1 (p_node p1) = Some (n1, r1) ∧ TR.rvp_VoteGranted r1 = true ∧
    boot e2 arg true true (leave (set_pnode n1 p1) d1) = Some (d2, inr p2) ∧
    HandleRequestVote e2 req2 (p_node p2) = Some (n2, r2) ∧ TR.rvp_VoteGranted r2 = true.
Proof.
  intros Hid H1 H2 Hi1 Ht1 Hi2 Ht2.
  destruct (example_boots e1 arg d Hid) as (p1 & E1 & _ & T1 & V1 & _ & L1 & C1).
  destruct (fresh_grants e1 req1 (p_node p1) T1 V1 L1 C1) as (n1 & r1 & G1 & R1); [done..|].
  destruct (example_boots e2 arg (leave (set_pnode n1 p1) (<[dataDir (peerID arg) := empty]> (delete (dataDir (peerID arg)) d))) Hid)
    as (p2 & E2 & _ & T2 & V2 & _ & L2 & C2).
  destruct (fresh_grants e2 req2 (p_node p2) T2 V2 L2 C2) as (n2 & r2 & G2 & R2); [lia|done..|].
  by eexists _, p1, n1, r1, _, p2, n2, r2.
Qed.

(** ** What the nodes print *)

Lemma append_cancel s x y : String.append s x = String.append s y → x = y.
Proof. induction s as [|c s IH]; [done|]. intros E. apply IH. by injection E. Qed.

Lemma string_crosses c s :
  TR.unmarshalCommand (TR.marshalCommand (Some (TR.VString (String c s)))) =
    Some (TR.VBytes (String.list_byte_of_string (String c s))).
Proof. unfold TR.unmarshalCommand. rewrite decide_False; [done|]. unfold len. simpl. lia. Qed.

(** A command reaches the other nodes as bytes: the leader and a follower print
    different lines for it. *)
Lemma example_prints_differ other id q t i :
  let en := mkEntry t true (Some (command id)) in
  let line cmd := applied_line other q (mkApplyMsg true cmd i false [] 0 0) in
  line (le_Command en) ≠ line (le_Command (TR.entry_of_pb (TR.entry_to_pb en))).
Proof.
  cbv zeta. cbn [TR.entry_of_pb TR.entry_to_pb TR.pe_Command le_Command]. unfold command.
  change (String.append "command-from-node-" (pretty id)) with (String (Ascii.ascii_of_byte Byte.x63) (String.append "ommand-from-node-" (pretty id))).
  rewrite string_crosses. unfold applied_line. cbn [am_CommandValid am_CommandIndex am_Command].
  intros E. apply (inj Some) in E. do 4 apply append_cancel in E. discriminate E.
Qed.
End example.
End EX.

(** ** Two starts of node 0 *)

Module ExampleRun.
Import EX Cell.

Definition env : Env := mkEnv 0 7.
Definition ask (c : Z) : TR.RequestVoteRequest := TR.mkRVReq 2 c 0 0.

Lemma example_votes_twice_witness :
  ∃ d1 p1 n1 r1 d2 p2 n2 r2,
    boot (SB := unit) Cell.empty env (Some (Some 0)) true true ∅ = Some (d1, inr p1) ∧
    HandleRequestVote env (ask 1) (p_node p1) = Some (n1, r1) ∧ TR.rvp_VoteGranted r1 = true ∧
    boot (SB := unit) Cell.empty env (Some (Some 0)) true true (leave (set_pnode n1 p1) d1) = Some (d2, inr p2) ∧
    HandleRequestVote env (ask 2) (p_node p2) = Some (n2, r2) ∧ TR.rvp_VoteGranted r2 = true.
Proof.
  apply (example_votes_twice (SB := unit) Cell.empty).
  - by eexists.
  - by eexists.
  - vm_compute. split; [discriminate|reflexivity].
  - vm_compute. discriminate.
  - reflexivity.
  - vm_compute. discriminate.
  - vm_compute. discriminate.
  - vm_compute. discriminate.
  - vm_compute. discriminate.
Defined.
End ExampleRun.
