(* ===== verification/Service.v ===== *)
(** What the replicated services ([kvraft], [shardctrler], [shardkv]) have in
    common: the effects of their handlers, the interface of the Raft peer they
    sit on, the notification channels and the duplicate table.

    [res] is the result of a critical section: a value, a Go panic, or a
    goroutine that blocks on a channel while it holds the server's lock. *)

From S2P Require Import Prelude Gob RaftLog Raft.

#[local] Open Scope Z_scope.

(** ** Effects *)

Inductive res (A : Type) :=
  | Ok (a : A)
  | Panic
  | Block.
Arguments Ok {A} _.
Arguments Panic {A}.
Arguments Block {A}.

#[export] Instance res_ret : MRet res := λ A, Ok.
#[export] Instance res_bind : MBind res := λ A B f m,
  match m with Ok a => f a | Panic => Panic | Block => Block end.

Lemma res_bind_Ok {A B} (m : res A) (f : A → res B) b :
  m ≫= f = Ok b ↔ ∃ a, m = Ok a ∧ f a = Ok b.
Proof. destruct m; unfold mbind, res_bind; naive_solver. Qed.

(** A value the source computes with a function that may panic. *)
Definition or_panic {A} (o : option A) : res A :=
  match o with Some a => Ok a | None => Panic end.

Lemma or_panic_Ok {A} (o : option A) a : or_panic o = Ok a ↔ o = Some a.
Proof. destruct o; simpl; naive_solver. Qed.

(** ** The Raft peer as the services see it *)

Class RaftPeer (R Cmd SB : Type) := {
  rp_Start : option Cmd → R → R * (Z * Z * bool);
  rp_GetState : R → Z * bool;
  rp_GetRaftStateSize : R → Z;
  rp_Snapshot : Z → list SB → R → option R;
  rp_Kill : R → R;
  rp_Start_follower : ∀ c r, (rp_GetState r).2 = false → rp_Start c r = (r, (0, 0, false));
  rp_Start_leader : ∀ c r, (rp_GetState r).2 = true →
    ∃ i, (rp_Start c r).2 = (i, (rp_GetState r).1, true);
  rp_Start_state : ∀ c r, rp_GetState (rp_Start c r).1 = rp_GetState r;
  rp_Snapshot_total : ∀ i s r, ∃ r', rp_Snapshot i s r = Some r' ∧ rp_GetState r' = rp_GetState r
}.
#[global] Hint Mode RaftPeer ! - - : typeclass_instances.

(** [raft.Raft] implements it; [sz] is the encoded length of a saved value. *)
Section raft_peer.
Context {Cmd SB : Type} (sz : rgob Cmd → Z).

Definition raft_is_peer : RaftPeer (RF.Raft Cmd SB) Cmd SB.
Proof.
  refine {| rp_Start := RF.Start; rp_GetState := RF.GetState;
            rp_GetRaftStateSize := RF.GetRaftStateSize sz;
            rp_Snapshot := RF.Snapshot; rp_Kill := RF.Kill |}.
  - intros c r H. unfold RF.Start, RF.GetState in *. simpl in H.
    apply bool_decide_eq_false in H. by rewrite decide_True.
  - intros c r H. unfold RF.Start, RF.GetState in *. simpl in *.
    apply bool_decide_eq_true in H. rewrite decide_False by naive_solver. eauto.
  - intros c r. unfold RF.Start, RF.GetState. by case_decide.
  - intros i s r. unfold RF.Snapshot. repeat case_match; eauto.
    destruct (decide (RL.snapLastIdx (RF.log r) < i < RL.size (RF.log r))) as [Hr|Hr].
    + destruct (RL.doSnapshot_Some (RF.log r) i s Hr) as (en & _ & ->). simpl. eauto.
    + rewrite RL.doSnapshot_id by lia. simpl. eauto.
Defined.
End raft_peer.

(** ** Notification channels

    [map[int]chan *R] with channels of capacity one.  A channel is its position
    in [bufs], so that a handler keeps its channel when the map entry is
    deleted. *)

Record Notify (R : Type) := mkNotify {
  chan_of : gmap Z nat;
  bufs : list (option R)
}.
Arguments mkNotify {R} _ _.
Arguments chan_of {R} _.
Arguments bufs {R} _.

Section notify.
Context {R : Type}.
Implicit Types (n : Notify R).

Definition no_chans : Notify R := mkNotify ∅ [].

Definition notify_get (index : Z) n : Notify R * nat :=
  match chan_of n !! index with
  | Some c => (n, c)
  | None => let c := length (bufs n) in
            (mkNotify (<[index := c]> (chan_of n)) (bufs n ++ [None]), c)
  end.

Definition notify_remove (index : Z) n : Notify R :=
  mkNotify (delete index (chan_of n)) (bufs n).

(** [ch <- v]: blocks while the buffer is full. *)
Definition chan_send (c : nat) (v : R) n : res (Notify R) :=
  match bufs n !! c with
  | Some None => Ok (mkNotify (chan_of n) (<[c := Some v]> (bufs n)))
  | _ => Block
  end.

(** [<-ch]: [None] when nothing is there to receive. *)
Definition chan_recv (c : nat) n : option (R * Notify R) :=
  match bufs n !! c with
  | Some (Some v) => Some (v, mkNotify (chan_of n) (<[c := None]> (bufs n)))
  | _ => None
  end.

(** The channels of a server that has applied everything up to [applied]: they
    exist, no two indices share one, and those of later indices are empty. *)
Record notify_ok (applied : Z) n : Prop := {
  no_wf : ∀ i c, chan_of n !! i = Some c → (c < length (bufs n))%nat;
  no_inj : ∀ i j c, chan_of n !! i = Some c → chan_of n !! j = Some c → i = j;
  no_empty : ∀ i c, applied < i → chan_of n !! i = Some c → bufs n !! c = Some None
}.

Lemma notify_ok_init a : notify_ok a no_chans.
Proof. split; simpl; intros *; rewrite ?lookup_empty; naive_solver. Qed.

Lemma notify_ok_mono a a' n : a ≤ a' → notify_ok a n → notify_ok a' n.
Proof. intros Ha [H1 H2 H3]. split; [done|done|]. intros i c Hi. apply H3. lia. Qed.

Lemma notify_ok_get a i n :
  notify_ok a n → notify_ok a (notify_get i n).1 ∧
  chan_of (notify_get i n).1 !! i = Some (notify_get i n).2.
Proof.
  intros [H1 H2 H3]. unfold notify_get. destruct (chan_of n !! i) as [c|] eqn:E; [done|].
  split; simpl; [|by rewrite lookup_insert_eq]. split; simpl.
  - intros j c. rewrite length_app, lookup_insert_Some. simpl.
    intros [[_ <-]|[_ Hj]]; [lia|]. specialize (H1 j c Hj). lia.
  - intros j k c. rewrite !lookup_insert_Some.
    intros [[<- <-]|[Hj1 Hj]] [[<- ?]|[Hk1 Hk]]; [done|..|by eapply H2].
    + specialize (H1 _ _ Hk). lia.
    + specialize (H1 _ _ Hj). lia.
  - intros j c Hj. rewrite lookup_insert_Some. intros [[_ <-]|[_ Hc]].
    + by rewrite lookup_app_r, Nat.sub_diag by lia.
    + rewrite lookup_app_l by (by eapply H1). by eapply H3.
Qed.

Lemma notify_ok_remove a i n : notify_ok a n → notify_ok a (notify_remove i n).
Proof.
  intros [H1 H2 H3]. split; simpl; intros *; rewrite ?lookup_delete_Some; naive_solver.
Qed.

Lemma notify_ok_recv a c v n n' :
  notify_ok a n → chan_recv c n = Some (v, n') → notify_ok a n'.
Proof.
  intros [H1 H2 H3]. unfold chan_recv. repeat case_match; intros; simplify_eq.
  split; simpl; [intros; rewrite length_insert; eauto|done|].
  intros i d Hi Hd. destruct (decide (c = d)) as [<-|].
  - apply list_lookup_insert_eq. by eapply H1.
  - rewrite list_lookup_insert_ne by done. by eapply H3.
Qed.

(** Sending the result of the next index never blocks. *)
Lemma notify_ok_send a i v n :
  a < i → notify_ok a n →
  ∃ n', chan_send (notify_get i n).2 v (notify_get i n).1 = Ok n' ∧ notify_ok i n' ∧
    ∃ c, chan_of n' !! i = Some c ∧ bufs n' !! c = Some (Some v).
Proof.
  intros Hi H. destruct (notify_ok_get a i n H) as [[H1 H2 H3] Hc].
  destruct (notify_get i n) as [n1 c]. simpl in *. unfold chan_send.
  rewrite (H3 i c) by done. eexists. split; [done|]. split; simpl.
  - split; simpl; [intros; rewrite length_insert; eauto|done|].
    intros j d Hj Hd. destruct (decide (c = d)) as [<-|].
    + assert (i = j) by eauto. lia.
    + rewrite list_lookup_insert_ne by done. apply (H3 j); [lia|done].
  - exists c. split; [done|]. apply list_lookup_insert_eq. by eapply H1.
Qed.
End notify.

(** ** The duplicate table

    [map[int64]LastOperationInfo]: per client, the sequence number of the last
    write that was executed and its reply. *)

Record LastOperationInfo (Reply : Type) := mkInfo {
  li_SeqId : Z;
  li_Reply : Reply
}.
Arguments mkInfo {Reply} _ _.
Arguments li_SeqId {Reply} _.
Arguments li_Reply {Reply} _.

Section dedup.
Context {Op Reply St : Type}.
Context (client seq : Op → Z) (mut : Op → bool) (exec : Op → St → St * Reply).
Context (exec_read : ∀ op st, mut op = false → (exec op st).1 = st).
Implicit Types (tb : gmap Z (LastOperationInfo Reply)) (ops : list Op) (st : St).

Definition duplicated tb (clientId seqId : Z) : bool :=
  match tb !! clientId with
  | Some info => seqId <=? li_SeqId info
  | None => false
  end.

(** The body every service runs for a committed operation. *)
Definition apply_once (op : Op) (s : St * gmap Z (LastOperationInfo Reply))
    : (St * gmap Z (LastOperationInfo Reply)) * Reply :=
  let '(st, tb) := s in
  match (if mut op && duplicated tb (client op) (seq op) then tb !! client op else None) with
  | Some info => ((st, tb), li_Reply info)
  | None =>
      let '(st, reply) := exec op st in
      ((st, if mut op then <[client op := mkInfo (seq op) reply]> tb else tb), reply)
  end.

Definition apply_log ops (s : St * gmap Z (LastOperationInfo Reply)) :=
  foldl (λ s op, (apply_once op s).1) s ops.

(** The specification: the log with every repeated write removed. *)
Fixpoint firsts (seen : list (Z * Z)) ops : list Op :=
  match ops with
  | [] => []
  | op :: ops =>
      if mut op then
        if decide ((client op, seq op) ∈ seen) then firsts seen ops
        else op :: firsts ((client op, seq op) :: seen) ops
      else op :: firsts seen ops
  end.

Definition run_plain ops st : St := foldl (λ st op, (exec op st).1) st ops.

(** A client numbers its writes in increasing order: a write that is not a
    retransmission comes after all writes with smaller numbers. *)
Fixpoint in_order (seen : list (Z * Z)) ops : Prop :=
  match ops with
  | [] => True
  | op :: ops =>
      if mut op then
        ((client op, seq op) ∈ seen ∨ ∀ s, (client op, s) ∈ seen → s < seq op) ∧
        in_order ((client op, seq op) :: seen) ops
      else in_order seen ops
  end.

(** The table holds, per client, the largest number seen. *)
Definition table_ok tb (seen : list (Z * Z)) : Prop :=
  ∀ c, match tb !! c with
       | Some info => (c, li_SeqId info) ∈ seen ∧ ∀ s, (c, s) ∈ seen → s ≤ li_SeqId info
       | None => ∀ s, (c, s) ∉ seen
       end.

Lemma firsts_seen_equiv seen seen' ops :
  (∀ x, x ∈ seen ↔ x ∈ seen') → firsts seen ops = firsts seen' ops.
Proof.
  revert seen seen'. induction ops as [|op ops IH]; intros seen seen' H; simpl; [done|].
  destruct (mut op); [|by rewrite (IH seen seen')].
  destruct (decide (_ ∈ seen)), (decide (_ ∈ seen')); [by apply IH|naive_solver|naive_solver|].
  f_equal. apply IH. intros x. rewrite !elem_of_cons. naive_solver.
Qed.

Lemma table_ok_dup tb seen c s :
  table_ok tb seen → ((c, s) ∈ seen ∨ ∀ s', (c, s') ∈ seen → s' < s) →
  duplicated tb c s = true ↔ (c, s) ∈ seen.
Proof.
  intros H Ho. specialize (H c). unfold duplicated. destruct (tb !! c) as [info|].
  - destruct H as [H1 H2]. split.
    + intros Hle. destruct Ho as [?|Ho]; [done|]. specialize (Ho _ H1). lia.
    + intros Hin. specialize (H2 _ Hin). lia.
  - split; [done|]. intros Hin. by destruct (H s).
Qed.

Lemma table_ok_insert tb seen c s reply :
  table_ok tb seen → (∀ s', (c, s') ∈ seen → s' < s) →
  table_ok (<[c := mkInfo s reply]> tb) ((c, s) :: seen).
Proof.
  intros H Ho c'. destruct (decide (c = c')) as [<-|Hne].
  - rewrite lookup_insert_eq. simpl. split; [by left|]. intros s'.
    rewrite elem_of_cons. intros [[= ->]|Hin]; [lia|]. specialize (Ho _ Hin). lia.
  - rewrite lookup_insert_ne by done. specialize (H c').
    destruct (tb !! c') as [info|].
    + destruct H as [H1 H2]. split; [by right|]. intros s'.
      rewrite elem_of_cons. intros [[= ->]|Hin]; [done|]. by apply H2.
    + intros s'. rewrite elem_of_cons. intros [[= ->]|Hin]; [done|]. by destruct (H s').
Qed.

Lemma table_ok_again tb seen x : table_ok tb seen → x ∈ seen → table_ok tb (x :: seen).
Proof.
  intros H Hx c. specialize (H c). destruct (tb !! c) as [info|].
  - destruct H as [H1 H2]. split; [by right|]. intros s. rewrite elem_of_cons.
    intros [<-|?]; by apply H2.
  - intros s. rewrite elem_of_cons. intros [<-|?]; by eapply H.
Qed.

Lemma apply_once_unfold op st tb :
  (apply_once op (st, tb)).1 =
    if mut op && duplicated tb (client op) (seq op) then (st, tb)
    else ((exec op st).1,
          if mut op then <[client op := mkInfo (seq op) (exec op st).2]> tb else tb).
Proof.
  unfold apply_once. destruct (mut op && _) eqn:E.
  - apply andb_true_iff in E as [_ E]. unfold duplicated in E. by destruct (tb !! _).
  - by destruct (exec op st).
Qed.

(** Executing a log through the duplicate table has the effect of executing,
    without a table, the log without its retransmissions. *)
Lemma apply_log_firsts ops seen st tb :
  table_ok tb seen → in_order seen ops →
  (apply_log ops (st, tb)).1 = run_plain (firsts seen ops) st.
Proof.
  revert seen st tb. induction ops as [|op ops IH]; intros seen st tb Ht Ho; [done|].
  unfold apply_log. cbn [foldl]. fold (apply_log ops (apply_once op (st, tb)).1).
  rewrite apply_once_unfold. simpl in Ho |- *. destruct (mut op) eqn:Em.
  - destruct Ho as [Ho1 Ho]. pose proof (table_ok_dup _ _ _ _ Ht Ho1) as Hd.
    case_decide as Hin.
    + rewrite (proj2 Hd Hin). simpl. rewrite <-(firsts_seen_equiv ((client op, seq op) :: seen)).
      * apply IH; [by apply table_ok_again|done].
      * intros x. rewrite elem_of_cons. naive_solver.
    + destruct (duplicated tb _ _); [naive_solver|]. simpl.
      apply IH; [|done]. apply table_ok_insert; [done|]. naive_solver.
  - simpl. rewrite exec_read by done. by rewrite (IH seen).
Qed.

Lemma table_ok_empty : table_ok ∅ [].
Proof. intros c. rewrite lookup_empty. intros s. apply not_elem_of_nil. Qed.
End dedup.

(** ** The clerks

    The three clients ([client.go] of each service) share the loop that tries
    one server after the other.  [servers] is the number of servers; the network
    is the list of answers the calls get, [(ok, reply)]. *)

Record Clerk := mkClerk {
  servers : Z;
  leaderId : Z;
  clientId : Z;
  seqId : Z
}.

Definition set_leaderId v (ck : Clerk) := mkClerk (servers ck) v (clientId ck) (seqId ck).
Definition next_seq (ck : Clerk) := mkClerk (servers ck) (leaderId ck) (clientId ck) (seqId ck + 1).

Definition MakeClerk (n clientId : Z) : Clerk := mkClerk n 0 clientId 0.

Section clerk.
Context {A : Type} (again : A → bool).
Implicit Types (ck : Clerk) (answers : list (bool * A)).

(** The clerk and the answer that ended the loop; [Block] while every answer so
    far asked for a retry. *)
Fixpoint call_loop answers ck : res (Clerk * A) :=
  if negb ((0 <=? leaderId ck) && (leaderId ck <? servers ck)) then Panic
  else
    match answers with
    | [] => Block
    | (ok, reply) :: answers =>
        if negb ok || again reply
        then call_loop answers (set_leaderId (Z.rem (leaderId ck + 1) (servers ck)) ck)
        else Ok (ck, reply)
    end.

(** An answer that ends the loop. *)
Definition definitive (a : bool * A) : Prop :=
  a.1 = true ∧ again a.2 = false.

Definition clerk_ok ck : Prop := 0 ≤ leaderId ck < servers ck.

Lemma call_loop_cons a answers ck :
  clerk_ok ck →
  (definitive a ∧ call_loop (a :: answers) ck = Ok (ck, a.2)) ∨
  (¬ definitive a ∧ call_loop (a :: answers) ck =
     call_loop answers (set_leaderId (Z.rem (leaderId ck + 1) (servers ck)) ck)).
Proof.
  intros Hk. destruct a as [ok reply]. unfold clerk_ok, definitive in *. simpl.
  destruct (negb (_ && _)) eqn:E; [lia|].
  destruct ok; simpl; [|right; naive_solver]. destruct (again reply); naive_solver.
Qed.

Lemma clerk_ok_next ck :
  clerk_ok ck → clerk_ok (set_leaderId (Z.rem (leaderId ck + 1) (servers ck)) ck).
Proof.
  unfold clerk_ok. simpl. intros H. rewrite Z.rem_mod_nonneg by lia. apply Z.mod_pos_bound. lia.
Qed.

(** The loop ends at the first definitive answer. *)
Lemma call_loop_spec pre a post ck :
  clerk_ok ck → Forall (λ a, ¬ definitive a) pre → definitive a →
  call_loop (pre ++ a :: post) ck =
    Ok (set_leaderId ((leaderId ck + Z.of_nat (length pre)) mod servers ck) ck, a.2).
Proof.
  revert ck. induction pre as [|b pre IH]; intros ck Hk Hpre Ha.
  - change ([] ++ a :: post) with (a :: post). destruct (call_loop_cons a post ck Hk) as [[_ ->]|[? _]]; [|done].
    simpl. rewrite Z.add_0_r, Z.mod_small by done. by destruct ck.
  - inversion Hpre as [|? ? Hb Hpre2]; subst. rewrite <-app_comm_cons.
    destruct (call_loop_cons b (pre ++ a :: post) ck Hk) as [[? _]|[_ ->]]; [done|].
    rewrite IH by (auto using clerk_ok_next). unfold set_leaderId. simpl. do 3 f_equal.
    unfold clerk_ok in Hk. rewrite Z.rem_mod_nonneg by lia.
    rewrite Zplus_mod_idemp_l. f_equal. lia.
Qed.

End clerk.
