(* ===== verification/KVRaft.v ===== *)
(** The replicated key/value service: [src/src/kvraft].

    Module [KV] models the state machine, the server (RPC handlers, the body of
    [applyTask], snapshots) and the clerk.  A server sits on any [RaftPeer]; its
    snapshots are gob streams of type [kgob].  An RPC handler is a program
    counter [pc] and one step per critical section, because it releases the
    server's lock between them.  A Go pointer to an [OpReply] is never written
    after it was stored, so replies are values. *)

From stdpp Require Import strings.
From S2P Require Import Prelude Gob RaftLog Raft Service.

#[local] Open Scope Z_scope.

Module KV.

(** ** [common.go] *)

(** [ErrNone] is the empty string, the zero value of [Err]. *)
Inductive Err := OK | ErrNoKey | ErrWrongLeader | ErrTimeout | ErrNone.

#[export] Instance Err_eq_dec : EqDecision Err.
Proof. solve_decision. Defined.

Inductive OperationType := OpGet | OpPut | OpAppend.

#[export] Instance OperationType_eq_dec : EqDecision OperationType.
Proof. solve_decision. Defined.

Record Op := mkOp {
  op_Key : string;
  op_Value : string;
  op_OpType : OperationType;
  op_ClientId : Z;
  op_SeqId : Z
}.

Record OpReply := mkReply {
  or_Value : string;
  or_Err : Err
}.

Record PutAppendArgs := mkPA {
  pa_Key : string;
  pa_Value : string;
  pa_Op : string;
  pa_ClientId : Z;
  pa_SeqId : Z
}.

Definition getOperationType (v : string) : res OperationType :=
  if decide (v = "Put"%string) then Ok OpPut
  else if decide (v = "Append"%string) then Ok OpAppend
  else Panic.

(** ** [state_machine.go] *)

Record MemoryKVStateMachine := mkMachine { KV : gmap string string }.
Implicit Types mkv : MemoryKVStateMachine.

Definition NewMemoryKVStateMachine : MemoryKVStateMachine := mkMachine ∅.

Definition Get mkv (key : string) : string * Err :=
  match KV mkv !! key with
  | Some value => (value, OK)
  | None => (""%string, ErrNoKey)
  end.

Definition Put mkv (key value : string) : MemoryKVStateMachine * Err :=
  (mkMachine (<[key := value]> (KV mkv)), OK).

(** [mkv.KV[key] += value]: a missing key reads as the empty string. *)
Definition Append mkv (key value : string) : MemoryKVStateMachine * Err :=
  (mkMachine (<[key := (default "" (KV mkv !! key) ++ value)%string]> (KV mkv)), OK).

(** ** [server.go] *)

Abbreviation DupTable := (gmap Z (LastOperationInfo OpReply)).

(** The values a server writes to a snapshot. *)
Inductive kgob :=
  | GMachine (mkv : MemoryKVStateMachine)
  | GTable (tb : DupTable).

#[export] Instance gob_machine : GobType kgob MemoryKVStateMachine.
Proof.
  refine {| to_gob := GMachine; of_gob v := match v with GMachine m => Some m | _ => None end |}.
  done.
Defined.

#[export] Instance gob_table : GobType kgob DupTable.
Proof.
  refine {| to_gob := GTable; of_gob v := match v with GTable t => Some t | _ => None end |}.
  done.
Defined.

Section server.
Context {R : Type} `{!RaftPeer R Op kgob}.

Record KVServer := mkKV {
  rf : R;
  dead : Z;
  maxraftstate : Z;
  lastApplied : Z;
  stateMachine : MemoryKVStateMachine;
  notifyChans : Notify OpReply;
  duplicateTable : DupTable
}.
Implicit Types kv : KVServer.

Definition set_rf v kv := mkKV v (dead kv) (maxraftstate kv) (lastApplied kv) (stateMachine kv) (notifyChans kv) (duplicateTable kv).
Definition set_lastApplied v kv := mkKV (rf kv) (dead kv) (maxraftstate kv) v (stateMachine kv) (notifyChans kv) (duplicateTable kv).
Definition set_stateMachine v kv := mkKV (rf kv) (dead kv) (maxraftstate kv) (lastApplied kv) v (notifyChans kv) (duplicateTable kv).
Definition set_notifyChans v kv := mkKV (rf kv) (dead kv) (maxraftstate kv) (lastApplied kv) (stateMachine kv) v (duplicateTable kv).
Definition set_duplicateTable v kv := mkKV (rf kv) (dead kv) (maxraftstate kv) (lastApplied kv) (stateMachine kv) (notifyChans kv) v.

Definition requestDuplicated (clientId seqId : Z) kv : bool :=
  duplicated (duplicateTable kv) clientId seqId.

Definition getNotifyChannel (index : Z) kv : KVServer * nat :=
  let '(n, c) := notify_get index (notifyChans kv) in (set_notifyChans n kv, c).

Definition removeNotifyChannel (index : Z) kv : KVServer :=
  set_notifyChans (notify_remove index (notifyChans kv)) kv.

Definition applyToStateMachine (op : Op) mkv : MemoryKVStateMachine * OpReply :=
  match op_OpType op with
  | OpGet => let '(value, err) := Get mkv (op_Key op) in (mkv, mkReply value err)
  | OpPut => let '(mkv, err) := Put mkv (op_Key op) (op_Value op) in (mkv, mkReply "" err)
  | OpAppend => let '(mkv, err) := Append mkv (op_Key op) (op_Value op) in (mkv, mkReply "" err)
  end.

(** The bytes [makeSnapshot] hands to Raft. *)
Definition snapshot_of kv : list kgob :=
  Encode (Encode (A:=MemoryKVStateMachine) [] (stateMachine kv)) (duplicateTable kv).

Definition makeSnapshot (index : Z) kv : res KVServer :=
  rf' ← or_panic (rp_Snapshot index (snapshot_of kv) (rf kv));
  Ok (set_rf rf' kv).

Definition restoreFromSnapshot (snapshot : list kgob) kv : res KVServer :=
  match snapshot with
  | [] => Ok kv
  | _ =>
      '(sm, d) ← or_panic (Decode (A:=MemoryKVStateMachine) snapshot);
      '(dup, _) ← or_panic (Decode (A:=DupTable) d);
      Ok (set_duplicateTable dup (set_stateMachine sm kv))
  end.

(** The block of [applyTask] that executes a command unless it is a duplicate. *)
Definition applyOp (op : Op) kv : res (KVServer * OpReply) :=
  if bool_decide (op_OpType op ≠ OpGet) && requestDuplicated (op_ClientId op) (op_SeqId op) kv
  then
    info ← or_panic (duplicateTable kv !! op_ClientId op);
    Ok (kv, li_Reply info)
  else
    let '(sm, opReply) := applyToStateMachine op (stateMachine kv) in
    let kv := set_stateMachine sm kv in
    let kv := if bool_decide (op_OpType op ≠ OpGet)
              then set_duplicateTable
                     (<[op_ClientId op := mkInfo (op_SeqId op) opReply]> (duplicateTable kv)) kv
              else kv in
    Ok (kv, opReply).

(** What [applyTask] does with one message. *)
Definition applyMessage (message : ApplyMsg Op kgob) kv : res KVServer :=
  if am_CommandValid message then
    if am_CommandIndex message <=? lastApplied kv then Ok kv
    else
      let kv := set_lastApplied (am_CommandIndex message) kv in
      op ← or_panic (am_Command message);
      '(kv, opReply) ← applyOp op kv;
      kv ←
        (if (rp_GetState (rf kv)).2 then
           let '(kv, notifyCh) := getNotifyChannel (am_CommandIndex message) kv in
           n ← chan_send notifyCh opReply (notifyChans kv);
           Ok (set_notifyChans n kv)
         else Ok kv);
      if negb (maxraftstate kv =? -1) && (maxraftstate kv <=? rp_GetRaftStateSize (rf kv))
      then makeSnapshot (am_CommandIndex message) kv
      else Ok kv
  else if am_SnapshotValid message then
    kv ← restoreFromSnapshot (am_Snapshot message) kv;
    Ok (set_lastApplied (am_SnapshotIndex message) kv)
  else Ok kv.

(** Where an RPC handler is. *)
Inductive pc :=
  | PDup
  | PStart
  | PChan (index : Z)
  | PWait (index : Z) (ch : nat)
  | PRemove (index : Z) (reply : OpReply)
  | PDone (reply : OpReply).

(** The part [Get] and [PutAppend] share: wait for the result or the timeout,
    then remove the channel. *)
Definition await_step (timeout : bool) (p : pc) kv : res (KVServer * pc) :=
  match p with
  | PChan index =>
      let '(kv, ch) := getNotifyChannel index kv in Ok (kv, PWait index ch)
  | PWait index ch =>
      if timeout then Ok (kv, PRemove index (mkReply "" ErrTimeout))
      else match chan_recv ch (notifyChans kv) with
           | Some (result, n) => Ok (set_notifyChans n kv, PRemove index result)
           | None => Block
           end
  | PRemove index reply => Ok (removeNotifyChannel index kv, PDone reply)
  | p => Ok (kv, p)
  end.

Definition start_step (op : Op) kv : res (KVServer * pc) :=
  let '(rf', (index, _, isLeader)) := rp_Start (Some op) (rf kv) in
  let kv := set_rf rf' kv in
  if negb isLeader then Ok (kv, PDone (mkReply "" ErrWrongLeader))
  else Ok (kv, PChan index).

Definition Get_step (key : string) (timeout : bool) (p : pc) kv : res (KVServer * pc) :=
  match p with
  | PDup => Ok (kv, PStart)
  | PStart => start_step (mkOp key "" OpGet 0 0) kv
  | p => await_step timeout p kv
  end.

Definition PutAppend_step (args : PutAppendArgs) (timeout : bool) (p : pc) kv
    : res (KVServer * pc) :=
  match p with
  | PDup =>
      if requestDuplicated (pa_ClientId args) (pa_SeqId args) kv then
        info ← or_panic (duplicateTable kv !! pa_ClientId args);
        Ok (kv, PDone (mkReply "" (or_Err (li_Reply info))))
      else Ok (kv, PStart)
  | PStart =>
      ot ← getOperationType (pa_Op args);
      start_step (mkOp (pa_Key args) (pa_Value args) ot (pa_ClientId args) (pa_SeqId args)) kv
  | p => await_step timeout p kv
  end.

Definition Kill kv : KVServer :=
  mkKV (rp_Kill (rf kv)) 1 (maxraftstate kv) (lastApplied kv) (stateMachine kv)
    (notifyChans kv) (duplicateTable kv).

(** [StartKVServer] with the Raft peer that [raft.Make] returned and the
    snapshot in the persister. *)
Definition StartKVServer (r : R) (snapshot : list kgob) (maxraftstate : Z) : res KVServer :=
  let kv := mkKV r 0 maxraftstate 0 NewMemoryKVStateMachine no_chans ∅ in
  restoreFromSnapshot snapshot kv.
End server.
Arguments KVServer : clear implicits.

(** ** [client.go] *)

Implicit Types ck : Clerk.

(** The answers that make [Get] and [PutAppend] try the next server. *)
Definition retry (reply : OpReply) : bool :=
  bool_decide (or_Err reply = ErrWrongLeader) || bool_decide (or_Err reply = ErrTimeout).

Definition clerk_Get (answers : list (bool * OpReply)) ck : res (Clerk * string) :=
  '(ck, reply) ← call_loop retry answers ck; Ok (ck, or_Value reply).

Definition clerk_args (key value op : string) ck : PutAppendArgs :=
  mkPA key value op (clientId ck) (seqId ck).

Definition clerk_PutAppend (answers : list (bool * OpReply)) ck : res Clerk :=
  '(ck, _) ← call_loop retry answers ck;
  Ok (next_seq ck).

(** ** The server as a replicated state machine *)

Section facts.
Context {R : Type} `{!RaftPeer R Op kgob}.
Implicit Types (kv : KVServer R) (op : Op) (ops : list Op).

Definition writes op : bool := bool_decide (op_OpType op ≠ OpGet).

(** What replication must keep the same on all servers. *)
Definition machine kv : MemoryKVStateMachine * DupTable := (stateMachine kv, duplicateTable kv).

Definition apply1 := apply_once op_ClientId op_SeqId writes applyToStateMachine.
Definition applyN := apply_log op_ClientId op_SeqId writes applyToStateMachine.

#[local] Arguments apply1 : simpl never.
#[local] Arguments machine : simpl never.

Definition kv_inv kv : Prop := notify_ok (lastApplied kv) (notifyChans kv).

Lemma exec_get op mkv : writes op = false → (applyToStateMachine op mkv).1 = mkv.
Proof.
  unfold writes, applyToStateMachine, Get. rewrite bool_decide_eq_false.
  destruct (op_OpType op); [by destruct (KV mkv !! _)|naive_solver..].
Qed.

Lemma applyMessage_stale m kv :
  am_CommandValid m = true → am_CommandIndex m ≤ lastApplied kv → applyMessage m kv = Ok kv.
Proof. intros H1 H2. unfold applyMessage. rewrite H1. case_match; [done|lia]. Qed.

Lemma applyOp_spec op kv :
  ∃ kv', applyOp op kv = Ok (kv', (apply1 op (machine kv)).2) ∧
    machine kv' = (apply1 op (machine kv)).1 ∧ notifyChans kv' = notifyChans kv ∧
    lastApplied kv' = lastApplied kv ∧ rf kv' = rf kv.
Proof.
  unfold applyOp, apply1, apply_once, machine, writes, requestDuplicated, duplicated.
  destruct (bool_decide (op_OpType op ≠ OpGet)) eqn:Ew; simpl.
  - destruct (duplicateTable kv !! op_ClientId op) as [info|] eqn:Ei; simpl.
    + destruct (op_SeqId op <=? li_SeqId info); simpl; [by eexists|].
      destruct (applyToStateMachine op (stateMachine kv)) as [sm r]. simpl. by eexists.
    + destruct (applyToStateMachine op (stateMachine kv)) as [sm r]. simpl. by eexists.
  - destruct (applyToStateMachine op (stateMachine kv)) as [sm r]. simpl. by eexists.
Qed.

(** A new command is applied: it does not panic or block, and it runs through
    the duplicate table. *)
Lemma applyMessage_new m op kv :
  kv_inv kv → am_CommandValid m = true → am_Command m = Some op →
  lastApplied kv < am_CommandIndex m →
  ∃ kv', applyMessage m kv = Ok kv' ∧ kv_inv kv' ∧
    machine kv' = (apply1 op (machine kv)).1 ∧ lastApplied kv' = am_CommandIndex m ∧
    ((rp_GetState (rf kv)).2 = true → ∃ c, chan_of (notifyChans kv') !! am_CommandIndex m = Some c ∧
       bufs (notifyChans kv') !! c = Some (Some (apply1 op (machine kv)).2)).
Proof.
  intros Hi Hv Hc Hl. unfold applyMessage. rewrite Hv, Hc.
  destruct (_ <=? _) eqn:El; [lia|]. simpl.
  destruct (applyOp_spec op (set_lastApplied (am_CommandIndex m) kv))
    as (kv1 & -> & Hm & Hn & Ha & Hr).
  change (machine (set_lastApplied (am_CommandIndex m) kv)) with (machine kv) in *.
  destruct (apply1 op (machine kv)) as [mc reply]. simpl in *. rewrite Hr.
  set (snd := (if (rp_GetState (rf kv)).2 then _ else Ok kv1)).
  assert (∃ kv2, snd = Ok kv2 ∧ machine kv2 = machine kv1 ∧ kv_inv kv2 ∧
    lastApplied kv2 = am_CommandIndex m ∧
    ((rp_GetState (rf kv)).2 = true → ∃ c, chan_of (notifyChans kv2) !! am_CommandIndex m = Some c ∧
       bufs (notifyChans kv2) !! c = Some (Some reply)))
    as (kv2 & -> & Hm2 & Hi2 & Ha2 & Hs2).
  { unfold snd, kv_inv in *. destruct (rp_GetState (rf kv)).2.
    - unfold getNotifyChannel. rewrite Hn.
      destruct (notify_ok_send (lastApplied kv) (am_CommandIndex m) reply
                  (notifyChans kv)) as (n' & E & Hok & Hch); [done|done|].
      destruct (notify_get _ _) as [n1 c]. simpl in *. rewrite E. simpl.
      eexists. split; [done|]. simpl. rewrite Ha. by split_and!.
    - exists kv1. rewrite Hn, Ha. split_and!; try done. eapply notify_ok_mono; [|done]. lia. }
  simpl. rewrite <-Hm, <-Hm2. destruct (_ && _); [|eauto 10].
  unfold makeSnapshot. destruct (rp_Snapshot_total (am_CommandIndex m) (snapshot_of kv2) (rf kv2))
    as (r' & -> & _). simpl. eexists. split; [done|]. by split_and!.
Qed.

(** One step of a server, with the commands it executes: the next or an
    already applied command arrives, a handler runs up to its next release of
    the lock, or the Raft peer below changes in any way. *)
Inductive kv_step : list Op → KVServer R → KVServer R → Prop :=
  | ks_apply m op kv kv' :
      am_CommandValid m = true → am_Command m = Some op →
      am_CommandIndex m = lastApplied kv + 1 →
      applyMessage m kv = Ok kv' → kv_step [op] kv kv'
  | ks_stale m kv kv' :
      am_CommandValid m = true → am_CommandIndex m ≤ lastApplied kv →
      applyMessage m kv = Ok kv' → kv_step [] kv kv'
  | ks_get key timeout p p' kv kv' :
      Get_step key timeout p kv = Ok (kv', p') → kv_step [] kv kv'
  | ks_put args timeout p p' kv kv' :
      PutAppend_step args timeout p kv = Ok (kv', p') → kv_step [] kv kv'
  | ks_raft r kv : kv_step [] kv (set_rf r kv).

Inductive kv_run : list Op → KVServer R → KVServer R → Prop :=
  | kr_refl kv : kv_run [] kv kv
  | kr_step ops1 ops2 kv1 kv2 kv3 :
      kv_run ops1 kv1 kv2 → kv_step ops2 kv2 kv3 → kv_run (ops1 ++ ops2) kv1 kv3.

(** A handler never touches the replicated state. *)
Definition only_chans kv kv' : Prop :=
  kv_inv kv → kv_inv kv' ∧ machine kv' = machine kv ∧ lastApplied kv' = lastApplied kv.

Lemma await_frame timeout p kv kv' p' :
  await_step timeout p kv = Ok (kv', p') → only_chans kv kv'.
Proof.
  unfold await_step, only_chans, kv_inv. intros E Hi. destruct p; simplify_eq/=; [done|done|..].
  - unfold getNotifyChannel in E. pose proof (notify_ok_get _ index _ Hi) as [Hok _].
    destruct (notify_get _ _) as [n c]. by simplify_eq/=.
  - repeat case_match; simplify_eq/=; [done|]. split; [|done]. by eapply notify_ok_recv.
  - split; [|done]. by apply notify_ok_remove.
  - done.
Qed.

Lemma start_frame op kv kv' p : start_step op kv = Ok (kv', p) → only_chans kv kv'.
Proof.
  unfold start_step, only_chans. intros E Hi. destruct (rp_Start _ _) as [r [[i t] b]].
  by destruct b; simplify_eq/=.
Qed.

Lemma kv_step_effect ops kv kv' :
  kv_inv kv → kv_step ops kv kv' →
  kv_inv kv' ∧ machine kv' = applyN ops (machine kv) ∧
  lastApplied kv' = lastApplied kv + Z.of_nat (length ops).
Proof.
  intros Hi Hs. assert (∀ kv', only_chans kv kv' → kv_inv kv' ∧
    machine kv' = applyN [] (machine kv) ∧
    lastApplied kv' = lastApplied kv + Z.of_nat (length (@nil Op))) as Hframe.
  { intros kv2 H. destruct (H Hi) as (? & -> & ->). split_and!; [done|done|simpl; lia]. }
  destruct Hs as [m op kv kv' Hv Hc Hx E|m kv kv' Hv Hle E|key timeout p p' kv kv' E
    |args timeout p p' kv kv' E|r kv].
  - destruct (applyMessage_new m op kv) as (kv1 & E1 & Hi1 & Hm & Ha & _); [done..|lia|].
    rewrite E in E1. injection E1 as <-. split_and!; [done|exact Hm|simpl; lia].
  - rewrite applyMessage_stale in E by done. simplify_eq. by apply Hframe.
  - apply Hframe. unfold Get_step in E. destruct p; simplify_eq; [done|..];
      eauto using await_frame, start_frame.
  - apply Hframe. unfold PutAppend_step in E. destruct p; try by eapply await_frame.
    + case_match; [|by simplify_eq]. apply res_bind_Ok in E as (info & _ & E). by simplify_eq.
    + apply res_bind_Ok in E as (ot & _ & E). by eapply start_frame.
  - by apply Hframe.
Qed.

Lemma applyN_app ops1 ops2 s : applyN (ops1 ++ ops2) s = applyN ops2 (applyN ops1 s).
Proof. apply foldl_app. Qed.

Lemma kv_run_effect ops kv kv' :
  kv_inv kv → kv_run ops kv kv' →
  kv_inv kv' ∧ machine kv' = applyN ops (machine kv) ∧
  lastApplied kv' = lastApplied kv + Z.of_nat (length ops).
Proof.
  intros Hi Hr. induction Hr as [kv|ops1 ops2 kv1 kv2 kv3 _ IH Hs].
  { split_and!; [done|done|simpl; lia]. }
  destruct (IH Hi) as (Hi2 & Hm2 & Ha2). apply kv_step_effect in Hs as (Hi3 & Hm3 & Ha3); [|done].
  split_and!; [done|by rewrite Hm3, Hm2, applyN_app|rewrite length_app; lia].
Qed.

(** A fresh server. *)
Definition boot (r : R) (maxraftstate : Z) : KVServer R :=
  mkKV r 0 maxraftstate 0 NewMemoryKVStateMachine no_chans ∅.

Lemma kv_boot_inv r m : kv_inv (boot r m).
Proof. apply notify_ok_init. Qed.

(** C9: exactly-once semantics. Whatever interleaving of handlers, retransmitted
    commands and changes of the Raft peer a server goes through, after the
    commands [ops] its map is the one obtained by running [ops] with every
    retransmission removed and no duplicate table, provided each client numbers
    its writes in increasing order; and the server can always apply the next
    command (it neither panics nor blocks on a notification channel). *)
Theorem kv_exactly_once r m ops kv :
  kv_run ops (boot r m) kv →
  lastApplied kv = Z.of_nat (length ops) ∧
  (in_order op_ClientId op_SeqId writes [] ops →
     stateMachine kv =
       run_plain applyToStateMachine (firsts op_ClientId op_SeqId writes [] ops)
         NewMemoryKVStateMachine) ∧
  (∀ msg op, am_CommandValid msg = true → am_Command msg = Some op →
     am_CommandIndex msg = lastApplied kv + 1 → ∃ kv', applyMessage msg kv = Ok kv').
Proof.
  intros Hr. destruct (kv_run_effect _ _ _ (kv_boot_inv r m) Hr) as (Hi & Hm & Ha).
  split_and!; [done| |].
  - intros Ho. change (stateMachine kv) with (machine kv).1. rewrite Hm.
    apply apply_log_firsts; [apply exec_get|apply table_ok_empty|done].
  - intros msg op Hv Hc Hx. destruct (applyMessage_new msg op kv) as (kv' & ? & _); eauto. lia.
Qed.

(** snapshots are faithful. A server in any state that receives the
    snapshot another server made after the commands [ops1] and then the commands
    [ops2] ends in the same replicated state as a server that executed all of
    [ops1 ++ ops2] itself. *)
Theorem kv_snapshot_catch_up r m ops1 kv1 msg kv2 kv2' ops2 kv3 :
  kv_run ops1 (boot r m) kv1 →
  am_CommandValid msg = false → am_SnapshotValid msg = true →
  am_Snapshot msg = snapshot_of kv1 → am_SnapshotIndex msg = lastApplied kv1 →
  kv_inv kv2 → lastApplied kv2 ≤ lastApplied kv1 →
  applyMessage msg kv2 = Ok kv2' → kv_run ops2 kv2' kv3 →
  machine kv3 = applyN (ops1 ++ ops2) (machine (boot r m)) ∧
  lastApplied kv3 = Z.of_nat (length (ops1 ++ ops2)).
Proof.
  intros Hr1 Hv Hs Hsnap Hidx Hi2 Hle E Hr2.
  destruct (kv_run_effect _ _ _ (kv_boot_inv r m) Hr1) as (_ & Hm1 & Ha1).
  unfold applyMessage in E. rewrite Hv, Hs, Hsnap, Hidx in E. simpl in E. simplify_eq.
  apply kv_run_effect in Hr2 as (_ & Hm3 & Ha3).
  - rewrite Hm3, applyN_app, <-Hm1, Ha3. split; [done|].
    simpl. rewrite Ha1, length_app. simpl. lia.
  - unfold kv_inv in *. simpl. by eapply notify_ok_mono.
Qed.
End facts.

(** ** The clerk *)

Section clerk.
Implicit Types (answers : list (bool * OpReply)).

(** A clerk's [PutAppend] returns as soon as some server gives a definitive
    answer, having tried the servers in rotation without leaving the slice; the
    number of the next request is then one larger, so that two requests of a
    clerk never carry the same number and the retries of one request all do. *)
Theorem clerk_PutAppend_spec pre a post ck :
  clerk_ok ck → Forall (λ a, ¬ definitive retry a) pre → definitive retry a →
  ∃ ck', clerk_PutAppend (pre ++ a :: post) ck = Ok ck' ∧ clerk_ok ck' ∧
    leaderId ck' = (leaderId ck + Z.of_nat (length pre)) mod servers ck ∧
    clientId ck' = clientId ck ∧ seqId ck' = seqId ck + 1.
Proof.
  intros Hk Hp Ha. unfold clerk_PutAppend. rewrite call_loop_spec by done. simpl.
  eexists. split; [done|]. split_and!; try done.
  unfold clerk_ok in *. simpl. apply Z.mod_pos_bound. lia.
Qed.
End clerk.
End KV.

(** ** Concrete servers *)

Module KVExample.
Import KV.

#[local] Instance peer : RaftPeer (RF.Raft Op kgob) Op kgob := raft_is_peer (λ _, 1).

(** Peer 0 of three, leader of term 2. *)
Definition leader : RF.Raft Op kgob :=
  let rf := RF.Make 3 0 PS.MakePersister in
  default rf (RF.becomeLeaderLocked (RF.becomeCandidateLocked rf)).

Definition put : Op := mkOp "a" "1" OpPut 7 0.
Definition app : Op := mkOp "a" "2" OpAppend 7 1.
Definition get : Op := mkOp "a" "" OpGet 0 0.
Definition cmd (i : Z) (op : Op) : ApplyMsg Op kgob := mkApplyMsg true (Some op) i false [] 0 0.
Definition ops : list Op := [put; app; app; get].

Definition run_from (kv : KVServer (RF.Raft Op kgob)) (l : list (ApplyMsg Op kgob)) :=
  foldl (λ kv m, match applyMessage m kv with Ok kv' => kv' | _ => kv end) kv l.

Definition at_k (k : nat) : KVServer (RF.Raft Op kgob) :=
  run_from (boot leader (-1)) (imap (λ i op, cmd (Z.of_nat i + 1) op) (take k ops)).

Ltac apply_cmd i op := apply (ks_apply (cmd i op) op); vm_compute; reflexivity.

Lemma two_run : kv_run [put; app] (boot leader (-1)) (at_k 2).
Proof.
  apply (kr_step [put] [app] _ (at_k 1)); [|apply_cmd 2 app].
  apply (kr_step [] [put] _ (at_k 0)); [apply kr_refl|apply_cmd 1 put].
Qed.

Lemma ops_run : kv_run ops (boot leader (-1)) (at_k 4).
Proof.
  apply (kr_step [put; app; app] [get] _ (at_k 3)); [|apply_cmd 4 get].
  apply (kr_step [put; app] [app] _ (at_k 2)); [apply two_run|apply_cmd 3 app].
Qed.

Lemma exactly_once_witness :
  KV (stateMachine (at_k 4)) !! "a"%string = Some "12"%string ∧
  lastApplied (at_k 4) = 4 ∧
  stateMachine (at_k 4) =
    run_plain applyToStateMachine (firsts op_ClientId op_SeqId writes [] ops)
      NewMemoryKVStateMachine.
Proof.
  split; [vm_compute; reflexivity|].
  destruct (kv_exactly_once leader (-1) ops (at_k 4) ops_run) as (H1 & H2 & _).
  split; [exact H1|]. apply H2. clear. simpl.
  split_and!; try done; rewrite ?list_elem_of_singleton.
  - right. intros s Hs. by apply not_elem_of_nil in Hs.
  - right. intros s [= ->]%list_elem_of_singleton. lia.
  - left. apply elem_of_cons. by left.
Defined.

(** A server that missed the first two commands gets them by snapshot. *)
Definition snap_msg : ApplyMsg Op kgob :=
  mkApplyMsg false None 0 true (snapshot_of (at_k 2)) 2 (lastApplied (at_k 2)).
Definition late : KVServer (RF.Raft Op kgob) := run_from (boot leader (-1)) [snap_msg].

Lemma catch_up_witness :
  machine (run_from late [cmd 3 get]) = applyN ([put; app] ++ [get]) (machine (boot leader (-1))) ∧
  lastApplied (run_from late [cmd 3 get]) = 3.
Proof.
  apply (kv_snapshot_catch_up leader (-1) [put; app] (at_k 2) snap_msg (boot leader (-1)) late
           [get] (run_from late [cmd 3 get])).
  - apply two_run.
  - reflexivity.
  - reflexivity.
  - reflexivity.
  - reflexivity.
  - apply kv_boot_inv.
  - vm_compute. discriminate.
  - vm_compute. reflexivity.
  - apply (kr_step [] [get] _ late); [apply kr_refl|].
    apply_cmd 3 get.
Defined.

Lemma clerk_witness :
  ∃ ck', clerk_PutAppend
      ([(false, mkReply "" ErrNone); (true, mkReply "" ErrWrongLeader)] ++
       (true, mkReply "" OK) :: []) (MakeClerk 3 9) = Ok ck' ∧ clerk_ok ck' ∧
    leaderId ck' = (0 + 2) mod 3 ∧ clientId ck' = 9 ∧ seqId ck' = 0 + 1.
Proof.
  apply (clerk_PutAppend_spec [(false, mkReply "" ErrNone); (true, mkReply "" ErrWrongLeader)]
           (true, mkReply "" OK) [] (MakeClerk 3 9)).
  - split; simpl; lia.
  - repeat constructor; unfold definitive; simpl; naive_solver.
  - unfold definitive. simpl. naive_solver.
Defined.

(** ** A result is delivered by log index only

    The handler of client 7's [put] waits at index 1.  The peer loses its
    leadership, the leader of term 3 replaces index 1 by a write of client 8,
    and the peer is elected again in term 4 and commits. *)

Definition args : PutAppendArgs := mkPA "a" "1" "Put" 7 0.
Definition other : Op := mkOp "b" "2" OpPut 8 0.
Definition env : Env := mkEnv 0 0.

(** The peer from the moment the handler waits until the entries are applied. *)
Definition overtaken (rf : RF.Raft Op kgob) : option (RF.Raft Op kgob * list (ApplyMsg Op kgob)) :=
  '(rf, _) ← RF.AppendEntries env (RF.mkAEArgs 3 1 0 0 [mkEntry 3 true (Some other)] 0) rf;
  rf ← RF.becomeLeaderLocked (RF.becomeCandidateLocked rf);
  let rf := (RF.Start (Some get) rf).1 in
  '(rf, _, _) ← RF.startReplication 4 rf;
  rf ← RF.replicateToPeer 4 1 (RF.mkAEArgs 4 0 1 3 [mkEntry 4 true (Some get)] 0) true
         (RF.mkAEReply 4 true 0 0) rf;
  '(rf, work) ← RF.app_prepare rf;
  Some (rf, RF.app_send work rf).

Definition script : res (KVServer (RF.Raft Op kgob) * pc) :=
  '(kv, p) ← PutAppend_step args false PDup (boot leader (-1));
  '(kv, p) ← PutAppend_step args false p kv;
  '(kv, p) ← PutAppend_step args false p kv;
  '(rf', msgs) ← or_panic (overtaken (rf kv));
  let kv := set_rf rf' kv in
  kv ← foldl (λ o m, o ≫= applyMessage m) (Ok kv) msgs;
  '(kv, p) ← PutAppend_step args false p kv;
  PutAppend_step args false p kv.

(** C40: a server can acknowledge a write that was never executed. The client of
    [put] is answered [OK], yet the command is in no log entry of the server's
    peer and the key does not exist. *)
Theorem lost_write_acknowledged :
  ∃ kv, script = Ok (kv, PDone (mkReply "" OK)) ∧
    Get (stateMachine kv) "a" = (""%string, ErrNoKey) ∧
    lastApplied kv = RL.size (RF.log (rf kv)) - 1 ∧
    ∀ i en, RL.at_ (RF.log (rf kv)) i = Some en → le_Command en ≠ Some put.
Proof.
  destruct script as [[kv p]| |] eqn:E; [|vm_compute in E; done|vm_compute in E; done].
  vm_compute in E. injection E as <- <-. eexists. split; [reflexivity|].
  split; [vm_compute; reflexivity|]. split; [vm_compute; reflexivity|].
  intros i en. rewrite RL.at_slice. intros [_ H]%slice_get_Some. simpl in H.
  destruct (Z.to_nat _) as [|[|[|]]]; simplify_eq/=; done.
Qed.
End KVExample.
