(* ===== verification/KVReplicas.v ===== *)
(** * The kvraft servers of one cluster

    The composition of [kvraft/server.go] with [raft/]: servers whose [applyTask] reads
    the messages that the peers of one cluster put on their [applyCh].  State Machine
    Safety of the peers ([RaftDelivery]) and the effect of a run of a server ([KVRaft])
    give the agreement of the replicas. *)
From stdpp Require Import strings.
From S2P Require Import Prelude Gob RaftLog Raft RaftNet RaftSafety RaftDelivery Service KVRaft.
Import RF KV.
#[local] Open Scope Z_scope.

(** ** A server on the channel of its peer *)

Section fed.
Context {R : Type} `{!RaftPeer R Op kgob}.
Implicit Types (kv : KVServer R) (feed : list (ApplyMsg Op kgob)).

(** One step: [applyTask] takes a command from [feed] that leaves no index out, an RPC
    handler runs up to its next release of the lock, or the Raft peer changes. *)
Inductive fed_step feed : KVServer R → KVServer R → Prop :=
  | fs_command m kv kv' :
      m ∈ feed → am_CommandValid m = true → am_CommandIndex m ≤ lastApplied kv + 1 →
      applyMessage m kv = Ok kv' → fed_step feed kv kv'
  | fs_get key timeout p p' kv kv' :
      Get_step key timeout p kv = Ok (kv', p') → fed_step feed kv kv'
  | fs_put args timeout p p' kv kv' :
      PutAppend_step args timeout p kv = Ok (kv', p') → fed_step feed kv kv'
  | fs_raft r kv : fed_step feed kv (set_rf r kv).

(** [ops] are commands of [feed], the first one at index [base + 1]. *)
Definition taken feed (base : Z) (ops : list Op) : Prop :=
  ∀ k op, ops !! k = Some op → ∃ m, m ∈ feed ∧ am_CommandValid m = true ∧
    am_CommandIndex m = base + Z.of_nat k + 1 ∧ am_Command m = Some op.

Lemma taken_nil feed base : taken feed base [].
Proof. by intros k op E. Qed.

Lemma taken_app feed base ops1 ops2 :
  taken feed base ops1 → taken feed (base + len ops1) ops2 → taken feed base (ops1 ++ ops2).
Proof.
  intros H1 H2 k op [E|[Hk E]]%lookup_app_Some; [by apply H1|].
  destruct (H2 _ _ E) as (m & ? & ? & Hm & ?). exists m. unfold len in *. split_and!; try done. lia.
Qed.

Lemma taken_tail feed base ops1 ops2 :
  taken feed base (ops1 ++ ops2) → taken feed (base + len ops1) ops2.
Proof.
  intros H k op E. destruct (H (length ops1 + k)%nat op) as (m & ? & ? & Hm & ?).
  { rewrite lookup_app_r by lia. by replace (length ops1 + k - length ops1)%nat with k by lia. }
  exists m. unfold len. split_and!; try done. lia.
Qed.

Lemma fed_step_takes feed kv kv' :
  fed_step feed kv kv' → ∃ ops, kv_step ops kv kv' ∧ taken feed (lastApplied kv) ops.
Proof.
  intros [m kv1 kv2 Hm Hv Hi E| | |].
  - destruct (decide (am_CommandIndex m ≤ lastApplied kv1)) as [Hs|Hs].
    { exists []. split; [by eapply ks_stale|apply taken_nil]. }
    destruct (am_Command m) as [op|] eqn:Hc.
    + exists [op]. split; [eapply ks_apply; [done|done|lia|done]|].
      intros k op' [-> ->]%list_lookup_singleton_Some. exists m. split_and!; try done. lia.
    + unfold applyMessage in E. rewrite Hv, Hc in E. case_match; [lia|done].
  - exists []. split; [by eapply ks_get|apply taken_nil].
  - exists []. split; [by eapply ks_put|apply taken_nil].
  - exists []. split; [apply ks_raft|apply taken_nil].
Qed.

(** A run of a fresh server executes a prefix of what its peer delivers. *)
Lemma fed_run_takes feed r m kv :
  rtc (fed_step feed) (boot r m) kv → ∃ ops, kv_run ops (boot r m) kv ∧ taken feed 0 ops.
Proof.
  revert kv. apply (rtc_ind_r (λ kv, ∃ ops, kv_run ops (boot r m) kv ∧ taken feed 0 ops)).
  { exists []. split; [apply kr_refl|apply taken_nil]. }
  intros kv1 kv2 _ Hs (ops & Hr & Ht).
  destruct (fed_step_takes _ _ _ Hs) as (ops2 & Hs2 & Ht2).
  destruct (kv_run_effect _ _ _ (kv_boot_inv r m) Hr) as (_ & _ & Ha).
  exists (ops ++ ops2). split; [by eapply kr_step|]. apply taken_app; [done|].
  by rewrite Ha in Ht2.
Qed.
End fed.

(** ** Agreement *)

Section agreement.
Context {R R' : Type} `{!RaftPeer R Op kgob} `{!RaftPeer R' Op kgob}.

(** The commands taken from two peers of a cluster: one list is a prefix of the other. *)
Lemma taken_prefix n (s : Net.net Op kgob) p q msp msq ops ops' :
  rtc orderly_next (Net.init n) s → Net.applied s !! p = Some msp → Net.applied s !! q = Some msq →
  taken msp 0 ops → taken msq 0 ops' → (length ops ≤ length ops')%nat → ops `prefix_of` ops'.
Proof.
  intros Hs Hp Hq Ht Ht' Hl. exists (drop (length ops) ops'). rewrite <-(take_drop (length ops) ops') at 1. f_equal.
  apply list_eq_same_length with (length ops); [done|by rewrite length_take; lia|].
  intros k op' op Hk E' E. rewrite lookup_take_lt in E' by done.
  destruct (Ht k op E) as (m & Hm & Hv & Hi & Hc), (Ht' k op' E') as (m' & Hm' & Hv' & Hi' & Hc').
  destruct (deliveries_agree n s p q msp msq m m') as (e & He & He'); [done..|lia|congruence].
Qed.

(** C4: the replicas agree. In every run of a cluster of Raft peers that is [orderly]
    (requests are encoded with the entries they were built with, [AppendEntries] cuts off
    only entries it contradicts, [InstallSnapshot] keeps only entries that follow the
    snapshot), take two
    kvraft servers, each started empty, reading the commands its peer delivered without
    leaving out an index, with handlers, retransmissions and changes of the Raft peer in
    between: at the same [lastApplied] their maps and duplicate tables are equal, and a
    server further ahead is in the state the other one reaches by executing exactly the
    commands delivered at the indices between. *)
Theorem kv_replicas_agree n (s : Net.net Op kgob) p q msp msq (r : R) (r' : R') mx mx' kv kv' :
  rtc orderly_next (Net.init n) s → Net.applied s !! p = Some msp → Net.applied s !! q = Some msq →
  rtc (fed_step msp) (boot r mx) kv → rtc (fed_step msq) (boot r' mx') kv' →
  lastApplied kv ≤ lastApplied kv' →
  (lastApplied kv = lastApplied kv' → machine kv = machine kv') ∧
  ∃ ops, machine kv' = applyN ops (machine kv) ∧ len ops = lastApplied kv' - lastApplied kv ∧
    taken msq (lastApplied kv) ops.
Proof.
  intros Hs Hp Hq Hr Hr' Hle.
  destruct (fed_run_takes _ _ _ _ Hr) as (ops & Hk & Ht), (fed_run_takes _ _ _ _ Hr') as (ops' & Hk' & Ht').
  destruct (kv_run_effect _ _ _ (kv_boot_inv r mx) Hk) as (_ & Hm & Ha).
  destruct (kv_run_effect _ _ _ (kv_boot_inv r' mx') Hk') as (_ & Hm' & Ha'). simpl in *.
  destruct (taken_prefix n s p q msp msq ops ops') as [tl ->]; [done..|lia|].
  apply taken_tail in Ht'. change (machine (boot r' mx')) with (machine (boot r mx)) in Hm'.
  rewrite applyN_app, <-Hm in Hm'. rewrite length_app in Ha'.
  unfold len in *. split; [|exists tl; split_and!; [done|lia|by rewrite Ha]].
  intros Heq. rewrite Hm'. destruct tl; [done|simpl in *; lia].
Qed.
End agreement.

(** ** A cluster *)

Module KVCluster.
Import Net SafeRun.

#[local] Instance peer : RaftPeer (RF.Raft Op kgob) Op kgob := raft_is_peer (λ _, 1).

(** Peer 0 is elected in term 2 and replicates a write to peer 1; both deliver it. *)
Definition put : Op := mkOp "a" "1" OpAppend 7 0.
Definition events : list (Net.event Op kgob) :=
  [EWait 0; EWait 1; ETick 0 e1; ERun 0 e1; ERun 0 e1; ERun 1 e1; EStart 0 (Some put); ERun 1 e1; ERun 1 e1; ERun 3 e1;
   EPrepare 0; ERun 3 e1; ERun 2 e1; ERun 3 e1; EPrepare 1; ERun 6 e1].
Definition final : Net.net Op kgob := default (init 3) (checked_run events (init 3)).
Definition first : ApplyMsg Op kgob := mkApplyMsg true (Some put) 1 false [] 0 0.

Lemma cluster_run : rtc orderly_next (init 3) final.
Proof. apply (checked_run_orderly events). vm_compute. reflexivity. Qed.

(** A server that takes the first message. *)
Definition server (p : Z) : KVServer (RF.Raft Op kgob) :=
  let kv := boot (RF.Make 3 p PS.MakePersister) (-1) in
  match applyMessage first kv with Ok kv' => kv' | _ => kv end.

Lemma server_fed p : p = 0 ∨ p = 1 →
  rtc (fed_step [first]) (boot (RF.Make 3 p PS.MakePersister) (-1)) (server p).
Proof.
  intros H. apply rtc_once. apply (fs_command _ first); [by apply list_elem_of_singleton|done|done|].
  destruct H as [->| ->]; vm_compute; reflexivity.
Qed.

Lemma kv_replicas_agree_witness :
  KV.KV (stateMachine (server 0)) !! "a"%string = Some "1"%string ∧ machine (server 0) = machine (server 1).
Proof.
  split; [vm_compute; reflexivity|].
  apply (kv_replicas_agree 3 final 0 1 [first] [first]
    (RF.Make 3 0 PS.MakePersister) (RF.Make 3 1 PS.MakePersister) (-1) (-1) (server 0) (server 1)).
  - apply cluster_run.
  - vm_compute. reflexivity.
  - vm_compute. reflexivity.
  - apply server_fed. by left.
  - apply server_fed. by right.
  - vm_compute. discriminate.
  - vm_compute. reflexivity.
Defined.
End KVCluster.
