(* ===== verification/ShardCtrler.v ===== *)
(** The shard controller: [src/src/shardctrler].

    Module [SC] models the configurations and the four operations on them
    ([state_machine.go]), the server ([server.go]) and the clerk ([client.go]).
    A Go array [[NShards]int] is a list of length [NShards]; the order in which
    [range] visits a map is the class [RangeOrder]. *)

From stdpp Require Import strings.
From S2P Require Import Prelude Gob RaftLog Raft Service.

#[local] Open Scope Z_scope.

Module SC.

(** ** [common.go] *)

Definition NShards : Z := 10.

Record Config := mkConfig {
  Num : Z;
  Shards : list Z;
  Groups : gmap Z (list string)
}.

Definition DefaultConfig : Config := mkConfig 0 (replicate (Z.to_nat NShards) 0) ∅.

(** [ErrNone] is the empty string. *)
Inductive Err := OK | ErrNoKey | ErrWrongLeader | ErrTimeout | ErrNone.

#[export] Instance Err_eq_dec : EqDecision Err.
Proof. solve_decision. Defined.

Inductive OperationType := OpJoin | OpLeave | OpMove | OpQuery.

#[export] Instance OperationType_eq_dec : EqDecision OperationType.
Proof. solve_decision. Defined.

Record Op := mkOp {
  op_Servers : gmap Z (list string);
  op_GIDs : list Z;
  op_Shard : Z;
  op_GID : Z;
  op_Num : Z;
  op_OpType : OperationType;
  op_ClientId : Z;
  op_SeqId : Z
}.

Record OpReply := mkReply {
  or_ControllerConfig : Config;
  or_Err : Err
}.

(** [Config{}]: the zero value, with a nil map. *)
Definition zeroConfig : Config := mkConfig 0 (replicate (Z.to_nat NShards) 0) ∅.

(** ** [state_machine.go] *)

Record CtrlerStateMachine := mkCSM { Configs : list Config }.
Implicit Types (csm : CtrlerStateMachine) (m : gmap Z (list Z)).

Definition NewCtrlerStateMachine : CtrlerStateMachine := mkCSM [DefaultConfig].

(** [None] is an index out of range. *)
Definition Query csm (num : Z) : option (Config * Err) :=
  cfg ← (if (num <? 0) || (len (Configs csm) <=? num)
         then slice_get (Configs csm) (len (Configs csm) - 1)
         else slice_get (Configs csm) num);
  Some (cfg, OK).

(** [gidToShards[gid]]: a missing key reads as the empty slice. *)
Definition shards_of m (gid : Z) : list Z := default [] (m !! gid).

Section ops.
Context {ro : RangeOrder}.

Definition copyGroups (groups : gmap Z (list string)) : gmap Z (list string) :=
  foldl (λ g '(gid, servers), <[gid := servers]> g) ∅ (map_range groups).

Definition gidWithMaxShards m : Z :=
  if bool_decide (is_Some (m !! 0)) && (0 <? len (shards_of m 0)) then 0
  else
    (foldl (λ '(maxGid, maxShards) gid,
        if maxShards <? len (shards_of m gid) then (gid, len (shards_of m gid))
        else (maxGid, maxShards)) (-1, -1) (sort_Ints (map_range m).*1)).1.

Definition gidWithMinShards m : Z :=
  (foldl (λ '(minGid, minShards) gid,
      if negb (gid =? 0) && (len (shards_of m gid) <? minShards)
      then (gid, len (shards_of m gid))
      else (minGid, minShards)) (-1, NShards + 1) (sort_Ints (map_range m).*1)).1.

(** The new configuration both [Join] and [Leave] start from. *)
Definition nextConfig csm : option Config :=
  let num := len (Configs csm) in
  lastConfig ← slice_get (Configs csm) (num - 1);
  Some (mkConfig num (Shards lastConfig) (copyGroups (Groups lastConfig))).

Definition addGroups (groups g : gmap Z (list string)) : gmap Z (list string) :=
  foldl (λ g '(gid, servers),
    if bool_decide (is_Some (g !! gid)) then g else <[gid := servers]> g) g (map_range groups).

Definition gidToShards (cfg : Config) : gmap Z (list Z) :=
  let m := foldl (λ m '(gid, _), <[gid := []]> m) ∅ (map_range (Groups cfg)) in
  foldl (λ m '(shard, gid), <[gid := shards_of m gid ++ [shard]]> m) m
    (imap (λ i gid, (Z.of_nat i, gid)) (Shards cfg)).

(** The [for] loop of [Join]: one iteration, and the loop with fuel. *)
Definition rebalance_step m : option (gmap Z (list Z) * bool) :=
  let maxGid := gidWithMaxShards m in
  let minGid := gidWithMinShards m in
  if negb (maxGid =? 0) && (len (shards_of m maxGid) - len (shards_of m minGid) <=? 1)
  then Some (m, true)
  else
    shard ← slice_get (shards_of m maxGid) 0;
    let m := <[minGid := shards_of m minGid ++ [shard]]> m in
    let m := <[maxGid := drop 1 (shards_of m maxGid)]> m in
    Some (m, false).

Fixpoint rebalance (fuel : nat) m : option (gmap Z (list Z)) :=
  match fuel with
  | O => None
  | S fuel =>
      '(m, done) ← rebalance_step m;
      if done : bool then Some m else rebalance fuel m
  end.

(** [newShards] filled from [gidToShards]. *)
Definition storeShards m : option (list Z) :=
  foldl (λ o '(gid, shards),
      foldl (λ o shard, a ← o; slice_set a shard gid) o shards)
    (Some (replicate (Z.to_nat NShards) 0)) (map_range m).

(** Enough iterations for ten shards, see [rebalance_terminates]. *)
Definition join_fuel : nat := 321.

Definition Join (groups : gmap Z (list string)) csm : option (CtrlerStateMachine * Err) :=
  newConfig ← nextConfig csm;
  let newConfig := mkConfig (Num newConfig) (Shards newConfig)
                     (addGroups groups (Groups newConfig)) in
  m ← rebalance join_fuel (gidToShards newConfig);
  newShards ← storeShards m;
  let newConfig := mkConfig (Num newConfig) newShards (Groups newConfig) in
  Some (mkCSM (Configs csm ++ [newConfig]), OK).

(** The loop of [Leave] over the leaving groups: groups, map, unassigned shards. *)
Definition leave_step (st : gmap Z (list string) * gmap Z (list Z) * list Z) (gid : Z)
    : gmap Z (list string) * gmap Z (list Z) * list Z :=
  let '(g, m, unassigned) := st in
  let g := if bool_decide (is_Some (g !! gid)) then delete gid g else g in
  match m !! gid with
  | Some shards => (g, delete gid m, unassigned ++ shards)
  | None => (g, m, unassigned)
  end.

Definition leave_loop (gids : list Z) (g : gmap Z (list string)) m
    : gmap Z (list string) * gmap Z (list Z) * list Z :=
  foldl leave_step (g, m, []) gids.

Definition assign_min (unassigned : list Z) m : gmap Z (list Z) :=
  foldl (λ m shard,
      let minGid := gidWithMinShards m in
      <[minGid := shards_of m minGid ++ [shard]]> m) m unassigned.

Definition Leave (gids : list Z) csm : option (CtrlerStateMachine * Err) :=
  newConfig ← nextConfig csm;
  let '(g, m, unassigned) := leave_loop gids (Groups newConfig) (gidToShards newConfig) in
  newShards ←
    (if negb (Z.of_nat (size g) =? 0) then storeShards (assign_min unassigned m)
     else Some (replicate (Z.to_nat NShards) 0));
  let newConfig := mkConfig (Num newConfig) newShards g in
  Some (mkCSM (Configs csm ++ [newConfig]), OK).

Definition Move (shardid gid : Z) csm : option (CtrlerStateMachine * Err) :=
  newConfig ← nextConfig csm;
  newShards ← slice_set (Shards newConfig) shardid gid;
  let newConfig := mkConfig (Num newConfig) newShards (Groups newConfig) in
  Some (mkCSM (Configs csm ++ [newConfig]), OK).

(** ** [server.go] *)

(** The controller makes no snapshots: its Raft peer stores bytes of any type. *)
Context {R SB : Type} `{!RaftPeer R Op SB}.

Record ShardCtrler := mkSC {
  rf : R;
  dead : Z;
  lastApplied : Z;
  stateMachine : CtrlerStateMachine;
  notifyChans : Notify OpReply;
  duplicateTable : gmap Z (LastOperationInfo OpReply)
}.
Implicit Types sc : ShardCtrler.

Definition set_rf v sc := mkSC v (dead sc) (lastApplied sc) (stateMachine sc) (notifyChans sc) (duplicateTable sc).
Definition set_lastApplied v sc := mkSC (rf sc) (dead sc) v (stateMachine sc) (notifyChans sc) (duplicateTable sc).
Definition set_stateMachine v sc := mkSC (rf sc) (dead sc) (lastApplied sc) v (notifyChans sc) (duplicateTable sc).
Definition set_notifyChans v sc := mkSC (rf sc) (dead sc) (lastApplied sc) (stateMachine sc) v (duplicateTable sc).
Definition set_duplicateTable v sc := mkSC (rf sc) (dead sc) (lastApplied sc) (stateMachine sc) (notifyChans sc) v.

Definition requestDuplicated (clientId seqId : Z) sc : bool :=
  duplicated (duplicateTable sc) clientId seqId.

Definition getNotifyChannel (index : Z) sc : ShardCtrler * nat :=
  let '(n, c) := notify_get index (notifyChans sc) in (set_notifyChans n sc, c).

Definition removeNotifyChannel (index : Z) sc : ShardCtrler :=
  set_notifyChans (notify_remove index (notifyChans sc)) sc.

(** [None] when the operation panics. *)
Definition applyToStateMachine (op : Op) csm : option (CtrlerStateMachine * OpReply) :=
  match op_OpType op with
  | OpQuery => '(cfg, err) ← Query csm (op_Num op); Some (csm, mkReply cfg err)
  | OpJoin => '(csm, err) ← Join (op_Servers op) csm; Some (csm, mkReply zeroConfig err)
  | OpLeave => '(csm, err) ← Leave (op_GIDs op) csm; Some (csm, mkReply zeroConfig err)
  | OpMove => '(csm, err) ← Move (op_Shard op) (op_GID op) csm; Some (csm, mkReply zeroConfig err)
  end.

(** The block of [applyTask] that executes a command unless it is a duplicate. *)
Definition applyOp (op : Op) sc : res (ShardCtrler * OpReply) :=
  if bool_decide (op_OpType op ≠ OpQuery) && requestDuplicated (op_ClientId op) (op_SeqId op) sc
  then
    info ← or_panic (duplicateTable sc !! op_ClientId op);
    Ok (sc, li_Reply info)
  else
    '(sm, opReply) ← or_panic (applyToStateMachine op (stateMachine sc));
    let sc := set_stateMachine sm sc in
    let sc := if bool_decide (op_OpType op ≠ OpQuery)
              then set_duplicateTable
                     (<[op_ClientId op := mkInfo (op_SeqId op) opReply]> (duplicateTable sc)) sc
              else sc in
    Ok (sc, opReply).

(** What [applyTask] does with one message. *)
Definition applyMessage (message : ApplyMsg Op SB) sc : res ShardCtrler :=
  if am_CommandValid message then
    if am_CommandIndex message <=? lastApplied sc then Ok sc
    else
      let sc := set_lastApplied (am_CommandIndex message) sc in
      op ← or_panic (am_Command message);
      '(sc, opReply) ← applyOp op sc;
      if (rp_GetState (rf sc)).2 then
        let '(sc, notifyCh) := getNotifyChannel (am_CommandIndex message) sc in
        n ← chan_send notifyCh opReply (notifyChans sc);
        Ok (set_notifyChans n sc)
      else Ok sc
  else Ok sc.

Inductive pc :=
  | PDup
  | PStart
  | PChan (index : Z)
  | PWait (index : Z) (ch : nat)
  | PRemove (index : Z) (reply : OpReply)
  | PDone (reply : OpReply).

(** [command], one step per critical section. *)
Definition command_step (args : Op) (timeout : bool) (p : pc) sc : res (ShardCtrler * pc) :=
  match p with
  | PDup =>
      if bool_decide (op_OpType args ≠ OpQuery) &&
         requestDuplicated (op_ClientId args) (op_SeqId args) sc
      then
        info ← or_panic (duplicateTable sc !! op_ClientId args);
        Ok (sc, PDone (mkReply zeroConfig (or_Err (li_Reply info))))
      else Ok (sc, PStart)
  | PStart =>
      let '(rf', (index, _, isLeader)) := rp_Start (Some args) (rf sc) in
      let sc := set_rf rf' sc in
      if negb isLeader then Ok (sc, PDone (mkReply zeroConfig ErrWrongLeader))
      else Ok (sc, PChan index)
  | PChan index =>
      let '(sc, ch) := getNotifyChannel index sc in Ok (sc, PWait index ch)
  | PWait index ch =>
      if timeout then Ok (sc, PRemove index (mkReply zeroConfig ErrTimeout))
      else match chan_recv ch (notifyChans sc) with
           | Some (result, n) => Ok (set_notifyChans n sc, PRemove index result)
           | None => Block
           end
  | PRemove index reply => Ok (removeNotifyChannel index sc, PDone reply)
  | PDone reply => Ok (sc, PDone reply)
  end.

(** The operations the four RPC handlers submit to [command]. *)
Definition rpc_Join (servers : gmap Z (list string)) (clientId seqId : Z) : Op :=
  mkOp servers [] 0 0 0 OpJoin clientId seqId.
Definition rpc_Leave (gids : list Z) (clientId seqId : Z) : Op :=
  mkOp ∅ gids 0 0 0 OpLeave clientId seqId.
Definition rpc_Move (shard gid clientId seqId : Z) : Op :=
  mkOp ∅ [] shard gid 0 OpMove clientId seqId.
Definition rpc_Query (num : Z) : Op := mkOp ∅ [] 0 0 num OpQuery 0 0.

Definition Kill sc : ShardCtrler :=
  mkSC (rp_Kill (rf sc)) 1 (lastApplied sc) (stateMachine sc) (notifyChans sc) (duplicateTable sc).

Definition StartServer (r : R) : ShardCtrler :=
  mkSC r 0 0 NewCtrlerStateMachine no_chans ∅.
End ops.
Arguments ShardCtrler : clear implicits.

(** ** [client.go] *)

Definition retry (reply : OpReply) : bool :=
  bool_decide (or_Err reply = ErrWrongLeader) || bool_decide (or_Err reply = ErrTimeout).

Definition clerk_Query (answers : list (bool * OpReply)) (ck : Clerk) : res (Clerk * Config) :=
  '(ck, reply) ← call_loop retry answers ck; Ok (ck, or_ControllerConfig reply).

(** Each change is sent with the clerk's current number, which then grows. *)
Definition clerk_change (answers : list (bool * OpReply)) (ck : Clerk) : res Clerk :=
  '(ck, _) ← call_loop retry answers ck; Ok (next_seq ck).

Definition clerk_Join (groups : gmap Z (list string)) (ck : Clerk) : Op :=
  rpc_Join groups (clientId ck) (seqId ck).
Definition clerk_Leave (gids : list Z) (ck : Clerk) : Op :=
  rpc_Leave gids (clientId ck) (seqId ck).
Definition clerk_Move (shard gid : Z) (ck : Clerk) : Op :=
  rpc_Move shard gid (clientId ck) (seqId ck).
End SC.
