(* ===== verification/ShardCtrlerFacts.v ===== *)
(** What the shard controller computes.

    [part m pend] says that the map [m] from groups to shards, together with the
    shards [pend] that are waiting to be assigned, is a partition of the
    shards; every loop of [Join] and [Leave] keeps it.  The theorems: [Join]
    terminates and balances the load, [Leave] moves only the shards of the
    leaving groups, and what either computes does not depend on the order in
    which Go ranges over its maps, so all replicas agree. *)

From stdpp Require Import strings.
From S2P Require Import Prelude Gob RaftLog Raft Service ShardCtrler.
Import SC.

#[local] Open Scope Z_scope.

Implicit Types (m : gmap Z (list Z)) (pend : list Z).

Lemma shards_of_insert m k l j :
  shards_of (<[k := l]> m) j = if decide (k = j) then l else shards_of m j.
Proof.
  unfold shards_of. case_decide as H; [subst; by rewrite lookup_insert_eq|].
  by rewrite lookup_insert_ne.
Qed.

(** ** Sums over the groups *)

Definition msum (f : Z → list Z → Z) m : Z := map_fold (λ k l acc, f k l + acc) 0 m.

Lemma msum_delete f m k l :
  m !! k = Some l → msum f m = f k l + msum f (delete k m).
Proof. intros H. unfold msum. rewrite (map_fold_delete_L _ _ k l m); [done|lia|done]. Qed.

Lemma msum_insert f m k l :
  f k [] = 0 → msum f (<[k := l]> m) = msum f m - f k (shards_of m k) + f k l.
Proof.
  intros H0. rewrite (msum_delete f (<[k := l]> m) k l) by apply lookup_insert_eq.
  rewrite delete_insert_eq. unfold shards_of. destruct (m !! k) as [l0|] eqn:E; simpl.
  - rewrite (msum_delete f m k l0 E). lia.
  - rewrite delete_id by done. lia.
Qed.

Lemma msum_add f m k l : m !! k = None → msum f (<[k := l]> m) = f k l + msum f m.
Proof.
  intros H. rewrite (msum_delete f (<[k := l]> m) k l) by apply lookup_insert_eq.
  by rewrite delete_insert_id.
Qed.

Lemma msum_mono f1 f2 m :
  (∀ k l, m !! k = Some l → f1 k l ≤ f2 k l) → msum f1 m ≤ msum f2 m.
Proof.
  induction m as [|k l m Hk IH] using map_ind; intros H; [done|].
  rewrite !msum_add by done.
  assert (f1 k l ≤ f2 k l) by (apply H, lookup_insert_eq).
  assert (msum f1 m ≤ msum f2 m); [|lia]. apply IH. intros j l' Hj. apply H.
  rewrite lookup_insert_ne; naive_solver.
Qed.

Lemma msum_nonneg f m : (∀ k l, 0 ≤ f k l) → 0 ≤ msum f m.
Proof.
  intros H. induction m as [|k l m Hk IH] using map_ind; [done|].
  rewrite msum_add by done. specialize (H k l). lia.
Qed.

Definition total m : Z := msum (λ _ l, len l) m.

(** ** Partitions *)

Record part m pend : Prop := {
  p_in : ∀ s, 0 ≤ s < NShards → s ∈ pend ∨ ∃ gid, s ∈ shards_of m gid;
  p_range : ∀ gid s, s ∈ shards_of m gid → 0 ≤ s < NShards;
  p_uniq : ∀ g1 g2 s, s ∈ shards_of m g1 → s ∈ shards_of m g2 → g1 = g2;
  p_nodup : ∀ gid, NoDup (shards_of m gid);
  p_pend : NoDup pend;
  p_pend_range : ∀ s, s ∈ pend → 0 ≤ s < NShards;
  p_disj : ∀ gid s, s ∈ pend → s ∉ shards_of m gid
}.

Lemma part_len m pend gid : part m pend → len (shards_of m gid) ≤ NShards.
Proof.
  intros H. unfold len.
  assert (shards_of m gid ⊆+ seqZ 0 NShards) as Hs.
  { apply NoDup_submseteq; [apply H|]. intros s Hs. apply elem_of_seqZ.
    apply (p_range _ _ H) in Hs. lia. }
  apply submseteq_length in Hs. rewrite length_seqZ in Hs. unfold NShards in *. lia.
Qed.

(** Giving a pending shard to a group. *)
Lemma part_assign m s pend gid :
  part m (s :: pend) → part (<[gid := shards_of m gid ++ [s]]> m) pend.
Proof.
  intros [Hin Hr Hu Hn Hp Hpr Hd]. inversion Hp as [|? ? Hs Hp']; subst.
  assert (∀ g x, x ∈ shards_of (<[gid := shards_of m gid ++ [s]]> m) g ↔
                 x ∈ shards_of m g ∨ (g = gid ∧ x = s)) as He.
  { intros g x. rewrite shards_of_insert. case_decide; subst; [|naive_solver].
    rewrite elem_of_app, list_elem_of_singleton. naive_solver. }
  split.
  - intros x Hx. destruct (Hin x Hx) as [[->|?]%elem_of_cons|[g Hg]].
    + right. exists gid. apply He. by right.
    + by left.
    + right. exists g. apply He. by left.
  - intros g x [?|[-> ->]]%He; [by eapply Hr|]. apply Hpr. by left.
  - intros g1 g2 x [H1|[-> ->]]%He [H2|[-> Hx]]%He.
    + by eapply Hu.
    + subst. by destruct (Hd g1 s (list_elem_of_here _ _)).
    + by destruct (Hd g2 s (list_elem_of_here _ _)).
    + done.
  - intros g. rewrite shards_of_insert. case_decide; [subst|done].
    apply list.NoDup_app. split_and!; [done| |apply NoDup_singleton].
    intros x Hx ->%list_elem_of_singleton. by destruct (Hd g s (list_elem_of_here _ _)).
  - done.
  - intros x Hx. apply Hpr. by right.
  - intros g x Hx [H|[_ ->]]%He; [|done]. apply (Hd g x); [by right|done].
Qed.

(** Taking the first shard of a group away. *)
Lemma part_take m s l gid :
  part m [] → shards_of m gid = s :: l → part (<[gid := l]> m) [s].
Proof.
  intros [Hin Hr Hu Hn Hp Hpr Hd] E. pose proof (Hn gid) as Hng. rewrite E in Hng.
  inversion Hng as [|? ? Hs Hl]; subst.
  assert (∀ g x, x ∈ shards_of (<[gid := l]> m) g → x ∈ shards_of m g ∧ x ≠ s) as He.
  { intros g x. rewrite shards_of_insert. case_decide; subst.
    - intros Hx. rewrite E. split; [by right|]. naive_solver.
    - intros Hx. split; [done|]. intros ->.
      assert (gid = g); [|done]. apply (Hu _ _ s); [rewrite E; by left|done]. }
  split.
  - intros x Hx. destruct (decide (x = s)) as [->|]; [left; by left|right].
    destruct (Hin x Hx) as [Hx0|[g Hg]]; [by apply not_elem_of_nil in Hx0|]. exists g.
    rewrite shards_of_insert. case_decide; [subst|done]. rewrite E in Hg.
    by apply elem_of_cons in Hg as [?|?].
  - intros g x [? _]%He. by eapply Hr.
  - intros g1 g2 x [? _]%He [? _]%He. by eapply Hu.
  - intros g. rewrite shards_of_insert. by case_decide.
  - apply NoDup_singleton.
  - intros x ->%list_elem_of_singleton. apply (Hr gid). rewrite E. by left.
  - intros g x ->%list_elem_of_singleton [_ ?]%He. done.
Qed.

(** ** The two selections *)

Section select.
Context {ro : RangeOrder}.

Lemma sorted_keys m k : k ∈ sort_Ints (map_range m).*1 ↔ k ∈ dom m.
Proof. rewrite sort_Ints_perm. apply map_range_keys. Qed.

(** The selection loops, for a load [f]: the first key with the largest
    (smallest) load. *)
Lemma max_fold (f : Z → Z) ks g n :
  let r := foldl (λ '(mg, ms) gid, if ms <? f gid then (gid, f gid) else (mg, ms)) (g, n) ks in
  n ≤ r.2 ∧ (∀ k, k ∈ ks → f k ≤ r.2) ∧ ((r = (g, n)) ∨ (r.1 ∈ ks ∧ r.2 = f r.1)).
Proof.
  revert g n. induction ks as [|k ks IH]; intros g n; simpl.
  { split_and!; [lia| |by left]. intros k Hk. by apply not_elem_of_nil in Hk. }
  destruct (Z.ltb_spec n (f k)).
  - destruct (IH k (f k)) as (H1 & H2 & H3). split_and!; [lia| |].
    + intros j [->|Hj]%elem_of_cons; [done|by apply H2].
    + right. destruct H3 as [->|[? ?]]; simpl; [split; [by left|done]|split; [by right|done]].
  - destruct (IH g n) as (H1 & H2 & H3). split_and!; [lia| |].
    + intros j [->|Hj]%elem_of_cons; [lia|by apply H2].
    + destruct H3 as [?|[? ?]]; [by left|right; split; [by right|done]].
Qed.

Lemma min_fold (f : Z → Z) ks g n :
  let r := foldl (λ '(mg, ms) gid,
      if negb (gid =? 0) && (f gid <? ms) then (gid, f gid) else (mg, ms)) (g, n) ks in
  r.2 ≤ n ∧ (∀ k, k ∈ ks → k ≠ 0 → r.2 ≤ f k) ∧
  ((r = (g, n)) ∨ (r.1 ∈ ks ∧ r.1 ≠ 0 ∧ r.2 = f r.1)).
Proof.
  revert g n. induction ks as [|k ks IH]; intros g n; simpl.
  { split_and!; [lia| |by left]. intros k Hk. by apply not_elem_of_nil in Hk. }
  destruct (negb (k =? 0) && (f k <? n)) eqn:E.
  - destruct (IH k (f k)) as (H1 & H2 & H3). split_and!; [lia| |].
    + intros j [->|Hj]%elem_of_cons Hj0; [done|by apply H2].
    + right. destruct H3 as [->|(? & ? & ?)]; simpl.
      * split_and!; [by left|lia|done].
      * split_and!; [by right|done|done].
  - destruct (IH g n) as (H1 & H2 & H3). split_and!; [lia| |].
    + intros j [->|Hj]%elem_of_cons Hj0; [lia|by apply H2].
    + destruct H3 as [?|(? & ? & ?)]; [by left|right; split_and!; [by right|done|done]].
Qed.

Lemma gidWithMin_spec m k0 :
  (∀ k, len (shards_of m k) ≤ NShards) → k0 ∈ dom m → k0 ≠ 0 →
  gidWithMinShards m ∈ dom m ∧ gidWithMinShards m ≠ 0 ∧
  ∀ k, k ∈ dom m → k ≠ 0 → len (shards_of m (gidWithMinShards m)) ≤ len (shards_of m k).
Proof.
  intros Hlen Hk0 Hne. unfold gidWithMinShards.
  destruct (min_fold (λ k, len (shards_of m k)) (sort_Ints (map_range m).*1) (-1) (NShards + 1))
    as (H1 & H2 & H3).
  set (r := foldl _ _ _) in *. pose proof (H2 k0) as H0. rewrite sorted_keys in H0.
  specialize (H0 Hk0 Hne). destruct H3 as [Hr|(Hr1 & Hr2 & Hr3)].
  - rewrite Hr in H0. simpl in H0. specialize (Hlen k0). unfold NShards in *. lia.
  - apply sorted_keys in Hr1. split_and!; [done|done|]. intros k Hk Hk'.
    rewrite <-Hr3. apply H2; [by apply sorted_keys|done].
Qed.

Lemma gidWithMax_spec m k0 :
  k0 ∈ dom m →
  gidWithMaxShards m ∈ dom m ∧
  ((gidWithMaxShards m = 0 ∧ shards_of m 0 ≠ []) ∨
   (shards_of m 0 = [] ∧
    ∀ k, k ∈ dom m → len (shards_of m k) ≤ len (shards_of m (gidWithMaxShards m)))).
Proof.
  intros Hk0. unfold gidWithMaxShards.
  destruct (bool_decide _ && _) eqn:E.
  - apply andb_true_iff in E as [E1%bool_decide_eq_true E2].
    split; [by apply elem_of_dom|]. left. split; [done|]. intros E0. rewrite E0 in E2. done.
  - destruct (max_fold (λ k, len (shards_of m k)) (sort_Ints (map_range m).*1) (-1) (-1))
      as (H1 & H2 & H3).
    set (r := foldl _ _ _) in *. pose proof (H2 k0) as H0. rewrite sorted_keys in H0.
    specialize (H0 Hk0). pose proof (len_nonneg (shards_of m k0)).
    destruct H3 as [Hr|(Hr1 & Hr3)]; [rewrite Hr in H0; simpl in H0; lia|].
    apply sorted_keys in Hr1. split; [done|]. right. split.
    + unfold shards_of in *. destruct (m !! 0) as [l|] eqn:E0; simpl in *; [|done].
      destruct l; [done|]. unfold len in E. simpl in E. apply Z.ltb_ge in E. lia.
    + intros k Hk. rewrite <-Hr3. apply H2. by apply sorted_keys.
Qed.
End select.

(** The selections do not depend on the order of [range]. *)
Lemma gidWithMax_order (r1 r2 : RangeOrder) m :
  @gidWithMaxShards r1 m = @gidWithMaxShards r2 m.
Proof. unfold gidWithMaxShards. by rewrite (sorted_keys_order r1 r2). Qed.

Lemma gidWithMin_order (r1 r2 : RangeOrder) m :
  @gidWithMinShards r1 m = @gidWithMinShards r2 m.
Proof. unfold gidWithMinShards. by rewrite (sorted_keys_order r1 r2). Qed.

(** ** The balancing loop *)

Definition balanced_map m : Prop :=
  ∀ k1 k2, k1 ∈ dom m → k2 ∈ dom m → k1 ≠ 0 → k2 ≠ 0 →
  len (shards_of m k1) ≤ len (shards_of m k2) + 1.

(** Decreases in every iteration: unassigned shards (group 0) weigh most. *)
Definition weight (k : Z) (l : list Z) : Z :=
  if k =? 0 then (2 * NShards + 2) * len l else len l * len l.
Definition measure m : Z := msum weight m.

Lemma weight_nonneg k l : 0 ≤ weight k l.
Proof. unfold weight, NShards. pose proof (len_nonneg l). destruct (_ =? _); nia. Qed.


Lemma msum_scale c f m : msum (λ k l, c * f k l) m = c * msum f m.
Proof.
  induction m as [|k l m Hk IH] using map_ind.
  - unfold msum. rewrite !map_fold_empty. lia.
  - rewrite !msum_add by done. rewrite IH. lia.
Qed.

Lemma measure_bound m pend :
  part m pend → measure m ≤ (2 * NShards + 2) * total m.
Proof.
  intros H. unfold measure, total. rewrite <-msum_scale. apply msum_mono.
  intros k l Hk. pose proof (part_len m pend k H) as Hl. unfold shards_of in Hl.
  rewrite Hk in Hl. simpl in Hl. pose proof (len_nonneg l). unfold weight, NShards in *.
  destruct (_ =? _); nia.
Qed.

Section rebalance.
Context {ro : RangeOrder}.

(** Moving the first shard of [a] to [b], as the loop body does. *)
Lemma move_part m a b s l :
  a ≠ b → shards_of m a = s :: l → part m [] →
  let m1 := <[b := shards_of m b ++ [s]]> m in
  let m' := <[a := drop 1 (shards_of m1 a)]> m1 in
  part m' [] ∧ shards_of m' a = l ∧ shards_of m' b = shards_of m b ++ [s] ∧
  (∀ k, k ≠ a → k ≠ b → shards_of m' k = shards_of m k) ∧
  ∀ f, f a [] = 0 → f b [] = 0 →
    msum f m' = msum f m - f a (s :: l) + f a l - f b (shards_of m b) + f b (shards_of m b ++ [s]).
Proof.
  intros Hne E H. cbv zeta.
  assert (shards_of (<[b := shards_of m b ++ [s]]> m) a = s :: l) as E1.
  { rewrite shards_of_insert, decide_False by congruence. done. }
  rewrite E1. simpl. rewrite drop_0. split_and!.
  - rewrite insert_insert_ne by done.
    replace (shards_of m b) with (shards_of (<[a := l]> m) b).
    + apply part_assign. by eapply part_take.
    + by rewrite shards_of_insert, decide_False.
  - by rewrite shards_of_insert, decide_True.
  - by rewrite !shards_of_insert, decide_False, decide_True by congruence.
  - intros k Ha Hb. by rewrite !shards_of_insert, !decide_False by congruence.
  - intros f Ha Hb. rewrite !msum_insert by done. rewrite E1. lia.
Qed.

Record loop_inv m : Prop := {
  li_part : part m [];
  li_total : total m = NShards;
  li_group : ∃ k, k ∈ dom m ∧ k ≠ 0
}.

(** Some group has a shard. *)
Lemma loop_inv_nonempty m : loop_inv m → ∃ k, k ∈ dom m ∧ shards_of m k ≠ [].
Proof.
  intros [H Ht _]. destruct (p_in _ _ H 0) as [H0|[k Hk]]; [unfold NShards; lia|..].
  - by apply not_elem_of_nil in H0.
  - exists k. split; [|by intros E; rewrite E in Hk; apply not_elem_of_nil in Hk].
    apply elem_of_dom. unfold shards_of in Hk. destruct (m !! k); [eauto|].
    by apply not_elem_of_nil in Hk.
Qed.

Lemma loop_inv_move m a b :
  loop_inv m → a ∈ dom m → b ∈ dom m → a ≠ b → shards_of m a ≠ [] →
  ∃ s, slice_get (shards_of m a) 0 = Some s ∧
  let m1 := <[b := shards_of m b ++ [s]]> m in
  let m' := <[a := drop 1 (shards_of m1 a)]> m1 in
  loop_inv m' ∧ dom m' = dom m ∧
  measure m' = measure m - weight a (shards_of m a) + weight a (drop 1 (shards_of m a))
               - weight b (shards_of m b) + weight b (shards_of m b ++ [s]).
Proof.
  intros [Hp Ht Hg] Ha Hb Hne Hnil. destruct (shards_of m a) as [|s l] eqn:E; [done|].
  exists s. split; [done|]. cbv zeta.
  destruct (move_part m a b s l Hne E Hp) as (Hp' & _ & _ & _ & Hsum). cbv zeta in *.
  set (m' := <[a := _]> _) in *.
  assert (dom m' = dom m) as Hd.
  { unfold m'. rewrite !dom_insert_L. set_solver. }
  split_and!; [split; [done| |by rewrite Hd]|done|].
  - unfold total in *. rewrite Hsum by done. unfold len in *. rewrite length_app. simpl. lia.
  - unfold measure. rewrite Hsum by (unfold weight; by case_match). simpl. by rewrite drop_0.
Qed.

(** What the loop selects: the group with the fewest shards, and group 0 as long as it
    has shards, otherwise the group with the most. *)
Lemma select_spec m :
  loop_inv m →
  gidWithMaxShards m ∈ dom m ∧ shards_of m (gidWithMaxShards m) ≠ [] ∧
  gidWithMinShards m ∈ dom m ∧ gidWithMinShards m ≠ 0 ∧
  (∀ k, k ∈ dom m → k ≠ 0 → len (shards_of m (gidWithMinShards m)) ≤ len (shards_of m k)) ∧
  (gidWithMaxShards m = 0 ∨
   gidWithMaxShards m ≠ 0 ∧ shards_of m 0 = [] ∧
   ∀ k, k ∈ dom m → len (shards_of m k) ≤ len (shards_of m (gidWithMaxShards m))).
Proof.
  intros H. destruct (li_group _ H) as (k0 & Hk0 & Hk0').
  pose proof (λ k, part_len m [] k (li_part _ H)) as Hlen.
  destruct (gidWithMin_spec m k0 Hlen Hk0 Hk0') as (Hb & Hb0 & Hmin).
  destruct (gidWithMax_spec m k0 Hk0) as (Ha & Hmax). split_and!; [done| |done|done|done|].
  all: destruct Hmax as [[Ha0 Hn]|[H0 Hmax]]; [try rewrite Ha0; by try left|].
  all: assert (shards_of m (gidWithMaxShards m) ≠ []) as Hn; [|try done].
  1,2: destruct (loop_inv_nonempty m H) as (k & Hk & Hkn); specialize (Hmax k Hk); intros E0; rewrite E0 in Hmax;
    unfold len in *; simpl in *; destruct (shards_of m k); [done|simpl in *; lia].
  right. split_and!; [congruence|done|done].
Qed.

(** One iteration: it stops in a balanced map or makes progress. *)
Lemma rebalance_step_spec m :
  loop_inv m →
  (rebalance_step m = Some (m, true) ∧ shards_of m 0 = [] ∧ balanced_map m) ∨
  ∃ m', rebalance_step m = Some (m', false) ∧ loop_inv m' ∧ dom m' = dom m ∧
    measure m' < measure m.
Proof.
  intros H. destruct (select_spec m H) as (Ha & Hnil & Hb & Hb0 & Hmin & Hmax).
  pose proof (part_len m [] (gidWithMinShards m) (li_part _ H)) as Hlen. unfold rebalance_step.
  set (a := gidWithMaxShards m) in *. set (b := gidWithMinShards m) in *.
  destruct (_ && _) eqn:E.
  - left. split; [done|]. destruct Hmax as [Ha0|(_ & H0 & Hmax)]; [lia|]. split; [done|].
    intros k1 k2 H1 H2 N1 N2. specialize (Hmax k1 H1). specialize (Hmin k2 H2 N2). lia.
  - right. assert (a ≠ b ∧ (a = 0 ∨ len (shards_of m b) + 2 ≤ len (shards_of m a))) as (Hne & Hcase).
    { destruct Hmax as [Ha0|(Ha0 & _)]; [split; [congruence|by left]|]. split; [|right; lia].
      intros Heq. rewrite Heq in E. lia. }
    destruct (loop_inv_move m a b H Ha Hb Hne Hnil) as (s & -> & Hi & Hd & Hms). simpl in *.
    eexists. split; [done|]. split_and!; [done|done|]. rewrite Hms.
    destruct (shards_of m a) as [|x l] eqn:Ea; [done|].
    clear Hms Hd Hi. unfold weight, NShards, len in *. rewrite length_app. simpl in *.
    rewrite drop_0, Nat2Z.inj_succ, Nat2Z.inj_add in *. simpl.
    pose proof (Nat2Z.is_nonneg (length (shards_of m b))) as Hq.
    destruct (Z.eqb_spec b 0); [done|].
    revert Hlen Hcase Hq. generalize (Z.of_nat (length l)) (Z.of_nat (length (shards_of m b))).
    intros p q Hlen Hcase Hq. destruct (Z.eqb_spec a 0); [nia|]. destruct Hcase; [done|nia].
Qed.

(** *** No detours *)

(** Since [m0], group [k] has only received shards and is among the smallest, or has only
    given shards away and is among the largest. *)
Definition received m0 m (k : Z) : Prop :=
  shards_of m0 k ⊆ shards_of m k ∧
  ∀ j, j ∈ dom m → j ≠ 0 → len (shards_of m k) ≤ len (shards_of m j) + 1.
Definition gave m0 m (k : Z) : Prop :=
  shards_of m k ⊆ shards_of m0 k ∧ shards_of m 0 = [] ∧
  ∀ j, j ∈ dom m → j ≠ 0 → len (shards_of m j) ≤ len (shards_of m k) + 1.
Definition direct m0 m : Prop :=
  ∀ k, k ∈ dom m → k ≠ 0 → shards_of m k = shards_of m0 k ∨ received m0 m k ∨ gave m0 m k.

Lemma direct_refl m : direct m m.
Proof. intros k _ _. by left. Qed.

(** An iteration that goes on: the first shard [s] of [a] goes to [b]. *)
Lemma step_move m m' :
  loop_inv m → rebalance_step m = Some (m', false) →
  ∃ a b s, a ∈ dom m ∧ b ∈ dom m ∧ b ≠ 0 ∧ a ≠ b ∧ dom m' = dom m ∧
    shards_of m a = s :: shards_of m' a ∧ shards_of m' b = shards_of m b ++ [s] ∧
    (∀ k, k ≠ a → k ≠ b → shards_of m' k = shards_of m k) ∧
    (∀ j, j ∈ dom m → j ≠ 0 → len (shards_of m b) ≤ len (shards_of m' j)) ∧
    (a ≠ 0 → shards_of m 0 = [] ∧ len (shards_of m b) + 2 ≤ len (shards_of m a) ∧
       ∀ j, j ∈ dom m → len (shards_of m' j) ≤ len (shards_of m a)).
Proof.
  intros H E. destruct (select_spec m H) as (Ha & Hnil & Hb & Hb0 & Hmin & Hmax). unfold rebalance_step in E.
  set (a := gidWithMaxShards m) in *. set (b := gidWithMinShards m) in *.
  destruct (negb (a =? 0) && _) eqn:Ec; [done|].
  assert (a ≠ b ∧ (a ≠ 0 → len (shards_of m b) + 2 ≤ len (shards_of m a))) as (Hne & Hgap).
  { split; [|lia]. intros Heq. rewrite Heq in Ec. lia. }
  destruct (shards_of m a) as [|s l] eqn:Ea; [done|]. simpl in E.
  destruct (move_part m a b s l Hne Ea (li_part _ H)) as (_ & Ha' & Hb' & Ho & _). cbv zeta in *.
  injection E as E. rewrite E in *. exists a, b, s. rewrite Ha', Hb', Ea.
  split_and!; [done|done|done|done|rewrite <-E, !dom_insert_L; set_solver|done|done|done|..].
  - intros j Hj Hj0. specialize (Hmin j Hj Hj0). destruct (decide (j = b)) as [->|]; [rewrite Hb'; unfold len; rewrite length_app; lia|].
    destruct (decide (j = a)) as [->|]; [|by rewrite Ho]. specialize (Hgap Hj0). rewrite Ha'. unfold len in *. simpl in *. lia.
  - intros Ha0. destruct Hmax as [?|(_ & H0 & Hmax)]; [done|]. specialize (Hgap Ha0). split_and!; [done|done|].
    intros j Hj. specialize (Hmax j Hj). destruct (decide (j = b)) as [->|].
    { rewrite Hb'. unfold len in *. rewrite length_app. simpl in *. lia. }
    destruct (decide (j = a)) as [->|]; [rewrite Ha'; unfold len; simpl; lia|by rewrite Ho].
Qed.

Lemma step_direct m0 m m' :
  loop_inv m → direct m0 m → rebalance_step m = Some (m', false) → direct m0 m'.
Proof.
  intros H HD E. destruct (step_move m m' H E) as (a & b & s & Ha & Hb & Hb0 & Hne & Hd & Ea & Eb & Ho & Hmin & Hmax).
  assert (len (shards_of m' b) = len (shards_of m b) + 1) as Lb by (rewrite Eb; unfold len; rewrite length_app; simpl; lia).
  assert (len (shards_of m a) = len (shards_of m' a) + 1) as La by (rewrite Ea; unfold len; simpl; lia).
  assert (shards_of m 0 = [] → a ≠ 0) as Hz by (intros H0 ->; by rewrite H0 in Ea).
  intros k Hk Hk0. rewrite Hd in Hk. unfold received, gave. rewrite Hd. destruct (decide (k = b)) as [->|Hkb].
  { right. left. split; [|intros j Hj Hj0; specialize (Hmin j Hj Hj0); lia].
    rewrite Eb. destruct (HD b Hb Hb0) as [->|[[Hs _]|(_ & H0 & Hg)]]; [set_solver..|].
    destruct (Hmax (Hz H0)) as (_ & Hgap & _). specialize (Hg a Ha (Hz H0)). lia. }
  destruct (decide (k = a)) as [->|Hka].
  { right. right. destruct (Hmax Hk0) as (H0 & Hgap & Hle). split_and!.
    - destruct (HD a Ha Hk0) as [<-|[[_ Hr]|(Hs & _)]]; [rewrite Ea; set_solver| |rewrite Ea in Hs; set_solver].
      specialize (Hr b Hb Hb0). lia.
    - by rewrite Ho.
    - intros j Hj Hj0. specialize (Hle j Hj). lia. }
  rewrite !(Ho k) by done. destruct (HD k Hk Hk0) as [->|[[Hs Hr]|(Hs & H0 & Hg)]]; [by left|right; left|right; right].
  - split; [done|]. intros j Hj Hj0. specialize (Hmin j Hj Hj0). specialize (Hr b Hb Hb0). lia.
  - destruct (Hmax (Hz H0)) as (_ & Hgap & Hle). split_and!; [done|rewrite Ho; by try apply not_eq_sym, Hz|].
    intros j Hj Hj0. specialize (Hle j Hj). specialize (Hg a Ha (Hz H0)). lia.
Qed.

Lemma rebalance_spec fuel m :
  loop_inv m → measure m < Z.of_nat fuel →
  ∃ m', rebalance fuel m = Some m' ∧ loop_inv m' ∧ dom m' = dom m ∧
    shards_of m' 0 = [] ∧ balanced_map m' ∧ direct m m'.
Proof.
  intros H Hf. pose proof (direct_refl m) as HD. revert H Hf HD.
  cut (∀ m0, loop_inv m → measure m < Z.of_nat fuel → direct m0 m →
    ∃ m', rebalance fuel m = Some m' ∧ loop_inv m' ∧ dom m' = dom m ∧ shards_of m' 0 = [] ∧ balanced_map m' ∧ direct m0 m').
  { intros Hc. apply Hc. }
  intros m0. revert m. induction fuel as [|fuel IH]; intros m H Hf HD.
  { pose proof (msum_nonneg weight m weight_nonneg). unfold measure in Hf. lia. }
  cbn [rebalance]. destruct (rebalance_step_spec m H) as [(-> & H0 & Hb)|(m1 & E1 & H1 & Hd & Hms)].
  - simpl. eauto 10.
  - rewrite E1. simpl. destruct (IH m1 H1) as (m' & -> & Hi & Hd' & H0 & Hb & HD'); [lia|by apply (step_direct m0 m m1)|].
    exists m'. split_and!; [done|done|congruence|done|done|done].
Qed.

(** The fixed fuel of [Join] suffices. *)
Lemma rebalance_terminates m :
  loop_inv m →
  ∃ m', rebalance join_fuel m = Some m' ∧ loop_inv m' ∧ dom m' = dom m ∧
    shards_of m' 0 = [] ∧ balanced_map m' ∧ direct m m'.
Proof.
  intros H. apply rebalance_spec; [done|]. pose proof (measure_bound m [] (li_part _ H)) as Hb.
  rewrite (li_total _ H) in Hb. unfold join_fuel, NShards in *. lia.
Qed.
End rebalance.

Lemma rebalance_order (r1 r2 : RangeOrder) fuel m :
  @rebalance r1 fuel m = @rebalance r2 fuel m.
Proof.
  revert m. induction fuel as [|fuel IH]; intros m; simpl; [done|].
  unfold rebalance_step. rewrite (gidWithMax_order r1 r2), (gidWithMin_order r1 r2).
  destruct (_ && _); simpl; [done|]. destruct (slice_get _ _); simpl; [apply IH|done].
Qed.

(** ** From configurations to maps and back *)

Section convert.
Context {ro : RangeOrder}.

Lemma fold_insert_range {A B} (f : A → B) (l : list (Z * A)) (m0 : gmap Z B) (i : Z) :
  NoDup l.*1 →
  foldl (λ acc '(k, x), <[k := f x]> acc) m0 l !! i =
    match list_to_map (M := gmap Z A) l !! i with Some x => Some (f x) | None => m0 !! i end.
Proof.
  revert m0. induction l as [|[k x] l IH]; intros m0 Hn; [done|].
  rewrite fmap_cons in Hn. apply list.NoDup_cons in Hn as [Hk Hn].
  rewrite list_to_map_cons. cbn [foldl]. rewrite IH by done.
  destruct (decide (k = i)) as [->|].
  - by rewrite (not_elem_of_list_to_map_1 l i Hk), !lookup_insert_eq.
  - by rewrite !lookup_insert_ne.
Qed.

Lemma list_to_map_range {A} (mm : gmap Z A) : list_to_map (map_range mm) = mm.
Proof.
  rewrite <-(list_to_map_to_list mm) at 2. apply list_to_map_proper.
  - apply map_range_NoDup.
  - apply map_range_perm.
Qed.

Lemma copyGroups_id g : copyGroups g = g.
Proof.
  apply map_eq. intros i. unfold copyGroups.
  rewrite (fold_insert_range id) by apply map_range_NoDup.
  rewrite list_to_map_range, lookup_empty. by destruct (g !! i).
Qed.

Lemma addGroups_union groups g : addGroups groups g = g ∪ groups.
Proof.
  unfold addGroups. rewrite <-(list_to_map_range groups) at 2.
  generalize (map_range_NoDup groups). generalize (map_range groups). intros l.
  revert g. induction l as [|[k x] l IH]; intros g Hn; [symmetry; apply (right_id_L ∅ (∪))|].
  rewrite fmap_cons in Hn. apply list.NoDup_cons in Hn as [Hk Hn].
  rewrite list_to_map_cons. cbn [foldl]. rewrite IH by done.
  apply map_eq. intros i. rewrite !lookup_union. case_bool_decide as Hg.
  - destruct (decide (k = i)) as [->|]; [|by rewrite lookup_insert_ne].
    destruct Hg as [y Hy]. rewrite Hy, lookup_insert_eq, (not_elem_of_list_to_map_1 l i Hk). done.
  - apply eq_None_not_Some in Hg. destruct (decide (k = i)) as [->|].
    + by rewrite !lookup_insert_eq, (not_elem_of_list_to_map_1 l i Hk), Hg.
    + by rewrite !lookup_insert_ne.
Qed.

(** Adding a list of (shard, group) pairs. *)
Lemma fold_assign (l : list (Z * Z)) m :
  NoDup l.*1 → (∀ k s, s ∈ shards_of m k → s ∉ l.*1) → (∀ k, NoDup (shards_of m k)) →
  let m' := foldl (λ m '(shard, gid), <[gid := shards_of m gid ++ [shard]]> m) m l in
  (∀ k s, s ∈ shards_of m' k ↔ s ∈ shards_of m k ∨ (s, k) ∈ l) ∧
  (∀ k, NoDup (shards_of m' k)) ∧ total m' = total m + len l ∧
  ∀ k, k ∈ dom m' ↔ k ∈ dom m ∨ k ∈ l.*2.
Proof.
  revert m. induction l as [|[s0 g0] l IH]; intros m Hn Hd Hnd; simpl.
  { split_and!; [|done|unfold len; simpl; lia|].
    - intros k s. split; [by left|]. intros [?|H]; [done|]. by apply not_elem_of_nil in H.
    - intros k. split; [by left|]. intros [?|H]; [done|]. by apply not_elem_of_nil in H. }
  apply list.NoDup_cons in Hn as [Hs0 Hn].
  set (m1 := <[g0 := shards_of m g0 ++ [s0]]> m).
  assert (∀ k s, s ∈ shards_of m1 k ↔ s ∈ shards_of m k ∨ (s = s0 ∧ k = g0)) as He.
  { intros k s. unfold m1. rewrite shards_of_insert. case_decide; subst; [|naive_solver].
    rewrite elem_of_app, list_elem_of_singleton. naive_solver. }
  assert (∀ k, NoDup (shards_of m1 k)) as Hnd1.
  { intros k. unfold m1. rewrite shards_of_insert. case_decide; [|done].
    apply list.NoDup_app. split_and!; [done| |apply NoDup_singleton].
    intros x Hx ->%list_elem_of_singleton. apply (Hd g0 s0 Hx). by left. }
  destruct (IH m1 Hn) as (H1 & H2 & H3 & H4); [|done|].
  { intros k s [?|[-> ->]]%He; [|done]. intros Hs. apply (Hd k s); [done|by right]. }
  split_and!; [|done| |].
  - intros k s. rewrite H1, He, elem_of_cons. naive_solver.
  - rewrite H3. unfold m1, total. rewrite msum_insert by done.
    unfold len. rewrite length_app. simpl. lia.
  - intros k. rewrite H4, elem_of_cons. unfold m1. rewrite dom_insert_L. set_solver.
Qed.

Definition indexed (l : list Z) : list (Z * Z) := imap (λ i gid, (Z.of_nat i, gid)) l.

Lemma indexed_elem l s k : (s, k) ∈ indexed l ↔ 0 ≤ s ∧ l !! Z.to_nat s = Some k.
Proof.
  unfold indexed. rewrite elem_of_lookup_imap. split.
  - intros (i & x & [= -> ->] & H). rewrite Nat2Z.id. split; [lia|done].
  - intros [H1 H2]. exists (Z.to_nat s), k. split; [f_equal; lia|done].
Qed.

Lemma indexed_fst l : (indexed l).*1 = Z.of_nat <$> seq 0 (length l).
Proof.
  unfold indexed. rewrite fmap_imap. apply list_eq. intros i.
  rewrite list_lookup_imap, list_lookup_fmap.
  destruct (decide (i < length l)%nat) as [H|H].
  - rewrite lookup_seq_lt by done. destruct (lookup_lt_is_Some_2 l i H) as [x ->]. done.
  - rewrite (lookup_ge_None_2 l), (lookup_ge_None_2 (seq _ _)); [done|..];
      rewrite ?length_seq; lia.
Qed.

Lemma gidToShards_spec cfg :
  len (Shards cfg) = NShards →
  part (gidToShards cfg) [] ∧ total (gidToShards cfg) = NShards ∧
  (∀ k s, s ∈ shards_of (gidToShards cfg) k ↔ 0 ≤ s ∧ Shards cfg !! Z.to_nat s = Some k) ∧
  ∀ k, k ∈ dom (gidToShards cfg) ↔ k ∈ dom (Groups cfg) ∨ k ∈ Shards cfg.
Proof.
  intros Hl. unfold gidToShards. fold (indexed (Shards cfg)).
  set (m0 := foldl _ ∅ _).
  assert (m0 = (λ _, []) <$> Groups cfg) as Hm0.
  { apply map_eq. intros i. unfold m0. rewrite (fold_insert_range (λ _, [])) by apply map_range_NoDup.
    rewrite list_to_map_range, lookup_empty, lookup_fmap. by destruct (Groups cfg !! i). }
  assert (∀ k, shards_of m0 k = []) as H0.
  { intros k. unfold shards_of. rewrite Hm0, lookup_fmap. by destruct (Groups cfg !! k). }
  destruct (fold_assign (indexed (Shards cfg)) m0) as (H1 & H2 & H3 & H4).
  - rewrite indexed_fst. apply list.NoDup_fmap_2; [apply _|apply NoDup_seq].
  - intros k s. rewrite H0. intros Hs. by apply not_elem_of_nil in Hs.
  - intros k. rewrite H0. constructor.
  - cbv zeta in *. set (m := foldl _ m0 _) in *.
    assert (∀ k s, s ∈ shards_of m k ↔ 0 ≤ s ∧ Shards cfg !! Z.to_nat s = Some k) as He.
    { intros k s. rewrite H1, H0, indexed_elem. split; [|by right].
      intros [Hs|?]; [by apply not_elem_of_nil in Hs|done]. }
    split_and!; [split|..]; try done.
    + intros s Hs. right. destruct (lookup_lt_is_Some_2 (Shards cfg) (Z.to_nat s)) as [k Hk].
      { unfold len in Hl. lia. }
      exists k. apply He. split; [lia|done].
    + intros k s [Hs Hk]%He. apply lookup_lt_Some in Hk. unfold len in Hl. lia.
    + intros g1 g2 s [_ Hs1]%He [_ Hs2]%He. congruence.
    + constructor.
    + intros s Hs. by apply not_elem_of_nil in Hs.
    + intros k s Hs. by apply not_elem_of_nil in Hs.
    + rewrite H3. unfold total. rewrite Hm0.
      assert (msum (λ _ l, len l) ((λ _, []) <$> Groups cfg) = 0) as ->.
      { apply Z.le_antisymm; [|apply msum_nonneg; intros; apply len_nonneg].
        etrans; [apply (msum_mono _ (λ _ _, 0 * 0))|rewrite msum_scale; lia].
        intros k l. rewrite lookup_fmap, fmap_Some. intros (? & _ & ->). done. }
      unfold indexed, len. rewrite length_imap. unfold len in Hl. lia.
    + intros k. rewrite H4, Hm0, dom_fmap_L. apply or_iff_compat_l.
      rewrite list_elem_of_fmap. split.
      * intros ([s k'] & -> & [_ Hk]%indexed_elem). by eapply list_elem_of_lookup_2.
      * intros [i Hi]%list_elem_of_lookup_1. exists (Z.of_nat i, k). split; [done|].
        apply indexed_elem. rewrite Nat2Z.id. split; [lia|done].
Qed.
End convert.

(** ** Filling the array *)

Section store.
Context {ro : RangeOrder}.

Definition put_all (l : list (Z * Z)) (o : option (list Z)) : option (list Z) :=
  foldl (λ o '(shard, gid), a ← o; slice_set a shard gid) o l.

(** The pairs (shard, group) in the order [storeShards] writes them. *)
Definition pairs m : list (Z * Z) :=
  map_range m ≫= λ '(gid, shards), (λ s, (s, gid)) <$> shards.

Lemma storeShards_pairs m :
  storeShards m = put_all (pairs m) (Some (replicate (Z.to_nat NShards) 0)).
Proof.
  unfold storeShards, pairs, put_all. generalize (Some (replicate (Z.to_nat NShards) 0)).
  induction (map_range m) as [|[gid shards] l IH]; intros o; [done|].
  cbn [foldl]. rewrite bind_cons, foldl_app, IH. f_equal.
  revert o. clear. induction shards as [|s shards IH]; intros o; simpl; [done|]. apply IH.
Qed.

Lemma pairs_elem m s k : (s, k) ∈ pairs m ↔ s ∈ shards_of m k.
Proof.
  unfold pairs. rewrite list_elem_of_bind. split.
  - intros ([gid shards] & Hin & Hm%map_range_elem).
    apply list_elem_of_fmap in Hin as (x & [= -> ->] & Hx). unfold shards_of. by rewrite Hm.
  - intros Hs. unfold shards_of in Hs. destruct (m !! k) as [l|] eqn:E; simpl in Hs.
    + exists (k, l). split; [|by apply map_range_elem]. apply list_elem_of_fmap. eauto.
    + by apply not_elem_of_nil in Hs.
Qed.

Lemma put_all_spec l a :
  (∀ s k, (s, k) ∈ l → 0 ≤ s < len a) →
  (∀ s k1 k2, (s, k1) ∈ l → (s, k2) ∈ l → k1 = k2) →
  ∃ a', put_all l (Some a) = Some a' ∧ len a' = len a ∧
    (∀ s k, (s, k) ∈ l → a' !! Z.to_nat s = Some k).
Proof.
  cut ((∀ s k, (s, k) ∈ l → 0 ≤ s < len a) →
  (∀ s k1 k2, (s, k1) ∈ l → (s, k2) ∈ l → k1 = k2) →
  ∃ a', put_all l (Some a) = Some a' ∧ len a' = len a ∧
    (∀ s k, (s, k) ∈ l → a' !! Z.to_nat s = Some k) ∧
    (∀ i : nat, Z.of_nat i ∉ l.*1 → a' !! i = a !! i)); [naive_solver|].
  revert a. induction l as [|[s0 k0] l IH]; intros a Hr Hu.
  { exists a. split_and!; [done|done| |done]. intros s k H. by apply not_elem_of_nil in H. }
  change (put_all ((s0, k0) :: l) (Some a)) with (put_all l (slice_set a s0 k0)).
  assert (0 ≤ s0 < len a) as H0 by (apply (Hr s0 k0); by left).
  destruct (proj2 (slice_set_is_Some a s0 k0) H0) as [a1 E]. rewrite E.
  pose proof (slice_set_len _ _ _ _ E) as Hl1. apply slice_set_Some in E as [_ E].
  destruct (IH a1) as (a' & -> & Hl & H1 & H2).
  { intros s k Hs. rewrite Hl1. apply (Hr s k). by right. }
  { intros s k1 k2 ? ?. apply (Hu s); by right. }
  exists a'. split_and!; [done|congruence| |].
  - intros s k [[= -> ->]|Hs]%elem_of_cons; [|by apply H1].
    destruct (decide (s0 ∈ l.*1)) as [Hin|Hin].
    + apply list_elem_of_fmap in Hin as ([s k] & -> & Hin). simpl.
      rewrite (H1 s k Hin). f_equal. apply (Hu s); [by right|by left].
    + rewrite H2 by (rewrite Z2Nat.id by lia; done). subst a1.
      apply list_lookup_insert_eq. unfold len in H0. lia.
  - intros i. rewrite fmap_cons, not_elem_of_cons. intros [Hi Hin]. rewrite H2 by done.
    subst a1. apply list_lookup_insert_ne. simpl in Hi. lia.
Qed.

(** The array maps every shard to the group that holds it. *)
Lemma storeShards_spec m :
  part m [] →
  ∃ a, storeShards m = Some a ∧ len a = NShards ∧
    ∀ s k, 0 ≤ s → (a !! Z.to_nat s = Some k ↔ s ∈ shards_of m k).
Proof.
  intros H. rewrite storeShards_pairs.
  destruct (put_all_spec (pairs m) (replicate (Z.to_nat NShards) 0)) as (a & E & Hl & Ha).
  - intros s k Hs%pairs_elem. unfold len. rewrite length_replicate.
    apply (p_range _ _ H) in Hs. unfold NShards in *. lia.
  - intros s k1 k2 H1%pairs_elem H2%pairs_elem. by eapply (p_uniq _ _ H).
  - assert (len a = NShards) as Hn by (rewrite Hl; unfold len; by rewrite length_replicate).
    exists a. split_and!; [done|done|]. intros s k Hs. split.
    + intros Hk. apply lookup_lt_Some in Hk as Hlt. unfold len in Hn.
      destruct (p_in _ _ H s) as [Hin|[k' Hin]]; [lia|by apply not_elem_of_nil in Hin|].
      pose proof (Ha s k' (proj2 (pairs_elem m s k') Hin)) as Hk2. congruence.
    + intros Hin. apply Ha. by apply pairs_elem.
Qed.
End store.

(** The array does not depend on the order of [range]. *)
Lemma storeShards_order (r1 r2 : RangeOrder) m :
  part m [] → @storeShards r1 m = @storeShards r2 m.
Proof.
  intros H. destruct (@storeShards_spec r1 m H) as (a1 & -> & L1 & H1).
  destruct (@storeShards_spec r2 m H) as (a2 & -> & L2 & H2). f_equal.
  apply list_eq_same_length with (length a1); [unfold len in *; lia|done|].
  intros i x y _ Hx Hy. specialize (H1 (Z.of_nat i) x). specialize (H2 (Z.of_nat i) y).
  rewrite Nat2Z.id in *. apply H1 in Hx; [|lia]. apply H2 in Hy; [|lia].
  by eapply (p_uniq _ _ H).
Qed.

(** ** Configurations *)

(** Every shard belongs to a group of the configuration, or to group 0 when
    there are no groups; group 0 itself is never a group. *)
Record wf_config (cfg : Config) : Prop := {
  wf_len : len (Shards cfg) = NShards;
  wf_zero : Groups cfg !! 0 = None;
  wf_none : Groups cfg = ∅ → ∀ k, k ∈ Shards cfg → k = 0;
  wf_some : Groups cfg ≠ ∅ → ∀ k, k ∈ Shards cfg → k ∈ dom (Groups cfg)
}.

(** The shards of a group. *)
Definition owned (cfg : Config) (gid : Z) : list Z :=
  filter (λ s, Shards cfg !! Z.to_nat s = Some gid) (seqZ 0 NShards).

(** No two groups differ by more than one shard. *)
Definition balanced (cfg : Config) : Prop :=
  ∀ g1 g2, g1 ∈ dom (Groups cfg) → g2 ∈ dom (Groups cfg) →
  (length (owned cfg g1) ≤ length (owned cfg g2) + 1)%nat.

(** Between two configurations no group both gives shards away and receives others. *)
Definition no_detour (cfg cfg' : Config) : Prop :=
  ∀ g, g ∈ dom (Groups cfg') →
    (∀ s, Shards cfg !! s = Some g → Shards cfg' !! s = Some g) ∨
    (∀ s, Shards cfg' !! s = Some g → Shards cfg !! s = Some g).

Lemma owned_length cfg m k :
  part m [] → (∀ s k, 0 ≤ s → (Shards cfg !! Z.to_nat s = Some k ↔ s ∈ shards_of m k)) →
  Z.of_nat (length (owned cfg k)) = len (shards_of m k).
Proof.
  intros H He. unfold len. f_equal. apply Permutation_length, NoDup_Permutation.
  - apply list.NoDup_filter, NoDup_seqZ.
  - apply H.
  - intros s. unfold owned. rewrite list_elem_of_filter, elem_of_seqZ. split.
    + intros [Hs Hr]. apply He; [lia|done].
    + intros Hs. apply (p_range _ _ H) in Hs as Hr. split; [apply He; [lia|done]|lia].
Qed.

Lemma last_slice {A} (l : list A) x : list.last l = Some x → slice_get l (len l - 1) = Some x.
Proof.
  rewrite last_lookup. intros H. apply slice_get_Some. apply lookup_lt_Some in H as Hl.
  unfold len. split; [lia|]. rewrite <-H. f_equal. lia.
Qed.

#[local] Arguments rebalance : simpl never.
#[local] Arguments join_fuel : simpl never.

Section join_leave.
Context {ro : RangeOrder}.

Lemma nextConfig_Some csm cfg :
  list.last (Configs csm) = Some cfg →
  nextConfig csm = Some (mkConfig (len (Configs csm)) (Shards cfg) (Groups cfg)).
Proof. intros H. unfold nextConfig. rewrite (last_slice _ _ H). simpl. by rewrite copyGroups_id. Qed.

Lemma shards_of_dom m k s : s ∈ shards_of m k → k ∈ dom m.
Proof.
  unfold shards_of. destruct (m !! k) eqn:E; simpl; [intros _; by eapply elem_of_dom_2|].
  intros H. by apply not_elem_of_nil in H.
Qed.

(** The array of a map over the groups is a well-formed configuration. *)
Lemma wf_from_map num a g m :
  part m [] → len a = NShards → g !! 0 = None → shards_of m 0 = [] →
  (∀ k, k ∈ dom m → k ≠ 0 → k ∈ dom g) →
  (∀ s k, 0 ≤ s → (a !! Z.to_nat s = Some k ↔ s ∈ shards_of m k)) →
  wf_config (mkConfig num a g).
Proof.
  intros H Hl Hz H0 Hd He.
  assert (∀ k, k ∈ a → k ∈ dom g) as Hk.
  { intros k [i Hi]%list_elem_of_lookup_1.
    assert (Z.of_nat i ∈ shards_of m k) as Hs by (apply He; [lia|by rewrite Nat2Z.id]).
    apply Hd; [by eapply shards_of_dom|]. intros ->. rewrite H0 in Hs.
    by apply not_elem_of_nil in Hs. }
  split; simpl; [done|done| |by auto]. intros -> k Hin. apply Hk in Hin. set_solver.
Qed.

Lemma Join_lemma groups csm cfg :
  list.last (Configs csm) = Some cfg → wf_config cfg →
  groups !! 0 = None → Groups cfg ∪ groups ≠ ∅ →
  ∃ cfg', Join groups csm = Some (mkCSM (Configs csm ++ [cfg']), OK) ∧
    Num cfg' = len (Configs csm) ∧ Groups cfg' = Groups cfg ∪ groups ∧
    wf_config cfg' ∧ balanced cfg' ∧ no_detour cfg cfg'.
Proof.
  intros Hlast Hwf Hz Hne. unfold Join. rewrite (nextConfig_Some _ _ Hlast). simpl.
  rewrite addGroups_union. set (cfg1 := mkConfig _ (Shards cfg) (Groups cfg ∪ groups)).
  destruct (gidToShards_spec cfg1) as (Hp & Ht & He & Hd); [apply Hwf|].
  assert ((Groups cfg ∪ groups) !! 0 = None) as Hz1.
  { apply lookup_union_None. split; [apply Hwf|done]. }
  assert (∀ k, k ∈ dom (Groups cfg ∪ groups) → k ≠ 0) as Hk0.
  { intros k Hk ->. apply elem_of_dom in Hk. rewrite Hz1 in Hk. by destruct Hk. }
  destruct (rebalance_terminates (gidToShards cfg1)) as (m & -> & [Hpm _ _] & Hdm & H0 & Hb & HD).
  { split; [done|done|]. apply map_choose in Hne as (k & x & Hk). exists k.
    apply elem_of_dom_2 in Hk. split; [apply Hd; by left|by apply Hk0]. }
  simpl. destruct (storeShards_spec m Hpm) as (a & -> & Hl & Ha). simpl.
  eexists. split; [done|]. simpl. split_and!; [done|done| | |].
  - apply (wf_from_map _ _ _ m); [done..| |done]. intros k Hk Hk'. rewrite Hdm in Hk.
    apply Hd in Hk as [?|Hk]; [done|]. simpl in Hk. rewrite dom_union_L. apply elem_of_union_l.
    destruct (decide (Groups cfg = ∅)) as [E|E]; [by apply (wf_none _ Hwf) in Hk|].
    by apply (wf_some _ Hwf).
  - intros g1 g2 H1 H2. simpl in H1, H2.
    pose proof (Hb g1 g2) as Hb12. rewrite Hdm, !Hd in Hb12.
    rewrite <-!(owned_length (mkConfig (len (Configs csm)) a (Groups cfg ∪ groups)) m) in Hb12 by done.
    simpl in Hb12. specialize (Hb12 (or_introl H1) (or_introl H2) (Hk0 _ H1) (Hk0 _ H2)). lia.
  - intros g Hg. simpl in *.
    assert (∀ s, Shards cfg !! s = Some g ↔ Z.of_nat s ∈ shards_of (gidToShards cfg1) g) as Hold.
    { intros s. rewrite He, Nat2Z.id. simpl. intuition lia. }
    assert (∀ s, a !! s = Some g ↔ Z.of_nat s ∈ shards_of m g) as Hnew by (intros s; rewrite <-Ha, Nat2Z.id by lia; done).
    setoid_rewrite Hold. setoid_rewrite Hnew.
    destruct (HD g) as [->|[[Hs _]|[Hs _]]]; [rewrite Hdm; apply Hd; by left|by apply Hk0|by left|left; auto|right; auto].
Qed.

(** ** Leaving *)

Lemma shards_of_delete m gid k :
  shards_of (delete gid m) k = if decide (gid = k) then [] else shards_of m k.
Proof.
  unfold shards_of. case_decide; [subst; by rewrite lookup_delete_eq|].
  by rewrite lookup_delete_ne.
Qed.

(** A group's shards become pending. *)
Lemma part_drop m pend gid l :
  part m pend → m !! gid = Some l → part (delete gid m) (pend ++ l).
Proof.
  intros [Hin Hr Hu Hn Hp Hpr Hd] E.
  assert (shards_of m gid = l) as El by (unfold shards_of; by rewrite E).
  assert (∀ k s, s ∈ shards_of (delete gid m) k ↔ s ∈ shards_of m k ∧ gid ≠ k) as He.
  { intros k s. rewrite shards_of_delete. case_decide; [|naive_solver].
    split; [intros H0; by apply not_elem_of_nil in H0|naive_solver]. }
  split.
  - intros s Hs. rewrite elem_of_app. destruct (Hin s Hs) as [?|[k Hk]]; [naive_solver|].
    destruct (decide (gid = k)) as [<-|]; [rewrite El in Hk; naive_solver|].
    right. exists k. by apply He.
  - intros k s [? _]%He. by eapply Hr.
  - intros k1 k2 s [? _]%He [? _]%He. by eapply Hu.
  - intros k. rewrite shards_of_delete. case_decide; [constructor|done].
  - apply list.NoDup_app. split_and!; [done| |rewrite <-El; apply Hn].
    intros s Hs. rewrite <-El. by apply Hd.
  - intros s [?|Hs]%elem_of_app; [by apply Hpr|]. rewrite <-El in Hs. by eapply Hr.
  - intros k s [?|Hs]%elem_of_app [? ?]%He; [by eapply Hd|].
    rewrite <-El in Hs. assert (gid = k) by (by eapply Hu). done.
Qed.

Lemma leave_loop_spec gids (g : gmap Z (list string)) m pend :
  part m pend →
  let r := foldl leave_step (g, m, pend) gids in
  (∀ k, r.1.1 !! k = if decide (k ∈ gids) then None else g !! k) ∧
  (∀ k, r.1.2 !! k = if decide (k ∈ gids) then None else m !! k) ∧ part r.1.2 r.2.
Proof.
  revert g m pend. induction gids as [|gid gids IH]; intros g m pend Hp.
  { cbv zeta. split_and!; [| |done]; intros k; rewrite decide_False by apply not_elem_of_nil; done. }
  cbn [foldl leave_step]. set (g1 := if bool_decide _ then _ else _).
  assert (g1 = delete gid g) as ->.
  { unfold g1. case_bool_decide as Hg; [done|]. apply eq_None_not_Some in Hg. by rewrite delete_id. }
  assert (∀ {A} (x : gmap Z A) k,
    (if decide (k ∈ gids) then None else delete gid x !! k) =
    (if decide (k ∈ gid :: gids) then None else x !! k)) as Hlk.
  { intros A x k. destruct (decide (k ∈ gids)) as [H|H].
    - by rewrite decide_True by (by right).
    - destruct (decide (k = gid)) as [->|].
      + rewrite decide_True by (by left). apply lookup_delete_eq.
      + rewrite decide_False by (rewrite elem_of_cons; naive_solver). by rewrite lookup_delete_ne. }
  cbv zeta. destruct (m !! gid) as [l|] eqn:E.
  - destruct (IH (delete gid g) (delete gid m) (pend ++ l)) as (H1 & H2 & H3);
      [by apply part_drop|].
    cbv zeta in *. split_and!; [| |done]; intros k; rewrite ?H1, ?H2; apply Hlk.
  - destruct (IH (delete gid g) m pend Hp) as (H1 & H2 & H3).
    cbv zeta in *. split_and!; [| |done]; intros k; rewrite ?H1, ?H2; [apply Hlk|].
    rewrite <-Hlk, delete_id; done.
Qed.

Lemma assign_min_spec pend m k0 :
  part m pend → k0 ∈ dom m → k0 ≠ 0 →
  let m' := assign_min pend m in
  part m' [] ∧ dom m' = dom m ∧ (∀ k s, s ∈ shards_of m k → s ∈ shards_of m' k) ∧
  (balanced_map m → balanced_map m').
Proof.
  revert m. induction pend as [|s pend IH]; intros m Hp Hk Hk0; [done|].
  unfold assign_min. cbn [foldl]. cbv zeta.
  destruct (gidWithMin_spec m k0 (λ k, part_len m _ k Hp) Hk Hk0) as (Hd & Hd0 & Hmin).
  set (b := gidWithMinShards m) in *. set (m1 := <[b := _]> m).
  fold (assign_min pend m1).
  assert (dom m1 = dom m) as Hdm by (unfold m1; rewrite dom_insert_L; set_solver).
  destruct (IH m1) as (H1 & H2 & H3 & H4); [by apply part_assign|by rewrite Hdm|done|].
  cbv zeta in *. split_and!; [done|congruence| |].
  - intros k x Hx. apply H3. unfold m1. rewrite shards_of_insert. case_decide; [subst|done].
    apply elem_of_app. by left.
  - intros Hb. apply H4. intros k1 k2 N1 N2 Z1 Z2. rewrite Hdm in *. unfold m1.
    pose proof (Hb k1 k2 N1 N2 Z1 Z2) as Hb12. pose proof (Hmin k2 N2 Z2) as Hm2.
    rewrite !shards_of_insert. unfold len in *.
    repeat case_decide; subst; rewrite ?length_app; simpl; lia.
Qed.

Lemma Leave_lemma gids csm cfg :
  list.last (Configs csm) = Some cfg → wf_config cfg →
  ∃ cfg', Leave gids csm = Some (mkCSM (Configs csm ++ [cfg']), OK) ∧
    Num cfg' = len (Configs csm) ∧
    (∀ k, Groups cfg' !! k = if decide (k ∈ gids) then None else Groups cfg !! k) ∧
    wf_config cfg' ∧
    (∀ s k, Shards cfg !! s = Some k → k ∈ dom (Groups cfg') → Shards cfg' !! s = Some k) ∧
    (balanced cfg → balanced cfg').
Proof.
  intros Hlast Hwf. unfold Leave. rewrite (nextConfig_Some _ _ Hlast). simpl.
  set (cfg1 := mkConfig _ (Shards cfg) (Groups cfg)).
  destruct (gidToShards_spec cfg1) as (Hp & _ & He & Hd); [apply Hwf|].
  destruct (leave_loop_spec gids (Groups cfg) (gidToShards cfg1) [] Hp) as (Hg & Hm & Hpm).
  fold (leave_loop gids (Groups cfg) (gidToShards cfg1)) in *. cbv zeta in *.
  destruct (leave_loop gids (Groups cfg) (gidToShards cfg1)) as [[g m] pend]. simpl in *.
  assert (g !! 0 = None) as Hz by (rewrite Hg; case_decide; [done|apply Hwf]).
  destruct (Z.eqb_spec (Z.of_nat (size g)) 0) as [Hs|Hs]; simpl.
  - assert (g = ∅) as -> by (apply map_size_empty_iff; lia).
    eexists. split; [done|]. simpl. split_and!; [done|done| |set_solver|intros _ k1 k2; set_solver].
    split; simpl; [done|done| |done]. intros _ k Hk. by apply (elem_of_replicate (Z.to_nat NShards) 0 k) in Hk as [-> _].
  - assert (g ≠ ∅) as Hgne by (intros ->; by rewrite map_size_empty in Hs).
    apply map_choose in Hgne as (k0 & x0 & Hk0).
    assert (∀ k, k ∈ dom g → k ≠ 0 ∧ k ∈ dom m ∧ k ∈ dom (Groups cfg)) as Hdom.
    { intros k [x Hk]%elem_of_dom. split; [congruence|]. rewrite Hg in Hk.
      destruct (decide (k ∈ gids)) eqn:Ek; [done|]. apply elem_of_dom_2 in Hk. split; [|done].
      apply elem_of_dom. rewrite Hm, Ek. apply elem_of_dom, Hd. by left. }
    assert (Groups cfg ≠ ∅) as Hne.
    { apply elem_of_dom_2, Hdom in Hk0 as (_ & _ & H). intros E. rewrite E in H. set_solver. }
    assert (∀ k, k ∈ dom m → k ∈ dom g) as Hdom2.
    { intros k [l Hk]%elem_of_dom. rewrite Hm in Hk. destruct (decide (k ∈ gids)) eqn:Ek; [done|].
      apply elem_of_dom. rewrite Hg, Ek. apply elem_of_dom. apply elem_of_dom_2, Hd in Hk as [?|?]; [done|].
      by apply (wf_some _ Hwf). }
    destruct (Hdom k0) as (N0 & D0 & _); [by eapply elem_of_dom_2|].
    destruct (assign_min_spec pend m k0 Hpm D0 N0) as (Hp' & Hd' & Hsub & Hbal). cbv zeta in *.
    destruct (storeShards_spec (assign_min pend m) Hp') as (a & -> & Hl & Ha). simpl.
    eexists. split; [done|]. simpl. split_and!; [done|done|..].
    + apply (wf_from_map _ _ _ (assign_min pend m)); try done.
      * unfold shards_of. destruct (assign_min pend m !! 0) eqn:E; [|done].
        apply elem_of_dom_2 in E. rewrite Hd' in E. by apply Hdom2, Hdom in E as [? _].
      * intros k Hk _. apply Hdom2. by rewrite <-Hd'.
    + intros s k Hsk Hk. rewrite <-(Nat2Z.id s). apply Ha; [lia|]. apply Hsub.
      replace (shards_of m k) with (shards_of (gidToShards cfg1) k).
      * apply He. rewrite Nat2Z.id. split; [lia|done].
      * unfold shards_of. rewrite Hm. destruct (decide (k ∈ gids)) eqn:Ek; [|done].
        apply elem_of_dom in Hk. rewrite Hg, Ek in Hk. by destruct Hk.
    + intros Hb g1 g2 H1 H2. simpl in H1, H2.
      assert (balanced_map m) as Hbm.
      { intros k1 k2 D1 D2 _ _. assert (∀ k, k ∈ dom m → len (shards_of m k) = Z.of_nat (length (owned cfg k))) as Hlen.
        { intros k [l Hk]%elem_of_dom. rewrite (owned_length cfg (gidToShards cfg1)); [|done|].
          - unfold shards_of. rewrite Hk. rewrite Hm in Hk. destruct (decide (k ∈ gids)); [done|]. by rewrite Hk.
          - intros s k'. rewrite He. naive_solver. }
        rewrite !Hlen by done. apply Hdom2, Hdom in D1 as (_ & _ & D1).
        apply Hdom2, Hdom in D2 as (_ & _ & D2). specialize (Hb k1 k2 D1 D2). lia. }
      specialize (Hbal Hbm g1 g2). rewrite Hd' in Hbal.
      rewrite <-!(owned_length (mkConfig (len (Configs csm)) a g) (assign_min pend m)) in Hbal by done.
      destruct (Hdom g1 H1) as (? & ? & _), (Hdom g2 H2) as (? & ? & _).
      simpl in Hbal. specialize (Hbal ltac:(done) ltac:(done) ltac:(done) ltac:(done)). lia.
Qed.
End join_leave.

(** ** The theorems *)

Section theorems.
Context {ro : RangeOrder}.


(** [Leave] removes exactly the given groups, moves only the shards these
    groups had (every shard of a group that stays keeps its group), and keeps a
    balanced configuration balanced. *)
Theorem Leave_moves_only_orphans gids csm cfg :
  list.last (Configs csm) = Some cfg → wf_config cfg →
  ∃ cfg', Leave gids csm = Some (mkCSM (Configs csm ++ [cfg']), OK) ∧
    Num cfg' = len (Configs csm) ∧
    (∀ k, Groups cfg' !! k = if decide (k ∈ gids) then None else Groups cfg !! k) ∧
    wf_config cfg' ∧
    (∀ s k, Shards cfg !! s = Some k → k ∈ dom (Groups cfg') → Shards cfg' !! s = Some k) ∧
    (balanced cfg → balanced cfg').
Proof. apply Leave_lemma. Qed.

(** An operation the controller's clients may submit in state [csm]: groups are
    never numbered 0, a controller without groups is joined by at least one, and
    shards are moved to existing groups. *)
Definition valid_op csm (op : Op) : Prop :=
  ∃ cfg, list.last (Configs csm) = Some cfg ∧
  match op_OpType op with
  | OpJoin => op_Servers op !! 0 = None ∧ Groups cfg ∪ op_Servers op ≠ ∅
  | OpMove => 0 ≤ op_Shard op < NShards ∧ op_GID op ∈ dom (Groups cfg)
  | OpLeave | OpQuery => True
  end.

(** Runs of valid operations. *)
Inductive ctrl_run : CtrlerStateMachine → CtrlerStateMachine → Prop :=
  | cr_refl csm : ctrl_run csm csm
  | cr_step csm1 csm2 csm3 op reply :
      ctrl_run csm1 csm2 → valid_op csm2 op →
      applyToStateMachine op csm2 = Some (csm3, reply) → ctrl_run csm1 csm3.

Record csm_inv csm : Prop := {
  ci_last : Configs csm ≠ [];
  ci_wf : ∀ i cfg, Configs csm !! i = Some cfg → wf_config cfg ∧ Num cfg = Z.of_nat i
}.

Lemma csm_inv_new : csm_inv NewCtrlerStateMachine.
Proof.
  split; [done|]. intros [|i] cfg H; simplify_eq/=. split; [|done].
  split; simpl; [done|done| |done]. intros _ k Hk.
  by apply (elem_of_replicate (Z.to_nat NShards) 0 k) in Hk as [-> _].
Qed.

Lemma csm_inv_app csm cfg :
  csm_inv csm → wf_config cfg → Num cfg = len (Configs csm) →
  csm_inv (mkCSM (Configs csm ++ [cfg])).
Proof.
  intros [H1 H2] Hw Hn. split; simpl; [by destruct (Configs csm)|].
  intros i c [Hc|[Hi Hc]]%lookup_app_Some; [by apply H2|].
  destruct (i - length (Configs csm))%nat as [|k] eqn:E; [|by destruct k].
  simplify_eq/=. split; [done|]. rewrite Hn. unfold len. lia.
Qed.

Lemma Move_lemma shard gid csm cfg :
  list.last (Configs csm) = Some cfg → wf_config cfg →
  0 ≤ shard < NShards → gid ∈ dom (Groups cfg) →
  ∃ cfg', Move shard gid csm = Some (mkCSM (Configs csm ++ [cfg']), OK) ∧
    Num cfg' = len (Configs csm) ∧ wf_config cfg'.
Proof.
  intros Hlast Hwf Hs Hg. unfold Move. rewrite (nextConfig_Some _ _ Hlast). simpl.
  destruct (proj2 (slice_set_is_Some (Shards cfg) shard gid)) as [a E].
  { by rewrite (wf_len _ Hwf). }
  rewrite E. simpl. eexists. split; [done|]. split; [done|].
  apply slice_set_len in E as Hl. apply slice_set_Some in E as [_ ->].
  split; simpl; [by rewrite Hl, (wf_len _ Hwf)|apply Hwf| |].
  - intros H0. rewrite H0 in Hg. set_solver.
  - intros Hne k [i Hi]%list_elem_of_lookup_1. apply list_lookup_insert_Some in Hi.
    destruct Hi as [(_ & <- & _)|[_ Hi]]; [done|]. apply (wf_some _ Hwf Hne).
    by eapply list_elem_of_lookup_2.
Qed.

Lemma last_wf csm cfg : csm_inv csm → list.last (Configs csm) = Some cfg → wf_config cfg.
Proof. intros [_ H] Hl. rewrite last_lookup in Hl. by apply H in Hl as [? _]. Qed.

Lemma valid_op_step csm op :
  csm_inv csm → valid_op csm op →
  ∃ csm' reply, applyToStateMachine op csm = Some (csm', reply) ∧ csm_inv csm' ∧
    Configs csm `prefix_of` Configs csm' ∧ or_Err reply = OK.
Proof.
  intros Hi (cfg & Hlast & Hop). pose proof (last_wf _ _ Hi Hlast) as Hwf.
  unfold applyToStateMachine. destruct (op_OpType op).
  - destruct Hop as [Hz Hne].
    destruct (Join_lemma (op_Servers op) csm cfg Hlast Hwf Hz Hne) as (c & -> & ? & _ & ? & _).
    simpl. do 2 eexists. split; [done|]. split_and!; [by apply csm_inv_app|by exists [c]|done].
  - destruct (Leave_lemma (op_GIDs op) csm cfg Hlast Hwf) as (c & -> & ? & _ & ? & _).
    simpl. do 2 eexists. split; [done|]. split_and!; [by apply csm_inv_app|by exists [c]|done].
  - destruct Hop as [Hs Hg].
    destruct (Move_lemma _ _ csm cfg Hlast Hwf Hs Hg) as (c & -> & ? & ?).
    simpl. do 2 eexists. split; [done|]. split_and!; [by apply csm_inv_app|by exists [c]|done].
  - unfold Query. assert (∃ c, (if (op_Num op <? 0) || (len (Configs csm) <=? op_Num op)
      then slice_get (Configs csm) (len (Configs csm) - 1)
      else slice_get (Configs csm) (op_Num op)) = Some c) as [c ->].
    { destruct (_ || _) eqn:E; [exists cfg; by apply last_slice|].
      apply slice_get_is_Some. lia. }
    simpl. do 2 eexists. split; [done|]. by split_and!.
Qed.

(** C35: along any run of valid operations from the initial controller, every
    configuration is well formed and carries its own number, no operation
    panics, and a configuration is never changed once it exists: [Query] of a
    number returns the same configuration forever after. *)
Theorem ctrler_history csm csm' :
  ctrl_run NewCtrlerStateMachine csm → ctrl_run csm csm' →
  csm_inv csm' ∧
  (∀ op, valid_op csm' op → is_Some (applyToStateMachine op csm')) ∧
  (∀ i, 0 ≤ i < len (Configs csm) →
     Query csm' i = Query csm i ∧ ∃ cfg, Query csm i = Some (cfg, OK) ∧ Num cfg = i).
Proof.
  intros Hr Hr'.
  assert (∀ c c', csm_inv c → ctrl_run c c' → csm_inv c' ∧ Configs c `prefix_of` Configs c') as Hrun.
  { intros c c' Hc H. induction H as [|c1 c2 c3 op reply _ IH Hv E]; [done|].
    destruct (IH Hc) as [H2 Hpre]. destruct (valid_op_step c2 op H2 Hv) as (c3' & r & E' & H3 & Hp & _).
    simplify_eq. split; [done|by etrans]. }
  destruct (Hrun _ _ csm_inv_new Hr) as [Hi _]. destruct (Hrun _ _ Hi Hr') as [Hi' Hpre].
  split_and!; [done| |].
  - intros op Hv. destruct (valid_op_step csm' op Hi' Hv) as (c & r & -> & _). eauto.
  - intros i Hb. destruct Hpre as [l Hl]. unfold Query. rewrite Hl, len_app.
    pose proof (len_nonneg l).
    destruct ((i <? 0) || (len (Configs csm) <=? i)) eqn:E1; [lia|].
    destruct ((i <? 0) || (len (Configs csm) + len l <=? i)) eqn:E2; [lia|].
    destruct (proj2 (slice_get_is_Some (Configs csm) i) Hb) as [cfg E]. rewrite E.
    apply slice_get_Some in E as [_ E]. split.
    + unfold slice_get. rewrite decide_True by lia. by rewrite (lookup_app_l_Some _ _ _ _ E).
    + simpl. exists cfg. split; [done|]. apply Hi in E as [_ ->]. lia.
Qed.
End theorems.

(** replicas agree. Two replicas that range over their maps in different
    orders compute the same configurations from the same operation. *)
Theorem ctrler_deterministic (r1 r2 : RangeOrder) csm op :
  csm_inv csm → valid_op csm op →
  @applyToStateMachine r1 op csm = @applyToStateMachine r2 op csm.
Proof.
  intros Hi (cfg & Hlast & Hop). pose proof (last_wf _ _ Hi Hlast) as Hwf.
  assert (∀ c, @gidToShards r1 c = @gidToShards r2 c) as Hg.
  { intros c. unfold gidToShards. f_equal. apply map_eq. intros i.
    rewrite !(fold_insert_range (λ _, []))
      by (apply (@map_range_NoDup r1) || apply (@map_range_NoDup r2)).
    by rewrite (@list_to_map_range r1), (@list_to_map_range r2). }
  unfold applyToStateMachine. destruct (op_OpType op); [..|done].
  - destruct Hop as [Hz Hne]. unfold Join. rewrite (@nextConfig_Some r1 _ _ Hlast), (@nextConfig_Some r2 _ _ Hlast). simpl.
    rewrite (@addGroups_union r1), (@addGroups_union r2), Hg, (rebalance_order r1 r2).
    set (cfg1 := mkConfig _ (Shards cfg) (Groups cfg ∪ op_Servers op)).
    destruct (@gidToShards_spec r2 cfg1) as (Hp & Ht & He & Hd); [apply Hwf|].
    destruct (@rebalance_terminates r2 (gidToShards cfg1)) as (m & -> & [Hpm _ _] & _).
    { split; [done|done|]. apply map_choose in Hne as (k & x & Hk). exists k.
      split; [apply Hd; left; by eapply elem_of_dom_2|]. intros ->.
      apply lookup_union_Some_raw in Hk as [Hk|[_ Hk]]; [rewrite (wf_zero _ Hwf) in Hk|]; congruence. }
    simpl. by rewrite (storeShards_order r1 r2 m Hpm).
  - unfold Leave. rewrite (@nextConfig_Some r1 _ _ Hlast), (@nextConfig_Some r2 _ _ Hlast). simpl. rewrite Hg.
    set (cfg1 := mkConfig _ (Shards cfg) (Groups cfg)).
    destruct (@gidToShards_spec r2 cfg1) as (Hp & _ & _ & Hd); [apply Hwf|].
    destruct (leave_loop_spec (op_GIDs op) (Groups cfg) (@gidToShards r2 cfg1) [] Hp) as (Hgl & Hml & Hpm).
    fold (leave_loop (op_GIDs op) (Groups cfg) (@gidToShards r2 cfg1)) in *. cbv zeta in *.
    destruct (leave_loop _ _ _) as [[g m] pend]. simpl in *.
    destruct (negb _) eqn:Es; [|done].
    assert (∀ l mm, @assign_min r1 l mm = @assign_min r2 l mm) as Ha.
    { intros l. induction l as [|s l IH]; intros mm; [done|]. unfold assign_min in *. simpl.
      rewrite (gidWithMin_order r1 r2). apply IH. }
    rewrite Ha. assert (∃ k0, k0 ∈ dom m ∧ k0 ≠ 0) as (k0 & Hk0 & Hn0).
    { destruct (decide (g = ∅)) as [->|Hne]; [by rewrite map_size_empty in Es|].
      apply map_choose in Hne as (k & x & Hk). exists k. rewrite Hgl in Hk.
      destruct (decide (k ∈ op_GIDs op)) eqn:Ek; [done|]. split.
      - apply elem_of_dom. rewrite Hml, Ek. apply elem_of_dom, Hd. left. by eapply elem_of_dom_2.
      - intros ->. rewrite (wf_zero _ Hwf) in Hk. done. }
    destruct (@assign_min_spec r2 pend m k0 Hpm Hk0 Hn0) as (Hp' & _).
    by rewrite (storeShards_order r1 r2 _ Hp').
  - unfold Move. by rewrite (@nextConfig_Some r1 _ _ Hlast), (@nextConfig_Some r2 _ _ Hlast).
Qed.

(** ** Concrete controllers *)

Module CtrlerExample.

#[local] Existing Instance some_order.

Definition groups12 : gmap Z (list string) := {[1 := ["x"; "y"]; 2 := ["z"]]}%string.
Definition one : CtrlerStateMachine :=
  from_option fst NewCtrlerStateMachine (Join groups12 NewCtrlerStateMachine).
Definition cfg1 : Config := default DefaultConfig (list.last (Configs one)).

Lemma default_wf : wf_config DefaultConfig.
Proof.
  split; [reflexivity|reflexivity| |done]. intros _ k Hk.
  by apply (elem_of_replicate (Z.to_nat NShards) 0 k) in Hk as [-> _].
Qed.

Definition join_op : Op := rpc_Join groups12 5 0.

Lemma join_valid : valid_op NewCtrlerStateMachine join_op.
Proof. exists DefaultConfig. split; [reflexivity|]. split; [reflexivity|]. vm_compute. done. Qed.

Lemma one_run : ctrl_run NewCtrlerStateMachine one.
Proof.
  eapply (cr_step _ NewCtrlerStateMachine _ join_op); [apply cr_refl|apply join_valid|].
  vm_compute. reflexivity.
Qed.


Lemma leave_witness :
  ∃ cfg', Leave [1] one = Some (mkCSM (Configs one ++ [cfg']), OK) ∧
    Num cfg' = len (Configs one) ∧
    (∀ k, Groups cfg' !! k = if decide (k ∈ [1]) then None else Groups cfg1 !! k) ∧
    wf_config cfg' ∧
    (∀ s k, Shards cfg1 !! s = Some k → k ∈ dom (Groups cfg') → Shards cfg' !! s = Some k) ∧
    (balanced cfg1 → balanced cfg').
Proof.
  apply (Leave_moves_only_orphans [1] one cfg1).
  - vm_compute. reflexivity.
  - destruct (Join_lemma groups12 NewCtrlerStateMachine DefaultConfig) as (c & E & _ & _ & Hw & _);
      [reflexivity|apply default_wf|reflexivity|vm_compute; done|].
    unfold cfg1, one. rewrite E. simpl. exact Hw.
Defined.

Lemma history_witness :
  Query one 0 = Query NewCtrlerStateMachine 0 ∧ len (Configs one) = 2.
Proof.
  split; [|vm_compute; reflexivity].
  apply (ctrler_history NewCtrlerStateMachine one).
  - apply cr_refl.
  - apply one_run.
  - unfold len. simpl. lia.
Defined.

Lemma deterministic_witness :
  @applyToStateMachine some_order join_op NewCtrlerStateMachine =
  @applyToStateMachine reverse_order join_op NewCtrlerStateMachine.
Proof.
  apply (ctrler_deterministic some_order reverse_order NewCtrlerStateMachine join_op).
  - apply csm_inv_new.
  - apply join_valid.
Defined.

(** A [Join] of no groups into a controller without groups assigns every
    shard to group -1, which is not a group, instead of leaving them with group
    0. *)
Theorem join_of_nothing :
  ∃ csm cfg, Join ∅ NewCtrlerStateMachine = Some (csm, OK) ∧
    list.last (Configs csm) = Some cfg ∧ Groups cfg = ∅ ∧
    Shards cfg = replicate (Z.to_nat NShards) (-1).
Proof.
  eexists _, _. split; [vm_compute; reflexivity|]. split; [vm_compute; reflexivity|].
  split; reflexivity.
Qed.
End CtrlerExample.
