(* ===== verification/ShardKV.v ===== *)
(** A replica group of the sharded key/value service: [src/src/shardkv].

    Module [SKV] models the shard store, the commands that travel through Raft
    (client operations, configuration changes, shard migration and garbage
    collection), the RPC handlers, the background tasks and the clerk.  A
    pointer [kv.shards[i]] is never shared between two shards, so a shard is a
    value of the map; a missing shard is a nil pointer, whose use panics.  The
    order in which Go ranges over a map is the class [RangeOrder]; copying a map
    key by key is the identity or a union. *)

From stdpp Require Import strings.
From S2P Require Import Prelude Gob RaftLog Raft Service ShardCtrler.

#[local] Open Scope Z_scope.

Module SKV.

(** ** [common.go] *)

(** [ErrNone] is the empty string. *)
Inductive Err :=
  | OK | ErrNoKey | ErrWrongGroup | ErrWrongLeader | ErrTimeout | ErrWrongConfig | ErrNotReady
  | ErrNone.

#[export] Instance Err_eq_dec : EqDecision Err.
Proof. solve_decision. Defined.

Inductive OperationType := OpGet | OpPut | OpAppend.

#[export] Instance OperationType_eq_dec : EqDecision OperationType.
Proof. solve_decision. Defined.

Record Op := mkOp {
  op_Key : string;
  op_Value : string;
  op_OpType : OperationType;
  op_ClientId : Z;
  op_SeqId : Z
}.

Record OpReply := mkReply {
  or_Value : string;
  or_Err : Err
}.

Record PutAppendArgs := mkPA {
  pa_Key : string;
  pa_Value : string;
  pa_Op : string;
  pa_ClientId : Z;
  pa_SeqId : Z
}.

Definition getOperationType (v : string) : res OperationType :=
  if decide (v = "Put"%string) then Ok OpPut
  else if decide (v = "Append"%string) then Ok OpAppend
  else Panic.

Inductive ShardStatus := Normal | MoveIn | MoveOut | GC.

#[export] Instance ShardStatus_eq_dec : EqDecision ShardStatus.
Proof. solve_decision. Defined.

Abbreviation DupTable := (gmap Z (LastOperationInfo OpReply)).
Abbreviation Config := (SC.Config).

Record ShardOperationArgs := mkShardArgs {
  sa_ConfigNum : Z;
  sa_ShardIds : list Z
}.

Record ShardOperationReply := mkShardReply {
  sr_Err : Err;
  sr_ConfigNum : Z;
  sr_ShardData : gmap Z (gmap string string);
  sr_DuplicateTable : DupTable
}.

Inductive RaftCommandType := ClientOpeartion | ConfigChange | ShardMigration | ShardGC.

#[export] Instance RaftCommandType_eq_dec : EqDecision RaftCommandType.
Proof. solve_decision. Defined.

(** The dynamic values [RaftCommand.Data] holds. *)
Inductive CommandData :=
  | DOp (op : Op)
  | DConfig (cfg : Config)
  | DReply (reply : ShardOperationReply)
  | DArgs (args : ShardOperationArgs).

Record RaftCommand := mkCommand {
  CmdType : RaftCommandType;
  Data : CommandData
}.

(** ** [state_machine.go] *)

Record MemoryKVStateMachine := mkMachine {
  KV : gmap string string;
  Status : ShardStatus
}.
Implicit Types mkv : MemoryKVStateMachine.

Definition NewMemoryKVStateMachine : MemoryKVStateMachine := mkMachine ∅ Normal.

Definition set_Status st mkv : MemoryKVStateMachine := mkMachine (KV mkv) st.

Definition Get mkv (key : string) : string * Err :=
  match KV mkv !! key with
  | Some value => (value, OK)
  | None => (""%string, ErrNoKey)
  end.

Definition Put mkv (key value : string) : MemoryKVStateMachine * Err :=
  (mkMachine (<[key := value]> (KV mkv)) (Status mkv), OK).

Definition Append mkv (key value : string) : MemoryKVStateMachine * Err :=
  (mkMachine (<[key := (default "" (KV mkv !! key) ++ value)%string]> (KV mkv)) (Status mkv), OK).

Definition copyData mkv : gmap string string := KV mkv.

(** ** [client.go]: the shard of a key *)

Definition key2shard (key : string) : Z :=
  let shard := match key with
               | EmptyString => 0
               | String c _ => Z.of_nat (Ascii.nat_of_ascii c)
               end in
  Z.rem shard SC.NShards.

(** ** The replicated state of a group

    The fields of [ShardKV] that commands read and write. *)

Record Group := mkGroup {
  gid : Z;
  shards : gmap Z MemoryKVStateMachine;
  duplicateTable : DupTable;
  currentConfig : Config;
  prevConfig : Config
}.
Implicit Types kv : Group.

Definition set_shards v kv := mkGroup (gid kv) v (duplicateTable kv) (currentConfig kv) (prevConfig kv).
Definition set_duplicateTable v kv := mkGroup (gid kv) (shards kv) v (currentConfig kv) (prevConfig kv).
Definition set_configs cur prev kv := mkGroup (gid kv) (shards kv) (duplicateTable kv) cur prev.

(** [kv.shards[i]], dereferenced. *)
Definition shard_at (i : Z) kv : res MemoryKVStateMachine := or_panic (shards kv !! i).
Definition set_shard (i : Z) mkv kv : Group := set_shards (<[i := mkv]> (shards kv)) kv.

(** [cfg.Shards[i]] *)
Definition owner (cfg : Config) (i : Z) : res Z := or_panic (slice_get (SC.Shards cfg) i).

Definition matchGroup (key : string) kv : res bool :=
  let shard := key2shard key in
  mkv ← shard_at shard kv;
  g ← owner (currentConfig kv) shard;
  Ok ((g =? gid kv) && (bool_decide (Status mkv = Normal) || bool_decide (Status mkv = GC))).

Definition requestDuplicated (clientId seqId : Z) kv : bool :=
  duplicated (duplicateTable kv) clientId seqId.

Definition applyToStateMachine (op : Op) (shardId : Z) kv : res (Group * OpReply) :=
  mkv ← shard_at shardId kv;
  match op_OpType op with
  | OpGet => let '(value, err) := Get mkv (op_Key op) in Ok (kv, mkReply value err)
  | OpPut =>
      let '(mkv, err) := Put mkv (op_Key op) (op_Value op) in
      Ok (set_shard shardId mkv kv, mkReply "" err)
  | OpAppend =>
      let '(mkv, err) := Append mkv (op_Key op) (op_Value op) in
      Ok (set_shard shardId mkv kv, mkReply "" err)
  end.

Definition applyClientOperation (op : Op) kv : res (Group * OpReply) :=
  m ← matchGroup (op_Key op) kv;
  if m : bool then
    if bool_decide (op_OpType op ≠ OpGet) && requestDuplicated (op_ClientId op) (op_SeqId op) kv
    then
      info ← or_panic (duplicateTable kv !! op_ClientId op);
      Ok (kv, li_Reply info)
    else
      let shardId := key2shard (op_Key op) in
      '(kv, opReply) ← applyToStateMachine op shardId kv;
      let kv := if bool_decide (op_OpType op ≠ OpGet)
                then set_duplicateTable
                       (<[op_ClientId op := mkInfo (op_SeqId op) opReply]> (duplicateTable kv)) kv
                else kv in
      Ok (kv, opReply)
  else Ok (kv, mkReply "" ErrWrongGroup).

(** ** [conf_change.go] *)

(** One iteration of the loop of [applyNewConfig]. *)
Definition newConfig_shard (newConfig : Config) (i : Z) kv : res Group :=
  cur ← owner (currentConfig kv) i;
  new ← owner newConfig i;
  kv ← (if negb (cur =? gid kv) && (new =? gid kv) && negb (cur =? 0) then
          mkv ← shard_at i kv; Ok (set_shard i (set_Status MoveIn mkv) kv)
        else Ok kv);
  if (cur =? gid kv) && negb (new =? gid kv) && negb (new =? 0) then
    mkv ← shard_at i kv; Ok (set_shard i (set_Status MoveOut mkv) kv)
  else Ok kv.

Definition applyNewConfig (newConfig : Config) kv : res (Group * OpReply) :=
  if SC.Num (currentConfig kv) + 1 =? SC.Num newConfig then
    kv ← foldl (λ o i, o ≫= newConfig_shard newConfig i) (Ok kv) (seqZ 0 SC.NShards);
    Ok (set_configs newConfig (currentConfig kv) kv, mkReply "" OK)
  else Ok (kv, mkReply "" ErrWrongConfig).

(** The first loop of [applyShardMigration]; the boolean is "no [break] yet". *)
Definition migrate_shard (st : Group * bool) (d : Z * gmap string string) : res (Group * bool) :=
  let '(kv, go) := st in
  let '(shardId, shardData) := d in
  if go : bool then
    shard ← shard_at shardId kv;
    if decide (Status shard = MoveIn)
    then Ok (set_shard shardId (mkMachine (shardData ∪ KV shard) GC) kv, true)
    else Ok (kv, false)
  else Ok (kv, false).

(** The second loop, for one client. *)
Definition merge_client (tb : DupTable) (e : Z * LastOperationInfo OpReply) : DupTable :=
  let '(clientId, dupTable) := e in
  match tb !! clientId with
  | Some table => if li_SeqId table <? li_SeqId dupTable then <[clientId := dupTable]> tb else tb
  | None => <[clientId := dupTable]> tb
  end.

(** One iteration of the loop of [applyShardGC]. *)
Definition gc_shard (st : Group * bool) (shardId : Z) : res (Group * bool) :=
  let '(kv, go) := st in
  if go : bool then
    shard ← shard_at shardId kv;
    match Status shard with
    | GC => Ok (set_shard shardId (set_Status Normal shard) kv, true)
    | MoveOut => Ok (set_shard shardId NewMemoryKVStateMachine kv, true)
    | _ => Ok (kv, false)
    end
  else Ok (kv, false).

Definition applyShardGC (shardsInfo : ShardOperationArgs) kv : res (Group * OpReply) :=
  kv ← (if sa_ConfigNum shardsInfo =? SC.Num (currentConfig kv) then
          '(kv, _) ← foldl (λ o i, st ← o; gc_shard st i) (Ok (kv, true)) (sa_ShardIds shardsInfo);
          Ok kv
        else Ok kv);
  Ok (kv, mkReply "" OK).

Section ordered.
Context {ro : RangeOrder}.

Definition applyShardMigration (reply : ShardOperationReply) kv : res (Group * OpReply) :=
  kv ← (if sr_ConfigNum reply =? SC.Num (currentConfig kv) then
          '(kv, _) ← foldl (λ o d, st ← o; migrate_shard st d) (Ok (kv, true))
                       (map_range (sr_ShardData reply));
          Ok (set_duplicateTable
                (foldl merge_client (duplicateTable kv) (map_range (sr_DuplicateTable reply))) kv)
        else Ok kv);
  Ok (kv, mkReply "" ErrWrongConfig).

Definition handleConfigChangeMessage (command : RaftCommand) kv : res (Group * OpReply) :=
  match CmdType command with
  | ConfigChange =>
      match Data command with DConfig newConfig => applyNewConfig newConfig kv | _ => Panic end
  | ShardMigration =>
      match Data command with DReply d => applyShardMigration d kv | _ => Panic end
  | ShardGC =>
      match Data command with DArgs a => applyShardGC a kv | _ => Panic end
  | _ => Panic
  end.

(** The dispatch of [applyTask]. *)
Definition applyCommand (command : RaftCommand) kv : res (Group * OpReply) :=
  if decide (CmdType command = ClientOpeartion) then
    match Data command with DOp op => applyClientOperation op kv | _ => Panic end
  else handleConfigChangeMessage command kv.

(** [getShardByStatus] *)
Definition getShardByStatus (status : ShardStatus) kv : res (gmap Z (list Z)) :=
  foldl (λ o '(i, shard),
      m ← o;
      if decide (Status shard = status) then
        g ← owner (prevConfig kv) i;
        if negb (g =? 0) then Ok (<[g := default [] (m !! g) ++ [i]]> m) else Ok m
      else Ok m) (Ok ∅) (map_range (shards kv)).
End ordered.

(** ** [task.go]: RPC handlers between groups and background tasks *)

(** One iteration of the loop of [GetShardsData] over the requested shards. *)
Definition copy_shard kv (o : res (gmap Z (gmap string string))) (shardId : Z)
    : res (gmap Z (gmap string string)) :=
  d ← o; mkv ← shard_at shardId kv; Ok (<[shardId := copyData mkv]> d).

(** [GetShardsData] after the check that this server leads. *)
Definition GetShardsData (args : ShardOperationArgs) kv : res ShardOperationReply :=
  if SC.Num (currentConfig kv) <? sa_ConfigNum args then Ok (mkShardReply ErrNotReady 0 ∅ ∅)
  else
    data ← foldl (copy_shard kv) (Ok ∅) (sa_ShardIds args);
    Ok (mkShardReply OK (sa_ConfigNum args) data (duplicateTable kv)).

(** [DeleteShardsData] up to [ConfigCommand]: an immediate answer, or the command
    to replicate. *)
Definition DeleteShardsData (args : ShardOperationArgs) kv : Err + RaftCommand :=
  if sa_ConfigNum args <? SC.Num (currentConfig kv) then inl OK
  else inr (mkCommand ShardGC (DArgs args)).

(** [fetchConfigTask]: the configuration number to ask the controller for, and
    the command for its answer. *)
Definition fetchConfig_num kv : option Z :=
  if bool_decide (map_Forall (λ _ shard, Status shard = Normal) (shards kv))
  then Some (SC.Num (currentConfig kv)) else None.

Definition fetchConfig_command (currentNum : Z) (newConfig : Config) : option RaftCommand :=
  if SC.Num newConfig =? currentNum + 1 then Some (mkCommand ConfigChange (DConfig newConfig))
  else None.

(** [shardMigrationTask] and [shardGCTask]: per source group, the servers to
    call and the arguments; and the command for an answer. *)
Definition task_calls {ro : RangeOrder} (status : ShardStatus) kv
    : res (list (list string * ShardOperationArgs)) :=
  m ← getShardByStatus status kv;
  Ok ((λ '(g, ids), (default [] (SC.Groups (prevConfig kv) !! g),
                     mkShardArgs (SC.Num (currentConfig kv)) ids)) <$> map_range m).

Definition migration_command (ok : bool) (reply : ShardOperationReply) : option RaftCommand :=
  if ok && bool_decide (sr_Err reply = OK)
  then Some (mkCommand ShardMigration (DReply reply)) else None.

Definition gc_command (args : ShardOperationArgs) (ok : bool) (err : Err) : option RaftCommand :=
  if ok && bool_decide (err = OK) then Some (mkCommand ShardGC (DArgs args)) else None.

(** ** [server.go] and the rest of [task.go] *)

(** The values a server writes to a snapshot. *)
Inductive sgob :=
  | GShards (m : gmap Z MemoryKVStateMachine)
  | GTable (tb : DupTable)
  | GConfig (cfg : Config).

#[export] Instance gob_shards : GobType sgob (gmap Z MemoryKVStateMachine).
Proof.
  refine {| to_gob := GShards; of_gob v := match v with GShards m => Some m | _ => None end |}.
  done.
Defined.

#[export] Instance gob_dup : GobType sgob DupTable.
Proof.
  refine {| to_gob := GTable; of_gob v := match v with GTable t => Some t | _ => None end |}.
  done.
Defined.

#[export] Instance gob_config : GobType sgob Config.
Proof.
  refine {| to_gob := GConfig; of_gob v := match v with GConfig c => Some c | _ => None end |}.
  done.
Defined.

Section server.
Context {ro : RangeOrder} {R : Type} `{!RaftPeer R RaftCommand sgob}.

Record ShardKV := mkSKV {
  rf : R;
  dead : Z;
  maxraftstate : Z;
  lastApplied : Z;
  group : Group;
  notifyChans : Notify OpReply
}.
Implicit Types s : ShardKV.

Definition set_rf v s := mkSKV v (dead s) (maxraftstate s) (lastApplied s) (group s) (notifyChans s).
Definition set_lastApplied v s := mkSKV (rf s) (dead s) (maxraftstate s) v (group s) (notifyChans s).
Definition set_group v s := mkSKV (rf s) (dead s) (maxraftstate s) (lastApplied s) v (notifyChans s).
Definition set_notifyChans v s := mkSKV (rf s) (dead s) (maxraftstate s) (lastApplied s) (group s) v.

Definition getNotifyChannel (index : Z) s : ShardKV * nat :=
  let '(n, c) := notify_get index (notifyChans s) in (set_notifyChans n s, c).

Definition removeNotifyChannel (index : Z) s : ShardKV :=
  set_notifyChans (notify_remove index (notifyChans s)) s.

(** The bytes [makeSnapshot] hands to Raft. *)
Definition snapshot_of kv : list sgob :=
  let e := Encode [] (shards kv) in
  let e := Encode e (duplicateTable kv) in
  let e := Encode e (currentConfig kv) in
  Encode e (prevConfig kv).

Definition makeSnapshot (index : Z) s : res ShardKV :=
  rf' ← or_panic (rp_Snapshot index (snapshot_of (group s)) (rf s));
  Ok (set_rf rf' s).

Definition restoreFromSnapshot (snapshot : list sgob) kv : res Group :=
  match snapshot with
  | [] =>
      Ok (foldl (λ kv i, if bool_decide (is_Some (shards kv !! i)) then kv
                         else set_shard i NewMemoryKVStateMachine kv) kv (seqZ 0 SC.NShards))
  | _ =>
      '(sm, d) ← or_panic (Decode (A:=gmap Z MemoryKVStateMachine) snapshot);
      '(dup, d) ← or_panic (Decode (A:=DupTable) d);
      '(cur, d) ← or_panic (Decode (A:=Config) d);
      '(prev, _) ← or_panic (Decode (A:=Config) d);
      Ok (mkGroup (gid kv) sm dup cur prev)
  end.

(** What [applyTask] does with one message. *)
Definition applyMessage (message : ApplyMsg RaftCommand sgob) s : res ShardKV :=
  if am_CommandValid message then
    if am_CommandIndex message <=? lastApplied s then Ok s
    else
      let s := set_lastApplied (am_CommandIndex message) s in
      raftCommand ← or_panic (am_Command message);
      '(kv, opReply) ← applyCommand raftCommand (group s);
      let s := set_group kv s in
      s ←
        (if (rp_GetState (rf s)).2 then
           let '(s, notifyCh) := getNotifyChannel (am_CommandIndex message) s in
           n ← chan_send notifyCh opReply (notifyChans s);
           Ok (set_notifyChans n s)
         else Ok s);
      if negb (maxraftstate s =? -1) && (maxraftstate s <=? rp_GetRaftStateSize (rf s))
      then makeSnapshot (am_CommandIndex message) s
      else Ok s
  else if am_SnapshotValid message then
    kv ← restoreFromSnapshot (am_Snapshot message) (group s);
    Ok (set_lastApplied (am_SnapshotIndex message) (set_group kv s))
  else Ok s.

Inductive pc :=
  | PCheck
  | PStart
  | PChan (index : Z)
  | PWait (index : Z) (ch : nat)
  | PRemove (index : Z) (reply : OpReply)
  | PDone (reply : OpReply).

(** Waiting for the result or the timeout, then removing the channel. *)
Definition await_step (timeout : bool) (p : pc) s : res (ShardKV * pc) :=
  match p with
  | PChan index =>
      let '(s, ch) := getNotifyChannel index s in Ok (s, PWait index ch)
  | PWait index ch =>
      if timeout then Ok (s, PRemove index (mkReply "" ErrTimeout))
      else match chan_recv ch (notifyChans s) with
           | Some (result, n) => Ok (set_notifyChans n s, PRemove index result)
           | None => Block
           end
  | PRemove index reply => Ok (removeNotifyChannel index s, PDone reply)
  | p => Ok (s, p)
  end.

Definition start_step (command : RaftCommand) s : res (ShardKV * pc) :=
  let '(rf', (index, _, isLeader)) := rp_Start (Some command) (rf s) in
  let s := set_rf rf' s in
  if negb isLeader then Ok (s, PDone (mkReply "" ErrWrongLeader)) else Ok (s, PChan index).

(** [ConfigCommand], one step per critical section. *)
Definition ConfigCommand_step (command : RaftCommand) (timeout : bool) (p : pc) s
    : res (ShardKV * pc) :=
  match p with
  | PCheck => Ok (s, PStart)
  | PStart => start_step command s
  | p => await_step timeout p s
  end.

Definition Get_step (key : string) (timeout : bool) (p : pc) s : res (ShardKV * pc) :=
  match p with
  | PCheck =>
      m ← matchGroup key (group s);
      if negb m then Ok (s, PDone (mkReply "" ErrWrongGroup)) else Ok (s, PStart)
  | PStart => start_step (mkCommand ClientOpeartion (DOp (mkOp key "" OpGet 0 0))) s
  | p => await_step timeout p s
  end.

Definition PutAppend_step (args : PutAppendArgs) (timeout : bool) (p : pc) s : res (ShardKV * pc) :=
  match p with
  | PCheck =>
      m ← matchGroup (pa_Key args) (group s);
      if negb m then Ok (s, PDone (mkReply "" ErrWrongGroup))
      else if requestDuplicated (pa_ClientId args) (pa_SeqId args) (group s) then
        info ← or_panic (duplicateTable (group s) !! pa_ClientId args);
        Ok (s, PDone (mkReply "" (or_Err (li_Reply info))))
      else Ok (s, PStart)
  | PStart =>
      ot ← getOperationType (pa_Op args);
      start_step (mkCommand ClientOpeartion
        (DOp (mkOp (pa_Key args) (pa_Value args) ot (pa_ClientId args) (pa_SeqId args)))) s
  | p => await_step timeout p s
  end.

(** The two RPCs between groups, with their leader check. *)
Definition rpc_GetShardsData (args : ShardOperationArgs) s : res ShardOperationReply :=
  if negb (rp_GetState (rf s)).2 then Ok (mkShardReply ErrWrongLeader 0 ∅ ∅)
  else GetShardsData args (group s).

Definition rpc_DeleteShardsData (args : ShardOperationArgs) s : Err + RaftCommand :=
  if negb (rp_GetState (rf s)).2 then inl ErrWrongLeader
  else DeleteShardsData args (group s).

Definition Kill s : ShardKV :=
  mkSKV (rp_Kill (rf s)) 1 (maxraftstate s) (lastApplied s) (group s) (notifyChans s).

Definition StartServer (r : R) (snapshot : list sgob) (maxraftstate gid : Z) : res ShardKV :=
  let kv := mkGroup gid ∅ ∅ SC.DefaultConfig SC.DefaultConfig in
  kv ← restoreFromSnapshot snapshot kv;
  Ok (mkSKV r 0 maxraftstate 0 kv no_chans).
End server.
Arguments ShardKV : clear implicits.

(** ** [client.go] *)

Record Clerk := mkClerk {
  config : Config;
  leaderIds : gmap Z Z;
  clientId : Z;
  seqId : Z
}.
Implicit Types ck : Clerk.

Definition MakeClerk (clientId : Z) : Clerk := mkClerk (SC.zeroConfig) ∅ clientId 0.

Definition set_leader (g v : Z) ck := mkClerk (config ck) (<[g := v]> (leaderIds ck)) (clientId ck) (seqId ck).
Definition set_config cfg ck := mkClerk cfg (leaderIds ck) (clientId ck) (seqId ck).

(** How the inner loop over the servers of a group ends. *)
Inductive trial := TReturn (reply : OpReply) | TBreak.

(** The inner loop: [accept] tells the answers that end the operation, [n] is
    the number of servers of the group; the rest of the answers is returned. *)
Fixpoint try_group (accept : Err → bool) (g n oldLeaderId : Z) (answers : list (bool * OpReply)) ck
    : res (Clerk * trial * list (bool * OpReply)) :=
  let l := default 0 (leaderIds ck !! g) in
  if negb ((0 <=? l) && (l <? n)) then Panic
  else
    match answers with
    | [] => Block
    | (ok, reply) :: answers =>
        if ok && accept (or_Err reply) then Ok (ck, TReturn reply, answers)
        else if ok && bool_decide (or_Err reply = ErrWrongGroup) then Ok (ck, TBreak, answers)
        else if negb ok || bool_decide (or_Err reply = ErrWrongLeader)
                || bool_decide (or_Err reply = ErrTimeout) then
          let l := Z.rem (l + 1) n in
          let ck := set_leader g l ck in
          if l =? oldLeaderId then Ok (ck, TBreak, answers)
          else try_group accept g n oldLeaderId answers ck
        else try_group accept g n oldLeaderId answers ck
    end.

(** The outer loop of [Get] and [PutAppend]: [configs] are the answers of the
    controller to [Query(-1)]. *)
Fixpoint clerk_loop (accept : Err → bool) (key : string) (configs : list Config)
    (answers : list (bool * OpReply)) ck : res (Clerk * OpReply) :=
  g ← owner (config ck) (key2shard key);
  '(ck, t, answers) ←
    match SC.Groups (config ck) !! g with
    | Some servers =>
        let ck := match leaderIds ck !! g with Some _ => ck | None => set_leader g 0 ck end in
        try_group accept g (len servers) (default 0 (leaderIds ck !! g)) answers ck
    | None => Ok (ck, TBreak, answers)
    end;
  match t with
  | TReturn reply => Ok (ck, reply)
  | TBreak =>
      match configs with
      | [] => Block
      | cfg :: configs => clerk_loop accept key configs answers (set_config cfg ck)
      end
  end.

Definition clerk_Get (key : string) configs answers ck : res (Clerk * string) :=
  '(ck, reply) ← clerk_loop (λ e, bool_decide (e = OK) || bool_decide (e = ErrNoKey))
                   key configs answers ck;
  Ok (ck, or_Value reply).

Definition clerk_PutAppend (key : string) configs answers ck : res Clerk :=
  '(ck, _) ← clerk_loop (λ e, bool_decide (e = OK)) key configs answers ck;
  Ok (mkClerk (config ck) (leaderIds ck) (clientId ck) (seqId ck + 1)).
End SKV.
