(* ===== verification/ShardKVFacts.v ===== *)
(** What a replica group of [src/src/shardkv] promises while shards move.

    A command never panics in a well-formed group; configuration changes are
    only applied when no migration is pending; a shard that is being moved out
    is frozen, so the data another group fetches is complete; and a migration
    carries the duplicate table along, so a write is not executed again by the
    new owner. *)

From stdpp Require Import strings.
From S2P Require Import Prelude Gob RaftLog Raft Service ShardCtrler ShardKV.
Import SKV.

#[local] Open Scope Z_scope.

Section facts.
Context {ro : RangeOrder}.
Implicit Types (kv : Group) (i : Z).

(** ** Well-formed groups *)

Definition has_owner (cfg : Config) (i g : Z) : Prop := slice_get (SC.Shards cfg) i = Some g.

(** What the status of a shard says about the last configuration change. *)
Definition status_ok kv i (st : ShardStatus) : Prop :=
  match st with
  | Normal => True
  | MoveIn | GC =>
      has_owner (currentConfig kv) i (gid kv) ∧
      ∃ g, has_owner (prevConfig kv) i g ∧ g ≠ gid kv ∧ g ≠ 0
  | MoveOut =>
      has_owner (prevConfig kv) i (gid kv) ∧
      ∃ g, has_owner (currentConfig kv) i g ∧ g ≠ gid kv ∧ g ≠ 0
  end.

Record group_ok kv : Prop := {
  go_cur : len (SC.Shards (currentConfig kv)) = SC.NShards;
  go_prev : len (SC.Shards (prevConfig kv)) = SC.NShards;
  go_dom : ∀ i, is_Some (shards kv !! i) ↔ 0 ≤ i < SC.NShards;
  go_status : ∀ i mkv, shards kv !! i = Some mkv → status_ok kv i (Status mkv)
}.

Definition all_normal kv : Prop := map_Forall (λ _ shard, Status shard = Normal) (shards kv).

Lemma fetchConfig_num_spec kv n :
  fetchConfig_num kv = Some n ↔ all_normal kv ∧ n = SC.Num (currentConfig kv).
Proof. unfold fetchConfig_num, all_normal. case_bool_decide; naive_solver. Qed.

Lemma shard_at_Some kv i : group_ok kv → 0 ≤ i < SC.NShards →
  ∃ mkv, shard_at i kv = Ok mkv ∧ shards kv !! i = Some mkv.
Proof.
  intros H Hi. apply (go_dom _ H) in Hi as [mkv E]. exists mkv. unfold shard_at. by rewrite E.
Qed.

Lemma owner_Ok cfg i : len (SC.Shards cfg) = SC.NShards → 0 ≤ i < SC.NShards →
  ∃ g, owner cfg i = Ok g ∧ has_owner cfg i g.
Proof.
  intros H Hi. unfold owner, has_owner. rewrite <-H in Hi.
  apply slice_get_is_Some in Hi as [g E]. exists g. by rewrite E.
Qed.

Lemma key2shard_range key : 0 ≤ key2shard key < SC.NShards.
Proof.
  unfold key2shard. rewrite Z.rem_mod_nonneg by (destruct key; unfold SC.NShards; lia).
  apply Z.mod_pos_bound. unfold SC.NShards. lia.
Qed.

(** [kv'] is [kv] up to the contents of shards and the duplicate table. *)
Definition same_place kv kv' : Prop :=
  gid kv' = gid kv ∧ currentConfig kv' = currentConfig kv ∧ prevConfig kv' = prevConfig kv.

Lemma same_place_refl kv : same_place kv kv.
Proof. done. Qed.

Lemma same_place_trans kv1 kv2 kv3 : same_place kv1 kv2 → same_place kv2 kv3 → same_place kv1 kv3.
Proof. unfold same_place. naive_solver congruence. Qed.

Lemma status_ok_place kv kv' i st : same_place kv kv' → status_ok kv i st → status_ok kv' i st.
Proof. intros (H1 & H2 & H3). unfold status_ok. by rewrite H1, H2, H3. Qed.

Lemma group_ok_set kv i mkv mkv' :
  group_ok kv → shards kv !! i = Some mkv → status_ok kv i (Status mkv') →
  group_ok (set_shard i mkv' kv).
Proof.
  intros [H1 H2 H3 H4] Hi Hs. split; simpl; [done|done| |].
  - intros j. rewrite <-H3. destruct (decide (i = j)) as [<-|].
    + rewrite lookup_insert_eq, Hi. split; eauto.
    + by rewrite lookup_insert_ne.
  - intros j m. rewrite lookup_insert_Some. intros [[<- <-]|[_ ?]]; [exact Hs|by apply H4].
Qed.

Lemma group_ok_table kv tb : group_ok kv → group_ok (set_duplicateTable tb kv).
Proof. intros [H1 H2 H3 H4]. split; done. Qed.

(** ** Client operations *)

(** The shards of [kv'] differ from those of [kv] only in the contents of [s],
    and only when [s] may be served. *)
Definition serves kv (s : Z) : Prop :=
  has_owner (currentConfig kv) s (gid kv) ∧
  ∃ mkv, shards kv !! s = Some mkv ∧ (Status mkv = Normal ∨ Status mkv = GC).

Lemma matchGroup_spec key kv :
  group_ok kv → ∃ b, matchGroup key kv = Ok b ∧ (b = true ↔ serves kv (key2shard key)).
Proof.
  intros H. pose proof (key2shard_range key) as Hr. unfold matchGroup, serves.
  destruct (shard_at_Some kv _ H Hr) as (mkv & -> & Hm).
  destruct (owner_Ok (currentConfig kv) (key2shard key) (go_cur _ H) Hr) as (g & -> & Hg).
  simpl. eexists. split; [done|]. unfold has_owner in *. rewrite Hg.
  rewrite andb_true_iff, orb_true_iff, Z.eqb_eq, !bool_decide_eq_true. split.
  - intros [-> Hs]. split; [done|]. by exists mkv.
  - intros [[= ->] (mkv' & Hm' & Hs)]. split; [done|]. by simplify_eq.
Qed.

Lemma client_op_spec op kv :
  group_ok kv →
  ∃ kv' reply, applyClientOperation op kv = Ok (kv', reply) ∧ group_ok kv' ∧ same_place kv kv' ∧
    (∀ i, i ≠ key2shard (op_Key op) → shards kv' !! i = shards kv !! i) ∧
    (∀ i, Status <$> shards kv' !! i = Status <$> shards kv !! i) ∧
    (¬ serves kv (key2shard (op_Key op)) → kv' = kv ∧ or_Err reply = ErrWrongGroup).
Proof.
  intros H. unfold applyClientOperation.
  destruct (matchGroup_spec (op_Key op) kv H) as (b & -> & Hb). simpl.
  destruct b; [|do 2 eexists; split; [done|]; split_and!; done].
  assert (serves kv (key2shard (op_Key op))) as Hserve by (by apply Hb).
  destruct (_ && _) eqn:Ed.
  { apply andb_true_iff in Ed as [_ Ed]. unfold requestDuplicated, duplicated in Ed.
    destruct (duplicateTable kv !! _) as [info|]; [|done]. simpl.
    do 2 eexists; split; [done|]; split_and!; done. }
  unfold applyToStateMachine.
  destruct (shard_at_Some kv (key2shard (op_Key op)) H (key2shard_range _)) as (mkv & -> & Hm).
  simpl. assert (∀ kv1 reply, (kv1 = kv ∨ ∃ m', kv1 = set_shard (key2shard (op_Key op)) m' kv ∧ Status m' = Status mkv) →
    ∃ kv' reply', Ok (if bool_decide (op_OpType op ≠ OpGet)
       then set_duplicateTable (<[op_ClientId op := mkInfo (op_SeqId op) reply]> (duplicateTable kv1)) kv1
       else kv1, reply) = Ok (kv', reply') ∧ group_ok kv' ∧ same_place kv kv' ∧
    (∀ i, i ≠ key2shard (op_Key op) → shards kv' !! i = shards kv !! i) ∧
    (∀ i, Status <$> shards kv' !! i = Status <$> shards kv !! i) ∧
    (¬ serves kv (key2shard (op_Key op)) → kv' = kv ∧ or_Err reply' = ErrWrongGroup)) as Hfin.
  { intros kv1 reply Hkv. do 2 eexists. split; [done|].
    assert (group_ok kv1 ∧ same_place kv kv1 ∧
      (∀ i, i ≠ key2shard (op_Key op) → shards kv1 !! i = shards kv !! i) ∧
      (∀ i, Status <$> shards kv1 !! i = Status <$> shards kv !! i)) as (G1 & G2 & G3 & G4).
    { destruct Hkv as [->|(m' & -> & Hs)]; [by split_and!|]. split_and!; simpl.
      - eapply group_ok_set; [done|done|]. rewrite Hs. by apply (go_status _ H).
      - done.
      - intros i Hi. by rewrite lookup_insert_ne.
      - intros i. destruct (decide (key2shard (op_Key op) = i)) as [<-|].
        + rewrite lookup_insert_eq, Hm. simpl. by rewrite Hs.
        + by rewrite lookup_insert_ne. }
    destruct (bool_decide _); split_and!; try done; try (intros Hn; by destruct Hn).
    by apply group_ok_table. }
  unfold Get, Put, Append, mbind, res_bind.
  destruct (op_OpType op); [destruct (KV mkv !! _)|..]; apply Hfin; eauto.
Qed.

(** ** Configuration changes *)

(** The status a shard gets when the owner changes from [cur] to [new]. *)
Definition moved (g cur new : Z) (st : ShardStatus) : ShardStatus :=
  if negb (cur =? g) && (new =? g) && negb (cur =? 0) then MoveIn
  else if (cur =? g) && negb (new =? g) && negb (new =? 0) then MoveOut
  else st.

Lemma newConfig_shard_effect cfg i kv mkv cur new :
  shards kv !! i = Some mkv → has_owner (currentConfig kv) i cur → has_owner cfg i new →
  ∃ kv', newConfig_shard cfg i kv = Ok kv' ∧ same_place kv kv' ∧
    duplicateTable kv' = duplicateTable kv ∧
    ∀ j, shards kv' !! j =
      if decide (i = j) then Some (set_Status (moved (gid kv) cur new (Status mkv)) mkv)
      else shards kv !! j.
Proof.
  intros Hm Hc Hn. unfold newConfig_shard, owner, has_owner, shard_at in *. rewrite Hc, Hn.
  assert (∀ st, ∃ kv', Ok (set_shard i (set_Status st mkv) kv) = Ok kv' ∧ same_place kv kv' ∧
    duplicateTable kv' = duplicateTable kv ∧
    ∀ j, shards kv' !! j =
      if decide (i = j) then Some (set_Status st mkv) else shards kv !! j) as Hset.
  { intros st. eexists. split; [done|]. split_and!; try done. intros j. simpl.
    case_decide; subst; [by rewrite lookup_insert_eq|by rewrite lookup_insert_ne]. }
  assert (∃ kv', Ok kv = Ok kv' ∧ same_place kv kv' ∧ duplicateTable kv' = duplicateTable kv ∧
    ∀ j, shards kv' !! j =
      if decide (i = j) then Some (set_Status (Status mkv) mkv) else shards kv !! j) as Hid.
  { eexists. split; [done|]. split_and!; try done. intros j.
    case_decide; subst; [rewrite Hm; by destruct mkv|done]. }
  unfold moved, mbind, res_bind, or_panic.
  destruct (cur =? gid kv) eqn:E1, (new =? gid kv) eqn:E2; cbn [negb andb]; rewrite ?E1, ?E2;
    cbn [negb andb]; rewrite ?Hm.
  - exact Hid.
  - destruct (negb (new =? 0)); [apply Hset|exact Hid].
  - destruct (negb (cur =? 0)); cbn [gid set_shard set_shards]; rewrite ?E1; [apply Hset|exact Hid].
  - exact Hid.
Qed.

Lemma newConfig_loop cfg l kv :
  group_ok kv → len (SC.Shards cfg) = SC.NShards → NoDup l → (∀ i, i ∈ l → 0 ≤ i < SC.NShards) →
  ∃ kv', foldl (λ o i, o ≫= newConfig_shard cfg i) (Ok kv) l = Ok kv' ∧ same_place kv kv' ∧
    duplicateTable kv' = duplicateTable kv ∧
    (∀ j, j ∉ l → shards kv' !! j = shards kv !! j) ∧
    (∀ j mkv cur new, j ∈ l → shards kv !! j = Some mkv →
       has_owner (currentConfig kv) j cur → has_owner cfg j new →
       shards kv' !! j = Some (set_Status (moved (gid kv) cur new (Status mkv)) mkv)).
Proof.
  intros H Hl. assert (∀ kv1, same_place kv kv1 → (∀ i, is_Some (shards kv1 !! i) ↔ 0 ≤ i < SC.NShards) →
    NoDup l → (∀ i, i ∈ l → 0 ≤ i < SC.NShards) →
    ∃ kv', foldl (λ o i, o ≫= newConfig_shard cfg i) (Ok kv1) l = Ok kv' ∧ same_place kv kv' ∧
    duplicateTable kv' = duplicateTable kv1 ∧
    (∀ j, j ∉ l → shards kv' !! j = shards kv1 !! j) ∧
    (∀ j mkv cur new, j ∈ l → shards kv1 !! j = Some mkv →
       has_owner (currentConfig kv) j cur → has_owner cfg j new →
       shards kv' !! j = Some (set_Status (moved (gid kv) cur new (Status mkv)) mkv))) as Hgen;
    [|by apply (Hgen kv (same_place_refl kv)), H].
  induction l as [|i l IH]; intros kv1 Hp Hd Hn Hr.
  { exists kv1. split_and!; try done. intros j ? ? ? Hj. by apply not_elem_of_nil in Hj. }
  apply list.NoDup_cons in Hn as [Hi Hn].
  assert (0 ≤ i < SC.NShards) as Hri by (apply Hr; by left).
  destruct (proj2 (Hd i) Hri) as [mkv Hm].
  destruct (owner_Ok (currentConfig kv) i (go_cur _ H) Hri) as (cur & _ & Hcur).
  destruct (owner_Ok cfg i Hl Hri) as (new & _ & Hnew).
  pose proof Hp as (Hg & Hc & _).
  destruct (newConfig_shard_effect cfg i kv1 mkv cur new Hm) as (kv2 & E & Hp2 & Ht2 & Hs2);
    [by rewrite Hc|done|].
  cbn [foldl]. change (Ok kv1 ≫= newConfig_shard cfg i) with (newConfig_shard cfg i kv1).
  rewrite E. destruct (IH kv2) as (kv' & E' & Hp' & Ht' & Hout & Hin); try done.
  { by eapply same_place_trans. }
  { intros j. rewrite Hs2. case_decide; [subst; split; eauto|apply Hd]. }
  { intros j Hj. apply Hr. by right. }
  exists kv'. split_and!; [done|done|congruence| |].
  - intros j [Hji Hj]%not_elem_of_cons. rewrite Hout, Hs2, decide_False by done. done.
  - intros j m c n Hj Hjm Hjc Hjn. destruct (decide (i = j)) as [<-|Hne].
    + rewrite Hout, Hs2, decide_True by done. unfold has_owner in *. rewrite Hg. congruence.
    + apply Hin; [by apply elem_of_cons in Hj as [?|?]| |done|done].
      by rewrite Hs2, decide_False.
Qed.

Lemma moved_status_ok kv kv' i cur new :
  gid kv' = gid kv → has_owner (prevConfig kv') i cur → has_owner (currentConfig kv') i new →
  status_ok kv' i (moved (gid kv) cur new Normal).
Proof.
  intros Hg Hp Hc. unfold moved.
  destruct (Z.eqb_spec cur (gid kv)), (Z.eqb_spec new (gid kv)); simpl; try done.
  - destruct (Z.eqb_spec new 0); simpl; [done|]. rewrite Hg. split; [congruence|]. by exists new.
  - destruct (Z.eqb_spec cur 0); simpl; [done|]. rewrite Hg. split; [congruence|]. by exists cur.
Qed.

(** A configuration change that is accepted in a quiescent group. *)
Lemma newConfig_spec cfg kv :
  group_ok kv → all_normal kv → len (SC.Shards cfg) = SC.NShards →
  SC.Num cfg = SC.Num (currentConfig kv) + 1 →
  ∃ kv', applyNewConfig cfg kv = Ok (kv', mkReply "" OK) ∧ group_ok kv' ∧
    currentConfig kv' = cfg ∧ prevConfig kv' = currentConfig kv ∧ gid kv' = gid kv ∧
    duplicateTable kv' = duplicateTable kv ∧
    (∀ i mkv cur new, shards kv !! i = Some mkv → has_owner (currentConfig kv) i cur →
       has_owner cfg i new →
       shards kv' !! i = Some (mkMachine (KV mkv) (moved (gid kv) cur new Normal))).
Proof.
  intros H Hn Hl Hnum. unfold applyNewConfig. rewrite Hnum, Z.eqb_refl.
  destruct (newConfig_loop cfg (seqZ 0 SC.NShards) kv H Hl) as (kv1 & -> & (Hg & Hc & Hp) & Ht & Hout & Hin).
  { apply NoDup_seqZ. }
  { intros i. rewrite elem_of_seqZ. lia. }
  assert (∀ i mkv cur new, shards kv !! i = Some mkv → has_owner (currentConfig kv) i cur →
       has_owner cfg i new →
       shards kv1 !! i = Some (mkMachine (KV mkv) (moved (gid kv) cur new Normal))) as Hs.
  { intros i mkv cur new Hm Hcur Hnew. rewrite (Hin i mkv cur new); [|..|done|done|done].
    - by rewrite (Hn i mkv Hm).
    - apply elem_of_seqZ. assert (is_Some (shards kv !! i)) as Hi by eauto.
      apply (go_dom _ H) in Hi. lia. }
  simpl. eexists. split; [done|]. simpl. split_and!; try done.
  assert (∀ i, is_Some (shards kv1 !! i) ↔ 0 ≤ i < SC.NShards) as Hdom.
  { intros i. destruct (decide (0 ≤ i < SC.NShards)) as [Hi|Hi].
    - destruct (proj2 (go_dom _ H i) Hi) as [mkv Hm].
      destruct (owner_Ok (currentConfig kv) i (go_cur _ H) Hi) as (cur & _ & Hcur).
      destruct (owner_Ok cfg i Hl Hi) as (new & _ & Hnew).
      rewrite (Hs i mkv cur new) by done. split; eauto.
    - rewrite Hout by (rewrite elem_of_seqZ; lia). apply (go_dom _ H). }
  split; simpl; [done|by rewrite Hc; apply H|done|].
  intros i m Hm. assert (is_Some (shards kv1 !! i)) as Hi by eauto. apply Hdom in Hi.
  destruct (proj2 (go_dom _ H i) Hi) as [mkv Hmkv].
  destruct (owner_Ok (currentConfig kv) i (go_cur _ H) Hi) as (cur & _ & Hcur).
  destruct (owner_Ok cfg i Hl Hi) as (new & _ & Hnew).
  rewrite (Hs i mkv cur new) in Hm by done. simplify_eq/=.
  eapply (moved_status_ok kv _ i); simpl; [done|by rewrite Hc|done].
Qed.

(** ** Migration and garbage collection *)

Definition migrate_loop l (st : res (Group * bool)) : res (Group * bool) :=
  foldl (λ o d, st ← o; migrate_shard st d) st l.
Definition gc_loop l (st : res (Group * bool)) : res (Group * bool) :=
  foldl (λ o i, st ← o; gc_shard st i) st l.

Lemma migrate_loop_stop l kv : migrate_loop l (Ok (kv, false)) = Ok (kv, false).
Proof. induction l as [|[i d] l IH]; [done|]. exact IH. Qed.

Lemma gc_loop_stop l kv : gc_loop l (Ok (kv, false)) = Ok (kv, false).
Proof. induction l as [|i l IH]; [done|]. exact IH. Qed.

Lemma migrate_loop_cons i d l kv mkv :
  shards kv !! i = Some mkv →
  migrate_loop ((i, d) :: l) (Ok (kv, true)) =
    if decide (Status mkv = MoveIn)
    then migrate_loop l (Ok (set_shard i (mkMachine (d ∪ KV mkv) GC) kv, true))
    else Ok (kv, false).
Proof.
  intros Hm. unfold migrate_loop. cbn [foldl]. unfold migrate_shard at 2, shard_at.
  cbn [mbind res_bind]. rewrite Hm. cbn [mbind res_bind or_panic].
  case_decide; [done|]. apply migrate_loop_stop.
Qed.

(** A migration message changes a shard only from [MoveIn] to [GC]. *)
Lemma migrate_loop_spec l kv :
  group_ok kv → (∀ i, i ∈ l.*1 → 0 ≤ i < SC.NShards) →
  ∃ kv' b, migrate_loop l (Ok (kv, true)) = Ok (kv', b) ∧ group_ok kv' ∧ same_place kv kv' ∧
    duplicateTable kv' = duplicateTable kv ∧
    ∀ i, shards kv' !! i = shards kv !! i ∨
      ∃ m d, shards kv !! i = Some m ∧ Status m = MoveIn ∧ (i, d) ∈ l ∧
             shards kv' !! i = Some (mkMachine (d ∪ KV m) GC).
Proof.
  revert kv. induction l as [|[i d] l IH]; intros kv H Hr.
  { exists kv, true. split_and!; try done. intros i. by left. }
  destruct (shard_at_Some kv i H) as (mkv & _ & Hm); [apply Hr; by left|].
  rewrite (migrate_loop_cons i d l kv mkv Hm). case_decide as Hst.
  - pose proof (go_status _ H i mkv Hm) as Hok. rewrite Hst in Hok.
    destruct (IH (set_shard i (mkMachine (d ∪ KV mkv) GC) kv)) as (kv' & b & E & H' & Hp & Ht & Hs).
    { by eapply group_ok_set. }
    { intros j Hj. apply Hr. by right. }
    exists kv', b. split_and!; [done|done|by eapply same_place_trans|done|]. intros j.
    destruct (decide (i = j)) as [<-|Hne].
    + right. exists mkv, d. split_and!; [done|done|by left|].
      destruct (Hs i) as [->|(m & ? & Hm' & ? & _)]; simpl in *;
        rewrite lookup_insert_eq in *; [done|simplify_eq/=].
    + destruct (Hs j) as [->|(m & d' & Hm' & ? & ? & ?)]; simpl in *;
        rewrite lookup_insert_ne in * by done; [by left|].
      right. exists m, d'. split_and!; [done|done|by right|done].
  - exists kv, false. split_and!; try done. intros j. by left.
Qed.

(** When every shard of the message is waiting for its data, all of it is
    stored. *)
Lemma migrate_loop_all l kv :
  NoDup l.*1 →
  (∀ i d, (i, d) ∈ l → ∃ m, shards kv !! i = Some m ∧ Status m = MoveIn) →
  ∃ kv', migrate_loop l (Ok (kv, true)) = Ok (kv', true) ∧ same_place kv kv' ∧
    duplicateTable kv' = duplicateTable kv ∧
    (∀ i, i ∉ l.*1 → shards kv' !! i = shards kv !! i) ∧
    (∀ i d m, (i, d) ∈ l → shards kv !! i = Some m →
       shards kv' !! i = Some (mkMachine (d ∪ KV m) GC)).
Proof.
  revert kv. induction l as [|[i d] l IH]; intros kv Hn Hall.
  { exists kv. split_and!; try done. intros i d m Hin. by apply not_elem_of_nil in Hin. }
  rewrite fmap_cons in Hn. apply list.NoDup_cons in Hn as [Hi Hn].
  destruct (Hall i d) as (mkv & Hm & Hst); [by left|].
  rewrite (migrate_loop_cons i d l kv mkv Hm), decide_True by done.
  assert (∀ j d', (j, d') ∈ l → i ≠ j) as Hne.
  { intros j d' Hj ->. apply Hi. apply list_elem_of_fmap. by exists (j, d'). }
  destruct (IH (set_shard i (mkMachine (d ∪ KV mkv) GC) kv)) as (kv' & -> & Hp & Ht & Hout & Hin).
  { done. }
  { intros j d' Hj. simpl. rewrite lookup_insert_ne by (by eapply Hne).
    apply (Hall j d'). by right. }
  exists kv'. split_and!; [done|by eapply same_place_trans|done| |].
  - intros j. rewrite fmap_cons. intros [Hji Hj]%not_elem_of_cons. rewrite Hout by done. simpl.
    by rewrite lookup_insert_ne.
  - intros j d' m [[= -> ->]|Hj]%elem_of_cons Hjm.
    + rewrite Hout by done. simpl. rewrite lookup_insert_eq. by simplify_eq.
    + apply Hin; [done|]. simpl. by rewrite lookup_insert_ne by (by eapply Hne).
Qed.

(** The entry with the larger sequence number. *)
Definition newer (a b : option (LastOperationInfo OpReply)) : option (LastOperationInfo OpReply) :=
  match a, b with
  | Some x, Some y => if li_SeqId x <? li_SeqId y then Some y else Some x
  | Some x, None => Some x
  | None, b => b
  end.

Lemma merge_fold l (tb : DupTable) c :
  NoDup l.*1 →
  foldl merge_client tb l !! c = newer (tb !! c) (list_to_map (M := DupTable) l !! c).
Proof.
  revert tb. induction l as [|[k x] l IH]; intros tb Hn.
  { unfold newer. simpl. rewrite lookup_empty. by destruct (tb !! c). }
  rewrite fmap_cons in Hn. apply list.NoDup_cons in Hn as [Hk Hn].
  cbn [foldl]. rewrite IH, list_to_map_cons by done. unfold merge_client.
  destruct (decide (k = c)) as [->|Hne].
  - rewrite (not_elem_of_list_to_map_1 l c Hk), lookup_insert_eq. unfold newer.
    destruct (tb !! c) as [y|] eqn:E; [|by rewrite lookup_insert_eq].
    destruct (_ <? _); [by rewrite lookup_insert_eq|by rewrite E].
  - rewrite (lookup_insert_ne (list_to_map l)) by done.
    destruct (tb !! k); [destruct (_ <? _)|]; rewrite ?lookup_insert_ne by done; done.
Qed.

Lemma merge_spec (tb dt : DupTable) c :
  foldl merge_client tb (map_range dt) !! c = newer (tb !! c) (dt !! c).
Proof.
  rewrite merge_fold by apply map_range_NoDup. f_equal.
  assert (list_to_map (map_range dt) = dt) as ->; [|done].
  rewrite <-(list_to_map_to_list dt) at 2.
  apply list_to_map_proper; [apply map_range_NoDup|apply map_range_perm].
Qed.

Lemma gc_loop_cons i l kv mkv :
  shards kv !! i = Some mkv →
  gc_loop (i :: l) (Ok (kv, true)) =
    match Status mkv with
    | GC => gc_loop l (Ok (set_shard i (set_Status Normal mkv) kv, true))
    | MoveOut => gc_loop l (Ok (set_shard i NewMemoryKVStateMachine kv, true))
    | _ => Ok (kv, false)
    end.
Proof.
  intros Hm. unfold gc_loop. cbn [foldl]. unfold gc_shard at 2, shard_at.
  cbn [mbind res_bind]. rewrite Hm. cbn [mbind res_bind or_panic].
  destruct (Status mkv); try done; apply gc_loop_stop.
Qed.

(** A garbage-collection message finishes [GC] shards, empties [MoveOut] shards
    and leaves the others. *)
Lemma gc_loop_spec l kv :
  group_ok kv → (∀ i, i ∈ l → 0 ≤ i < SC.NShards) →
  ∃ kv' b, gc_loop l (Ok (kv, true)) = Ok (kv', b) ∧ group_ok kv' ∧ same_place kv kv' ∧
    duplicateTable kv' = duplicateTable kv ∧
    ∀ i, shards kv' !! i = shards kv !! i ∨
      (i ∈ l ∧ ∃ m, shards kv !! i = Some m ∧
        ((Status m = GC ∧ shards kv' !! i = Some (set_Status Normal m)) ∨
         (Status m = MoveOut ∧ shards kv' !! i = Some NewMemoryKVStateMachine))).
Proof.
  revert kv. induction l as [|i l IH]; intros kv H Hr.
  { exists kv, true. split_and!; try done. intros i. by left. }
  destruct (shard_at_Some kv i H) as (mkv & _ & Hm); [apply Hr; by left|].
  rewrite (gc_loop_cons i l kv mkv Hm).
  assert (∀ m', Status m' = Normal → ((Status mkv = GC ∧ m' = set_Status Normal mkv) ∨
      (Status mkv = MoveOut ∧ m' = NewMemoryKVStateMachine)) →
    ∃ kv' b, gc_loop l (Ok (set_shard i m' kv, true)) = Ok (kv', b) ∧ group_ok kv' ∧
      same_place kv kv' ∧ duplicateTable kv' = duplicateTable kv ∧
      ∀ j, shards kv' !! j = shards kv !! j ∨
      (j ∈ i :: l ∧ ∃ m, shards kv !! j = Some m ∧
        ((Status m = GC ∧ shards kv' !! j = Some (set_Status Normal m)) ∨
         (Status m = MoveOut ∧ shards kv' !! j = Some NewMemoryKVStateMachine)))) as Hgo.
  { intros m' Hst' Hcase.
    destruct (IH (set_shard i m' kv)) as (kv' & b & E & H' & Hp & Ht & Hs).
    { eapply group_ok_set; [done|done|]. by rewrite Hst'. }
    { intros j Hj. apply Hr. by right. }
    exists kv', b. split_and!; [done|done|by eapply same_place_trans|done|]. intros j.
    destruct (decide (i = j)) as [<-|Hne].
    - right. split; [by left|]. exists mkv. split; [done|].
      destruct (Hs i) as [->|(_ & m & Hm' & Hc)]; simpl in *;
        rewrite lookup_insert_eq in *; [naive_solver|]. simplify_eq. naive_solver congruence.
    - destruct (Hs j) as [->|(Hj & m & Hm' & Hc)]; simpl in *;
        rewrite lookup_insert_ne in * by done; [by left|].
      right. split; [by right|]. by exists m. }
  destruct (Status mkv) eqn:Est.
  - exists kv, false. split_and!; try done. intros j. by left.
  - exists kv, false. split_and!; try done. intros j. by left.
  - apply Hgo; [done|]. by right.
  - apply Hgo; [done|]. by left.
Qed.

Lemma applyShardMigration_spec reply kv :
  group_ok kv → (∀ i, i ∈ dom (sr_ShardData reply) → 0 ≤ i < SC.NShards) →
  ∃ kv', applyShardMigration reply kv = Ok (kv', mkReply "" ErrWrongConfig) ∧ group_ok kv' ∧
    same_place kv kv' ∧
    ∀ i, shards kv' !! i = shards kv !! i ∨
      ∃ m d, shards kv !! i = Some m ∧ Status m = MoveIn ∧
             shards kv' !! i = Some (mkMachine (d ∪ KV m) GC).
Proof.
  intros H Hr. unfold applyShardMigration. destruct (_ =? _).
  - fold (migrate_loop (map_range (sr_ShardData reply)) (Ok (kv, true))).
    destruct (migrate_loop_spec (map_range (sr_ShardData reply)) kv H)
      as (kv' & b & -> & H' & Hp & _ & Hs).
    { intros i Hi. apply Hr. by apply map_range_keys. }
    simpl. eexists. split; [done|]. split_and!; [by apply group_ok_table|done|].
    intros i. destruct (Hs i) as [?|(m & d & ? & ? & _ & ?)]; [by left|right; by exists m, d].
  - exists kv. split_and!; try done. intros i. by left.
Qed.

Lemma applyShardGC_spec args kv :
  group_ok kv → (∀ i, i ∈ sa_ShardIds args → 0 ≤ i < SC.NShards) →
  ∃ kv', applyShardGC args kv = Ok (kv', mkReply "" OK) ∧ group_ok kv' ∧ same_place kv kv' ∧
    ∀ i, shards kv' !! i = shards kv !! i ∨
      (sa_ConfigNum args = SC.Num (currentConfig kv) ∧ i ∈ sa_ShardIds args ∧
       ∃ m, shards kv !! i = Some m ∧
        ((Status m = GC ∧ shards kv' !! i = Some (set_Status Normal m)) ∨
         (Status m = MoveOut ∧ shards kv' !! i = Some NewMemoryKVStateMachine))).
Proof.
  intros H Hr. unfold applyShardGC. destruct (Z.eqb_spec (sa_ConfigNum args) (SC.Num (currentConfig kv))).
  - fold (gc_loop (sa_ShardIds args) (Ok (kv, true))).
    destruct (gc_loop_spec (sa_ShardIds args) kv H Hr) as (kv' & b & -> & H' & Hp & _ & Hs).
    simpl. exists kv'. split_and!; try done. intros i. destruct (Hs i) as [?|(? & ?)]; [by left|by right].
  - exists kv. split_and!; try done. intros i. by left.
Qed.

(** ** Runs of a group *)

(** The commands the tasks and handlers of the group may have put into the log,
    given the states the group has been in: a configuration change was proposed
    by [fetchConfigTask] in one of them. *)
Definition proposed (hist : list Group) (cmd : RaftCommand) : Prop :=
  match CmdType cmd, Data cmd with
  | ClientOpeartion, DOp _ => True
  | ConfigChange, DConfig cfg =>
      len (SC.Shards cfg) = SC.NShards ∧
      ∃ kvp n, kvp ∈ hist ∧ fetchConfig_num kvp = Some n ∧ fetchConfig_command n cfg = Some cmd
  | ShardMigration, DReply r => ∀ i, i ∈ dom (sr_ShardData r) → 0 ≤ i < SC.NShards
  | ShardGC, DArgs a => ∀ i, i ∈ sa_ShardIds a → 0 ≤ i < SC.NShards
  | _, _ => False
  end.

Inductive log_run (kv0 : Group) : list Group → Group → Prop :=
  | lr_init : log_run kv0 [kv0] kv0
  | lr_step hist kv cmd kv' reply :
      log_run kv0 hist kv → proposed hist cmd → applyCommand cmd kv = Ok (kv', reply) →
      log_run kv0 (kv' :: hist) kv'.

(** What every state of the history says about the present one. *)
Definition hist_ok (hist : list Group) kv : Prop :=
  ∀ kvp, kvp ∈ hist →
    SC.Num (currentConfig kvp) ≤ SC.Num (currentConfig kv) ∧
    (SC.Num (currentConfig kvp) = SC.Num (currentConfig kv) → all_normal kvp → all_normal kv).

Lemma all_normal_keep kv kv' :
  all_normal kv →
  (∀ i m', shards kv' !! i = Some m' → ∃ m, shards kv !! i = Some m ∧
     (Status m = Normal → Status m' = Normal)) → all_normal kv'.
Proof.
  intros Hn H i m' Hm. destruct (H i m' Hm) as (m & Hm0 & Hst). apply Hst. exact (Hn i m Hm0).
Qed.

Lemma command_spec hist kv cmd :
  group_ok kv → hist_ok hist kv → proposed hist cmd →
  (∀ cfg, Data cmd = DConfig cfg → SC.Num cfg = SC.Num (currentConfig kv) + 1 → all_normal kv) ∧
  ∃ kv' reply, applyCommand cmd kv = Ok (kv', reply) ∧ group_ok kv' ∧ gid kv' = gid kv ∧
    SC.Num (currentConfig kv) ≤ SC.Num (currentConfig kv') ∧
    (SC.Num (currentConfig kv') = SC.Num (currentConfig kv) → all_normal kv → all_normal kv').
Proof.
  intros H Hh Hp. destruct cmd as [ty d]. unfold proposed, applyCommand, handleConfigChangeMessage in *.
  simpl in *. destruct ty, d; try done.
  - split; [done|]. destruct (client_op_spec op kv H) as (kv' & r & -> & H' & (Hg & Hc & _) & _ & Hs & _).
    exists kv', r. rewrite Hc. split_and!; try done. intros _ Hn. eapply all_normal_keep; [done|].
    intros i m' Hm. specialize (Hs i). rewrite Hm in Hs. symmetry in Hs.
    apply fmap_Some in Hs as (m & Hm0 & Hst). exists m. split; [done|congruence].
  - destruct Hp as (Hl & kvp & n & Hin & [Hn ->]%fetchConfig_num_spec & Hcmd).
    unfold fetchConfig_command in Hcmd. destruct (Z.eqb_spec (SC.Num cfg) (SC.Num (currentConfig kvp) + 1)); [|done].
    assert (SC.Num cfg = SC.Num (currentConfig kv) + 1 → all_normal kv) as Hq.
    { intros E. destruct (Hh kvp Hin) as [_ Hk]. apply Hk; [lia|done]. }
    split; [by intros ? [= <-]|].
    destruct (decide (SC.Num cfg = SC.Num (currentConfig kv) + 1)) as [E|E].
    + destruct (newConfig_spec cfg kv H (Hq E) Hl E) as (kv' & -> & H' & Hc & _ & Hg & _).
      do 2 eexists. split; [done|]. rewrite Hc. split_and!; try done; lia.
    + unfold applyNewConfig. destruct (Z.eqb_spec (SC.Num (currentConfig kv) + 1) (SC.Num cfg)); [lia|].
      do 2 eexists. split; [done|]. split_and!; try done; lia.
  - split; [done|]. destruct (applyShardMigration_spec reply kv H Hp) as (kv' & -> & H' & (Hg & Hc & _) & Hs).
    do 2 eexists. split; [done|]. rewrite Hc. split_and!; try done. intros _ Hn.
    eapply all_normal_keep; [done|]. intros i m' Hm. destruct (Hs i) as [E|(m & d & Hm0 & Hst & _)].
    + exists m'. by rewrite <-E.
    + exists m. split; [done|]. rewrite Hst. done.
  - split; [done|]. destruct (applyShardGC_spec args kv H Hp) as (kv' & -> & H' & (Hg & Hc & _) & Hs).
    do 2 eexists. split; [done|]. rewrite Hc. split_and!; try done. intros _ Hn.
    eapply all_normal_keep; [done|]. intros i m' Hm. destruct (Hs i) as [E|(_ & _ & m & Hm0 & Hst)].
    + exists m'. by rewrite <-E.
    + exists m. split; [done|]. destruct Hst as [[-> ?]|[-> ?]]; done.
Qed.

Lemma log_run_inv kv0 hist kv :
  group_ok kv0 → log_run kv0 hist kv → group_ok kv ∧ hist_ok hist kv.
Proof.
  intros H0 Hr. induction Hr as [|hist kv cmd kv' reply _ [H Hh] Hp E].
  { split; [done|]. intros kvp ->%list_elem_of_singleton. split; [lia|done]. }
  destruct (command_spec hist kv cmd H Hh Hp) as (_ & kv1 & r1 & E1 & H1 & _ & Hle & Hn).
  rewrite E in E1. injection E1 as <- <-. split; [done|].
  intros kvp [->|Hin]%elem_of_cons; [split; [lia|done]|].
  destruct (Hh kvp Hin) as [Hle' Hk]. split; [lia|]. intros Heq Ha. apply Hn; [lia|].
  apply Hk; [lia|done].
Qed.

(** C11: a replica group never panics and stays well formed along any log of
    client operations, migrations, garbage collections and configuration changes
    that its own [fetchConfigTask] proposed, however late a proposal is applied:
    a shard marked as moving in or out really changed owner in the last
    configuration change, and a configuration change is only accepted when no
    shard is moving. *)
Theorem group_safe kv0 hist kv :
  group_ok kv0 → log_run kv0 hist kv →
  group_ok kv ∧
  (∀ cmd, proposed hist cmd → ∃ kv' reply, applyCommand cmd kv = Ok (kv', reply)) ∧
  (∀ cfg, proposed hist (mkCommand ConfigChange (DConfig cfg)) →
     SC.Num cfg = SC.Num (currentConfig kv) + 1 → all_normal kv).
Proof.
  intros H0 Hr. destruct (log_run_inv kv0 hist kv H0 Hr) as [H Hh]. split_and!; [done| |].
  - intros cmd Hp. destruct (command_spec hist kv cmd H Hh Hp) as (_ & kv' & r & ? & _). eauto.
  - intros cfg Hp. by apply (command_spec hist kv _ H Hh Hp).
Qed.

(** ** Handing a shard over *)

(** A command that keeps the configuration and does not garbage-collect [s]. *)
Definition keeps (s : Z) kv (cmd : RaftCommand) : Prop :=
  match CmdType cmd, Data cmd with
  | ClientOpeartion, DOp _ => True
  | ConfigChange, DConfig cfg => SC.Num cfg ≠ SC.Num (currentConfig kv) + 1
  | ShardMigration, DReply r => ∀ i, i ∈ dom (sr_ShardData r) → 0 ≤ i < SC.NShards
  | ShardGC, DArgs a =>
      (∀ i, i ∈ sa_ShardIds a → 0 ≤ i < SC.NShards) ∧
      (sa_ConfigNum a = SC.Num (currentConfig kv) → s ∉ sa_ShardIds a)
  | _, _ => False
  end.

Inductive frozen_run (s : Z) : Group → Group → Prop :=
  | fr_refl kv : frozen_run s kv kv
  | fr_step kv1 kv2 kv3 cmd reply :
      frozen_run s kv1 kv2 → keeps s kv2 cmd → applyCommand cmd kv2 = Ok (kv3, reply) →
      frozen_run s kv1 kv3.

Lemma moveout_not_served kv s m :
  group_ok kv → shards kv !! s = Some m → Status m = MoveOut → ¬ serves kv s.
Proof. intros H Hm Hst (_ & m' & Hm' & Hs). simplify_eq. naive_solver congruence. Qed.

Lemma frozen_step s kv m cmd kv' reply :
  group_ok kv → shards kv !! s = Some m → Status m = MoveOut → keeps s kv cmd →
  applyCommand cmd kv = Ok (kv', reply) →
  group_ok kv' ∧ shards kv' !! s = Some m ∧ currentConfig kv' = currentConfig kv.
Proof.
  intros H Hm Hst Hk E. destruct cmd as [ty d].
  unfold keeps, applyCommand, handleConfigChangeMessage in *. simpl in *. destruct ty, d; try done.
  - destruct (client_op_spec op kv H) as (kv1 & r & E1 & H' & (_ & Hc & _) & Hne & _ & Hns).
    rewrite E1 in E. injection E as <- <-. split_and!; [done| |done].
    destruct (decide (s = key2shard (op_Key op))) as [->|]; [|by rewrite Hne].
    destruct Hns as [-> _]; [by eapply moveout_not_served|done].
  - unfold applyNewConfig in E. destruct (Z.eqb_spec (SC.Num (currentConfig kv) + 1) (SC.Num cfg)); [lia|].
    injection E as <- <-. by split_and!.
  - destruct (applyShardMigration_spec reply0 kv H Hk) as (kv1 & E1 & H' & (_ & Hc & _) & Hs).
    rewrite E1 in E. injection E as <- <-. split_and!; [done| |done].
    destruct (Hs s) as [->|(m' & d & Hm' & ? & _)]; [done|]. simplify_eq. congruence.
  - destruct Hk as [Hr Hs0]. destruct (applyShardGC_spec args kv H Hr) as (kv1 & E1 & H' & (_ & Hc & _) & Hs).
    rewrite E1 in E. injection E as <- <-. split_and!; [done| |done].
    destruct (Hs s) as [->|(Hnum & Hin & _)]; [done|]. by destruct (Hs0 Hnum).
Qed.

Lemma frozen_run_spec s kv m kv' :
  group_ok kv → shards kv !! s = Some m → Status m = MoveOut → frozen_run s kv kv' →
  group_ok kv' ∧ shards kv' !! s = Some m ∧ currentConfig kv' = currentConfig kv.
Proof.
  intros H Hm Hst Hr. induction Hr as [|kv1 kv2 kv3 cmd reply _ IH Hk E]; [done|].
  destruct (IH H Hm) as (H2 & Hm2 & Hc2).
  destruct (frozen_step s kv2 m cmd kv3 reply H2 Hm2 Hst Hk E) as (H3 & Hm3 & Hc3).
  split_and!; [done|done|congruence].
Qed.

(** The data a group sends is what it holds. *)
Lemma GetShardsData_spec args kv reply :
  GetShardsData args kv = Ok reply → sr_Err reply = OK →
  sr_ConfigNum reply = sa_ConfigNum args ∧ sr_DuplicateTable reply = duplicateTable kv ∧
  ∀ s, sr_ShardData reply !! s =
    if decide (s ∈ sa_ShardIds args) then KV <$> shards kv !! s else None.
Proof.
  unfold GetShardsData. destruct (_ <? _); [by intros [= <-]|].
  rewrite res_bind_Ok. intros (data & E & [= <-]) _. simpl. split_and!; [done|done|].
  cut (∀ l d0 d1, foldl (copy_shard kv) (Ok d0) l = Ok d1 →
    ∀ s, d1 !! s = if decide (s ∈ l) then KV <$> shards kv !! s else d0 !! s).
  { intros Hgen s. rewrite (Hgen _ _ _ E). case_decide; [done|apply lookup_empty]. }
  clear. assert (∀ l, foldl (copy_shard kv) Panic l = Panic) as Hpanic.
  { induction l; done. }
  induction l as [|i l IH]; intros d0 d1 E s.
  { injection E as <-. rewrite decide_False by apply not_elem_of_nil. done. }
  cbn [foldl] in E. unfold copy_shard at 2, shard_at in E. cbn [mbind res_bind] in E.
  destruct (shards kv !! i) as [mkv|] eqn:Ei; cbn [mbind res_bind or_panic] in E;
    [|by rewrite Hpanic in E].
  rewrite (IH _ _ E). destruct (decide (s ∈ l)) as [Hl|Hl].
  - by rewrite decide_True by (by right).
  - destruct (decide (i = s)) as [<-|Hne].
    + rewrite decide_True by (by left). by rewrite lookup_insert_eq, Ei.
    + rewrite decide_False by (rewrite elem_of_cons; naive_solver). by rewrite lookup_insert_ne.
Qed.

Lemma newer_dup (tb dt tb' : DupTable) c seq :
  tb' !! c = newer (tb !! c) (dt !! c) → duplicated dt c seq = true → duplicated tb' c seq = true.
Proof.
  intros E. unfold duplicated. rewrite E. unfold newer.
  destruct (dt !! c) as [y|]; [|done]. destruct (tb !! c) as [x|]; [|done].
  destruct (_ <? _) eqn:El; lia.
Qed.

(** C15: handing over a shard loses nothing. Let [a] be the group that gives
    shard [s] away, in the configuration of the change, and [a'] the same group
    any number of commands later, before it garbage-collects [s].  The data [a']
    answers with is exactly what [a] held: no write slipped in.  A group [b] that
    waits for all shards of the answer stores it and serves [s] from then on,
    with all of [a]'s keys, and recognises every write [a'] had executed as a
    duplicate. *)
Theorem shard_handover s a a' m args reply b :
  group_ok a → shards a !! s = Some m → Status m = MoveOut → frozen_run s a a' →
  GetShardsData args a' = Ok reply → sr_Err reply = OK → s ∈ sa_ShardIds args →
  group_ok b → SC.Num (currentConfig b) = sr_ConfigNum reply →
  (∀ i, i ∈ dom (sr_ShardData reply) → ∃ mb, shards b !! i = Some mb ∧ Status mb = MoveIn) →
  sr_ShardData reply !! s = Some (KV m) ∧
  ∃ b' mb r, applyShardMigration reply b = Ok (b', r) ∧ shards b !! s = Some mb ∧
    shards b' !! s = Some (mkMachine (KV m ∪ KV mb) GC) ∧ serves b' s ∧
    ∀ c seq, requestDuplicated c seq a' = true → requestDuplicated c seq b' = true.
Proof.
  intros Ha Hm Hst Hr Eg Herr Hs Hb Hnum Hin.
  destruct (frozen_run_spec s a m a' Ha Hm Hst Hr) as (_ & Hm' & _).
  destruct (GetShardsData_spec args a' reply Eg Herr) as (_ & Hdt & Hdata).
  assert (sr_ShardData reply !! s = Some (KV m)) as Hd
    by (rewrite Hdata, decide_True, Hm' by done; done).
  split; [done|]. destruct (Hin s) as (mb & Hmb & Hstb); [by eapply elem_of_dom_2|].
  destruct (migrate_loop_all (map_range (sr_ShardData reply)) b) as (b1 & E & Hp & Ht & _ & Hall).
  { apply map_range_NoDup. }
  { intros i d Hi%map_range_elem. apply Hin. by eapply elem_of_dom_2. }
  unfold applyShardMigration. rewrite Hnum, Z.eqb_refl.
  fold (migrate_loop (map_range (sr_ShardData reply)) (Ok (b, true))). rewrite E. simpl.
  do 3 eexists. split; [done|]. split; [done|].
  assert (shards b1 !! s = Some (mkMachine (KV m ∪ KV mb) GC)) as Hb1.
  { apply Hall; [|done]. by apply map_range_elem. }
  split_and!; [done| |].
  - pose proof (go_status _ Hb s mb Hmb) as Hok. rewrite Hstb in Hok. destruct Hok as [Ho _].
    destruct Hp as (Hg & Hc & _). split; simpl; [by rewrite Hg, Hc|]. eexists. split; [done|by right].
  - intros c seq. unfold requestDuplicated. simpl. apply (newer_dup (duplicateTable b1)).
    rewrite merge_spec. by rewrite Hdt.
Qed.
End facts.

(** replicas of a group agree on a migration: when all shards of the message
    are in the same state (all still waiting for data, or none), the result does
    not depend on the order in which a replica ranges over the message, despite
    the early [break]. *)
Theorem migration_deterministic (r1 r2 : RangeOrder) reply kv :
  (∀ i, i ∈ dom (sr_ShardData reply) → ∃ m, shards kv !! i = Some m ∧ Status m = MoveIn) ∨
  (∀ i, i ∈ dom (sr_ShardData reply) → ∃ m, shards kv !! i = Some m ∧ Status m ≠ MoveIn) →
  @applyShardMigration r1 reply kv = @applyShardMigration r2 reply kv.
Proof.
  intros Hcase. unfold applyShardMigration. destruct (_ =? _); [|done].
  assert (∀ tb, foldl merge_client tb (@map_range r1 _ (sr_DuplicateTable reply)) =
                foldl merge_client tb (@map_range r2 _ (sr_DuplicateTable reply))) as Ht.
  { intros tb. apply map_eq. intros c. by rewrite !merge_spec. }
  fold (migrate_loop (@map_range r1 _ (sr_ShardData reply)) (Ok (kv, true))).
  fold (migrate_loop (@map_range r2 _ (sr_ShardData reply)) (Ok (kv, true))).
  assert ((λ p : Group * bool, p.1) <$> (match migrate_loop (@map_range r1 _ (sr_ShardData reply)) (Ok (kv, true)) with Ok p => Some p | _ => None end) =
          (λ p : Group * bool, p.1) <$> (match migrate_loop (@map_range r2 _ (sr_ShardData reply)) (Ok (kv, true)) with Ok p => Some p | _ => None end) ∧
          is_Some (match migrate_loop (@map_range r1 _ (sr_ShardData reply)) (Ok (kv, true)) with Ok p => Some p | _ => None end)) as [Heq Hsome].
  { destruct Hcase as [Hin|Hin].
    - destruct (migrate_loop_all (@map_range r1 _ (sr_ShardData reply)) kv) as (k1 & -> & P1 & T1 & O1 & A1).
      { apply (@map_range_NoDup r1). }
      { intros i d Hi. apply (@map_range_elem r1) in Hi. apply Hin. by eapply elem_of_dom_2. }
      destruct (migrate_loop_all (@map_range r2 _ (sr_ShardData reply)) kv) as (k2 & -> & P2 & T2 & O2 & A2).
      { apply (@map_range_NoDup r2). }
      { intros i d Hi. apply (@map_range_elem r2) in Hi. apply Hin. by eapply elem_of_dom_2. }
      simpl. split; [|eauto]. f_equal. destruct P1 as (G1 & C1 & V1), P2 as (G2 & C2 & V2).
      assert (shards k1 = shards k2) as Hsh.
      { apply map_eq. intros i. destruct (sr_ShardData reply !! i) as [d|] eqn:Ed.
        - destruct (Hin i) as (m & Hm & _); [by eapply elem_of_dom_2|].
          rewrite (A1 i d m), (A2 i d m); [done|by apply (@map_range_elem r2)|done|
            by apply (@map_range_elem r1)|done].
        - apply not_elem_of_dom in Ed. rewrite O1, O2; [done|..].
          + by rewrite (@map_range_keys r2).
          + by rewrite (@map_range_keys r1). }
      destruct k1, k2. simpl in *. congruence.
    - assert (∀ r : RangeOrder, ∃ b, migrate_loop (@map_range r _ (sr_ShardData reply)) (Ok (kv, true)) = Ok (kv, b)) as Hstop.
      { intros r. pose proof (@map_range_elem r _ (sr_ShardData reply)) as He.
        destruct (@map_range r _ (sr_ShardData reply)) as [|[i d] l]; [by eexists|].
        destruct (Hin i) as (m & Hm & Hst).
        { eapply elem_of_dom_2. apply He. by left. }
        rewrite (migrate_loop_cons i d l kv m Hm), decide_False by done. by eexists. }
      destruct (Hstop r1) as [b1 ->], (Hstop r2) as [b2 ->]. simpl. eauto. }
  destruct (migrate_loop (@map_range r1 _ _) _) as [[k1 b1]| |]; [|by destruct Hsome..].
  destruct (migrate_loop (@map_range r2 _ _) _) as [[k2 b2]| |]; [|done..].
  simpl in *. injection Heq as <-. by rewrite Ht.
Qed.

(** ** A fresh group is well formed *)

Lemma fill_shards l kv :
  all_normal kv →
  let kv' := foldl (λ kv i, if bool_decide (is_Some (shards kv !! i)) then kv
                            else set_shard i NewMemoryKVStateMachine kv) kv l in
  same_place kv kv' ∧ all_normal kv' ∧
  ∀ i, is_Some (shards kv' !! i) ↔ is_Some (shards kv !! i) ∨ i ∈ l.
Proof.
  revert kv. induction l as [|i l IH]; intros kv Hn.
  { split_and!; [done|done|]. intros i. split; [by left|].
    intros [?|H]; [done|by apply not_elem_of_nil in H]. }
  cbn [foldl]. set (kv1 := if bool_decide _ then kv else _).
  assert (same_place kv kv1 ∧ all_normal kv1 ∧
    ∀ j, is_Some (shards kv1 !! j) ↔ is_Some (shards kv !! j) ∨ j = i) as (Hp & Hn1 & Hd).
  { unfold kv1. case_bool_decide as Hi; [split_and!; [done|done|]; intros j; split; [by left|intros [?| ->]; done]|].
    split_and!; [done| |].
    - intros j m. simpl. rewrite lookup_insert_Some. intros [[_ <-]|[_ ?]]; [done|by eapply Hn].
    - intros j. simpl. destruct (decide (i = j)) as [<-|].
      + rewrite lookup_insert_eq. split; eauto.
      + rewrite lookup_insert_ne by done. naive_solver. }
  destruct (IH kv1 Hn1) as (Hp' & Hn' & Hd'). cbv zeta in *.
  split_and!; [by eapply same_place_trans|done|]. intros j. rewrite Hd', Hd, elem_of_cons. naive_solver.
Qed.

Lemma fresh_group_ok g :
  ∃ kv, restoreFromSnapshot [] (mkGroup g ∅ ∅ SC.DefaultConfig SC.DefaultConfig) = Ok kv ∧
    group_ok kv ∧ all_normal kv.
Proof.
  unfold restoreFromSnapshot. eexists. split; [reflexivity|].
  destruct (fill_shards (seqZ 0 SC.NShards) (mkGroup g ∅ ∅ SC.DefaultConfig SC.DefaultConfig))
    as ((Hg & Hc & Hp) & Hn & Hd); [apply map_Forall_empty|].
  cbv zeta in *. set (kv := foldl _ _ _) in *. split; [|done].
  split; [by rewrite Hc|by rewrite Hp| |].
  - intros i. rewrite Hd, elem_of_seqZ. simpl. rewrite lookup_empty.
    split; [intros [H|?]; [by destruct H|lia]|intros ?; right; lia].
  - intros i m Hm. by rewrite (Hn i m Hm).
Qed.

(** C36: a group's snapshot restores its shards with their migration states, the
    duplicate table and both configurations, in whatever state the restoring
    replica of the group is. *)
Theorem shardkv_snapshot_roundtrip kv kv0 :
  gid kv0 = gid kv → restoreFromSnapshot (snapshot_of kv) kv0 = Ok kv.
Proof. intros Hg. destruct kv. simpl in *. by rewrite Hg. Qed.

(** ** Two groups *)

Module HandoverExample.
#[local] Existing Instance some_order.

Definition fresh (g : Z) : Group :=
  match restoreFromSnapshot [] (mkGroup g ∅ ∅ SC.DefaultConfig SC.DefaultConfig) with
  | Ok kv => kv
  | _ => mkGroup g ∅ ∅ SC.DefaultConfig SC.DefaultConfig
  end.

Definition groups : gmap Z (list string) := {[1 := ["x"]; 2 := ["y"]]}%string.
Definition cfg1 : Config := SC.mkConfig 1 (replicate 10 1) groups.
Definition cfg2 : Config := SC.mkConfig 2 (<[7%nat := 2]> (replicate 10 1)) groups.
Definition put : Op := mkOp "a" "1" OpPut 9 0.

Definition change (c : Config) : RaftCommand := mkCommand ConfigChange (DConfig c).
Definition client (op : Op) : RaftCommand := mkCommand ClientOpeartion (DOp op).
Definition next (cmd : RaftCommand) (kv : Group) : Group :=
  match applyCommand cmd kv with Ok (kv', _) => kv' | _ => kv end.

(** Group 1 owns everything, executes a write to shard 7 and learns that shard 7
    goes to group 2; group 2 follows the same configurations. *)
Definition a0 : Group := fresh 1.
Definition a1 : Group := next (change cfg1) a0.
Definition a2 : Group := next (client put) a1.
Definition a3 : Group := next (change cfg2) a2.
Definition b0 : Group := fresh 2.
Definition b1 : Group := next (change cfg1) b0.
Definition b2 : Group := next (change cfg2) b1.

Lemma fresh_ok g : group_ok (fresh g).
Proof. unfold fresh. destruct (fresh_group_ok g) as (kv & -> & H & _). exact H. Qed.

Lemma propose hist kvp cfg n :
  len (SC.Shards cfg) = SC.NShards → kvp ∈ hist → fetchConfig_num kvp = Some n →
  SC.Num cfg = n + 1 → proposed hist (change cfg).
Proof.
  intros Hl Hin Hn Hnum. simpl. split; [done|]. exists kvp, n. split_and!; [done|done|].
  unfold fetchConfig_command. rewrite Hnum, Z.eqb_refl. done.
Qed.

Lemma a_run : log_run a0 [a3; a2; a1; a0] a3.
Proof.
  eapply (lr_step _ [a2; a1; a0] a2 (change cfg2));
    [|apply (propose _ a2 _ 1); [reflexivity|by left|vm_compute; reflexivity|reflexivity]
     |vm_compute; reflexivity].
  eapply (lr_step _ [a1; a0] a1 (client put)); [|done|vm_compute; reflexivity].
  eapply (lr_step _ [a0] a0 (change cfg1));
    [apply lr_init|apply (propose _ a0 _ 0); [reflexivity|by left|vm_compute; reflexivity|reflexivity]
     |vm_compute; reflexivity].
Qed.

Lemma b_run : log_run b0 [b2; b1; b0] b2.
Proof.
  eapply (lr_step _ [b1; b0] b1 (change cfg2));
    [|apply (propose _ b1 _ 1); [reflexivity|by left|vm_compute; reflexivity|reflexivity]
     |vm_compute; reflexivity].
  eapply (lr_step _ [b0] b0 (change cfg1));
    [apply lr_init|apply (propose _ b0 _ 0); [reflexivity|by left|vm_compute; reflexivity|reflexivity]
     |vm_compute; reflexivity].
Qed.

Lemma group_safe_witness :
  group_ok a3 ∧
  (∀ cmd, proposed [a3; a2; a1; a0] cmd → ∃ kv' reply, applyCommand cmd a3 = Ok (kv', reply)) ∧
  (∀ cfg, proposed [a3; a2; a1; a0] (mkCommand ConfigChange (DConfig cfg)) →
     SC.Num cfg = SC.Num (currentConfig a3) + 1 → all_normal a3).
Proof. apply (group_safe a0 [a3; a2; a1; a0] a3); [apply fresh_ok|apply a_run]. Defined.

Definition m7 : MemoryKVStateMachine := mkMachine {["a" := "1"]}%string MoveOut.
Definition ask : ShardOperationArgs := mkShardArgs 2 [7].
Definition answer : ShardOperationReply :=
  match GetShardsData ask a3 with Ok r => r | _ => mkShardReply ErrNone 0 ∅ ∅ end.

(** The answer names shard 7 only. *)
Lemma answer_shards : sr_ShardData answer = {[7 := {["a" := "1"]}]}%string.
Proof. vm_compute. reflexivity. Qed.

Lemma handover_witness :
  sr_ShardData answer !! 7 = Some (KV m7) ∧
  ∃ b' mb r, applyShardMigration answer b2 = Ok (b', r) ∧ shards b2 !! 7 = Some mb ∧
    shards b' !! 7 = Some (mkMachine (KV m7 ∪ KV mb) GC) ∧ serves b' 7 ∧
    ∀ c seq, requestDuplicated c seq a3 = true → requestDuplicated c seq b' = true.
Proof.
  apply (shard_handover 7 a3 a3 m7 ask answer b2).
  - apply (log_run_inv a0 [a3; a2; a1; a0] a3); [apply fresh_ok|apply a_run].
  - vm_compute. reflexivity.
  - reflexivity.
  - apply fr_refl.
  - vm_compute. reflexivity.
  - vm_compute. reflexivity.
  - by left.
  - apply (log_run_inv b0 [b2; b1; b0] b2); [apply fresh_ok|apply b_run].
  - vm_compute. reflexivity.
  - intros i Hi. rewrite answer_shards, dom_singleton_L, elem_of_singleton in Hi. subst.
    eexists. split; [vm_compute; reflexivity|reflexivity].
Defined.

Lemma migration_deterministic_witness :
  @applyShardMigration some_order answer b2 = @applyShardMigration reverse_order answer b2.
Proof.
  apply (migration_deterministic some_order reverse_order answer b2).
  left. intros i Hi. rewrite answer_shards, dom_singleton_L, elem_of_singleton in Hi. subst.
  eexists. split; [vm_compute; reflexivity|reflexivity].
Defined.

Lemma snapshot_witness : restoreFromSnapshot (snapshot_of a3) a0 = Ok a3.
Proof. apply (shardkv_snapshot_roundtrip a3 a0). vm_compute. reflexivity. Defined.

(** A migration that succeeds is reported as [ErrWrongConfig]: the reply of
    the command that installs shard 7 in group 2 names a wrong configuration. *)
Theorem migration_reports_wrong_config :
  ∃ b', applyCommand (mkCommand ShardMigration (DReply answer)) b2 =
          Ok (b', mkReply "" ErrWrongConfig) ∧
    shards b' !! 7 = Some (mkMachine {["a" := "1"]}%string GC).
Proof. eexists. split; vm_compute; reflexivity. Qed.
End HandoverExample.
