(* ===== verification/ServiceHarnessFacts.v ===== *)
(** What the test harnesses of [kvraft] and [shardctrler] promise to the tests:
    partitions separate the servers as asked and put the leader into the minority,
    and a server that is shut down is cut off and restarts from what it had persisted
    at that moment, whatever the old instance writes afterwards. *)

From S2P Require Import Prelude Gob RaftLog Raft Labrpc Harness ServiceHarness Service KVRaft ShardCtrler.
Import WR SH.

#[local] Open Scope Z_scope.

(** ** [random_handles] *)

(** The handles a clerk gets are those of all servers, in some order. *)
Lemma random_handles_perm {A} (draws : Z → Z) (kvh : list A) :
  (∀ i, 0 ≤ i < len kvh → 0 ≤ draws i < i + 1) →
  ∃ sa, random_handles draws kvh = Some sa ∧ sa ≡ₚ kvh.
Proof.
  intros Hd. unfold random_handles.
  destruct (for_range_inv (len kvh) (λ i sa, let j := draws i in a ← slice_get sa i; b ← slice_get sa j;
    sa ← slice_set sa i b; slice_set sa j a) (λ _ sa, sa ≡ₚ kvh) kvh) as (sa & E & HP); [apply len_nonneg|done| |by exists sa].
  intros i sa Hi HP. simpl. assert (len sa = len kvh) as HL by (unfold len; by rewrite HP).
  specialize (Hd i Hi). destruct (proj2 (slice_get_is_Some sa i)) as [a Ha]; [lia|].
  destruct (proj2 (slice_get_is_Some sa (draws i))) as [b Hb]; [lia|]. rewrite Ha, Hb. simpl.
  destruct (proj2 (slice_set_is_Some sa i b)) as [sa1 E1]; [lia|]. rewrite E1. simpl.
  destruct (proj2 (slice_set_is_Some sa1 (draws i) a)) as [sa2 E2]; [by rewrite (slice_set_len _ _ _ _ E1), HL; lia|].
  exists sa2. split; [done|]. apply slice_set_Some in E1 as [_ ->], E2 as [_ ->].
  apply slice_get_Some in Ha as [_ Ha], Hb as [_ Hb]. by rewrite (swap_Permutation _ _ _ _ _ Ha Hb).
Qed.

(** ** [make_partition] *)

(** The slice of [c] zeros whose first places have been filled with [l]. *)
Definition fill (c : nat) (l : list Z) : list Z := l ++ replicate (c - length l) 0.

Lemma fill_full c l : length l = c → fill c l = l.
Proof. intros <-. unfold fill. by rewrite Nat.sub_diag, app_nil_r. Qed.

Lemma len_fill c l : (length l ≤ c)%nat → len (fill c l) = Z.of_nat c.
Proof. intros ?. unfold len, fill. rewrite length_app, length_replicate. lia. Qed.

Lemma fill_set c l x : (length l < c)%nat → slice_set (fill c l) (len l) x = Some (fill c (l ++ [x])).
Proof.
  intros Hc. apply slice_set_Some. rewrite len_fill by lia. split; [unfold len; lia|].
  unfold fill, len. rewrite Nat2Z.id, length_app. simpl.
  replace (c - length l)%nat with (S (c - (length l + 1))) by lia. simpl.
  rewrite insert_app_r_alt by lia. rewrite Nat.sub_diag. simpl. by rewrite <-app_assoc.
Qed.

Definition others (l i : Z) : list Z := filter (λ x, x ≠ l) (seqZ 0 i).

Lemma others_snoc l i : 0 ≤ i → others l (i + 1) = others l i ++ (if decide (i = l) then [] else [i]).
Proof. apply filter_seqZ_snoc. Qed.

Lemma others_perm l N : 0 ≤ l < N → others l N ++ [l] ≡ₚ seqZ 0 N.
Proof.
  intros Hl. apply NoDup_Permutation.
  - apply list.NoDup_app. split_and!; [apply list.NoDup_filter, NoDup_seqZ| |apply NoDup_singleton].
    intros x [? _]%list_elem_of_filter. set_solver.
  - apply NoDup_seqZ.
  - intros x. unfold others. rewrite elem_of_app, list_elem_of_filter, list_elem_of_singleton, elem_of_seqZ.
    destruct (decide (x = l)); naive_solver lia.
Qed.

Lemma others_length l N : 0 ≤ l < N → Z.of_nat (length (others l N)) = N - 1.
Proof.
  intros Hl. pose proof (Permutation_length (others_perm l N Hl)) as H. rewrite length_app, length_seqZ in H. simpl in H. lia.
Qed.

(** The loop of [split_servers]. *)
Lemma split_loop N l :
  2 ≤ N → 0 ≤ l < N → let k := Z.to_nat (Z.quot N 2 + 1) in let m := Z.to_nat (Z.quot N 2) in
  split_servers N l =
    p2 ← slice_set (fill m (drop k (others l N))) (Z.of_nat m - 1) l;
    Some (fill k (take k (others l N)), p2).
Proof.
  intros HN Hl k m. unfold split_servers. fold k m.
  assert (Hkm : N ≤ Z.of_nat k + Z.of_nat m).
  { unfold k, m. pose proof (Z.quot_rem' N 2). pose proof (Z.rem_bound_pos N 2). pose proof (Z.quot_pos N 2). lia. }
  match goal with |- context [for_range _ ?b _] => set (body := b) end.
  destruct (for_range_inv N body (λ i s, s = (fill k (take k (others l i)), fill m (drop k (others l i)), len (others l i)))
    (replicate k 0, replicate m 0, 0)) as (s & -> & ->); [lia| | |].
  - assert (others l 0 = []) as -> by done. unfold fill. by rewrite take_nil, drop_nil, !Nat.sub_0_r.
  - intros i s Hi ->. unfold body. rewrite others_snoc by lia. destruct (Z.eqb_spec i l) as [->|Hne]; simpl.
    { rewrite decide_True, app_nil_r by done. eauto. }
    rewrite decide_False by done. set (o := others l i).
    assert (Hlt : (length o < k + m)%nat).
    { unfold o. pose proof (Permutation_length (others_perm l N Hl)) as HP. rewrite length_app, length_seqZ in HP. simpl in HP.
      destruct (decide (i ≤ l)).
      - assert (length (others l i) ≤ length (seqZ 0 i))%nat by apply length_filter. rewrite length_seqZ in *. lia.
      - pose proof (others_length l i). lia. }
    rewrite len_fill by (rewrite length_take; lia). unfold len at 1.
    destruct (Z.ltb_spec (Z.of_nat (length o)) (Z.of_nat k)) as [Hk|Hk].
    + rewrite take_ge, drop_ge by lia. fold (len o). rewrite fill_set by lia. simpl. eexists. split; [done|].
      rewrite take_ge, drop_ge by (rewrite length_app; simpl; lia). by rewrite len_app.
    + assert (len o - Z.of_nat k = len (drop k o)) as -> by (unfold len; rewrite length_drop; lia).
      rewrite fill_set by (rewrite length_drop; lia). simpl. eexists. split; [done|].
      rewrite take_app_le, drop_app_le by lia. by rewrite len_app.
  - simpl. rewrite len_fill; [done|]. rewrite length_drop. pose proof (others_length l N Hl). lia.
Qed.

Lemma split_servers_odd m l :
  1 ≤ m → 0 ≤ l < 2 * m + 1 →
  ∃ p1 p2, split_servers (2 * m + 1) l = Some (p1, p2 ++ [l]) ∧
    p1 ++ p2 ++ [l] ≡ₚ seqZ 0 (2 * m + 1) ∧ len p1 = m + 1.
Proof.
  intros Hm Hl. rewrite split_loop by lia.
  assert (Z.quot (2 * m + 1) 2 = m) as ->.
  { symmetry. apply (Z.quot_unique _ _ _ 1); lia. }
  pose proof (others_length l (2 * m + 1) Hl) as HL. set (o := others l (2 * m + 1)) in *.
  set (k := Z.to_nat (m + 1)). set (c := Z.to_nat m).
  assert (len (drop k o) = Z.of_nat c - 1) as <- by (unfold len; rewrite length_drop; lia).
  rewrite fill_set by (rewrite length_drop; lia). cbn [mbind option_bind].
  rewrite !fill_full by (rewrite ?length_app, ?length_drop, ?length_take; simpl; lia).
  exists (take k o), (drop k o). split_and!; [done| |unfold len; rewrite length_take; lia].
  rewrite (assoc_L (++)), take_drop. by apply others_perm.
Qed.

(** ** The promises *)

Section claims.
Context {W Cmd SB S : Type} `{!TestedServer W Cmd SB S}.
Abbreviation config := (SH.config W Cmd SB S).
Implicit Types cfg : config.

Lemma find_leader_range (l : list (option S)) i ok r :
  find_leader i l = Some (ok, r) → l ≠ [] → 0 ≤ i → r = 0 ∨ i ≤ r < i + len l.
Proof.
  revert i. induction l as [|[kv|] l IH]; intros i E Hne Hi; simpl in E; [done| |done].
  unfold len in *. simpl. destruct (ts_GetState kv).2; [simplify_eq; lia|].
  destruct l as [|x l]; [simpl in E; simplify_eq; by left|]. destruct (IH (i + 1) E) as [?|?]; [done|lia|by left|right]. simpl in *. lia.
Qed.

Lemma Leader_range cfg ok l : shaped cfg → 0 < n cfg → Leader cfg = Some (ok, l) → 0 ≤ l < n cfg.
Proof.
  intros Hs Hn E. unfold Leader in E. pose proof (sp_servers _ Hs) as HL. unfold len in HL.
  rewrite take_ge in E by lia. apply find_leader_range in E as [->|?]; [lia|unfold len in *; lia| |done].
  intros Hnil. rewrite Hnil in HL. simpl in HL. lia.
Qed.

(** C28: [make_partition] and [partition] do what the tests rely on. With an odd
    number of servers, all connected or not, they split the servers into a majority
    and a minority that contains the leader; afterwards two servers reach each other
    exactly when they are on the same side. *)
Theorem partition_isolates_leader cfg m ok l :
  ready cfg → shaped cfg → n cfg = 2 * m + 1 → 1 ≤ m → Leader cfg = Some (ok, l) →
  ∃ p1 p2 cfg', make_partition cfg = Some (p1, p2) ∧ partition p1 p2 cfg = Some cfg' ∧
    p1 ++ p2 ≡ₚ seqZ 0 (n cfg) ∧ l ∈ p2 ∧ 2 * len p2 < n cfg ∧
    ∀ i j, 0 ≤ i < n cfg → 0 ≤ j < n cfg → link cfg' i j = bool_decide (i ∈ p1 ↔ j ∈ p1).
Proof.
  intros HR Hs Hn Hm HL. pose proof (Leader_range cfg ok l Hs ltac:(lia) HL) as Hl.
  destruct (split_servers_odd m l Hm) as (p1 & q & E & HP & Hlen); [lia|]. rewrite <-Hn in HP.
  set (p2 := q ++ [l]) in *.
  assert (HND : NoDup (p1 ++ p2)) by (rewrite HP; apply NoDup_seqZ).
  apply list.NoDup_app in HND as (_ & Hd & _).
  assert (Hall : ∀ x, x ∈ p1 ∨ x ∈ p2 ↔ 0 ≤ x < n cfg).
  { intros x. rewrite <-elem_of_app, HP, elem_of_seqZ. lia. }
  assert (Hsum : len p1 + len p2 = n cfg).
  { rewrite <-len_app. unfold len. rewrite HP, length_seqZ. lia. }
  destruct (partition_links p1 p2 cfg HR) as (cfg' & E' & _ & _ & _ & _ & _ & Hlk).
  { split; [naive_solver..|pose proof (len_nonneg p2); lia|pose proof (len_nonneg p1); lia]. }
  exists p1, p2, cfg'. unfold make_partition. rewrite HL. cbn [mbind option_bind]. rewrite Hn, E. rewrite <-Hn.
  split_and!; [done..|unfold p2; set_solver|lia|]. intros i j Hi Hj. rewrite Hlk by done. unfold same_part, cut.
  pose proof (proj2 (Hall i) Hi). pose proof (proj2 (Hall j) Hj). pose proof (Hd i). pose proof (Hd j).
  case_decide; [by rewrite bool_decide_true by tauto|]. case_decide; [by rewrite bool_decide_false by tauto|tauto].
Qed.

(** An instance, running or killed, saves to the persister it was given. *)
Definition write cfg (w : nat * PS.Persister Cmd SB) : config :=
  set_saved (saved cfg) (<[w.1 := w.2]> (persisters cfg)) cfg.

Lemma writes_frame ws cfg :
  net (foldl write cfg ws) = net cfg ∧ n (foldl write cfg ws) = n cfg ∧ servers (foldl write cfg ws) = servers cfg ∧
  saved (foldl write cfg ws) = saved cfg ∧ endnames (foldl write cfg ws) = endnames cfg ∧
  length (persisters (foldl write cfg ws)) = length (persisters cfg).
Proof.
  revert cfg. induction ws as [|w ws IH]; intros cfg; [done|]. simpl. destruct (IH (write cfg w)) as (? & ? & ? & ? & ? & E).
  split_and!; [done..|]. rewrite E. simpl. by rewrite length_insert.
Qed.

Lemma writes_old ws cfg k a :
  (∀ w, w ∈ ws → (w.1 < k)%nat) → (k ≤ a)%nat → persisters (foldl write cfg ws) !! a = persisters cfg !! a.
Proof.
  revert cfg. induction ws as [|w ws IH]; intros cfg Hw Ha; [done|]. simpl. rewrite IH by (done || set_solver). simpl.
  rewrite list_lookup_insert_ne; [done|]. specialize (Hw w). assert (w.1 < k)%nat by (apply Hw; set_solver). lia.
Qed.

(** shutting a server down and starting it again. [ShutdownServer] cuts the
    server off and removes it from the network; whatever the persisters of old
    instances receive afterwards, [StartServer] starts the new instance from the
    state that was persisted when the server was shut down, and it stays cut off
    until it is connected. *)
Theorem restart_from_persisted cfg i :
  ready cfg → shaped cfg → 0 ≤ i < n cfg →
  ∃ cfg1, ShutdownServer i cfg = Some cfg1 ∧ LR.server_of i (net cfg1) = None ∧
    ∀ ws draws, let cfg2 := foldl write cfg1 ws in
      (∀ w, w ∈ ws → (w.1 < length (persisters cfg))%nat) → fresh_draws draws cfg2 →
      is_Some (ts_start (n cfg) i (default PS.MakePersister (saved_state i cfg)) : option S) →
      ∃ cfg3 kv, StartServer draws i cfg2 = Some cfg3 ∧
        ts_start (n cfg) i (default PS.MakePersister (saved_state i cfg)) = Some kv ∧
        slice_get (servers cfg3) i = Some (Some kv) ∧ is_Some (LR.server_of i (net cfg3)) ∧
        ∀ a b, 0 ≤ a < n cfg → 0 ≤ b < n cfg →
          link cfg3 a b = if decide (a = i ∨ b = i) then false else link cfg a b.
Proof.
  intros HR Hs Hi. destruct (ShutdownServer_links i cfg HR Hs Hi) as (c1 & E1 & HR1 & Hs1 & Hn1 & _ & Hdel & Hl1 & Hv1 & Hle & Hnew).
  exists c1. split_and!; [done..|]. intros ws draws c2 Hw Hfr Hst.
  destruct (writes_frame ws c1) as (F1 & F2 & F3 & F4 & F5 & F6). fold c2 in F1, F2, F3, F4, F5, F6.
  assert (Hsv : saved_state i c2 = saved_state i cfg).
  { rewrite <-Hv1. unfold saved_state. rewrite F4. destruct (slice_get (saved c1) i) as [[a|]|] eqn:Ha; [|done..]. simpl.
    unfold c2. rewrite (writes_old ws c1 (length (persisters cfg))); [done|done|by apply Hnew]. }
  destruct (StartServer_spec draws i c2) as (c3 & kv & E3 & HD).
  - rewrite F1, F2, F5. apply HR1.
  - destruct Hs1 as [? ? ? Ha]. split; rewrite ?F2, ?F3, ?F4, ?F6; done.
  - by rewrite F2, Hn1.
  - done.
  - by rewrite F2, Hn1, Hsv.
  - exists c3, kv. destruct HD as [Hd1 _ _ _ Hd5 _ _ Hd8 Hd9 _]. rewrite F2, Hn1, Hsv in Hd1. split_and!; [done..| |done|].
    + by rewrite (slice_get_set _ _ _ _ _ Hd5), decide_True.
    + intros a b Ha Hb. rewrite Hd9. unfold link at 1. rewrite F1, F5. fold (link c1 a b). rewrite Hl1 by done.
      repeat case_decide; naive_solver.
Qed.
End claims.

(** ** The servers under test *)

Section tested.
Context {W : Type}.

(** [kvraft]: [StartKVServer(ends, i, saved[i], maxraftstate)]. *)
Definition kv_tested (sz : rgob KV.Op → Z) (maxraftstate : Z)
    (services : KV.KVServer (RF.Raft KV.Op KV.kgob) → list (LR.Service W)) :
    TestedServer W KV.Op KV.kgob (KV.KVServer (RF.Raft KV.Op KV.kgob)) := {|
  ts_start n i ps :=
    match KV.StartKVServer (RF.Make n i ps) (PS.ReadSnapshot ps) maxraftstate with
    | Ok kv => Some kv
    | _ => None
    end;
  ts_Kill := @KV.Kill _ (raft_is_peer sz);
  ts_GetState kv := RF.GetState (KV.rf kv);
  ts_services := services
|}.

(** [shardctrler]: [StartServer(ends, i, saved[i])]. *)
Definition ctrler_tested (sz : rgob SC.Op → Z)
    (services : SC.ShardCtrler (RF.Raft SC.Op unit) → list (LR.Service W)) :
    TestedServer W SC.Op unit (SC.ShardCtrler (RF.Raft SC.Op unit)) := {|
  ts_start n i ps := Some (SC.StartServer (RF.Make n i ps));
  ts_Kill := @SC.Kill _ unit (raft_is_peer sz);
  ts_GetState sc := RF.GetState (SC.rf sc);
  ts_services := services
|}.
End tested.

(** ** [shardctrler/config.go] *)

Section ctrler.
Context {W : Type} `{TS : !TestedServer W SC.Op unit (SC.ShardCtrler (RF.Raft SC.Op unit))}.
Abbreviation config := (SH.config W SC.Op unit (SC.ShardCtrler (RF.Raft SC.Op unit))).
Implicit Types cfg : config.

Definition ctrler_random_handles (draws : Z → Z) (kvh : list Z) : option (list Z) := random_handles draws kvh.
Definition ctrler_connectUnlocked (i : Z) (to : list Z) cfg : option config := connectUnlocked i to cfg.
Definition ctrler_disconnectUnlocked (i : Z) (from : list Z) cfg : option config := disconnectUnlocked i from cfg.
Definition ctrler_ConnectAll cfg : option config := ConnectAll cfg.
Definition ctrler_partition (p1 p2 : list Z) cfg : option config := partition p1 p2 cfg.
Definition ctrler_makeClient (draws : Z → Z) (ck : Z) (to : list Z) cfg : option config := makeClient draws ck to cfg.
Definition ctrler_deleteClient (ck : Z) cfg : config := deleteClient ck cfg.
Definition ctrler_ConnectClientUnlocked (ck : Z) (to : list Z) cfg : option config := ConnectClientUnlocked ck to cfg.
Definition ctrler_DisconnectClientUnlocked (ck : Z) (from : list Z) cfg : option config := DisconnectClientUnlocked ck from cfg.
Definition ctrler_ShutdownServer (i : Z) cfg : option config := ShutdownServer i cfg.
Definition ctrler_StartServer (draws : Z → Z) (i : Z) cfg : option config := StartServer draws i cfg.
Definition ctrler_cleanup cfg : option config := cleanup cfg.
Definition ctrler_LogSize (sz : rgob SC.Op → Z) cfg : option Z := LogSize sz cfg.
Definition ctrler_make_config (draws : Z → Z → Z) (N : Z) (unreliable : bool) : option config := make_config draws N unreliable.

(** Here a server that has been shut down is passed over. *)
Fixpoint ctrler_find_leader (i : Z) (l : list (option (SC.ShardCtrler (RF.Raft SC.Op unit)))) : bool * Z :=
  match l with
  | [] => (false, 0)
  | None :: l => ctrler_find_leader (i + 1) l
  | Some sc :: l => if (ts_GetState sc).2 then (true, i) else ctrler_find_leader (i + 1) l
  end.

Definition ctrler_Leader cfg : bool * Z := ctrler_find_leader 0 (take (Z.to_nat (n cfg)) (servers cfg)).

Definition ctrler_make_partition cfg : option (list Z * list Z) := split_servers (n cfg) (ctrler_Leader cfg).2.
End ctrler.

(** ** Runs *)

Module HarnessRuns.

Abbreviation server := (KV.KVServer (RF.Raft KV.Op KV.kgob)).
Abbreviation config := (SH.config unit KV.Op KV.kgob server).

#[local] Instance tested : TestedServer unit KV.Op KV.kgob server := kv_tested (λ _, 1) (-1) (λ _, []).

Definition draws (i j : Z) : Z := 100 + 3 * i + j.
Definition nobody : config := mkConfig LR.MakeNetwork 0 [] [] [] [] ∅ 0 0 0.
Definition booted : config := default nobody (make_config draws 3 false).

(** Server 1 leads. *)
Definition lead (kv : server) : server := KV.set_rf (RF.set_role Raft.Leader (KV.rf kv)) kv.
Definition elected : config := set_servers (alter (option_map lead) 1%nat (servers booted)) booted.

Lemma draws_distinct : distinct_draws draws 3.
Proof. intros i j i' j' ? ? ? ? E. unfold draws in E. lia. Qed.

Lemma booted_ok : ready booted ∧ shaped booted ∧ n booted = 3.
Proof.
  destruct (make_config_links (S:=server) draws 3 false) as (cfg & E & HR & Hs & Hn & _); [done|apply draws_distinct| |].
  - intros i _. eexists. reflexivity.
  - assert (booted = cfg) as -> by exact (f_equal (default nobody) E). exact (conj HR (conj Hs Hn)).
Qed.

Lemma new_servers_ok v (cfg : config) :
  ready cfg → shaped cfg → len v = n cfg → ready (set_servers v cfg) ∧ shaped (set_servers v cfg).
Proof. intros HR [] Hv. split; [done|]. by split. Qed.

Lemma elected_ok : ready elected ∧ shaped elected.
Proof.
  destruct booted_ok as (HR & Hs & _). apply (new_servers_ok _ booted HR Hs). unfold len. rewrite length_alter.
  exact (sp_servers _ Hs).
Qed.

Lemma isolates_leader_witness :
  Leader elected = Some (true, 1) ∧
  ∃ p1 p2 cfg', make_partition elected = Some (p1, p2) ∧ partition p1 p2 elected = Some cfg' ∧
    p1 ++ p2 ≡ₚ seqZ 0 (n elected) ∧ 1 ∈ p2 ∧ 2 * len p2 < n elected ∧
    ∀ i j, 0 ≤ i < n elected → 0 ≤ j < n elected → link cfg' i j = bool_decide (i ∈ p1 ↔ j ∈ p1).
Proof.
  split; [vm_compute; reflexivity|]. apply (partition_isolates_leader elected 1 true 1).
  - apply elected_ok.
  - apply elected_ok.
  - vm_compute. reflexivity.
  - lia.
  - vm_compute. reflexivity.
Defined.

Lemma restart_persisted_witness :
  ∃ cfg1, ShutdownServer 1 booted = Some cfg1 ∧ LR.server_of 1 (net cfg1) = None ∧
    ∀ ws ds, let cfg2 := foldl write cfg1 ws in
      (∀ w, w ∈ ws → (w.1 < length (persisters booted))%nat) → fresh_draws ds cfg2 →
      is_Some (ts_start (n booted) 1 (default PS.MakePersister (saved_state 1 booted)) : option server) →
      ∃ cfg3 kv, StartServer ds 1 cfg2 = Some cfg3 ∧
        ts_start (n booted) 1 (default PS.MakePersister (saved_state 1 booted)) = Some kv ∧
        slice_get (servers cfg3) 1 = Some (Some kv) ∧ is_Some (LR.server_of 1 (net cfg3)) ∧
        ∀ a b, 0 ≤ a < n booted → 0 ≤ b < n booted →
          link cfg3 a b = if decide (a = 1 ∨ b = 1) then false else link booted a b.
Proof.
  apply (restart_from_persisted booted 1).
  - apply booted_ok.
  - apply booted_ok.
  - destruct booted_ok as (_ & _ & ->). lia.
Defined.

(** With four servers the second slice has a place that is never filled: server 0 is
    on both sides, and both sides stay connected through it. *)
Example even_partition : split_servers 4 1 = Some ([0; 2; 3], [0; 1]).
Proof. vm_compute. reflexivity. Qed.

(** With one server there is no place for the leader. *)
Example single_partition : split_servers 1 0 = None.
Proof. vm_compute. reflexivity. Qed.

(** [Leader] of [kvraft] panics once server 0 is shut down and nobody leads. *)
Example leader_of_shut_down : (cfg ← ShutdownServer 0 booted; Leader cfg) = None.
Proof. vm_compute. reflexivity. Qed.

(** Disconnecting from a server that was never started panics, although the code
    means to skip it: it tests [endnames[j]] instead of [endnames[from[j]]]. *)
Definition first_only : config :=
  default nobody (StartServer (draws 0) 0 (mkConfig LR.MakeNetwork 3 [None; None; None] [None; None; None] []
                                             [None; None; None] ∅ 1003 0 0)).
Example disconnect_unstarted :
  slice_get (endnames first_only) 1 = Some None ∧ disconnectUnlocked 0 [1] first_only = None.
Proof. vm_compute. done. Qed.
End HarnessRuns.
