(* ===== verification/ShardHarness.v ===== *)
(** The test harness of [shardkv]: [src/src/shardkv/config.go].

    Three shard controllers and three groups of [n] servers on one network.  Server
    names are strings, and [name_of] is their number in [Labrpc].  As in
    [ServiceHarness], [saved[i]] is an address in [persisters], [None] is a panic or
    [log.Fatal], and random strings are arguments.

    The slices of the harness have lengths that only fit [n = 3]: the theorem at the
    end says what the other numbers do. *)

From stdpp Require Import strings pretty.
From S2P Require Import Prelude Gob RaftLog Raft Labrpc Harness ServiceHarness Service ShardCtrler ShardKV.

#[local] Open Scope Z_scope.

Module SKH.

(** ** Names *)

Definition name_of (s : string) : Z := Z.pos (encode s).
Definition ctrlername (i : Z) : string := ("ctrler" +:+ pretty i)%string.
Definition servername (gid i : Z) : string := ("server-" +:+ pretty gid +:+ "-" +:+ pretty i)%string.

Section config.
Context {ro : RangeOrder} {W : Type}.
Abbreviation Ctrler := (SC.ShardCtrler (RF.Raft SC.Op unit)).
Abbreviation Server := (SKV.ShardKV (RF.Raft SKV.RaftCommand SKV.sgob)).
Abbreviation Persister := (PS.Persister SKV.RaftCommand SKV.sgob).

(** The services [labrpc.MakeService] finds in a server and in its Raft peer. *)
Context (ctrler_services : Ctrler → list (LR.Service W)) (services : Server → list (LR.Service W)).

Record group := mkGroup {
  gid : Z;
  g_servers : list (option Server);
  g_saved : list (option nat);
  g_endnames : list (option (list Z));
  mendnames : list (option (list Z))
}.

Record config := mkConfig {
  net : LR.Network W;
  nctrlers : Z;
  ctrlerservers : list (option Ctrler);
  mck : option Clerk;
  ngroups : Z;
  n : Z;
  groups : list (option group);
  persisters : list Persister;
  clerks : gmap Z (list Z);
  nextClientId : Z;
  maxraftstate : Z
}.
Implicit Types (cfg : config) (gg : group).

Definition set_net v cfg := mkConfig v (nctrlers cfg) (ctrlerservers cfg) (mck cfg) (ngroups cfg) (n cfg) (groups cfg) (persisters cfg) (clerks cfg) (nextClientId cfg) (maxraftstate cfg).
Definition set_ctrlers v cfg := mkConfig (net cfg) (nctrlers cfg) v (mck cfg) (ngroups cfg) (n cfg) (groups cfg) (persisters cfg) (clerks cfg) (nextClientId cfg) (maxraftstate cfg).
Definition set_mck v cfg := mkConfig (net cfg) (nctrlers cfg) (ctrlerservers cfg) v (ngroups cfg) (n cfg) (groups cfg) (persisters cfg) (clerks cfg) (nextClientId cfg) (maxraftstate cfg).
Definition set_groups v cfg := mkConfig (net cfg) (nctrlers cfg) (ctrlerservers cfg) (mck cfg) (ngroups cfg) (n cfg) v (persisters cfg) (clerks cfg) (nextClientId cfg) (maxraftstate cfg).
Definition set_persisters v cfg := mkConfig (net cfg) (nctrlers cfg) (ctrlerservers cfg) (mck cfg) (ngroups cfg) (n cfg) (groups cfg) v (clerks cfg) (nextClientId cfg) (maxraftstate cfg).
Definition set_clerks v i cfg := mkConfig (net cfg) (nctrlers cfg) (ctrlerservers cfg) (mck cfg) (ngroups cfg) (n cfg) (groups cfg) (persisters cfg) v i (maxraftstate cfg).

(** [groups[gi]]; nil panics. *)
Definition get_group (gi : Z) cfg : option group := g ← slice_get (groups cfg) gi; g.
Definition set_group (gi : Z) gg cfg : option config :=
  gs ← slice_set (groups cfg) gi (Some gg); Some (set_groups gs cfg).

(** ** Ends *)

(** The function given to clerks and servers to reach a server by name. *)
Definition make_end (name : Z) (server : string) (rn : LR.Network W) : option (LR.Network W) :=
  rn ← LR.MakeEnd name rn;
  Some (LR.Enable name true (LR.Connect name (name_of server) rn)).

(** One enabled end for each name, to [target]. *)
Definition enabled_ends (names : list Z) (target : Z → string) (rn : LR.Network W) : option (LR.Network W) :=
  for_range (len names) (λ j rn, name ← slice_get names j; make_end name (target j) rn) rn.

Definition disable (names : list Z) cfg : config :=
  set_net (foldl (λ rn name, LR.Enable name false rn) (net cfg) names) cfg.

(** ** Clerks *)

(** [endnames] has [n] places and [nctrlers] names are written to it; [ck] is the
    address of the new clerk. *)
Definition makeClient (draws : Z → Z) (ck : Z) cfg : option config :=
  '(endnames, rn) ← for_range (nctrlers cfg) (λ j '(endnames, rn),
     endnames ← slice_set endnames j (draws j);
     rn ← make_end (draws j) (ctrlername j) rn;
     Some (endnames, rn)) (replicate (Z.to_nat (n cfg)) 0, net cfg);
  let cfg := set_net rn cfg in
  Some (set_clerks (<[ck := endnames]> (clerks cfg)) (nextClientId cfg + 1) cfg).

(** [os.Remove] of the end names touches no file. *)
Definition deleteClient (ck : Z) cfg : config := set_clerks (delete ck (clerks cfg)) (nextClientId cfg) cfg.

(** ** Servers *)

(** A copy of [saved[i]], or [MakePersister] when there is none and [fresh] is set. *)
Definition copy_saved (fresh : bool) (gi i : Z) cfg : option config :=
  gg ← get_group gi cfg;
  sv ← slice_get (g_saved gg) i;
  ps ← match sv with
       | Some a => ps ← persisters cfg !! a; Some (Some (PS.Copy ps))
       | None => Some (if fresh then Some PS.MakePersister else None)
       end;
  match ps with
  | None => Some cfg
  | Some ps =>
      saved' ← slice_set (g_saved gg) i (Some (length (persisters cfg)));
      cfg ← set_group gi (mkGroup (gid gg) (g_servers gg) saved' (g_endnames gg) (mendnames gg)) cfg;
      Some (set_persisters (persisters cfg ++ [ps]) cfg)
  end.

(** [gg.endnames[i][j]] for all [j < len(gg.servers)], and [gg.mendnames[i]]. *)
Definition ShutdownServer (gi i : Z) cfg : option config :=
  gg ← get_group gi cfg;
  row ← slice_get (g_endnames gg) i;
  cfg ← for_range (len (g_servers gg)) (λ j cfg,
          names ← row; name ← slice_get names j; Some (disable [name] cfg)) cfg;
  mrow ← slice_get (mendnames gg) i;
  let cfg := disable (default [] mrow) cfg in
  let cfg := set_net (LR.DeleteServer (name_of (servername (gid gg) i)) (net cfg)) cfg in
  cfg ← copy_saved false gi i cfg;
  gg ← get_group gi cfg;
  kv ← slice_get (g_servers gg) i;
  match kv with
  | None => Some cfg
  | Some _ =>
      servers' ← slice_set (g_servers gg) i None;
      set_group gi (mkGroup (gid gg) servers' (g_saved gg) (g_endnames gg) (mendnames gg)) cfg
  end.

Definition ShutdownGroup (gi : Z) cfg : option config :=
  for_range (n cfg) (λ i, ShutdownServer gi i) cfg.

(** [srv := labrpc.MakeServer()] with its services, added under [name]. *)
Definition add_server (name : string) (svcs : list (LR.Service W)) (rn : LR.Network W) : LR.Network W :=
  let srv := foldl (λ srv svc, LR.AddService svc srv) LR.MakeServer svcs in
  LR.AddServer (name_of name) (length (LR.heap rn)) (LR.set_heap (LR.heap rn ++ [srv]) rn).

(** [shardkv.StartServer(ends, i, saved[i], maxraftstate, gid, mends, make_end)]. *)
Definition start_server (i : Z) (ps : Persister) gg cfg : option Server :=
  match SKV.StartServer (RF.Make (n cfg) i ps) (PS.ReadSnapshot ps) (maxraftstate cfg) (gid gg) with
  | Ok kv => Some kv
  | _ => None
  end.

Definition StartServer (draws mdraws : Z → Z) (gi i : Z) cfg : option config :=
  gg ← get_group gi cfg;
  let names := draws <$> seqZ 0 (n cfg) in
  es ← slice_set (g_endnames gg) i (Some names);
  rn ← enabled_ends names (servername (gid gg)) (net cfg);
  let mnames := mdraws <$> seqZ 0 (nctrlers cfg) in
  ms ← slice_set (mendnames gg) i (Some mnames);
  rn ← enabled_ends mnames ctrlername rn;
  cfg ← set_group gi (mkGroup (gid gg) (g_servers gg) (g_saved gg) es ms) (set_net rn cfg);
  cfg ← copy_saved true gi i cfg;
  gg ← get_group gi cfg;
  sv ← slice_get (g_saved gg) i; a ← sv; ps ← persisters cfg !! a;
  kv ← start_server i ps gg cfg;
  servers' ← slice_set (g_servers gg) i (Some kv);
  cfg ← set_group gi (mkGroup (gid gg) servers' (g_saved gg) (g_endnames gg) (mendnames gg)) cfg;
  Some (set_net (add_server (servername (gid gg) i) (services kv) (net cfg)) cfg).

Definition StartGroup (draws mdraws : Z → Z → Z) (gi : Z) cfg : option config :=
  for_range (n cfg) (λ i, StartServer (draws i) (mdraws i) gi i) cfg.

Definition StartCtrlerserver (draws : Z → Z) (i : Z) cfg : option config :=
  rn ← enabled_ends (draws <$> seqZ 0 (nctrlers cfg)) ctrlername (net cfg);
  let sc := SC.StartServer (RF.Make (nctrlers cfg) i PS.MakePersister) in
  cs ← slice_set (ctrlerservers cfg) i (Some sc);
  Some (set_ctrlers cs (set_net (add_server (ctrlername i) (ctrler_services sc) rn) cfg)).

(** [shardctrler.MakeClerk] draws the client id. *)
Definition shardclerk (draws : Z → Z) (id : Z) cfg : option config :=
  rn ← enabled_ends (draws <$> seqZ 0 (nctrlers cfg)) ctrlername (net cfg);
  Some (set_mck (Some (MakeClerk (nctrlers cfg) id)) (set_net rn cfg)).

(** ** Configurations *)

(** What [joinm] and [leavem] hand to the clerk of the controllers. *)
Definition joinm (gis : list Z) cfg : option (gmap Z (list string)) :=
  for_list gis (λ g m,
    gg ← get_group g cfg;
    Some (<[gid gg := servername (gid gg) <$> seqZ 0 (n cfg)]> m)) ∅.

Definition leavem (gis : list Z) cfg : option (list Z) :=
  for_list gis (λ g gids, gg ← get_group g cfg; Some (gids ++ [gid gg])) [].

Definition join (gi : Z) cfg : option (gmap Z (list string)) := joinm [gi] cfg.
Definition leave (gi : Z) cfg : option (list Z) := leavem [gi] cfg.

(** [checklogs]; the sizes count bytes. *)
Definition checklogs (sz : rgob SKV.RaftCommand → Z) (snapsz : SKV.sgob → Z) cfg : option unit :=
  for_range (ngroups cfg) (λ gi u,
    for_range (n cfg) (λ i u,
      gg ← get_group gi cfg;
      sv ← slice_get (g_saved gg) i; a ← sv; ps ← persisters cfg !! a;
      let raft := PS.RaftStateSize sz ps in
      let snap := foldr (λ v k, snapsz v + k) 0 (PS.ReadSnapshot ps) in
      if (0 <=? maxraftstate cfg) && (8 * maxraftstate cfg <? raft) then None
      else if (maxraftstate cfg <? 0) && (0 <? snap) then None
      else Some u) u) tt.

(** The loop of [make_config] for group [gi]; [make] of a negative length panics. *)
Definition make_group (draws mdraws : Z → Z → Z → Z) (gi : Z) cfg : option config :=
  let k := Z.to_nat (n cfg) in
  _ ← guard (0 ≤ n cfg);
  let gg := mkGroup (100 + gi) (replicate k None) (replicate k None) (replicate k None)
              (replicate (Z.to_nat (nctrlers cfg)) None) in
  cfg ← set_group gi gg cfg;
  for_range (n cfg) (λ i, StartServer (draws gi i) (mdraws gi i) gi i) cfg.

Definition make_config (cdraws : Z → Z → Z) (kdraws : Z → Z) (kid : Z) (draws mdraws : Z → Z → Z → Z)
    (n : Z) (unreliable : bool) (maxraftstate : Z) : option config :=
  let cfg := mkConfig LR.MakeNetwork 3 (replicate 3 None) None 3 n (replicate 3 None) [] ∅ 0 maxraftstate in
  cfg ← for_range (nctrlers cfg) (λ i, StartCtrlerserver (cdraws i) i) cfg;
  cfg ← shardclerk kdraws kid cfg;
  cfg ← for_range (ngroups cfg) (make_group draws mdraws) cfg;
  let cfg := set_clerks ∅ (n + 1000) cfg in
  Some (set_net (LR.Reliable (negb unreliable) (net cfg)) cfg).

(** [cleanup] up to the time limit; [sz] counts the bytes a peer saves. *)
Definition cleanup (sz : rgob SC.Op → Z) cfg : option config :=
  cfg ← for_range (ngroups cfg) ShutdownGroup cfg;
  cs ← for_range (nctrlers cfg) (λ i cs,
         o ← slice_get cs i; sc ← o; slice_set cs i (Some (@SC.Kill _ unit (raft_is_peer sz) sc))) (ctrlerservers cfg);
  let cfg := set_ctrlers cs cfg in
  rn ← LR.Cleanup (net cfg);
  Some (set_net rn cfg).

(** ** The number of servers *)

(** The number of rows of [mendnames] of the groups. *)
Definition sized (z k : Z) cfg : Prop :=
  n cfg = z ∧ nctrlers cfg = k ∧
  ∀ gi gg, get_group gi cfg = Some gg → len (mendnames gg) = k.

Lemma get_group_set gi gg cfg cfg' g :
  set_group gi gg cfg = Some cfg' →
  get_group g cfg' = if decide (gi = g) then Some gg else get_group g cfg.
Proof.
  unfold set_group, get_group. intros (gs & E & [= <-])%bind_Some. simpl.
  rewrite (slice_get_set _ _ _ _ _ E). by case_decide.
Qed.

Lemma set_group_same gi gg cfg cfg' :
  set_group gi gg cfg = Some cfg' → n cfg' = n cfg ∧ nctrlers cfg' = nctrlers cfg ∧ ngroups cfg' = ngroups cfg.
Proof. unfold set_group. by intros (gs & _ & [= <-])%bind_Some. Qed.

Lemma sized_set_group z k gi gg cfg cfg' :
  sized z k cfg → len (mendnames gg) = k → set_group gi gg cfg = Some cfg' → sized z k cfg'.
Proof.
  intros (Hn & Hk & Hg) Hl E. destruct (set_group_same _ _ _ _ E) as (En & Ek & _).
  unfold sized. rewrite En, Ek. split; [done|]. split; [done|]. intros g gg'. rewrite (get_group_set _ _ _ _ _ E).
  case_decide; [by intros [= <-]|apply Hg].
Qed.

Lemma sized_copy_saved z k fresh gi i cfg cfg' :
  sized z k cfg → copy_saved fresh gi i cfg = Some cfg' → sized z k cfg'.
Proof.
  intros Hs (gg & Hg & E)%bind_Some. apply bind_Some in E as (sv & _ & E). apply bind_Some in E as (ps & _ & E).
  destruct ps as [ps|]; [|by simplify_eq]. apply bind_Some in E as (saved' & _ & E).
  apply bind_Some in E as (cfg1 & E1 & [= <-]). change (sized z k cfg1).
  eapply (sized_set_group z k); [done| |done].
  exact (proj2 (proj2 Hs) gi gg Hg).
Qed.

(** A server that is started has a row in [mendnames]. *)
Lemma sized_StartServer z k draws mdraws gi i cfg cfg' :
  sized z k cfg → StartServer draws mdraws gi i cfg = Some cfg' → i < k ∧ sized z k cfg'.
Proof.
  intros Hs E. pose proof Hs as (Hn & Hk & Hl). unfold StartServer in E.
  apply bind_Some in E as (gg & Hg & E). apply bind_Some in E as (es & _ & E). apply bind_Some in E as (rn & _ & E).
  apply bind_Some in E as (ms & Hm & E). apply bind_Some in E as (rn' & _ & E). apply bind_Some in E as (cfg1 & E1 & E).
  apply bind_Some in E as (cfg2 & E2 & E). apply bind_Some in E as (gg2 & Hg2 & E). apply bind_Some in E as (sv & _ & E).
  apply bind_Some in E as (a & _ & E). apply bind_Some in E as (ps & _ & E). apply bind_Some in E as (kv & _ & E).
  apply bind_Some in E as (sv' & _ & E). apply bind_Some in E as (cfg3 & E3 & [= <-]).
  assert (len ms = k) as Hms by (rewrite (slice_set_len _ _ _ _ Hm); eauto).
  assert (sized z k cfg2) as Hs2.
  { eapply sized_copy_saved; [|done]. refine (sized_set_group z k _ _ (set_net rn' cfg) _ Hs _ E1). exact Hms. }
  split; [|change (sized z k cfg3); eapply (sized_set_group z k); [done| |done]; exact (proj2 (proj2 Hs2) gi gg2 Hg2)].
  unfold slice_set in Hm. rewrite (Hl gi gg Hg) in Hm. case_decide; [lia|done].
Qed.

Lemma sized_make_group z k draws mdraws gi cfg cfg' :
  0 ≤ k → sized z k cfg → make_group draws mdraws gi cfg = Some cfg' → z ≤ k ∧ sized z k cfg'.
Proof.
  intros Hk0 Hs E. pose proof Hs as (Hn & Hk & Hl). unfold make_group in E.
  apply bind_Some in E as (? & _ & E). apply bind_Some in E as (cfg1 & E1 & E).
  assert (n cfg1 = z) as Hn1 by by rewrite (proj1 (set_group_same _ _ _ _ E1)).
  destruct (for_range_post _ _ (λ i cfg, i ≤ k ∧ sized z k cfg) _ _ E) as [? ?]; [| |split; [lia|done]].
  - split; [done|]. eapply (sized_set_group z k); [done| |done]. simpl. unfold len. rewrite length_replicate. lia.
  - intros i c1 c2 _ [_ Hs1] [? ?]%(sized_StartServer z k); [|done]. split; [lia|done].
Qed.

Lemma sized_make_config cdraws kdraws kid draws mdraws z unreliable m cfg :
  make_config cdraws kdraws kid draws mdraws z unreliable m = Some cfg → z ≤ 3 ∧ n cfg = z ∧ nctrlers cfg = 3.
Proof.
  unfold make_config. cbv zeta. intros (cfg1 & E1 & E)%bind_Some. apply bind_Some in E as (cfg2 & E2 & E).
  apply bind_Some in E as (cfg3 & E3 & [= <-]). simpl.
  assert (sized z 3 cfg1 ∧ ngroups cfg1 = 3) as Hs1.
  { apply (for_range_post _ _ (λ _ cfg, sized z 3 cfg ∧ ngroups cfg = 3) _ _ E1).
    - split; [|done]. split; [done|]. split; [done|]. intros gi gg (o & Ho & ->)%bind_Some. exfalso.
      apply slice_get_Some in Ho as [_ Ho]. by apply lookup_replicate in Ho as [[=] _].
    - intros i c c1 _ Hs (rn & _ & (cs & _ & [= <-])%bind_Some)%bind_Some. exact Hs. }
  destruct Hs1 as [Hs1 Hg1]. unfold shardclerk in E2. apply bind_Some in E2 as (rn & _ & [= <-]).
  change (ngroups _) with (ngroups cfg1) in E3. rewrite Hg1 in E3.
  destruct (for_range_post _ _ (λ gi cfg, (0 < gi → z ≤ 3) ∧ sized z 3 cfg) _ _ E3) as [Hz Hs].
  - split; [lia|exact Hs1].
  - intros gi c c1 _ [_ Hs] [? ?]%(sized_make_group z 3); [|lia|done]. by split.
  - split; [by apply Hz|]. by destruct Hs as (? & ? & _).
Qed.

(** The end names of a clerk fit in as many places as a group has servers. *)
Lemma makeClient_fits draws ck cfg cfg' : makeClient draws ck cfg = Some cfg' → nctrlers cfg ≤ Z.max 0 (n cfg).
Proof.
  intros ([endnames rn] & E & _)%bind_Some.
  pose proof (for_range_post _ _ (λ j '(es, _), j ≤ len es ∧ len es = Z.max 0 (n cfg)) _ _ E) as H.
  simpl in H. destruct H; [|..|lia].
  - unfold len. rewrite length_replicate. lia.
  - intros j [es1 r1] [es2 r2] _ [_ Hl] (es & Es & (r & _ & [= <- <-])%bind_Some)%bind_Some.
    rewrite (slice_set_len _ _ _ _ Es). split; [|done]. unfold slice_set in Es. case_decide; [lia|done].
Qed.

(** the harness of [shardkv] only fits three servers per group: with more,
    [make_config] panics, because [mendnames] has a row per controller and is indexed by
    server; with fewer no clerk can be made, because the names of the ends to the three
    controllers are written to a slice of [n] places. *)
Theorem harness_only_fits_three cdraws kdraws kid draws mdraws z unreliable m cfg :
  make_config cdraws kdraws kid draws mdraws z unreliable m = Some cfg →
  z ≤ 3 ∧ (z ≠ 3 → ∀ names ck, makeClient names ck cfg = None).
Proof.
  intros (Hz & Hn & Hk)%sized_make_config. split; [done|]. intros Hne names ck.
  apply eq_None_not_Some. intros [cfg' Hm%makeClient_fits]. lia.
Qed.
End config.
Arguments config : clear implicits.
End SKH.

(** ** Runs *)

Module ShardHarnessRuns.
Import SKH.

#[local] Existing Instance some_order.

(** A harness with [z] servers per group, all names different. *)
Definition tested (z : Z) : option (config unit) :=
  make_config (λ _, []) (λ _, []) (λ i j, 3 * i + j) (λ j, 10 + j) 7
    (λ gi i j, 100 + 100 * gi + 10 * i + j) (λ gi i j, 500 + 100 * gi + 10 * i + j) z false (-1).

(** With three servers per group a clerk is made, and all servers are stopped again. *)
Example three_servers :
  (cfg ← tested 3; cfg ← makeClient (λ j, 1000 + j) 1 cfg; clerks cfg !! 1) = Some [1000; 1001; 1002] ∧
  is_Some (cfg ← tested 3; cleanup (λ _, 1) cfg) ∧ tested 4 = None.
Proof. vm_compute. by split_and!; eauto. Qed.

Lemma fits_three_witness :
  ∃ cfg, tested 2 = Some cfg ∧ makeClient (λ j, 1000 + j) 1 cfg = None.
Proof.
  destruct (tested 2) as [cfg|] eqn:E; [|exfalso; vm_compute in E; discriminate].
  exists cfg. split; [done|]. apply (harness_only_fits_three _ _ _ _ _ _ _ 2 _ _ _ E). lia.
Defined.
End ShardHarnessRuns.
